(* ===== verification/_CoqProject ===== *)
-Q . S2P
Prelude.v
Errors.v
Crates.v
Io.v
Format.v
Source.v
Limits.v
Crypto.v
Utf8.v
Path.v
Toc.v
Layout.v
Options.v
Index.v
Open.v
Reader.v
Range.v
Writer.v
Packing.v
Assets.v
Finish.v
Pack.v
Frame.v
Roundtrip.v
Retarget.v
FfiTypes.v
FfiIo.v
Fs.v
Paths.v
System.v
Cli.v
CliCollect.v
CliPack.v
CliNames.v
CliReport.v
CliSpec.v
FfiMem.v
FfiArchive.v
FfiPack.v
FfiSound.v
FfiPackSound.v
FfiCalls.v
FfiSpec.v
FfiFile.v
