(* ===== verification/Prelude.v ===== *)
(** * Rasen Archive: a verification library

    The workspace has three crates.  [rasen-archive] reads and writes RPAK
    archives: a 60-byte header, the payload (the stored chunks of the assets,
    aligned), and a compressed, protected table of contents (TOC).
    [rasen-archive-ffi] is its C interface, [rasen-packer] a command line tool
    over it.  Paths below are relative to [src/crates/rasen-archive/src],
    [ffi/] stands for [src/crates/rasen-archive-ffi/src] and [cli/] for
    [src/crates/rasen-packer/src].

    ** The parts and their files

    The library:
    - [Prelude] (this file): bytes, machine integers as [Z] in a range, the
      outcome type [Result] (a value, an error, or a Rust panic), slices,
      little-endian integers, the state-and-outcome monad [ST], and the rules
      [safe], [ssafe] and [decides] the proofs are built from.
    - [Errors]: [error.rs] and the part of [std::io::Error] it uses.
    - [Crates]: the third-party crates (hash, LZ4, AEAD, key derivation,
      random numbers), the allocator and the unstable sort, as the class
      [Crates]; the classes [HashSpec], [CompressSpec], [DecompressSpec],
      [AeadSpec], [AllocSpec], [SortSpec] state their documented behaviour,
      and [Toy.crates] is an instance of all of them.
    - [Io]: [std::io] ([Read], [Write] + [Seek], [Cursor<Vec<u8>>]) and the
      contracts of readers and destinations.
    - [Format]: [format/mod.rs], [format/io.rs], [format/header.rs].
    - [Source]: [archive/source.rs], the class [RandomAccessRead] with its
      instances for slices, [Arc], [Cursor], [File] and [BufReader<File>], and
      the laws [SourceSafe], [SourceHolds] and [SourceReliable] the archive's
      theorems are proved against.
    - [Limits]: [ArchiveLimits], [validate_limits] of [archive/reader.rs].
    - [Crypto]: [crypto/xor.rs], [crypto/aead.rs], [compression/lz4.rs].
    - [Utf8], [Path]: [path.rs], [hash.rs] and the UTF-8 check they rely on.
    - [Toc], [Layout]: [format/model.rs], and [encode_toc], [decode_toc] and
      [validate_layout] of [format/toc.rs].
    - [Options]: [pack/options.rs].
    - [Index], [Open], [Reader], [Range]: [archive/reader.rs]: the identifier
      index and lookups; [open_with_limits] and the invariant [ArchiveWf]; whole
      assets, single chunks and [verify]; range reads.
    - [Writer]: [pack/writer.rs], the packer; [Packing], [Assets], [Finish],
      [Pack]: its invariant on the chunks, on the entries, the finished file
      ([Packed]) and whole runs; [Frame]: the packer touches its destination
      only through [Write] and [Seek].
    - [Roundtrip]: packing, then opening, then reading; [Retarget]: an archive
      over a file and over its content in memory read the same.

    Files: [Fs] is the class [FileSystem] with its laws [FileSystemSpec] (what
    the crates use of [std::fs] on files), a file open for writing, and the
    instance [Plain].

    The C interface:
    - [FfiTypes]: [ffi/types.rs] (statuses, structs, conversions) and
      [ffi/error.rs]; [FfiIo]: the callback source, reader and writer of
      [ffi/io.rs].
    - [FfiMem]: the memory of typed cells the calls share with their caller,
      [ffi_call], and the pointer checks of [ffi/io.rs]; [FfiArchive],
      [FfiPack]: the exported functions of [ffi/archive.rs], [ffi/pack.rs].
    - [FfiSound], [FfiPackSound]: every call is defined on a valid memory;
      [FfiCalls]: histories of calls; [FfiSpec], [FfiFile]: the calls' results.

    The command line tool:
    - [Paths], [System]: [std::path], directories (the class [System] with its
      laws [SystemSpec]) and [BufWriter].
    - [Cli]: [cli/main.rs] and [cli/commands.rs].
    - [CliCollect]: the directory walk; [CliPack]: what packing leaves of the
      files; [CliNames]: of the names; [CliReport]: the commands that read;
      [CliSpec]: the commands' theorems and a small machine to run them on.

    ** How state and operations correspond to the code

    A method that takes [&self] takes the record; one that takes [&mut] buffers
    is an [ST] whose state is these buffers, returned on every outcome.  A
    [?] is a bind; [lift] embeds a call without state; [zoom], [on_fst],
    [on_snd] hand a callee its part of the state.  The packer's state
    [PackState] is its destination, the number of nonces drawn, and the
    record [Packer]; [add_reader] runs on it and the reader.  Each [match] arm,
    early return and [ok_or] of the code is in the definition, in its order.

    The C interface runs on a [World]: the memory, the thread's last error, the
    host's streams and files, and the callback sources that were destroyed.
    The tool runs on a [Session]: the files, the two output streams, the
    process number and the clock.

    ** What the theorems show

    - Untrusted input: [open_with_limits_safe], [decode_toc_spec],
      [validate_layout_spec], [validate_index_spec], [validate_limits_spec]:
      opening never panics and accepts exactly what the format, the limits and
      the collision rules admit.
    - Reading: [read_sound], [read_complete], [read_into_with_scratch_spec],
      [read_range_sound], [range_len_spec], [read_range_matches_read],
      [verify_sound]: reads never panic, return only checked data, and succeed
      exactly on intact data.
    - Packing: [pack_with_options_sound] (the code refines the specification
      [Packed]), [add_reader_spec], [add_reader_refuses],
      [failed_packer_refuses].
    - Round trips: [pack_open_read], [decode_encode_toc], [header_roundtrip],
      [read_header_canonical], [decrypt_encrypt_block], and over the other two
      crates [pack_memory_roundtrip] and [pack_extract].
    - The C interface: [api_defined] (no history of valid calls has undefined
      behaviour), [sources_destroyed_once], [ffi_call_spec],
      [conversions_roundtrip], [rasen_archive_read_spec],
      [rasen_pack_file_spec], [rasen_pack_streams_spec].
    - The tool: [pack_dir_spec] (a failure loses nothing, a success replaces
      the output with the archive of the tree), [collect_files_spec],
      [reports_spec], [pack_args_spec].

    ** Fuel

    Loops that are not structural take fuel, and run out into [Panic], which the
    theorems exclude: [read_at_loop] and [read_chunk_loop] by the bytes left to
    fill and the interruptions to come, [pad] by the padding left in blocks of
    4096, [add_chunks] by the data left in the reader, [bucket_end] and
    [validate_index_from] by the index, [read_range_chunks] and
    [read_chunks_into] by the number of chunks, [collect_pending] by the
    directories of the tree.  [create_temp_loop] counts the 128 attempts of the
    code.

    ** What is not modelled

    Concurrency: the C interface is one thread, and no one else changes the
    files while the tool runs.  Parsing of the tool's arguments (clap), and the
    text in which [main] reports an error.  Module declarations; benches, fuzz
    targets and tests, which only call the library.  [usize] is the 64-bit
    one, paths are those of Unix. *)
From stdpp Require Export base numbers list list_numbers gmap fin_sets strings sorting.
From Stdlib Require Export ZArith Lia.
From Stdlib Require Import Strings.Byte.
Export Corelib.Init.Byte.

#[global] Open Scope Z_scope.

(** ** Bytes

    A Rust [u8] is a [byte]; a Rust [&[u8]], [Vec<u8>], [&str] or [String] is
    a [list byte] (a Rust string is its UTF-8 encoding). *)

Abbreviation bytes := (list byte).

#[export] Instance byte_eq_dec : EqDecision byte := Byte.byte_eq_dec.

#[export] Instance byte_inhabited : Inhabited byte := populate x00.

Definition byte_val (b : byte) : Z := Z.of_N (Byte.to_N b).

Definition byte_of_Z (z : Z) : byte :=
  match Byte.of_N (Z.to_N (z mod 256)) with
  | Some b => b
  | None => x00
  end.

Lemma byte_val_range (b : byte) : 0 <= byte_val b < 256.
Proof. destruct b; vm_compute; split; congruence. Qed.

Lemma byte_of_val (b : byte) : byte_of_Z (byte_val b) = b.
Proof. destruct b; vm_compute; reflexivity. Qed.

Lemma byte_val_of (z : Z) : byte_val (byte_of_Z z) = z mod 256.
Proof.
  unfold byte_val, byte_of_Z.
  destruct (Byte.of_N _) as [b|] eqn:E.
  - apply Byte.to_of_N in E. rewrite E. pose proof (Z.mod_pos_bound z 256). lia.
  - apply Byte.of_N_None_iff in E. pose proof (Z.mod_pos_bound z 256). lia.
Qed.

Lemma byte_val_inj (a b : byte) : byte_val a = byte_val b -> a = b.
Proof. intros H. rewrite <- (byte_of_val a), <- (byte_of_val b). by rewrite H. Qed.

#[export] Instance byte_val_Inj : Inj (=) (=) byte_val := byte_val_inj.

#[export] Instance byte_countable : Countable byte :=
  inj_countable' byte_val byte_of_Z byte_of_val.

(** ** Machine integers

    A [uN] is a [Z]; a value of the type lies in [0 .. uN_MAX].  [usize] is the
    64-bit one of the supported targets.  Rust's [checked_*] operations give
    [None] outside the range; a plain [+], [-] or [*] that leaves it panics
    (overflow checks) and is modelled by the [*_or_panic] operations below. *)

Definition U8_MAX : Z := 255.
Definition U16_MAX : Z := 65535.
Definition U32_MAX : Z := 4294967295.
Definition U64_MAX : Z := 18446744073709551615.
Definition USIZE_MAX : Z := U64_MAX.

Definition in_range (max v : Z) : Prop := 0 <= v <= max.
Abbreviation is_u16 := (in_range U16_MAX).
Abbreviation is_u32 := (in_range U32_MAX).
Abbreviation is_u64 := (in_range U64_MAX).

Definition checked_add (max a b : Z) : option Z :=
  if a + b <=? max then Some (a + b) else None.

Definition checked_sub (a b : Z) : option Z :=
  if b <=? a then Some (a - b) else None.

Definition checked_mul (max a b : Z) : option Z :=
  if a * b <=? max then Some (a * b) else None.

(** [uN::try_from(v)] for a value of a wider unsigned type. *)
Definition try_from (max v : Z) : option Z :=
  if v <=? max then Some v else None.

Definition saturating_sub (a b : Z) : Z := Z.max 0 (a - b).

(** [&[T]::len], as a [usize]. *)
Definition len {A} (l : list A) : Z := Z.of_nat (length l).

Lemma len_nonneg {A} (l : list A) : 0 <= len l.
Proof. unfold len. lia. Qed.

Lemma to_nat_len {A} (l : list A) : Z.to_nat (len l) = length l.
Proof. unfold len. apply Nat2Z.id. Qed.

Lemma len_app {A} (l k : list A) : len (l ++ k) = len l + len k.
Proof. unfold len. rewrite length_app. lia. Qed.

Lemma len_cons {A} (x : A) (l : list A) : len (x :: l) = 1 + len l.
Proof. unfold len. cbn [length]. lia. Qed.

Lemma len_nil {A} : len (@nil A) = 0.
Proof. reflexivity. Qed.

Lemma len_0_nil {A} (l : list A) : len l = 0 -> l = [].
Proof. destruct l; [done|]. unfold len. cbn [length]. lia. Qed.

(** ** Outcomes

    The result of a Rust call: [Ok], [Err], or a panic (an index out of
    bounds, an overflow of a plain operator, a division by zero).  The
    development shows that [Panic] is never reached from untrusted input. *)

Inductive Result (E A : Type) : Type :=
  | Ok (a : A)
  | Err (e : E)
  | Panic.
Arguments Ok {E A} a.
Arguments Err {E A} e.
Arguments Panic {E A}.

#[export] Instance result_ret {E} : MRet (Result E) := fun _ a => Ok a.

#[export] Instance result_bind {E} : MBind (Result E) := fun A B f m =>
  match m with
  | Ok a => f a
  | Err e => Err e
  | Panic => Panic
  end.

#[export] Instance result_fmap {E} : FMap (Result E) := fun A B f m =>
  match m with
  | Ok a => Ok (f a)
  | Err e => Err e
  | Panic => Panic
  end.

(** [(b).then_some(()).ok_or(e)?] *)
Definition ensure {E} (b : bool) (e : E) : Result E unit :=
  if b then Ok tt else Err e.

(** [o.ok_or(e)?] *)
Definition ok_or {E A} (o : option A) (e : E) : Result E A :=
  match o with Some a => Ok a | None => Err e end.

(** [r.map_err(f)] *)
Definition map_err {E F A} (f : E -> F) (r : Result E A) : Result F A :=
  match r with
  | Ok a => Ok a
  | Err e => Err (f e)
  | Panic => Panic
  end.

(** [v[i]], [a + b], [a / b] ...: a panic outside the range. *)
Definition or_panic {E A} (o : option A) : Result E A :=
  match o with Some a => Ok a | None => Panic end.

Definition add_or_panic {E} (max a b : Z) : Result E Z := or_panic (checked_add max a b).
Definition sub_or_panic {E} (a b : Z) : Result E Z := or_panic (checked_sub a b).
Definition div_or_panic {E} (a b : Z) : Result E Z :=
  if b =? 0 then Panic else Ok (a / b).
Definition rem_or_panic {E} (a b : Z) : Result E Z :=
  if b =? 0 then Panic else Ok (a mod b).

Lemma bind_Ok {E A B} (m : Result E A) (f : A -> Result E B) (b : B) :
  m ≫= f = Ok b <-> exists a, m = Ok a /\ f a = Ok b.
Proof. destruct m; cbn; naive_solver. Qed.

Lemma ensure_Ok {E} (b : bool) (e : E) (u : unit) : ensure b e = Ok u <-> b = true.
Proof. destruct b, u; cbn; naive_solver. Qed.

Lemma ok_or_Ok {E A} (o : option A) (e : E) (a : A) : ok_or o e = Ok a <-> o = Some a.
Proof. destruct o; cbn; naive_solver. Qed.

Lemma map_err_Ok {E F A} (f : E -> F) (r : Result E A) (a : A) :
  map_err f r = Ok a <-> r = Ok a.
Proof. destruct r; cbn; naive_solver. Qed.

Lemma or_panic_Ok {E A} (o : option A) (a : A) : @or_panic E A o = Ok a <-> o = Some a.
Proof. destruct o; cbn; naive_solver. Qed.

Lemma checked_add_Some max a b c : checked_add max a b = Some c <-> c = a + b /\ a + b <= max.
Proof. unfold checked_add. destruct (Z.leb_spec (a + b) max); naive_solver lia. Qed.

Lemma checked_add_is_Some max a b : is_Some (checked_add max a b) <-> a + b <= max.
Proof.
  unfold checked_add. destruct (Z.leb_spec (a + b) max); split; try lia; try by intros [].
  by eexists.
Qed.

Lemma checked_sub_Some a b c : checked_sub a b = Some c <-> c = a - b /\ b <= a.
Proof. unfold checked_sub. destruct (Z.leb_spec b a); naive_solver lia. Qed.

Lemma checked_mul_Some max a b c : checked_mul max a b = Some c <-> c = a * b /\ a * b <= max.
Proof. unfold checked_mul. destruct (Z.leb_spec (a * b) max); naive_solver lia. Qed.

Lemma try_from_Some max v c : try_from max v = Some c <-> c = v /\ v <= max.
Proof. unfold try_from. destruct (Z.leb_spec v max); naive_solver lia. Qed.

(** ** Outcomes that do not panic

    [safe m Q]: the call [m] does not panic, and its value, if it gives one,
    satisfies [Q].  The lemmas below are the structural rules; the database
    [safe] proves the leaves. *)

Definition safe {E A} (m : Result E A) (Q : A -> Prop) : Prop :=
  match m with
  | Ok a => Q a
  | Err _ => True
  | Panic => False
  end.

Lemma safe_ret {E A} (a : A) (Q : A -> Prop) : Q a -> safe (mret a : Result E A) Q.
Proof. done. Qed.

Lemma safe_bind {E A B} (m : Result E A) (f : A -> Result E B) (P : A -> Prop) (Q : B -> Prop) :
  safe m P -> (forall a, m = Ok a -> P a -> safe (f a) Q) -> safe (m ≫= f) Q.
Proof. destruct m; cbn; naive_solver. Qed.

Lemma safe_mono {E A} (m : Result E A) (P Q : A -> Prop) :
  safe m P -> (forall a, m = Ok a -> P a -> Q a) -> safe m Q.
Proof. destruct m; cbn; naive_solver. Qed.

Lemma safe_Ok {E A} (m : Result E A) (Q : A -> Prop) (a : A) :
  safe m Q -> m = Ok a -> Q a.
Proof. by intros H ->. Qed.

Lemma safe_not_Panic {E A} (m : Result E A) (Q : A -> Prop) : safe m Q -> m <> Panic.
Proof. by intros H ->. Qed.

Lemma safe_True {E A} (m : Result E A) : safe m (fun _ => True) <-> m <> Panic.
Proof. destruct m; naive_solver. Qed.

Lemma safe_ensure {E} (b : bool) (e : E) : safe (ensure b e) (fun _ => b = true).
Proof. by destruct b. Qed.

Lemma safe_ok_or {E A} (o : option A) (e : E) : safe (ok_or o e) (fun a => o = Some a).
Proof. by destruct o. Qed.

Lemma safe_map_err {E F A} (f : E -> F) (r : Result E A) (Q : A -> Prop) :
  safe (map_err f r) Q <-> safe r Q.
Proof. by destruct r. Qed.

(** ** Slices

    [slice_get l a b] is [l.get(a..b)]; [splice l a s] is the buffer [l]
    after [s] was written at [a]. *)

Definition slice_get {A} (l : list A) (a b : Z) : option (list A) :=
  if (0 <=? a) && (a <=? b) && (b <=? len l)
  then Some (take (Z.to_nat (b - a)) (drop (Z.to_nat a) l))
  else None.

Definition splice {A} (l : list A) (a : Z) (s : list A) : list A :=
  take (Z.to_nat a) l ++ s ++ drop (Z.to_nat a + length s) l.

Definition index {A} (l : list A) (i : Z) : option A :=
  if 0 <=? i then l !! Z.to_nat i else None.

Lemma slice_get_Some {A} (l s : list A) a b :
  slice_get l a b = Some s <->
  0 <= a <= b /\ b <= len l /\ s = take (Z.to_nat (b - a)) (drop (Z.to_nat a) l).
Proof.
  unfold slice_get.
  destruct (Z.leb_spec 0 a), (Z.leb_spec a b), (Z.leb_spec b (len l)); naive_solver lia.
Qed.

Lemma slice_get_len {A} (l s : list A) a b :
  slice_get l a b = Some s -> len s = b - a.
Proof.
  intros (? & ? & ->)%slice_get_Some. unfold len in *.
  rewrite length_take, length_drop. lia.
Qed.

Lemma slice_get_all {A} (l : list A) : slice_get l 0 (len l) = Some l.
Proof.
  apply slice_get_Some. pose proof (len_nonneg l). split_and!; [lia..|].
  rewrite Z.sub_0_r, drop_0, take_ge; [done|]. unfold len. lia.
Qed.

Lemma slice_get_app {A} (p s q : list A) :
  slice_get (p ++ s ++ q) (len p) (len p + len s) = Some s.
Proof.
  apply slice_get_Some. rewrite !len_app.
  pose proof (len_nonneg p). pose proof (len_nonneg s). pose proof (len_nonneg q).
  split_and!; [lia..|]. unfold len. rewrite Nat2Z.id, drop_app_length.
  rewrite take_app_length'; [done|]. lia.
Qed.

Lemma len_splice {A} (l s : list A) a :
  0 <= a -> a + len s <= len l -> len (splice l a s) = len l.
Proof.
  unfold splice. intros ? ?. rewrite !len_app. unfold len in *.
  rewrite length_take, length_drop. lia.
Qed.

Lemma index_Some {A} (l : list A) i x :
  index l i = Some x <-> 0 <= i /\ l !! Z.to_nat i = Some x.
Proof. unfold index. destruct (Z.leb_spec 0 i); naive_solver lia. Qed.

(** ** Little-endian integers: [to_le_bytes] and [from_le_bytes] *)

Fixpoint to_le_bytes (n : nat) (v : Z) : bytes :=
  match n with
  | O => []
  | S n => byte_of_Z v :: to_le_bytes n (v / 256)
  end.

Fixpoint from_le_bytes (l : bytes) : Z :=
  match l with
  | [] => 0
  | b :: l => byte_val b + 256 * from_le_bytes l
  end.

Lemma length_to_le_bytes n v : length (to_le_bytes n v) = n.
Proof. revert v. induction n as [|n IH]; intros v; cbn; [done|]. by rewrite IH. Qed.

Lemma len_to_le_bytes n v : len (to_le_bytes n v) = Z.of_nat n.
Proof. unfold len. by rewrite length_to_le_bytes. Qed.

Lemma from_le_range (l : bytes) : 0 <= from_le_bytes l < 256 ^ len l.
Proof.
  induction l as [|b l IH]; [by vm_compute|]. cbn [from_le_bytes]. rewrite len_cons.
  rewrite Z.pow_add_r, Z.pow_1_r by (lia || apply len_nonneg).
  pose proof (byte_val_range b). lia.
Qed.

Lemma from_to_le n v : 0 <= v < 256 ^ Z.of_nat n -> from_le_bytes (to_le_bytes n v) = v.
Proof.
  revert v. induction n as [|n IH]; intros v Hv; [change (256 ^ Z.of_nat 0) with 1 in Hv; cbn; lia|].
  cbn [to_le_bytes from_le_bytes]. rewrite byte_val_of, IH.
  - pose proof (Z.div_mod v 256). lia.
  - rewrite Nat2Z.inj_succ, Z.pow_succ_r in Hv by lia.
    split; [apply Z.div_pos; lia|]. apply Z.div_lt_upper_bound; lia.
Qed.

Lemma to_from_le (l : bytes) : to_le_bytes (length l) (from_le_bytes l) = l.
Proof.
  induction l as [|b l IH]; [done|]. cbn [length to_le_bytes from_le_bytes].
  pose proof (byte_val_range b). f_equal.
  - apply byte_val_inj. rewrite byte_val_of.
    rewrite (Z.mul_comm 256), Z.mod_add by lia. apply Z.mod_small. lia.
  - rewrite (Z.mul_comm 256), Z.div_add, Z.div_small by lia. exact IH.
Qed.

(** ** Exhaustive checks of a boolean on [n]-bit integers *)

Fixpoint all_bits (n : nat) (f : Z -> bool) (base : Z) : bool :=
  match n with
  | O => f base
  | S n => all_bits n f (2 * base) && all_bits n f (2 * base + 1)
  end.

Lemma all_bits_spec n f base v :
  all_bits n f base = true -> base * 2 ^ Z.of_nat n <= v < (base + 1) * 2 ^ Z.of_nat n ->
  f v = true.
Proof.
  revert base. induction n as [|n IH]; intros base Hall Hv.
  - change (2 ^ Z.of_nat 0) with 1 in Hv. by replace v with base by lia.
  - cbn in Hall. apply andb_true_iff in Hall as [H0 H1].
    rewrite Nat2Z.inj_succ, Z.pow_succ_r in Hv by lia.
    destruct (Z.lt_ge_cases v ((2 * base + 1) * 2 ^ Z.of_nat n)).
    + apply (IH (2 * base)); [done|]. lia.
    + apply (IH (2 * base + 1)); [done|]. lia.
Qed.

Arguments to_le_bytes : simpl never.
Arguments from_le_bytes : simpl never.

(** ** State and outcome

    A Rust method that writes through [&mut] parameters: the buffers are the
    state [S], which is returned on every outcome, errors included. *)

Definition ST (E S A : Type) : Type := S -> Result E A * S.

#[export] Instance st_ret {E S} : MRet (ST E S) := fun _ a s => (Ok a, s).

#[export] Instance st_bind {E S} : MBind (ST E S) := fun A B f m s =>
  match m s with
  | (Ok a, s') => f a s'
  | (Err e, s') => (Err e, s')
  | (Panic, s') => (Panic, s')
  end.

Definition lift {E S A} (r : Result E A) : ST E S A := fun s => (r, s).
Definition get {E S} : ST E S S := fun s => (Ok s, s).
Definition put {E S} (s : S) : ST E S unit := fun _ => (Ok tt, s).

(** A call that is handed a part of the caller's state (a sub-slice, a field):
    [get_part] reads it, [put_part] stores it back, whatever the outcome. *)
Definition zoom {E S T A} (get_part : S -> T) (put_part : T -> S -> S)
    (m : ST E T A) : ST E S A :=
  fun s => let '(r, t) := m (get_part s) in (r, put_part t s).

(** A call on the first or on the second component of the state. *)
Definition on_fst {E S T A} (m : ST E S A) : ST E (S * T) A := zoom fst (fun s p => (s, snd p)) m.
Definition on_snd {E S T A} (m : ST E T A) : ST E (S * T) A := zoom snd (fun t p => (fst p, t)) m.

Definition st_map_err {E F S A} (f : E -> F) (m : ST E S A) : ST F S A :=
  fun s => let '(r, s') := m s in (map_err f r, s').

(** [ssafe m s Q X]: run from [s], [m] does not panic; a value satisfies [Q]
    with the final state, and an error leaves a state satisfying [X]. *)
Definition ssafe {E S A} (m : ST E S A) (s : S) (Q : A -> S -> Prop) (X : S -> Prop) : Prop :=
  match m s with
  | (Ok a, s') => Q a s'
  | (Err _, s') => X s'
  | (Panic, _) => False
  end.

Lemma ssafe_bind {E S A B} (m : ST E S A) (f : A -> ST E S B) s P Q X :
  ssafe m s P X -> (forall a s', m s = (Ok a, s') -> P a s' -> ssafe (f a) s' Q X) ->
  ssafe (m ≫= f) s Q X.
Proof.
  unfold ssafe, mbind, st_bind. destruct (m s) as [[a|e|] s']; naive_solver.
Qed.

Lemma ssafe_mono {E S A} (m : ST E S A) s (P Q : A -> S -> Prop) (X Y : S -> Prop) :
  ssafe m s P X -> (forall a s', m s = (Ok a, s') -> P a s' -> Q a s') ->
  (forall s', X s' -> Y s') -> ssafe m s Q Y.
Proof. unfold ssafe. destruct (m s) as [[a|e|] s']; naive_solver. Qed.

Lemma ssafe_lift {E S A} (r : Result E A) (s : S) (Q : A -> S -> Prop) (X : S -> Prop) :
  safe r (fun a => Q a s) -> X s -> ssafe (lift r) s Q X.
Proof. unfold ssafe, lift. destruct r; cbn; naive_solver. Qed.

Lemma ssafe_lift_bind {E S A B} (r : Result E A) (f : A -> ST E S B) s (P : A -> Prop) Q X :
  safe r P -> X s -> (forall a, r = Ok a -> P a -> ssafe (f a) s Q X) ->
  ssafe (lift r ≫= f) s Q X.
Proof. unfold ssafe, lift, mbind, st_bind. destruct r; cbn; naive_solver. Qed.

Lemma ssafe_lift_bind_err {E S A B} (r : Result E A) (f : A -> ST E S B) s Q (X : S -> Prop) :
  r <> Panic -> (forall e, r = Err e -> X s) -> (forall a, r = Ok a -> ssafe (f a) s Q X) ->
  ssafe (lift r ≫= f) s Q X.
Proof. unfold ssafe, lift, mbind, st_bind. destruct r; cbn; naive_solver. Qed.

Lemma ssafe_lift_Ok {E S A B} (a : A) (f : A -> ST E S B) s Q X :
  ssafe (f a) s Q X -> ssafe (lift (Ok a) ≫= f) s Q X.
Proof. done. Qed.

Lemma ssafe_get_bind {E S B} (f : S -> ST E S B) s Q X :
  ssafe (f s) s Q X -> ssafe (get ≫= f) s Q X.
Proof. done. Qed.

Lemma ssafe_ret {E S A} (a : A) (s : S) (Q : A -> S -> Prop) X : Q a s -> ssafe (mret a : ST E S A) s Q X.
Proof. done. Qed.

Lemma ssafe_zoom {E S T A} (g : S -> T) (p : T -> S -> S) (m : ST E T A) s Q X :
  ssafe m (g s) (fun a t => Q a (p t s)) (fun t => X (p t s)) -> ssafe (zoom g p m) s Q X.
Proof. unfold ssafe, zoom. destruct (m (g s)) as [[a|e|] t]; naive_solver. Qed.

Lemma ssafe_map_err {E F S A} (f : E -> F) (m : ST E S A) s Q X :
  ssafe (st_map_err f m) s Q X <-> ssafe m s Q X.
Proof. unfold ssafe, st_map_err. by destruct (m s) as [[a|e|] t]. Qed.

Lemma st_bind_Ok {E S A B} (m : ST E S A) (f : A -> ST E S B) s b s2 :
  (m ≫= f) s = (Ok b, s2) <-> exists a s1, m s = (Ok a, s1) /\ f a s1 = (Ok b, s2).
Proof.
  unfold mbind, st_bind. destruct (m s) as [[a|e|] s']; naive_solver.
Qed.

Lemma lift_Ok {E S A} (r : Result E A) (s s' : S) (a : A) :
  lift r s = (Ok a, s') <-> r = Ok a /\ s' = s.
Proof. unfold lift. naive_solver. Qed.

(** ** Automation *)

(** Inversion of a call that returned [Ok]. *)
Ltac inv_ok :=
  repeat match goal with
  | H : Ok _ = Ok _ |- _ => injection H as H; try subst
  | H : Err _ = Ok _ |- _ => discriminate H
  | H : Panic = Ok _ |- _ => discriminate H
  | H : mret _ = Ok _ |- _ => injection H as H; try subst
  | H : mbind _ _ = Ok _ |- _ =>
      apply bind_Ok in H; let x := fresh "x" in let Hx := fresh "Hx" in destruct H as (x & Hx & H)
  | H : ensure _ _ = Ok _ |- _ => apply ensure_Ok in H
  | H : ok_or _ _ = Ok _ |- _ => apply ok_or_Ok in H
  | H : map_err _ _ = Ok _ |- _ => apply map_err_Ok in H
  | H : or_panic _ = Ok _ |- _ => apply or_panic_Ok in H
  | H : checked_add _ _ _ = Some _ |- _ => apply checked_add_Some in H as [-> H]
  | H : checked_sub _ _ = Some _ |- _ => apply checked_sub_Some in H as [-> H]
  | H : checked_mul _ _ _ = Some _ |- _ => apply checked_mul_Some in H as [-> H]
  | H : try_from _ _ = Some _ |- _ => apply try_from_Some in H as [-> H]
  | H : andb _ _ = true |- _ => apply andb_true_iff in H as [? H]
  | H : negb _ = true |- _ => apply negb_true_iff in H
  | H : Z.leb _ _ = true |- _ => apply Z.leb_le in H
  | H : Z.ltb _ _ = true |- _ => apply Z.ltb_lt in H
  | H : Z.eqb _ _ = true |- _ => apply Z.eqb_eq in H
  | H : Z.leb _ _ = false |- _ => apply Z.leb_gt in H
  | H : Z.ltb _ _ = false |- _ => apply Z.ltb_ge in H
  | H : Z.eqb _ _ = false |- _ => apply Z.eqb_neq in H
  | H : bool_decide _ = true |- _ => apply bool_decide_eq_true in H
  | H : bool_decide _ = false |- _ => apply bool_decide_eq_false in H
  | x : unit |- _ => destruct x
  end.

(** Comparisons of the goal that [lia] decides. *)
Ltac zdecide :=
  repeat match goal with
  | |- context [?a <=? ?b] =>
      first [rewrite (proj2 (Z.leb_le a b)) by lia | rewrite (proj2 (Z.leb_gt a b)) by lia]
  | |- context [?a <? ?b] =>
      first [rewrite (proj2 (Z.ltb_lt a b)) by lia | rewrite (proj2 (Z.ltb_ge a b)) by lia]
  | |- context [?a =? ?b] =>
      first [rewrite (proj2 (Z.eqb_eq a b)) by lia | rewrite (proj2 (Z.eqb_neq a b)) by lia]
  end.

(** The checked operators within their range. *)
Lemma checked_add_le {E} max a b (e : E) : a + b <= max -> ok_or (checked_add max a b) e = Ok (a + b).
Proof. intros H. unfold checked_add. by zdecide. Qed.

Lemma add_or_panic_le {E} max a b : a + b <= max -> (add_or_panic max a b : Result E Z) = Ok (a + b).
Proof. intros H. unfold add_or_panic, checked_add. by zdecide. Qed.

Lemma checked_mul_le {E} max a b (e : E) : a * b <= max -> ok_or (checked_mul max a b) e = Ok (a * b).
Proof. intros H. unfold checked_mul. by zdecide. Qed.

Lemma checked_sub_le {E} a b (e : E) : b <= a -> ok_or (checked_sub a b) e = Ok (a - b).
Proof. intros H. unfold checked_sub. by zdecide. Qed.

Lemma try_from_le {E} max v (e : E) : v <= max -> ok_or (try_from max v) e = Ok v.
Proof. intros H. unfold try_from. by zdecide. Qed.

Lemma sub_or_panic_le {E} a b : b <= a -> (sub_or_panic a b : Result E Z) = Ok (a - b).
Proof. intros H. unfold sub_or_panic, checked_sub. by zdecide. Qed.

Lemma div_or_panic_pos {E} a b : 0 < b -> (div_or_panic a b : Result E Z) = Ok (a / b).
Proof. intros H. unfold div_or_panic. by zdecide. Qed.

Create HintDb safe discriminated.
#[export] Hint Resolve safe_ensure safe_ok_or : safe.

(** ** Calls that never panic

    [st_total m]: from no state does [m] panic.  The database [nopanic] proves
    it for straight-line code whose parts do not. *)

Definition st_total {E S A} (m : ST E S A) : Prop := forall s, (m s).1 <> Panic.

Lemma np_Ok {E A} (a : A) : (Ok a : Result E A) <> Panic.
Proof. done. Qed.
Lemma np_Err {E A} (e : E) : (Err e : Result E A) <> Panic.
Proof. done. Qed.
Lemma np_ret {E A} (a : A) : (mret a : Result E A) <> Panic.
Proof. done. Qed.
Lemma np_bind {E A B} (m : Result E A) (f : A -> Result E B) :
  m <> Panic -> (forall a, f a <> Panic) -> m ≫= f <> Panic.
Proof. destruct m; cbn; naive_solver. Qed.
Lemma np_ensure {E} (b : bool) (e : E) : ensure b e <> Panic.
Proof. by destruct b. Qed.
Lemma np_ok_or {E A} (o : option A) (e : E) : ok_or o e <> Panic.
Proof. by destruct o. Qed.

Lemma st_total_ret {E S A} (a : A) : st_total (mret a : ST E S A).
Proof. by intros s. Qed.
Lemma st_total_bind {E S A B} (m : ST E S A) (f : A -> ST E S B) :
  st_total m -> (forall a, st_total (f a)) -> st_total (m ≫= f).
Proof.
  intros Hm Hf s. specialize (Hm s). unfold mbind, st_bind.
  destruct (m s) as [[a|e|] s']; [apply Hf|done|done].
Qed.
Lemma st_total_lift {E S A} (r : Result E A) : r <> Panic -> st_total (lift r : ST E S A).
Proof. by intros H s. Qed.
Lemma st_total_get {E S} : st_total (get : ST E S S).
Proof. by intros s. Qed.
Lemma st_total_put {E S} (s : S) : st_total (put s : ST E S unit).
Proof. by intros s'. Qed.
Lemma st_total_map_err {E F S A} (f : E -> F) (m : ST E S A) :
  st_total m -> st_total (st_map_err f m).
Proof. intros H s. specialize (H s). unfold st_map_err. by destruct (m s) as [[a|e|] s']. Qed.

Create HintDb nopanic discriminated.
#[export] Hint Resolve np_Ok np_Err np_ret np_bind np_ensure np_ok_or st_total_ret
  st_total_bind st_total_lift st_total_get st_total_put st_total_map_err : nopanic.
#[export] Hint Extern 5 (_ <> Panic) => progress case_match : nopanic.
#[export] Hint Extern 5 (st_total _) => progress case_match : nopanic.
#[export] Hint Extern 1 => progress cbv zeta : nopanic.

(** ** Calls that decide a proposition

    [decides m P Q]: [m] succeeds exactly when [P] holds, then with a value
    satisfying [Q]; it fails otherwise; it never panics. *)

Definition decides {E A} (m : Result E A) (P : Prop) (Q : A -> Prop) : Prop :=
  match m with
  | Ok a => P /\ Q a
  | Err _ => ~ P
  | Panic => False
  end.

Lemma decides_ret {E A} (a : A) (P : Prop) (Q : A -> Prop) :
  P -> Q a -> decides (mret a : Result E A) P Q.
Proof. by split. Qed.

Lemma decides_bind {E A B} (m : Result E A) (f : A -> Result E B) P P' Q Q' :
  decides m P Q -> (forall a, m = Ok a -> P -> Q a -> decides (f a) P' Q') ->
  decides (m ≫= f) (P /\ P') Q'.
Proof.
  destruct m as [a|e|]; cbn; [|tauto|done]. intros [? ?] Hf. specialize (Hf a eq_refl).
  destruct (f a); cbn in *; tauto.
Qed.

Lemma decides_iff {E A} (m : Result E A) (P P' : Prop) (Q Q' : A -> Prop) :
  decides m P Q -> (P <-> P') -> (forall a, m = Ok a -> P -> Q a -> Q' a) -> decides m P' Q'.
Proof. destruct m; cbn; naive_solver. Qed.

Lemma decides_ensure {E} (b : bool) (e : E) : decides (ensure b e) (b = true) (fun _ => True).
Proof. by destruct b. Qed.

Lemma decides_ok_or {E A} (o : option A) (e : E) :
  decides (ok_or o e) (is_Some o) (fun a => o = Some a).
Proof. destruct o; cbn; [done|]. by intros []. Qed.

Lemma decides_Ok_unit {E} (m : Result E unit) P Q :
  decides m P Q -> m = Ok tt <-> P.
Proof. destruct m as [[]|e|]; cbn; naive_solver. Qed.

#[export] Instance decides_proper {E A} (m : Result E A) : Proper (iff ==> eq ==> iff) (decides m).
Proof. intros P P' HP Q ? <-. unfold decides. destruct m; [by rewrite HP..|done]. Qed.

Lemma decides_safe {E A} (m : Result E A) P Q : decides m P Q -> safe m Q.
Proof. destruct m; cbn; tauto. Qed.

Lemma decides_np {E A} (m : Result E A) P Q : decides m P Q -> m <> Panic.
Proof. by destruct m. Qed.
