(* ===== verification/Errors.v ===== *)
(** * Errors ([rasen-archive/src/error.rs])

    The crate's [Error], the standard library's [io::Error] as far as the
    source looks at it, and the [Display] text of each error. *)
From Stdlib Require Import DecimalString HexadecimalString.
From S2P Require Export Prelude.

(** The [io::ErrorKind]s the source tests or builds; any other kind carries
    its number. *)
Inductive ErrorKind :=
  | NotFoundKind
  | AlreadyExists
  | InvalidInput
  | UnexpectedEof
  | Interrupted
  | OtherKind
  | UnnamedKind (n : Z).

#[export] Instance ErrorKind_eq_dec : EqDecision ErrorKind.
Proof. solve_decision. Defined.

Record IoError := { io_kind : ErrorKind; io_message : bytes }.

#[export] Instance IoError_eq_dec : EqDecision IoError.
Proof. solve_decision. Defined.

(** A Rust string literal. *)
Definition lit (s : string) : bytes := String.list_byte_of_string s.

Definition io_new (k : ErrorKind) (msg : string) : IoError :=
  {| io_kind := k; io_message := lit msg |}.
Definition io_other (msg : string) : IoError := io_new OtherKind msg.

Inductive Error :=
  | Io (e : IoError)
  | BadMagic
  | BadTocMagic
  | UnsupportedVersion (v : Z)
  | UnsupportedFlags (v : Z)
  | UnsupportedHeaderSize (v : Z)
  | EmptyXorKey
  | Crypto (s : string)
  | IncompletePack
  | NonEmptyDestination
  | InvalidPath
  | InvalidChunkSize
  | InvalidAlignment
  | InvalidRange
  | BufferSizeMismatch (expected actual : Z)
  | ChunkOutOfRange (chunk count : Z)
  | DuplicatePath (p : bytes)
  | AssetTooLarge
  | ArchiveTooLarge
  | TooManyEntries
  | TooManyChunks
  | MetadataLimitExceeded
  | Corrupt (s : string)
  | TooLarge (s : string)
  | Lz4 (s : bytes)
  | NotFound (p : bytes)
  | HashCollision (hash : Z)
  | ChecksumMismatch (path : bytes) (chunk : Z).

#[export] Instance Error_eq_dec : EqDecision Error.
Proof. solve_decision. Defined.

(** ** Text *)

(** [{v}] and [{v:0wx}] of an unsigned integer. *)
Definition fmt_dec (v : Z) : bytes :=
  lit (DecimalString.NilZero.string_of_uint (N.to_uint (Z.to_N v))).

Definition fmt_hex (w : nat) (v : Z) : bytes :=
  let d := lit (HexadecimalString.NilZero.string_of_uint (N.to_hex_uint (Z.to_N v))) in
  replicate (w - length d) x30 ++ d.

(** [impl fmt::Display for Error] *)
Definition error_to_string (e : Error) : bytes :=
  match e with
  | Io e => lit "I/O error: " ++ io_message e
  | BadMagic => lit "not a RPAK archive"
  | BadTocMagic => lit "invalid TOC magic (wrong XOR key or corrupt archive)"
  | UnsupportedVersion v => lit "unsupported RPAK version " ++ fmt_dec v
  | UnsupportedFlags v => lit "unsupported flags: 0x" ++ fmt_hex 4 v
  | UnsupportedHeaderSize v => lit "unsupported header size " ++ fmt_dec v
  | EmptyXorKey => lit "protection key must not be empty"
  | Crypto s => lit "cryptographic error: " ++ lit s
  | IncompletePack => lit "packer cannot finish after an earlier error"
  | NonEmptyDestination => lit "packing destination must be empty"
  | InvalidPath => lit "invalid archive path"
  | InvalidChunkSize => lit "chunk size must be in 1..=64 MiB"
  | InvalidAlignment => lit "alignment must be a power of two in 1..=1 MiB"
  | InvalidRange => lit "requested range is outside the asset"
  | BufferSizeMismatch expected actual =>
      lit "destination buffer size mismatch: expected " ++ fmt_dec expected
        ++ lit ", got " ++ fmt_dec actual
  | ChunkOutOfRange chunk count =>
      lit "chunk index " ++ fmt_dec chunk ++ lit " is outside chunk count " ++ fmt_dec count
  | DuplicatePath p => lit "duplicate archive path: " ++ p
  | AssetTooLarge => lit "archive asset exceeds size limit"
  | ArchiveTooLarge => lit "archive exceeds decompressed size limit"
  | TooManyEntries => lit "archive exceeds entry count limit"
  | TooManyChunks => lit "archive operation exceeds chunk count limit"
  | MetadataLimitExceeded => lit "archive metadata exceeds memory limit"
  | Corrupt s => lit "corrupt archive: " ++ lit s
  | TooLarge s => lit "value too large: " ++ lit s
  | Lz4 s => lit "LZ4 error: " ++ s
  | NotFound p => lit "entry not found: " ++ p
  | HashCollision hash => lit "ambiguous asset hash collision: " ++ fmt_hex 16 hash
  | ChecksumMismatch path chunk =>
      lit "checksum mismatch: " ++ path ++ lit ", chunk " ++ fmt_dec chunk
  end.

(** The crate's [Result<T>] and the standard library's [io::Result<T>]. *)
Abbreviation Res := (Result Error).
Abbreviation IoRes := (Result IoError).

Example fmt_hex_example : fmt_hex 4 255 = lit "00ff".
Proof. reflexivity. Qed.
