(* ===== verification/Crates.v ===== *)
(** * The third-party crates and the allocator, as parameters

    [xxhash-rust], [lz4_flex], [chacha20poly1305], [blake3] and [getrandom]
    are not part of the repository: the class [Crates] holds one operation for
    each function the source calls, and the [*Spec] classes state what their
    documentation promises.  Every definition of the development takes the
    [Crates] it runs with; a theorem names the laws it needs.  [Toy] is a
    small concrete instance that satisfies every law: the examples evaluate
    the development with it. *)
From S2P Require Export Errors.

Class Crates := {
  (** [xxhash_rust::xxh3::xxh3_64] *)
  xxh3_64 : bytes -> Z;
  (** The answer of the global allocator to [try_reserve], by the place that
      asks (the label of its error) and the number of elements. *)
  alloc_ok : string -> Z -> bool;
  (** [lz4_flex::block::decompress_into(data, output)]: the number of bytes
      decoded, or the text of the error; the state is [output]. *)
  lz4_decompress_into : bytes -> ST bytes bytes Z;
  (** [lz4_flex::block::compress_into(data, output)] *)
  lz4_compress_into : bytes -> ST bytes bytes Z;
  (** [lz4_flex::block::get_maximum_output_size] *)
  get_maximum_output_size : Z -> Z;
  (** [blake3::derive_key(context, key_material)] *)
  blake3_derive_key : string -> bytes -> bytes;
  (** [XChaCha20Poly1305::{encrypt, decrypt}] by key, nonce, associated data
      and message; [None] is the crate's opaque error. *)
  xchacha_encrypt : bytes -> bytes -> bytes -> bytes -> option bytes;
  xchacha_decrypt : bytes -> bytes -> bytes -> bytes -> option bytes;
  (** The outcome of the [n]-th [getrandom::fill] of a 24-byte nonce. *)
  getrandom_fill : nat -> option bytes;
  (** [slice::sort_unstable_by_key] by the first component: the order of
      equal keys is the library's choice. *)
  sort_unstable_by_key : list (Z * Z) -> list (Z * Z)
}.

(** The hash is a [u64]. *)
Class HashSpec (C : Crates) : Prop := {
  xxh3_range d : is_u64 (xxh3_64 d)
}.

(** The sort permutes its input into key order. *)
Definition key_le (a b : Z * Z) : Prop := fst a <= fst b.

Class SortSpec (C : Crates) : Prop := {
  sort_permutation l : sort_unstable_by_key l ≡ₚ l;
  sort_sorted l : StronglySorted key_le (sort_unstable_by_key l)
}.

(** [decompress_into] does not panic, writes within [output], and its result
    and the bytes it reports are determined by the input and the size of
    [output]. *)
Class DecompressSpec (C : Crates) : Prop := {
  decompress_in_place data out :
    ssafe (lz4_decompress_into data) out
      (fun n out' => length out' = length out /\ 0 <= n <= len out)
      (fun out' => length out' = length out);
  decompress_determined data out1 out2 :
    length out1 = length out2 ->
    (lz4_decompress_into data out1).1 = (lz4_decompress_into data out2).1 /\
    forall n, (lz4_decompress_into data out1).1 = Ok n ->
      take (Z.to_nat n) (lz4_decompress_into data out1).2 =
      take (Z.to_nat n) (lz4_decompress_into data out2).2
}.

(** Compression into a buffer of the documented size succeeds with a non-empty
    block (a block starts with a token), and decompression into a buffer of
    the original size gives the data back. *)
Class CompressSpec (C : Crates) : Prop := {
  compress_ok data out :
    get_maximum_output_size (len data) <= len out ->
    ssafe (lz4_compress_into data) out
      (fun n out' => length out' = length out /\ 1 <= n <= len out /\
         forall dst, length dst = length data ->
           lz4_decompress_into (take (Z.to_nat n) out') dst = (Ok (len data), data))
      (fun _ => False);
  maximum_output_size_mono a b :
    0 <= a <= b -> 0 <= get_maximum_output_size a <= get_maximum_output_size b
}.

(** A 24-byte nonce, a 16-byte tag, and decryption inverts encryption. *)
Class AeadSpec (C : Crates) : Prop := {
  nonce_length n nonce : getrandom_fill n = Some nonce -> length nonce = 24%nat;
  encrypt_length k n a m c :
    xchacha_encrypt k n a m = Some c -> length c = (length m + 16)%nat;
  decrypt_length k n a c m :
    xchacha_decrypt k n a c = Some m -> length c = (length m + 16)%nat;
  decrypt_encrypt k n a m c :
    xchacha_encrypt k n a m = Some c -> xchacha_decrypt k n a c = Some m
}.

(** The allocator serves every request. *)
Class AllocSpec (C : Crates) : Prop := {
  alloc_always what n : alloc_ok what n = true
}.

(** [v.try_reserve(n).map_err(|_| Error::TooLarge(what))?] *)
Definition try_reserve {C : Crates} (what : string) (n : Z) : Res unit :=
  ensure (alloc_ok what n) (TooLarge what).

(** ** A concrete instance *)

#[export] Instance key_le_dec : RelDecision key_le.
Proof. intros a b. apply Z_le_dec. Defined.
#[export] Instance key_le_total : Total key_le.
Proof. intros a b. apply Z.le_ge_cases. Qed.
#[export] Instance key_le_trans : Transitive key_le.
Proof. intros a b c. apply Z.le_trans. Qed.

Module Toy.
Fixpoint hash (h : Z) (d : bytes) : Z :=
  match d with
  | [] => h
  | b :: d => hash ((h * 31 + byte_val b + 7) mod 18446744073709551616) d
  end.

(** A run of one byte is [1, byte, count]; anything else is [0, data]. *)
Definition pack (data : bytes) : bytes :=
  match data with
  | b :: rest =>
      if forallb (fun c => bool_decide (b = c)) rest && (len data <? 4294967296)
      then x01 :: b :: to_le_bytes 4 (len data)
      else x00 :: data
  | [] => [x00]
  end.

Definition unpack (data : bytes) : option bytes :=
  match data with
  | x00 :: raw => Some raw
  | x01 :: b :: [c0; c1; c2; c3] =>
      Some (replicate (Z.to_nat (from_le_bytes [c0; c1; c2; c3])) b)
  | _ => None
  end.

Definition compress_into (data : bytes) : ST bytes bytes Z := fun out =>
  if len (pack data) <=? len out
  then (Ok (len (pack data)), splice out 0 (pack data))
  else (Err (lit "output too small"), out).

Definition decompress_into (data : bytes) : ST bytes bytes Z := fun out =>
  match unpack data with
  | Some raw =>
      if len raw <=? len out
      then (Ok (len raw), splice out 0 raw)
      else (Err (lit "output too small"), out)
  | None => (Err (lit "malformed block"), out)
  end.

Definition tag (k n a m : bytes) : bytes :=
  to_le_bytes 16 (hash 1 (k ++ n ++ a ++ m)).

Definition encrypt (k n a m : bytes) : option bytes := Some (m ++ tag k n a m).
Definition decrypt (k n a c : bytes) : option bytes :=
  if 16 <=? len c then
    let m := take (length c - 16) c in
    if bool_decide (drop (length c - 16) c = tag k n a m) then Some m else None
  else None.

Definition crates : Crates := {|
  xxh3_64 := hash 0;
  alloc_ok _ _ := true;
  lz4_decompress_into := decompress_into;
  lz4_compress_into := compress_into;
  get_maximum_output_size n := n + 6;
  blake3_derive_key _ m := to_le_bytes 32 (hash 3 m);
  xchacha_encrypt := encrypt;
  xchacha_decrypt := decrypt;
  getrandom_fill n := Some (to_le_bytes 24 (Z.of_nat n));
  sort_unstable_by_key := merge_sort key_le
|}.

#[global] Instance sort_spec : SortSpec crates.
Proof.
  constructor; cbn; intros l; [apply merge_sort_Permutation|].
  apply (StronglySorted_merge_sort key_le).
Qed.

Lemma hash_range h d : is_u64 h -> is_u64 (hash h d).
Proof.
  revert h. induction d as [|b d IH]; intros h Hh; [done|]. cbn. apply IH.
  pose proof (Z.mod_pos_bound (h * 31 + byte_val b + 7) 18446744073709551616).
  unfold in_range, U64_MAX. lia.
Qed.

#[global] Instance hash_spec : HashSpec crates.
Proof. constructor. intros d. apply hash_range. unfold in_range, U64_MAX. lia. Qed.

#[global] Instance alloc_spec : AllocSpec crates.
Proof. by constructor. Qed.

Lemma length_splice_0 (out s : bytes) :
  len s <= len out -> length (splice out 0 s) = length out.
Proof. intros H. apply Nat2Z.inj. apply (len_splice out s 0); lia. Qed.

Lemma take_splice_0 (out s : bytes) : take (length s) (splice out 0 s) = s.
Proof. unfold splice. change (Z.to_nat 0) with 0%nat. by rewrite take_0, app_nil_l, take_app_length. Qed.

#[global] Instance decompress_spec : DecompressSpec crates.
Proof.
  constructor; cbn; unfold ssafe, decompress_into.
  - intros data out. destruct (unpack data) as [raw|]; [|done].
    destruct (Z.leb_spec (len raw) (len out)); [|done].
    pose proof (len_nonneg raw). rewrite length_splice_0; lia.
  - intros data out1 out2 Hl. destruct (unpack data) as [raw|]; [|done].
    replace (len out2) with (len out1) by (unfold len; lia).
    destruct (Z.leb_spec (len raw) (len out1)); [|done].
    split; [done|]. cbn. intros n [= <-]. unfold len. rewrite Nat2Z.id.
    by rewrite !take_splice_0.
Qed.

Lemma unpack_pack data : unpack (pack data) = Some data.
Proof.
  destruct data as [|b rest]; [done|]. cbn [pack].
  destruct (forallb _ rest) eqn:Hall; [|done]. cbn [andb].
  destruct (Z.ltb_spec (len (b :: rest)) 4294967296) as [Hlt|]; [|done].
  change (Some (replicate (Z.to_nat (from_le_bytes (to_le_bytes 4 (len (b :: rest))))) b)
          = Some (b :: rest)).
  rewrite from_to_le by (pose proof (len_nonneg (b :: rest)); cbn; lia).
  unfold len. rewrite Nat2Z.id. f_equal. cbn [length replicate]. f_equal.
  clear Hlt. induction rest as [|c rest IH]; [done|]. cbn in Hall |- *.
  apply andb_true_iff in Hall as [Hc Hall]. apply bool_decide_eq_true in Hc as <-.
  f_equal. by apply IH.
Qed.

Lemma len_pack data : 1 <= len (pack data) <= len data + 6.
Proof.
  split.
  { destruct data as [|b rest]; [by vm_compute|]. cbn [pack].
    destruct (_ && _); rewrite len_cons; [pose proof (len_nonneg (b :: to_le_bytes 4 (len (b :: rest))))
      |pose proof (len_nonneg (b :: rest))]; lia. }
  destruct data as [|b rest]; [by vm_compute|]. cbn [pack].
  destruct (_ && _); rewrite !len_cons; [|pose proof (len_nonneg rest); lia].
  rewrite len_to_le_bytes. pose proof (len_nonneg rest). lia.
Qed.

#[global] Instance compress_spec : CompressSpec crates.
Proof.
  constructor; cbn; [|lia]. intros data out Hout. unfold ssafe, compress_into.
  pose proof (len_pack data).
  destruct (Z.leb_spec (len (pack data)) (len out)); [|lia].
  split_and!; [by apply length_splice_0|lia..|]. intros dst Hdst.
  unfold len at 1. rewrite Nat2Z.id, take_splice_0. unfold decompress_into.
  rewrite unpack_pack. replace (len dst) with (len data) by (unfold len; lia).
  rewrite Z.leb_refl. f_equal. unfold splice. change (Z.to_nat 0) with 0%nat.
  rewrite take_0, app_nil_l, drop_ge by lia. by rewrite app_nil_r.
Qed.

#[global] Instance aead_spec : AeadSpec crates.
Proof.
  constructor; cbn.
  - intros n nonce [= <-]. apply length_to_le_bytes.
  - intros k n a m c [= <-]. rewrite length_app. unfold tag. by rewrite length_to_le_bytes.
  - intros k n a c m. unfold decrypt. destruct (Z.leb_spec 16 (len c)); [|done].
    case_bool_decide; [|done]. intros [= <-]. rewrite length_take. unfold len in *. lia.
  - intros k n a m c [= <-]. unfold decrypt.
    assert (Ht : length (tag k n a m) = 16%nat) by apply length_to_le_bytes.
    replace (length (m ++ tag k n a m) - 16)%nat with (length m)
      by (rewrite length_app; lia).
    rewrite take_app_length, drop_app_length, bool_decide_true by done.
    destruct (Z.leb_spec 16 (len (m ++ tag k n a m))) as [|Hl]; [done|].
    unfold len in Hl. rewrite length_app in Hl. lia.
Qed.
End Toy.
