(* ===== verification/Io.v ===== *)
(** * The standard library's readers and writers

    [std::io::Read] on a byte stream, the traits [Write] + [Seek] a packing
    destination implements, their documented laws, and the in-memory
    [io::Cursor<Vec<u8>>]. *)
From S2P Require Export Errors.

(** ** [Read::read_exact] on a byte source ([&[u8]] or [io::Cursor]): the
    state is the input that remains. *)
Definition read_exact (n : Z) : ST IoError bytes bytes := fun input =>
  if n <=? len input
  then (Ok (take (Z.to_nat n) input), drop (Z.to_nat n) input)
  else (Err (io_new UnexpectedEof "failed to fill whole buffer"), []).

Lemma read_exact_app (s rest : bytes) : read_exact (len s) (s ++ rest) = (Ok s, rest).
Proof.
  unfold read_exact. rewrite len_app.
  destruct (Z.leb_spec (len s) (len s + len rest)); [|pose proof (len_nonneg rest); lia].
  unfold len. rewrite Nat2Z.id, take_app_length, drop_app_length. done.
Qed.

Lemma read_exact_Ok n input s rest :
  0 <= n -> read_exact n input = (Ok s, rest) -> input = s ++ rest /\ len s = n.
Proof.
  unfold read_exact. intros Hn. destruct (Z.leb_spec n (len input)); [|done].
  intros [= <- <-]. split; [by rewrite take_drop|].
  unfold len in *. rewrite length_take. lia.
Qed.

(** ** Writers *)

Class WriteSeek (W : Type) := {
  write_all : bytes -> ST IoError W unit;
  (** [seek(SeekFrom::End(0))] and [seek(SeekFrom::Start(p))] *)
  seek_end : ST IoError W Z;
  seek_start : Z -> ST IoError W Z
}.

(** What a destination holds after [s] was written at [pos]; a gap is zero. *)
Definition overwrite (data : bytes) (pos : Z) (s : bytes) : bytes :=
  resize (Z.to_nat pos) x00 data ++ s ++ drop (Z.to_nat pos + length s) data.

(** The contract of [Write] + [Seek], by the destination's contents and
    position: an operation that succeeds did its work; none panics.  (Writing
    nothing behind the end need not extend the destination.) *)
Class WriteSeekSpec (W : Type) `{WriteSeek W} (contents : W -> bytes) (position : W -> Z) : Prop := {
  write_all_spec s w :
    (s = [] -> position w <= len (contents w)) ->
    ssafe (write_all s) w
      (fun _ w' => contents w' = overwrite (contents w) (position w) s /\
                   position w' = position w + len s) (fun _ => True);
  seek_end_spec w :
    ssafe seek_end w
      (fun n w' => n = len (contents w) /\ contents w' = contents w /\ position w' = n)
      (fun _ => True);
  seek_start_spec p w :
    0 <= p ->
    ssafe (seek_start p) w
      (fun n w' => n = p /\ contents w' = contents w /\ position w' = p) (fun _ => True)
}.

(** A destination that never fails. *)
Class WriteSeekTotal (W : Type) `{WriteSeek W} : Prop := {
  write_all_total s w : exists w', write_all s w = (Ok tt, w');
  seek_end_total w : exists n w', seek_end w = (Ok n, w');
  seek_start_total p w : exists n w', seek_start p w = (Ok n, w')
}.

(** [io::Cursor<Vec<u8>>] *)
Record VecCursor := { vc_data : bytes; vc_pos : Z }.

#[export] Instance vec_cursor_write : WriteSeek VecCursor := {
  write_all s w :=
    (Ok tt, {| vc_data := overwrite (vc_data w) (vc_pos w) s; vc_pos := vc_pos w + len s |});
  seek_end w := (Ok (len (vc_data w)), {| vc_data := vc_data w; vc_pos := len (vc_data w) |});
  seek_start p w := (Ok p, {| vc_data := vc_data w; vc_pos := p |})
}.

#[export] Instance vec_cursor_spec : WriteSeekSpec VecCursor vc_data vc_pos.
Proof. by constructor. Qed.

#[export] Instance vec_cursor_total : WriteSeekTotal VecCursor.
Proof. constructor; cbn; eauto. Qed.

Lemma overwrite_end (data s : bytes) : overwrite data (len data) s = data ++ s.
Proof.
  unfold overwrite, len. rewrite Nat2Z.id, resize_all, drop_ge by lia.
  by rewrite app_nil_r.
Qed.

(** ** Short reads: [Read::read(&mut buffer)]

    The state is the reader and the buffer it fills; the value is the number
    of bytes read. *)
Class Read (R : Type) := {
  read : ST IoError (R * bytes) Z
}.

(** ** Sequences of writes *)

Lemma overwrite_overwrite (d s t : bytes) p :
  0 <= p -> overwrite (overwrite d p s) (p + len s) t = overwrite d p (s ++ t).
Proof.
  intros Hp. unfold overwrite, len.
  replace (Z.to_nat (p + Z.of_nat (length s))) with (Z.to_nat p + length s)%nat by lia.
  assert (Hl : length (resize (Z.to_nat p) x00 d ++ s) = (Z.to_nat p + length s)%nat)
    by (rewrite length_app, length_resize; lia).
  rewrite !(app_assoc (resize _ _ d) s), resize_le by (rewrite length_app; lia).
  rewrite take_app_length' by done.
  rewrite <- drop_drop, drop_app_length' by done.
  rewrite drop_drop, length_app, <- !app_assoc. do 3 f_equal. f_equal. lia.
Qed.

Section Wrote.
Context {W : Type} `{WriteSeekSpec W contents position}.

(** [w'] is [w] after [s] was written at its position. *)
Definition wrote (w : W) (s : bytes) (w' : W) : Prop :=
  contents w' = overwrite (contents w) (position w) s /\ position w' = position w + len s.

Lemma wrote_trans w s w1 t w2 :
  0 <= position w -> wrote w s w1 -> wrote w1 t w2 -> wrote w (s ++ t) w2.
Proof.
  intros Hp [Hc1 Hp1] [Hc2 Hp2]. split.
  - by rewrite Hc2, Hc1, Hp1, overwrite_overwrite.
  - rewrite Hp2, Hp1, len_app. lia.
Qed.

Lemma write_all_wrote s w :
  s <> [] -> ssafe (write_all s) w (fun _ w' => wrote w s w') (fun _ => True).
Proof. intros Hs. by apply write_all_spec. Qed.
End Wrote.

(** ** [dst.copy_from_slice(src)]: a panic when the lengths differ. *)
Definition copy_from_slice {E} (src : bytes) : ST E bytes unit := fun dst =>
  if len src =? len dst then (Ok tt, src) else (Panic, dst).

Lemma copy_from_slice_run {E} (src dst : bytes) :
  length src = length dst -> copy_from_slice (E := E) src dst = (Ok tt, src).
Proof.
  intros H. unfold copy_from_slice, len. rewrite H. by rewrite Z.eqb_refl.
Qed.

(** ** Readers that end

    [rest] is what a reader still delivers, [interruptions] bounds the
    interrupted calls to come: the measures the packing loops run down. *)
Class ReadFinite (R : Type) := {
  rest : R -> bytes;
  interruptions : R -> nat
}.

(** A call of [read] delivers a prefix of [rest], nothing only at the end (or
    for an empty buffer); an interrupted call delivers nothing. *)
Class ReadHolds (R : Type) `{Read R} `{ReadFinite R} : Prop := {
  read_holds r buf :
    match read (r, buf) with
    | (Ok n, (r', buf')) =>
        0 <= n <= len buf /\ length buf' = length buf /\
        take (Z.to_nat n) buf' = take (Z.to_nat n) (rest r) /\ n <= len (rest r) /\
        rest r' = drop (Z.to_nat n) (rest r) /\ (interruptions r' <= interruptions r)%nat /\
        (n = 0 -> buf = [] \/ rest r = [])
    | (Err e, (r', buf')) =>
        length buf' = length buf /\
        (io_kind e = Interrupted -> rest r' = rest r /\ (interruptions r' < interruptions r)%nat)
    | (Panic, _) => False
    end
}.

(** [&[u8]], which reads its front and advances. *)
#[export] Instance slice_read : Read bytes := {
  read := fun '(r, buf) =>
    let n := Nat.min (length r) (length buf) in
    (Ok (Z.of_nat n), (drop n r, take n r ++ drop n buf))
}.

#[export] Instance slice_finite : ReadFinite bytes := {
  rest := id;
  interruptions _ := 0%nat
}.

#[export] Instance slice_read_holds : ReadHolds bytes.
Proof.
  constructor. intros r buf. unfold read. cbn. unfold len.
  assert (Hl : length (take (Nat.min (length r) (length buf)) r) = Nat.min (length r) (length buf))
    by (rewrite length_take; lia).
  rewrite Nat2Z.id. split_and!; [lia|lia| | |lia|done|lia|].
  - rewrite length_app, Hl, length_drop. lia.
  - by rewrite take_app_length'.
  - intros Hz. destruct buf; [by left|]. right. destruct r; [done|cbn in Hz; lia].
Qed.
