(* ===== verification/Format.v ===== *)
(** * Format: constants, integers and the header

    [format/mod.rs] (constants, [validate_chunk_size], [validate_alignment]),
    [format/io.rs] ([align_up], conversions, integer readers, [Cursor]) and
    [format/header.rs] ([Header], [write_header], [read_header],
    [validate_header]). *)
From S2P Require Export Crates Io.

(** ** Constants *)

Definition MAGIC : bytes := lit "RPAK".
Definition TOC_MAGIC : bytes := lit "TOC2".
Definition VERSION : Z := 1.
Definition HEADER_SIZE : Z := 60.

Definition DEFAULT_CHUNK_SIZE : Z := 64 * 1024.
Definition DEFAULT_ALIGNMENT : Z := 16.

Definition HEADER_FLAG_TOC_LZ4 : Z := Z.shiftl 1 0.
Definition HEADER_FLAG_TOC_XOR : Z := Z.shiftl 1 1.
Definition HEADER_FLAG_CHUNKED : Z := Z.shiftl 1 2.
Definition HEADER_FLAG_XXH3 : Z := Z.shiftl 1 3.
Definition HEADER_FLAG_PATHS_STRIPPED : Z := Z.shiftl 1 4.
Definition HEADER_FLAG_AEAD : Z := Z.shiftl 1 5.
Definition REQUIRED_HEADER_FLAGS : Z :=
  Z.lor (Z.lor HEADER_FLAG_TOC_LZ4 HEADER_FLAG_CHUNKED) HEADER_FLAG_XXH3.
Definition KNOWN_HEADER_FLAGS : Z :=
  Z.lor (Z.lor (Z.lor REQUIRED_HEADER_FLAGS HEADER_FLAG_TOC_XOR) HEADER_FLAG_PATHS_STRIPPED)
    HEADER_FLAG_AEAD.

Definition CHUNK_FLAG_LZ4 : Z := Z.shiftl 1 0.

Definition MAX_TOC_STORED_SIZE : Z := 256 * 1024 * 1024.
Definition MAX_TOC_RAW_SIZE : Z := 512 * 1024 * 1024.
Definition MAX_PATH_LEN : Z := U16_MAX.
Definition MAX_CHUNK_SIZE : Z := 64 * 1024 * 1024.
Definition MAX_ALIGNMENT : Z := 1024 * 1024.
Definition TOC_ENTRY_FIXED_SIZE : Z := 36.
Definition TOC_CHUNK_FIXED_SIZE : Z := 36.

(** [uN::count_ones] and [uN::is_power_of_two] on the [n] low bits. *)
Fixpoint count_ones (n : nat) (v : Z) : Z :=
  match n with
  | O => 0
  | S n => (v mod 2) + count_ones n (v / 2)
  end.

Definition is_power_of_two (n : nat) (v : Z) : bool := count_ones n v =? 1.

(** [!v] on a [uN] *)
Definition bit_not (max v : Z) : Z := Z.lxor v max.

(** [v.is_multiple_of(m)] *)
Definition is_multiple_of (v m : Z) : bool :=
  if m =? 0 then v =? 0 else v mod m =? 0.

Definition validate_chunk_size (chunk_size : Z) : Res unit :=
  if (chunk_size =? 0) || (MAX_CHUNK_SIZE <? chunk_size)
  then Err InvalidChunkSize
  else Ok tt.

Definition validate_alignment (alignment : Z) : Res unit :=
  if (alignment =? 0) || (MAX_ALIGNMENT <? alignment) || negb (is_power_of_two 32 alignment)
  then Err InvalidAlignment
  else Ok tt.

(** ** [format/io.rs] *)

Definition align_up (value alignment : Z) : Res Z :=
  mask ← sub_or_panic alignment 1;
  ok_or ((fun v => Z.land v (bit_not U64_MAX mask)) <$> checked_add U64_MAX value mask)
    (TooLarge "aligned offset").

Definition read_u16 : ST Error bytes Z :=
  b ← st_map_err Io (read_exact 2); mret (from_le_bytes b).
Definition read_u32 : ST Error bytes Z :=
  b ← st_map_err Io (read_exact 4); mret (from_le_bytes b).
Definition read_u64 : ST Error bytes Z :=
  b ← st_map_err Io (read_exact 8); mret (from_le_bytes b).

Definition usize_to_u32 (v : Z) (what : string) : Res Z :=
  ok_or (try_from U32_MAX v) (TooLarge what).
Definition usize_to_u64 (v : Z) (what : string) : Res Z :=
  ok_or (try_from U64_MAX v) (TooLarge what).
Definition u64_to_usize (v : Z) (what : string) : Res Z :=
  ok_or (try_from USIZE_MAX v) (TooLarge what).

Module Cursor.
Record Cursor := { data : bytes; pos : Z }.

Definition new (d : bytes) : Cursor := {| data := d; pos := 0 |}.

Definition take (n : Z) : ST Error Cursor bytes :=
  self ← get;
  end_ ← lift (ok_or (checked_add USIZE_MAX (pos self) n) (Corrupt "TOC cursor overflow"));
  slice ← lift (ok_or (slice_get (data self) (pos self) end_) (Corrupt "truncated TOC"));
  put {| data := data self; pos := end_ |};;
  mret slice.

(** [take(n)?.try_into().map_err(..)?] into a [[u8; n]] *)
Definition take_array (n : Z) : ST Error Cursor bytes :=
  s ← take n;
  lift (ensure (len s =? n) (Corrupt "truncated TOC"));;
  mret s.

Definition u16 : ST Error Cursor Z := b ← take_array 2; mret (from_le_bytes b).
Definition u32 : ST Error Cursor Z := b ← take_array 4; mret (from_le_bytes b).
Definition u64 : ST Error Cursor Z := b ← take_array 8; mret (from_le_bytes b).

Definition is_empty (self : Cursor) : bool := pos self =? len (data self).
End Cursor.

(** ** [format/header.rs] *)

Record Header := {
  h_version : Z;
  h_flags : Z;
  h_header_size : Z;
  h_alignment : Z;
  h_chunk_size : Z;
  h_entry_count : Z;
  h_chunk_count : Z;
  h_toc_offset : Z;
  h_toc_size : Z;
  h_toc_raw_size : Z;
  h_toc_hash : Z
}.

(** [w.write_all(bytes)?] *)
Definition write_bytes {W} `{WriteSeek W} (s : bytes) : ST Error W unit :=
  st_map_err Io (write_all s).

Definition write_header {W} `{WriteSeek W} (h : Header) : ST Error W unit :=
  write_bytes MAGIC;;
  write_bytes (to_le_bytes 2 (h_version h));;
  write_bytes (to_le_bytes 2 (h_flags h));;
  write_bytes (to_le_bytes 4 (h_header_size h));;
  write_bytes (to_le_bytes 4 (h_alignment h));;
  write_bytes (to_le_bytes 4 (h_chunk_size h));;
  write_bytes (to_le_bytes 4 (h_entry_count h));;
  write_bytes (to_le_bytes 4 (h_chunk_count h));;
  write_bytes (to_le_bytes 8 (h_toc_offset h));;
  write_bytes (to_le_bytes 8 (h_toc_size h));;
  write_bytes (to_le_bytes 8 (h_toc_raw_size h));;
  write_bytes (to_le_bytes 8 (h_toc_hash h));;
  mret tt.

Definition read_header : ST Error bytes Header :=
  magic ← st_map_err Io (read_exact 4);
  lift (ensure (bool_decide (magic = MAGIC)) BadMagic);;
  version ← read_u16;
  flags ← read_u16;
  header_size ← read_u32;
  alignment ← read_u32;
  chunk_size ← read_u32;
  entry_count ← read_u32;
  chunk_count ← read_u32;
  toc_offset ← read_u64;
  toc_size ← read_u64;
  toc_raw_size ← read_u64;
  toc_hash ← read_u64;
  mret {| h_version := version; h_flags := flags; h_header_size := header_size;
          h_alignment := alignment; h_chunk_size := chunk_size;
          h_entry_count := entry_count; h_chunk_count := chunk_count;
          h_toc_offset := toc_offset; h_toc_size := toc_size;
          h_toc_raw_size := toc_raw_size; h_toc_hash := toc_hash |}.

Definition validate_header (h : Header) : Res unit :=
  ensure (h_version h =? VERSION) (UnsupportedVersion (h_version h));;
  ensure (h_header_size h =? HEADER_SIZE) (UnsupportedHeaderSize (h_header_size h));;
  let protection := Z.land (h_flags h) (Z.lor HEADER_FLAG_TOC_XOR HEADER_FLAG_AEAD) in
  ensure ((Z.land (h_flags h) REQUIRED_HEADER_FLAGS =? REQUIRED_HEADER_FLAGS)
            && (Z.land (h_flags h) (bit_not U16_MAX KNOWN_HEADER_FLAGS) =? 0)
            && (count_ones 16 protection =? 1))
    (UnsupportedFlags (h_flags h));;
  chunk_size ← ok_or (try_from USIZE_MAX (h_chunk_size h)) InvalidChunkSize;
  validate_chunk_size chunk_size;;
  validate_alignment (h_alignment h);;
  ensure (h_toc_size h <=? MAX_TOC_STORED_SIZE) (TooLarge "stored TOC");;
  ensure (h_toc_raw_size h <=? MAX_TOC_RAW_SIZE) (TooLarge "raw TOC");;
  mret tt.

(** ** Powers of two *)

Lemma count_ones_nonneg n v : 0 <= count_ones n v.
Proof.
  revert v. induction n as [|n IH]; intros v; cbn; [lia|].
  specialize (IH (v / 2)). pose proof (Z.mod_pos_bound v 2). lia.
Qed.

Lemma count_ones_0 n v : 0 <= v < 2 ^ Z.of_nat n -> count_ones n v = 0 <-> v = 0.
Proof.
  revert v. induction n as [|n IH]; intros v Hv.
  { change (2 ^ Z.of_nat 0) with 1 in Hv. cbn. lia. }
  rewrite Nat2Z.inj_succ, Z.pow_succ_r in Hv by lia. cbn [count_ones].
  pose proof (Z.mod_pos_bound v 2). pose proof (Z.div_mod v 2).
  pose proof (count_ones_nonneg n (v / 2)).
  specialize (IH (v / 2)). lia.
Qed.

Lemma count_ones_pow2 n k : 0 <= k < Z.of_nat n -> count_ones n (2 ^ k) = 1.
Proof.
  revert k. induction n as [|n IH]; intros k Hk; [lia|]. cbn [count_ones].
  destruct (decide (k = 0)) as [->|Hne].
  - change (1 + count_ones n 0 = 1). pose proof (Z.pow_pos_nonneg 2 (Z.of_nat n)).
    rewrite (proj2 (count_ones_0 n 0 ltac:(lia))); lia.
  - replace k with (Z.succ (k - 1)) by lia. rewrite Z.pow_succ_r by lia.
    rewrite (Z.mul_comm 2), Z.mod_mul, Z.div_mul by lia. rewrite IH; lia.
Qed.

Lemma is_power_of_two_spec n v :
  0 <= v < 2 ^ Z.of_nat n ->
  is_power_of_two n v = true <-> exists k, 0 <= k < Z.of_nat n /\ v = 2 ^ k.
Proof.
  intros Hv. unfold is_power_of_two. rewrite Z.eqb_eq. split.
  - revert v Hv. induction n as [|n IH]; intros v Hv; [done|].
    rewrite Nat2Z.inj_succ, Z.pow_succ_r in Hv by lia. cbn [count_ones].
    pose proof (Z.mod_pos_bound v 2). pose proof (Z.div_mod v 2).
    pose proof (count_ones_nonneg n (v / 2)). intros Hc.
    destruct (decide (v mod 2 = 0)) as [He|He].
    + destruct (IH (v / 2)) as (k & ? & Hk); [lia..|].
      exists (Z.succ k). rewrite Z.pow_succ_r; lia.
    + pose proof (proj1 (count_ones_0 n (v / 2) ltac:(lia))).
      exists 0. rewrite Z.pow_0_r. lia.
  - intros (k & ? & ->). by apply count_ones_pow2.
Qed.

Lemma validate_alignment_Ok a :
  is_u32 a ->
  validate_alignment a = Ok tt <-> exists k, 0 <= k <= 20 /\ a = 2 ^ k.
Proof.
  unfold in_range, U32_MAX. intros Ha. unfold validate_alignment, MAX_ALIGNMENT.
  pose proof (is_power_of_two_spec 32 a ltac:(cbn; lia)) as Hp.
  destruct (Z.eqb_spec a 0) as [->|?]; cbn [orb].
  { split; [done|]. intros (k & ? & Hk). pose proof (Z.pow_pos_nonneg 2 k). lia. }
  destruct (Z.ltb_spec (1024 * 1024) a) as [Hlt|Hle]; cbn [orb].
  { split; [done|]. intros (k & ? & ->).
    pose proof (Z.pow_le_mono_r 2 k 20). lia. }
  destruct (is_power_of_two 32 a) eqn:E; cbn [negb].
  - split; [|done]. intros _. destruct (proj1 Hp eq_refl) as (k & ? & ->).
    exists k. split; [|done]. split; [lia|].
    destruct (decide (k <= 20)) as [|Hk]; [done|].
    pose proof (Z.pow_le_mono_r 2 21 k). lia.
  - split; [done|]. intros (k & ? & ->). exfalso.
    assert (false = true) by (apply Hp; exists k; split; [lia|done]). done.
Qed.

(** ** [align_up] *)

Lemma land_not_mask v k :
  is_u64 v -> 0 <= k <= 64 ->
  Z.land v (bit_not U64_MAX (2 ^ k - 1)) = 2 ^ k * (v / 2 ^ k).
Proof.
  unfold in_range. intros Hv Hk. unfold bit_not.
  change U64_MAX with (Z.ones 64). replace (2 ^ k - 1) with (Z.ones k)
    by (rewrite Z.ones_equiv; lia).
  rewrite Z.mul_comm, <- Z.shiftl_mul_pow2, <- Z.shiftr_div_pow2 by lia.
  apply Z.bits_inj'. intros i Hi.
  rewrite Z.land_spec, Z.lxor_spec, Z.shiftl_spec by lia.
  destruct (decide (i < k)).
  - rewrite !Z.ones_spec_low, (Z.testbit_neg_r _ (i - k)) by lia. by rewrite andb_false_r.
  - rewrite Z.shiftr_spec by lia. replace (i - k + k) with i by lia.
    rewrite (Z.ones_spec_high k) by lia. cbn [xorb].
    destruct (decide (i < 64)).
    + rewrite Z.ones_spec_low by lia. apply andb_true_r.
    + rewrite Z.bits_above_log2, andb_false_l; [done|lia|].
      destruct (decide (v = 0)) as [->|]; [cbn; lia|].
      apply Z.log2_lt_pow2; [lia|]. pose proof (Z.pow_le_mono_r 2 64 i).
      unfold U64_MAX in Hv. lia.
Qed.

Lemma align_up_value v k :
  is_u64 v -> 0 <= k <= 63 ->
  align_up v (2 ^ k) =
    if v + (2 ^ k - 1) <=? U64_MAX
    then Ok (2 ^ k * ((v + (2 ^ k - 1)) / 2 ^ k))
    else Err (TooLarge "aligned offset").
Proof.
  intros Hv Hk. unfold align_up, sub_or_panic, checked_sub.
  pose proof (Z.pow_pos_nonneg 2 k ltac:(lia) ltac:(lia)).
  destruct (Z.leb_spec 1 (2 ^ k)); [|lia]. cbn [or_panic mbind result_bind].
  unfold checked_add. destruct (Z.leb_spec (v + (2 ^ k - 1)) U64_MAX); cbn; [|done].
  by rewrite land_not_mask by (unfold in_range in *; lia).
Qed.

(** ** Flags *)

(** The header's flags as the format document states them. *)
Definition FlagsSpec (flags : Z) : Prop :=
  Z.testbit flags 0 = true /\ Z.testbit flags 2 = true /\ Z.testbit flags 3 = true /\
  Z.testbit flags 1 = negb (Z.testbit flags 5) /\
  (forall i, 6 <= i -> Z.testbit flags i = false).

Definition flags_check (flags : Z) : bool :=
  (Z.land flags REQUIRED_HEADER_FLAGS =? REQUIRED_HEADER_FLAGS)
    && (Z.land flags (bit_not U16_MAX KNOWN_HEADER_FLAGS) =? 0)
    && (count_ones 16 (Z.land flags (Z.lor HEADER_FLAG_TOC_XOR HEADER_FLAG_AEAD)) =? 1).

Definition flags_spec_bits (flags : Z) : bool :=
  Z.testbit flags 0 && Z.testbit flags 2 && Z.testbit flags 3 &&
  Bool.eqb (Z.testbit flags 1) (negb (Z.testbit flags 5)) && (flags <? 64).

Lemma flags_check_bits flags :
  is_u16 flags -> flags_check flags = flags_spec_bits flags.
Proof.
  intros Hf. apply eqb_prop.
  apply (all_bits_spec 16 (fun f => Bool.eqb (flags_check f) (flags_spec_bits f)) 0).
  - vm_compute. reflexivity.
  - unfold in_range, U16_MAX in Hf. cbn. lia.
Qed.

Lemma flags_check_spec flags : is_u16 flags -> flags_check flags = true <-> FlagsSpec flags.
Proof.
  intros Hf. rewrite flags_check_bits by done. unfold flags_spec_bits, FlagsSpec.
  rewrite !andb_true_iff, eqb_true_iff, Z.ltb_lt. unfold in_range in Hf. split.
  - intros ((((?&?)&?)&?)&?). split_and!; [done..|]. intros i Hi.
    destruct (decide (flags = 0)) as [->|]; [apply Z.testbit_0_l|].
    apply Z.bits_above_log2; [lia|]. apply Z.log2_lt_pow2; [lia|].
    pose proof (Z.pow_le_mono_r 2 6 i). lia.
  - intros (?&?&?&?&Hhi). split_and!; [done..|].
    destruct (decide (flags < 64)) as [|Hge]; [done|]. exfalso.
    assert (Hlog : 6 <= Z.log2 flags) by (apply Z.log2_le_pow2; lia).
    specialize (Hhi _ Hlog). rewrite Z.bit_log2 in Hhi by lia. done.
Qed.

(** ** The header *)

Definition header_bytes (h : Header) : bytes :=
  MAGIC ++ to_le_bytes 2 (h_version h) ++ to_le_bytes 2 (h_flags h)
  ++ to_le_bytes 4 (h_header_size h) ++ to_le_bytes 4 (h_alignment h)
  ++ to_le_bytes 4 (h_chunk_size h) ++ to_le_bytes 4 (h_entry_count h)
  ++ to_le_bytes 4 (h_chunk_count h) ++ to_le_bytes 8 (h_toc_offset h)
  ++ to_le_bytes 8 (h_toc_size h) ++ to_le_bytes 8 (h_toc_raw_size h)
  ++ to_le_bytes 8 (h_toc_hash h).

Definition header_in_range (h : Header) : Prop :=
  is_u16 (h_version h) /\ is_u16 (h_flags h) /\ is_u32 (h_header_size h) /\
  is_u32 (h_alignment h) /\ is_u32 (h_chunk_size h) /\ is_u32 (h_entry_count h) /\
  is_u32 (h_chunk_count h) /\ is_u64 (h_toc_offset h) /\ is_u64 (h_toc_size h) /\
  is_u64 (h_toc_raw_size h) /\ is_u64 (h_toc_hash h).

Lemma len_header_bytes h : len (header_bytes h) = HEADER_SIZE.
Proof. unfold header_bytes. rewrite !len_app, !len_to_le_bytes. reflexivity. Qed.

Lemma from_to_le_u16 v : is_u16 v -> from_le_bytes (to_le_bytes 2 v) = v.
Proof. unfold in_range, U16_MAX. intros. apply from_to_le. cbn. lia. Qed.
Lemma from_to_le_u32 v : is_u32 v -> from_le_bytes (to_le_bytes 4 v) = v.
Proof. unfold in_range, U32_MAX. intros. apply from_to_le. cbn. lia. Qed.
Lemma from_to_le_u64 v : is_u64 v -> from_le_bytes (to_le_bytes 8 v) = v.
Proof. unfold in_range, U64_MAX. intros. apply from_to_le. cbn. lia. Qed.

Lemma read_u16_app v rest : is_u16 v -> read_u16 (to_le_bytes 2 v ++ rest) = (Ok v, rest).
Proof.
  intros Hv. unfold read_u16, mbind, st_bind, st_map_err.
  change 2 with (Z.of_nat 2). rewrite <- (len_to_le_bytes 2 v), read_exact_app.
  cbn. by rewrite from_to_le_u16.
Qed.
Lemma read_u32_app v rest : is_u32 v -> read_u32 (to_le_bytes 4 v ++ rest) = (Ok v, rest).
Proof.
  intros Hv. unfold read_u32, mbind, st_bind, st_map_err.
  change 4 with (Z.of_nat 4). rewrite <- (len_to_le_bytes 4 v), read_exact_app.
  cbn. by rewrite from_to_le_u32.
Qed.
Lemma read_u64_app v rest : is_u64 v -> read_u64 (to_le_bytes 8 v ++ rest) = (Ok v, rest).
Proof.
  intros Hv. unfold read_u64, mbind, st_bind, st_map_err.
  change 8 with (Z.of_nat 8). rewrite <- (len_to_le_bytes 8 v), read_exact_app.
  cbn. by rewrite from_to_le_u64.
Qed.

(** Rewriting a bind whose first call is known to succeed. *)
Lemma st_bind_run {E S A B} (m : ST E S A) (f : A -> ST E S B) s a s' :
  m s = (Ok a, s') -> (m ≫= f) s = f a s'.
Proof. unfold mbind, st_bind. by intros ->. Qed.

Ltac st_run tac :=
  repeat (erewrite st_bind_run; [|solve [tac]]).

Lemma read_header_app h rest :
  header_in_range h -> read_header (header_bytes h ++ rest) = (Ok h, rest).
Proof.
  intros (?&?&?&?&?&?&?&?&?&?&?). unfold header_bytes, read_header.
  rewrite <- !app_assoc.
  erewrite st_bind_run; [|unfold st_map_err; by rewrite (read_exact_app MAGIC)].
  erewrite st_bind_run; [|unfold lift; by rewrite bool_decide_true].
  st_run ltac:(first [by apply read_u16_app | by apply read_u32_app | by apply read_u64_app]).
  by destruct h.
Qed.

Lemma read_int_Ok k input v rest :
  0 <= k ->
  (b ← st_map_err Io (read_exact k); mret (from_le_bytes b)) input = (Ok v, rest) ->
  input = to_le_bytes (Z.to_nat k) v ++ rest /\ in_range (256 ^ k - 1) v.
Proof.
  intros Hk (b & s1 & Hb & Hv)%st_bind_Ok. unfold st_map_err in Hb.
  destruct (read_exact k input) as [[a|e|] s'] eqn:E; cbn in Hb; try discriminate.
  injection Hb as -> ->. injection Hv as <- ->.
  apply read_exact_Ok in E as [-> Hl]; [|done]. pose proof (from_le_range b).
  split; [|unfold in_range; rewrite Hl in *; lia].
  replace (Z.to_nat k) with (length b) by (unfold len in Hl; lia).
  by rewrite to_from_le.
Qed.

Lemma read_header_Ok input h rest :
  read_header input = (Ok h, rest) -> input = header_bytes h ++ rest /\ header_in_range h.
Proof.
  unfold read_header. intros (magic & s0 & Hm & H)%st_bind_Ok.
  unfold st_map_err in Hm. destruct (read_exact 4 input) as [[a|e|] s'] eqn:E;
    cbn in Hm; try discriminate. injection Hm as -> ->.
  apply read_exact_Ok in E as [-> _]; [|done].
  apply st_bind_Ok in H as ([] & s1 & Hc & H). apply lift_Ok in Hc as [Hc ->].
  inv_ok. subst magic.
  repeat match type of H with
  | (read_u16 ≫= _) _ = _ =>
      apply st_bind_Ok in H as (? & ? & Hr & H); apply (read_int_Ok 2) in Hr as [-> ?]; [|done]
  | (read_u32 ≫= _) _ = _ =>
      apply st_bind_Ok in H as (? & ? & Hr & H); apply (read_int_Ok 4) in Hr as [-> ?]; [|done]
  | (read_u64 ≫= _) _ = _ =>
      apply st_bind_Ok in H as (? & ? & Hr & H); apply (read_int_Ok 8) in Hr as [-> ?]; [|done]
  end.
  injection H as <- <-. unfold header_bytes. rewrite <- !app_assoc. split; [done|].
  unfold header_in_range. cbn. by split_and!.
Qed.

Lemma write_header_wrote {W contents position} `{WriteSeekSpec W contents position} h w :
  0 <= position w ->
  ssafe (write_header h) w
    (fun _ w' => wrote (contents := contents) (position := position) w (header_bytes h) w')
    (fun _ => True).
Proof.
  intros Hp. unfold write_header, header_bytes.
  assert (Hne : forall n v, to_le_bytes (S n) v <> []) by done.
  assert (step : forall s t w0 w1 (k : ST Error W unit), t <> [] ->
    wrote (contents := contents) (position := position) w0 s w1 -> 0 <= position w0 ->
    (forall w2, wrote (contents := contents) (position := position) w0 (s ++ t) w2 ->
       ssafe k w2 (fun _ w' => wrote (contents := contents) (position := position)
                                 w (header_bytes h) w') (fun _ => True)) ->
    ssafe (write_bytes t;; k) w1
      (fun _ w' => wrote (contents := contents) (position := position) w (header_bytes h) w')
      (fun _ => True)).
  { intros s t w0 w1 k Ht Hw Hp0 Hk. eapply ssafe_bind.
    - apply ssafe_map_err. by apply (write_all_wrote (contents := contents) (position := position)).
    - intros [] w2 _ Hw2. apply Hk. by eapply wrote_trans. }
  eapply ssafe_bind.
  { apply ssafe_map_err. by apply (write_all_wrote (contents := contents) (position := position)). }
  intros [] w1 _ Hw1.
  do 11 (eapply step; [apply Hne|eassumption|done|clear dependent w1; intros w1 Hw1]).
  cbn. unfold header_bytes. by rewrite <- !app_assoc in Hw1.
Qed.

(** What [validate_header] accepts. *)
Record HeaderSpec (h : Header) : Prop := {
  hs_version : h_version h = 1;
  hs_size : h_header_size h = 60;
  hs_flags : FlagsSpec (h_flags h);
  hs_chunk_size : 1 <= h_chunk_size h <= 64 * 1024 * 1024;
  hs_alignment : exists k, 0 <= k <= 20 /\ h_alignment h = 2 ^ k;
  hs_toc_size : h_toc_size h <= 256 * 1024 * 1024;
  hs_toc_raw_size : h_toc_raw_size h <= 512 * 1024 * 1024
}.

Lemma validate_chunk_size_Ok c : validate_chunk_size c = Ok tt <-> c <> 0 /\ c <= MAX_CHUNK_SIZE.
Proof.
  unfold validate_chunk_size.
  destruct (Z.eqb_spec c 0), (Z.ltb_spec MAX_CHUNK_SIZE c); cbn; naive_solver lia.
Qed.

(** ** The cursor *)

(** The cursor is within its data, and [rest] is what it has not read. *)
Definition cursor_at (c : Cursor.Cursor) (rest : bytes) : Prop :=
  0 <= Cursor.pos c <= len (Cursor.data c) /\ len (Cursor.data c) <= USIZE_MAX /\
  drop (Z.to_nat (Cursor.pos c)) (Cursor.data c) = rest.

Lemma cursor_at_new d : len d <= USIZE_MAX -> cursor_at (Cursor.new d) d.
Proof. intros. unfold cursor_at. cbn. pose proof (len_nonneg d). split_and!; (lia || done). Qed.

Lemma cursor_at_len c rest :
  cursor_at c rest -> Cursor.pos c + len rest = len (Cursor.data c).
Proof. intros (? & ? & <-). unfold len in *. rewrite length_drop. lia. Qed.

Lemma cursor_at_empty c : cursor_at c [] -> Cursor.is_empty c = true.
Proof.
  intros H%cursor_at_len. unfold Cursor.is_empty. apply Z.eqb_eq.
  unfold len at 1 in H. cbn [length] in H. lia.
Qed.

Lemma cursor_at_is_empty c rest : cursor_at c rest -> Cursor.is_empty c = true -> rest = [].
Proof.
  intros H%cursor_at_len. unfold Cursor.is_empty. rewrite Z.eqb_eq. intros.
  apply len_0_nil. lia.
Qed.

Lemma cursor_take_eq n c :
  Cursor.take n c =
    match checked_add USIZE_MAX (Cursor.pos c) n with
    | None => (Err (Corrupt "TOC cursor overflow"), c)
    | Some e =>
        match slice_get (Cursor.data c) (Cursor.pos c) e with
        | None => (Err (Corrupt "truncated TOC"), c)
        | Some s => (Ok s, {| Cursor.data := Cursor.data c; Cursor.pos := e |})
        end
    end.
Proof.
  unfold Cursor.take, mbind, st_bind, lift, get, put. destruct (checked_add _ _ _); [|done].
  cbn. by destruct (slice_get _ _ _).
Qed.

Lemma take_run c s rest :
  cursor_at c (s ++ rest) -> exists c', Cursor.take (len s) c = (Ok s, c') /\ cursor_at c' rest.
Proof.
  intros Hc. pose proof (cursor_at_len _ _ Hc) as Hl. destruct Hc as (Hp & Hm & Hd).
  rewrite len_app in Hl. pose proof (len_nonneg s). pose proof (len_nonneg rest).
  assert (Hs : slice_get (Cursor.data c) (Cursor.pos c) (Cursor.pos c + len s) = Some s).
  { apply slice_get_Some. split_and!; [lia..|]. rewrite Hd.
    replace (Z.to_nat _) with (length s) by (unfold len; lia). by rewrite take_app_length. }
  rewrite cursor_take_eq. unfold checked_add. zdecide. rewrite Hs.
  eexists. split; [done|].
  unfold cursor_at. cbn. split_and!; [lia..|].
  replace (Z.to_nat (Cursor.pos c + len s)) with (Z.to_nat (Cursor.pos c) + length s)%nat
    by (unfold len; lia).
  by rewrite <- drop_drop, Hd, drop_app_length.
Qed.

Lemma take_Ok n c s c' r :
  Cursor.take n c = (Ok s, c') -> cursor_at c r ->
  exists rest, r = s ++ rest /\ len s = n /\ cursor_at c' rest /\ Cursor.data c' = Cursor.data c.
Proof.
  unfold Cursor.take. intros H (Hp & Hm & Hd).
  apply st_bind_Ok in H as (c0 & c1 & [= <- <-] & H).
  apply st_bind_Ok in H as (e & c1 & [He ->]%lift_Ok & H).
  apply st_bind_Ok in H as (sl & c1 & [Hsl ->]%lift_Ok & H). inv_ok.
  injection H as <- <-. pose proof (slice_get_len _ _ _ _ Hsl) as Hlen.
  apply slice_get_Some in Hsl as (? & ? & Hsl). rewrite Hd in Hsl.
  exists (drop (Z.to_nat n) r). replace (Cursor.pos c + n - Cursor.pos c) with n in * by lia.
  split_and!; [by rewrite Hsl, take_drop|lia| |done]. unfold cursor_at. cbn.
  split_and!; [lia..|]. rewrite <- Hd, drop_drop. f_equal. lia.
Qed.

(** The integer readers of the cursor, uniformly in the width. *)
Definition cursor_le (n : nat) : ST Error Cursor.Cursor Z :=
  b ← Cursor.take_array (Z.of_nat n); mret (from_le_bytes b).

Lemma cursor_le_run n c v rest :
  cursor_at c (to_le_bytes n v ++ rest) -> 0 <= v < 256 ^ Z.of_nat n ->
  exists c', cursor_le n c = (Ok v, c') /\ cursor_at c' rest.
Proof.
  intros Hc Hv. destruct (take_run _ _ _ Hc) as (c' & Ht & Hc'). exists c'. split; [|done].
  rewrite len_to_le_bytes in Ht. unfold cursor_le.
  erewrite (st_bind_run _ _ _ (to_le_bytes n v)).
  - cbn. by rewrite from_to_le.
  - unfold Cursor.take_array. rewrite (st_bind_run _ _ _ _ _ Ht).
    rewrite len_to_le_bytes, Z.eqb_refl. done.
Qed.

Lemma cursor_le_Ok n c v c' r :
  cursor_le n c = (Ok v, c') -> cursor_at c r ->
  exists rest, r = to_le_bytes n v ++ rest /\ 0 <= v < 256 ^ Z.of_nat n /\ cursor_at c' rest /\
    Cursor.data c' = Cursor.data c.
Proof.
  unfold cursor_le, Cursor.take_array. intros H Hc.
  apply st_bind_Ok in H as (b & c1 & Hb & [= <- <-]).
  apply st_bind_Ok in Hb as (s & c2 & Ht & Hb).
  apply st_bind_Ok in Hb as ([] & c3 & [He ->]%lift_Ok & [= <- <-]).
  destruct (take_Ok _ _ _ _ _ Ht Hc) as (rest & -> & Hl & ? & ?).
  exists rest. pose proof (from_le_range s). rewrite Hl in *.
  split_and!; [|lia..|done|done]. f_equal. unfold len in Hl.
  replace n with (length s) by lia. by rewrite to_from_le.
Qed.

Lemma cursor_u16_run c v rest :
  cursor_at c (to_le_bytes 2 v ++ rest) -> is_u16 v ->
  exists c', Cursor.u16 c = (Ok v, c') /\ cursor_at c' rest.
Proof. unfold in_range, U16_MAX. intros. apply (cursor_le_run 2); [done|cbn; lia]. Qed.
Lemma cursor_u32_run c v rest :
  cursor_at c (to_le_bytes 4 v ++ rest) -> is_u32 v ->
  exists c', Cursor.u32 c = (Ok v, c') /\ cursor_at c' rest.
Proof. unfold in_range, U32_MAX. intros. apply (cursor_le_run 4); [done|cbn; lia]. Qed.
Lemma cursor_u64_run c v rest :
  cursor_at c (to_le_bytes 8 v ++ rest) -> is_u64 v ->
  exists c', Cursor.u64 c = (Ok v, c') /\ cursor_at c' rest.
Proof. unfold in_range, U64_MAX. intros. apply (cursor_le_run 8); [done|cbn; lia]. Qed.

Lemma cursor_u16_Ok c v c' r :
  Cursor.u16 c = (Ok v, c') -> cursor_at c r ->
  exists rest, r = to_le_bytes 2 v ++ rest /\ is_u16 v /\ cursor_at c' rest.
Proof.
  intros H Hc. destruct (cursor_le_Ok 2 _ _ _ _ H Hc) as (rest & ? & Hv & ? & ?).
  exists rest. cbn in Hv. unfold in_range, U16_MAX. split_and!; (lia || done).
Qed.
Lemma cursor_u32_Ok c v c' r :
  Cursor.u32 c = (Ok v, c') -> cursor_at c r ->
  exists rest, r = to_le_bytes 4 v ++ rest /\ is_u32 v /\ cursor_at c' rest.
Proof.
  intros H Hc. destruct (cursor_le_Ok 4 _ _ _ _ H Hc) as (rest & ? & Hv & ? & ?).
  exists rest. cbn in Hv. unfold in_range, U32_MAX. split_and!; (lia || done).
Qed.
Lemma cursor_u64_Ok c v c' r :
  Cursor.u64 c = (Ok v, c') -> cursor_at c r ->
  exists rest, r = to_le_bytes 8 v ++ rest /\ is_u64 v /\ cursor_at c' rest.
Proof.
  intros H Hc. destruct (cursor_le_Ok 8 _ _ _ _ H Hc) as (rest & ? & Hv & ? & ?).
  exists rest. cbn in Hv. unfold in_range, U64_MAX. split_and!; (lia || done).
Qed.

(** The cursor never panics. *)
Lemma cursor_take_safe n c : ssafe (Cursor.take n) c (fun _ _ => True) (fun _ => True).
Proof.
  unfold ssafe. rewrite cursor_take_eq. by repeat case_match; simplify_eq.
Qed.

(** ** Header checks *)

Lemma validate_header_accepts h :
  header_in_range h ->
  (validate_header h = Ok tt <-> HeaderSpec h) /\ validate_header h <> Panic.
Proof.
  intros (?&Hf&?&Ha&Hc&?&?&?&?&?&?). unfold validate_header. fold (flags_check (h_flags h)).
  pose proof (flags_check_spec _ Hf) as Hflags. pose proof (validate_alignment_Ok _ Ha) as Hal.
  pose proof (validate_chunk_size_Ok (h_chunk_size h)) as Hcs.
  unfold try_from. unfold in_range, U32_MAX in Hc.
  destruct (Z.leb_spec (h_chunk_size h) USIZE_MAX); [|unfold USIZE_MAX, U64_MAX in *; lia].
  split.
  - split.
    + intros Hv. cbn [ok_or mbind result_bind] in Hv. inv_ok. unfold MAX_CHUNK_SIZE in Hcs.
      repeat match goal with H : validate_chunk_size _ = _ |- _ => apply Hcs in H end.
      constructor; try done; [by apply Hflags|lia|by apply Hal].
    + intros [Hv Hs Hfl Hcz Hk Ht Hr]. rewrite Hv, Hs, (proj2 Hflags Hfl), (proj2 Hal Hk). cbn.
      rewrite (proj2 Hcs) by (unfold MAX_CHUNK_SIZE; lia). cbn.
      unfold MAX_TOC_STORED_SIZE, MAX_TOC_RAW_SIZE. by zdecide.
  - unfold validate_chunk_size, validate_alignment, ensure.
    repeat (case_match; try done; cbn).
Qed.

Lemma read_header_total : st_total read_header.
Proof.
  assert (Hr : forall n, st_total (read_exact n)).
  { intros n input. unfold read_exact. by destruct (_ <=? _). }
  unfold read_header, read_u16, read_u32, read_u64. auto 60 with nopanic.
Qed.

(** ** Properties *)

(** C33 [align_up] to a power of two is the least multiple that is not below the
    value; it fails exactly when the rounding leaves [u64]. *)
Theorem align_up_spec v k r :
  is_u64 v -> 0 <= k <= 63 ->
  (align_up v (2 ^ k) = Ok r <->
     v + 2 ^ k - 1 <= U64_MAX /\ (2 ^ k | r) /\ v <= r < v + 2 ^ k) /\
  (U64_MAX < v + 2 ^ k - 1 -> align_up v (2 ^ k) = Err (TooLarge "aligned offset")).
Proof.
  intros Hv Hk. rewrite align_up_value by done.
  pose proof (Z.pow_pos_nonneg 2 k ltac:(lia) ltac:(lia)) as Ha.
  set (a := 2 ^ k) in *. clearbody a.
  pose proof (Z.div_mod (v + (a - 1)) a). pose proof (Z.mod_pos_bound (v + (a - 1)) a).
  destruct (Z.leb_spec (v + (a - 1)) U64_MAX).
  - split; [|lia]. split.
    + intros [= <-]. split_and!; [lia|by exists ((v + (a - 1)) / a); lia|lia..].
    + intros (? & [q ->] & ?).
      assert (q = (v + (a - 1)) / a) as <-
        by (apply (Z.div_unique _ _ _ (v + (a - 1) - q * a)); lia).
      by rewrite Z.mul_comm.
  - split; [|done]. split; [done|lia].
Qed.

Lemma align_up_spec_witness : align_up 60 (2 ^ 4) = Ok 64.
Proof.
  apply (align_up_spec 60 4 64); [unfold in_range, U64_MAX; lia|lia|].
  split_and!; [unfold U64_MAX; lia|by exists 4|lia|lia].
Defined.

(** C29 A header written to a destination that honours the contract of
    [Write] + [Seek] is read back unchanged; it takes [HEADER_SIZE] bytes, and
    what lies behind it and before it in the destination is not touched. *)
Theorem header_roundtrip {W contents position} `{WriteSeekSpec W contents position} h w w' :
  header_in_range h -> 0 <= position w -> write_header h w = (Ok tt, w') ->
  read_header (drop (Z.to_nat (position w)) (contents w')) =
    (Ok h, drop (Z.to_nat (position w + HEADER_SIZE)) (contents w)) /\
  position w' = position w + HEADER_SIZE /\
  (position w <= len (contents w) ->
   take (Z.to_nat (position w)) (contents w') = take (Z.to_nat (position w)) (contents w)).
Proof.
  intros Hh Hp Hw. pose proof (write_header_wrote h w Hp) as Hsafe.
  unfold ssafe in Hsafe. rewrite Hw in Hsafe. destruct Hsafe as [Hc Hpos].
  rewrite len_header_bytes in Hpos. rewrite Hc. unfold overwrite. split_and!; [|done|].
  - rewrite drop_app_length' by (symmetry; apply length_resize).
    rewrite read_header_app by done. do 2 f_equal.
    pose proof (len_header_bytes h) as Hl. unfold len in Hl. lia.
  - intros Hin. unfold len in Hin. rewrite resize_le by lia.
    by rewrite take_app_length' by (rewrite length_take; lia).
Qed.

Definition example_header : Header := {|
  h_version := 1; h_flags := 15; h_header_size := 60; h_alignment := 16; h_chunk_size := 1024;
  h_entry_count := 2; h_chunk_count := 1; h_toc_offset := 80; h_toc_size := 94;
  h_toc_raw_size := 134; h_toc_hash := 2744385410353888570 |}.

Definition example_dest : VecCursor := {| vc_data := replicate 64 xff; vc_pos := 2 |}.

Lemma header_roundtrip_witness :
  read_header (drop 2 (vc_data (write_header example_header example_dest).2)) =
    (Ok example_header, [xff; xff]) /\
  vc_pos (write_header example_header example_dest).2 = 2 + HEADER_SIZE /\
  take 2 (vc_data (write_header example_header example_dest).2) = [xff; xff].
Proof.
  destruct (header_roundtrip (contents := vc_data) (position := vc_pos) example_header example_dest
    (write_header example_header example_dest).2) as (Hr & Hp & Hb).
  - vm_compute. intuition congruence.
  - vm_compute. congruence.
  - vm_compute. reflexivity.
  - split_and!; [exact Hr|exact Hp|]. apply Hb. vm_compute. congruence.
Defined.

(** C28 [read_header] accepts exactly the encodings of headers: it consumes 60
    bytes, and its result determines them (the format is canonical). *)
Theorem read_header_canonical input h rest :
  read_header input = (Ok h, rest) <-> header_in_range h /\ input = header_bytes h ++ rest.
Proof.
  split.
  - intros [-> ?]%read_header_Ok. done.
  - intros [? ->]. by apply read_header_app.
Qed.

(** [validate_header] accepts a header exactly when version, size, flags
    (required bits, exactly one protection bit, no unknown bit), chunk size,
    alignment and TOC sizes are those of the format; it never panics. *)
Theorem validate_header_spec h :
  header_in_range h ->
  (validate_header h = Ok tt <-> HeaderSpec h) /\ validate_header h <> Panic.
Proof. apply validate_header_accepts. Qed.

Lemma validate_header_spec_witness : validate_header example_header = Ok tt.
Proof.
  apply (validate_header_spec example_header).
  - vm_compute. intuition congruence.
  - constructor; [done|done| |cbn; lia|by exists 4|cbn; lia|cbn; lia].
    apply flags_check_spec; [vm_compute; intuition congruence|]. reflexivity.
Defined.
