(* ===== verification/Source.v ===== *)
(** * Byte sources ([archive/source.rs])

    The trait [RandomAccessRead] as a class, what its implementations promise
    ([SourceSafe], [SourceHolds], [SourceReliable]), and the implementations:
    byte slices, [Arc<[u8]>], [io::Cursor], and [File] (also behind a
    [BufReader]) over an operating system that may answer with short reads
    and interruptions. *)
From S2P Require Export Io.

(** ** The trait *)

(** [read_exact_at] fills its destination, which is the state. *)
Class RandomAccessRead (R : Type) := {
  source_len : R -> IoRes Z;
  read_exact_at : R -> Z -> ST IoError bytes unit
}.

(** The provided method. *)
Definition is_empty {R} `{RandomAccessRead R} (source : R) : IoRes bool :=
  n ← source_len source; mret (n =? 0).

(** No call panics, a length is a [u64], and the destination keeps its size. *)
Class SourceSafe (R : Type) `{RandomAccessRead R} : Prop := {
  source_len_safe r : safe (source_len r) is_u64;
  read_exact_at_safe r offset dst :
    0 <= offset ->
    ssafe (read_exact_at r offset) dst (fun _ dst' => length dst' = length dst)
      (fun dst' => length dst' = length dst)
}.

(** A call that succeeds tells the truth about [content]. *)
Class SourceHolds (R : Type) `{RandomAccessRead R} (content : R -> bytes) : Prop := {
  source_len_holds r n : source_len r = Ok n -> n = len (content r);
  read_exact_at_holds r offset dst dst' :
    0 <= offset -> read_exact_at r offset dst = (Ok tt, dst') ->
    dst = [] \/ slice_get (content r) offset (offset + len dst) = Some dst'
}.

(** Every call within the content succeeds. *)
Class SourceReliable (R : Type) `{RandomAccessRead R} (content : R -> bytes) : Prop := {
  source_len_reliable r : is_u64 (len (content r)) -> source_len r = Ok (len (content r));
  read_exact_at_reliable r offset dst s :
    is_u64 (len (content r)) -> 0 <= offset -> slice_get (content r) offset (offset + len dst) = Some s ->
    read_exact_at r offset dst = (Ok tt, s)
}.

(** ** Slices *)

Definition read_slice_exact (source : bytes) (offset : Z) : ST IoError bytes unit :=
  start ← lift (ok_or (try_from USIZE_MAX offset) (io_new UnexpectedEof "read offset too large"));
  dst ← get;
  end_ ← lift (ok_or (checked_add USIZE_MAX start (len dst))
                 (io_new UnexpectedEof "read range overflow"));
  bytes ← lift (ok_or (slice_get source start end_)
                  (io_new UnexpectedEof "failed to fill whole buffer"));
  copy_from_slice bytes.

Definition slice_len (source : bytes) : IoRes Z :=
  ok_or (try_from U64_MAX (len source)) (io_other "source length overflow").

(** [&[u8]] *)
#[export] Instance slice_source : RandomAccessRead bytes := {
  source_len := slice_len;
  read_exact_at := read_slice_exact
}.

(** [Arc<[u8]>] *)
Record ArcSlice := { arc_ref : bytes }.

#[export] Instance arc_source : RandomAccessRead ArcSlice := {
  source_len source := slice_len (arc_ref source);
  read_exact_at source := read_slice_exact (arc_ref source)
}.

(** [io::Cursor<T>], whose position the source ignores. *)
Record IoCursor := { ic_ref : bytes; ic_position : Z }.

Definition cursor_read_exact_at (source : IoCursor) (offset : Z) : ST IoError bytes unit :=
  start ← lift (ok_or (try_from USIZE_MAX offset) (io_new UnexpectedEof "read offset too large"));
  dst ← get;
  end_ ← lift (ok_or (checked_add USIZE_MAX start (len dst))
                 (io_new UnexpectedEof "read range overflow"));
  bytes ← lift (ok_or (slice_get (ic_ref source) start end_)
                  (io_new UnexpectedEof "failed to fill whole buffer"));
  copy_from_slice bytes.

#[export] Instance cursor_source : RandomAccessRead IoCursor := {
  source_len source := slice_len (ic_ref source);
  read_exact_at := cursor_read_exact_at
}.

(** ** Files *)

(** [read_at] of the operating system: the answer to the [n]-th system call
    of one [read_exact_at], by its offset; the state is the destination. *)
Abbreviation ReadAt := (nat -> Z -> ST IoError bytes Z).

(** The loop of [<File as RandomAccessRead>::read_exact_at]: [n] counts the
    system calls; [None] when the fuel runs out. *)
Fixpoint read_at_loop (fuel : nat) (read_at : ReadAt) (n : nat) (offset : Z) (dst : bytes) :
    option (IoRes unit * bytes) :=
  match fuel with
  | O => None
  | S fuel =>
      if len dst =? 0 then Some (Ok tt, dst) else
      match read_at n offset dst with
      | (Err error, dst) =>
          if bool_decide (io_kind error = Interrupted)
          then read_at_loop fuel read_at (S n) offset dst
          else Some (Err error, dst)
      | (Panic, dst) => Some (Panic, dst)
      | (Ok amount, dst) =>
          if amount =? 0
          then Some (Err (io_new UnexpectedEof "failed to fill whole buffer"), dst)
          else
            match (amount ← ok_or (try_from U64_MAX amount) (io_other "read size overflow");
                   ok_or (checked_add U64_MAX offset amount) (io_other "read offset overflow"))
            with
            | Ok offset =>
                if amount <=? len dst then
                  '(r, rest) ← read_at_loop fuel read_at (S n) offset (drop (Z.to_nat amount) dst);
                  Some (r, take (Z.to_nat amount) dst ++ rest)
                else Some (Panic, dst)
            | Err error => Some (Err error, dst)
            | Panic => Some (Panic, dst)
            end
      end
  end.

(** [read_at] keeps the size of its destination, whose length bounds its
    count, and does not interrupt [patience] calls in a row. *)
Record ReadAtSpec (patience : nat) (read_at : ReadAt) : Prop := {
  read_at_safe n offset dst :
    ssafe (read_at n offset) dst
      (fun amount dst' => length dst' = length dst /\ 0 <= amount <= len dst)
      (fun dst' => length dst' = length dst);
  read_at_patient n offset (dst : bytes) :
    exists k, (k < patience)%nat /\ forall d e d', length d = length dst ->
      read_at (n + k)%nat offset d = (Err e, d') -> io_kind e <> Interrupted
}.

(** What [read_at] reads is the file's content; it reads nothing only at the
    end of the file. *)
Record ReadAtHolds (read_at : ReadAt) (content : bytes) : Prop := {
  read_at_holds n offset dst amount dst' :
    read_at n offset dst = (Ok amount, dst') -> 0 <= offset -> dst <> [] ->
    take (Z.to_nat amount) dst' = take (Z.to_nat amount) (drop (Z.to_nat offset) content) /\
    offset + amount <= Z.max offset (len content) /\
    (amount = 0 -> len content <= offset)
}.

Record File := {
  file_metadata_len : IoRes Z;
  file_read_at : ReadAt;
  file_content : bytes;
  file_patience : nat;
  file_metadata_safe : safe file_metadata_len (fun n => is_u64 n /\ n = len file_content);
  file_read_at_spec : ReadAtSpec file_patience file_read_at;
  file_read_at_holds : ReadAtHolds file_read_at file_content
}.

Definition read_at_fuel (patience : nat) (dst : bytes) : nat := S (patience * length dst).

Definition file_read_exact_at (source : File) (offset : Z) : ST IoError bytes unit := fun dst =>
  match read_at_loop (read_at_fuel (file_patience source) dst) (file_read_at source) 0 offset dst with
  | Some r => r
  | None => (Panic, dst)
  end.

#[export] Instance file_source : RandomAccessRead File := {
  source_len := file_metadata_len;
  read_exact_at := file_read_exact_at
}.

(** [BufReader<File>]: both methods go to the inner file. *)
Record BufReader := { get_ref : File }.

#[export] Instance buf_reader_source : RandomAccessRead BufReader := {
  source_len source := source_len (get_ref source);
  read_exact_at source := read_exact_at (get_ref source)
}.

(** ** Lemmas: slices *)

Lemma read_slice_exact_run source offset dst :
  0 <= offset ->
  exists r, read_slice_exact source offset dst =
    match slice_get source offset (offset + len dst) with
    | Some s => if offset + len dst <=? USIZE_MAX then (Ok tt, s) else (Err r, dst)
    | None => (Err r, dst)
    end.
Proof.
  intros Ho. unfold read_slice_exact, lift, get, mbind, st_bind, try_from, checked_add.
  pose proof (len_nonneg dst).
  destruct (Z.leb_spec offset USIZE_MAX); cbn.
  2:{ eexists. destruct (slice_get _ _ _); [|done]. by zdecide. }
  destruct (Z.leb_spec (offset + len dst) USIZE_MAX); cbn.
  2:{ eexists. destruct (slice_get _ _ _); done. }
  destruct (slice_get source offset (offset + len dst)) as [s|] eqn:Hs; cbn; [|by eexists].
  exists (io_other ""). apply copy_from_slice_run. apply slice_get_len in Hs.
  unfold len in *. lia.
Qed.

Lemma slice_len_safe source : safe (slice_len source) is_u64.
Proof.
  unfold slice_len, try_from. destruct (Z.leb_spec (len source) U64_MAX); cbn; [|done].
  split; [apply len_nonneg|done].
Qed.

Lemma slice_len_Ok source n : slice_len source = Ok n -> n = len source.
Proof. unfold slice_len. intros H. by inv_ok. Qed.

Lemma read_slice_exact_safe source offset dst :
  0 <= offset -> ssafe (read_slice_exact source offset) dst
    (fun _ dst' => length dst' = length dst) (fun dst' => length dst' = length dst).
Proof.
  intros Ho. unfold ssafe. destruct (read_slice_exact_run source offset dst Ho) as [r ->].
  destruct (slice_get _ _ _) as [s|] eqn:Hs; [|done]. apply slice_get_len in Hs.
  destruct (_ <=? _); [|done]. unfold len in *. lia.
Qed.

Lemma read_slice_exact_Ok source offset dst dst' :
  0 <= offset -> read_slice_exact source offset dst = (Ok tt, dst') ->
  slice_get source offset (offset + len dst) = Some dst'.
Proof.
  intros Ho. destruct (read_slice_exact_run source offset dst Ho) as [r ->].
  destruct (slice_get _ _ _); [|done]. destruct (_ <=? _); [|done]. by intros [= ->].
Qed.

Lemma read_slice_exact_reliable source offset dst s :
  is_u64 (len source) -> 0 <= offset -> slice_get source offset (offset + len dst) = Some s ->
  read_slice_exact source offset dst = (Ok tt, s).
Proof.
  intros [_ Hl] Ho Hs. destruct (read_slice_exact_run source offset dst Ho) as [r ->].
  rewrite Hs. apply slice_get_Some in Hs as (_ & Hs & _). unfold USIZE_MAX. by zdecide.
Qed.

Lemma slice_len_reliable source : is_u64 (len source) -> slice_len source = Ok (len source).
Proof. intros [_ H]. unfold slice_len, try_from. by zdecide. Qed.

(** The three in-memory sources keep the contract by the same lemmas
    ([cursor_read_exact_at c] is [read_slice_exact (ic_ref c)]). *)
#[export] Instance slice_safe : SourceSafe bytes.
Proof. constructor; intros; [apply slice_len_safe|by apply read_slice_exact_safe]. Qed.
#[export] Instance arc_safe : SourceSafe ArcSlice.
Proof. constructor; intros; [apply slice_len_safe|by apply read_slice_exact_safe]. Qed.
#[export] Instance cursor_safe : SourceSafe IoCursor.
Proof. constructor; intros r; intros; [apply slice_len_safe|by apply (read_slice_exact_safe (ic_ref r))]. Qed.

#[export] Instance slice_holds : SourceHolds bytes id.
Proof. constructor; intros; [by apply slice_len_Ok|right; by apply read_slice_exact_Ok]. Qed.
#[export] Instance arc_holds : SourceHolds ArcSlice arc_ref.
Proof. constructor; intros; [by apply slice_len_Ok|right; by apply read_slice_exact_Ok]. Qed.
#[export] Instance cursor_holds : SourceHolds IoCursor ic_ref.
Proof.
  constructor; intros r; intros; [by apply slice_len_Ok|right].
  by apply (read_slice_exact_Ok (ic_ref r)).
Qed.

#[export] Instance slice_reliable : SourceReliable bytes id.
Proof. constructor; intros; [by apply slice_len_reliable|by apply read_slice_exact_reliable]. Qed.
#[export] Instance arc_reliable : SourceReliable ArcSlice arc_ref.
Proof. constructor; intros; [by apply slice_len_reliable|by apply read_slice_exact_reliable]. Qed.
#[export] Instance cursor_reliable : SourceReliable IoCursor ic_ref.
Proof.
  constructor; intros r; intros; [by apply slice_len_reliable|].
  by apply (read_slice_exact_reliable (ic_ref r)).
Qed.

(** ** Lemmas: files *)

Section FileLoop.
Context (read_at : ReadAt) (patience : nat) (Hspec : ReadAtSpec patience read_at).

(** Fuel that is enough: a last turn, and [patience] turns for each byte. *)
Definition enough (fuel n : nat) (offset : Z) (dst : bytes) : Prop :=
  (dst = [] /\ (1 <= fuel)%nat) \/
  exists k, (S (S (k + patience * (length dst - 1))) <= fuel)%nat /\
    forall d e d', length d = length dst ->
      read_at (n + k)%nat offset d = (Err e, d') -> io_kind e <> Interrupted.

Lemma enough_fuel fuel n offset dst :
  (S (patience * length dst) <= fuel)%nat -> enough fuel n offset dst.
Proof.
  intros Hf. destruct dst as [|b dst]; [left; split; [done|lia]|right].
  destruct (read_at_patient _ _ Hspec n offset (b :: dst)) as (k & Hk & Hn).
  exists k. split; [|done]. cbn [length] in *. replace (S (length dst) - 1)%nat with (length dst) by lia.
  lia.
Qed.

Lemma enough_fuel_drop fuel k n offset (dst d : bytes) amount :
  (S (S (k + patience * (length dst - 1))) <= S fuel)%nat -> length d = length dst ->
  0 <= amount <= len dst -> amount <> 0 -> enough fuel n offset (drop (Z.to_nat amount) d).
Proof.
  intros Hf Hl Ha Hne. apply enough_fuel. rewrite length_drop. unfold len in *.
  pose proof (Nat.mul_le_mono_l (length d - Z.to_nat amount) (length dst - 1) patience). lia.
Qed.

(** The loop stops within its fuel, without a panic, and keeps the size. *)
Lemma read_at_loop_total fuel n offset dst :
  0 <= offset -> enough fuel n offset dst ->
  exists r dst', read_at_loop fuel read_at n offset dst = Some (r, dst') /\ r <> Panic /\
    length dst' = length dst.
Proof.
  revert n offset dst. induction fuel as [|fuel IH]; intros n offset dst Ho He.
  { destruct He as [[_ He]|(k & He & _)]; inversion He. }
  cbn [read_at_loop]. destruct (Z.eqb_spec (len dst) 0) as [Hz|Hz]; [by eexists _, _|].
  destruct He as [[-> _]|(k & Hf & Hk)]; [done|].
  pose proof (read_at_safe _ _ Hspec n offset dst) as Hs. unfold ssafe in Hs.
  destruct (read_at n offset dst) as [[amount|e|] dst'] eqn:Hr; [| |done].
  - destruct Hs as [Hl Ha]. destruct (Z.eqb_spec amount 0); [by eexists _, _|].
    destruct (amount ← _; _) as [offset'|e|] eqn:Hb.
    + assert (Hamt : amount <= len dst') by (unfold len in *; lia). zdecide.
      inv_ok. destruct (IH (S n) (offset + amount) (drop (Z.to_nat amount) dst')) as (r & d & -> & Hp & Hd).
      * lia.
      * by apply (enough_fuel_drop fuel k _ _ dst).
      * cbn. eexists _, _. split_and!; [done..|]. rewrite length_app, length_take. rewrite Hd, length_drop.
        unfold len in *. lia.
    + by eexists _, _.
    + exfalso. revert Hb. unfold ok_or. destruct (try_from _ _); cbn; [|done].
      by destruct (checked_add _ _ _).
  - case_bool_decide as Hi; [|by eexists _, _].
    destruct (IH (S n) offset dst') as (r & d & -> & Hp & Hd); [done| |].
    + right. destruct k as [|k].
      { rewrite Nat.add_0_r in Hk. by destruct (Hk dst e dst' eq_refl Hr). }
      exists k. rewrite Hs. split; [lia|]. intros d e' d'. rewrite <- Nat.add_succ_comm in Hk. apply Hk.
    + eexists _, _. split_and!; [done..|]. congruence.
Qed.

(** What a successful loop read is the file's content. *)
Lemma read_at_loop_holds content fuel n offset dst dst' :
  ReadAtHolds read_at content -> 0 <= offset ->
  read_at_loop fuel read_at n offset dst = Some (Ok tt, dst') ->
  dst = [] \/ slice_get content offset (offset + len dst) = Some dst'.
Proof.
  intros Hh. revert n offset dst dst'. induction fuel as [|fuel IH]; intros n offset dst dst' Ho; [done|].
  cbn [read_at_loop]. destruct (Z.eqb_spec (len dst) 0) as [Hz|Hz].
  { intros _. left. by apply len_0_nil. }
  pose proof (read_at_safe _ _ Hspec n offset dst) as Hs. unfold ssafe in Hs.
  destruct (read_at n offset dst) as [[amount|e|] d] eqn:Hr; [| |done].
  2:{ case_bool_decide; [|done]. intros Hl. apply IH in Hl as [->|Hl]; [left|right|done].
      - by apply nil_length_inv.
      - unfold len in *. by rewrite Hs in Hl. }
  destruct Hs as [Hlen Ha]. destruct (Z.eqb_spec amount 0) as [|Hne]; [done|].
  apply (read_at_holds _ _ Hh) in Hr as (Htake & Hend & _); [|done|by intros ->].
  destruct (amount ← _; _) as [offset'|e|] eqn:Hb; [|done..]. inv_ok.
  destruct (Z.leb_spec amount (len d)) as [Hle|]; [|done].
  destruct (read_at_loop fuel read_at (S n) (offset + amount) (drop (Z.to_nat amount) d))
    as [[r rest]|] eqn:Hl; [|done]. cbn. intros [= -> <-].
  assert (Hld : len d = len dst) by (unfold len; lia). right.
  apply slice_get_Some. destruct (IH _ (offset + amount) _ _ ltac:(lia) Hl) as [Hnil|Hl2].
  - apply (f_equal length) in Hnil as Hn. rewrite length_drop in Hn. unfold len in *. cbn in Hn.
    assert (amount = Z.of_nat (length dst)) as -> by lia.
    rewrite Hnil in Hl.
    assert (rest = []) as ->.
    { destruct fuel; [done|]. cbn in Hl. by injection Hl as <-. }
    rewrite app_nil_r, Htake. split_and!; [lia..|]. f_equal. lia.
  - clear Hl. apply slice_get_Some in Hl2 as (? & Hb2 & ->). unfold len in *. rewrite length_drop in *.
    split_and!; [lia..|]. rewrite Htake.
    replace (Z.to_nat (offset + amount)) with (Z.to_nat offset + Z.to_nat amount)%nat by lia.
    rewrite <- drop_drop.
    replace (Z.to_nat (offset + Z.of_nat (length dst) - offset)) with
      (Z.to_nat amount + (length dst - Z.to_nat amount))%nat by lia.
    rewrite <- take_take_drop. f_equal. f_equal. lia.
Qed.

(** Within the file, only an error of the operating system stops the loop. *)
Lemma read_at_loop_ok content fuel n offset dst :
  ReadAtHolds read_at content -> is_u64 (len content) ->
  (forall m o d e d', read_at m o d = (Err e, d') -> io_kind e = Interrupted) ->
  0 <= offset -> offset + len dst <= len content -> enough fuel n offset dst ->
  exists dst', read_at_loop fuel read_at n offset dst = Some (Ok tt, dst').
Proof.
  intros Hh [_ Hc] Hno. revert n offset dst. induction fuel as [|fuel IH]; intros n offset dst Ho Hin He.
  { destruct He as [[_ He]|(k & He & _)]; inversion He. }
  cbn [read_at_loop]. destruct (Z.eqb_spec (len dst) 0) as [Hz|Hz]; [by eexists|].
  destruct He as [[-> _]|(k & Hf & Hk)]; [done|].
  pose proof (read_at_safe _ _ Hspec n offset dst) as Hs. unfold ssafe in Hs.
  destruct (read_at n offset dst) as [[amount|e|] d] eqn:Hr; [| |done].
  - destruct Hs as [Hl Ha]. 
    pose proof (read_at_holds _ _ Hh _ _ _ _ _ Hr Ho ltac:(by intros ->)) as (_ & Hend & Hz0).
    pose proof (len_nonneg dst).
    destruct (Z.eqb_spec amount 0) as [->|Hne]; [lia|].
    unfold try_from, checked_add. zdecide. cbn. zdecide. cbn.
    assert (Hamt : amount <= len d) by (unfold len in *; lia). zdecide.
    destruct (IH (S n) (offset + amount) (drop (Z.to_nat amount) d)) as [d' ->]; [lia| | |by eexists].
    + unfold len in *. rewrite length_drop. lia.
    + by apply (enough_fuel_drop fuel k _ _ dst).
  - rewrite bool_decide_true by (by eapply Hno).
    apply IH; [done|unfold len in *; lia|]. right. destruct k as [|k].
    { rewrite Nat.add_0_r in Hk. destruct (Hk dst e d eq_refl Hr). by eapply Hno. }
    exists k. rewrite Hs. split; [lia|]. intros d0 e' d'. rewrite <- Nat.add_succ_comm in Hk. apply Hk.
Qed.
End FileLoop.

#[export] Instance file_safe : SourceSafe File.
Proof.
  constructor.
  - intros f. eapply safe_mono; [apply file_metadata_safe|]. by intros n _ [? _].
  - intros f offset dst Ho. unfold ssafe. cbn. unfold file_read_exact_at.
    destruct (read_at_loop_total _ _ (file_read_at_spec f) (read_at_fuel (file_patience f) dst)
      0 offset dst Ho) as (r & dst' & -> & Hp & Hl).
    + by apply (enough_fuel _ _ (file_read_at_spec f)).
    + by destruct r as [[]|e|].
Qed.

Lemma file_read_exact_at_holds f offset dst dst' :
  0 <= offset -> file_read_exact_at f offset dst = (Ok tt, dst') ->
  dst = [] \/ slice_get (file_content f) offset (offset + len dst) = Some dst'.
Proof.
  intros Ho. unfold file_read_exact_at. destruct (read_at_loop _ _ _ _ _) as [r|] eqn:Hl; [|done].
  intros ->. by eapply read_at_loop_holds; [apply file_read_at_spec|apply file_read_at_holds|..].
Qed.

#[export] Instance file_holds : SourceHolds File file_content.
Proof.
  constructor.
  - intros f n Hn. pose proof (file_metadata_safe f) as Hs. cbn in Hn. rewrite Hn in Hs. apply Hs.
  - intros f offset dst dst' Ho. by apply file_read_exact_at_holds.
Qed.

#[export] Instance buf_reader_safe : SourceSafe BufReader.
Proof. constructor; intros r; intros; [apply (source_len_safe (get_ref r))|by apply (read_exact_at_safe (get_ref r))]. Qed.
#[export] Instance buf_reader_holds : SourceHolds BufReader (fun r => file_content (get_ref r)).
Proof.
  constructor; intros r; intros; [by apply (source_len_holds (get_ref r))|].
  by apply (read_exact_at_holds (get_ref r)).
Qed.

(** A file whose system calls read at most two bytes and are interrupted
    every other time. *)
Module FileExample.
Definition content : bytes := lit "hello".

Definition read_at : ReadAt := fun n offset dst =>
  if Nat.even n then (Err (io_new Interrupted "interrupted"), dst)
  else let s := take (Nat.min 2 (length dst)) (drop (Z.to_nat offset) content) in
       (Ok (len s), splice dst 0 s).

Lemma spec : ReadAtSpec 2 read_at.
Proof.
  constructor.
  - intros n offset dst. unfold ssafe, read_at. destruct (Nat.even n); [done|].
    set (s := take _ _). assert (Hs : len s <= len dst) by (unfold s, len; rewrite length_take; lia).
    pose proof (len_nonneg s). split; [|lia].
    apply Nat2Z.inj. apply (len_splice dst s 0); lia.
  - intros n offset dst. exists (if Nat.even n then 1 else 0)%nat.
    destruct (Nat.even n) eqn:E; (split; [lia|]); unfold read_at.
    + rewrite Nat.add_1_r, Nat.even_succ, <- Nat.negb_even, E. cbn. done.
    + rewrite Nat.add_0_r, E. done.
Qed.

Lemma holds : ReadAtHolds read_at content.
Proof.
  constructor. intros n offset dst amount dst'. unfold read_at.
  destruct (Nat.even n); [done|]. set (s := take _ _). intros [= <- <-] Ho Hd.
  assert (Hls : length s = Nat.min (Nat.min 2 (length dst)) (length content - Z.to_nat offset))
    by (unfold s; by rewrite length_take, length_drop).
  assert (0 < length dst)%nat by (destruct dst; [done|cbn; lia]).
  unfold len. rewrite Nat2Z.id. split_and!; [|lia|lia].
  unfold splice. change (Z.to_nat 0) with 0%nat. rewrite take_0, app_nil_l, take_app_length.
  unfold s. rewrite length_take. set (k := Nat.min _ _). set (d := drop _ _).
  destruct (Nat.min_spec k (length d)) as [[? ->]|[? ->]]; [done|]. by rewrite !take_ge by lia.
Qed.

Definition file : File := {|
  file_metadata_len := Ok 5;
  file_read_at := read_at;
  file_content := content;
  file_patience := 2;
  file_metadata_safe := conj (conj (Zle_bool_imp_le 0 5 eq_refl) (Zle_bool_imp_le 5 U64_MAX eq_refl)) eq_refl;
  file_read_at_spec := spec;
  file_read_at_holds := holds
|}.
End FileExample.

(** ** Properties *)

(** C32 The read loop of a [File] ends whatever the system's short reads and
    bounded interruptions: it never panics nor runs out of fuel, keeps the
    destination's size, succeeds only with the file's bytes, and fails within
    the file only on an error other than an interruption. *)
Theorem file_read_exact_at_spec (f : File) offset dst :
  0 <= offset ->
  exists r dst', read_at_loop (read_at_fuel (file_patience f) dst) (file_read_at f) 0 offset dst =
      Some (r, dst') /\
    file_read_exact_at f offset dst = (r, dst') /\ r <> Panic /\ length dst' = length dst /\
    (r = Ok tt -> dst <> [] -> slice_get (file_content f) offset (offset + len dst) = Some dst') /\
    (is_u64 (len (file_content f)) -> offset + len dst <= len (file_content f) ->
     (forall m o d e d', file_read_at f m o d = (Err e, d') -> io_kind e = Interrupted) -> r = Ok tt).
Proof.
  intros Ho. assert (He := enough_fuel _ _ (file_read_at_spec f) (read_at_fuel (file_patience f) dst)
    0 offset dst (le_n _)).
  destruct (read_at_loop_total _ _ (file_read_at_spec f) _ 0 offset dst Ho He) as (r & d & Hr & Hp & Hl).
  exists r, d. split_and!; [done| |done|done| |].
  - unfold file_read_exact_at. by rewrite Hr.
  - intros -> Hd. destruct (file_read_exact_at_holds f offset dst d Ho); [|done..].
    unfold file_read_exact_at. by rewrite Hr.
  - intros Hc Hin Hno. destruct (read_at_loop_ok _ _ (file_read_at_spec f) (file_content f)
      (read_at_fuel (file_patience f) dst) 0 offset dst) as [d' Hd']; try done; [apply file_read_at_holds|].
    congruence.
Qed.

(** A read from a byte slice succeeds exactly when the range is inside it,
    then with the bytes of the range; otherwise it leaves the destination as
    it was. *)
Theorem read_slice_exact_spec source offset dst :
  is_u64 (len source) -> 0 <= offset ->
  match slice_get source offset (offset + len dst) with
  | Some s => read_slice_exact source offset dst = (Ok tt, s)
  | None => exists e, read_slice_exact source offset dst = (Err e, dst) /\ io_kind e = UnexpectedEof
  end.
Proof.
  intros Hs Ho. destruct (slice_get source offset _) as [s|] eqn:Hg.
  { by apply read_slice_exact_reliable. }
  unfold read_slice_exact, lift, get, mbind, st_bind, try_from, checked_add.
  destruct (Z.leb_spec offset USIZE_MAX); cbn; [|by eexists].
  destruct (Z.leb_spec (offset + len dst) USIZE_MAX); cbn; [|by eexists].
  rewrite Hg. by eexists.
Qed.

Lemma file_read_exact_at_spec_witness :
  file_read_exact_at FileExample.file 1 (lit "....") = (Ok tt, lit "ello") /\
  exists r dst', file_read_exact_at FileExample.file 1 (lit "....") = (r, dst') /\ r <> Panic.
Proof.
  split; [vm_compute; reflexivity|].
  destruct (file_read_exact_at_spec FileExample.file 1 (lit "....")) as (r & d & _ & H & Hp & _); [lia|].
  by exists r, d.
Defined.

Lemma read_slice_exact_spec_witness :
  read_slice_exact (lit "hello") 1 (lit "...") = (Ok tt, lit "ell").
Proof.
  apply (read_slice_exact_spec (lit "hello") 1 (lit "...")); [vm_compute; split; congruence|lia].
Defined.
