(* ===== verification/Limits.v ===== *)
(** * Caller limits ([ArchiveLimits], [validate_limits] of [archive/reader.rs])

    The hard limits, the two presets, [clamped], and the checks that bound the
    work and the memory of opening an archive before its table of contents is
    read. *)
From S2P Require Export Format.

Record ArchiveLimits := {
  max_toc_stored_bytes : Z;
  max_toc_raw_bytes : Z;
  max_entries : Z;
  max_chunks : Z;
  max_chunks_per_operation : Z;
  max_path_bytes : Z;
  max_total_path_bytes : Z;
  max_total_decompressed_bytes : Z;
  max_single_asset_bytes : Z;
  max_metadata_bytes : Z
}.

Definition HARD_MAX_TOC_STORED_BYTES : Z := MAX_TOC_STORED_SIZE.
Definition HARD_MAX_TOC_RAW_BYTES : Z := MAX_TOC_RAW_SIZE.
Definition HARD_MAX_ENTRIES : Z := 1000000.
Definition HARD_MAX_CHUNKS : Z := 8000000.
Definition HARD_MAX_CHUNKS_PER_OPERATION : Z := HARD_MAX_CHUNKS.
Definition HARD_MAX_PATH_BYTES : Z := MAX_PATH_LEN.
Definition HARD_MAX_TOTAL_PATH_BYTES : Z := 64 * 1024 * 1024.
Definition HARD_MAX_TOTAL_DECOMPRESSED_BYTES : Z := 8 * 1024 * 1024 * 1024.
Definition HARD_MAX_SINGLE_ASSET_BYTES : Z := HARD_MAX_TOTAL_DECOMPRESSED_BYTES.
Definition HARD_MAX_METADATA_BYTES : Z := 2 * 1024 * 1024 * 1024.
Definition HARD_MAX_IDENTIFIER_BUCKET_ENTRIES : Z := 64.

Definition runtime_default : ArchiveLimits := {|
  max_toc_stored_bytes := 64 * 1024 * 1024;
  max_toc_raw_bytes := 128 * 1024 * 1024;
  max_entries := 100000;
  max_chunks := 500000;
  max_chunks_per_operation := 65536;
  max_path_bytes := HARD_MAX_PATH_BYTES;
  max_total_path_bytes := 64 * 1024 * 1024;
  max_total_decompressed_bytes := 4 * 1024 * 1024 * 1024;
  max_single_asset_bytes := 512 * 1024 * 1024;
  max_metadata_bytes := 512 * 1024 * 1024
|}.

Definition tooling_default : ArchiveLimits := {|
  max_toc_stored_bytes := HARD_MAX_TOC_STORED_BYTES;
  max_toc_raw_bytes := HARD_MAX_TOC_RAW_BYTES;
  max_entries := HARD_MAX_ENTRIES;
  max_chunks := HARD_MAX_CHUNKS;
  max_chunks_per_operation := HARD_MAX_CHUNKS_PER_OPERATION;
  max_path_bytes := HARD_MAX_PATH_BYTES;
  max_total_path_bytes := HARD_MAX_TOTAL_PATH_BYTES;
  max_total_decompressed_bytes := HARD_MAX_TOTAL_DECOMPRESSED_BYTES;
  max_single_asset_bytes := HARD_MAX_SINGLE_ASSET_BYTES;
  max_metadata_bytes := HARD_MAX_METADATA_BYTES
|}.

Definition permissive_v1 : ArchiveLimits := tooling_default.

(** [<ArchiveLimits as Default>::default] *)
Definition default_limits : ArchiveLimits := runtime_default.

Definition clamped (self : ArchiveLimits) : ArchiveLimits := {|
  max_toc_stored_bytes := Z.min (max_toc_stored_bytes self) HARD_MAX_TOC_STORED_BYTES;
  max_toc_raw_bytes := Z.min (max_toc_raw_bytes self) HARD_MAX_TOC_RAW_BYTES;
  max_entries := Z.min (max_entries self) HARD_MAX_ENTRIES;
  max_chunks := Z.min (max_chunks self) HARD_MAX_CHUNKS;
  max_chunks_per_operation := Z.min (max_chunks_per_operation self) HARD_MAX_CHUNKS_PER_OPERATION;
  max_path_bytes := Z.min (max_path_bytes self) HARD_MAX_PATH_BYTES;
  max_total_path_bytes := Z.min (max_total_path_bytes self) HARD_MAX_TOTAL_PATH_BYTES;
  max_total_decompressed_bytes :=
    Z.min (max_total_decompressed_bytes self) HARD_MAX_TOTAL_DECOMPRESSED_BYTES;
  max_single_asset_bytes := Z.min (max_single_asset_bytes self) HARD_MAX_SINGLE_ASSET_BYTES;
  max_metadata_bytes := Z.min (max_metadata_bytes self) HARD_MAX_METADATA_BYTES
|}.

(** ** [estimated_metadata_bytes] *)

(** [std::mem::size_of] of the metadata types on a 64-bit target, without the
    padding a reordering could add: a [String] is three words. *)
Definition SIZE_OF_STRING : Z := 3 * 8.
Definition SIZE_OF_TOC_ENTRY : Z := SIZE_OF_STRING + 3 * 8 + 2 * 4.
Definition SIZE_OF_ENTRY : Z := SIZE_OF_STRING + 3 * 8 + 2 * 4.
Definition SIZE_OF_INDEX_SLOT : Z := 8 + 8.
(** Four [u64]s and a [bool], rounded up to the alignment of [u64]. *)
Definition SIZE_OF_CHUNK : Z := 4 * 8 + 8.
Definition SIZE_OF_BOOL : Z := 1.

Definition estimated_metadata_bytes (header : Header) : Res Z :=
  entry_bytes ← ok_or
    (checked_add USIZE_MAX SIZE_OF_TOC_ENTRY SIZE_OF_ENTRY ≫= fun value =>
     checked_add USIZE_MAX value SIZE_OF_INDEX_SLOT ≫= fun value =>
     try_from U64_MAX value) MetadataLimitExceeded;
  chunk_bytes ← ok_or
    (checked_add USIZE_MAX SIZE_OF_CHUNK SIZE_OF_BOOL ≫= fun value =>
     try_from U64_MAX value) MetadataLimitExceeded;
  ok_or
    (checked_add U64_MAX (h_toc_size header) (h_toc_raw_size header) ≫= fun value =>
     checked_add U64_MAX value (h_toc_raw_size header) ≫= fun value =>
     (checked_mul U64_MAX (h_entry_count header) entry_bytes ≫= fun entries =>
      checked_add U64_MAX value entries) ≫= fun value =>
     (checked_mul U64_MAX (h_chunk_count header) chunk_bytes ≫= fun chunks =>
      checked_add U64_MAX value chunks)) MetadataLimitExceeded.

(** ** [validate_limits] *)

Definition validate_limits (header : Header) (limits : ArchiveLimits) : Res unit :=
  ensure (h_toc_size header <=? max_toc_stored_bytes limits) (TooLarge "stored TOC limit");;
  ensure (h_toc_raw_size header <=? max_toc_raw_bytes limits) (TooLarge "raw TOC limit");;
  ensure (h_entry_count header <=? max_entries limits) TooManyEntries;;
  ensure (h_chunk_count header <=? max_chunks limits) TooManyChunks;;
  ensure (negb (Z.land (h_flags header) HEADER_FLAG_PATHS_STRIPPED =? 0)
            || (h_entry_count header <=? max_total_path_bytes limits)) MetadataLimitExceeded;;
  entry_record_size ← ok_or (try_from U64_MAX TOC_ENTRY_FIXED_SIZE) (TooLarge "TOC entry size");
  chunk_record_size ← ok_or (try_from U64_MAX TOC_CHUNK_FIXED_SIZE) (TooLarge "TOC chunk size");
  minimum ← ok_or
    ((checked_mul U64_MAX (h_entry_count header) entry_record_size ≫= fun value =>
      checked_mul U64_MAX (h_chunk_count header) chunk_record_size ≫= fun chunks =>
      checked_add U64_MAX value chunks) ≫= fun value =>
     checked_add U64_MAX value 4) (TooLarge "TOC record counts");
  minimum ← (if Z.land (h_flags header) HEADER_FLAG_PATHS_STRIPPED =? 0
             then ok_or (checked_add U64_MAX minimum (h_entry_count header))
                    (TooLarge "TOC record counts")
             else mret minimum);
  ensure (minimum <=? h_toc_raw_size header) (Corrupt "TOC counts exceed raw TOC size");;
  estimate ← estimated_metadata_bytes header;
  ensure (estimate <=? max_metadata_bytes limits) MetadataLimitExceeded;;
  mret tt.

(** ** Specification *)

Definition limits_in_range (l : ArchiveLimits) : Prop :=
  is_u64 (max_toc_stored_bytes l) /\ is_u64 (max_toc_raw_bytes l) /\ is_u32 (max_entries l) /\
  is_u32 (max_chunks l) /\ is_u32 (max_chunks_per_operation l) /\ is_u64 (max_path_bytes l) /\
  is_u64 (max_total_path_bytes l) /\ is_u64 (max_total_decompressed_bytes l) /\
  is_u64 (max_single_asset_bytes l) /\ is_u64 (max_metadata_bytes l).

(** Every limit of [k] is at least as strict as that of [l]. *)
Definition limits_le (k l : ArchiveLimits) : Prop :=
  max_toc_stored_bytes k <= max_toc_stored_bytes l /\
  max_toc_raw_bytes k <= max_toc_raw_bytes l /\
  max_entries k <= max_entries l /\
  max_chunks k <= max_chunks l /\
  max_chunks_per_operation k <= max_chunks_per_operation l /\
  max_path_bytes k <= max_path_bytes l /\
  max_total_path_bytes k <= max_total_path_bytes l /\
  max_total_decompressed_bytes k <= max_total_decompressed_bytes l /\
  max_single_asset_bytes k <= max_single_asset_bytes l /\
  max_metadata_bytes k <= max_metadata_bytes l.

Definition stripped (h : Header) : bool :=
  negb (Z.land (h_flags h) HEADER_FLAG_PATHS_STRIPPED =? 0).

(** The size of the smallest table of contents with the header's counts: an
    entry of a debug archive has a path of at least one byte. *)
Definition minimal_toc (h : Header) : Z :=
  4 + h_entry_count h * (TOC_ENTRY_FIXED_SIZE + (if stripped h then 0 else 1))
    + h_chunk_count h * TOC_CHUNK_FIXED_SIZE.

Definition metadata_estimate (h : Header) : Z :=
  h_toc_size h + 2 * h_toc_raw_size h + h_entry_count h * (56 + 56 + 16)
    + h_chunk_count h * (40 + 1).

Record WithinLimits (h : Header) (l : ArchiveLimits) : Prop := {
  wl_toc : h_toc_size h <= max_toc_stored_bytes l;
  wl_raw : h_toc_raw_size h <= max_toc_raw_bytes l;
  wl_entries : h_entry_count h <= max_entries l;
  wl_chunks : h_chunk_count h <= max_chunks l;
  wl_paths : stripped h = true \/ h_entry_count h <= max_total_path_bytes l;
  wl_minimum : minimal_toc h <= h_toc_raw_size h;
  wl_metadata : metadata_estimate h <= max_metadata_bytes l
}.

(** ** Lemmas *)

Lemma WithinLimits_mono h k l : limits_le k l -> WithinLimits h k -> WithinLimits h l.
Proof.
  intros (?&?&?&?&?&?&?&?&?&?) [? ? ? ? Hp ? ?]. constructor; try lia.
  destruct Hp; [by left|right; lia].
Qed.

Lemma clamped_range l : limits_in_range l -> limits_in_range (clamped l).
Proof.
  unfold limits_in_range, in_range. cbn. intros (?&?&?&?&?&?&?&?&?&?).
  split_and!; (apply Z.min_glb; [lia|by vm_compute]) || (etransitivity; [apply Z.le_min_l|lia]).
Qed.

Lemma clamped_le l : limits_le (clamped l) l /\ limits_le (clamped l) tooling_default.
Proof. unfold limits_le. cbn. split; split_and!; (apply Z.le_min_l || apply Z.le_min_r). Qed.

Lemma estimated_metadata_bytes_run h :
  header_in_range h ->
  estimated_metadata_bytes h =
    if metadata_estimate h <=? U64_MAX then Ok (metadata_estimate h) else Err MetadataLimitExceeded.
Proof.
  unfold header_in_range, in_range, U16_MAX, U32_MAX, U64_MAX.
  intros (?&?&?&?&?&?&?&?&?&?&?).
  unfold estimated_metadata_bytes, metadata_estimate.
  unfold SIZE_OF_TOC_ENTRY, SIZE_OF_ENTRY, SIZE_OF_INDEX_SLOT, SIZE_OF_CHUNK, SIZE_OF_BOOL,
    SIZE_OF_STRING.
  cbn [checked_add checked_mul try_from mbind option_bind ok_or result_bind Z.add Z.mul Z.leb].
  unfold checked_mul, checked_add, try_from, USIZE_MAX, U64_MAX.
  repeat (match goal with |- context [if ?a <=? ?b then Some _ else None] =>
            destruct (Z.leb_spec a b) end; cbn [mbind option_bind ok_or result_bind]; try lia);
  zdecide; try done; f_equal; lia.
Qed.

Lemma validate_limits_decides h l :
  header_in_range h -> is_u64 (max_metadata_bytes l) ->
  decides (validate_limits h l) (WithinLimits h l) (fun _ => True).
Proof.
  intros Hh [_ Hl]. pose proof (estimated_metadata_bytes_run h Hh) as Hest.
  unfold header_in_range, in_range, U16_MAX, U32_MAX, U64_MAX in *.
  destruct Hh as (?&?&?&?&?&?&?&?&?&?&?). unfold validate_limits. rewrite Hest.
  eapply decides_iff.
  - do 5 (eapply decides_bind; [apply decides_ensure|intros _ _ _ _]).
    unfold try_from, TOC_ENTRY_FIXED_SIZE, TOC_CHUNK_FIXED_SIZE, U64_MAX. zdecide.
    cbn [ok_or mbind result_bind]. unfold checked_mul, checked_add. zdecide.
    cbn [ok_or mbind result_bind option_bind]. zdecide. cbn [ok_or mbind result_bind option_bind].
    zdecide. cbn [ok_or mbind result_bind option_bind].
    eapply (decides_bind _ _ True _ (fun m => m = minimal_toc h)).
    { unfold minimal_toc, stripped, TOC_ENTRY_FIXED_SIZE, TOC_CHUNK_FIXED_SIZE.
      destruct (_ =? 0); cbn [negb]; zdecide; cbn; lia. }
    intros m _ _ ->. eapply decides_bind; [apply decides_ensure|intros _ _ _ _].
    eapply (decides_bind _ _ (metadata_estimate h <= 18446744073709551615) _
      (fun m => m = metadata_estimate h)).
    { destruct (Z.leb_spec (metadata_estimate h) 18446744073709551615); cbn; lia. }
    intros e _ _ ->. eapply (decides_bind _ _ _ True _ (fun _ => True)); [apply decides_ensure|].
    intros _ _ _ _. by apply decides_ret.
  - fold (stripped h). rewrite orb_true_iff, !Z.leb_le. split.
    + intros (?&?&?&?&?&_&?&?&?&_). by constructor.
    + intros [? ? ? ? ? ? ?]. split_and!; try done. lia.
  - done.
Qed.

(** ** Properties *)

(** [clamped] gives the most permissive limits that are at most the
    caller's and at most the hard limits, within the fields' types; the two
    presets and clamped limits are left alone. *)
Theorem clamped_spec l :
  limits_in_range l ->
  limits_in_range (clamped l) /\ limits_le (clamped l) l /\ limits_le (clamped l) tooling_default /\
  (forall k, limits_le k l -> limits_le k tooling_default -> limits_le k (clamped l)) /\
  clamped (clamped l) = clamped l /\
  clamped default_limits = default_limits /\ clamped permissive_v1 = permissive_v1.
Proof.
  intros Hr. split_and!; [by apply clamped_range|apply clamped_le|apply clamped_le| | |reflexivity|reflexivity].
  - unfold limits_le. cbn. intros k (?&?&?&?&?&?&?&?&?&?) (?&?&?&?&?&?&?&?&?&?).
    repeat (split; [apply Z.min_glb; assumption|]); apply Z.min_glb; assumption.
  - unfold clamped. cbn. f_equal; rewrite <- Z.min_assoc; by rewrite Z.min_id.
Qed.

(** C30 [validate_limits] accepts exactly the headers within the caller's
    limits: sizes and counts, the smallest table of contents that could hold
    the counts, and the memory of the decoded metadata; it never panics or
    overflows. *)
Theorem validate_limits_spec h l :
  header_in_range h -> limits_in_range l ->
  (validate_limits h l = Ok tt <-> WithinLimits h l) /\ validate_limits h l <> Panic.
Proof.
  intros Hh Hl. pose proof (validate_limits_decides h l Hh ltac:(apply Hl)) as Hd.
  split; [by eapply decides_Ok_unit|by eapply decides_np].
Qed.

Lemma clamped_spec_witness : limits_le (clamped default_limits) tooling_default.
Proof. apply (clamped_spec default_limits). vm_compute. intuition congruence. Defined.

Lemma validate_limits_spec_witness : validate_limits example_header default_limits = Ok tt.
Proof.
  apply (validate_limits_spec example_header default_limits).
  - vm_compute. intuition congruence.
  - vm_compute. intuition congruence.
  - constructor; vm_compute; intuition congruence.
Defined.
