(* ===== verification/Crypto.v ===== *)
(** * Protection and compression of blocks

    [crypto/xor.rs] ([xor_in_place]), [crypto/aead.rs] ([derive_key],
    [chunk_aad], [encrypt], [decrypt]) and [compression/lz4.rs]
    ([decompress_block_exact], [decompress_into_exact]). *)
From S2P Require Export Format.

(** ** XOR *)

(** [a ^ b] on bytes. *)
Definition byte_xor (a b : byte) : byte := byte_of_Z (Z.lxor (byte_val a) (byte_val b)).

(** The loop over [data.iter_mut().enumerate()], from index [i] on. *)
Fixpoint xor_loop (key : bytes) (i : Z) (data : bytes) : Res bytes :=
  match data with
  | [] => Ok []
  | b :: data =>
      j ← rem_or_panic i (len key);
      k ← or_panic (index key j);
      rest ← xor_loop key (i + 1) data;
      mret (byte_xor b k :: rest)
  end.

Definition xor_in_place (data key : bytes) : Res bytes := xor_loop key 0 data.

(** ** Authenticated encryption *)

Definition AEAD_OVERHEAD : Z := 24 + 16.
Definition TOC_AAD : bytes := lit "RPAK-TOC-v1".
Definition KEY_CONTEXT : string := "rasen-archive XChaCha20-Poly1305 key v1".

(** [b"RPAK-CHN\0\0\0\0"] with the index in its last four bytes. *)
Definition chunk_aad (index : Z) : bytes := lit "RPAK-CHN" ++ to_le_bytes 4 index.

Section Crypto.
Context {C : Crates}.

Definition derive_key (key_material : bytes) : bytes :=
  blake3_derive_key KEY_CONTEXT key_material.

(** The state counts the nonces drawn. *)
Definition encrypt (plain key aad : bytes) : ST Error nat bytes :=
  n ← get;
  put (S n);;
  nonce_bytes ← lift (ok_or (getrandom_fill n) (Crypto "nonce generation failed"));
  ciphertext ← lift (ok_or (xchacha_encrypt key nonce_bytes aad plain)
                       (Crypto "encryption failed"));
  lift (try_reserve "encrypted block allocation" (len nonce_bytes + len ciphertext));;
  mret (nonce_bytes ++ ciphertext).

(** [data.split_at_checked(n)] *)
Definition split_at_checked (data : bytes) (n : Z) : option (bytes * bytes) :=
  if n <=? len data then Some (take (Z.to_nat n) data, drop (Z.to_nat n) data) else None.

Definition decrypt (stored key aad : bytes) : Res bytes :=
  '(nonce_bytes, ciphertext) ←
    ok_or (match split_at_checked stored 24 with
           | Some (nonce_bytes, ciphertext) =>
               if 16 <=? len ciphertext then Some (nonce_bytes, ciphertext) else None
           | None => None
           end) (Crypto "encrypted block is truncated");
  (if len nonce_bytes =? 24 then Ok tt else Panic);;
  ok_or (xchacha_decrypt key nonce_bytes aad ciphertext) (Crypto "authentication failed").

(** ** Decompression *)

(** The state is [output]. *)
Definition decompress_into_exact (data : bytes) (mismatch : string) : ST Error bytes unit :=
  decoded ← st_map_err Lz4 (lz4_decompress_into data);
  output ← get;
  if negb (decoded =? len output) then lift (Err (Corrupt mismatch)) else mret tt.

Definition decompress_block_exact (data : bytes) (original_len : Z) (mismatch : string) :
    Res bytes :=
  try_reserve "decompression output allocation" original_len;;
  let '(r, decoded) := decompress_into_exact data mismatch
                         (replicate (Z.to_nat original_len) x00) in
  r;; mret decoded.
End Crypto.

(** ** Lemmas: XOR *)

Lemma byte_xor_val a b : byte_val (byte_xor a b) = Z.lxor (byte_val a) (byte_val b).
Proof.
  unfold byte_xor. rewrite byte_val_of. apply Z.mod_small.
  pose proof (byte_val_range a). pose proof (byte_val_range b).
  assert (Hn : 0 <= Z.lxor (byte_val a) (byte_val b)) by (apply Z.lxor_nonneg; lia).
  split; [done|]. destruct (Z.eq_dec (Z.lxor (byte_val a) (byte_val b)) 0); [lia|].
  change 256 with (2 ^ 8). apply Z.log2_lt_pow2; [lia|].
  eapply Z.le_lt_trans; [apply Z.log2_lxor; lia|].
  assert (Hlog : forall c, 0 <= c < 256 -> Z.log2 c < 8).
  { intros c Hc. destruct (Z.eq_dec c 0) as [->|]; [by vm_compute|]. apply Z.log2_lt_pow2; lia. }
  apply Z.max_lub_lt; by apply Hlog.
Qed.

Lemma byte_xor_involutive a k : byte_xor (byte_xor a k) k = a.
Proof.
  apply byte_val_inj. rewrite !byte_xor_val.
  by rewrite Z.lxor_assoc, Z.lxor_nilpotent, Z.lxor_0_r.
Qed.

(** What the loop computes when the key is not empty. *)
Definition xored (key : bytes) (i : Z) (data : bytes) : bytes :=
  imap (fun j b => byte_xor b (key !!! Z.to_nat ((i + Z.of_nat j) mod len key))) data.

Lemma xored_cons key i b data :
  xored key i (b :: data) = byte_xor b (key !!! Z.to_nat (i mod len key)) :: xored key (i + 1) data.
Proof.
  unfold xored. cbn [imap]. rewrite Z.add_0_r. f_equal. apply imap_ext.
  intros j x _. cbn. do 4 f_equal. lia.
Qed.

Lemma key_index {E} (key : bytes) i :
  key <> [] -> 0 <= i ->
  (rem_or_panic i (len key) : Result E Z) = Ok (i mod len key) /\
  index key (i mod len key) = Some (key !!! Z.to_nat (i mod len key)).
Proof.
  intros Hk Hi. assert (0 < len key) by (destruct key; [done|]; rewrite len_cons;
    pose proof (len_nonneg key); lia).
  pose proof (Z.mod_pos_bound i (len key)).
  unfold rem_or_panic, index. zdecide. split; [done|].
  apply list_lookup_lookup_total_lt. unfold len in *. lia.
Qed.

Lemma xor_loop_run key i data :
  key <> [] -> 0 <= i -> xor_loop key i data = Ok (xored key i data).
Proof.
  intros Hk. revert i. induction data as [|b data IH]; intros i Hi; [done|].
  cbn [xor_loop]. destruct (key_index (E := Error) key i Hk Hi) as [Hr Hx].
  rewrite Hr. cbn [mbind result_bind]. rewrite Hx. cbn [mbind result_bind or_panic].
  rewrite IH by lia. by rewrite xored_cons.
Qed.

Lemma xor_in_place_run data key : key <> [] -> xor_in_place data key = Ok (xored key 0 data).
Proof. intros. by apply xor_loop_run. Qed.

Lemma length_xored key i data : length (xored key i data) = length data.
Proof. apply length_imap. Qed.

Lemma xored_involutive key i data : xored key i (xored key i data) = data.
Proof.
  apply list_eq. intros j. unfold xored. rewrite !list_lookup_imap.
  destruct (data !! j); [|done]. cbn. by rewrite byte_xor_involutive.
Qed.

(** ** Lemmas: authenticated encryption *)

Section CryptoLemmas.
Context {C : Crates}.

Lemma encrypt_Ok plain key aad n n' stored :
  encrypt plain key aad n = (Ok stored, n') ->
  n' = S n /\ exists nonce c, getrandom_fill n = Some nonce /\
    xchacha_encrypt key nonce aad plain = Some c /\ stored = nonce ++ c.
Proof.
  unfold encrypt, get, put, lift, mbind, st_bind, mret, st_ret, try_reserve.
  destruct (getrandom_fill n) as [nonce|]; cbn; [|done].
  destruct (xchacha_encrypt key nonce aad plain) as [c|] eqn:E; cbn; [|done].
  destruct (alloc_ok _ _); cbn; [|done]. intros [= <- <-]. split; [done|]. by exists nonce, c.
Qed.

Lemma encrypt_total plain key aad : st_total (encrypt plain key aad).
Proof. unfold encrypt, try_reserve. auto 20 with nopanic. Qed.

Lemma decrypt_app nonce c key aad :
  length nonce = 24%nat -> 16 <= len c ->
  decrypt (nonce ++ c) key aad = ok_or (xchacha_decrypt key nonce aad c) (Crypto "authentication failed").
Proof.
  intros Hn Hc. unfold decrypt, split_at_checked.
  change (Z.to_nat 24) with 24%nat. rewrite <- Hn, take_app_length, drop_app_length.
  rewrite len_app. assert (len nonce = 24) as Hl by (unfold len; lia). rewrite Hl.
  by zdecide; cbn; rewrite Hl.
Qed.

Lemma decrypt_cases stored key aad :
  (exists nonce c, stored = nonce ++ c /\ length nonce = 24%nat /\ 16 <= len c /\
     decrypt stored key aad = ok_or (xchacha_decrypt key nonce aad c) (Crypto "authentication failed"))
  \/ len stored < AEAD_OVERHEAD /\
     decrypt stored key aad = Err (Crypto "encrypted block is truncated").
Proof.
  unfold AEAD_OVERHEAD. destruct (Z.le_gt_cases 40 (len stored)) as [Hl|Hl]; [left|right].
  - exists (take 24 stored), (drop 24 stored).
    assert (Hn : length (take 24 stored) = 24%nat) by (rewrite length_take; unfold len in *; lia).
    assert (Hc : 16 <= len (drop 24 stored)) by (unfold len in *; rewrite length_drop; lia).
    split_and!; [by rewrite take_drop|done|done|].
    rewrite <- (take_drop 24 stored) at 1. by apply decrypt_app.
  - split; [lia|]. unfold decrypt, split_at_checked. change (Z.to_nat 24) with 24%nat.
    destruct (Z.leb_spec 24 (len stored)); [|done].
    assert (Hc : len (drop 24 stored) < 16) by (unfold len in *; rewrite length_drop; lia).
    by zdecide.
Qed.

Lemma decrypt_np stored key aad : decrypt stored key aad <> Panic.
Proof.
  destruct (decrypt_cases stored key aad) as [(?&?&_&_&_&->)|[_ ->]]; [|done].
  by destruct (xchacha_decrypt _ _ _ _).
Qed.

Lemma encrypt_decrypt `{!AeadSpec C} plain key aad n n' stored :
  encrypt plain key aad n = (Ok stored, n') ->
  decrypt stored key aad = Ok plain /\ len stored = len plain + AEAD_OVERHEAD.
Proof.
  intros (_ & nonce & c & Hn%nonce_length & He & ->)%encrypt_Ok.
  apply encrypt_length in He as Hl. apply decrypt_encrypt in He.
  rewrite decrypt_app, He by (unfold len; lia). split; [done|].
  unfold AEAD_OVERHEAD. rewrite len_app. unfold len. lia.
Qed.

(** ** Lemmas: decompression *)

Lemma decompress_into_exact_safe `{!DecompressSpec C} data mismatch out :
  ssafe (decompress_into_exact data mismatch) out
    (fun _ out' => length out' = length out) (fun out' => length out' = length out).
Proof.
  unfold decompress_into_exact. eapply ssafe_bind.
  { apply ssafe_map_err, decompress_in_place. }
  intros n out' _ [Hl _]. unfold ssafe, get, mbind, st_bind, lift, mret, st_ret.
  by destruct (negb _).
Qed.

Lemma decompress_into_exact_determined `{!DecompressSpec C} data mismatch out1 out2 :
  length out1 = length out2 ->
  (decompress_into_exact data mismatch out1).1 = (decompress_into_exact data mismatch out2).1 /\
  ((decompress_into_exact data mismatch out1).1 = Ok tt ->
   (decompress_into_exact data mismatch out1).2 = (decompress_into_exact data mismatch out2).2).
Proof.
  intros Hl. pose proof (decompress_in_place data out1) as H1.
  pose proof (decompress_in_place data out2) as H2.
  destruct (decompress_determined data out1 out2 Hl) as [Hr Hd]. revert Hr Hd H1 H2.
  unfold decompress_into_exact, st_map_err, get, mbind, st_bind, lift, ssafe, mret, st_ret.
  destruct (lz4_decompress_into data out1) as [[n|e|] o1], (lz4_decompress_into data out2) as [[m|f|] o2];
    cbn; try done; try (by intros [= ->]).
  intros [= <-] Hd [L1 N1] [L2 N2]. specialize (Hd n eq_refl).
  replace (len o2) with (len o1) by (unfold len; congruence).
  destruct (Z.eqb_spec n (len o1)) as [->|]; [|done]. cbn. split; [done|intros _].
  unfold len in Hd. rewrite Nat2Z.id in Hd. rewrite take_ge in Hd by done.
  rewrite Hd. apply take_ge. lia.
Qed.

Lemma decompress_block_exact_np `{!DecompressSpec C} data n mismatch :
  decompress_block_exact data n mismatch <> Panic.
Proof.
  unfold decompress_block_exact, try_reserve.
  pose proof (decompress_into_exact_safe data mismatch (replicate (Z.to_nat n) x00)) as H.
  unfold ssafe in H. destruct (alloc_ok _ _); cbn; [|done].
  destruct (decompress_into_exact _ _ _) as [[[]|e|] o]; done.
Qed.

Lemma decompress_block_exact_Ok `{!DecompressSpec C} data n mismatch plain :
  0 <= n -> decompress_block_exact data n mismatch = Ok plain -> len plain = n.
Proof.
  unfold decompress_block_exact, try_reserve. intros Hn.
  pose proof (decompress_into_exact_safe data mismatch (replicate (Z.to_nat n) x00)) as H.
  unfold ssafe in H. destruct (alloc_ok _ _); cbn; [|done].
  destruct (decompress_into_exact _ _ _) as [[[]|e|] o]; cbn; try done. intros [= <-].
  unfold len. rewrite H, length_replicate. lia.
Qed.

(** What [compress_into] stored into a large enough buffer decompresses. *)
Lemma decompress_compressed `{!CompressSpec C} data out n out' mismatch dst :
  get_maximum_output_size (len data) <= len out ->
  lz4_compress_into data out = (Ok n, out') -> length dst = length data ->
  decompress_into_exact (take (Z.to_nat n) out') mismatch dst = (Ok tt, data).
Proof.
  intros Hm Hc Hd. pose proof (compress_ok data out Hm) as Hs. unfold ssafe in Hs.
  rewrite Hc in Hs. destruct Hs as (_ & _ & Hs).
  unfold decompress_into_exact, st_map_err, get, mbind, st_bind. rewrite (Hs dst Hd). cbn.
  by rewrite Z.eqb_refl.
Qed.
End CryptoLemmas.

#[export] Hint Resolve encrypt_total decrypt_np : nopanic.

(** ** Properties *)

(** The repeating-key XOR with a non-empty key never panics, changes byte
    [i] by [key[i % key.len()]] only, and undoes itself. *)
Theorem xor_in_place_spec data key :
  key <> [] ->
  exists out, xor_in_place data key = Ok out /\ xor_in_place out key = Ok data /\
    length out = length data /\
    forall i b, data !! i = Some b ->
      exists k, key !! Nat.modulo i (length key) = Some k /\
        out !! i = Some (byte_of_Z (Z.lxor (byte_val b) (byte_val k))).
Proof.
  intros Hk. exists (xored key 0 data). rewrite !xor_in_place_run by done.
  rewrite xored_involutive, length_xored. split_and!; [done..|].
  intros i b Hb. assert (Hl : (0 < length key)%nat) by (destruct key; [done|cbn; lia]).
  exists (key !!! Nat.modulo i (length key)). split.
  - apply list_lookup_lookup_total_lt, Nat.mod_upper_bound. lia.
  - unfold xored. rewrite list_lookup_imap, Hb. cbn. do 4 f_equal.
    unfold len. by rewrite Z.add_0_l, <- Nat2Z.inj_mod, Nat2Z.id.
Qed.

(** C31 A block that [encrypt] produced decrypts to its plaintext under the
    same key and associated data, and is [AEAD_OVERHEAD] bytes longer; each
    call draws its own nonce. *)
Theorem decrypt_encrypt_block {C : Crates} `{!AeadSpec C} plain key aad n n' stored :
  encrypt plain key aad n = (Ok stored, n') ->
  decrypt stored key aad = Ok plain /\ len stored = len plain + AEAD_OVERHEAD /\ n' = S n.
Proof.
  intros He. destruct (encrypt_decrypt _ _ _ _ _ _ He) as [? ?].
  apply encrypt_Ok in He as [-> _]. done.
Qed.

(** The associated data separates the blocks of an archive: no two chunk
    indices share it, and none has the table of contents'. *)
Theorem chunk_aad_separates i j :
  is_u32 i -> is_u32 j -> chunk_aad i <> TOC_AAD /\ (chunk_aad i = chunk_aad j -> i = j).
Proof.
  unfold in_range, U32_MAX, chunk_aad. intros Hi Hj. split.
  - intros H%(f_equal length). rewrite length_app, length_to_le_bytes in H. done.
  - intros H%app_inv_head%(f_equal from_le_bytes).
    rewrite !from_to_le in H; [done|cbn; lia..].
Qed.

(** [decompress_block_exact] gives exactly the requested number of bytes
    or an error, and never panics, whatever the block. *)
Theorem decompress_block_exact_spec {C : Crates} `{!DecompressSpec C} data n mismatch :
  is_u64 n ->
  safe (decompress_block_exact data n mismatch) (fun plain => len plain = n).
Proof.
  intros [Hn _]. pose proof (decompress_block_exact_np data n mismatch) as Hp.
  destruct (decompress_block_exact data n mismatch) as [p| |] eqn:E; cbn; [|done..].
  by eapply decompress_block_exact_Ok.
Qed.

Lemma xor_in_place_spec_witness :
  exists out, xor_in_place (lit "asset") (lit "k3") = Ok out /\
    xor_in_place out (lit "k3") = Ok (lit "asset").
Proof.
  destruct (xor_in_place_spec (lit "asset") (lit "k3")) as (out & ? & ? & _); [done|].
  by exists out.
Defined.

Lemma decrypt_encrypt_block_witness :
  exists stored, decrypt (C := Toy.crates) stored (lit "key") TOC_AAD = Ok (lit "toc").
Proof.
  exists (default [] (match (encrypt (C := Toy.crates) (lit "toc") (lit "key") TOC_AAD 0%nat).1 with
                      | Ok s => Some s | _ => None end)).
  apply (decrypt_encrypt_block (C := Toy.crates) (lit "toc") (lit "key") TOC_AAD 0%nat 1%nat).
  vm_compute. reflexivity.
Defined.

Lemma chunk_aad_separates_witness : chunk_aad 3 <> TOC_AAD.
Proof. apply (chunk_aad_separates 3 4); unfold in_range, U32_MAX; lia. Defined.

Lemma decompress_block_exact_spec_witness :
  safe (decompress_block_exact (C := Toy.crates) (Toy.pack (lit "aaa")) 3 "mismatch")
    (fun plain => len plain = 3).
Proof. apply (decompress_block_exact_spec (C := Toy.crates)). unfold in_range, U64_MAX. lia. Defined.
