(* ===== verification/Utf8.v ===== *)
(** * UTF-8 ([std::str::from_utf8])

    The validity check of the standard library, by the table of well-formed
    byte sequences of the Unicode standard, and its behaviour on strings cut
    at ASCII bytes. *)
From S2P Require Export Prelude.

Definition between (lo hi : Z) (b : byte) : bool := (lo <=? byte_val b) && (byte_val b <=? hi).
Definition continuation : byte -> bool := between 128 191.

(** The range of the second byte after a lead byte of a three- or four-byte
    sequence. *)
Definition second_byte (b0 b1 : byte) : bool :=
  if byte_val b0 =? 224 then between 160 191 b1
  else if byte_val b0 =? 237 then between 128 159 b1
  else if byte_val b0 =? 240 then between 144 191 b1
  else if byte_val b0 =? 244 then between 128 143 b1
  else continuation b1.

Fixpoint utf8_valid (s : bytes) : bool :=
  match s with
  | [] => true
  | b0 :: s1 =>
      if between 0 127 b0 then utf8_valid s1
      else match s1 with
      | [] => false
      | b1 :: s2 =>
          if between 194 223 b0 then continuation b1 && utf8_valid s2
          else match s2 with
          | [] => false
          | b2 :: s3 =>
              if between 224 239 b0
              then second_byte b0 b1 && continuation b2 && utf8_valid s3
              else match s3 with
              | [] => false
              | b3 :: s4 =>
                  between 240 244 b0 && second_byte b0 b1 && continuation b2
                    && continuation b3 && utf8_valid s4
              end
          end
      end
  end.

(** [str::from_utf8(v)]: the same bytes as a string, or an error. *)
Definition from_utf8 (v : bytes) : option bytes := if utf8_valid v then Some v else None.

Definition is_ascii (b : byte) : bool := between 0 127 b.

Lemma ascii_not_continuation c : is_ascii c = true -> continuation c = false.
Proof. destruct c; vm_compute; congruence. Qed.

Lemma ascii_not_second b0 c : is_ascii c = true -> second_byte b0 c = false.
Proof.
  intros Hc. pose proof (ascii_not_continuation c Hc) as Hn.
  unfold second_byte, is_ascii, continuation, between in *.
  repeat case_match; lia.
Qed.

Lemma utf8_valid_split p c q :
  is_ascii c = true -> utf8_valid (p ++ c :: q) = utf8_valid p && utf8_valid q.
Proof.
  intros Hc. pose proof (ascii_not_continuation c Hc) as Hcc.
  induction p as [p IH] using (induction_ltof1 _ (@length byte)). unfold ltof in IH.
  destruct p as [|b0 p]; cbn [app utf8_valid].
  { fold (is_ascii c). by rewrite Hc. }
  destruct (between 0 127 b0); [apply IH; cbn; lia|].
  destruct p as [|b1 p]; cbn [app].
  { rewrite Hcc, ascii_not_second by done. cbn [andb].
    repeat (case_match; try done); by rewrite ?andb_false_r. }
  destruct (between 194 223 b0).
  { rewrite IH by (cbn; lia). by rewrite andb_assoc. }
  destruct p as [|b2 p]; cbn [app].
  { rewrite Hcc, !andb_false_r. cbn [andb]. repeat (case_match; try done). }
  destruct (between 224 239 b0).
  { rewrite IH by (cbn; lia). by rewrite andb_assoc. }
  destruct p as [|b3 p]; cbn [app].
  { by rewrite Hcc, !andb_false_r. }
  rewrite IH by (cbn; lia). by rewrite !andb_assoc.
Qed.

Example utf8_examples :
  utf8_valid [x63; x61; x66; xc3; xa9] = true /\ utf8_valid [xff] = false /\
  utf8_valid [xc0; x80] = false /\ utf8_valid [xed; xa0; x80] = false.
Proof. vm_compute. auto. Qed.
