(* ===== verification/Path.v ===== *)
(** * Archive paths ([rasen-archive/src/path.rs])

    [normalize_path], [hash_path] and [AssetId].  A path is split at both
    separators, empty and [.] segments are dropped, [..] is refused, and the
    rest is joined with [/]. *)
From S2P Require Export Format Utf8.

Definition MAX_PATH_SEGMENTS : Z := 1024.

Definition SLASH : byte := x2f.
Definition BACKSLASH : byte := x5c.
Definition DOT : byte := x2e.

Definition is_sep (b : byte) : bool := bool_decide (b = SLASH) || bool_decide (b = BACKSLASH).

(** [path.split(['/', '\\'])] *)
Fixpoint split_seps (p : bytes) : list bytes :=
  match p with
  | [] => [[]]
  | b :: p =>
      if is_sep b then [] :: split_seps p
      else match split_seps p with
           | part :: parts => (b :: part) :: parts
           | [] => [[b]]
           end
  end.

Definition starts_with_sep (p : bytes) : bool :=
  match p with b :: _ => is_sep b | [] => false end.

Section WithCrates.
Context {C : Crates}.

(** The loop over [path.split(..).enumerate()]. *)
Fixpoint normalize_parts (index : Z) (parts : list bytes) (normalized : bytes) : Res bytes :=
  match parts with
  | [] => Ok normalized
  | part :: parts =>
      ensure (index <? MAX_PATH_SEGMENTS) InvalidPath;;
      if bool_decide (part = []) || bool_decide (part = [DOT])
      then normalize_parts (index + 1) parts normalized
      else if bool_decide (part = [DOT; DOT])
      then Err InvalidPath
      else
        let normalized := if bool_decide (normalized = []) then normalized
                          else normalized ++ [SLASH] in
        normalize_parts (index + 1) parts (normalized ++ part)
  end.

Definition normalize_path (path : bytes) : Res bytes :=
  ensure ((len path <=? MAX_PATH_LEN) && negb (bool_decide (x00 ∈ path))) InvalidPath;;
  ensure (negb (starts_with_sep path)) InvalidPath;;
  try_reserve "normalized path allocation" (len path);;
  normalized ← normalize_parts 0 (split_seps path) [];
  ensure (negb (bool_decide (normalized = [])) && (len normalized <=? MAX_PATH_LEN)) InvalidPath;;
  mret normalized.

Definition normalize_lookup_path (path : bytes) : Res bytes := normalize_path path.

(** An [AssetId] is its [u64]. *)
Definition AssetId : Type := Z.

Definition hash_path (path : bytes) : Res Z :=
  normalized ← normalize_path path;
  mret (xxh3_64 normalized).

Definition from_path (path : bytes) : Res AssetId := hash_path path.

(** [crate::hash::checksum] *)
Definition checksum (data : bytes) : Z := xxh3_64 data.
End WithCrates.

(** ** Segments *)

Definition separator_free (s : bytes) : Prop := Forall (fun b => is_sep b = false) s.

(** A segment that normalization keeps. *)
Definition kept (s : bytes) : Prop := s <> [] /\ s <> [DOT].
#[export] Instance kept_dec s : Decision (kept s) := and_dec _ _.

Fixpoint join (parts : list bytes) : bytes :=
  match parts with
  | [] => []
  | [s] => s
  | s :: parts => s ++ SLASH :: join parts
  end.

Lemma join_cons s t ts : join (s :: t :: ts) = s ++ SLASH :: join (t :: ts).
Proof. done. Qed.

Lemma split_seps_free p : separator_free p -> split_seps p = [p].
Proof.
  induction 1 as [|b p Hb Hp IH]; [done|]. cbn. by rewrite Hb, IH.
Qed.

Lemma split_seps_app p s q :
  separator_free p -> is_sep s = true -> split_seps (p ++ s :: q) = p :: split_seps q.
Proof.
  intros Hp Hs. induction Hp as [|b p Hb Hp IH]; cbn; [by rewrite Hs|].
  by rewrite Hb, IH.
Qed.

(** Every path is separator-free, or a separator-free part, a separator and
    the rest. *)
Lemma path_ind (P : bytes -> Prop) :
  (forall p, separator_free p -> P p) ->
  (forall p s q, separator_free p -> is_sep s = true -> P q -> P (p ++ s :: q)) ->
  forall p, P p.
Proof.
  intros Hfree Hsep p. induction p as [p IH] using (induction_ltof1 _ (@length byte)).
  unfold ltof in IH.
  assert (Hdec : separator_free p \/ exists a s q,
    p = a ++ s :: q /\ separator_free a /\ is_sep s = true).
  { clear IH. induction p as [|b p [IHp|(a & s & q & -> & Ha & Hs)]].
    - left. constructor.
    - destruct (is_sep b) eqn:Hb; [right; exists [], b, p; repeat constructor; done|].
      left. by constructor.
    - destruct (is_sep b) eqn:Hb.
      + right. exists [], b, (a ++ s :: q). repeat constructor. done.
      + right. exists (b :: a), s, q. repeat constructor; done. }
  destruct Hdec as [Hp|(a & s & q & -> & Ha & Hs)]; [by apply Hfree|].
  apply Hsep; [done..|]. apply IH. rewrite length_app. cbn. lia.
Qed.

Lemma split_parts_free p : Forall separator_free (split_seps p).
Proof.
  induction p as [p Hp|p s q Hp Hs IH] using path_ind.
  - rewrite split_seps_free by done. by repeat constructor.
  - rewrite split_seps_app by done. by constructor.
Qed.

Lemma split_seps_nonempty p : split_seps p <> [].
Proof.
  induction p as [p Hp|p s q Hp Hs IH] using path_ind.
  - by rewrite split_seps_free.
  - by rewrite split_seps_app.
Qed.

Lemma split_join parts :
  parts <> [] -> Forall separator_free parts -> split_seps (join parts) = parts.
Proof.
  intros Hne Hf. induction Hf as [|s parts Hs Hf IH]; [done|].
  destruct parts as [|t ts]; [by apply split_seps_free|].
  rewrite join_cons, split_seps_app by done. by rewrite IH.
Qed.

(** The length of a path, by its segments. *)
Fixpoint total (parts : list bytes) : Z :=
  match parts with
  | [] => 0
  | s :: parts => len s + 1 + total parts
  end.

Lemma total_split p : total (split_seps p) = len p + 1.
Proof.
  induction p as [p Hp|p s q Hp Hs IH] using path_ind.
  - rewrite split_seps_free by done. cbn [total]. lia.
  - rewrite split_seps_app by done. cbn [total].
    rewrite IH, len_app, len_cons. lia.
Qed.

Lemma total_filter parts : total (filter kept parts) <= total parts.
Proof.
  induction parts as [|s parts IH]; [done|]. rewrite filter_cons. pose proof (len_nonneg s).
  case_decide; cbn [total]; lia.
Qed.

Lemma total_join parts : parts <> [] -> len (join parts) + 1 = total parts.
Proof.
  induction parts as [|s [|t ts] IH]; intros Hne; [done|cbn [join total]; lia|].
  rewrite join_cons, len_app, len_cons. cbn [total]. specialize (IH ltac:(done)).
  cbn [total] in IH. lia.
Qed.

Lemma elem_of_join b parts : b ∈ join parts -> b = SLASH \/ exists s, s ∈ parts /\ b ∈ s.
Proof.
  induction parts as [|s [|t ts] IH]; intros Hb.
  - by apply not_elem_of_nil in Hb.
  - right. exists s. split; [by left|done].
  - rewrite join_cons, elem_of_app, elem_of_cons in Hb.
    destruct Hb as [Hb|[Hb|Hb]]; [right; exists s; split; [by left|done]|by left|].
    destruct (IH Hb) as [?|(u & Hu & ?)]; [by left|].
    right. exists u. split; [by right|done].
Qed.

Lemma elem_of_split b p : (exists s, s ∈ split_seps p /\ b ∈ s) -> b ∈ p.
Proof.
  induction p as [p Hp|p s q Hp Hs IH] using path_ind; intros (u & Hu & Hb).
  - rewrite split_seps_free, list_elem_of_singleton in Hu by done. by subst.
  - rewrite split_seps_app, elem_of_cons in Hu by done. rewrite elem_of_app, elem_of_cons.
    destruct Hu as [->|Hu]; [by left|]. right; right. apply IH. eauto.
Qed.

Lemma join_snoc ks s : ks <> [] -> join (ks ++ [s]) = join ks ++ SLASH :: s.
Proof.
  induction ks as [|k [|k' ks] IH]; intros Hne; [done|done|].
  cbn [app]. rewrite !join_cons. cbn [app] in IH. rewrite IH by done. by rewrite <- app_assoc.
Qed.

Lemma join_nil_iff ks : Forall kept ks -> join ks = [] <-> ks = [].
Proof.
  intros Hk. split; [|by intros ->]. destruct Hk as [|s [|t ts] Hs Hk]; [done| |].
  - intros H. by destruct Hs.
  - rewrite join_cons. by destruct s.
Qed.

Lemma join_free_of b parts :
  Forall separator_free parts -> b ∈ join parts -> is_sep b = true -> b = SLASH.
Proof.
  intros Hf [?|(s & Hs & Hb)]%elem_of_join Hsep; [done|].
  rewrite Forall_forall in Hf. specialize (Hf s Hs).
  unfold separator_free in Hf. rewrite Forall_forall in Hf. specialize (Hf b Hb). congruence.
Qed.

(** UTF-8 and segments: the separators are ASCII. *)
Lemma is_sep_ascii b : is_sep b = true -> is_ascii b = true.
Proof. destruct b; vm_compute; congruence. Qed.

Lemma utf8_split p : utf8_valid p = forallb utf8_valid (split_seps p).
Proof.
  induction p as [p Hp|p s q Hp Hs IH] using path_ind.
  - rewrite split_seps_free by done. cbn. by rewrite andb_true_r.
  - rewrite split_seps_app by done. cbn [forallb]. rewrite <- IH.
    apply utf8_valid_split. by apply is_sep_ascii.
Qed.

Lemma utf8_join parts : forallb utf8_valid parts = true -> utf8_valid (join parts) = true.
Proof.
  induction parts as [|s [|t ts] IH]; intros H; [done|cbn in *; by rewrite andb_true_r in H|].
  cbn [forallb] in H. apply andb_true_iff in H as [Hs H].
  rewrite join_cons, utf8_valid_split by done. by rewrite Hs, IH.
Qed.

(** ** What [normalize_path] computes *)

(** The checks on the whole path, and those on its segments. *)
Definition path_shape (p : bytes) : Prop :=
  len p <= MAX_PATH_LEN /\ (x00 ∉ p) /\ starts_with_sep p = false.
Definition segments_ok (parts : list bytes) : Prop :=
  len parts <= MAX_PATH_SEGMENTS /\ ([DOT; DOT] ∉ parts) /\ filter kept parts <> [].

#[export] Instance path_shape_dec p : Decision (path_shape p) := and_dec _ _.
#[export] Instance segments_ok_dec ps : Decision (segments_ok ps) := and_dec _ _.

(** The paths that are their own normal form. *)
Definition NormalPath (q : bytes) : Prop :=
  len q <= MAX_PATH_LEN /\ (x00 ∉ q) /\ (BACKSLASH ∉ q) /\
  len (split_seps q) <= MAX_PATH_SEGMENTS /\
  Forall (fun s => kept s /\ s <> [DOT; DOT]) (split_seps q).

Section Normalize.
Context {C : Crates}.

Lemma normalize_parts_value i parts ks :
  0 <= i <= MAX_PATH_SEGMENTS -> Forall kept ks ->
  normalize_parts i parts (join ks) =
    if decide (i + len parts <= MAX_PATH_SEGMENTS /\ ([DOT; DOT] ∉ parts))
    then Ok (join (ks ++ filter kept parts)) else Err InvalidPath.
Proof.
  revert i ks. induction parts as [|s parts IH]; intros i ks Hi Hk.
  { cbn. rewrite app_nil_r, decide_True; [done|]. split; [rewrite len_nil; lia|].
    apply not_elem_of_nil. }
  cbn [normalize_parts]. rewrite len_cons. pose proof (len_nonneg parts).
  destruct (Z.ltb_spec i MAX_PATH_SEGMENTS) as [Hlt|Hge]; cbn [ensure mbind result_bind].
  2:{ rewrite decide_False; [done|]. lia. }
  rewrite filter_cons.
  destruct (bool_decide (s = []) || bool_decide (s = [DOT])) eqn:Hskip.
  - assert (Hnk : ~ kept s).
    { intros [??]. apply orb_true_iff in Hskip as [Hs|Hs]; by apply bool_decide_eq_true in Hs. }
    rewrite (decide_False (P := kept s)) by done. rewrite IH by (done || lia).
    apply decide_ext. rewrite not_elem_of_cons. split; [|intros (? & ? & ?); split; [lia|done]].
    intros [? ?]. split_and!; [lia| |done]. intros <-. by vm_compute in Hskip.
  - apply orb_false_iff in Hskip as [Hs1 Hs2].
    apply bool_decide_eq_false in Hs1, Hs2. rewrite (decide_True (P := kept s)) by done.
    case_bool_decide as Hdd.
    { rewrite decide_False; [done|]. subst s. intros [_ Hn]. apply Hn. by left. }
    assert (Hj : (if bool_decide (join ks = []) then join ks else join ks ++ [SLASH]) ++ s
                 = join (ks ++ [s])).
    { case_bool_decide as Hnil.
      - apply join_nil_iff in Hnil as ->; done.
      - rewrite join_snoc; [by rewrite <- app_assoc|]. by intros ->. }
    rewrite Hj, IH by (try lia; apply Forall_app; by repeat constructor).
    rewrite <- app_assoc. cbn [app].
    apply decide_ext. rewrite not_elem_of_cons. split; [|intros (? & ? & ?); split; [lia|done]].
    intros [? ?]. split_and!; [lia| |done]. by intros <-.
Qed.

Lemma len_join_kept p :
  filter kept (split_seps p) <> [] -> len (join (filter kept (split_seps p))) <= len p.
Proof.
  intros Hne. pose proof (total_join _ Hne). pose proof (total_filter (split_seps p)).
  pose proof (total_split p). lia.
Qed.

Lemma filter_kept_all parts : Forall kept (filter kept parts).
Proof. apply Forall_forall. intros s Hs. by apply list_elem_of_filter in Hs as [? _]. Qed.

Lemma filter_free p : Forall separator_free (filter kept (split_seps p)).
Proof.
  apply Forall_forall. intros s [_ Hs]%list_elem_of_filter.
  pose proof (split_parts_free p) as Hf. rewrite Forall_forall in Hf. by apply Hf.
Qed.

Lemma normalize_value p :
  normalize_path p =
    if decide (path_shape p) then
      if alloc_ok "normalized path allocation" (len p) then
        if decide (segments_ok (split_seps p))
        then Ok (join (filter kept (split_seps p)))
        else Err InvalidPath
      else Err (TooLarge "normalized path allocation")
    else Err InvalidPath.
Proof.
  unfold normalize_path.
  destruct (Z.leb_spec (len p) MAX_PATH_LEN) as [Hlen|Hlen]; cbn [andb].
  2:{ rewrite decide_False; [done|]. unfold path_shape. lia. }
  case_bool_decide as H0; cbn [negb ensure mbind result_bind].
  { rewrite decide_False; [done|]. unfold path_shape. naive_solver. }
  destruct (starts_with_sep p) eqn:Hs; cbn [negb ensure mbind result_bind].
  { rewrite decide_False; [done|]. unfold path_shape. naive_solver congruence. }
  rewrite (decide_True (P := path_shape p)) by done.
  unfold try_reserve. destruct (alloc_ok _ _); [|done]. cbn [ensure mbind result_bind].
  assert (H1024 : 0 <= 0 <= MAX_PATH_SEGMENTS) by (unfold MAX_PATH_SEGMENTS; lia).
  pose proof (normalize_parts_value 0 (split_seps p) [] H1024 ltac:(constructor)) as Hv.
  cbn [app join] in Hv. rewrite Hv. unfold segments_ok.
  destruct (decide (0 + len (split_seps p) <= MAX_PATH_SEGMENTS /\ _)) as [[H1 H2]|Hn]; cbn [mbind result_bind].
  - rewrite Z.add_0_l in H1. pose proof (join_nil_iff _ (filter_kept_all (split_seps p))) as Hj.
    case_bool_decide as Hnil; cbn [negb andb].
    + rewrite decide_False; [done|]. naive_solver.
    + assert (filter kept (split_seps p) <> []) by naive_solver.
      pose proof (len_join_kept p ltac:(done)).
      destruct (Z.leb_spec (len (join (filter kept (split_seps p)))) MAX_PATH_LEN); [|lia].
      by rewrite decide_True.
  - rewrite decide_False; [done|]. rewrite Z.add_0_l in Hn. naive_solver.
Qed.

Lemma normal_kept q : NormalPath q -> filter kept (split_seps q) = split_seps q.
Proof.
  intros (_&_&_&_&Hf). induction Hf as [|s parts [Hs _] Hf IH]; [done|].
  by rewrite filter_cons, decide_True, IH.
Qed.

Lemma no_backslash_join_split q : BACKSLASH ∉ q -> join (split_seps q) = q.
Proof.
  induction q as [p Hp|p s q Hp Hs IH] using path_ind; intros Hb.
  - by rewrite split_seps_free.
  - rewrite split_seps_app by done. rewrite elem_of_app, elem_of_cons in Hb.
    destruct (split_seps q) as [|t ts] eqn:E; [by apply split_seps_nonempty in E|].
    rewrite join_cons, IH by naive_solver. f_equal. f_equal.
    unfold is_sep in Hs. apply orb_true_iff in Hs as [Hs|Hs]; apply bool_decide_eq_true in Hs; naive_solver.
Qed.

Lemma normalize_normal p q : normalize_path p = Ok q -> NormalPath q.
Proof.
  rewrite normalize_value. destruct (decide (path_shape p)) as [(Hlen & H0 & Hst)|]; [|done].
  destruct (alloc_ok _ _); [|done].
  destruct (decide (segments_ok _)) as [(Hseg & Hdd & Hne)|]; [|done]. intros [= <-].
  pose proof (len_join_kept p Hne). unfold NormalPath.
  rewrite split_join by (done || apply filter_free). split_and!.
  - lia.
  - intros [?|(s & [_ Hs]%list_elem_of_filter & ?)]%elem_of_join; [done|].
    apply H0, elem_of_split. eauto.
  - intros Hb. pose proof (join_free_of _ _ (filter_free p) Hb ltac:(done)). done.
  - unfold len in *. pose proof (length_filter kept (split_seps p)). lia.
  - apply Forall_forall. intros s [Hk Hs]%list_elem_of_filter. split; [done|]. congruence.
Qed.

Lemma normal_normalize q :
  alloc_ok "normalized path allocation" (len q) = true -> NormalPath q -> normalize_path q = Ok q.
Proof.
  intros Ha Hq. rewrite normalize_value. pose proof (normal_kept q Hq) as Hk.
  destruct Hq as (Hlen & H0 & Hb & Hseg & Hf).
  assert (Hst : starts_with_sep q = false).
  { destruct q as [|b q]; [done|]. cbn. destruct (is_sep b) eqn:E; [|done]. exfalso.
    cbn in Hf. rewrite E in Hf. apply Forall_inv in Hf as [[? _] _]. done. }
  rewrite decide_True by done. rewrite Ha, decide_True, Hk; [by rewrite no_backslash_join_split|].
  split_and!; [done| |rewrite Hk; apply split_seps_nonempty].
  intros Hin. rewrite Forall_forall in Hf. by apply Hf in Hin as [_ ?].
Qed.

(** Normalization does not lengthen a path. *)
Lemma normalize_len p q : normalize_path p = Ok q -> len q <= len p.
Proof.
  rewrite normalize_value. repeat case_match; try done. intros [= <-].
  destruct (decide (filter kept (split_seps p) = [])) as [->|]; [apply len_nonneg|by apply len_join_kept].
Qed.

Lemma normalize_utf8 p q :
  utf8_valid p = true -> normalize_path p = Ok q -> utf8_valid q = true.
Proof.
  rewrite utf8_split, forallb_forall. intros Hp. rewrite normalize_value.
  destruct (decide _); [|done]. destruct (alloc_ok _ _); [|done]. destruct (decide _); [|done].
  intros [= <-]. apply utf8_join, forallb_forall. intros part Hs.
  apply Hp, list_elem_of_In. apply list_elem_of_In, list_elem_of_filter in Hs. tauto.
Qed.
End Normalize.

(** ** Properties *)

Section Properties.
Context {C : Crates}.

(** C27 [normalize_path] accepts a path exactly when it is short enough, has no
    NUL and no leading separator, has at most 1024 segments, no [..] and some
    segment besides [.]; the result joins these segments with [/].  It never
    panics, and a refusal is [InvalidPath] (or a failed allocation). *)
Theorem normalize_path_spec p :
  (forall q, normalize_path p = Ok q <->
     path_shape p /\ alloc_ok "normalized path allocation" (len p) = true /\
     segments_ok (split_seps p) /\ q = join (filter kept (split_seps p))) /\
  (forall e, normalize_path p = Err e ->
     e = InvalidPath \/
     e = TooLarge "normalized path allocation" /\
       alloc_ok "normalized path allocation" (len p) = false) /\
  normalize_path p <> Panic.
Proof.
  rewrite normalize_value.
  repeat (case_decide || case_match); naive_solver congruence.
Qed.

(** The result of [normalize_path] is in normal form (relative, no empty,
    [.] or [..] segment, no backslash, no NUL, within the length and segment
    limits), and normalizing it again changes nothing. *)
Theorem normalize_path_idempotent p q :
  normalize_path p = Ok q ->
  NormalPath q /\
  (alloc_ok "normalized path allocation" (len q) = true -> normalize_path q = Ok q).
Proof.
  intros Hq%normalize_normal. split; [done|]. intros Ha. by apply normal_normalize.
Qed.

(** [normalize_path] of valid UTF-8 is valid UTF-8: cutting at the two
    separators never splits a character. *)
Theorem normalize_path_utf8 p q :
  utf8_valid p = true -> normalize_path p = Ok q -> utf8_valid q = true.
Proof. apply normalize_utf8. Qed.
End Properties.

Lemma normalize_path_idempotent_witness :
  NormalPath (lit "a/b") /\
  (true = true -> normalize_path (C := Toy.crates) (lit "a/b") = Ok (lit "a/b")).
Proof.
  apply (normalize_path_idempotent (C := Toy.crates) (lit "./a\b//.")).
  vm_compute. reflexivity.
Defined.

Lemma normalize_path_utf8_witness : utf8_valid (lit "a" ++ [SLASH; xc3; xa9]) = true.
Proof.
  apply (normalize_path_utf8 (C := Toy.crates) (lit "a\" ++ [xc3; xa9])); vm_compute; reflexivity.
Defined.
