(* ===== verification/Toc.v ===== *)
(** * The table of contents ([format/model.rs], [format/toc.rs])

    [encode_toc] and [decode_toc], the serialized entries and chunk records. *)
From S2P Require Export Path.

Record TocEntry := {
  te_path : bytes;
  te_path_hash : Z;
  te_original_size : Z;
  te_stored_size : Z;
  te_first_chunk : Z;
  te_chunk_count : Z
}.

Record Chunk := {
  c_offset : Z;
  c_stored_size : Z;
  c_original_size : Z;
  c_checksum : Z;
  c_compressed : bool
}.

Section Toc.
Context {C : Crates}.

(** ** [encode_toc] *)

(** The first loop: the size of the encoded entries. *)
Fixpoint entries_size (entries : list TocEntry) (size : Z) : Res Z :=
  match entries with
  | [] => Ok size
  | entry :: entries =>
      ensure (len (te_path entry) <=? MAX_PATH_LEN) (TooLarge "path");;
      size ← ok_or (checked_add USIZE_MAX size TOC_ENTRY_FIXED_SIZE ≫= fun value =>
                    checked_add USIZE_MAX value (len (te_path entry))) (TooLarge "raw TOC");
      entries_size entries size
  end.

Definition encode_entry (entry : TocEntry) : Res bytes :=
  path_len ← ok_or (try_from U16_MAX (len (te_path entry))) (TooLarge "path");
  mret (to_le_bytes 8 (te_path_hash entry) ++ to_le_bytes 8 (te_original_size entry)
        ++ to_le_bytes 8 (te_stored_size entry) ++ to_le_bytes 4 (te_first_chunk entry)
        ++ to_le_bytes 4 (te_chunk_count entry) ++ to_le_bytes 2 path_len
        ++ to_le_bytes 2 0 ++ te_path entry).

Fixpoint encode_entries (entries : list TocEntry) (out : bytes) : Res bytes :=
  match entries with
  | [] => Ok out
  | entry :: entries =>
      record ← encode_entry entry;
      encode_entries entries (out ++ record)
  end.

Definition encode_chunk (chunk : Chunk) : bytes :=
  let flags := if c_compressed chunk then CHUNK_FLAG_LZ4 else 0 in
  to_le_bytes 8 (c_offset chunk) ++ to_le_bytes 8 (c_stored_size chunk)
  ++ to_le_bytes 8 (c_original_size chunk) ++ to_le_bytes 8 (c_checksum chunk)
  ++ to_le_bytes 2 flags ++ to_le_bytes 2 0.

Fixpoint encode_chunks (chunks : list Chunk) (out : bytes) : bytes :=
  match chunks with
  | [] => out
  | chunk :: chunks => encode_chunks chunks (out ++ encode_chunk chunk)
  end.

Definition encode_toc (entries : list TocEntry) (chunks : list Chunk) : Res bytes :=
  size ← entries_size entries 4;
  chunk_bytes ← ok_or (checked_mul USIZE_MAX (len chunks) TOC_CHUNK_FIXED_SIZE) (TooLarge "raw TOC");
  size ← ok_or (checked_add USIZE_MAX size chunk_bytes) (TooLarge "raw TOC");
  size64 ← ok_or (try_from U64_MAX size) (TooLarge "raw TOC");
  ensure (size64 <=? MAX_TOC_RAW_SIZE) (TooLarge "raw TOC");;
  try_reserve "raw TOC allocation" size;;
  out ← encode_entries entries TOC_MAGIC;
  mret (encode_chunks chunks out).

(** ** [decode_toc] *)

(** The path of an entry, by the archive's mode and the encoded length. *)
Definition decode_path (paths_stripped : bool) (path_bytes : bytes) (path_hash : Z) : Res bytes :=
  match paths_stripped, len path_bytes =? 0 with
  | true, true => Ok []
  | true, false => Err (Corrupt "production TOC contains an entry path")
  | false, true => Err (Corrupt "debug TOC contains an empty entry path")
  | false, false =>
      path ← ok_or (from_utf8 path_bytes) (Corrupt "entry path is not UTF-8");
      path ← normalize_path path;
      ensure (checksum path =? path_hash) (Corrupt "entry path hash mismatch");;
      mret path
  end.

(** The body of the loop over entries; the running total of path bytes is
    threaded through. *)
Definition decode_entry (paths_stripped : bool)
    (max_path_bytes max_total_path_bytes max_single_asset_bytes total_path_bytes : Z) :
    ST Error Cursor.Cursor (TocEntry * Z) :=
  path_hash ← Cursor.u64;
  original_size ← Cursor.u64;
  stored_size ← Cursor.u64;
  first_chunk ← Cursor.u32;
  chunk_count ← Cursor.u32;
  path_len ← Cursor.u16;
  reserved ← Cursor.u16;
  lift (ensure (original_size <=? max_single_asset_bytes) AssetTooLarge);;
  lift (ensure (reserved =? 0) (Corrupt "non-zero entry reserved field"));;
  lift (ensure (path_len <=? max_path_bytes) (TooLarge "path length limit"));;
  path_len64 ← lift (ok_or (try_from U64_MAX path_len) (TooLarge "path length"));
  total_path_bytes ← lift (ok_or (checked_add U64_MAX total_path_bytes path_len64)
                             (TooLarge "total path bytes"));
  lift (ensure (total_path_bytes <=? max_total_path_bytes) MetadataLimitExceeded);;
  path_bytes ← Cursor.take path_len;
  path ← lift (decode_path paths_stripped path_bytes path_hash);
  mret ({| te_path := path; te_path_hash := path_hash; te_original_size := original_size;
           te_stored_size := stored_size; te_first_chunk := first_chunk;
           te_chunk_count := chunk_count |}, total_path_bytes).

Fixpoint decode_entries (count : nat) (paths_stripped : bool)
    (max_path_bytes max_total_path_bytes max_single_asset_bytes total_path_bytes : Z) :
    ST Error Cursor.Cursor (list TocEntry) :=
  match count with
  | O => mret []
  | S count =>
      '(entry, total_path_bytes) ← decode_entry paths_stripped max_path_bytes
         max_total_path_bytes max_single_asset_bytes total_path_bytes;
      entries ← decode_entries count paths_stripped max_path_bytes max_total_path_bytes
         max_single_asset_bytes total_path_bytes;
      mret (entry :: entries)
  end.

Definition decode_chunk : ST Error Cursor.Cursor Chunk :=
  offset ← Cursor.u64;
  stored_size ← Cursor.u64;
  original_size ← Cursor.u64;
  checksum ← Cursor.u64;
  flags ← Cursor.u16;
  reserved ← Cursor.u16;
  lift (ensure (Z.land flags (bit_not U16_MAX CHUNK_FLAG_LZ4) =? 0) (Corrupt "unknown chunk flags"));;
  lift (ensure (reserved =? 0) (Corrupt "non-zero chunk reserved field"));;
  mret {| c_offset := offset; c_stored_size := stored_size; c_original_size := original_size;
          c_checksum := checksum; c_compressed := negb (Z.land flags CHUNK_FLAG_LZ4 =? 0) |}.

Fixpoint decode_chunks (count : nat) : ST Error Cursor.Cursor (list Chunk) :=
  match count with
  | O => mret []
  | S count =>
      chunk ← decode_chunk;
      chunks ← decode_chunks count;
      mret (chunk :: chunks)
  end.

(** The part of [decode_toc] that reads from the cursor. *)
Definition decode_toc_from (entry_count chunk_count : Z) (paths_stripped : bool)
    (max_path_bytes max_total_path_bytes max_single_asset_bytes : Z) :
    ST Error Cursor.Cursor (list TocEntry * list Chunk) :=
  magic ← Cursor.take 4;
  lift (ensure (bool_decide (magic = TOC_MAGIC)) BadTocMagic);;
  entries_count ← lift (ok_or (try_from USIZE_MAX entry_count) (TooLarge "entry count"));
  chunks_count ← lift (ok_or (try_from USIZE_MAX chunk_count) (TooLarge "chunk count"));
  min_bytes ← lift (ok_or
    (checked_mul USIZE_MAX entries_count TOC_ENTRY_FIXED_SIZE ≫= fun v =>
     checked_mul USIZE_MAX chunks_count TOC_CHUNK_FIXED_SIZE ≫= fun c =>
     checked_add USIZE_MAX v c ≫= fun v =>
     checked_add USIZE_MAX v 4) (TooLarge "TOC record counts"));
  cursor ← get;
  lift (ensure (min_bytes <=? len (Cursor.data cursor)) (Corrupt "TOC counts exceed TOC size"));;
  lift (try_reserve "entry allocation" entries_count);;
  entries ← decode_entries (Z.to_nat entries_count) paths_stripped max_path_bytes
              max_total_path_bytes max_single_asset_bytes 0;
  lift (try_reserve "chunk allocation" chunks_count);;
  chunks ← decode_chunks (Z.to_nat chunks_count);
  cursor ← get;
  lift (ensure (Cursor.is_empty cursor) (Corrupt "trailing bytes in TOC"));;
  mret (entries, chunks).

Definition decode_toc (data : bytes) (entry_count chunk_count : Z) (paths_stripped : bool)
    (max_path_bytes max_total_path_bytes max_single_asset_bytes : Z) :
    Res (list TocEntry * list Chunk) :=
  (decode_toc_from entry_count chunk_count paths_stripped max_path_bytes max_total_path_bytes
     max_single_asset_bytes (Cursor.new data)).1.
End Toc.

(** ** The encoded form *)

Definition entry_bytes (e : TocEntry) : bytes :=
  to_le_bytes 8 (te_path_hash e) ++ to_le_bytes 8 (te_original_size e)
  ++ to_le_bytes 8 (te_stored_size e) ++ to_le_bytes 4 (te_first_chunk e)
  ++ to_le_bytes 4 (te_chunk_count e) ++ to_le_bytes 2 (len (te_path e))
  ++ to_le_bytes 2 0 ++ te_path e.

Definition toc_bytes (entries : list TocEntry) (chunks : list Chunk) : bytes :=
  TOC_MAGIC ++ concat (entry_bytes <$> entries) ++ concat (encode_chunk <$> chunks).

Fixpoint sum_over {A} (f : A -> Z) (l : list A) : Z :=
  match l with
  | [] => 0
  | x :: l => f x + sum_over f l
  end.
Abbreviation path_bytes_total := (sum_over (fun e => len (te_path e))).

Lemma sum_over_app {A} (f : A -> Z) l k : sum_over f (l ++ k) = sum_over f l + sum_over f k.
Proof.
  induction l as [|x l IH]; cbn [app sum_over]; [lia|]. rewrite IH. lia.
Qed.

Lemma sum_over_fmap {A B} (f : B -> Z) (g : A -> B) l : sum_over f (g <$> l) = sum_over (fun x => f (g x)) l.
Proof. induction l as [|x l IH]; cbn; [done|]. by rewrite IH. Qed.

Lemma sum_over_nonneg {A} (f : A -> Z) l : (forall x, 0 <= f x) -> 0 <= sum_over f l.
Proof. intros Hf. induction l as [|x l IH]; cbn; [lia|]. specialize (Hf x). lia. Qed.

Definition entry_in_range (e : TocEntry) : Prop :=
  is_u64 (te_path_hash e) /\ is_u64 (te_original_size e) /\ is_u64 (te_stored_size e) /\
  is_u32 (te_first_chunk e) /\ is_u32 (te_chunk_count e).

Definition chunk_in_range (c : Chunk) : Prop :=
  is_u64 (c_offset c) /\ is_u64 (c_stored_size c) /\ is_u64 (c_original_size c) /\
  is_u64 (c_checksum c).

Lemma len_entry_bytes e : len (entry_bytes e) = TOC_ENTRY_FIXED_SIZE + len (te_path e).
Proof. unfold entry_bytes. rewrite !len_app, !len_to_le_bytes. unfold TOC_ENTRY_FIXED_SIZE. lia. Qed.

Lemma len_encode_chunk c : len (encode_chunk c) = TOC_CHUNK_FIXED_SIZE.
Proof. unfold encode_chunk. rewrite !len_app, !len_to_le_bytes. reflexivity. Qed.

Lemma len_entries_bytes es :
  len (concat (entry_bytes <$> es)) = TOC_ENTRY_FIXED_SIZE * len es + path_bytes_total es.
Proof.
  induction es as [|e es IH]; [reflexivity|]. cbn [fmap list_fmap concat sum_over].
 
  rewrite len_app, len_cons, len_entry_bytes, IH. lia.
Qed.

Lemma len_chunks_bytes cs :
  len (concat (encode_chunk <$> cs)) = TOC_CHUNK_FIXED_SIZE * len cs.
Proof.
  induction cs as [|c cs IH]; [reflexivity|]. cbn [fmap list_fmap concat].
  rewrite len_app, len_cons, len_encode_chunk, IH. lia.
Qed.

Lemma len_toc_bytes es cs :
  len (toc_bytes es cs) =
    4 + TOC_ENTRY_FIXED_SIZE * len es + path_bytes_total es + TOC_CHUNK_FIXED_SIZE * len cs.
Proof.
  unfold toc_bytes. rewrite !len_app, len_entries_bytes, len_chunks_bytes.
  change (len TOC_MAGIC) with 4. lia.
Qed.

Section Encode.
Context {C : Crates}.

Lemma entries_size_Ok es size n :
  entries_size es size = Ok n ->
  n = size + TOC_ENTRY_FIXED_SIZE * len es + path_bytes_total es /\
  Forall (fun e => len (te_path e) <= MAX_PATH_LEN) es.
Proof.
  revert size. induction es as [|e es IH]; intros size.
  - cbn. intros [= <-]. split; [unfold len; cbn; lia|constructor].
  - cbn [entries_size sum_over]. intros H.
    inv_ok. destruct (checked_add _ size _) as [v|] eqn:E1; [|done]. cbn in Hx0. inv_ok.
    apply IH in H as [-> Hf]. rewrite len_cons. split; [lia|]. constructor; done.
Qed.

Lemma encode_entry_Ok e r : encode_entry e = Ok r -> r = entry_bytes e.
Proof. unfold encode_entry. intros H. inv_ok. done. Qed.

Lemma encode_entries_Ok es out r :
  encode_entries es out = Ok r -> r = out ++ concat (entry_bytes <$> es).
Proof.
  revert out. induction es as [|e es IH]; intros out; cbn.
  - intros [= <-]. by rewrite app_nil_r.
  - intros H. inv_ok. apply encode_entry_Ok in Hx as ->. apply IH in H as ->.
    by rewrite <- app_assoc.
Qed.

Lemma encode_chunks_eq cs out : encode_chunks cs out = out ++ concat (encode_chunk <$> cs).
Proof.
  revert out. induction cs as [|c cs IH]; intros out; cbn; [by rewrite app_nil_r|].
  by rewrite IH, <- app_assoc.
Qed.

Lemma encode_toc_Ok es cs data :
  encode_toc es cs = Ok data ->
  data = toc_bytes es cs /\ len data <= MAX_TOC_RAW_SIZE /\
  Forall (fun e => len (te_path e) <= MAX_PATH_LEN) es.
Proof.
  unfold encode_toc. intros H. inv_ok.
  apply entries_size_Ok in Hx as [-> Hf]. apply encode_entries_Ok in Hx5 as ->.
  rewrite encode_chunks_eq, <- app_assoc. split; [done|].
  fold (toc_bytes es cs). rewrite len_toc_bytes. split; [lia|done].
Qed.
End Encode.

(** ** Decoding what was encoded *)

(** The entry's path, as an archive of the given mode stores it. *)
Definition entry_path_ok {C : Crates} (paths_stripped : bool) (e : TocEntry) : Prop :=
  if paths_stripped then te_path e = []
  else utf8_valid (te_path e) = true /\ NormalPath (te_path e) /\
       te_path_hash e = checksum (te_path e).

(** One reader of the cursor, in a chain of binds. *)
Ltac cursor_run lem :=
  match goal with
  | H : cursor_at ?c (_ ++ _) |- context [_ ?c] =>
      let c' := fresh "c" in let E := fresh "E" in let H' := fresh "Hat" in
      destruct (lem _ _ _ H ltac:(solve [assumption | done])) as (c' & E & H');
      erewrite st_bind_run; [|exact E]; clear E H
  end.
Ltac lift_run tac :=
  erewrite st_bind_run; [|unfold lift; tac; reflexivity].

Lemma NormalPath_nonempty q : NormalPath q -> q <> [].
Proof.
  intros (_&_&_&_&Hf) ->. apply Forall_inv in Hf as [[? _] _]. done.
Qed.

(** The record of an entry whose path is stored as [raw]. *)
Definition entry_record (e : TocEntry) (raw : bytes) : bytes :=
  to_le_bytes 8 (te_path_hash e) ++ to_le_bytes 8 (te_original_size e)
  ++ to_le_bytes 8 (te_stored_size e) ++ to_le_bytes 4 (te_first_chunk e)
  ++ to_le_bytes 4 (te_chunk_count e) ++ to_le_bytes 2 (len raw)
  ++ to_le_bytes 2 0 ++ raw.

(** How an entry's path may be stored: not at all in production mode; else as
    any non-empty UTF-8 text whose normal form it is.  The identifier is the
    hash of the normal form. *)
Definition path_stored {C : Crates} (paths_stripped : bool) (e : TocEntry) (raw : bytes) : Prop :=
  if paths_stripped then raw = [] /\ te_path e = []
  else raw <> [] /\ utf8_valid raw = true /\ normalize_path raw = Ok (te_path e) /\
       te_path_hash e = checksum (te_path e).

Lemma decode_path_iff {C : Crates} stripped raw e :
  decode_path stripped raw (te_path_hash e) = Ok (te_path e) <-> path_stored stripped e raw.
Proof.
  unfold decode_path, path_stored. destruct stripped, (Z.eqb_spec (len raw) 0) as [Hz|Hz].
  - split; [intros [= <-]; split; [by apply len_0_nil|done]|by intros [_ ->]].
  - split; [done|]. intros [-> _]. by change (len []) with 0 in Hz.
  - split; [done|]. intros (Hr & _). by apply len_0_nil in Hz.
  - unfold from_utf8. assert (raw <> []) by (intros ->; by change (len []) with 0 in Hz).
    destruct (utf8_valid raw); cbn; [|split; [done|by intros (_ & ? & _)]].
    destruct (normalize_path raw) as [q|e'|]; cbn; [|split; [done|by intros (_ & _ & ? & _)]..].
    destruct (Z.eqb_spec (checksum q) (te_path_hash e)) as [Hh|Hh]; cbn.
    + split; [intros [= <-]; by split_and!|by intros (_ & _ & [= ->] & _)].
    + split; [done|]. by intros (_ & _ & [= ->] & ?).
Qed.

Section DecodeRun.
Context {C : Crates} {A : AllocSpec C}.

(** A normalized path is stored as itself. *)
Lemma entry_path_stored stripped e : entry_path_ok stripped e -> path_stored stripped e (te_path e).
Proof using A.
  unfold entry_path_ok, path_stored. destruct stripped; [done|]. intros (Hu & Hn & Hh).
  split_and!; [by apply NormalPath_nonempty|done| |done]. by rewrite normal_normalize by (done || apply alloc_always).
Qed.

Lemma decode_entry_run stripped mp mt ms total e raw c rest :
  cursor_at c (entry_record e raw ++ rest) -> entry_in_range e -> path_stored stripped e raw ->
  len raw <= U16_MAX -> len raw <= mp -> te_original_size e <= ms ->
  0 <= total -> total + len raw <= mt -> total + len raw <= U64_MAX ->
  exists c', decode_entry stripped mp mt ms total c = (Ok (e, total + len raw), c') /\ cursor_at c' rest.
Proof using Type.
  intros Hc (?&?&?&?&?) Hp Hlen Hmp Hms Hz Hmt Hm. pose proof (len_nonneg raw).
  assert (is_u16 (len raw)) by (unfold in_range; lia).
  assert (is_u16 0) by (unfold in_range, U16_MAX; lia).
  unfold entry_record in Hc. rewrite <- !app_assoc in Hc. unfold decode_entry.
  do 3 cursor_run cursor_u64_run. do 2 cursor_run cursor_u32_run. do 2 cursor_run cursor_u16_run.
  unfold try_from, checked_add, U16_MAX, U64_MAX in *.
  do 5 lift_run ltac:(zdecide). lift_run ltac:(zdecide).
  match goal with H : cursor_at ?c _ |- _ => destruct (take_run _ _ _ H) as (c' & E & Hc') end.
  erewrite st_bind_run; [|exact E].
  lift_run ltac:(rewrite (proj2 (decode_path_iff stripped raw e)) by done). exists c'. split; [|done]. by destruct e.
Qed.

Lemma decode_entries_run stripped mp mt ms total es raws c rest :
  cursor_at c (concat (zip_with entry_record es raws) ++ rest) -> Forall entry_in_range es ->
  Forall2 (fun e raw => path_stored stripped e raw /\ len raw <= U16_MAX /\ len raw <= mp) es raws ->
  Forall (fun e => te_original_size e <= ms) es ->
  0 <= total -> total + sum_over len raws <= mt -> total + sum_over len raws <= U64_MAX ->
  exists c', decode_entries (length es) stripped mp mt ms total c = (Ok es, c') /\ cursor_at c' rest.
Proof using Type.
  intros Hc Hr Hp. revert total c Hc Hr.
  induction Hp as [|e raw es raws (Hp & H16 & Hmp) _ IH]; intros total c Hc Hr Hl Hz Hmt Hm.
  { exists c. done. }
  cbn [zip_with concat] in Hc. rewrite <- app_assoc in Hc. cbn [sum_over] in Hmt, Hm.
  apply Forall_cons in Hr as [? Hr], Hl as [? Hl].
  pose proof (sum_over_nonneg len raws len_nonneg). pose proof (len_nonneg raw).
  destruct (decode_entry_run stripped mp mt ms total e raw c _ Hc) as (c1 & E1 & Hc1); [done..|lia|lia|].
  destruct (IH (total + len raw) c1 Hc1) as (c2 & E2 & Hc2); [done..|lia|lia|lia|].
  exists c2. split; [|done]. cbn [length decode_entries].
  rewrite (st_bind_run _ _ _ _ _ E1). by rewrite (st_bind_run _ _ _ _ _ E2).
Qed.

Lemma decode_chunk_run ch c rest :
  cursor_at c (encode_chunk ch ++ rest) -> chunk_in_range ch ->
  exists c', decode_chunk c = (Ok ch, c') /\ cursor_at c' rest.
Proof.
  intros Hc (?&?&?&?). destruct ch as [o s g k z]; cbn in *.
  unfold encode_chunk in Hc. cbn in Hc. rewrite <- !app_assoc in Hc.
  assert (is_u16 0) by (unfold in_range, U16_MAX; lia).
  assert (is_u16 (if z then CHUNK_FLAG_LZ4 else 0))
    by (destruct z; vm_compute; intuition congruence).
  unfold decode_chunk. do 4 cursor_run cursor_u64_run. do 2 cursor_run cursor_u16_run.
  destruct z; do 2 lift_run idtac; eauto.
Qed.

Lemma decode_chunks_run cs c rest :
  cursor_at c (concat (encode_chunk <$> cs) ++ rest) -> Forall chunk_in_range cs ->
  exists c', decode_chunks (length cs) c = (Ok cs, c') /\ cursor_at c' rest.
Proof.
  intros Hc Hr. revert c Hc. induction Hr as [|ch cs Hch Hr IH]; intros c Hc.
  { exists c. done. }
  cbn [fmap list_fmap concat] in Hc. rewrite <- app_assoc in Hc.
  destruct (decode_chunk_run _ _ _ Hc Hch) as (c1 & E1 & Hc1).
  destruct (IH c1 Hc1) as (c2 & E2 & Hc2). exists c2. split; [|done].
  cbn [length decode_chunks]. rewrite (st_bind_run _ _ _ _ _ E1). by rewrite (st_bind_run _ _ _ _ _ E2).
Qed.

(** The records with the paths stored as [raws]. *)
Definition record_bytes (es : list TocEntry) (raws : list bytes) (cs : list Chunk) : bytes :=
  TOC_MAGIC ++ concat (zip_with entry_record es raws) ++ concat (encode_chunk <$> cs).

Lemma len_records es raws :
  length es = length raws ->
  len (concat (zip_with entry_record es raws)) = TOC_ENTRY_FIXED_SIZE * len es + sum_over len raws.
Proof using Type.
  revert raws. induction es as [|e es IH]; intros [|raw raws] Hl; try done.
  cbn [zip_with concat sum_over]. rewrite len_app, IH by (by injection Hl). unfold entry_record.
  rewrite !len_app, !len_to_le_bytes, len_cons. unfold TOC_ENTRY_FIXED_SIZE. lia.
Qed.

Lemma decode_records_run es raws cs stripped mp mt ms :
  len (record_bytes es raws cs) <= USIZE_MAX ->
  Forall entry_in_range es -> Forall chunk_in_range cs ->
  Forall2 (fun e raw => path_stored stripped e raw /\ len raw <= U16_MAX /\ len raw <= mp) es raws ->
  Forall (fun e => te_original_size e <= ms) es -> sum_over len raws <= mt ->
  decode_toc (record_bytes es raws cs) (len es) (len cs) stripped mp mt ms = Ok (es, cs).
Proof using A.
  intros Hlen Hre Hrc Hp Hl Hmt. set (data := record_bytes es raws cs) in *.
  pose proof (sum_over_nonneg len raws len_nonneg). pose proof (len_nonneg es). pose proof (len_nonneg cs).
  assert (Hc : cursor_at (Cursor.new data) (TOC_MAGIC ++ concat (zip_with entry_record es raws)
    ++ concat (encode_chunk <$> cs))) by by apply cursor_at_new.
  assert (Hd : Cursor.data (Cursor.new data) = data) by done.
  assert (Htoc : len data = 4 + TOC_ENTRY_FIXED_SIZE * len es + sum_over len raws + TOC_CHUNK_FIXED_SIZE * len cs).
  { unfold data, record_bytes. rewrite !len_app, len_records, len_chunks_bytes by (by eapply Forall2_length).
    change (len TOC_MAGIC) with 4. lia. }
  unfold decode_toc, decode_toc_from.
  destruct (take_run _ _ _ Hc) as (c1 & E1 & Hc1). change (len TOC_MAGIC) with 4 in E1.
  assert (Hd1 : Cursor.data c1 = data).
  { destruct (take_Ok _ _ _ _ _ E1 Hc) as (? & _ & _ & _ & ->). done. }
  erewrite st_bind_run; [|exact E1].
  unfold USIZE_MAX, U64_MAX, TOC_ENTRY_FIXED_SIZE, TOC_CHUNK_FIXED_SIZE in *.
  lift_run ltac:(rewrite bool_decide_true by done).
  do 2 lift_run ltac:(unfold try_from, USIZE_MAX, U64_MAX; zdecide).
  lift_run ltac:(unfold checked_mul, checked_add, USIZE_MAX, U64_MAX; repeat (zdecide; cbn)).
  erewrite st_bind_run; [|reflexivity]. lift_run ltac:(rewrite Hd1; zdecide).
  lift_run ltac:(unfold try_reserve; rewrite alloc_always).
  destruct (decode_entries_run stripped mp mt ms 0 es raws c1 _ Hc1) as (c2 & E2 & Hc2);
    [done..|lia|lia|unfold U64_MAX; lia|].
  rewrite (to_nat_len es). erewrite st_bind_run; [|exact E2].
  lift_run ltac:(unfold try_reserve; rewrite alloc_always).
  rewrite <- (app_nil_r (concat (encode_chunk <$> cs))) in Hc2.
  destruct (decode_chunks_run cs c2 _ Hc2 Hrc) as (c3 & E3 & Hc3).
  rewrite (to_nat_len cs). erewrite st_bind_run; [|exact E3].
  erewrite st_bind_run; [|reflexivity].
  lift_run ltac:(rewrite (cursor_at_empty _ Hc3)). done.
Qed.

(** The encoding stores each path as it is. *)
Lemma toc_bytes_records es cs : toc_bytes es cs = record_bytes es (te_path <$> es) cs.
Proof using Type.
  unfold toc_bytes, record_bytes. do 2 f_equal. induction es as [|e es IH]; [done|]. cbn. by rewrite IH.
Qed.

Lemma decode_toc_run es cs stripped mp mt ms :
  len (toc_bytes es cs) <= MAX_TOC_RAW_SIZE ->
  Forall entry_in_range es -> Forall chunk_in_range cs ->
  Forall (entry_path_ok stripped) es -> Forall (fun e => len (te_path e) <= U16_MAX) es ->
  Forall (fun e => len (te_path e) <= mp /\ te_original_size e <= ms) es ->
  path_bytes_total es <= mt ->
  decode_toc (toc_bytes es cs) (len es) (len cs) stripped mp mt ms = Ok (es, cs).
Proof using A.
  rewrite toc_bytes_records. intros Hlen Hre Hrc Hp H16 Hl Hmt. apply decode_records_run; [|done..| | |].
  - etrans; [exact Hlen|]. by vm_compute.
  - clear -A Hp H16 Hl. induction es as [|e es IH]; cbn; constructor; apply Forall_cons in Hp as [? ?], H16 as [? ?], Hl as [[] ?].
    + split; [by apply entry_path_stored|done].
    + by apply IH.
  - eapply Forall_impl; [exact Hl|]. by intros e [].
  - clear -Hmt. enough (sum_over len (te_path <$> es) = path_bytes_total es) as -> by done.
    clear Hmt. induction es as [|e es IH]; [done|]. cbn. by rewrite IH.
Qed.
End DecodeRun.

(** ** What decoding accepts *)

(** Inversion of a chain of binds on the cursor. *)
Ltac cursor_inv :=
  repeat match goal with
  | H : (?m ≫= _) ?c = (Ok _, _), Hc : cursor_at ?c _ |- _ =>
      let a := fresh "a" in let c' := fresh "c" in let E := fresh "E" in
      apply st_bind_Ok in H as (a & c' & E & H);
      first
        [ apply lift_Ok in E as [E ->]
        | apply (cursor_u64_Ok _ _ _ _ E) in Hc as (? & -> & ? & ?); clear E
        | apply (cursor_u32_Ok _ _ _ _ E) in Hc as (? & -> & ? & ?); clear E
        | apply (cursor_u16_Ok _ _ _ _ E) in Hc as (? & -> & ? & ?); clear E
        | apply (take_Ok _ _ _ _ _ E) in Hc as (? & -> & ? & ? & ?); clear E ]
  end.

Lemma chunk_flags_Ok flags :
  is_u16 flags -> Z.land flags (bit_not U16_MAX CHUNK_FLAG_LZ4) = 0 ->
  flags = if negb (Z.land flags CHUNK_FLAG_LZ4 =? 0) then CHUNK_FLAG_LZ4 else 0.
Proof.
  intros Hf Hz.
  assert (Hb : implb (Z.land flags (bit_not U16_MAX CHUNK_FLAG_LZ4) =? 0)
    (flags =? if negb (Z.land flags CHUNK_FLAG_LZ4 =? 0) then CHUNK_FLAG_LZ4 else 0) = true).
  { apply (all_bits_spec 16 (fun flags => implb (Z.land flags (bit_not U16_MAX CHUNK_FLAG_LZ4) =? 0)
      (flags =? if negb (Z.land flags CHUNK_FLAG_LZ4 =? 0) then CHUNK_FLAG_LZ4 else 0)) 0).
    - vm_compute. reflexivity.
    - unfold in_range, U16_MAX in Hf. cbn. lia. }
  rewrite Hz in Hb. by apply Z.eqb_eq in Hb.
Qed.

Section DecodeOk.
Context {C : Crates}.

Lemma decode_entry_Ok stripped mp mt ms total c e total' c' r :
  decode_entry stripped mp mt ms total c = (Ok (e, total'), c') -> cursor_at c r ->
  exists raw rest, r = entry_record e raw ++ rest /\ cursor_at c' rest /\ entry_in_range e /\
    te_original_size e <= ms /\ total' = total + len raw /\ total' <= mt /\
    path_stored stripped e raw /\ len raw <= U16_MAX /\ len raw <= mp.
Proof.
  unfold decode_entry. intros H Hc. cursor_inv. injection H as <- <- <-. inv_ok. subst.
  match goal with H : decode_path _ ?raw _ = _ |- _ => exists raw end. eexists.
  unfold entry_record. cbn. rewrite <- !app_assoc, <- decode_path_iff. unfold in_range in *.
  split_and!; done || lia.
Qed.

Lemma decode_entries_Ok n stripped mp mt ms total c es c' r :
  decode_entries n stripped mp mt ms total c = (Ok es, c') -> cursor_at c r ->
  total <= mt ->
  exists raws rest, r = concat (zip_with entry_record es raws) ++ rest /\ cursor_at c' rest /\
    length es = n /\ Forall entry_in_range es /\ Forall (fun e => te_original_size e <= ms) es /\
    Forall2 (fun e raw => path_stored stripped e raw /\ len raw <= U16_MAX /\ len raw <= mp) es raws /\
    total + sum_over len raws <= mt.
Proof.
  revert total c es r. induction n as [|n IH]; intros total c es r H Hc Hle.
  { injection H as <- <-. exists [], r. cbn. split_and!; (done || lia || constructor). }
  cbn [decode_entries] in H. apply st_bind_Ok in H as ([e total'] & c1 & E & H).
  apply st_bind_Ok in H as (es' & c2 & E2 & [= <- <-]).
  apply (decode_entry_Ok _ _ _ _ _ _ _ _ _ _ E) in Hc
    as (raw & rest & -> & Hc1 & ? & ? & -> & ? & ? & ? & ?).
  destruct (IH _ _ _ _ E2 Hc1) as (raws & rest' & -> & ? & ? & ? & ? & ? & ?); [lia|].
  exists (raw :: raws), rest'. cbn [zip_with concat length sum_over].
  rewrite <- app_assoc.
  split_and!; try done; [by f_equal|by constructor..|lia].
Qed.

Lemma decode_chunk_Ok c ch c' r :
  decode_chunk c = (Ok ch, c') -> cursor_at c r ->
  exists rest, r = encode_chunk ch ++ rest /\ cursor_at c' rest /\ chunk_in_range ch.
Proof.
  unfold decode_chunk. intros H Hc. cursor_inv. injection H as <- <-. inv_ok. subst.
  eexists. unfold encode_chunk. cbn. rewrite <- chunk_flags_Ok by done.
  rewrite <- !app_assoc. split_and!; try done.
Qed.

Lemma decode_chunks_Ok n c cs c' r :
  decode_chunks n c = (Ok cs, c') -> cursor_at c r ->
  exists rest, r = concat (encode_chunk <$> cs) ++ rest /\ cursor_at c' rest /\
    length cs = n /\ Forall chunk_in_range cs.
Proof.
  revert c cs r. induction n as [|n IH]; intros c cs r H Hc.
  { injection H as <- <-. exists r. split_and!; (done || constructor). }
  cbn [decode_chunks] in H. apply st_bind_Ok in H as (ch & c1 & E & H).
  apply st_bind_Ok in H as (cs' & c2 & E2 & [= <- <-]).
  apply (decode_chunk_Ok _ _ _ _ E) in Hc as (rest & -> & Hc1 & ?).
  destruct (IH _ _ _ E2 Hc1) as (rest' & -> & ? & ? & ?). exists rest'.
  cbn [fmap list_fmap concat length]. rewrite <- app_assoc.
  split_and!; try done; [by f_equal|by constructor].
Qed.

(** The data [data] holds the entries [es], their paths stored as [raws], and
    the chunks [cs], within the limits and with the announced counts. *)
Record toc_holds (data : bytes) (ec cc : Z) (stripped : bool) (mp mt ms : Z)
    (es : list TocEntry) (raws : list bytes) (cs : list Chunk) : Prop := {
  th_bytes : data = record_bytes es raws cs;
  th_entry_count : len es = ec;
  th_chunk_count : len cs = cc;
  th_entries : Forall entry_in_range es;
  th_chunks : Forall chunk_in_range cs;
  th_assets : Forall (fun e => te_original_size e <= ms) es;
  th_paths : Forall2 (fun e raw => path_stored stripped e raw /\ len raw <= U16_MAX /\ len raw <= mp) es raws;
  th_total : sum_over len raws <= mt
}.

Lemma decode_toc_Ok data ec cc stripped mp mt ms es cs :
  decode_toc data ec cc stripped mp mt ms = Ok (es, cs) ->
  0 <= ec -> 0 <= cc -> 0 <= mt -> len data <= USIZE_MAX ->
  exists raws, toc_holds data ec cc stripped mp mt ms es raws cs.
Proof.
  unfold decode_toc. intros H Hec Hcc Hmt Hlen.
  destruct (decode_toc_from _ _ _ _ _ _ _) as [r c'] eqn:E. cbn in H. subst r.
  apply cursor_at_new in Hlen as Hc. unfold decode_toc_from in E.
  apply st_bind_Ok in E as (magic & c1 & E1 & E).
  apply (take_Ok _ _ _ _ _ E1) in Hc as (rest1 & -> & _ & Hc1 & _).
  do 4 (apply st_bind_Ok in E as (? & ? & [? ->]%lift_Ok & E)).
  apply st_bind_Ok in E as (? & ? & [= <- <-] & E).
  do 2 (apply st_bind_Ok in E as (? & ? & [? ->]%lift_Ok & E)).
  apply st_bind_Ok in E as (es' & c2 & E2 & E). inv_ok.
  apply (decode_entries_Ok _ _ _ _ _ _ _ _ _ _ E2) in Hc1
    as (raws & rest2 & -> & Hc2 & ? & ? & ? & ? & ?); [|done].
  apply st_bind_Ok in E as (? & ? & [? ->]%lift_Ok & E).
  apply st_bind_Ok in E as (cs' & c3 & E3 & E).
  apply (decode_chunks_Ok _ _ _ _ _ E3) in Hc2 as (rest3 & -> & Hc3 & ? & ?).
  apply st_bind_Ok in E as (? & ? & [= <- <-] & E).
  apply st_bind_Ok in E as (? & ? & [He ->]%lift_Ok & [= <- <- <-]). inv_ok.
  rewrite (cursor_at_is_empty _ _ Hc3 He), app_nil_r. exists raws.
  subst. constructor; try done; unfold len; lia.
Qed.

(** No input makes the decoder panic. *)
Lemma cursor_take_total n : st_total (Cursor.take n).
Proof. intros c. rewrite cursor_take_eq. by repeat case_match. Qed.
Hint Resolve cursor_take_total : nopanic.

Lemma cursor_ints_total : st_total Cursor.u16 /\ st_total Cursor.u32 /\ st_total Cursor.u64.
Proof. unfold Cursor.u16, Cursor.u32, Cursor.u64, Cursor.take_array. auto 20 with nopanic. Qed.

Lemma decode_path_total stripped raw h : decode_path stripped raw h <> Panic.
Proof.
  unfold decode_path. destruct stripped, (len raw =? 0); [done..|].
  apply np_bind; [apply np_ok_or|]. intros p. apply np_bind; [|auto with nopanic].
  rewrite normalize_value. repeat case_match; done.
Qed.

Lemma decode_toc_total data ec cc stripped mp mt ms :
  decode_toc data ec cc stripped mp mt ms <> Panic.
Proof.
  unfold decode_toc. revert stripped. 
  pose proof cursor_ints_total as (?&?&?). pose proof decode_path_total. intros stripped.
  assert (He : forall n total, st_total (decode_entries n stripped mp mt ms total)).
  { induction n as [|n IH]; intros total; cbn [decode_entries]; [auto with nopanic|].
    apply st_total_bind; [unfold decode_entry; auto 40 with nopanic|].
    intros [e t]. auto 20 with nopanic. }
  assert (Hch : forall n, st_total (decode_chunks n)).
  { induction n as [|n IH]; cbn [decode_chunks]; [auto with nopanic|].
    apply st_total_bind; [unfold decode_chunk; auto 40 with nopanic|].
    intros ch. auto 20 with nopanic. }
  enough (st_total (decode_toc_from ec cc stripped mp mt ms)) as Ht by apply Ht.
  unfold decode_toc_from, try_reserve. auto 60 with nopanic.
Qed.
End DecodeOk.

Section DecodeSound.
Context {C : Crates}.

Lemma path_stored_ok stripped e raw :
  path_stored stripped e raw -> entry_path_ok stripped e /\ len (te_path e) <= len raw.
Proof.
  unfold path_stored, entry_path_ok. destruct stripped.
  - intros [-> ->]. split; [done|]. by apply Z.le_refl.
  - intros (_ & Hu & Hn & Hh). split; [|by eapply normalize_len].
    split_and!; [by eapply normalize_utf8|by eapply normalize_normal|done].
Qed.

Lemma toc_holds_paths data ec cc stripped mp mt ms es raws cs :
  toc_holds data ec cc stripped mp mt ms es raws cs ->
  Forall (entry_path_ok stripped) es /\ Forall (fun e => len (te_path e) <= mp) es /\ path_bytes_total es <= mt.
Proof.
  intros [_ _ _ _ _ _ Hp Ht]. revert mt Ht. induction Hp as [|e raw es raws (Hp & _ & Hl) _ IH]; intros mt Ht.
  { by split_and!; [constructor..|]. }
  cbn [sum_over] in *. destruct (IH (mt - len raw)) as (? & ? & ?); [lia|].
  apply path_stored_ok in Hp as [? ?]. split_and!; [by constructor|constructor; [lia|done]|lia].
Qed.

(** Paths stored in normal form, or not at all: the canonical encoding. *)
Lemma toc_holds_canonical `{!AllocSpec C} data ec cc stripped mp mt ms es raws cs :
  toc_holds data ec cc stripped mp mt ms es raws cs -> stripped = true \/ Forall NormalPath raws ->
  data = toc_bytes es cs.
Proof.
  intros [-> _ _ _ _ _ Hp _] Hn. rewrite toc_bytes_records. f_equal.
  induction Hp as [|e raw es raws (Hp & _) _ IH]; [done|]. cbn.
  unfold path_stored in Hp. f_equal; [|apply IH; destruct Hn as [|[_ ?]%Forall_cons]; auto].
  destruct stripped; [destruct Hp as [-> ->]; done|]. destruct Hn as [|[Hn _]%Forall_cons]; [done|].
  destruct Hp as (_ & _ & Hq & _). rewrite normal_normalize in Hq by (done || apply alloc_always). congruence.
Qed.

Lemma entry_bytes_record e : entry_bytes e = entry_record e (te_path e).
Proof. done. Qed.

(** ** Properties *)

(** C16 Decoding an encoded table of contents gives back its entries and
    chunks, in both modes, when the entries are within the caller's limits
    and their paths are those the mode stores. *)
Theorem decode_encode_toc {A : AllocSpec C} es cs data stripped mp mt ms :
  encode_toc es cs = Ok data ->
  Forall entry_in_range es -> Forall chunk_in_range cs -> Forall (entry_path_ok stripped) es ->
  Forall (fun e => len (te_path e) <= mp /\ te_original_size e <= ms) es ->
  path_bytes_total es <= mt ->
  decode_toc data (len es) (len cs) stripped mp mt ms = Ok (es, cs).
Proof.
  intros (-> & Hlen & H16)%encode_toc_Ok ? ? ? ? ?. by apply decode_toc_run.
Qed.

(** C9 What [decode_toc] accepts.  It never panics.  It gives entries and chunks
    only for data that is, byte for byte and with nothing behind it, the
    records of exactly the announced counts, every field in range, every asset
    and path within the caller's limits, each path stored as some UTF-8 text
    whose normal form it is and whose hash is the identifier (or absent, in
    production mode); while memory lasts it accepts all such data.  The data
    is the canonical encoding if no path is stored, or each in normal form; a
    debug archive may store a path in another spelling. *)
Theorem decode_toc_spec data ec cc stripped mp mt ms :
  0 <= ec -> 0 <= cc -> 0 <= mt -> len data <= USIZE_MAX ->
  decode_toc data ec cc stripped mp mt ms <> Panic /\
  (forall es cs, decode_toc data ec cc stripped mp mt ms = Ok (es, cs) ->
     Forall (entry_path_ok stripped) es /\ exists raws, toc_holds data ec cc stripped mp mt ms es raws cs) /\
  (AllocSpec C -> forall es raws cs, toc_holds data ec cc stripped mp mt ms es raws cs ->
     decode_toc data ec cc stripped mp mt ms = Ok (es, cs) /\
     (stripped = true \/ Forall NormalPath raws -> data = toc_bytes es cs)).
Proof.
  intros Hec Hcc Hmt Hlen. split; [apply decode_toc_total|]. split.
  - intros es cs H. destruct (decode_toc_Ok _ _ _ _ _ _ _ _ _ H Hec Hcc Hmt Hlen) as [raws Hh].
    split; [by eapply toc_holds_paths|by exists raws].
  - intros Ha es raws cs Hh. split; [|by eapply toc_holds_canonical].
    destruct Hh as [-> <- <- ? ? ? ? ?]. by apply decode_records_run.
Qed.
End DecodeSound.

Module TocExample.
Definition entry : TocEntry := {|
  te_path := lit "a/b"; te_path_hash := Toy.hash 0 (lit "a/b"); te_original_size := 5;
  te_stored_size := 5; te_first_chunk := 0; te_chunk_count := 1 |}.
Definition chunk : Chunk := {|
  c_offset := 64; c_stored_size := 5; c_original_size := 5; c_checksum := 9;
  c_compressed := false |}.
End TocExample.

Lemma decode_encode_toc_witness :
  decode_toc (C := Toy.crates) (toc_bytes [TocExample.entry] [TocExample.chunk]) 1 1 false 100 100 100
  = Ok ([TocExample.entry], [TocExample.chunk]).
Proof.
  apply (decode_encode_toc (C := Toy.crates) [TocExample.entry] [TocExample.chunk]).
  - vm_compute. reflexivity.
  - constructor; [|constructor]. vm_compute. intuition congruence.
  - constructor; [|constructor]. vm_compute. intuition congruence.
  - constructor; [|constructor]. split_and!; [done| |done].
    apply (normalize_normal (C := Toy.crates) (lit "a/b")). vm_compute. reflexivity.
  - constructor; [|constructor]. vm_compute. intuition congruence.
  - vm_compute. congruence.
Defined.

(** A debug table that stores the path [a/b] as [a//b]. *)
Lemma decode_toc_spec_witness :
  decode_toc (C := Toy.crates) (record_bytes [TocExample.entry] [lit "a//b"] [TocExample.chunk]) 1 1 false 100 100 100
    = Ok ([TocExample.entry], [TocExample.chunk]) /\
  record_bytes [TocExample.entry] [lit "a//b"] [TocExample.chunk] <> toc_bytes [TocExample.entry] [TocExample.chunk] /\
  Forall (entry_path_ok (C := Toy.crates) false) [TocExample.entry].
Proof.
  destruct (decode_toc_spec (C := Toy.crates)
    (record_bytes [TocExample.entry] [lit "a//b"] [TocExample.chunk]) 1 1 false 100 100 100) as (_ & Hok & Hrun);
    [vm_compute; congruence..|].
  destruct (Hrun _ [TocExample.entry] [lit "a//b"] [TocExample.chunk]) as [Hd _].
  - constructor; [reflexivity|reflexivity|reflexivity| | | | |vm_compute; congruence];
      (constructor; [|constructor]); vm_compute; intuition congruence.
  - split; [exact Hd|]. split; [vm_compute; congruence|]. apply (Hok _ _ Hd).
Defined.
