(* ===== verification/Layout.v ===== *)
(** * The payload layout ([validate_layout] of [format/toc.rs])

    The checks on the chunk records and on their ownership by entries, and
    the declarative layout they decide. *)
From S2P Require Export Crypto Toc.

Section Layout.
Context {C : Crates}.

(** ** The chunks *)

(** The body of the loop over chunks; its state is [previous_end] and
    [total_decompressed]. *)
Definition check_chunk (chunk : Chunk) (toc_offset chunk_size alignment : Z) (aead : bool)
    (max_total_decompressed_bytes previous_end total_decompressed : Z) : Res (Z * Z) :=
  payload_size ← (if aead
                  then ok_or (checked_sub (c_stored_size chunk) AEAD_OVERHEAD)
                         (Corrupt "encrypted chunk is truncated")
                  else Ok (c_stored_size chunk));
  ensure (negb (c_original_size chunk =? 0) && (c_original_size chunk <=? chunk_size))
    (Corrupt "invalid chunk original size");;
  ensure (negb (payload_size =? 0) && (payload_size <=? c_original_size chunk))
    (Corrupt "invalid stored chunk size");;
  ensure (negb (c_compressed chunk) || (payload_size <? c_original_size chunk))
    (Corrupt "non-beneficial compressed chunk");;
  ensure (c_compressed chunk || (payload_size =? c_original_size chunk))
    (Corrupt "raw chunk size mismatch");;
  ensure ((HEADER_SIZE <=? c_offset chunk) && is_multiple_of (c_offset chunk) alignment)
    (Corrupt "invalid chunk alignment");;
  ensure (previous_end <=? c_offset chunk) (Corrupt "overlapping or out-of-order chunks");;
  end_ ← ok_or (checked_add U64_MAX (c_offset chunk) (c_stored_size chunk))
           (Corrupt "chunk range overflow");
  ensure (end_ <=? toc_offset) (Corrupt "chunk outside payload region");;
  total_decompressed ← ok_or (checked_add U64_MAX total_decompressed (c_original_size chunk))
                         (TooLarge "total decompressed size");
  ensure (total_decompressed <=? max_total_decompressed_bytes) ArchiveTooLarge;;
  mret (end_, total_decompressed).

Fixpoint check_chunks (chunks : list Chunk) (toc_offset chunk_size alignment : Z) (aead : bool)
    (max_total_decompressed_bytes previous_end total_decompressed : Z) : Res unit :=
  match chunks with
  | [] => Ok tt
  | chunk :: chunks =>
      '(previous_end, total_decompressed) ← check_chunk chunk toc_offset chunk_size alignment aead
         max_total_decompressed_bytes previous_end total_decompressed;
      check_chunks chunks toc_offset chunk_size alignment aead max_total_decompressed_bytes
        previous_end total_decompressed
  end.

(** ** The ownership of chunks by entries *)

(** The loop over the chunks an entry owns: [local] counts them, [owned_len]
    is their number, [used_chunks] marks the chunks owned so far. *)
Fixpoint check_owned (chunk_size first owned_len local : Z) (owned : list Chunk)
    (used_chunks : list bool) (raw_total stored_total : Z) : Res (list bool * Z * Z) :=
  match owned with
  | [] => Ok (used_chunks, raw_total, stored_total)
  | chunk :: owned =>
      global ← add_or_panic USIZE_MAX first local;
      used ← or_panic (index used_chunks global);
      ensure (negb used) (Corrupt "chunk is referenced by multiple entries");;
      let used_chunks := <[Z.to_nat global := true]> used_chunks in
      raw_total ← ok_or (checked_add U64_MAX raw_total (c_original_size chunk))
                    (Corrupt "entry raw size overflow");
      stored_total ← ok_or (checked_add U64_MAX stored_total (c_stored_size chunk))
                       (Corrupt "entry stored size overflow");
      next ← add_or_panic USIZE_MAX local 1;
      ensure ((next =? owned_len) || (c_original_size chunk =? chunk_size))
        (Corrupt "non-final chunk has unexpected size");;
      check_owned chunk_size first owned_len next owned used_chunks raw_total stored_total
  end.

Definition check_entry (entry : TocEntry) (chunks : list Chunk) (chunk_size : Z)
    (used_chunks : list bool) : Res (list bool) :=
  first ← ok_or (try_from USIZE_MAX (te_first_chunk entry)) (TooLarge "chunk index");
  count ← ok_or (try_from USIZE_MAX (te_chunk_count entry)) (TooLarge "chunk count");
  end_ ← ok_or (checked_add USIZE_MAX first count) (Corrupt "entry chunk range overflow");
  owned ← ok_or (slice_get chunks first end_) (Corrupt "entry chunk range outside TOC");
  (match te_original_size entry =? 0, te_chunk_count entry =? 0, te_stored_size entry =? 0 with
   | true, true, true | false, false, _ => Ok tt
   | true, _, _ => Err (Corrupt "empty entry has chunks")
   | false, true, _ => Err (Corrupt "non-empty entry has no chunks")
   end);;
  '(used_chunks, raw_total, stored_total) ← check_owned chunk_size first (len owned) 0 owned
     used_chunks 0 0;
  ensure (raw_total =? te_original_size entry) (Corrupt "entry original size mismatch");;
  ensure (stored_total =? te_stored_size entry) (Corrupt "entry stored size mismatch");;
  mret used_chunks.

Fixpoint check_entries (entries : list TocEntry) (chunks : list Chunk) (chunk_size : Z)
    (used_chunks : list bool) : Res (list bool) :=
  match entries with
  | [] => Ok used_chunks
  | entry :: entries =>
      used_chunks ← check_entry entry chunks chunk_size used_chunks;
      check_entries entries chunks chunk_size used_chunks
  end.

Definition validate_layout (entries : list TocEntry) (chunks : list Chunk)
    (toc_offset chunk_size alignment : Z) (aead : bool) (max_total_decompressed_bytes : Z) :
    Res unit :=
  check_chunks chunks toc_offset chunk_size alignment aead max_total_decompressed_bytes
    HEADER_SIZE 0;;
  try_reserve "chunk ownership allocation" (len chunks);;
  used_chunks ← check_entries entries chunks chunk_size (replicate (length chunks) false);
  ensure (forallb id used_chunks) (Corrupt "orphan chunk in TOC");;
  mret tt.
End Layout.

(** ** The layout, declaratively *)

Abbreviation original_total := (sum_over c_original_size).
Abbreviation stored_total := (sum_over c_stored_size).

Definition payload_size (aead : bool) (c : Chunk) : Z :=
  if aead then c_stored_size c - AEAD_OVERHEAD else c_stored_size c.

Definition c_end (c : Chunk) : Z := c_offset c + c_stored_size c.

(** A chunk record on its own. *)
Record ChunkOk (toc_offset chunk_size alignment : Z) (aead : bool) (c : Chunk) : Prop := {
  ck_original : 1 <= c_original_size c <= chunk_size;
  ck_payload : 1 <= payload_size aead c <= c_original_size c;
  ck_compressed : c_compressed c = true <-> payload_size aead c < c_original_size c;
  ck_offset : HEADER_SIZE <= c_offset c;
  ck_aligned : (alignment | c_offset c);
  ck_end : c_end c <= toc_offset
}.

(** Chunks follow each other, from [prev] on, without overlap. *)
Fixpoint in_order (prev : Z) (cs : list Chunk) : Prop :=
  match cs with
  | [] => True
  | c :: cs => prev <= c_offset c /\ in_order (c_end c) cs
  end.

(** The chunk indices of an entry and the chunks themselves. *)
Definition entry_range (e : TocEntry) : list nat :=
  seq (Z.to_nat (te_first_chunk e)) (Z.to_nat (te_chunk_count e)).
Definition owned_chunks (cs : list Chunk) (e : TocEntry) : list Chunk :=
  take (Z.to_nat (te_chunk_count e)) (drop (Z.to_nat (te_first_chunk e)) cs).

(** All chunks but the last have the archive's chunk size. *)
Definition full_but_last (chunk_size : Z) (cs : list Chunk) : Prop :=
  forall i c, cs !! i = Some c -> (S i < length cs)%nat -> c_original_size c = chunk_size.

Record EntryOk (cs : list Chunk) (chunk_size : Z) (e : TocEntry) : Prop := {
  eo_range : te_first_chunk e + te_chunk_count e <= len cs;
  eo_empty : te_original_size e = 0 <-> te_chunk_count e = 0;
  eo_original : original_total (owned_chunks cs e) = te_original_size e;
  eo_stored : stored_total (owned_chunks cs e) = te_stored_size e;
  eo_full : full_but_last chunk_size (owned_chunks cs e)
}.

(** The whole layout: well-formed chunks in order, within the size limit;
    well-formed entries; every chunk owned by exactly one entry. *)
Record LayoutSpec (es : list TocEntry) (cs : list Chunk)
    (toc_offset chunk_size alignment : Z) (aead : bool) (max_total : Z) : Prop := {
  ls_chunks : Forall (ChunkOk toc_offset chunk_size alignment aead) cs;
  ls_order : in_order HEADER_SIZE cs;
  ls_total : original_total cs <= max_total;
  ls_entries : Forall (EntryOk cs chunk_size) es;
  ls_partition : concat (entry_range <$> es) ≡ₚ seq 0 (length cs)
}.

(** ** The checks decide the layout *)

Lemma owned_incl cs e : owned_chunks cs e ⊆+ cs.
Proof.
  unfold owned_chunks. etrans; [apply sublist_submseteq, sublist_take|].
  apply sublist_submseteq, sublist_drop.
Qed.

Lemma sum_over_Permutation {A} (f : A -> Z) l k : l ≡ₚ k -> sum_over f l = sum_over f k.
Proof. induction 1; cbn; lia. Qed.

Lemma sum_over_submseteq {A} (f : A -> Z) l k :
  (forall x, x ∈ k -> 0 <= f x) -> l ⊆+ k -> sum_over f l <= sum_over f k.
Proof.
  intros Hf [j Hj]%submseteq_Permutation. 
  rewrite (sum_over_Permutation _ _ _ Hj), sum_over_app.
  assert (0 <= sum_over f j); [|lia].
  assert (Hfj : forall x, x ∈ j -> 0 <= f x).
  { intros x Hx. apply Hf. rewrite Hj. apply elem_of_app. by right. }
  clear -Hfj. induction j as [|x j IH]; cbn; [lia|]. fold (sum_over f j).
  pose proof (Hfj x ltac:(by left)). specialize (IH ltac:(intros; apply Hfj; by right)). lia.
Qed.

(** [used] marks, of the [n] chunks, those whose index is in [ids]. *)
Definition marks (used : list bool) (n : nat) (ids : list nat) : Prop :=
  length used = n /\ forall i, (i < n)%nat -> used !! i = Some (bool_decide (i ∈ ids)).

Lemma marks_insert used n ids i :
  marks used n ids -> marks (<[i := true]> used) n (ids ++ [i]).
Proof.
  intros [Hl Hu]. split; [by rewrite length_insert|]. intros j Hj.
  destruct (decide (i = j)) as [<-|Hne].
  - rewrite list_lookup_insert_eq by lia. f_equal. symmetry. apply bool_decide_eq_true.
    apply elem_of_app. right. by left.
  - rewrite list_lookup_insert_ne, Hu by done. f_equal. apply bool_decide_ext.
    rewrite elem_of_app, list_elem_of_singleton. naive_solver.
Qed.

Lemma full_but_last_cons cz c cs :
  full_but_last cz (c :: cs) <->
  (cs = [] \/ c_original_size c = cz) /\ full_but_last cz cs.
Proof.
  unfold full_but_last. split.
  - intros H. split.
    + destruct cs as [|d cs]; [by left|]. right. apply (H 0%nat); [done|cbn; lia].
    + intros i d Hd Hi. apply (H (S i)); [done|cbn; lia].
  - intros [Hc Hcs] [|i] d Hd Hi; cbn in *.
    + injection Hd as <-. destruct Hc as [->|]; [cbn in Hi; lia|done].
    + apply (Hcs i); [done|lia].
Qed.

Section Decides.
Context (toc_offset chunk_size alignment : Z) (aead : bool) (max_total : Z).
Hypothesis (Htoc : is_u64 toc_offset) (Hal : 1 <= alignment) (Hmax : is_u64 max_total).

Lemma is_multiple_of_divide v m : 1 <= m -> is_multiple_of v m = true <-> (m | v).
Proof.
  intros Hm. unfold is_multiple_of. destruct (Z.eqb_spec m 0); [lia|].
  rewrite Z.eqb_eq. apply Z.mod_divide. lia.
Qed.

Lemma check_chunk_decides c prev total :
  chunk_in_range c -> 0 <= total ->
  decides (check_chunk c toc_offset chunk_size alignment aead max_total prev total)
    (ChunkOk toc_offset chunk_size alignment aead c /\ prev <= c_offset c /\
       total + c_original_size c <= max_total)
    (fun s => s = (c_end c, total + c_original_size c)).
Proof.
  unfold chunk_in_range, in_range. intros (?&?&?&?) Ht.
  unfold in_range in Htoc, Hmax. unfold check_chunk.
  pose proof (is_multiple_of_divide (c_offset c) alignment Hal) as Hmul.
  assert (Hpay : decides (if aead
      then ok_or (checked_sub (c_stored_size c) AEAD_OVERHEAD) (Corrupt "encrypted chunk is truncated")
      else Ok (c_stored_size c))
    (0 <= payload_size aead c) (fun p => p = payload_size aead c)).
  { unfold payload_size. destruct aead; [|cbn; lia]. unfold checked_sub.
    destruct (Z.leb_spec AEAD_OVERHEAD (c_stored_size c)); cbn; lia. }
  eapply (decides_iff _ _ _ (fun s => s = (c_end c, total + c_original_size c))).
  { eapply decides_bind; [exact Hpay|]. intros p _ _ ->.
    repeat (eapply decides_bind; [apply decides_ensure|intros _ _ _ _]).
    eapply decides_bind; [apply decides_ok_or|]. intros e _ _ Hend.
    apply checked_add_Some in Hend as [-> Hend].
    eapply decides_bind; [apply decides_ensure|intros _ _ _ _].
    eapply decides_bind; [apply decides_ok_or|]. intros t _ _ Htot.
    apply checked_add_Some in Htot as [-> Htot].
    eapply (decides_bind _ _ _ True); [apply decides_ensure|intros _ _ _ _].
    apply decides_ret; [done|]. reflexivity. }
  - rewrite !checked_add_is_Some, !andb_true_iff, !orb_true_iff, !negb_true_iff, !Z.eqb_neq,
      !Z.eqb_eq, !Z.leb_le, !Z.ltb_lt, Hmul. unfold c_end. split.
    + intros (?&(?&?)&(?&?)&Hz1&Hz2&(?&?)&?&?&?&?&?&_).
      split_and!; [|done|done]. constructor; try (done || lia).
      destruct (c_compressed c), Hz1, Hz2; split; intros; (done || lia).
    + intros ([? ? Hc ? ? ?]&?&?). unfold c_end in *. split_and!; try (done || lia).
      * destruct (c_compressed c); [right; by apply Hc|by left].
      * destruct (c_compressed c); [by left|right].
        enough (~ payload_size aead c < c_original_size c) by lia. by intros ?%Hc.
  - by intros a _ _ ->.
Qed.

Lemma check_chunks_decides cs prev total :
  Forall chunk_in_range cs -> 0 <= total <= max_total ->
  decides (check_chunks cs toc_offset chunk_size alignment aead max_total prev total)
    (Forall (ChunkOk toc_offset chunk_size alignment aead) cs /\ in_order prev cs /\
       total + original_total cs <= max_total) (fun _ => True).
Proof.
  intros Hr. revert prev total. induction Hr as [|c cs Hc Hr IH]; intros prev total Ht.
  { apply decides_ret; [|done]. split_and!; [apply Forall_nil_2|done|cbn; lia]. }
  cbn [check_chunks]. eapply decides_iff.
  { eapply decides_bind; [apply check_chunk_decides; [done|lia]|].
    intros [e t] _ (_&_&Hle) [= -> ->]. apply IH.
    destruct Hc as (_&_&[? _]&_). lia. }
  - cbn [in_order sum_over]. rewrite Forall_cons. rewrite <- Z.add_assoc.
    split; [intros ((?&?&?)&?&?&?); by split_and!|].
    intros ((?&?)&(?&?)&?). split_and!; try done.
    assert (0 <= original_total cs); [|lia].
    transitivity (original_total []); [done|]. apply sum_over_submseteq; [|apply submseteq_nil_l].
    intros x Hx. rewrite Forall_forall in Hr. apply Hr in Hx as (_&_&[? _]&_). done.
  - done.
Qed.
End Decides.


Lemma marks_index used n ids i :
  marks used n ids -> 0 <= i < Z.of_nat n ->
  index used i = Some (bool_decide (Z.to_nat i ∈ ids)).
Proof.
  intros [Hl Hu] Hi. unfold index. zdecide. apply Hu. lia.
Qed.

Lemma check_owned_decides cz first local owned used n ids raw st :
  marks used n ids -> Forall chunk_in_range owned ->
  0 <= first -> 0 <= local -> first + local + len owned <= Z.of_nat n -> Z.of_nat n < USIZE_MAX ->
  0 <= raw -> raw + original_total owned <= U64_MAX ->
  0 <= st -> st + stored_total owned <= U64_MAX ->
  decides (check_owned cz first (local + len owned) local owned used raw st)
    (seq (Z.to_nat (first + local)) (length owned) ## ids /\ full_but_last cz owned)
    (fun '(used', raw', st') =>
       marks used' n (ids ++ seq (Z.to_nat (first + local)) (length owned)) /\
       raw' = raw + original_total owned /\ st' = st + stored_total owned).
Proof.
  intros Hm Hr Hf. revert local used ids raw st Hm.
  induction Hr as [|c owned Hc Hr IH]; intros local used ids raw st Hm Hl Hn Hmax H0 Hraw Hs0 Hst.
  { cbn. rewrite app_nil_r. split; [split; [set_solver|]|split_and!; (done || lia)].
    intros i c Hc. done. }
  cbn [sum_over check_owned] in *. rewrite len_cons in *.
  pose proof (len_nonneg owned). unfold USIZE_MAX in *.
  assert (Hno : 0 <= original_total owned /\ 0 <= stored_total owned).
  { split; (transitivity 0; [lia|]); apply (sum_over_submseteq _ []); try apply submseteq_nil_l;
      intros x Hx; rewrite Forall_forall in Hr; apply Hr in Hx as (_&[? _]&[? _]&_); done. }
  destruct Hc as (_&[Hcs _]&[Hco _]&_).
  rewrite (add_or_panic_le _ first local) by lia. cbn [mbind result_bind].
  rewrite (marks_index _ _ _ _ Hm) by lia. cbn [or_panic mbind result_bind].
  rewrite (checked_add_le _ raw), (checked_add_le _ st), (add_or_panic_le _ local) by lia.
  set (i := Z.to_nat (first + local)) in *.
  replace (local + (1 + len owned)) with (local + 1 + len owned) by lia.
  assert (Hi : Z.to_nat (first + (local + 1)) = S i) by lia.
  eapply decides_iff.
  - eapply decides_bind; [apply decides_ensure|]. intros [] _ Hnew _.
    cbn [mbind result_bind].
    eapply decides_bind; [apply decides_ensure|]. intros [] _ Hsize _.
    specialize (IH (local + 1) _ _ (raw + c_original_size c) (st + c_stored_size c)
      (marks_insert _ _ _ i Hm)). rewrite Hi in IH. apply IH; lia.
  - rewrite negb_true_iff, bool_decide_eq_false, orb_true_iff, !Z.eqb_eq, full_but_last_cons.
    cbn [length seq]. split.
    + intros (Hnew & Hsz & Hdis & Hfull). split_and!; [|destruct Hsz as [Hz|]; [left|by right]|done].
      * intros j [->|Hj]%elem_of_cons; [done|]. intros Hin. apply (Hdis j Hj), elem_of_app. by left.
      * apply len_0_nil. lia.
    + intros (Hdis & Hsz & Hfull). split_and!; [|destruct Hsz as [->|]; [left|by right]| |done].
      * intros Hin. apply (Hdis i); [by left|done].
      * unfold len. cbn. lia.
      * intros j Hj [Hin|Hji%list_elem_of_singleton]%elem_of_app.
        -- apply (Hdis j); [by right|done].
        -- apply elem_of_seq in Hj. lia.
  - intros [[u r] s] _ _ (Hmk & -> & ->). rewrite <- app_assoc in Hmk.
    split_and!; [exact Hmk|lia|lia].
Qed.

Lemma check_entry_decides cz cs e used ids :
  marks used (length cs) ids -> Forall chunk_in_range cs -> entry_in_range e ->
  len cs < USIZE_MAX -> original_total cs <= U64_MAX -> stored_total cs <= U64_MAX ->
  decides (check_entry e cs cz used)
    (EntryOk cs cz e /\ entry_range e ## ids)
    (fun used' => marks used' (length cs) (ids ++ entry_range e)).
Proof.
  intros Hm Hr (_&Ho&Hs&Hf&Hc) Hlen Hot Hst. unfold in_range, U32_MAX in Hf, Hc, Ho, Hs.
  unfold check_entry, try_from, USIZE_MAX, U64_MAX in *. zdecide. cbn [ok_or mbind result_bind].
  rewrite checked_add_le by lia. cbn [mbind result_bind].
  destruct (slice_get cs _ _) as [owned|] eqn:Hsl; cbn [ok_or mbind result_bind].
  2:{ intros [[Hrange _ _ _ _] _]. unfold slice_get in Hsl. revert Hsl. by zdecide. }
  pose proof (slice_get_len _ _ _ _ Hsl) as Hol.
  apply slice_get_Some in Hsl as (_ & Hend & Hown).
  replace (te_first_chunk e + te_chunk_count e - te_first_chunk e) with (te_chunk_count e)
    in Hown, Hol by lia.
  fold (owned_chunks cs e) in Hown.
  assert (Hsub : owned ⊆+ cs) by (rewrite Hown; apply owned_incl).
  assert (Hpos : forall x, x ∈ cs -> 0 <= c_original_size x /\ 0 <= c_stored_size x).
  { intros x Hx. rewrite Forall_forall in Hr. by apply Hr in Hx as (_&[? _]&[? _]&_). }
  pose proof (sum_over_submseteq c_original_size _ _ (fun x Hx => proj1 (Hpos x Hx)) Hsub).
  pose proof (sum_over_submseteq c_stored_size _ _ (fun x Hx => proj2 (Hpos x Hx)) Hsub).
  assert (Hro : Forall chunk_in_range owned).
  { apply Forall_forall. intros x Hx. rewrite Forall_forall in Hr. apply Hr.
    by eapply elem_of_submseteq. }
  eapply decides_iff.
  - eapply (decides_bind _ _ ((te_original_size e = 0 <-> te_chunk_count e = 0) /\
      (te_original_size e = 0 -> te_stored_size e = 0)) _ (fun _ => True)).
    { destruct (Z.eqb_spec (te_original_size e) 0), (Z.eqb_spec (te_chunk_count e) 0),
        (Z.eqb_spec (te_stored_size e) 0); cbn; lia. }
    intros _ _ _ _. eapply decides_bind.
    { apply (check_owned_decides cz (te_first_chunk e) 0 owned used (length cs) ids 0 0); try done;
        unfold len in *; unfold USIZE_MAX, U64_MAX; lia. }
    intros [[u r] s] _ _ (Hmk & -> & ->). rewrite !Z.add_0_l.
    eapply decides_bind; [apply decides_ensure|]. intros _ _ _ _.
    eapply (decides_bind _ _ _ True); [apply decides_ensure|]. intros _ _ _ _.
    apply decides_ret; [done|]. instantiate (1 := fun u => marks u _ _). exact Hmk.
  - rewrite !Z.eqb_eq, Z.add_0_r.
    replace (length owned) with (Z.to_nat (te_chunk_count e)) by (unfold len in Hol; lia).
    fold (entry_range e). subst owned. split.
    + intros ((He & Hz) & (Hdis & Hfull) & Horig & Hstor & _).
      split; [constructor; (done || lia)|done].
    + intros ([? He Horig Hstor ?] & Hdis). split_and!; try (done || lia).
      intros Hz%He. rewrite Hz in Hol. apply len_0_nil in Hol. rewrite <- Hstor, Hol. done.
  - cbn beta. rewrite Z.add_0_r. unfold entry_range.
    replace (length owned) with (Z.to_nat (te_chunk_count e)) by (unfold len in Hol; lia). done.
Qed.

Lemma check_entries_decides cz cs es used ids :
  marks used (length cs) ids -> Forall chunk_in_range cs -> Forall entry_in_range es ->
  len cs < USIZE_MAX -> original_total cs <= U64_MAX -> stored_total cs <= U64_MAX ->
  NoDup ids ->
  decides (check_entries es cs cz used)
    (Forall (EntryOk cs cz) es /\ NoDup (ids ++ concat (entry_range <$> es)))
    (fun used' => marks used' (length cs) (ids ++ concat (entry_range <$> es))).
Proof.
  intros Hm Hr Hes Hlen Hot Hst Hnd. revert used ids Hm Hnd.
  induction Hes as [|e es He Hes IH]; intros used ids Hm Hnd.
  { cbn. rewrite app_nil_r. split; [split; [apply Forall_nil_2|done]|done]. }
  cbn [check_entries fmap list_fmap concat]. rewrite app_assoc. eapply decides_iff.
  - eapply decides_bind; [by apply check_entry_decides|].
    intros u _ [_ Hdis] Hu. apply IH; [done|].
    apply NoDup_app. split_and!; [done| |apply NoDup_seq].
    intros i Hi Hi'. by apply (Hdis i).
  - rewrite Forall_cons, (NoDup_app (ids ++ entry_range e)), (NoDup_app ids). split.
    + intros ((?&Hdis)&?&(?&?&?)&?&?). by split_and!.
    + intros ((?&?)&(?&Hdis&?)&?&?). split_and!; try done. intros i Hi Hi'. by apply (Hdis i).
  - done.
Qed.

Lemma marks_all used n ids :
  marks used n ids -> forallb id used = true <-> forall i, (i < n)%nat -> i ∈ ids.
Proof.
  intros [Hl Hu]. rewrite forallb_forall. split.
  - intros Hall i Hi. specialize (Hu i Hi). apply list_elem_of_lookup_2 in Hu as Hin.
    apply list_elem_of_In, Hall in Hin. by apply bool_decide_eq_true in Hin.
  - intros Hall b Hb%list_elem_of_In%list_elem_of_lookup_1. destruct Hb as [i Hi].
    assert (i < n)%nat by (rewrite <- Hl; by eapply lookup_lt_Some).
    rewrite Hu in Hi by done. injection Hi as <-. apply bool_decide_eq_true. by apply Hall.
Qed.

Lemma marks_none n : marks (replicate n false) n [].
Proof.
  split; [apply length_replicate|]. intros i Hi. rewrite lookup_replicate_2 by done.
  done.
Qed.

Lemma partition_iff n (ids : list nat) :
  (forall i, i ∈ ids -> (i < n)%nat) ->
  ids ≡ₚ seq 0 n <-> NoDup ids /\ (forall i, (i < n)%nat -> i ∈ ids).
Proof.
  intros Hb. split.
  - intros Hp. split; [rewrite Hp; apply NoDup_seq|].
    intros i Hi. rewrite Hp. apply elem_of_seq. lia.
  - intros [Hnd Hall]. apply NoDup_Permutation; [done|apply NoDup_seq|].
    intros i. rewrite elem_of_seq. split; [intros ?%Hb; lia|intros; apply Hall; lia].
Qed.

Lemma in_order_stored cs prev toc :
  Forall (fun c => 0 <= c_stored_size c /\ c_end c <= toc) cs -> in_order prev cs -> prev <= toc ->
  prev + stored_total cs <= toc.
Proof.
  intros Hf. revert prev. induction Hf as [|c cs [? ?] Hf IH]; intros prev Ho Hp; cbn in *; [lia|].
  destruct Ho as [? Ho]. specialize (IH _ Ho ltac:(done)). unfold c_end in *. lia.
Qed.

Lemma entries_bounded cs cz es i :
  Forall entry_in_range es -> Forall (EntryOk cs cz) es -> i ∈ concat (entry_range <$> es) ->
  (i < length cs)%nat.
Proof.
  intros Hr Ho Hi. apply list_elem_of_In, in_concat in Hi as (l & Hl & Hi).
  apply list_elem_of_In, list_elem_of_fmap in Hl as (e & -> & He).
  apply list_elem_of_In in Hi. unfold entry_range in Hi. apply elem_of_seq in Hi.
  rewrite Forall_forall in Hr, Ho. destruct (Ho e He) as [Hrange _ _ _ _].
  destruct (Hr e He) as (_&_&_&[? _]&[? _]). unfold len in Hrange. lia.
Qed.

Lemma validate_layout_decides {C : Crates} es cs toc_offset chunk_size alignment aead max_total :
  is_u64 toc_offset -> HEADER_SIZE <= toc_offset -> 1 <= alignment -> is_u64 max_total ->
  Forall entry_in_range es -> Forall chunk_in_range cs -> len cs <= U32_MAX ->
  decides (validate_layout es cs toc_offset chunk_size alignment aead max_total)
    (LayoutSpec es cs toc_offset chunk_size alignment aead max_total /\
     alloc_ok "chunk ownership allocation" (len cs) = true) (fun _ => True).
Proof.
  intros Htoc Hhs Hal Hmax Hes Hcs Hlen. unfold validate_layout. eapply decides_iff.
  - eapply decides_bind; [apply check_chunks_decides; [done..|unfold in_range in *; lia]|].
    intros _ _ (Hck & Ho & Ht) _. rewrite Z.add_0_l in Ht.
    eapply decides_bind; [apply decides_ensure|]. intros _ _ _ _.
    assert (Hst : HEADER_SIZE + stored_total cs <= toc_offset).
    { apply in_order_stored; [|done|done]. apply Forall_forall. intros c Hc.
      rewrite Forall_forall in Hcs, Hck. destruct (Hcs c Hc) as (_&[? _]&_).
      by destruct (Hck c Hc). }
    unfold in_range, HEADER_SIZE, U64_MAX, U32_MAX in *.
    eapply decides_bind.
    { apply (check_entries_decides chunk_size cs es _ []); try done;
        [apply marks_none|unfold USIZE_MAX, U64_MAX; lia|unfold U64_MAX; lia|unfold U64_MAX; lia|
         constructor]. }
    intros u _ [Heo Hnd] Hu. eapply (decides_bind _ _ _ True _ (fun _ => True)); [|intros _ _ _ _; by apply decides_ret].
    eapply decides_iff; [apply decides_ensure|by apply marks_all|done].
  - cbn [app]. split.
    + intros ((? & ? & ?) & Ha & (? & ?) & Hall & _). split; [|done]. constructor; try (done || lia).
      apply partition_iff; [|done]. intros i. by apply entries_bounded with (es := es) (cz := chunk_size).
    + intros [[? ? ? ? Hp] Ha]. apply partition_iff in Hp as [? ?].
      2:{ intros i. by apply entries_bounded with (es := es) (cz := chunk_size). }
      split_and!; try (done || lia).
  - done.
Qed.

Lemma in_order_lookup cs prev i j ci cj :
  Forall (fun c => 0 <= c_stored_size c) cs -> in_order prev cs ->
  cs !! i = Some ci -> cs !! j = Some cj -> (i < j)%nat -> c_end ci <= c_offset cj.
Proof.
  intros Hf. revert prev i j. induction Hf as [|c cs Hc Hf IH]; intros prev i j Ho Hi Hj Hij; [done|].
  destruct Ho as [_ Ho]. destruct j as [|j]; [lia|]. cbn in Hj. destruct i as [|i].
  - injection Hi as ->. clear IH Hij Hc. revert j Hj. generalize dependent ci. 
    induction Hf as [|d cs Hd Hf IH]; intros ci Ho j Hj; [done|]. destruct Ho as [Hle Ho].
    destruct j as [|j]; [by injection Hj as ->|]. cbn in Hj.
    specialize (IH d Ho j Hj). unfold c_end in *. lia.
  - cbn in Hi. eapply IH; try done. lia.
Qed.

Lemma concat_seq_unique (es : list TocEntry) i :
  NoDup (concat (entry_range <$> es)) -> i ∈ concat (entry_range <$> es) ->
  exists k, (exists e, es !! k = Some e /\ i ∈ entry_range e) /\
    forall k', (exists e, es !! k' = Some e /\ i ∈ entry_range e) -> k = k'.
Proof.
  induction es as [|e es IH]; cbn; intros Hnd Hi; [by apply not_elem_of_nil in Hi|].
  apply NoDup_app in Hnd as (_ & Hdis & Hnd).
  assert (Htail : forall k e', es !! k = Some e' -> i ∈ entry_range e' ->
                    i ∈ concat (entry_range <$> es)).
  { intros k e' Hk Hin. apply list_elem_of_In, in_concat. exists (entry_range e').
    split; apply list_elem_of_In; [|done]. apply list_elem_of_fmap. exists e'. split; [done|].
    by eapply list_elem_of_lookup_2. }
  apply elem_of_app in Hi as [Hi|Hi].
  - exists 0%nat. split; [by exists e|]. intros [|k'] (e' & He' & Hin); [done|].
    exfalso. apply (Hdis i Hi). by eapply Htail.
  - destruct (IH Hnd Hi) as (k & (e' & He' & Hin) & Huniq). exists (S k).
    split; [by exists e'|]. intros [|k'] (e'' & He'' & Hin'').
    + injection He'' as <-. exfalso. by apply (Hdis i).
    + f_equal. apply Huniq. by exists e''.
Qed.

(** ** Properties *)

(** C8 [validate_layout] accepts exactly the declarative layout (chunk sizes,
    compression flag, alignment, order and bounds; entry ranges, totals and
    full chunks; a partition of the chunks among the entries), when the
    allocation of its scratch succeeds; it never panics. *)
Theorem validate_layout_spec {C : Crates} es cs toc_offset chunk_size alignment aead max_total :
  is_u64 toc_offset -> HEADER_SIZE <= toc_offset -> 1 <= alignment -> is_u64 max_total ->
  Forall entry_in_range es -> Forall chunk_in_range cs -> len cs <= U32_MAX ->
  (validate_layout es cs toc_offset chunk_size alignment aead max_total = Ok tt <->
     LayoutSpec es cs toc_offset chunk_size alignment aead max_total /\
     alloc_ok "chunk ownership allocation" (len cs) = true) /\
  validate_layout es cs toc_offset chunk_size alignment aead max_total <> Panic.
Proof.
  intros. pose proof (validate_layout_decides es cs toc_offset chunk_size alignment aead max_total)
    as Hd. split; [by apply (decides_Ok_unit _ _ _ (Hd ltac:(done) ltac:(done) ltac:(done)
    ltac:(done) ltac:(done) ltac:(done) ltac:(done)))|]. eapply decides_np. by apply Hd.
Qed.

(** C20 In an accepted archive the stored bytes of different chunks do not
    overlap, lie between the header and the table of contents, and every
    chunk belongs to one entry and to no other. *)
Theorem validate_layout_ownership {C : Crates} es cs toc_offset chunk_size alignment aead max_total :
  is_u64 toc_offset -> HEADER_SIZE <= toc_offset -> 1 <= alignment -> is_u64 max_total ->
  Forall entry_in_range es -> Forall chunk_in_range cs -> len cs <= U32_MAX ->
  validate_layout es cs toc_offset chunk_size alignment aead max_total = Ok tt ->
  (forall i j ci cj, cs !! i = Some ci -> cs !! j = Some cj -> (i < j)%nat ->
     c_end ci <= c_offset cj) /\
  (forall i c, cs !! i = Some c ->
     HEADER_SIZE <= c_offset c /\ c_end c <= toc_offset /\
     exists k, (exists e, es !! k = Some e /\ i ∈ entry_range e) /\
       forall k', (exists e, es !! k' = Some e /\ i ∈ entry_range e) -> k = k').
Proof.
  intros ? ? ? ? ? Hr ? Hv.
  eapply (decides_Ok_unit _ _ _ (validate_layout_decides es cs toc_offset chunk_size alignment
    aead max_total _ _ _ _ _ _ _)) in Hv as [[Hck Ho _ He Hp] _]. split.
  - intros i j ci cj. apply (in_order_lookup cs HEADER_SIZE); [|done].
    eapply Forall_impl; [exact Hr|]. by intros c (_&[? _]&_).
  - intros i c Hc. rewrite Forall_forall in Hck.
    destruct (Hck c (list_elem_of_lookup_2 _ _ _ Hc)) as [? ? ? ? ? ?]. split_and!; [done..|].
    apply concat_seq_unique.
    + rewrite Hp. apply NoDup_seq.
    + rewrite Hp. apply elem_of_seq. apply lookup_lt_Some in Hc. lia.
  Unshelve. all: done.
Qed.

Lemma validate_layout_spec_witness :
  validate_layout (C := Toy.crates) [TocExample.entry] [TocExample.chunk] 80 1024 16 false 100 <> Panic.
Proof.
  apply (validate_layout_spec (C := Toy.crates) [TocExample.entry] [TocExample.chunk] 80 1024 16
    false 100).
  - unfold in_range, U64_MAX. lia.
  - unfold HEADER_SIZE. lia.
  - lia.
  - unfold in_range, U64_MAX. lia.
  - constructor; [|constructor]. vm_compute. intuition congruence.
  - constructor; [|constructor]. vm_compute. intuition congruence.
  - vm_compute. congruence.
Defined.

Lemma validate_layout_ownership_witness :
  HEADER_SIZE <= 64 /\ 69 <= 80 /\
  exists k, (exists e, [TocExample.entry] !! k = Some e /\ 0%nat ∈ entry_range e) /\
    forall k', (exists e, [TocExample.entry] !! k' = Some e /\ 0%nat ∈ entry_range e) -> k = k'.
Proof.
  refine (proj2 (validate_layout_ownership (C := Toy.crates) [TocExample.entry] [TocExample.chunk] 80
    1024 16 false 100 _ _ _ _ _ _ _ _) 0%nat TocExample.chunk eq_refl).
  - unfold in_range, U64_MAX. lia.
  - unfold HEADER_SIZE. lia.
  - lia.
  - unfold in_range, U64_MAX. lia.
  - constructor; [|constructor]. vm_compute. intuition congruence.
  - constructor; [|constructor]. vm_compute. intuition congruence.
  - vm_compute. congruence.
  - vm_compute. reflexivity.
Defined.
