(* ===== verification/Options.v ===== *)
(** * Packing options ([pack/options.rs]) *)
From S2P Require Export Format.

Inductive PackMode := Debug | Production.
Inductive Protection := Xor | Aead.

#[export] Instance PackMode_eq_dec : EqDecision PackMode.
Proof. solve_decision. Defined.
#[export] Instance Protection_eq_dec : EqDecision Protection.
Proof. solve_decision. Defined.

(** [impl Display] of both. *)
Definition protection_to_string (p : Protection) : bytes :=
  match p with Xor => lit "xor" | Aead => lit "aead" end.
Definition mode_to_string (m : PackMode) : bytes :=
  match m with Debug => lit "debug" | Production => lit "production" end.

Definition strips_paths (m : PackMode) : bool :=
  match m with Production => true | Debug => false end.

Record PackOptions := {
  po_chunk_size : Z;
  po_alignment : Z;
  po_mode : PackMode;
  po_protection : Protection
}.

(** [<PackOptions as Default>::default] *)
Definition default_options : PackOptions := {|
  po_chunk_size := DEFAULT_CHUNK_SIZE;
  po_alignment := DEFAULT_ALIGNMENT;
  po_mode := Debug;
  po_protection := Xor
|}.

Definition validate (self : PackOptions) : Res PackOptions :=
  validate_chunk_size (po_chunk_size self);;
  validate_alignment (po_alignment self);;
  mret self.

(** What [validate] decides. *)
Record OptionsOk (o : PackOptions) : Prop := {
  oo_chunk_size : 1 <= po_chunk_size o <= MAX_CHUNK_SIZE;
  oo_alignment : exists k, 0 <= k <= 20 /\ po_alignment o = 2 ^ k
}.

Lemma validate_Ok o o' :
  0 <= po_chunk_size o -> is_u32 (po_alignment o) ->
  validate o = Ok o' <-> o' = o /\ OptionsOk o.
Proof.
  intros Hc Ha. unfold validate. pose proof (validate_chunk_size_Ok (po_chunk_size o)) as Hs.
  pose proof (validate_alignment_Ok (po_alignment o) Ha) as Hk. split.
  - intros H. inv_ok. split; [done|]. apply Hs in Hx. apply Hk in Hx0. constructor; [lia|done].
  - intros [-> [? ?]]. rewrite (proj2 Hs) by lia. rewrite (proj2 Hk) by done. done.
Qed.

Lemma validate_np o : validate o <> Panic.
Proof. unfold validate, validate_chunk_size, validate_alignment. auto with nopanic. Qed.

