(* ===== verification/Index.v ===== *)
(** * The asset index ([archive/reader.rs])

    [Entry], [Archive], the construction and validation of the identifier
    index, and the lookups over it. *)
From S2P Require Export Options Limits Layout.

Record Entry := {
  path : bytes;
  path_hash : Z;
  original_size : Z;
  stored_size : Z;
  first_chunk : Z;
  chunk_count : Z
}.

(** [Entry::path] *)
Definition entry_path (self : Entry) : option bytes :=
  if bool_decide (path self = []) then None else Some (path self).

(** [<Entry as From<TocEntry>>::from] *)
Definition entry_from (entry : TocEntry) : Entry := {|
  path := te_path entry;
  path_hash := te_path_hash entry;
  original_size := te_original_size entry;
  stored_size := te_stored_size entry;
  first_chunk := te_first_chunk entry;
  chunk_count := te_chunk_count entry
|}.

(** A slot of the index: an identifier and the position of its entry. *)
Abbreviation Slot := (Z * Z)%type.

Record Archive (R : Type) := {
  ar_source : R;
  ar_entries : list Entry;
  ar_chunks : list Chunk;
  ar_index : list Slot;
  ar_chunk_size : Z;
  ar_alignment : Z;
  ar_paths_stripped : bool;
  ar_protection : Protection;
  ar_aead_key : option bytes;
  ar_max_chunks_per_operation : Z
}.
Arguments ar_source {R}. Arguments ar_entries {R}. Arguments ar_chunks {R}.
Arguments ar_index {R}. Arguments ar_chunk_size {R}. Arguments ar_alignment {R}.
Arguments ar_paths_stripped {R}. Arguments ar_protection {R}. Arguments ar_aead_key {R}.
Arguments ar_max_chunks_per_operation {R}.

Section Index.
Context {C : Crates}.

(** ** Construction and validation *)

(** The part of [open_with_limits] that builds the sorted index. *)
Definition build_index (entries : list Entry) : Res (list Slot) :=
  try_reserve "index allocation" (len entries);;
  mret (sort_unstable_by_key (imap (fun i entry => (path_hash entry, Z.of_nat i)) entries)).

(** The inner [while] of [validate_index]: the end of the bucket. *)
Fixpoint bucket_end (fuel : nat) (index : list Slot) (start end_ : Z) : Res Z :=
  match fuel with
  | O => Panic
  | S fuel =>
      if end_ <? len index then
        e ← or_panic (Prelude.index index end_);
        s ← or_panic (Prelude.index index start);
        if fst e =? fst s then bucket_end fuel index start (end_ + 1) else mret end_
      else mret end_
  end.

(** The loop over the bucket: no path twice. *)
Fixpoint check_paths (entries : list Entry) (bucket : list Slot) (paths : gset bytes) : Res unit :=
  match bucket with
  | [] => Ok tt
  | (_, entry_index) :: bucket =>
      entry ← or_panic (Prelude.index entries entry_index);
      if decide (path entry ∈ paths) then Err (DuplicatePath (path entry))
      else check_paths entries bucket ({[path entry]} ∪ paths)
  end.

Fixpoint validate_index_from (fuel : nat) (entries : list Entry) (index : list Slot)
    (paths_stripped : bool) (start : Z) : Res unit :=
  match fuel with
  | O => Panic
  | S fuel =>
      if start <? len index then
        end_ ← bucket_end (length index) index start (start + 1);
        bucket_len ← sub_or_panic end_ start;
        ensure (bucket_len <=? HARD_MAX_IDENTIFIER_BUCKET_ENTRIES)
          (TooLarge "identifier collision bucket");;
        s ← or_panic (Prelude.index index start);
        (if paths_stripped && negb (bucket_len =? 1) then Err (HashCollision (fst s)) else Ok tt);;
        try_reserve "identifier collision bucket allocation" bucket_len;;
        bucket ← or_panic (slice_get index start end_);
        check_paths entries bucket ∅;;
        validate_index_from fuel entries index paths_stripped end_
      else Ok tt
  end.

Definition validate_index (entries : list Entry) (index : list Slot) (paths_stripped : bool) :
    Res unit :=
  validate_index_from (S (length index)) entries index paths_stripped 0.

(** ** Lookup *)

(** [slice::partition_point] of a partitioned slice: the number of leading
    elements that satisfy the predicate. *)
Fixpoint partition_point {A} (p : A -> bool) (l : list A) : Z :=
  match l with
  | x :: l => if p x then 1 + partition_point p l else 0
  | [] => 0
  end.

Context {R : Type}.
Implicit Type self : Archive R.

Definition hash_range self (asset_id : AssetId) : option (Z * Z) :=
  let start := partition_point (fun s : Slot => fst s <? asset_id) (ar_index self) in
  let end_ := partition_point (fun s : Slot => fst s <=? asset_id) (ar_index self) in
  if negb (start =? end_) then Some (start, end_) else None.

(** The [find_map] over the bucket; [Panic] where [entries[i]] is. *)
Fixpoint find_path (entries : list Entry) (bucket : list Slot) (normalized : bytes) :
    Res (option Z) :=
  match bucket with
  | [] => Ok None
  | (_, i) :: bucket =>
      entry ← or_panic (Prelude.index entries i);
      if bool_decide (path entry = normalized) then Ok (Some i)
      else find_path entries bucket normalized
  end.

Definition find_entry_index_normalized self (normalized : bytes) : Res Z :=
  let id := checksum normalized in
  '(start, end_) ← ok_or (hash_range self id) (NotFound normalized);
  if ar_paths_stripped self then
    s ← or_panic (Prelude.index (ar_index self) start);
    mret (snd s)
  else
    bucket ← or_panic (slice_get (ar_index self) start end_);
    found ← find_path (ar_entries self) bucket normalized;
    ok_or found (NotFound normalized).

Definition find_entry_index_by_id self (asset_id : AssetId) : Res Z :=
  '(start, end_) ← ok_or (hash_range self asset_id) (NotFound (lit "hash:" ++ fmt_hex 16 asset_id));
  bucket_len ← sub_or_panic end_ start;
  (if negb (bucket_len =? 1) then Err (HashCollision asset_id) else Ok tt);;
  s ← or_panic (Prelude.index (ar_index self) start);
  mret (snd s).

Definition contains_id self (asset_id : AssetId) : bool :=
  match hash_range self asset_id with Some _ => true | None => false end.

Definition contains_hash self (path_hash : Z) : bool := contains_id self path_hash.

Definition entry self (p : bytes) : Res Entry :=
  normalized ← normalize_lookup_path p;
  i ← find_entry_index_normalized self normalized;
  or_panic (Prelude.index (ar_entries self) i).

Definition entry_by_id self (asset_id : AssetId) : Res Entry :=
  i ← find_entry_index_by_id self asset_id;
  or_panic (Prelude.index (ar_entries self) i).

Definition try_contains self (p : bytes) : Res bool :=
  normalized ← normalize_lookup_path p;
  match find_entry_index_normalized self normalized with
  | Ok _ => Ok true
  | Err (NotFound _) => Ok false
  | Err error => Err error
  | Panic => Panic
  end.

(** [unwrap_or(false)]: the value of [contains] when [try_contains] returns. *)
Definition contains self (p : bytes) : option bool :=
  match try_contains self p with
  | Ok b => Some b
  | Err _ => Some false
  | Panic => None
  end.
End Index.

(** ** Specification *)

(** The slots of the entries, in their order. *)
Definition slots (entries : list Entry) : list Slot :=
  imap (fun i e => (path_hash e, Z.of_nat i)) entries.

(** The slots, and the entries, that share an identifier. *)
Definition bucket (id : Z) (l : list Slot) : list Slot := filter (fun s => fst s = id) l.
Definition same_id (id : Z) (entries : list Entry) : list Entry :=
  filter (fun e => path_hash e = id) entries.

(** A group of entries that share an identifier: at most 64, a single one
    when paths are stripped, and no path twice. *)
Definition GroupOk (stripped : bool) (group : list Entry) : Prop :=
  len group <= HARD_MAX_IDENTIFIER_BUCKET_ENTRIES /\
  (stripped = true -> len group = 1) /\ NoDup (path <$> group).

Record IndexOk (entries : list Entry) (index : list Slot) : Prop := {
  ix_sorted : StronglySorted key_le index;
  ix_slots : index ≡ₚ slots entries
}.

(** What an opened archive guarantees about its entries and index. *)
Record IndexWf {C : Crates} {R} (self : Archive R) : Prop := {
  iw_index : IndexOk (ar_entries self) (ar_index self);
  iw_groups e : e ∈ ar_entries self ->
    GroupOk (ar_paths_stripped self) (same_id (path_hash e) (ar_entries self));
  iw_paths e : ar_paths_stripped self = false -> e ∈ ar_entries self ->
    path_hash e = checksum (path e)
}.

(** ** Lemmas: sorted slots *)

Lemma index_app_len {A} (p : list A) x q : Prelude.index (p ++ x :: q) (len p) = Some x.
Proof. apply index_Some. split; [apply len_nonneg|]. by rewrite to_nat_len, lookup_app_r, Nat.sub_diag. Qed.

Lemma bucket_none id l : Forall (fun s => fst s <> id) l -> bucket id l = [].
Proof.
  induction 1 as [|x l Hx Hl IH]; [done|]. unfold bucket in *.
  by rewrite filter_cons_False.
Qed.

Lemma sorted_split id l :
  StronglySorted key_le l ->
  exists lo hi, l = lo ++ bucket id l ++ hi /\
    Forall (fun s => fst s < id) lo /\ Forall (fun s => id < fst s) hi.
Proof.
  induction 1 as [|x l Hs IH Hx]; [by exists [], []|].
  destruct IH as (lo & hi & Hl & Hlo & Hhi). rewrite Forall_forall in Hx. unfold key_le in Hx.
  destruct (Z.lt_trichotomy (fst x) id) as [Hlt|[Heq|Hgt]].
  - exists (x :: lo), hi. unfold bucket. rewrite filter_cons_False by lia.
    split_and!; [cbn; by f_equal|by constructor|done].
  - exists [], hi. unfold bucket. rewrite filter_cons_True by done.
    destruct lo as [|y lo]; [split_and!; [cbn; by f_equal|done|done]|].
    inversion Hlo as [|? ? Hy]. specialize (Hx y). rewrite Hl in Hx.
    specialize (Hx (list_elem_of_here _ _)). lia.
  - exists [], (x :: l). rewrite bucket_none; [split_and!; [done..|]|].
    + constructor; [done|]. apply Forall_forall. intros y Hy. specialize (Hx y Hy). lia.
    + constructor; [lia|]. apply Forall_forall. intros y Hy. specialize (Hx y Hy). lia.
Qed.

Lemma bucket_all id l : Forall (fun s => fst s = id) (bucket id l).
Proof. apply Forall_forall. intros s [? _]%list_elem_of_filter. done. Qed.

Lemma partition_point_app {A} (p : A -> bool) l k :
  Forall (fun x => p x = true) l -> Forall (fun x => p x = false) k ->
  partition_point p (l ++ k) = len l.
Proof.
  intros Hl Hk. induction Hl as [|x l Hx Hl IH]; cbn.
  - destruct Hk as [|x k Hx Hk]; [done|]. cbn. by rewrite Hx.
  - rewrite Hx, IH. by rewrite len_cons.
Qed.

Section IndexLemmas.
Context {C : Crates} {R : Type}.
Implicit Type self : Archive R.

Lemma hash_range_run self id :
  StronglySorted key_le (ar_index self) ->
  exists lo hi, ar_index self = lo ++ bucket id (ar_index self) ++ hi /\
    hash_range self id =
      if bool_decide (bucket id (ar_index self) = []) then None
      else Some (len lo, len lo + len (bucket id (ar_index self))).
Proof.
  intros Hs. destruct (sorted_split id _ Hs) as (lo & hi & Hl & Hlo & Hhi).
  exists lo, hi. split; [done|]. unfold hash_range.
  pose proof (bucket_all id (ar_index self)) as Hb. set (b := bucket id (ar_index self)) in *.
  assert (partition_point (fun s : Slot => fst s <? id) (ar_index self) = len lo) as ->.
  { rewrite Hl. apply partition_point_app.
    - eapply Forall_impl; [exact Hlo|]. intros s ?. by apply Z.ltb_lt.
    - apply Forall_app. split; [eapply Forall_impl; [exact Hb|]|eapply Forall_impl; [exact Hhi|]];
        cbv beta; intros s ?; apply Z.ltb_ge; lia. }
  assert (partition_point (fun s : Slot => fst s <=? id) (ar_index self) = len lo + len b) as ->.
  { rewrite Hl, app_assoc, <- len_app. apply partition_point_app.
    - apply Forall_app. split; [eapply Forall_impl; [exact Hlo|]|eapply Forall_impl; [exact Hb|]];
        cbv beta; intros s ?; apply Z.leb_le; lia.
    - eapply Forall_impl; [exact Hhi|]. cbv beta. intros s ?. apply Z.leb_gt. lia. }
  case_bool_decide as Hn.
  - rewrite Hn, len_nil, Z.add_0_r. by rewrite Z.eqb_refl.
  - destruct (Z.eqb_spec (len lo) (len lo + len b)); [|done].
    destruct Hn. apply len_0_nil. lia.
Qed.

(** ** Lemmas: slots and entries *)

Lemma elem_of_slots entries h i :
  (h, i) ∈ slots entries <->
  exists e, Prelude.index entries i = Some e /\ path_hash e = h.
Proof.
  unfold slots. rewrite list_elem_of_lookup. setoid_rewrite list_lookup_imap. split.
  - intros (j & Hj). destruct (entries !! j) as [e|] eqn:E; [|done]. cbn in Hj.
    injection Hj as <- <-. exists e. split; [|done]. apply index_Some.
    split; [lia|]. by rewrite Nat2Z.id.
  - intros (e & (Hi & He)%index_Some & <-). exists (Z.to_nat i). rewrite He. cbn.
    by rewrite Z2Nat.id.
Qed.

Definition path_of (entries : list Entry) (s : Slot) : option bytes :=
  path <$> Prelude.index entries (snd s).

(** The entries behind a bucket of the slots. *)
Lemma bucket_slots entries id :
  (fun s : Slot => Prelude.index entries (snd s)) <$> bucket id (slots entries) =
  Some <$> same_id id entries.
Proof.
  assert (Hgen : forall k pre, len pre = Z.of_nat k ->
    (fun s : Slot => Prelude.index (pre ++ entries) (snd s)) <$>
      bucket id (imap (fun i e => (path_hash e, Z.of_nat (k + i))) entries) =
    Some <$> same_id id entries).
  { induction entries as [|e entries IH]; intros k pre Hk; [done|]. cbn [imap].
    rewrite Nat.add_0_r.
    assert (Hi : imap ((fun i e => (path_hash e, Z.of_nat (k + i))) ∘ S) entries =
                 imap (fun i e => (path_hash e, Z.of_nat (S k + i))) entries).
    { apply imap_ext. intros. cbn. do 2 f_equal. lia. }
    rewrite Hi. specialize (IH (S k) (pre ++ [e])).
    rewrite len_app, <- app_assoc in IH. cbn [app] in IH.
    specialize (IH ltac:(change (len [e]) with 1; lia)).
    unfold bucket, same_id in *. destruct (decide (path_hash e = id)).
    - rewrite !filter_cons_True by done. rewrite !fmap_cons. f_equal; [|exact IH].
      cbn. rewrite <- Hk. apply index_app_len.
    - rewrite !filter_cons_False by done. exact IH. }
  apply (Hgen 0%nat []). done.
Qed.

Section Sorted.
Context (entries : list Entry) (index : list Slot) (Hix : IndexOk entries index).

Lemma bucket_entries id :
  (fun s : Slot => Prelude.index entries (snd s)) <$> bucket id index ≡ₚ Some <$> same_id id entries.
Proof. rewrite <- bucket_slots. unfold bucket. by rewrite (ix_slots _ _ Hix). Qed.

Lemma bucket_len id : len (bucket id index) = len (same_id id entries).
Proof.
  pose proof (Permutation_length (bucket_entries id)) as H. rewrite !length_fmap in H.
  unfold len. by rewrite H.
Qed.

Lemma bucket_paths id : path_of entries <$> bucket id index ≡ₚ Some <$> (path <$> same_id id entries).
Proof.
  transitivity (fmap path <$> ((fun s : Slot => Prelude.index entries (snd s)) <$> bucket id index)).
  { by rewrite <- list_fmap_compose. }
  rewrite bucket_entries, <- !list_fmap_compose. done.
Qed.

Lemma elem_of_index h i :
  (h, i) ∈ index <-> exists e, Prelude.index entries i = Some e /\ path_hash e = h.
Proof. rewrite (ix_slots _ _ Hix). apply elem_of_slots. Qed.
End Sorted.
End IndexLemmas.

(** ** Lemmas: validation *)

Section Validate.
Context {C : Crates} (entries : list Entry) (stripped : bool).

Definition slots_valid (l : list Slot) : Prop :=
  Forall (fun s => is_Some (Prelude.index entries (snd s))) l.

Lemma check_paths_decides b paths :
  slots_valid b ->
  decides (check_paths entries b paths)
    (NoDup (path_of entries <$> b) /\ forall p, p ∈ paths -> Some p ∉ path_of entries <$> b)
    (fun _ => True).
Proof.
  intros Hv. revert paths. induction Hv as [|[h i] b [e He] Hv IH]; intros paths.
  { cbn. split; [split; [constructor|]|done]. intros p _ Hp. by apply not_elem_of_nil in Hp. }
  cbn [check_paths]. cbn in He. rewrite He. cbn [or_panic mbind result_bind].
  assert (Hp : path_of entries (h, i) = Some (path e)) by (unfold path_of; cbn; by rewrite He).
  rewrite fmap_cons, Hp. destruct (decide (path e ∈ paths)) as [Hin|Hni].
  { cbn. intros [_ Hn]. apply (Hn _ Hin). apply list_elem_of_here. }
  eapply decides_iff; [apply IH| |done]. split.
  - intros [Hnd Hdis]. split.
    + constructor; [|done]. apply Hdis. set_solver.
    + intros p Hin [Heq|Ht]%elem_of_cons; [by injection Heq as ->|].
      apply (Hdis p); [set_solver|done].
  - intros [[Hn Hnd]%NoDup_cons Hdis]. split; [done|].
    intros p [->%elem_of_singleton|Hin]%elem_of_union Ht; [done|].
    apply (Hdis p Hin). by apply list_elem_of_further.
Qed.

Lemma bucket_end_run fuel pre x b1 b2 rest :
  Forall (fun s => fst s = fst x) b2 -> Forall (fun s => fst x < fst s) rest ->
  (length b2 < fuel)%nat ->
  bucket_end fuel (pre ++ (x :: b1 ++ b2) ++ rest) (len pre) (len pre + 1 + len b1) =
    Ok (len pre + 1 + len b1 + len b2).
Proof.
  intros Hb Hr. revert fuel b1. induction Hb as [|y b2 Hy Hb IH]; intros fuel b1 Hf;
    (destruct fuel as [|fuel]; [cbn in Hf; lia|]); cbn [bucket_end].
  - rewrite len_nil, Z.add_0_r, app_nil_r.
    destruct Hr as [|y rest Hy Hr].
    { rewrite app_nil_r, len_app, len_cons. by zdecide. }
    assert (Hlt : len pre + 1 + len b1 < len (pre ++ (x :: b1) ++ y :: rest)).
    { rewrite !len_app, !len_cons. pose proof (len_nonneg rest). lia. }
    zdecide. rewrite (app_assoc pre) at 1.
    replace (len pre + 1 + len b1) with (len (pre ++ x :: b1)) by (rewrite len_app, len_cons; lia).
    rewrite index_app_len. cbn [or_panic mbind result_bind app].
    rewrite index_app_len. cbn [or_panic mbind result_bind]. by zdecide.
  - rewrite len_cons. pose proof (len_nonneg b2). pose proof (len_nonneg rest).
    assert (Hlt : len pre + 1 + len b1 < len (pre ++ (x :: b1 ++ y :: b2) ++ rest)).
    { rewrite !len_app, len_cons, len_app, len_cons. lia. }
    zdecide.
    assert (Hi : Prelude.index (pre ++ (x :: b1 ++ y :: b2) ++ rest) (len pre + 1 + len b1) = Some y).
    { replace (pre ++ (x :: b1 ++ y :: b2) ++ rest) with ((pre ++ x :: b1) ++ y :: b2 ++ rest)
        by (cbn; rewrite <- !app_assoc; cbn; by rewrite <- ?app_assoc).
      replace (len pre + 1 + len b1) with (len (pre ++ x :: b1)) by (rewrite len_app, len_cons; lia).
      apply index_app_len. }
    rewrite Hi. cbn [or_panic mbind result_bind app]. rewrite index_app_len.
    cbn [or_panic mbind result_bind]. zdecide.
    specialize (IH fuel (b1 ++ [y])). cbn in Hf. rewrite len_app, <- app_assoc in IH.
    change (len [y]) with 1 in IH. cbn [app] in IH.
    replace (len pre + 1 + len b1 + 1) with (len pre + 1 + (len b1 + 1)) by lia.
    rewrite IH by lia. f_equal. lia.
Qed.

(** What [validate_index] requires of one bucket. *)
Definition BucketOk (b : list Slot) : Prop :=
  len b <= HARD_MAX_IDENTIFIER_BUCKET_ENTRIES /\ (stripped = true -> len b = 1) /\
  alloc_ok "identifier collision bucket allocation" (len b) = true /\
  NoDup (path_of entries <$> b).

Lemma bucket_cons x l :
  StronglySorted key_le (x :: l) ->
  exists b rest, l = b ++ rest /\ bucket (fst x) (x :: l) = x :: b /\
    Forall (fun s => fst s = fst x) b /\ Forall (fun s => fst x < fst s) rest.
Proof.
  intros Hs. destruct (sorted_split (fst x) _ Hs) as (lo & hi & Hl & Hlo & Hhi).
  destruct Hlo as [|y lo Hy Hlo]; [|injection Hl as <- _; lia].
  cbn [app] in Hl. pose proof (bucket_all (fst x) (x :: l)) as Hb. unfold bucket in *.
  rewrite filter_cons_True in * by done. inversion Hb. injection Hl as Hl.
  eexists _, hi. by split_and!.
Qed.

Lemma bucket_app id b rest :
  Forall (fun s => fst s <> id) b -> bucket id (b ++ rest) = bucket id rest.
Proof. intros Hb%bucket_none. unfold bucket in *. by rewrite filter_app, Hb. Qed.

Lemma buckets_split x b rest (P : list Slot -> Prop) :
  Forall (fun s => fst s = fst x) b -> Forall (fun s => fst x < fst s) rest ->
  bucket (fst x) (x :: b ++ rest) = x :: b ->
  (P (x :: b) /\ forall s, s ∈ rest -> P (bucket (fst s) rest)) <->
  (forall s, s ∈ x :: b ++ rest -> P (bucket (fst s) (x :: b ++ rest))).
Proof.
  intros Hb Hr Hx. rewrite Forall_forall in Hb, Hr.
  assert (Hrest : forall s, s ∈ rest -> bucket (fst s) (x :: b ++ rest) = bucket (fst s) rest).
  { intros s Hs. apply (bucket_app (fst s) (x :: b) rest). specialize (Hr s Hs). cbv beta in Hr.
    constructor; [lia|]. apply Forall_forall. intros y Hy. specialize (Hb y Hy). cbv beta in Hb. lia. }
  split.
  - intros [Hp Hall] s [->|[Hs|Hs]%elem_of_app]%elem_of_cons.
    + by rewrite Hx.
    + rewrite (Hb s Hs). by rewrite Hx.
    + rewrite Hrest by done. by apply Hall.
  - intros Hall. split.
    + rewrite <- Hx. apply Hall, list_elem_of_here.
    + intros s Hs. rewrite <- Hrest by done. apply Hall. set_solver.
Qed.

Lemma validate_index_from_decides fuel pre l :
  StronglySorted key_le l -> slots_valid l -> (length l < fuel)%nat ->
  decides (validate_index_from fuel entries (pre ++ l) stripped (len pre))
    (forall s, s ∈ l -> BucketOk (bucket (fst s) l)) (fun _ => True).
Proof.
  revert pre l. induction fuel as [|fuel IH]; intros pre l Hs Hv Hf; [lia|].
  cbn [validate_index_from]. destruct l as [|x l].
  { rewrite app_nil_r, Z.ltb_irrefl. cbn. split; [|done]. intros s Hx. by apply not_elem_of_nil in Hx. }
  destruct (bucket_cons x l Hs) as (b & rest & -> & Hx & Hb & Hr).
  pose proof (len_nonneg b). pose proof (len_nonneg rest).
  assert (Hlt : len pre < len (pre ++ x :: b ++ rest)) by (rewrite len_app, len_cons, len_app; lia).
  zdecide. pose proof (bucket_end_run (length (pre ++ x :: b ++ rest)) pre x [] b rest Hb Hr) as He.
  cbn [app] in He. rewrite len_nil, Z.add_0_r in He. rewrite He.
  2:{ rewrite length_app. cbn. rewrite length_app. lia. }
  cbn [mbind result_bind]. unfold sub_or_panic, checked_sub. zdecide. cbn [or_panic mbind result_bind].
  replace (len pre + 1 + len b - len pre) with (len (x :: b)) by (rewrite len_cons; lia).
  rewrite index_app_len. cbn [or_panic mbind result_bind].
  replace (slice_get (pre ++ x :: b ++ rest) (len pre) (len pre + 1 + len b)) with (Some (x :: b)).
  2:{ symmetry. rewrite <- (slice_get_app pre (x :: b) rest). cbn [app]. f_equal. rewrite len_cons. lia. }
  cbn [or_panic mbind result_bind]. unfold slots_valid in Hv. rewrite app_comm_cons in Hv.
  apply Forall_app in Hv as [Hvb Hvr].
  eapply decides_iff.
  - eapply decides_bind; [apply decides_ensure|intros _ _ _ _].
    eapply (decides_bind _ _ (stripped = true -> len (x :: b) = 1) _ (fun _ => True)).
    { destruct stripped; cbn [andb]; [|done].
      destruct (Z.eqb_spec (len (x :: b)) 1); cbn [negb]; cbn; [done|]. tauto. }
    intros _ _ _ _. eapply decides_bind; [apply decides_ensure|intros _ _ _ _].
    eapply decides_bind; [by apply check_paths_decides|intros _ _ _ _].
    replace (pre ++ x :: b ++ rest) with ((pre ++ x :: b) ++ rest) by (by rewrite <- app_assoc).
    replace (len pre + 1 + len b) with (len (pre ++ x :: b)) by (rewrite len_app, len_cons; lia).
    apply IH; [|done|].
    + rewrite app_comm_cons in Hs. by apply StronglySorted_app_1_r in Hs.
    + cbn in Hf. rewrite length_app in Hf. lia.
  - rewrite <- (buckets_split x b rest BucketOk) by done. unfold BucketOk. rewrite Z.leb_le.
    split; [intros (?&?&?&[? _]&?); by split_and!|]. intros [(?&?&?&?) ?]. by split_and!.
  - done.
Qed.
End Validate.

Lemma validate_index_decides {C : Crates} entries index stripped :
  IndexOk entries index ->
  decides (validate_index entries index stripped)
    (forall e, e ∈ entries -> GroupOk stripped (same_id (path_hash e) entries) /\
       alloc_ok "identifier collision bucket allocation" (len (same_id (path_hash e) entries)) = true)
    (fun _ => True).
Proof.
  intros Hix. pose proof (validate_index_from_decides entries stripped (S (length index)) [] index
    (ix_sorted _ _ Hix)) as Hd.
  eapply decides_iff; [apply Hd; [|lia]| |done].
  - apply Forall_forall. intros [h i] (e & He & _)%(elem_of_index entries index Hix). by eexists.
  - assert (Heq : forall id, BucketOk entries stripped (bucket id index) <->
      GroupOk stripped (same_id id entries) /\
      alloc_ok "identifier collision bucket allocation" (len (same_id id entries)) = true).
    { intros id. unfold BucketOk, GroupOk. rewrite (bucket_len entries index Hix id).
      assert (NoDup (path_of entries <$> bucket id index) <-> NoDup (path <$> same_id id entries)) as ->.
      { rewrite (bucket_paths entries index Hix id). split; [apply NoDup_fmap_1|].
        apply NoDup_fmap_2, _. }
      tauto. }
    split.
    + intros Hall e [i Hi]%list_elem_of_lookup. rewrite <- Heq.
      apply (Hall (path_hash e, Z.of_nat i)). apply (elem_of_index entries index Hix).
      exists e. split; [|done]. apply index_Some. split; [lia|by rewrite Nat2Z.id].
    + intros Hall [h i] (e & [_ He]%index_Some & <-)%(elem_of_index entries index Hix).
      apply Heq, Hall. by eapply list_elem_of_lookup_2.
Qed.

(** ** Lemmas: lookups *)

Lemma NoDup_fmap_eq {A B} (f : A -> B) l x y :
  NoDup (f <$> l) -> x ∈ l -> y ∈ l -> f x = f y -> x = y.
Proof.
  intros Hnd [i Hi]%list_elem_of_lookup [j Hj]%list_elem_of_lookup Hf.
  assert (i = j) as <-; [|congruence].
  apply (NoDup_lookup (f <$> l) i j (f x)); [done|by rewrite list_lookup_fmap, Hi|].
  by rewrite list_lookup_fmap, Hj, Hf.
Qed.

Lemma elem_of_bucket id h i l : (h, i) ∈ bucket id l <-> h = id /\ (h, i) ∈ l.
Proof. unfold bucket. rewrite list_elem_of_filter. done. Qed.

Lemma index_elem {A} (l : list A) i x : Prelude.index l i = Some x -> x ∈ l.
Proof. intros [_ H]%index_Some. by eapply list_elem_of_lookup_2. Qed.

Section Lookup.
Context {C : Crates} {R : Type} (self : Archive R) (Hwf : IndexWf self).
Let entries := ar_entries self.
Let index := ar_index self.
Let Hix : IndexOk entries index := iw_index _ Hwf.

(** The entry a normalized path denotes: by name, or by identifier when the
    archive stores no names. *)
Definition matches (q : bytes) (e : Entry) : Prop :=
  if ar_paths_stripped self then path_hash e = checksum q else path e = q.

Lemma elem_of_bucket_entries id i :
  (id, i) ∈ bucket id index <-> exists e, Prelude.index entries i = Some e /\ path_hash e = id.
Proof. rewrite elem_of_bucket, (elem_of_index entries index Hix). naive_solver. Qed.

Lemma matches_hash q e : e ∈ entries -> matches q e -> path_hash e = checksum q.
Proof.
  unfold matches. destruct (ar_paths_stripped self) eqn:Hs; [done|].
  intros He <-. by apply (iw_paths _ Hwf).
Qed.

Lemma bucket_nil_iff id : bucket id index = [] <-> forall e, e ∈ entries -> path_hash e <> id.
Proof.
  split.
  - intros Hb e [i He]%list_elem_of_lookup Hh.
    assert ((id, Z.of_nat i) ∈ bucket id index) as Hin; [|rewrite Hb in Hin; by apply not_elem_of_nil in Hin].
    apply elem_of_bucket_entries. exists e. split; [|done]. apply index_Some.
    split; [lia|by rewrite Nat2Z.id].
  - intros Hn. apply bucket_none, Forall_forall. intros [h i] Hin.
    apply (elem_of_index entries index Hix) in Hin as (e & He & <-). apply Hn. by eapply index_elem.
Qed.

(** Of a group, at most one entry matches. *)
Lemma matches_unique q i j e e' :
  Prelude.index entries i = Some e -> Prelude.index entries j = Some e' ->
  matches q e -> matches q e' -> i = j.
Proof.
  intros Hi Hj He He'. pose proof (index_elem _ _ _ Hi) as Hie. pose proof (index_elem _ _ _ Hj) as Hje.
  assert (Hin : (checksum q, i) ∈ bucket (checksum q) index /\ (checksum q, j) ∈ bucket (checksum q) index).
  { rewrite !elem_of_bucket_entries. split; [exists e|exists e']; (split; [done|]); by apply matches_hash. }
  destruct Hin as [Hbi Hbj]. destruct (iw_groups _ Hwf e Hie) as (_ & Hone & Hnd). fold entries in Hone, Hnd.
  rewrite (matches_hash q e Hie He) in Hone, Hnd. unfold matches in He, He'.
  enough ((checksum q, i) = (checksum q, j)) by congruence.
  destruct (ar_paths_stripped self).
  - specialize (Hone eq_refl). rewrite <- (bucket_len entries index Hix) in Hone.
    destruct (bucket (checksum q) index) as [|s [|t b]]; [done| |].
    + apply list_elem_of_singleton in Hbi as ->. by apply list_elem_of_singleton in Hbj as ->.
    + rewrite !len_cons in Hone. pose proof (len_nonneg b). lia.
  - eapply (NoDup_fmap_eq (path_of entries)); [|exact Hbi|exact Hbj|].
    + rewrite (bucket_paths entries index Hix). by apply NoDup_fmap_2; [apply _|].
    + unfold path_of. cbn. rewrite Hi, Hj. cbn. by rewrite He, He'.
Qed.

Lemma find_path_cases b q :
  slots_valid entries b ->
  (exists h i e, find_path entries b q = Ok (Some i) /\ (h, i) ∈ b /\
     Prelude.index entries i = Some e /\ path e = q) \/
  (find_path entries b q = Ok None /\
     forall h i e, (h, i) ∈ b -> Prelude.index entries i = Some e -> path e <> q).
Proof.
  induction 1 as [|[h i] b [e He] Hb IH]; cbn [find_path].
  { right. split; [done|]. intros h i e Hin. by apply not_elem_of_nil in Hin. }
  cbn in He. rewrite He. cbn [or_panic mbind result_bind]. case_bool_decide as Hp.
  { left. exists h, i, e. split_and!; try done. apply list_elem_of_here. }
  destruct IH as [(h' & i' & e' & ? & ? & ? & ?)|[-> Hn]]; [left|right].
  - exists h', i', e'. split_and!; try done. by apply list_elem_of_further.
  - split; [done|]. intros h' i' e' [[= -> ->]|Hin]%elem_of_cons He'; [congruence|by eapply Hn].
Qed.

(** The first slot of a non-empty bucket, and the bucket as a slice. *)
Lemma bucket_slice id lo hi s b :
  index = lo ++ bucket id index ++ hi -> bucket id index = s :: b ->
  Prelude.index index (len lo) = Some s /\
  slice_get index (len lo) (len lo + len (bucket id index)) = Some (bucket id index).
Proof.
  intros Hl Hb. rewrite Hb in *. rewrite Hl. split; [apply index_app_len|apply slice_get_app].
Qed.

Lemma find_normalized_cases q :
  (exists i e, find_entry_index_normalized self q = Ok i /\ Prelude.index entries i = Some e /\
     matches q e) \/
  (find_entry_index_normalized self q = Err (NotFound q) /\ forall e, e ∈ entries -> ~ matches q e).
Proof.
  unfold find_entry_index_normalized.
  destruct (hash_range_run self (checksum q) (ix_sorted _ _ Hix)) as (lo & hi & Hl & ->).
  fold index in Hl |- *. case_bool_decide as Hn.
  { right. cbn. split; [done|]. intros e He Hm. apply (proj1 (bucket_nil_iff (checksum q)) Hn e He).
    by apply matches_hash. }
  destruct (bucket (checksum q) index) as [|[h i] b] eqn:Hb; [done|]. rewrite <- Hb in Hl |- *.
  destruct (bucket_slice _ _ _ _ _ Hl Hb) as [Hfirst Hslice].
  cbn [ok_or mbind result_bind]. fold entries. pose proof matches_hash as Hmh. unfold matches in *.
  destruct (ar_paths_stripped self) eqn:Hs.
  - left. rewrite Hfirst. cbn.
    assert ((h, i) ∈ bucket (checksum q) index) as Hin by (rewrite Hb; apply list_elem_of_here).
    apply elem_of_bucket in Hin as Hh. destruct Hh as [-> _].
    apply elem_of_bucket_entries in Hin as (e & ? & ?). by exists i, e.
  - rewrite Hslice. cbn [or_panic mbind result_bind].
    destruct (find_path_cases (bucket (checksum q) index) q) as [(h' & i' & e & -> & ? & ? & ?)|[-> Hno]].
    + apply Forall_forall. intros [h' i'] Hin. apply elem_of_bucket in Hin as Hh.
      destruct Hh as [-> _]. apply elem_of_bucket_entries in Hin as (e & ? & _). by exists e.
    + left. by exists i', e.
    + right. split; [done|]. intros e He Hp. apply list_elem_of_lookup in He as Hk. destruct Hk as [k Hk].
      assert (Prelude.index entries (Z.of_nat k) = Some e) as Hke
        by (apply index_Some; split; [lia|by rewrite Nat2Z.id]).
      apply (Hno (checksum q) (Z.of_nat k) e); [|done..].
      apply elem_of_bucket_entries. exists e. split; [done|]. by apply (Hmh q e).
Qed.

Lemma find_normalized_iff q i :
  find_entry_index_normalized self q = Ok i <->
  exists e, Prelude.index entries i = Some e /\ matches q e.
Proof.
  destruct (find_normalized_cases q) as [(j & e & -> & Hj & Hm)|[-> Hno]].
  - split; [intros [= <-]; by exists e|]. intros (e' & Hi & Hm'). f_equal.
    by eapply matches_unique.
  - split; [done|]. intros (e & Hi & Hm). apply index_elem in Hi. by destruct (Hno e Hi).
Qed.

Lemma find_by_id_cases id :
  (exists i e, find_entry_index_by_id self id = Ok i /\ Prelude.index entries i = Some e /\
     path_hash e = id /\ len (same_id id entries) = 1) \/
  (find_entry_index_by_id self id = Err (HashCollision id) /\ 2 <= len (same_id id entries)) \/
  (find_entry_index_by_id self id = Err (NotFound (lit "hash:" ++ fmt_hex 16 id)) /\
     same_id id entries = []).
Proof.
  unfold find_entry_index_by_id.
  destruct (hash_range_run self id (ix_sorted _ _ Hix)) as (lo & hi & Hl & ->).
  fold index in Hl |- *. pose proof (bucket_len entries index Hix id) as Hlen.
  case_bool_decide as Hn.
  { right; right. cbn. split; [done|]. rewrite Hn in Hlen. by apply len_0_nil. }
  destruct (bucket id index) as [|[h i] b] eqn:Hb; [done|]. rewrite <- Hb in Hl, Hlen |- *.
  destruct (bucket_slice _ _ _ _ _ Hl Hb) as [Hfirst _].
  cbn [ok_or mbind result_bind]. unfold sub_or_panic, checked_sub.
  pose proof (len_nonneg (bucket id index)). zdecide. cbn [or_panic mbind result_bind].
  replace (len lo + len (bucket id index) - len lo) with (len (same_id id entries)) by lia.
  destruct (Z.eqb_spec (len (same_id id entries)) 1) as [H1|H1]; cbn [negb mbind result_bind].
  - left. rewrite Hfirst. cbn.
    assert ((h, i) ∈ bucket id index) as Hin by (rewrite Hb; apply list_elem_of_here).
    apply elem_of_bucket in Hin as Hh. destruct Hh as [-> _].
    apply elem_of_bucket_entries in Hin as (e & ? & ?). by exists i, e.
  - right; left. split; [done|]. rewrite Hb, len_cons in Hlen. pose proof (len_nonneg b). lia.
Qed.

Lemma lookup_np q id :
  find_entry_index_normalized self q <> Panic /\ find_entry_index_by_id self id <> Panic.
Proof.
  split.
  - by destruct (find_normalized_cases q) as [(?&?&->&_)|[-> _]].
  - by destruct (find_by_id_cases id) as [(?&?&->&_)|[[-> _]|[-> _]]].
Qed.
End Lookup.

Lemma normalize_path_np {C : Crates} p : normalize_path p <> Panic.
Proof. rewrite normalize_value. by repeat case_match. Qed.
#[export] Hint Resolve normalize_path_np : nopanic.

Lemma build_index_Ok {C : Crates} `{!SortSpec C} entries index :
  build_index entries = Ok index -> IndexOk entries index.
Proof.
  unfold build_index, try_reserve. intros H. inv_ok. constructor; [apply sort_sorted|].
  apply sort_permutation.
Qed.

(** ** Properties *)

(** C19 The index of [open] is sorted, holds every entry once under its
    identifier, and passes [validate_index] exactly when no identifier is
    shared by more than 64 entries, none is shared at all when paths are
    stripped, no path occurs twice, and the scratch set can be allocated; the
    nested loops end and never index out of bounds. *)
Theorem validate_index_spec {C : Crates} `{!SortSpec C} entries index stripped :
  build_index entries = Ok index ->
  StronglySorted key_le index /\ index ≡ₚ slots entries /\
  validate_index entries index stripped <> Panic /\
  (validate_index entries index stripped = Ok tt <->
     forall e, e ∈ entries -> GroupOk stripped (same_id (path_hash e) entries) /\
       alloc_ok "identifier collision bucket allocation"
         (len (same_id (path_hash e) entries)) = true).
Proof.
  intros Hb%build_index_Ok. pose proof (validate_index_decides entries index stripped Hb) as Hd.
  split_and!; [apply Hb|apply Hb|by eapply decides_np|by eapply decides_Ok_unit].
Qed.

(** C18 A path lookup finds exactly the entry the path denotes (the name in a
    debug archive, the identifier in a production one), which is unique, and
    reports [NotFound] when there is none; two names with one identifier do
    not confuse it. *)
Theorem find_entry_index_normalized_spec {C : Crates} {R} (self : Archive R) q :
  IndexWf self ->
  (forall i, find_entry_index_normalized self q = Ok i <->
     exists e, Prelude.index (ar_entries self) i = Some e /\
       if ar_paths_stripped self then path_hash e = checksum q else path e = q) /\
  (find_entry_index_normalized self q = Err (NotFound q) <->
     forall e, e ∈ ar_entries self ->
       ~ (if ar_paths_stripped self then path_hash e = checksum q else path e = q)) /\
  find_entry_index_normalized self q <> Panic.
Proof.
  intros Hwf. split_and!; [intros i; by apply find_normalized_iff| |by apply (lookup_np self Hwf q 0)].
  destruct (find_normalized_cases self Hwf q) as [(i & e & -> & Hi & Hm)|[-> Hno]]; [|done].
  split; [done|]. intros Hno. apply index_elem in Hi. by destruct (Hno e Hi).
Qed.

(** A lookup by identifier succeeds exactly when one entry has it; an
    identifier of several entries is a collision, never a wrong asset. *)
Theorem find_entry_index_by_id_spec {C : Crates} {R} (self : Archive R) id :
  IndexWf self ->
  match len (same_id id (ar_entries self)) with
  | 0 => find_entry_index_by_id self id = Err (NotFound (lit "hash:" ++ fmt_hex 16 id)) /\
         contains_id self id = false
  | 1 => exists i e, find_entry_index_by_id self id = Ok i /\
           Prelude.index (ar_entries self) i = Some e /\ path_hash e = id /\
           contains_id self id = true
  | _ => find_entry_index_by_id self id = Err (HashCollision id) /\ contains_id self id = true
  end.
Proof.
  intros Hwf. assert (Hc : contains_id self id = negb (len (same_id id (ar_entries self)) =? 0)).
  { unfold contains_id. destruct (hash_range_run self id (ix_sorted _ _ (iw_index _ Hwf)))
      as (lo & hi & _ & ->).
    rewrite <- (bucket_len _ _ (iw_index _ Hwf)). case_bool_decide as Hn; [by rewrite Hn|].
    destruct (Z.eqb_spec (len (bucket id (ar_index self))) 0) as [Hz|]; [|done].
    by apply len_0_nil in Hz. }
  rewrite Hc. destruct (find_by_id_cases self Hwf id) as [(i&e&?&?&?&Hl)|[[? Hl]|[? Hl]]].
  - rewrite Hl. by exists i, e.
  - revert Hl. destruct (len (same_id id (ar_entries self))) as [|[p|p|]|p]; try done; by split.
  - rewrite Hl. cbn. by split.
Qed.

(** [try_contains] answers whether the normalized path denotes an entry,
    passes on the errors of normalization only, and agrees with [entry];
    [contains] never panics. *)
Theorem try_contains_spec {C : Crates} {R} (self : Archive R) p :
  IndexWf self ->
  match normalize_lookup_path p with
  | Ok q => exists b, try_contains self p = Ok b /\ contains self p = Some b /\
      (b = true <-> exists e, entry self p = Ok e)
  | Err error => try_contains self p = Err error /\ contains self p = Some false /\
      entry self p = Err error
  | Panic => False
  end.
Proof.
  intros Hwf. unfold try_contains, contains, entry. unfold try_contains.
  pose proof (normalize_path_np p) as Hp. unfold normalize_lookup_path.
  destruct (normalize_path p) as [q|e|]; cbn [mbind result_bind]; [|done..].
  destruct (find_normalized_cases self Hwf q) as [(i & e & -> & Hi & Hm)|[-> Hno]]; cbn.
  - exists true. split_and!; [done..|]. split; [|done]. intros _. exists e. by rewrite Hi.
  - exists false. split_and!; [done..|]. split; [done|]. by intros [].
Qed.

(** An archive of two empty assets. *)
Module IndexExample.
Definition entry_of (p : string) (h : Z) (first count : Z) : Entry := {|
  path := lit p; path_hash := h; original_size := 0; stored_size := 0;
  first_chunk := first; chunk_count := count |}.
Definition entries : list Entry :=
  [entry_of "b" (Toy.hash 0 (lit "b")) 0 0; entry_of "a/x" (Toy.hash 0 (lit "a/x")) 0 0].
Definition archive : Archive bytes := {|
  ar_source := []; ar_entries := entries; ar_chunks := []; 
  ar_index := merge_sort key_le (slots entries); ar_chunk_size := 1024; ar_alignment := 16;
  ar_paths_stripped := false; ar_protection := Xor; ar_aead_key := None;
  ar_max_chunks_per_operation := 100 |}.

Lemma archive_wf : IndexWf (C := Toy.crates) archive.
Proof.
  constructor.
  - constructor; [apply (StronglySorted_merge_sort key_le)|apply merge_sort_Permutation].
  - cbn. intros e He. unfold entries in He.
    repeat (apply elem_of_cons in He as [->|He]; [split_and!; vm_compute;
      [congruence|done|repeat constructor; set_solver]|]). by apply not_elem_of_nil in He.
  - cbn. intros e _ He. unfold entries in He.
    repeat (apply elem_of_cons in He as [->|He]; [by vm_compute|]). by apply not_elem_of_nil in He.
Qed.
End IndexExample.

Lemma validate_index_spec_witness :
  validate_index (C := Toy.crates) IndexExample.entries
    (merge_sort key_le (slots IndexExample.entries)) false <> Panic.
Proof.
  apply (validate_index_spec (C := Toy.crates) IndexExample.entries); reflexivity.
Defined.

Lemma find_entry_index_normalized_spec_witness :
  find_entry_index_normalized (C := Toy.crates) IndexExample.archive (lit "a/x") = Ok 1.
Proof.
  apply (find_entry_index_normalized_spec (C := Toy.crates) IndexExample.archive (lit "a/x")).
  - apply IndexExample.archive_wf.
  - eexists. split; reflexivity.
Defined.

Lemma find_entry_index_by_id_spec_witness :
  find_entry_index_by_id IndexExample.archive 5 =
    Err (NotFound (lit "hash:0000000000000005")).
Proof.
  pose proof (find_entry_index_by_id_spec (C := Toy.crates) IndexExample.archive 5 IndexExample.archive_wf) as H.
  replace (len (same_id 5 (ar_entries IndexExample.archive))) with 0 in H by (vm_compute; reflexivity).
  etransitivity; [exact (proj1 H)|]. vm_compute. reflexivity.
Defined.

Lemma try_contains_spec_witness :
  try_contains (C := Toy.crates) IndexExample.archive (lit "../x") = Err InvalidPath.
Proof.
  pose proof (try_contains_spec (C := Toy.crates) IndexExample.archive (lit "../x") IndexExample.archive_wf) as H.
  replace (normalize_lookup_path (C := Toy.crates) (lit "../x")) with (Err InvalidPath : Res bytes) in H
    by (vm_compute; reflexivity).
  exact (proj1 H).
Defined.
