(* ===== verification/Open.v ===== *)
(** * Opening an archive ([Archive::open_with_limits] of [archive/reader.rs])

    The checks from the first header byte to the validated index, and the
    invariant [ArchiveWf] that every opened archive satisfies. *)
From S2P Require Export Source Index.

Section Open.
Context {C : Crates} {R : Type} `{RandomAccessRead R}.

(** [source.read_exact_at(offset, &mut dst)?] on a local buffer. *)
Definition read_block (source : R) (offset : Z) (dst : bytes) : Res bytes :=
  let '(r, dst) := st_map_err Io (read_exact_at source offset) dst in r;; mret dst.

Definition open_with_limits (source : R) (key : bytes) (limits : ArchiveLimits) : Res (Archive R) :=
  ensure (negb (bool_decide (key = []))) EmptyXorKey;;
  let limits := clamped limits in
  header_bytes ← read_block source 0 (replicate (Z.to_nat HEADER_SIZE) x00);
  header ← (read_header header_bytes).1;
  validate_header header;;
  validate_limits header limits;;
  let protection := if negb (Z.land (h_flags header) HEADER_FLAG_AEAD =? 0) then Aead else Xor in
  let aead_key := if bool_decide (protection = Aead) then Some (derive_key key) else None in
  file_len ← map_err Io (source_len source);
  toc_end ← ok_or (checked_add U64_MAX (h_toc_offset header) (h_toc_size header))
              (Corrupt "TOC range overflow");
  ensure ((HEADER_SIZE <=? h_toc_offset header) && (toc_end <=? file_len))
    (Corrupt "TOC outside archive");;
  ensure (is_multiple_of (h_toc_offset header) (h_alignment header)) (Corrupt "TOC is not aligned");;
  toc_len ← u64_to_usize (h_toc_size header) "TOC size";
  try_reserve "stored TOC allocation" toc_len;;
  toc_stored ← read_block source (h_toc_offset header) (replicate (Z.to_nat toc_len) x00);
  toc_stored ← (match aead_key with
                | Some aead_key => decrypt toc_stored aead_key TOC_AAD
                | None => xor_in_place toc_stored key
                end);
  toc_raw_len ← u64_to_usize (h_toc_raw_size header) "raw TOC size";
  toc_plain ← decompress_block_exact toc_stored toc_raw_len "decompressed TOC size mismatch";
  ensure (checksum toc_plain =? h_toc_hash header) (Corrupt "TOC checksum mismatch");;
  let paths_stripped := negb (Z.land (h_flags header) HEADER_FLAG_PATHS_STRIPPED =? 0) in
  '(toc_entries, chunks) ← decode_toc toc_plain (h_entry_count header) (h_chunk_count header)
      paths_stripped (max_path_bytes limits) (max_total_path_bytes limits)
      (max_single_asset_bytes limits);
  validate_layout toc_entries chunks (h_toc_offset header) (h_chunk_size header)
    (h_alignment header) (bool_decide (protection = Aead)) (max_total_decompressed_bytes limits);;
  try_reserve "entry allocation" (len toc_entries);;
  let entries := entry_from <$> toc_entries in
  index ← build_index entries;
  validate_index entries index paths_stripped;;
  mret {| ar_source := source; ar_entries := entries; ar_chunks := chunks; ar_index := index;
          ar_chunk_size := h_chunk_size header; ar_alignment := h_alignment header;
          ar_paths_stripped := paths_stripped; ar_protection := protection;
          ar_aead_key := aead_key;
          ar_max_chunks_per_operation := max_chunks_per_operation limits |}.

Definition open (source : R) (key : bytes) : Res (Archive R) :=
  open_with_limits source key default_limits.
End Open.

(** ** The invariant *)

Definition aead {R} (self : Archive R) : bool := bool_decide (ar_protection self = Aead).

Record ArchiveWf {C : Crates} {R} (self : Archive R) : Prop := {
  aw_index : IndexWf self;
  aw_chunk_size : 1 <= ar_chunk_size self <= MAX_CHUNK_SIZE;
  aw_alignment : exists k, 0 <= k <= 20 /\ ar_alignment self = 2 ^ k;
  aw_key : ar_aead_key self = None <-> ar_protection self = Xor;
  aw_limit : is_u32 (ar_max_chunks_per_operation self);
  aw_chunks : len (ar_chunks self) <= U32_MAX /\ Forall chunk_in_range (ar_chunks self);
  aw_layout : exists es toc_offset max_total,
    ar_entries self = entry_from <$> es /\ Forall entry_in_range es /\ is_u64 toc_offset /\
    LayoutSpec es (ar_chunks self) toc_offset (ar_chunk_size self) (ar_alignment self)
      (aead self) max_total
}.

(** ** Lemmas *)

Lemma Forall_entry_from (P : Entry -> Prop) (es : list TocEntry) :
  Forall (fun e => P (entry_from e)) es -> Forall P (entry_from <$> es).
Proof. intros Hf. by apply Forall_fmap. Qed.

Section OpenLemmas.
Context {C : Crates} {R : Type} `{RandomAccessRead R}.

Lemma read_block_safe `{!SourceSafe R} source offset dst :
  0 <= offset -> safe (read_block source offset dst) (fun d => length d = length dst).
Proof.
  intros Ho. pose proof (read_exact_at_safe source offset dst Ho) as Hs.
  unfold ssafe in Hs. unfold read_block, st_map_err.
  by destruct (read_exact_at source offset dst) as [[[]|e|] d].
Qed.

Lemma protect_np (key : bytes) (aead_key : option bytes) toc :
  key <> [] ->
  (match aead_key with Some k => decrypt toc k TOC_AAD | None => xor_in_place toc key end) <> Panic.
Proof. intros Hk. destruct aead_key; [apply decrypt_np|by rewrite xor_in_place_run]. Qed.

Lemma is_power_of_two_pos a : (exists k, 0 <= k <= 20 /\ a = 2 ^ k) -> 1 <= a.
Proof. intros (k & ? & ->). pose proof (Z.pow_pos_nonneg 2 k). lia. Qed.

Lemma build_index_np entries : build_index entries <> Panic.
Proof. unfold build_index, try_reserve. auto with nopanic. Qed.

(** The first part of [open]: a validated header. *)
Definition header_safe (limits : ArchiveLimits) (h : Header) : Prop :=
  header_in_range h /\ HeaderSpec h /\ WithinLimits h limits.

Lemma header_checks_safe limits header_bytes :
  limits_in_range limits ->
  safe (header ← (read_header header_bytes).1; validate_header header;;
        validate_limits header limits;; mret header) (header_safe limits).
Proof.
  intros Hl. destruct (read_header header_bytes) as [r rest] eqn:E.
  pose proof (read_header_total header_bytes) as Hnp. rewrite E in Hnp.
  destruct r as [h|e|]; cbn; [|done..]. apply read_header_Ok in E as [_ Hr].
  destruct (validate_header_accepts h Hr) as [Hv Hvn].
  pose proof (validate_limits_decides h limits Hr ltac:(apply Hl)) as Hd.
  destruct (validate_header h) as [[]|e|] eqn:Hh; cbn; [|done..].
  apply decides_np in Hd as Hn. apply decides_Ok_unit in Hd.
  destruct (validate_limits h limits) as [[]|e|] eqn:Hlim; cbn; [|done..].
  split_and!; [done|by apply Hv|by apply Hd].
Qed.

(** What [open] guarantees beyond [ArchiveWf]: the caller's limits, of the
    archive and of the header it was opened with (the sizes of its table of
    contents and of its metadata), and the chunks within the source. *)
Record Honours (self : Archive R) (limits : ArchiveLimits) : Prop := {
  ho_entries : len (ar_entries self) <= max_entries limits;
  ho_chunks : len (ar_chunks self) <= max_chunks limits;
  ho_assets : Forall (fun e => original_size e <= max_single_asset_bytes limits) (ar_entries self);
  ho_total : original_total (ar_chunks self) <= max_total_decompressed_bytes limits;
  ho_paths : Forall (fun e => len (path e) <= max_path_bytes limits) (ar_entries self);
  ho_path_total : sum_over (fun e => len (path e)) (ar_entries self) <= max_total_path_bytes limits;
  ho_header : exists header_bytes h,
    read_block (ar_source self) 0 (replicate (Z.to_nat HEADER_SIZE) x00) = Ok header_bytes /\
    (read_header header_bytes).1 = Ok h /\ WithinLimits h limits /\
    h_entry_count h = len (ar_entries self) /\ h_chunk_count h = len (ar_chunks self);
  ho_operation : ar_max_chunks_per_operation self <= max_chunks_per_operation limits;
  ho_source : exists n, source_len (ar_source self) = Ok n /\
    Forall (fun c => c_end c <= n) (ar_chunks self)
}.

Lemma Honours_mono (self : Archive R) k l : limits_le k l -> Honours self k -> Honours self l.
Proof.
  intros Hle [? ? Ha ? Hp ? (hb & h & ? & ? & Hw & ? & ?) ? ?].
  assert (WithinLimits h l) by by eapply WithinLimits_mono.
  destruct Hle as (?&?&?&?&?&?&?&?&?&?). constructor; try lia; try done.
  - eapply Forall_impl; [exact Ha|]. cbv beta. lia.
  - eapply Forall_impl; [exact Hp|]. cbv beta. lia.
  - by exists hb, h.
Qed.

(** The last part of [open]: the layout and the index of a decoded table of
    contents. *)
Lemma index_part_safe `{!SortSpec C} (es : list TocEntry) (stripped : bool) :
  Forall (entry_path_ok stripped) es ->
  safe (try_reserve "entry allocation" (len es);;
        index ← build_index (entry_from <$> es);
        validate_index (entry_from <$> es) index stripped;; mret index)
    (fun index => IndexOk (entry_from <$> es) index /\
       (forall e, e ∈ entry_from <$> es ->
          GroupOk stripped (same_id (path_hash e) (entry_from <$> es))) /\
       (forall e, stripped = false -> e ∈ entry_from <$> es -> path_hash e = checksum (path e))).
Proof.
  intros Hp. unfold try_reserve at 1. eapply safe_bind; [apply safe_ensure|intros _ _ _].
  eapply safe_bind; [apply safe_True, build_index_np|]. intros index Hb%build_index_Ok _.
  pose proof (validate_index_decides _ index stripped Hb) as Hd.
  apply decides_np in Hd as Hn. apply decides_Ok_unit in Hd.
  destruct (validate_index _ index stripped) as [[]|e|]; cbn; [|done..].
  split_and!; [done| |].
  - intros e He. by apply (proj1 Hd eq_refl).
  - intros e -> (te & -> & Ht)%list_elem_of_fmap. rewrite Forall_forall in Hp.
    by destruct (Hp te Ht) as (_ & _ & ?).
Qed.
End OpenLemmas.

Section OpenSafe.
Context {C : Crates} {R : Type} `{RandomAccessRead R} `{!SourceSafe R} `{!DecompressSpec C}
  `{!SortSpec C}.

Lemma open_safe source key limits :
  limits_in_range limits ->
  safe (open_with_limits source key limits)
    (fun a => ArchiveWf a /\ ar_source a = source /\ Honours a (clamped limits)).
Proof.
  intros Hl%clamped_range. unfold open_with_limits. set (l := clamped limits) in *.
  eapply safe_bind; [apply safe_ensure|]. intros [] _ Hkey. cbv beta in Hkey. apply negb_true_iff, bool_decide_eq_false in Hkey.
  cbv zeta. eapply safe_bind; [by apply read_block_safe|]. intros hb Hhb _.
  pose proof (header_checks_safe l hb Hl) as Hh.
  destruct (read_header hb).1 as [h|err|] eqn:Hhd; [|done..]. cbn [mbind result_bind] in Hh |- *.
  destruct (validate_header h) as [[]|e|]; [|done..]. cbn [mbind result_bind] in Hh |- *.
  destruct (validate_limits h l) as [[]|e|]; [|done..]. cbn [mbind result_bind] in Hh |- *.
  destruct Hh as (Hr & Hh & Hw). cbn in Hr, Hh, Hw.
  destruct Hr as (?&?&?&?&Hcz&Hec&Hcc&Hoff&Htoc&Hraw&?). 
  set (protection := if negb (Z.land (h_flags h) HEADER_FLAG_AEAD =? 0) then Aead else Xor).
  set (aead_key := if bool_decide (protection = Aead) then Some (derive_key key) else None).
  eapply safe_bind; [apply safe_map_err, source_len_safe|]. intros file_len Hfl _.
  apply map_err_Ok in Hfl.
  eapply safe_bind; [apply safe_ok_or|]. intros toc_end _ Hend. apply checked_add_Some in Hend as [-> _].
  eapply safe_bind; [apply safe_ensure|]. intros [] _ Hin. inv_ok.
  eapply safe_bind; [apply safe_ensure|]. intros [] _ Hmul.
  eapply safe_bind; [apply safe_ok_or|]. intros toc_len _ Hlen. apply try_from_Some in Hlen as [-> _].
  eapply safe_bind; [apply safe_ensure|]. intros [] _ _.
  eapply safe_bind; [apply read_block_safe, Hoff|]. intros raw_stored _ _.
  eapply safe_bind; [apply safe_True, protect_np, Hkey|]. intros toc_stored _ _.
  eapply safe_bind; [apply safe_ok_or|]. intros raw_len _ Hrl. apply try_from_Some in Hrl as [-> _].
  eapply safe_bind; [apply safe_True, decompress_block_exact_np|]. intros plain Hplain _.
  apply decompress_block_exact_Ok in Hplain; [|by apply Hraw].
  eapply safe_bind; [apply safe_ensure|]. intros [] _ _. fold (stripped h).
  eapply safe_bind; [apply safe_True, decode_toc_total|]. intros [es cs] Hdec _.
  pose proof (decode_toc_Ok _ _ _ _ _ _ _ _ _ Hdec) as Hd.
  destruct Hd as [raws Hth]; [apply Hec|apply Hcc|apply Hl|unfold in_range, USIZE_MAX in *; lia|].
  destruct (toc_holds_paths _ _ _ _ _ _ _ _ _ _ Hth) as (Hep & Hpl & Hpt).
  destruct Hth as [_ Hes Hcs Her Hcr Hms _ _].
  pose proof (is_power_of_two_pos _ (hs_alignment _ Hh)) as Hal.
  pose proof (validate_layout_decides es cs (h_toc_offset h) (h_chunk_size h) (h_alignment h)
    (bool_decide (protection = Aead)) (max_total_decompressed_bytes l) ltac:(done) ltac:(done) Hal
    ltac:(apply Hl) Her Hcr ltac:(rewrite Hcs; apply Hcc)) as Hdl.
  apply decides_np in Hdl as Hln. apply decides_Ok_unit in Hdl.
  eapply safe_bind; [by apply safe_True|]. intros [] Hlay _. apply Hdl in Hlay as [Hlay _].
  pose proof (index_part_safe es (stripped h) Hep) as Hip.
  unfold try_reserve in Hip |- *. destruct (alloc_ok "entry allocation" (len es)); cbn [ensure mbind result_bind] in Hip |- *; [|done].
  destruct (build_index (entry_from <$> es)) as [index|e|]; cbn [mbind result_bind] in Hip |- *; [|done..].
  destruct (validate_index (entry_from <$> es) index (stripped h)) as [[]|e|];
    cbn [mbind result_bind] in Hip |- *; [|done..].
  destruct Hip as (Hix & Hgr & Hph). apply safe_ret. split_and!; [|done|].
  - constructor; cbn.
    + constructor; done.
    + apply Hh.
    + apply Hh.
    + unfold aead_key. destruct protection; cbn; naive_solver.
    + apply Hl.
    + rewrite Hcs. split; [apply Hcc|done].
    + exists es, (h_toc_offset h), (max_total_decompressed_bytes l). done.
  - constructor; cbn.
    + unfold len in *. rewrite length_fmap, Hes. apply Hw.
    + rewrite Hcs. apply Hw.
    + by apply Forall_entry_from.
    + apply Hlay.
    + by apply Forall_entry_from.
    + by rewrite sum_over_fmap.
    + exists hb, h. unfold len in *. by rewrite length_fmap.
    + apply Z.le_refl.
    + exists file_len. split; [done|]. eapply Forall_impl; [apply Hlay|]. intros c [? ? ? ? ? Hce].
      destruct Htoc. lia.
Qed.
End OpenSafe.

(** ** Properties *)

(** C1 Opening never panics, whatever the bytes of the source, the key and the
    limits; an archive it returns satisfies the invariant [ArchiveWf] (a valid
    layout, a sorted and complete index) and stays within the caller's limits
    and the hard limits, and its chunks lie within the source. *)
Theorem open_with_limits_safe {C : Crates} `{RandomAccessRead R} `{!SourceSafe R}
    `{!DecompressSpec C} `{!SortSpec C} source key limits :
  limits_in_range limits ->
  open_with_limits source key limits <> Panic /\
  forall a, open_with_limits source key limits = Ok a ->
    ArchiveWf a /\ ar_source a = source /\ Honours a limits /\ Honours a tooling_default.
Proof.
  intros Hl. pose proof (open_safe source key limits Hl) as Hs.
  split; [by eapply safe_not_Panic|]. intros a Ha.
  destruct (safe_Ok _ _ _ Hs Ha) as (Hwf & Hsrc & Hho).
  split_and!; [done|done| |]; (eapply Honours_mono; [|exact Hho]); apply clamped_le.
Qed.

(** A two-chunk archive, built by hand. *)
Module Sample.
Definition toc_entry : TocEntry := {|
  te_path := lit "a/b"; te_path_hash := Toy.hash 0 (lit "a/b"); te_original_size := 5;
  te_stored_size := 5; te_first_chunk := 0; te_chunk_count := 2 |}.
Definition chunk0 : Chunk := {|
  c_offset := 64; c_stored_size := 4; c_original_size := 4; c_checksum := Toy.hash 0 (lit "hell");
  c_compressed := false |}.
Definition chunk1 : Chunk := {|
  c_offset := 80; c_stored_size := 1; c_original_size := 1; c_checksum := Toy.hash 0 (lit "o");
  c_compressed := false |}.
Definition toc : bytes := toc_bytes [toc_entry] [chunk0; chunk1].
Definition stored_toc : bytes := xored (lit "k") 0 (Toy.pack toc).
Definition header : Header := {|
  h_version := 1; h_flags := 15; h_header_size := 60; h_alignment := 16; h_chunk_size := 4;
  h_entry_count := 1; h_chunk_count := 2; h_toc_offset := 96; h_toc_size := len stored_toc;
  h_toc_raw_size := len toc; h_toc_hash := Toy.hash 0 toc |}.
Definition zeros (n : nat) : bytes := replicate n x00.
Definition bytes_ : bytes :=
  header_bytes header ++ zeros 4 ++ lit "hell" ++ zeros 12 ++ lit "o" ++ zeros 15 ++ stored_toc.
Definition opened : Res (Archive bytes) :=
  open_with_limits (C := Toy.crates) bytes_ (lit "k") default_limits.
Definition archive : Archive bytes := {|
  ar_source := bytes_;
  ar_entries := [entry_from toc_entry];
  ar_chunks := [chunk0; chunk1];
  ar_index := [(Toy.hash 0 (lit "a/b"), 0)];
  ar_chunk_size := 4; ar_alignment := 16; ar_paths_stripped := false; ar_protection := Xor;
  ar_aead_key := None; ar_max_chunks_per_operation := 65536
|}.

Lemma opened_ok : opened = Ok archive.
Proof. vm_compute. reflexivity. Qed.

Lemma sample_wf : ArchiveWf (C := Toy.crates) archive.
Proof.
  refine (proj1 (safe_Ok _ _ _ (open_safe (C := Toy.crates) bytes_ (lit "k") default_limits _) opened_ok)).
  vm_compute. intuition congruence.
Qed.
End Sample.

Lemma open_with_limits_safe_witness :
  ArchiveWf (C := Toy.crates) Sample.archive /\ Honours Sample.archive default_limits.
Proof.
  destruct (open_with_limits_safe (C := Toy.crates) Sample.bytes_ (lit "k") default_limits) as [_ H].
  - vm_compute. intuition congruence.
  - destruct (H Sample.archive Sample.opened_ok) as (? & _ & ? & _). by split.
Defined.
