(* ===== verification/Reader.v ===== *)
(** * Reading chunks and assets ([archive/reader.rs])

    [read_chunk_by_index_into], [read_entry_into], [verify] and the methods
    built on them.  A method that writes into [&mut] buffers returns their new
    contents on every outcome.  [chunk_content] and [entry_content] say what
    an archive holds, as functions of the bytes of its source. *)
From S2P Require Export Open.

(** [ArchiveScratch], and [ArchiveScratch::default()]. *)
Record ArchiveScratch := { stored : bytes; decoded : bytes }.
Definition empty_scratch : ArchiveScratch := {| stored := []; decoded := [] |}.

Inductive ChecksumLabel :=
  | LabelPath (path : bytes)
  | LabelHash (id : AssetId).

Definition to_error_string (self : ChecksumLabel) : bytes :=
  match self with
  | LabelPath path => path
  | LabelHash id => lit "hash:" ++ fmt_hex 16 id
  end.

(** ** Buffers as parts of the state *)

(** A call on the sub-slice [a..b] of the buffer, which [get_mut(a..b)] gave;
    [None]: the slice does not exist. *)
Definition on_slice {E A} (a b : Z) (none : Result E A) (m : ST E bytes A) : ST E bytes A := fun buf =>
  match slice_get buf a b with
  | Some s => let '(r, s') := m s in (r, splice buf a s')
  | None => (none, buf)
  end.

Section Reader.
Context {C : Crates} {R : Type} `{RandomAccessRead R}.
Implicit Type self : Archive R.

Definition allocate (n : Z) (what : string) : Res bytes :=
  try_reserve what n;;
  mret (replicate (Z.to_nat n) x00).

(** [Vec::try_reserve_exact] and [Vec::resize]. *)
Definition resize_buffer (n : Z) (what : string) : ST Error bytes unit :=
  buffer ← get;
  lift (try_reserve what (saturating_sub n (len buffer)));;
  put (resize (Z.to_nat n) x00 buffer).

Definition ensure_chunk_operation_limit self (count : Z) : Res unit :=
  ensure (count <=? ar_max_chunks_per_operation self) TooManyChunks.

Definition chunk self (global_chunk : Z) : Res Chunk :=
  i ← ok_or (try_from USIZE_MAX global_chunk) (TooLarge "chunk index");
  ok_or (Prelude.index (ar_chunks self) i) (Corrupt "chunk index outside TOC").

(** The arm of [read_chunk_by_index_into] for a chunk that is encrypted or
    compressed: through the scratch buffer.  The state is [dst] and [stored]. *)
Definition read_stored_chunk self (chunk : Chunk) (global_chunk : Z) : ST Error (bytes * bytes) unit :=
  stored_len ← lift (u64_to_usize (c_stored_size chunk) "stored chunk size");
  on_snd (resize_buffer stored_len "stored chunk allocation");;
  on_snd (on_slice 0 stored_len Panic
            (st_map_err Io (read_exact_at (ar_source self) (c_offset chunk))));;
  '(_, stored) ← get;
  stored_slice ← lift (or_panic (slice_get stored 0 stored_len));
  plain ← lift (match ar_aead_key self with
                | Some key => decrypt stored_slice key (chunk_aad global_chunk)
                | None => Ok stored_slice
                end);
  if c_compressed chunk then
    on_fst (decompress_into_exact plain "decompressed chunk size mismatch")
  else
    '(dst, _) ← get;
    lift (ensure (len plain =? len dst) (Corrupt "decrypted chunk size mismatch"));;
    on_fst (copy_from_slice plain).

(** The state is [dst] and [stored]. *)
Definition read_chunk_by_index_into self (label : ChecksumLabel) (local_chunk global_chunk : Z) :
    ST Error (bytes * bytes) unit :=
  lift (ensure_chunk_operation_limit self 1);;
  chunk ← lift (chunk self global_chunk);
  original_len ← lift (u64_to_usize (c_original_size chunk) "original chunk size");
  '(dst, _) ← get;
  lift (if negb (len dst =? original_len) then Err (BufferSizeMismatch original_len (len dst))
        else Ok tt);;
  (match ar_aead_key self, c_compressed chunk with
   | None, false => on_fst (st_map_err Io (read_exact_at (ar_source self) (c_offset chunk)))
   | _, _ => read_stored_chunk self chunk global_chunk
   end);;
  '(dst, _) ← get;
  lift (ensure (checksum dst =? c_checksum chunk)
          (ChecksumMismatch (to_error_string label) local_chunk));;
  mret tt.

(** The loop of [read_entry_into] over [local_chunk..chunk_count]; the state is
    [dst] and [scratch.stored]. *)
Fixpoint read_chunks_into self (label : ChecksumLabel) (first_chunk : Z) (count : nat)
    (local_chunk written : Z) : ST Error (bytes * bytes) Z :=
  match count with
  | O => mret written
  | S count =>
      global_chunk ← lift (ok_or (checked_add U32_MAX first_chunk local_chunk)
                             (Corrupt "chunk index overflow"));
      chunk ← lift (chunk self global_chunk);
      n ← lift (u64_to_usize (c_original_size chunk) "original chunk size");
      end_ ← lift (ok_or (checked_add USIZE_MAX written n)
                     (Corrupt "entry decompressed size overflow"));
      (fun '(dst, stored) =>
         match slice_get dst written end_ with
         | Some chunk_dst =>
             let '(r, (chunk_dst, stored)) :=
               read_chunk_by_index_into self label local_chunk global_chunk (chunk_dst, stored) in
             (r, (splice dst written chunk_dst, stored))
         | None => (Err (Corrupt "entry decompressed size mismatch"), (dst, stored))
         end);;
      read_chunks_into self label first_chunk count (local_chunk + 1) end_
  end.

(** The state is [dst] and [scratch]. *)
Definition read_entry_into self (idx : Z) (label : ChecksumLabel) :
    ST Error (bytes * ArchiveScratch) unit :=
  entry ← lift (ok_or (Prelude.index (ar_entries self) idx) (Corrupt "entry index outside TOC"));
  lift (ensure_chunk_operation_limit self (chunk_count entry));;
  expected ← lift (u64_to_usize (original_size entry) "original entry size");
  '(dst, _) ← get;
  lift (if negb (len dst =? expected) then Err (BufferSizeMismatch expected (len dst)) else Ok tt);;
  written ← zoom (fun '(dst, scratch) => (dst, stored scratch))
              (fun '(dst, s) '(_, scratch) => (dst, {| stored := s; decoded := decoded scratch |}))
              (read_chunks_into self label (first_chunk entry) (Z.to_nat (chunk_count entry)) 0 0);
  '(dst, _) ← get;
  lift (if negb (written =? len dst) then Err (Corrupt "entry decompressed size mismatch")
        else Ok tt).

(** ** Whole assets *)

(** [self.entries[idx]] *)
Definition entry_at self (idx : Z) : Res Entry := or_panic (Prelude.index (ar_entries self) idx).

(** The common tail of [read] and [read_by_id]: a new buffer and a new scratch. *)
Definition read_new self (idx : Z) (label : ChecksumLabel) : Res bytes :=
  entry ← entry_at self idx;
  ensure_chunk_operation_limit self (chunk_count entry);;
  size ← u64_to_usize (original_size entry) "original entry size";
  out ← allocate size "entry allocation";
  let '(r, (out, _)) := read_entry_into self idx label (out, empty_scratch) in
  r;; mret out.

Definition read self (p : bytes) : Res bytes :=
  normalized ← normalize_lookup_path p;
  idx ← find_entry_index_normalized self normalized;
  read_new self idx (LabelPath normalized).

Definition read_by_id self (asset_id : AssetId) : Res bytes :=
  idx ← find_entry_index_by_id self asset_id;
  entry ← entry_at self idx;
  read_new self idx (if ar_paths_stripped self then LabelHash asset_id else LabelPath (path entry)).

Definition read_by_hash self (path_hash : Z) : Res bytes := read_by_id self path_hash.

(** The state is [dst] and [scratch]. *)
Definition read_into_with_scratch self (p : bytes) : ST Error (bytes * ArchiveScratch) unit :=
  normalized ← lift (normalize_lookup_path p);
  idx ← lift (find_entry_index_normalized self normalized);
  read_entry_into self idx (LabelPath normalized).

Definition read_into self (p : bytes) : ST Error bytes unit := fun dst =>
  let '(r, (dst, _)) := read_into_with_scratch self p (dst, empty_scratch) in (r, dst).

(** ** Single chunks *)

(** The bounds check that [read_chunk] and [read_chunk_into] share. *)
Definition locate_chunk self (p : bytes) (chunk_index : Z) : Res (bytes * Z) :=
  normalized ← normalize_lookup_path p;
  idx ← find_entry_index_normalized self normalized;
  entry ← entry_at self idx;
  (if chunk_count entry <=? chunk_index then Err (ChunkOutOfRange chunk_index (chunk_count entry))
   else Ok tt);;
  global_chunk ← ok_or (checked_add U32_MAX (first_chunk entry) chunk_index)
                   (Corrupt "chunk index overflow");
  mret (normalized, global_chunk).

Definition read_chunk self (p : bytes) (chunk_index : Z) : Res bytes :=
  '(normalized, global_chunk) ← locate_chunk self p chunk_index;
  ensure_chunk_operation_limit self 1;;
  chunk ← chunk self global_chunk;
  n ← u64_to_usize (c_original_size chunk) "original chunk size";
  out ← allocate n "chunk allocation";
  let '(r, (out, _)) :=
    read_chunk_by_index_into self (LabelPath normalized) chunk_index global_chunk (out, []) in
  r;; mret out.

Definition read_chunk_into_with_scratch self (p : bytes) (chunk_index : Z) :
    ST Error (bytes * ArchiveScratch) unit :=
  '(normalized, global_chunk) ← lift (locate_chunk self p chunk_index);
  zoom (fun '(dst, scratch) => (dst, stored scratch))
    (fun '(dst, s) '(_, scratch) => (dst, {| stored := s; decoded := decoded scratch |}))
    (read_chunk_by_index_into self (LabelPath normalized) chunk_index global_chunk).

Definition read_chunk_into self (p : bytes) (chunk_index : Z) : ST Error bytes unit := fun dst =>
  let '(r, (dst, _)) := read_chunk_into_with_scratch self p chunk_index (dst, empty_scratch) in
  (r, dst).

(** ** [verify] *)

(** The inner loop over the chunks of an entry; the state is the scratch. *)
Fixpoint verify_chunks self (label : ChecksumLabel) (first_chunk : Z) (count : nat)
    (local_chunk : Z) : ST Error ArchiveScratch unit :=
  match count with
  | O => mret tt
  | S count =>
      global_chunk ← lift (ok_or (checked_add U32_MAX first_chunk local_chunk)
                             (Corrupt "chunk index overflow"));
      chunk ← lift (chunk self global_chunk);
      n ← lift (u64_to_usize (c_original_size chunk) "original chunk size");
      zoom decoded (fun d scratch => {| stored := stored scratch; decoded := d |})
        (resize_buffer n "decoded chunk allocation");;
      zoom (fun scratch => (decoded scratch, stored scratch))
        (fun '(d, s) _ => {| stored := s; decoded := d |})
        (read_chunk_by_index_into self label local_chunk global_chunk);;
      verify_chunks self label first_chunk count (local_chunk + 1)
  end.

Fixpoint verify_entries self (entries : list Entry) : ST Error ArchiveScratch unit :=
  match entries with
  | [] => mret tt
  | entry :: entries =>
      let label := if ar_paths_stripped self then LabelHash (path_hash entry)
                   else LabelPath (path entry) in
      verify_chunks self label (first_chunk entry) (Z.to_nat (chunk_count entry)) 0;;
      verify_entries self entries
  end.

Definition verify self : Res unit :=
  count ← ok_or (try_from U32_MAX (len (ar_chunks self))) TooManyChunks;
  ensure_chunk_operation_limit self count;;
  (verify_entries self (ar_entries self) empty_scratch).1.
End Reader.

(** ** What an archive holds *)

Definition to_option {E A} (r : Result E A) : option A :=
  match r with Ok a => Some a | _ => None end.

Section Content.
Context {C : Crates}.

(** The bytes of a chunk from its stored form: decrypted, decompressed and
    checked. *)
Definition decode_stored (key : option bytes) (c : Chunk) (g : Z) (s : bytes) : option bytes :=
  plain ← match key with
          | Some key => to_option (decrypt s key (chunk_aad g))
          | None => Some s
          end;
  out ← (if c_compressed c then
           match decompress_into_exact plain "" (replicate (Z.to_nat (c_original_size c)) x00) with
           | (Ok _, out) => Some out
           | _ => None
           end
         else if len plain =? c_original_size c then Some plain else None);
  if checksum out =? c_checksum c then Some out else None.

Definition chunk_content {R} (self : Archive R) (content : bytes) (g : Z) : option bytes :=
  c ← Prelude.index (ar_chunks self) g;
  s ← slice_get content (c_offset c) (c_end c);
  decode_stored (ar_aead_key self) c g s.

(** The chunks [first + local ..] of an asset, [count] of them, one after the
    other. *)
Fixpoint chunks_content {R} (self : Archive R) (content : bytes) (g : Z) (count : nat) :
    option bytes :=
  match count with
  | O => Some []
  | S count =>
      s ← chunk_content self content g;
      rest ← chunks_content self content (g + 1) count;
      Some (s ++ rest)
  end.

Definition entry_content {R} (self : Archive R) (content : bytes) (e : Entry) : option bytes :=
  chunks_content self content (first_chunk e) (Z.to_nat (chunk_count e)).
End Content.

(** ** Lemmas: what the invariant says of chunks and entries *)

Section Facts.
Context {C : Crates} {R : Type} (self : Archive R) (Hwf : ArchiveWf self).

Lemma chunk_facts g c :
  Prelude.index (ar_chunks self) g = Some c ->
  chunk_in_range c /\ 0 <= c_offset c /\ 1 <= c_original_size c <= ar_chunk_size self /\
  1 <= c_stored_size c /\
  (ar_aead_key self = None -> c_compressed c = false -> c_stored_size c = c_original_size c).
Proof.
  intros Hg%index_elem. destruct (aw_layout _ Hwf) as (es & toc & mt & _ & _ & _ & Hlay).
  destruct (aw_chunks _ Hwf) as [_ Hr]. rewrite Forall_forall in Hr.
  pose proof (ls_chunks _ _ _ _ _ _ _ Hlay) as Hck. rewrite Forall_forall in Hck.
  destruct (Hck c Hg) as [? Hp Hc ? ? ?]. pose proof (Hr c Hg) as Hcr.
  destruct (Hr c Hg) as ([? _]&_&_&_). split_and!; try (done || lia).
  - unfold payload_size, AEAD_OVERHEAD in Hp. destruct (aead self); lia.
  - intros Hk Hcomp. apply (aw_key _ Hwf) in Hk. assert (aead self = false) as Ha.
    { unfold aead. rewrite Hk. by apply bool_decide_eq_false. }
    unfold payload_size in *. rewrite Ha in *. rewrite Hcomp in Hc.
    enough (~ c_stored_size c < c_original_size c) by lia. by intros ?%Hc.
Qed.

Lemma chunk_run g :
  0 <= g <= U32_MAX ->
  chunk self g = match Prelude.index (ar_chunks self) g with
                 | Some c => Ok c
                 | None => Err (Corrupt "chunk index outside TOC")
                 end.
Proof.
  intros Hg. unfold chunk, try_from. unfold U32_MAX, USIZE_MAX, U64_MAX in *. zdecide. cbn.
  by destruct (Prelude.index _ _).
Qed.

(** The chunks of an entry. *)
Definition owned (e : Entry) : list Chunk :=
  take (Z.to_nat (chunk_count e)) (drop (Z.to_nat (first_chunk e)) (ar_chunks self)).

Record EntryFacts (e : Entry) : Prop := {
  ef_first : is_u32 (first_chunk e);
  ef_count : is_u32 (chunk_count e);
  ef_size : is_u64 (original_size e);
  ef_range : first_chunk e + chunk_count e <= len (ar_chunks self);
  ef_original : original_total (owned e) = original_size e;
  ef_full : full_but_last (ar_chunk_size self) (owned e)
}.

Lemma entry_facts e : e ∈ ar_entries self -> EntryFacts e.
Proof.
  destruct (aw_layout _ Hwf) as (es & toc & mt & Hes & Hr & _ & Hlay). rewrite Hes.
  intros (te & -> & Hin)%list_elem_of_fmap. rewrite Forall_forall in Hr.
  destruct (Hr te Hin) as (_&Hs&_&Hf&Hc). pose proof (ls_entries _ _ _ _ _ _ _ Hlay) as He.
  rewrite Forall_forall in He. destruct (He te Hin) as [? ? ? ? ?]. by constructor.
Qed.

Lemma owned_lookup e i :
  EntryFacts e -> 0 <= i < chunk_count e ->
  Prelude.index (ar_chunks self) (first_chunk e + i) = owned e !! Z.to_nat i.
Proof.
  intros [[? _] _ _ ? _ _] Hi. unfold Prelude.index, owned. zdecide.
  rewrite lookup_take_lt, lookup_drop by lia. f_equal. lia.
Qed.
End Facts.

(** ** Lemmas: reading one chunk *)

Section ReadChunk.
Context {C : Crates} {R : Type} `{RandomAccessRead R} (self : Archive R) (Hwf : ArchiveWf self).

(** The source gave [s] for the range. *)
Definition source_gave (offset : Z) (n : Z) (s : bytes) : Prop :=
  exists d, len d = n /\ read_exact_at (ar_source self) offset d = (Ok tt, s).

(** Chunk [g] was read as [out]. *)
Definition ChunkRead (g : Z) (out : bytes) : Prop :=
  exists c s, Prelude.index (ar_chunks self) g = Some c /\
    source_gave (c_offset c) (c_stored_size c) s /\
    len out = c_original_size c /\ decode_stored (ar_aead_key self) c g s = Some out.

Lemma splice_all {A} (l s : list A) : length s = length l -> splice l 0 s = s.
Proof.
  intros Hl. unfold splice. change (Z.to_nat 0) with 0%nat. rewrite take_0, drop_ge by lia.
  by rewrite app_nil_r.
Qed.

Lemma slice_get_to {A} (l : list A) n : n = len l -> slice_get l 0 n = Some l.
Proof. intros ->. apply slice_get_all. Qed.

(** Fetching the stored bytes into the scratch buffer. *)
Lemma fetch_stored {B} `{!SourceSafe R} offset n dst st (f : unit -> ST Error (bytes * bytes) B) Q X :
  0 <= offset -> 0 <= n -> (forall s, X (dst, s)) ->
  (forall s, len s = n -> source_gave offset n s -> ssafe (f tt) (dst, s) Q X) ->
  ssafe (on_snd (resize_buffer n "stored chunk allocation");;
         (on_snd (on_slice 0 n Panic (st_map_err Io (read_exact_at (ar_source self) offset))) ≫= f))
    (dst, st) Q X.
Proof.
  intros Ho Hn HX Hf. eapply (ssafe_bind _ _ _ (fun _ p => p = (dst, resize (Z.to_nat n) x00 st))).
  { apply ssafe_zoom. cbn. unfold resize_buffer. apply ssafe_get_bind.
    eapply ssafe_lift_bind; [apply safe_ensure|apply HX|]. by intros [] _ _. }
  intros [] _ _ ->. eapply (ssafe_bind _ _ _ (fun _ p => exists s, p = (dst, s) /\ len s = n /\
    source_gave offset n s)); [|intros [] p _ (s & -> & ? & ?); by apply Hf].
  apply ssafe_zoom. cbn.
  assert (Hl : len (resize (Z.to_nat n) x00 st) = n) by (unfold len; rewrite length_resize; lia).
  unfold ssafe, on_slice. rewrite slice_get_to by done. unfold st_map_err.
  pose proof (read_exact_at_safe (ar_source self) offset (resize (Z.to_nat n) x00 st) Ho) as Hs.
  unfold ssafe in Hs. destruct (read_exact_at _ _ _) as [[[]|e|] s] eqn:E; cbn; [|apply HX|done].
  rewrite splice_all by done. exists s. split_and!; [done|unfold len in *; lia|].
  by exists (resize (Z.to_nat n) x00 st).
Qed.

Lemma decompress_spec_run `{!DecompressSpec C} plain what dst :
  ssafe (decompress_into_exact plain what) dst
    (fun _ out => length out = length dst /\
       decompress_into_exact plain "" (replicate (length dst) x00) = (Ok tt, out))
    (fun out => length out = length dst).
Proof.
  pose proof (decompress_into_exact_safe plain what dst) as Hs.
  pose proof (decompress_into_exact_determined plain "" dst (replicate (length dst) x00)) as [Hr Hd];
    [by rewrite length_replicate|].
  assert (Hw : (decompress_into_exact plain what dst).2 = (decompress_into_exact plain "" dst).2 /\
    ((decompress_into_exact plain what dst).1 = Ok tt ->
     (decompress_into_exact plain "" dst).1 = Ok tt)).
  { unfold decompress_into_exact, st_map_err, get, lift, mbind, st_bind, mret, st_ret.
    destruct (lz4_decompress_into plain dst) as [[n|e|] o]; cbn; [|done..].
    by destruct (negb _). }
  unfold ssafe in *. destruct (decompress_into_exact plain what dst) as [[[]|e|] out]; cbn in Hw; [|done..].
  split; [done|]. destruct Hw as [-> Hw]. specialize (Hw eq_refl). rewrite Hw in Hr, Hd.
  rewrite (Hd eq_refl). by destruct (decompress_into_exact plain "" (replicate (length dst) x00)) as [r o];
    cbn in Hr |- *; rewrite <- Hr.
Qed.

(** What a chunk read leaves: the right size, and bytes that are the chunk's
    if their checksum is. *)
Definition fetched (c : Chunk) (g : Z) (dst : bytes) (s : bytes * bytes) : Prop :=
  length s.1 = length dst /\ exists stored,
    source_gave (c_offset c) (c_stored_size c) stored /\
    (checksum s.1 = c_checksum c -> decode_stored (ar_aead_key self) c g stored = Some s.1).

Lemma decode_stored_plain c g s plain :
  (match ar_aead_key self with
   | Some key => decrypt s key (chunk_aad g)
   | None => Ok s
   end) = Ok plain ->
  decode_stored (ar_aead_key self) c g s =
    (out ← (if c_compressed c then
         match decompress_into_exact plain "" (replicate (Z.to_nat (c_original_size c)) x00) with
         | (Ok _, out) => Some out
         | _ => None
         end
       else if len plain =? c_original_size c then Some plain else None);
     if checksum out =? c_checksum c then Some out else None).
Proof.
  intros Hp. unfold decode_stored. destruct (ar_aead_key self); [by rewrite Hp|by injection Hp as ->].
Qed.

Lemma read_stored_chunk_safe `{!SourceSafe R} `{!DecompressSpec C} c g dst st :
  0 <= c_offset c -> 1 <= c_stored_size c -> len dst = c_original_size c ->
  ssafe (read_stored_chunk self c g) (dst, st) (fun _ => fetched c g dst)
    (fun s => length s.1 = length dst).
Proof.
  intros Ho Hst Hl. unfold read_stored_chunk.
  eapply ssafe_lift_bind; [apply safe_ok_or|done|]. intros n _ Hn.
  apply try_from_Some in Hn as [-> _]. apply fetch_stored; [lia|lia|done|]. intros s Hs Hgave.
  apply ssafe_get_bind. rewrite slice_get_to by done. apply ssafe_lift_Ok.
  eapply (ssafe_lift_bind _ _ _ (fun _ => True)); [apply safe_True|done|].
  { destruct (ar_aead_key self); [apply decrypt_np|done]. }
  intros plain Hplain _. pose proof (decode_stored_plain c g s plain Hplain) as Hdec.
  assert (Hdl : Z.to_nat (c_original_size c) = length dst) by (unfold len in Hl; lia).
  rewrite Hdl in Hdec. destruct (c_compressed c).
  - apply ssafe_zoom. eapply ssafe_mono; [apply decompress_spec_run| |]; cbn; [|done].
    intros [] out _ [Hlen Hrun]. split; [done|]. exists s. split; [done|]. cbn. intros Hsum.
    rewrite Hdec, Hrun. cbn. by rewrite Hsum, Z.eqb_refl.
  - apply ssafe_get_bind. eapply ssafe_lift_bind; [apply safe_ensure|done|]. intros [] _ Hpl.
    cbv beta in Hpl. apply ssafe_zoom. unfold ssafe. cbn.
    rewrite copy_from_slice_run by (apply Z.eqb_eq in Hpl; unfold len in Hpl; lia). cbn.
    split; [apply Z.eqb_eq in Hpl; unfold len in Hpl; cbn; lia|]. exists s. split; [done|]. cbn.
    intros Hsum. rewrite Hdec, <- Hl, Hpl. cbn. by rewrite Hsum, Z.eqb_refl.
Qed.

Lemma read_chunk_safe `{!SourceSafe R} `{!DecompressSpec C} label local g dst st :
  0 <= g <= U32_MAX ->
  ssafe (read_chunk_by_index_into self label local g) (dst, st)
    (fun _ s => length s.1 = length dst /\ ChunkRead g s.1) (fun s => length s.1 = length dst).
Proof.
  intros Hg. unfold read_chunk_by_index_into.
  eapply ssafe_lift_bind; [apply safe_ensure|done|intros [] _ _].
  rewrite chunk_run by done. destruct (Prelude.index (ar_chunks self) g) as [c|] eqn:Hc; [|done].
  destruct (chunk_facts self Hwf g c Hc) as ((?&Hss&Hos&?)&Ho&Hsz&Hst&Hraw).
  apply ssafe_lift_Ok.
  eapply ssafe_lift_bind; [apply safe_ok_or|done|]. intros n _ Hn. apply try_from_Some in Hn as [-> _].
  apply ssafe_get_bind. destruct (Z.eqb_spec (len dst) (c_original_size c)) as [Hl|]; [|done].
  apply ssafe_lift_Ok.
  eapply (ssafe_bind _ _ _ (fun _ => fetched c g dst)).
  2:{ intros [] [d s] _ (Hd & stored & Hgave & Hdec). cbn in *. apply ssafe_get_bind.
      eapply ssafe_lift_bind; [apply safe_ensure|done|]. intros [] _ Hsum. apply Z.eqb_eq in Hsum.
      apply ssafe_ret. cbn. split; [done|]. exists c, stored. split_and!; try done; [|by apply Hdec].
      unfold len in *. lia. }
  destruct (ar_aead_key self) as [k|] eqn:Hk; [by apply read_stored_chunk_safe|].
  destruct (c_compressed c) eqn:Hcomp; [by apply read_stored_chunk_safe|].
  apply ssafe_zoom, ssafe_map_err. cbn.
  eapply ssafe_mono; [by apply read_exact_at_safe| |done]. intros [] d Hrun Hd. split; [done|].
  exists d. rewrite Hraw by done. split; [by exists dst|]. cbn. intros Hsum.
  unfold decode_stored. rewrite Hcomp, Hk. cbn.
  replace (len d =? c_original_size c) with true by (symmetry; apply Z.eqb_eq; unfold len in *; lia).
  cbn. by rewrite Hsum, Z.eqb_refl.
Qed.

(** With a source that tells the truth, the chunk is the archive's. *)
Lemma ChunkRead_content `{!SourceHolds R content} g out :
  ChunkRead g out -> chunk_content self (content (ar_source self)) g = Some out.
Proof.
  intros (c & s & Hc & (d & Hd & Hrun) & _ & Hdec).
  destruct (chunk_facts self Hwf g c Hc) as (_&Ho&_&Hst&_).
  apply read_exact_at_holds in Hrun as [->|Hs]; [change (len []) with 0 in Hd; lia| |done].
  unfold chunk_content. rewrite Hc. cbn. unfold c_end. rewrite <- Hd, Hs. done.
Qed.
End ReadChunk.

(** ** Lemmas: reading a whole asset *)

Lemma splice_app {A} (l s t : list A) a :
  0 <= a -> a + len s + len t <= len l ->
  splice (splice l a s) (a + len s) t = splice l a (s ++ t).
Proof.
  intros Ha Hl. unfold splice, len in *.
  replace (Z.to_nat (a + Z.of_nat (length s))) with (Z.to_nat a + length s)%nat by lia.
  assert (Hta : length (take (Z.to_nat a) l) = Z.to_nat a) by (rewrite length_take; lia).
  assert (Hp : length (take (Z.to_nat a) l ++ s) = (Z.to_nat a + length s)%nat)
    by (rewrite length_app; lia).
  rewrite (app_assoc (take (Z.to_nat a) l) s), take_app_length' by done.
  rewrite drop_app_ge, drop_drop, Hp by lia. rewrite <- !app_assoc, length_app.
  do 4 f_equal. lia.
Qed.

Section ReadEntry.
Context {C : Crates} {R : Type} `{RandomAccessRead R} (self : Archive R) (Hwf : ArchiveWf self).

(** [count] chunks from [g] on were read as [data]. *)
Inductive ChunksRead : Z -> nat -> bytes -> Prop :=
  | chunks_read_nil g : ChunksRead g 0 []
  | chunks_read_cons g n s rest :
      ChunkRead self g s -> ChunksRead (g + 1) n rest -> ChunksRead g (S n) (s ++ rest).

Lemma ChunksRead_content `{!SourceHolds R content} g n data :
  ChunksRead g n data -> chunks_content self (content (ar_source self)) g n = Some data.
Proof.
  induction 1 as [|g n s rest Hs _ IH]; [done|]. cbn [chunks_content].
  rewrite (ChunkRead_content self Hwf g s Hs). cbn. by rewrite IH.
Qed.

Lemma read_chunks_safe `{!SourceSafe R} `{!DecompressSpec C} label first count local written dst st :
  0 <= first -> 0 <= local -> 0 <= written <= len dst ->
  ssafe (read_chunks_into self label first count local written) (dst, st)
    (fun w s => length s.1 = length dst /\ exists data, ChunksRead (first + local) count data /\
       w = written + len data /\ w <= len dst /\ s.1 = splice dst written data)
    (fun s => length s.1 = length dst).
Proof.
  intros Hf. revert local written dst st.
  induction count as [|count IH]; intros local written dst st Hl Hw; cbn [read_chunks_into].
  { apply ssafe_ret. cbn. split; [done|]. exists []. split_and!; [constructor|unfold len; cbn; lia|lia|].
    unfold splice. cbn. rewrite Nat.add_0_r. by rewrite take_drop. }
  eapply ssafe_lift_bind; [apply safe_ok_or|done|]. intros g _ Hg. apply checked_add_Some in Hg as [-> Hg].
  rewrite chunk_run by lia.
  destruct (Prelude.index (ar_chunks self) (first + local)) as [c|]; [|done].
  apply ssafe_lift_Ok. eapply ssafe_lift_bind; [apply safe_ok_or|done|]. intros n _ Hn.
  apply try_from_Some in Hn as [-> _].
  eapply ssafe_lift_bind; [apply safe_ok_or|done|]. intros e _ He. apply checked_add_Some in He as [-> _].
  destruct (slice_get dst written (written + c_original_size c)) as [cd|] eqn:Hcd.
  2:{ unfold ssafe, mbind, st_bind. by rewrite Hcd. }
  apply slice_get_Some in Hcd as Hb. destruct Hb as (Hb1 & Hb2 & _).
  apply slice_get_len in Hcd as Hcl.
  eapply (ssafe_bind _ _ _ (fun _ p => exists s, ChunkRead self (first + local) s /\
    len s = c_original_size c /\ p.1 = splice dst written s)).
  { unfold ssafe. rewrite Hcd.
    pose proof (read_chunk_safe self Hwf label local (first + local) cd st ltac:(lia)) as Hs.
    unfold ssafe in Hs. destruct (read_chunk_by_index_into _ _ _ _ _) as [[[]|err|] [s st']]; cbn in *; [| |done].
    - destruct Hs as [Hs Hr]. exists s. split_and!; [done|unfold len in *; lia|done].
    - apply Nat2Z.inj. fold (len dst). rewrite <- (len_splice dst s written);
        [done|lia|unfold len in *; lia]. }
  intros [] [d st'] _ (s & Hs & Hsl & Hd). cbn in Hd. subst d.
  assert (Hdl : len (splice dst written s) = len dst) by (apply len_splice; lia).
  assert (Hdn : length (splice dst written s) = length dst) by (unfold len in Hdl; lia).
  eapply ssafe_mono; [apply IH; lia| |].
  - intros w [d st2] _ [Hd (data & Hdata & -> & Hle & Heq)]. cbn in *. split; [by rewrite Hd|].
    exists (s ++ data). rewrite len_app. split_and!; [|lia|lia|].
    + constructor; [done|]. by rewrite <- Z.add_assoc.
    + rewrite Heq, <- Hsl. apply splice_app; [lia|]. lia.
  - intros [d st2]. cbn. by rewrite Hdn.
Qed.

Lemma read_entry_safe `{!SourceSafe R} `{!DecompressSpec C} label idx e dst scratch :
  Prelude.index (ar_entries self) idx = Some e ->
  ssafe (read_entry_into self idx label) (dst, scratch)
    (fun _ s => ChunksRead (first_chunk e) (Z.to_nat (chunk_count e)) s.1 /\
       length s.1 = length dst /\ len dst = original_size e)
    (fun s => length s.1 = length dst).
Proof.
  intros He. unfold read_entry_into. rewrite He. apply ssafe_lift_Ok.
  destruct (entry_facts self Hwf e (index_elem _ _ _ He)) as [[? _] [? _] ? ? ? ?].
  eapply ssafe_lift_bind; [apply safe_ensure|done|intros [] _ _].
  eapply ssafe_lift_bind; [apply safe_ok_or|done|]. intros n _ Hn. apply try_from_Some in Hn as [-> _].
  apply ssafe_get_bind. destruct (Z.eqb_spec (len dst) (original_size e)) as [Hl|]; [|done].
  apply ssafe_lift_Ok. pose proof (len_nonneg dst).
  eapply (ssafe_bind _ _ _ (fun w s => length s.1 = length dst /\ (w = len dst ->
    ChunksRead (first_chunk e) (Z.to_nat (chunk_count e)) s.1))).
  - apply ssafe_zoom. eapply ssafe_mono; [by apply read_chunks_safe| |]; cbn; [|by intros [d s]].
    intros w [d s] _ [Hd (data & Hdata & -> & Hle & Heq)]. cbn in *. rewrite Z.add_0_r in Hdata.
    split; [done|]. intros Hw. rewrite splice_all in Heq by (unfold len in *; lia). by subst d.
  - intros w [d s] _ [Hd Hw]. cbn in *. apply ssafe_get_bind.
    replace (len d) with (len dst) by (unfold len; congruence).
    destruct (Z.eqb_spec w (len dst)) as [->|]; [|done]. cbn. split_and!; try done. by apply Hw.
Qed.

(** ** Lemmas: [verify] *)

Lemma resize_safe n what buf (Q : unit -> bytes -> Prop) X :
  X buf -> Q tt (resize (Z.to_nat n) x00 buf) -> ssafe (resize_buffer n what) buf Q X.
Proof.
  intros HX HQ. unfold resize_buffer. apply ssafe_get_bind.
  eapply ssafe_lift_bind; [apply safe_ensure|done|]. by intros [] _ _.
Qed.

Lemma verify_chunks_safe `{!SourceSafe R} `{!DecompressSpec C} label first count local scratch :
  0 <= first -> 0 <= local ->
  ssafe (verify_chunks self label first count local) scratch
    (fun _ _ => exists data, ChunksRead (first + local) count data) (fun _ => True).
Proof.
  intros Hf. revert local scratch. induction count as [|count IH]; intros local scratch Hl; cbn [verify_chunks].
  { apply ssafe_ret. exists []. constructor. }
  eapply ssafe_lift_bind; [apply safe_ok_or|done|]. intros g _ Hg. apply checked_add_Some in Hg as [-> Hg].
  rewrite chunk_run by lia.
  destruct (Prelude.index (ar_chunks self) (first + local)) as [c|]; [|done].
  apply ssafe_lift_Ok. eapply ssafe_lift_bind; [apply safe_ok_or|done|]. intros n _ Hn.
  eapply (ssafe_bind _ _ _ (fun _ _ => True)); [apply ssafe_zoom; by apply resize_safe|].
  intros [] s1 _ _. eapply (ssafe_bind _ _ _ (fun _ _ => exists s, ChunkRead self (first + local) s)).
  { apply ssafe_zoom. eapply ssafe_mono; [apply (read_chunk_safe self Hwf); lia| |done].
    intros [] [d s] _ [_ Hr]. by exists d. }
  intros [] s2 _ [s Hs]. eapply ssafe_mono; [apply IH; lia| |done].
  intros [] s3 _ [data Hd]. exists (s ++ data). constructor; [done|]. by rewrite <- Z.add_assoc.
Qed.

Lemma verify_entries_safe `{!SourceSafe R} `{!DecompressSpec C} es scratch :
  Forall (EntryFacts self) es ->
  ssafe (verify_entries self es) scratch
    (fun _ _ => forall e, e ∈ es ->
       exists data, ChunksRead (first_chunk e) (Z.to_nat (chunk_count e)) data) (fun _ => True).
Proof.
  intros Hf. revert scratch. induction Hf as [|e es He Hf IH]; intros scratch; cbn [verify_entries].
  { apply ssafe_ret. intros e Hin. by apply not_elem_of_nil in Hin. }
  eapply ssafe_bind; [apply (verify_chunks_safe _ _ _ 0); [apply He|done]|].
  intros [] s _ [data Hd]. rewrite Z.add_0_r in Hd. eapply ssafe_mono; [apply IH| |done].
  intros [] s' _ Hall e' [->|Hin]%elem_of_cons; [by exists data|by apply Hall].
Qed.

Lemma verify_safe `{!SourceSafe R} `{!DecompressSpec C} :
  safe (verify self) (fun _ => forall e, e ∈ ar_entries self ->
    exists data, ChunksRead (first_chunk e) (Z.to_nat (chunk_count e)) data).
Proof.
  unfold verify. eapply safe_bind; [apply safe_ok_or|]. intros n _ _.
  eapply safe_bind; [apply safe_ensure|]. intros [] _ _.
  assert (Hf : Forall (EntryFacts self) (ar_entries self)).
  { apply Forall_forall. intros e. by apply entry_facts. }
  pose proof (verify_entries_safe (ar_entries self) empty_scratch Hf) as Hs.
  unfold ssafe in Hs. by destruct (verify_entries _ _ _) as [[[]|e|] s].
Qed.
End ReadEntry.

(** ** Lemmas: a reliable source *)

Section Reliable.
Context {C : Crates} {R : Type} `{RandomAccessRead R} (self : Archive R) (Hwf : ArchiveWf self).
Context `{!SourceReliable R content} `{!AllocSpec C} `{!DecompressSpec C}.
Context (Hu : is_u64 (len (content (ar_source self)))) (Hlim : 1 <= ar_max_chunks_per_operation self).

Lemma try_reserve_ok what n : try_reserve what n = Ok tt.
Proof. unfold try_reserve. by rewrite alloc_always. Qed.

Lemma u64_to_usize_ok v what : is_u64 v -> u64_to_usize v what = Ok v.
Proof. intros [_ Hv]. unfold u64_to_usize, try_from, USIZE_MAX. by zdecide. Qed.

Lemma decode_stored_len key c g s out :
  0 <= c_original_size c -> decode_stored key c g s = Some out -> len out = c_original_size c.
Proof.
  intros Hc. unfold decode_stored. destruct (match key with Some _ => _ | None => _ end) as [plain|]; [|done].
  cbn. pose proof (decompress_into_exact_safe plain "" (replicate (Z.to_nat (c_original_size c)) x00)) as Hs.
  unfold ssafe in Hs. destruct (c_compressed c).
  - destruct (decompress_into_exact _ _ _) as [[[]|e|] o]; cbn; [|done..]. destruct (_ =? _); [|done].
    intros [= <-]. unfold len. rewrite Hs, length_replicate. lia.
  - destruct (Z.eqb_spec (len plain) (c_original_size c)); [|done]. cbn.
    destruct (_ =? _); [|done]. by intros [= <-].
Qed.

Lemma decode_stored_Some key c g s out :
  decode_stored key c g s = Some out ->
  exists plain, match key with
                | Some key => decrypt s key (chunk_aad g)
                | None => Ok s
                end = Ok plain /\ checksum out = c_checksum c /\
    if c_compressed c
    then decompress_into_exact plain "" (replicate (Z.to_nat (c_original_size c)) x00) = (Ok tt, out)
    else plain = out /\ len plain = c_original_size c.
Proof.
  unfold decode_stored. destruct key as [k|].
  - destruct (decrypt s k (chunk_aad g)) as [plain|e|]; cbn; [|done..].
    destruct (c_compressed c).
    + destruct (decompress_into_exact _ _ _) as [[[]|e|] o] eqn:E; cbn; [|done..].
      destruct (Z.eqb_spec (checksum o) (c_checksum c)); [|done]. intros [= <-]. by exists plain.
    + destruct (Z.eqb_spec (len plain) (c_original_size c)); [|done]. cbn.
      destruct (Z.eqb_spec (checksum plain) (c_checksum c)); [|done]. intros [= <-]. by exists plain.
  - cbn. destruct (c_compressed c).
    + destruct (decompress_into_exact _ _ _) as [[[]|e|] o] eqn:E; cbn; [|done..].
      destruct (Z.eqb_spec (checksum o) (c_checksum c)); [|done]. intros [= <-]. by exists s.
    + destruct (Z.eqb_spec (len s) (c_original_size c)); [|done]. cbn.
      destruct (Z.eqb_spec (checksum s) (c_checksum c)); [|done]. intros [= <-]. by exists s.
Qed.

Lemma decompress_label plain what1 what2 dst out :
  decompress_into_exact plain what1 dst = (Ok tt, out) ->
  decompress_into_exact plain what2 dst = (Ok tt, out).
Proof.
  unfold decompress_into_exact, st_map_err, get, lift, mbind, st_bind, mret, st_ret.
  destruct (lz4_decompress_into plain dst) as [[n|e|] o]; cbn; [|done..]. by destruct (negb _).
Qed.

(** Decompression does not look at what the destination held. *)
Lemma decompress_any plain what dst out :
  decompress_into_exact plain "" (replicate (length dst) x00) = (Ok tt, out) ->
  decompress_into_exact plain what dst = (Ok tt, out).
Proof.
  intros Hd. apply (decompress_label _ ""). 
  destruct (decompress_into_exact_determined plain "" (replicate (length dst) x00) dst) as [Hr Hs];
    [by rewrite length_replicate|].
  rewrite Hd in Hr, Hs. cbn in Hr, Hs. specialize (Hs eq_refl).
  destruct (decompress_into_exact plain "" dst) as [r o]. cbn in Hr, Hs. by rewrite <- Hr, <- Hs.
Qed.

Lemma read_stored_chunk_ok c g dst st s out :
  0 <= c_offset c -> is_u64 (c_stored_size c) -> len dst = c_original_size c ->
  slice_get (content (ar_source self)) (c_offset c) (c_end c) = Some s ->
  decode_stored (ar_aead_key self) c g s = Some out ->
  exists st', read_stored_chunk self c g (dst, st) = (Ok tt, (out, st')).
Proof.
  intros Ho Hst Hl Hs (plain & Hplain & _ & Hout)%decode_stored_Some. exists s.
  apply slice_get_len in Hs as Hsl. unfold c_end in Hsl.
  unfold read_stored_chunk. rewrite u64_to_usize_ok by done.
  erewrite st_bind_run by done.
  erewrite (st_bind_run (on_snd (resize_buffer _ _))).
  2:{ unfold on_snd, zoom, resize_buffer, get, lift, put, mbind, st_bind. cbn.
      rewrite try_reserve_ok. done. }
  erewrite (st_bind_run (on_snd (on_slice _ _ _ _))).
  2:{ unfold on_snd, zoom, on_slice. cbn [fst snd].
      destruct Hst.
      assert (Hrl : len (resize (Z.to_nat (c_stored_size c)) x00 st) = c_stored_size c)
        by (unfold len; rewrite length_resize; lia).
      rewrite slice_get_to by done. unfold st_map_err.
      rewrite (read_exact_at_reliable _ _ _ s) by (try done; by rewrite Hrl).
      cbn. rewrite splice_all by (unfold len in *; lia). done. }
  erewrite st_bind_run by done. cbv beta iota. rewrite slice_get_to by lia.
  erewrite st_bind_run by done. rewrite Hplain. erewrite st_bind_run by done.
  destruct (c_compressed c).
  - unfold on_fst, zoom. cbn [fst snd].
    rewrite (decompress_any plain _ dst out); [done|]. rewrite <- Hout. do 3 f_equal.
    unfold len in Hl. lia.
  - destruct Hout as [-> Hpl]. erewrite st_bind_run by done. cbv beta iota.
    rewrite Hpl, Hl, Z.eqb_refl. erewrite st_bind_run by done.
    unfold on_fst, zoom. cbn [fst snd]. by rewrite copy_from_slice_run by (unfold len in *; lia).
Qed.

Lemma read_chunk_ok label local g dst st out :
  0 <= g <= U32_MAX -> chunk_content self (content (ar_source self)) g = Some out ->
  len dst = len out ->
  exists st', read_chunk_by_index_into self label local g (dst, st) = (Ok tt, (out, st')).
Proof.
  intros Hg Hc Hl. unfold chunk_content in Hc.
  destruct (Prelude.index (ar_chunks self) g) as [c|] eqn:Hi; [|done]. cbn in Hc.
  destruct (slice_get _ _ _) as [s|] eqn:Hs; [|done]. cbn in Hc.
  destruct (chunk_facts self Hwf g c Hi) as ((?&Hss&Hos&?)&Ho&Hsz&Hst&Hraw).
  apply decode_stored_len in Hc as Hol; [|lia].
  destruct (decode_stored_Some _ _ _ _ _ Hc) as (plain & Hplain & Hsum & Hout).
  assert (Hstep : exists st', (match ar_aead_key self, c_compressed c with
     | None, false => on_fst (st_map_err Io (read_exact_at (ar_source self) (c_offset c)))
     | _, _ => read_stored_chunk self c g
     end) (dst, st) = (Ok tt, (out, st'))).
  { pose proof (read_stored_chunk_ok c g dst st s out Ho Hss ltac:(lia) Hs Hc) as Hrs.
    destruct (ar_aead_key self) eqn:Hk; [done|]. destruct (c_compressed c) eqn:Hcomp; [done|].
    exists st. destruct Hout as [-> _]. injection Hplain as ->.
    unfold on_fst, zoom, st_map_err. cbn [fst snd].
    rewrite (read_exact_at_reliable _ _ _ out); [done|done|done|].
    rewrite Hl, Hol, <- Hraw by done. exact Hs. }
  destruct Hstep as [st' Hstep]. exists st'.
  unfold read_chunk_by_index_into, ensure_chunk_operation_limit. zdecide.
  erewrite st_bind_run by done. rewrite chunk_run, Hi by done.
  erewrite st_bind_run by done. rewrite u64_to_usize_ok by done.
  erewrite st_bind_run by done. erewrite st_bind_run by done. cbv beta iota.
  rewrite Hl, Hol, Z.eqb_refl. erewrite st_bind_run by done.
  erewrite st_bind_run by exact Hstep. erewrite st_bind_run by done. cbv beta iota.
  rewrite Hsum, Z.eqb_refl. done.
Qed.

Lemma chunk_content_index g out :
  chunk_content self (content (ar_source self)) g = Some out ->
  exists c, Prelude.index (ar_chunks self) g = Some c /\ c_original_size c = len out.
Proof.
  unfold chunk_content. destruct (Prelude.index (ar_chunks self) g) as [c|] eqn:Hi; [|done]. cbn.
  destruct (slice_get _ _ _) as [s|]; [|done]. cbn. intros Hd.
  destruct (chunk_facts self Hwf g c Hi) as (_&_&?&_). exists c.
  apply decode_stored_len in Hd; [done|lia].
Qed.

Lemma read_chunks_ok label first count local written dst st data :
  0 <= first -> 0 <= local -> first + local + Z.of_nat count <= U32_MAX ->
  chunks_content self (content (ar_source self)) (first + local) count = Some data ->
  0 <= written -> written + len data <= len dst -> len dst <= USIZE_MAX ->
  exists st', read_chunks_into self label first count local written (dst, st) =
    (Ok (written + len data), (splice dst written data, st')).
Proof.
  intros Hf. revert local written dst st data.
  induction count as [|count IH]; intros local written dst st data Hl Hb Hc Hw Hd Hdl;
    cbn [read_chunks_into chunks_content] in *.
  { injection Hc as <-. exists st. cbn. unfold splice. rewrite Nat.add_0_r. cbn.
    by rewrite take_drop, Z.add_0_r. }
  destruct (chunk_content _ _ _) as [s|] eqn:Hs; [|done]. cbn in Hc.
  destruct (chunks_content _ _ _ _) as [rest|] eqn:Hrest; [|done]. cbn in Hc. injection Hc as <-.
  rewrite len_app in Hd |- *. pose proof (len_nonneg s). pose proof (len_nonneg rest).
  rewrite (checked_add_le U32_MAX first) by lia. erewrite st_bind_run by done.
  destruct (chunk_content_index _ _ Hs) as (c & Hi & Hcs).
  rewrite chunk_run, Hi by lia. erewrite st_bind_run by done. rewrite Hcs.
  rewrite u64_to_usize_ok by (unfold in_range, USIZE_MAX in *; lia). erewrite st_bind_run by done.
  rewrite (checked_add_le USIZE_MAX written) by lia. erewrite st_bind_run by done.
  destruct (slice_get dst written (written + len s)) as [cd|] eqn:Hcd.
  2:{ unfold slice_get in Hcd. revert Hcd. by zdecide. }
  destruct (read_chunk_ok label local (first + local) cd st s ltac:(lia) Hs) as [st1 Hr].
  { apply slice_get_len in Hcd. lia. }
  erewrite st_bind_run by (cbv beta iota; rewrite Hcd, Hr; reflexivity).
  destruct (IH (local + 1) (written + len s) (splice dst written s) st1 rest) as [st2 Hrun];
    try lia; [by rewrite Z.add_assoc|rewrite len_splice; lia|rewrite len_splice; lia|].
  rewrite Hrun. exists st2. rewrite splice_app by lia. by rewrite Z.add_assoc.
Qed.

Lemma chunks_content_len g n data :
  0 <= g -> chunks_content self (content (ar_source self)) g n = Some data ->
  len data = original_total (take n (drop (Z.to_nat g) (ar_chunks self))).
Proof.
  revert g data. induction n as [|n IH]; intros g data Hg; cbn [chunks_content]; [by intros [= <-]|].
  destruct (chunk_content _ _ _) as [s|] eqn:Hs; [|done]. cbn.
  destruct (chunks_content _ _ _ _) as [rest|] eqn:Hrest; [|done]. cbn. intros [= <-].
  destruct (chunk_content_index _ _ Hs) as (c & Hi & Hcs). apply index_Some in Hi as [_ Hi].
  apply IH in Hrest; [|lia]. rewrite len_app, Hrest.
  rewrite (drop_S _ c (Z.to_nat g)) by done. cbn [take sum_over]. rewrite Hcs.
  by replace (Z.to_nat (g + 1)) with (S (Z.to_nat g)) by lia.
Qed.

Lemma read_entry_ok label idx e dst scratch data :
  Prelude.index (ar_entries self) idx = Some e ->
  entry_content self (content (ar_source self)) e = Some data ->
  chunk_count e <= ar_max_chunks_per_operation self -> len dst = original_size e ->
  exists scratch', read_entry_into self idx label (dst, scratch) = (Ok tt, (data, scratch')).
Proof.
  intros He Hd Hc Hl. destruct (entry_facts self Hwf e (index_elem _ _ _ He)) as [[? _] [? _] Hsz Hr Ho _].
  pose proof (chunks_content_len (first_chunk e) _ _ ltac:(done) Hd) as Hlen. unfold owned in Ho.
  pose proof (aw_chunks _ Hwf) as [Hn _]. destruct Hsz as [? Hsz]. 
  unfold read_entry_into, ensure_chunk_operation_limit. rewrite He. erewrite st_bind_run by done.
  zdecide. erewrite st_bind_run by done. rewrite u64_to_usize_ok by done. erewrite st_bind_run by done.
  erewrite st_bind_run by done. cbv beta iota. rewrite Hl, Z.eqb_refl. erewrite st_bind_run by done.
  destruct (read_chunks_ok label (first_chunk e) (Z.to_nat (chunk_count e)) 0 0 dst (stored scratch) data)
    as [st' Hrun]; try done; try lia.
  { by rewrite Z.add_0_r. }
  { unfold USIZE_MAX. lia. }
  eexists. erewrite st_bind_run by (unfold zoom; cbv beta iota; rewrite Hrun; reflexivity).
  erewrite st_bind_run by done. cbv beta iota. rewrite splice_all by (unfold len in *; lia).
  by rewrite Z.add_0_l, Z.eqb_refl.
Qed.
End Reliable.

(** ** Lemmas: the public reads *)

Section Reads.
Context {C : Crates} {R : Type} `{RandomAccessRead R} (self : Archive R) (Hwf : ArchiveWf self).

Lemma read_new_safe `{!SourceSafe R} `{!DecompressSpec C} idx e label :
  Prelude.index (ar_entries self) idx = Some e ->
  safe (read_new self idx label)
    (fun data => ChunksRead self (first_chunk e) (Z.to_nat (chunk_count e)) data /\
       len data = original_size e).
Proof.
  intros He. unfold read_new, entry_at. rewrite He. cbn [or_panic mbind result_bind].
  eapply safe_bind; [apply safe_ensure|]. intros [] _ _.
  eapply safe_bind; [apply safe_ok_or|]. intros n _ Hn. apply try_from_Some in Hn as [-> _].
  eapply safe_bind; [apply safe_True; unfold allocate, try_reserve; auto with nopanic|].
  intros out _ _.
  pose proof (read_entry_safe self Hwf label idx e out empty_scratch He) as Hs. unfold ssafe in Hs.
  destruct (read_entry_into _ _ _ _) as [[[]|err|] [d s]]; cbn in *; [|done..].
  destruct Hs as (? & ? & ?). split; [done|]. unfold len in *. congruence.
Qed.

Lemma read_new_ok `{!SourceReliable R content} `{!AllocSpec C} `{!DecompressSpec C} idx e label data :
  is_u64 (len (content (ar_source self))) -> 1 <= ar_max_chunks_per_operation self ->
  Prelude.index (ar_entries self) idx = Some e ->
  entry_content self (content (ar_source self)) e = Some data ->
  chunk_count e <= ar_max_chunks_per_operation self ->
  read_new self idx label = Ok data.
Proof.
  intros Hu Hlim He Hd Hc. destruct (entry_facts self Hwf e (index_elem _ _ _ He)) as [_ _ Hsz _ _ _].
  unfold read_new, entry_at, ensure_chunk_operation_limit, allocate. rewrite He. cbn [or_panic mbind result_bind].
  zdecide. cbn [ensure mbind result_bind]. rewrite u64_to_usize_ok by done. cbn [mbind result_bind].
  rewrite try_reserve_ok. cbn [mbind result_bind mret result_ret].
  destruct (read_entry_ok self Hwf Hu Hlim label idx e (replicate (Z.to_nat (original_size e)) x00)
    empty_scratch data He Hd Hc) as [s' ->]; [|done].
  unfold len. rewrite length_replicate. destruct Hsz. lia.
Qed.

(** What a path denotes in the archive. *)
Definition denotes (p : bytes) (i : Z) (e : Entry) : Prop :=
  exists q, normalize_lookup_path p = Ok q /\ find_entry_index_normalized self q = Ok i /\
    Prelude.index (ar_entries self) i = Some e.

Lemma denotes_cases p :
  (exists q i e, normalize_lookup_path p = Ok q /\ find_entry_index_normalized self q = Ok i /\
     Prelude.index (ar_entries self) i = Some e) \/
  (exists err, normalize_lookup_path p = Err err) \/
  (exists q, normalize_lookup_path p = Ok q /\
     find_entry_index_normalized self q = Err (NotFound q)).
Proof.
  pose proof (normalize_path_np p) as Hn. unfold normalize_lookup_path.
  destruct (normalize_path p) as [q|err|]; [|right; left; by eexists|done].
  destruct (find_normalized_cases self (aw_index _ Hwf) q) as [(i & e & ? & ? & _)|[? _]];
    [left; by exists q, i, e|right; right; by exists q].
Qed.

Lemma locate_chunk_safe p k :
  safe (locate_chunk self p k) (fun '(_, g) => exists i e, denotes p i e /\ k < chunk_count e /\
    g = first_chunk e + k /\ g <= U32_MAX).
Proof.
  unfold locate_chunk. destruct (denotes_cases p) as [(q&i&e&Hq&Hf&He)|[[err ->]|(q&->&Hf)]]; [|done|].
  2:{ cbn. by rewrite Hf. }
  rewrite Hq. cbn [mbind result_bind]. rewrite Hf. unfold entry_at. cbn [mbind result_bind].
  rewrite He. cbn [or_panic mbind result_bind].
  destruct (Z.leb_spec (chunk_count e) k); cbn [mbind result_bind]; [done|].
  unfold checked_add. destruct (Z.leb_spec (first_chunk e + k) U32_MAX); cbn; [|done].
  exists i, e. split_and!; try done. by exists q.
Qed.
(** Every read, by what the path denotes. *)
Lemma read_denotes `{!SourceSafe R} `{!DecompressSpec C} p :
  safe (read self p) (fun data => exists i e, denotes p i e /\
    ChunksRead self (first_chunk e) (Z.to_nat (chunk_count e)) data /\ len data = original_size e).
Proof.
  unfold read. destruct (denotes_cases p) as [(q&i&e&Hq&Hf&He)|[[err ->]|(q&->&Hf)]]; [|done|].
  - rewrite Hq. cbn [mbind result_bind]. rewrite Hf. cbn [mbind result_bind].
    eapply safe_mono; [by apply (read_new_safe i e)|]. intros data _ [? ?].
    exists i, e. split_and!; [by exists q|done..].
  - cbn [mbind result_bind]. by rewrite Hf.
Qed.

Lemma read_by_id_safe `{!SourceSafe R} `{!DecompressSpec C} id :
  safe (read_by_id self id) (fun data => exists i e, Prelude.index (ar_entries self) i = Some e /\
    path_hash e = id /\ ChunksRead self (first_chunk e) (Z.to_nat (chunk_count e)) data /\
    len data = original_size e).
Proof.
  unfold read_by_id. destruct (find_by_id_cases self (aw_index _ Hwf) id)
    as [(i & e & -> & He & Hh & _)|[[-> _]|[-> _]]]; [|done..].
  cbn [mbind result_bind]. unfold entry_at. rewrite He. cbn [or_panic mbind result_bind].
  eapply safe_mono; [by apply (read_new_safe i e)|]. intros data _ [? ?]. by exists i, e.
Qed.

Lemma read_into_denotes `{!SourceSafe R} `{!DecompressSpec C} p dst scratch :
  ssafe (read_into_with_scratch self p) (dst, scratch)
    (fun _ s => length s.1 = length dst /\ exists i e, denotes p i e /\
       ChunksRead self (first_chunk e) (Z.to_nat (chunk_count e)) s.1)
    (fun s => length s.1 = length dst).
Proof.
  unfold read_into_with_scratch.
  destruct (denotes_cases p) as [(q&i&e&Hq&Hf&He)|[[err ->]|(q&->&Hf)]]; [|done|].
  2:{ apply ssafe_lift_Ok. by rewrite Hf. }
  rewrite Hq. apply ssafe_lift_Ok. rewrite Hf. apply ssafe_lift_Ok.
  eapply ssafe_mono; [by apply read_entry_safe| |done]. intros [] [d s] _ (Hr & Hl & _).
  split; [done|]. exists i, e. split; [by exists q|done].
Qed.

Lemma read_chunk_denotes `{!SourceSafe R} `{!DecompressSpec C} p k :
  0 <= k -> safe (read_chunk self p k) (fun out => exists i e, denotes p i e /\ k < chunk_count e /\
    ChunkRead self (first_chunk e + k) out).
Proof.
  intros Hk. pose proof (locate_chunk_safe p k) as Hloc.
  unfold read_chunk. destruct (locate_chunk self p k) as [[q g]|err|]; cbn [mbind result_bind]; [|done..].
  destruct Hloc as (i & e & Hd & Hlt & -> & Hmax).
  destruct (entry_facts self Hwf e ltac:(destruct Hd as (?&_&_&?); by eapply index_elem)) as [[? _] _ _ _ _ _].
  eapply safe_bind; [apply safe_ensure|]. intros [] _ _.
  rewrite chunk_run by lia. destruct (Prelude.index _ _) as [c|]; cbn [mbind result_bind]; [|done].
  eapply safe_bind; [apply safe_ok_or|]. intros n _ _.
  eapply safe_bind; [apply safe_True; unfold allocate, try_reserve; auto with nopanic|]. intros out _ _.
  pose proof (read_chunk_safe self Hwf (LabelPath q) k (first_chunk e + k) out [] ltac:(lia)) as Hs.
  unfold ssafe in Hs. destruct (read_chunk_by_index_into _ _ _ _ _) as [[[]|er|] [d s]]; cbn in *; [|done..].
  destruct Hs as [_ Hr]. by exists i, e.
Qed.

Lemma read_chunk_into_denotes `{!SourceSafe R} `{!DecompressSpec C} p k dst scratch :
  0 <= k -> ssafe (read_chunk_into_with_scratch self p k) (dst, scratch)
    (fun _ s => length s.1 = length dst /\ exists i e, denotes p i e /\ k < chunk_count e /\
       ChunkRead self (first_chunk e + k) s.1)
    (fun s => length s.1 = length dst).
Proof.
  intros Hk. pose proof (locate_chunk_safe p k) as Hloc.
  unfold read_chunk_into_with_scratch. destruct (locate_chunk self p k) as [[q g]|err|]; [|done..].
  destruct Hloc as (i & e & Hd & Hlt & -> & Hmax). apply ssafe_lift_Ok. cbv beta iota.
  destruct (entry_facts self Hwf e ltac:(destruct Hd as (?&_&_&?); by eapply index_elem)) as [[? _] _ _ _ _ _].
  apply ssafe_zoom. cbv beta iota. eapply ssafe_mono; [apply (read_chunk_safe self Hwf); lia| |].
  - intros [] [d s] _ [Hl Hr]. split; [exact Hl|]. by exists i, e.
  - by intros [d s].
Qed.
End Reads.

(** ** Properties *)

(** C3 [read] of an opened archive never panics, and what it returns is the
    whole asset its path denotes: the decoded, checksummed chunks of the
    entry, one after the other, of the recorded size. *)
Theorem read_sound {C : Crates} {R content} `{SourceHolds R content} `{!SourceSafe R}
    `{!DecompressSpec C} (self : Archive R) p :
  ArchiveWf self ->
  read self p <> Panic /\
  forall data, read self p = Ok data ->
    exists i e, denotes self p i e /\
      entry_content self (content (ar_source self)) e = Some data /\ len data = original_size e.
Proof.
  intros Hwf. pose proof (read_denotes self Hwf p) as Hs. split; [by eapply safe_not_Panic|].
  intros data Hd. destruct (safe_Ok _ _ _ Hs Hd) as (i & e & ? & Hr & ?). exists i, e.
  split_and!; [done| |done]. by apply ChunksRead_content.
Qed.

(** C7 Over a reliable source and with memory available, [read] succeeds
    exactly when the path denotes an entry whose chunks are intact and within
    the limit on one operation. *)
Theorem read_complete {C : Crates} {R content} `{SourceHolds R content} `{!SourceSafe R}
    `{!SourceReliable R content} `{!AllocSpec C} `{!DecompressSpec C} (self : Archive R) p data :
  ArchiveWf self -> is_u64 (len (content (ar_source self))) ->
  1 <= ar_max_chunks_per_operation self ->
  read self p = Ok data <->
  exists i e, denotes self p i e /\ chunk_count e <= ar_max_chunks_per_operation self /\
    entry_content self (content (ar_source self)) e = Some data.
Proof.
  intros Hwf Hu Hlim. unfold read. split.
  - destruct (denotes_cases self Hwf p) as [(q&i&e&Hq&Hf&He)|[[err ->]|(q&->&Hf)]]; [|done|].
    2:{ cbn. by rewrite Hf. }
    rewrite Hq. cbn [mbind result_bind]. rewrite Hf. cbn [mbind result_bind]. intros Hd.
    pose proof (read_new_safe self Hwf i e (LabelPath q) He) as Hs.
    destruct (safe_Ok _ _ _ Hs Hd) as [Hr _]. exists i, e. split_and!; [by exists q| |by apply ChunksRead_content].
    unfold read_new, entry_at, ensure_chunk_operation_limit in Hd. rewrite He in Hd. cbn in Hd.
    destruct (Z.leb_spec (chunk_count e) (ar_max_chunks_per_operation self)); done.
  - intros (i & e & (q & -> & Hf & He) & Hc & Hd). cbn [mbind result_bind]. rewrite Hf.
    cbn [mbind result_bind]. by apply (read_new_ok self Hwf i e).
Qed.

(** C21 Reading into the caller's buffers never panics and keeps the size of
    the destination; it gives the asset's content whatever the destination
    and the scratch held before, and fails with [BufferSizeMismatch], leaving
    the destination alone, when the destination has another size. *)
Theorem read_into_with_scratch_spec {C : Crates} {R content} `{SourceHolds R content} `{!SourceSafe R}
    `{!DecompressSpec C} (self : Archive R) p dst scratch :
  ArchiveWf self ->
  ssafe (read_into_with_scratch self p) (dst, scratch)
    (fun _ s => length s.1 = length dst /\ exists i e, denotes self p i e /\
       entry_content self (content (ar_source self)) e = Some s.1)
    (fun s => length s.1 = length dst) /\
  (forall i e, denotes self p i e -> chunk_count e <= ar_max_chunks_per_operation self ->
     len dst <> original_size e ->
     read_into_with_scratch self p (dst, scratch) =
       (Err (BufferSizeMismatch (original_size e) (len dst)), (dst, scratch))).
Proof.
  intros Hwf. split.
  - eapply ssafe_mono; [by apply read_into_denotes| |done]. intros [] s _ (Hl & i & e & ? & Hr).
    split; [done|]. exists i, e. split; [done|]. by apply ChunksRead_content.
  - intros i e (q & Hq & Hf & He) Hc Hne. unfold read_into_with_scratch. rewrite Hq. erewrite st_bind_run by done. rewrite Hf.
    erewrite st_bind_run by done. unfold read_entry_into, ensure_chunk_operation_limit. rewrite He.
    erewrite st_bind_run by done. zdecide. erewrite st_bind_run by done.
    rewrite u64_to_usize_ok by apply (entry_facts self Hwf e (index_elem _ _ _ He)).
    erewrite st_bind_run by done. erewrite st_bind_run by done. cbv beta iota. by zdecide.
Qed.

(** [read_chunk] and [read_chunk_into] never panic; a chunk index outside
    the asset is refused with [ChunkOutOfRange]; a chunk that is returned is
    the chunk at that position of the asset. *)
Theorem read_chunk_spec {C : Crates} {R content} `{SourceHolds R content} `{!SourceSafe R}
    `{!DecompressSpec C} (self : Archive R) p k dst scratch :
  ArchiveWf self -> is_u32 k ->
  safe (read_chunk self p k) (fun out => exists i e, denotes self p i e /\ k < chunk_count e /\
    chunk_content self (content (ar_source self)) (first_chunk e + k) = Some out) /\
  ssafe (read_chunk_into_with_scratch self p k) (dst, scratch)
    (fun _ s => exists i e, denotes self p i e /\ k < chunk_count e /\
       chunk_content self (content (ar_source self)) (first_chunk e + k) = Some s.1)
    (fun s => length s.1 = length dst) /\
  (forall i e, denotes self p i e -> chunk_count e <= k ->
     read_chunk self p k = Err (ChunkOutOfRange k (chunk_count e))).
Proof.
  intros Hwf [Hk _]. split_and!.
  - eapply safe_mono; [by apply read_chunk_denotes|]. intros out _ (i & e & ? & ? & ?).
    exists i, e. split_and!; [done..|]. by apply ChunkRead_content.
  - eapply ssafe_mono; [by apply read_chunk_into_denotes| |done]. intros [] s _ (_ & i & e & ? & ? & ?).
    exists i, e. split_and!; [done..|]. by apply ChunkRead_content.
  - intros i e (q & Hq & Hf & He) Hle. unfold read_chunk, locate_chunk, entry_at. rewrite Hq.
    cbn [mbind result_bind]. rewrite Hf. cbn [mbind result_bind]. rewrite He.
    cbn [or_panic mbind result_bind]. by zdecide.
Qed.

(** C17 [verify] never panics; an archive it accepts is intact: every entry has
    its content, and (over a reliable source, with memory) every later [read]
    of an asset it holds succeeds. *)
Theorem verify_sound {C : Crates} {R content} `{SourceHolds R content} `{!SourceSafe R}
    `{!SourceReliable R content} `{!AllocSpec C} `{!DecompressSpec C} (self : Archive R) :
  ArchiveWf self ->
  verify self <> Panic /\
  (verify self = Ok tt ->
     (forall e, e ∈ ar_entries self ->
        is_Some (entry_content self (content (ar_source self)) e)) /\
     (is_u64 (len (content (ar_source self))) -> 1 <= ar_max_chunks_per_operation self ->
      forall p i e, denotes self p i e -> exists data, read self p = Ok data /\
        len data = original_size e)).
Proof.
  intros Hwf. pose proof (verify_safe self Hwf) as Hs. split; [by eapply safe_not_Panic|].
  intros Hv. pose proof (safe_Ok _ _ _ Hs Hv) as Hall. cbv beta in Hall.
  assert (Hcont : forall e, e ∈ ar_entries self ->
    is_Some (entry_content self (content (ar_source self)) e)).
  { intros e He. destruct (Hall e He) as [data Hd]. exists data. by apply ChunksRead_content. }
  split; [done|]. intros Hu Hlim p i e (q & Hq & Hf & He).
  pose proof (index_elem _ _ _ He) as Hin. destruct (Hcont e Hin) as [data Hd]. exists data.
  pose proof (entry_facts self Hwf e Hin) as [[? _] [? _] _ Hr Ho _].
  unfold verify, ensure_chunk_operation_limit in Hv. inv_ok.
  assert (Hread : read_new self i (LabelPath q) = Ok data) by (apply (read_new_ok self Hwf i e); try done; lia).
  split; [by unfold read; rewrite Hq; cbn; rewrite Hf|].
  rewrite (chunks_content_len self Hwf (first_chunk e) _ _ ltac:(done) Hd). exact Ho.
Qed.

Lemma sample_denotes : denotes (C := Toy.crates) Sample.archive (lit "a\b") 0 (entry_from Sample.toc_entry).
Proof. exists (lit "a/b"). split_and!; vm_compute; reflexivity. Qed.

Lemma sample_source : is_u64 (len Sample.bytes_).
Proof. vm_compute. intuition congruence. Qed.

Lemma read_sound_witness :
  read (C := Toy.crates) Sample.archive (lit "a/b") = Ok (lit "hello") /\
  exists i e, denotes (C := Toy.crates) Sample.archive (lit "a/b") i e /\
    entry_content (C := Toy.crates) Sample.archive Sample.bytes_ e = Some (lit "hello") /\
    len (lit "hello") = original_size e.
Proof.
  assert (Hr : read (C := Toy.crates) Sample.archive (lit "a/b") = Ok (lit "hello")) by (vm_compute; reflexivity).
  split; [exact Hr|].
  exact (proj2 (read_sound (C := Toy.crates) (content := id) Sample.archive (lit "a/b") Sample.sample_wf) _ Hr).
Defined.

Lemma read_complete_witness :
  read (C := Toy.crates) Sample.archive (lit "a\b") = Ok (lit "hello").
Proof.
  apply (read_complete (C := Toy.crates) (content := id) Sample.archive (lit "a\b") (lit "hello")
    Sample.sample_wf sample_source).
  - vm_compute. congruence.
  - exists 0, (entry_from Sample.toc_entry). split_and!; [apply sample_denotes|vm_compute; congruence|].
    vm_compute. reflexivity.
Defined.

Lemma read_into_with_scratch_spec_witness :
  read_into_with_scratch (C := Toy.crates) Sample.archive (lit "a\b") (lit "....", empty_scratch) =
    (Err (BufferSizeMismatch 5 4), (lit "....", empty_scratch)).
Proof.
  refine (proj2 (read_into_with_scratch_spec (C := Toy.crates) (content := id) Sample.archive
    (lit "a\b") (lit "....") empty_scratch Sample.sample_wf) 0 (entry_from Sample.toc_entry) sample_denotes _ _);
    vm_compute; congruence.
Defined.

Lemma read_chunk_spec_witness :
  read_chunk (C := Toy.crates) Sample.archive (lit "a\b") 2 = Err (ChunkOutOfRange 2 2).
Proof.
  refine (proj2 (proj2 (read_chunk_spec (C := Toy.crates) (content := id) Sample.archive (lit "a\b") 2
    [] empty_scratch Sample.sample_wf _)) 0 (entry_from Sample.toc_entry) sample_denotes _).
  - vm_compute. intuition congruence.
  - vm_compute. congruence.
Defined.

Lemma verify_sound_witness :
  exists data, read (C := Toy.crates) Sample.archive (lit "a\b") = Ok data /\ len data = 5.
Proof.
  destruct (verify_sound (C := Toy.crates) (content := id) Sample.archive Sample.sample_wf) as [_ H].
  destruct H as [_ H]; [vm_compute; reflexivity|].
  apply (H sample_source ltac:(vm_compute; congruence) (lit "a\b") 0 (entry_from Sample.toc_entry)
    sample_denotes).
Defined.
