(* ===== verification/Range.v ===== *)
(** * Range reads ([archive/reader.rs])

    [range_len], [read_range_index_into] and the four public range reads,
    with the chunk size as the index of the archive's pages. *)
From S2P Require Export Reader.

Section Range.
Context {C : Crates} {R : Type} `{RandomAccessRead R}.
Implicit Type self : Archive R.

Definition range_len self (idx offset n : Z) (exact : bool) : Res Z :=
  entry ← entry_at self idx;
  let size := original_size entry in
  match Z.compare offset size, n =? 0, exact with
  | Gt, _, _ | Eq, false, true => Err InvalidRange
  | _, true, _ | Eq, _, false => Ok 0
  | Lt, false, _ =>
      n64 ← usize_to_u64 n "range length";
      requested_end ← ok_or (checked_add U64_MAX offset n64) InvalidRange;
      ensure (negb exact || (requested_end <=? size)) InvalidRange;;
      d ← sub_or_panic (Z.min requested_end size) offset;
      actual_len ← u64_to_usize d "range result size";
      (if negb (actual_len =? 0) then
         actual64 ← usize_to_u64 actual_len "range length";
         end_ ← ok_or (checked_add U64_MAX offset actual64) InvalidRange;
         let chunk_size := ar_chunk_size self in
         first ← div_or_panic offset chunk_size;
         e1 ← sub_or_panic end_ 1;
         last ← div_or_panic e1 chunk_size;
         count ← ok_or (checked_sub last first ≫= fun value =>
                        checked_add U64_MAX value 1 ≫= fun value =>
                        try_from U32_MAX value) TooManyChunks;
         ensure_chunk_operation_limit self count
       else Ok tt);;
      mret actual_len
  end.

(** The loop of [read_range_index_into] over [local_chunk ..= last_local]; the
    state is [dst] and [scratch], the value [written]. *)
Fixpoint read_range_chunks self (entry : Entry) (label : ChecksumLabel) (offset end_ : Z)
    (count : nat) (local_chunk written : Z) : ST Error (bytes * ArchiveScratch) Z :=
  match count with
  | O => mret written
  | S count =>
      let chunk_size := ar_chunk_size self in
      lift (ensure (local_chunk <? chunk_count entry) (Corrupt "entry chunk range mismatch"));;
      global_chunk ← lift (ok_or (checked_add U32_MAX (first_chunk entry) local_chunk)
                             (Corrupt "chunk index overflow"));
      chunk ← lift (chunk self global_chunk);
      chunk_len ← lift (u64_to_usize (c_original_size chunk) "original chunk size");
      on_snd (zoom decoded (fun d scratch => {| stored := stored scratch; decoded := d |})
                (resize_buffer chunk_len "decoded chunk allocation"));;
      on_snd (zoom (fun scratch => (decoded scratch, stored scratch))
                (fun '(d, s) _ => {| stored := s; decoded := d |})
                (read_chunk_by_index_into self label local_chunk global_chunk));;
      chunk_start ← lift (ok_or (checked_mul U64_MAX local_chunk chunk_size)
                            (Corrupt "range chunk offset overflow"));
      chunk_end ← lift (ok_or (checked_add U64_MAX chunk_start (c_original_size chunk))
                          (Corrupt "range chunk end overflow"));
      d1 ← lift (sub_or_panic (Z.max offset chunk_start) chunk_start);
      take_start ← lift (u64_to_usize d1 "range slice start");
      d2 ← lift (sub_or_panic (Z.min end_ chunk_end) chunk_start);
      take_end ← lift (u64_to_usize d2 "range slice end");
      amount ← lift (ok_or (checked_sub take_end take_start) (Corrupt "range slice order"));
      written_end ← lift (ok_or (checked_add USIZE_MAX written amount)
                            (Corrupt "range output size overflow"));
      '(dst, scratch) ← get;
      output ← lift (ok_or (slice_get dst written written_end)
                       (Corrupt "range output size mismatch"));
      decoded ← lift (ok_or (slice_get (decoded scratch) take_start take_end)
                        (Corrupt "range chunk slice mismatch"));
      on_fst (on_slice written written_end Panic (copy_from_slice decoded));;
      read_range_chunks self entry label offset end_ count (local_chunk + 1) written_end
  end.

(** The state is [dst] and [scratch]. *)
Definition read_range_index_into self (idx : Z) (label : ChecksumLabel) (offset : Z) :
    ST Error (bytes * ArchiveScratch) unit :=
  '(dst, _) ← get;
  if len dst =? 0 then mret tt
  else
    entry ← lift (entry_at self idx);
    n ← lift (usize_to_u64 (len dst) "range length");
    end_ ← lift (ok_or (checked_add U64_MAX offset n) InvalidRange);
    let chunk_size := ar_chunk_size self in
    q1 ← lift (div_or_panic offset chunk_size);
    first_local ← lift (ok_or (try_from U32_MAX q1) (TooLarge "range chunk index"));
    e1 ← lift (sub_or_panic end_ 1);
    q2 ← lift (div_or_panic e1 chunk_size);
    last_local ← lift (ok_or (try_from U32_MAX q2) (TooLarge "range chunk index"));
    written ← read_range_chunks self entry label offset end_
                (Z.to_nat (last_local - first_local + 1)) first_local 0;
    '(dst, _) ← get;
    lift (ensure (written =? len dst) (Corrupt "range decompressed size mismatch"));;
    mret tt.

(** [read_range] and [read_range_exact] differ in [exact] only. *)
Definition read_range_new self (p : bytes) (offset n : Z) (exact : bool) : Res bytes :=
  normalized ← normalize_lookup_path p;
  idx ← find_entry_index_normalized self normalized;
  actual_len ← range_len self idx offset n exact;
  out ← allocate actual_len "range allocation";
  let '(r, (out, _)) :=
    read_range_index_into self idx (LabelPath normalized) offset (out, empty_scratch) in
  r;; mret out.

Definition read_range self (p : bytes) (offset n : Z) : Res bytes :=
  read_range_new self p offset n false.

Definition read_range_exact self (p : bytes) (offset n : Z) : Res bytes :=
  read_range_new self p offset n true.

(** A call that is handed [&mut dst[..n]]. *)
Definition on_prefix {A} (n : Z) (m : ST Error (bytes * ArchiveScratch) A) :
    ST Error (bytes * ArchiveScratch) A := fun '(dst, scratch) =>
  match slice_get dst 0 n with
  | Some prefix =>
      let '(r, (prefix, scratch)) := m (prefix, scratch) in (r, (splice dst 0 prefix, scratch))
  | None => (Panic, (dst, scratch))
  end.

Definition read_range_with_scratch self (p : bytes) (offset : Z) :
    ST Error (bytes * ArchiveScratch) Z :=
  normalized ← lift (normalize_lookup_path p);
  idx ← lift (find_entry_index_normalized self normalized);
  '(dst, _) ← get;
  actual_len ← lift (range_len self idx offset (len dst) false);
  on_prefix actual_len (read_range_index_into self idx (LabelPath normalized) offset);;
  mret actual_len.

Definition read_range_into self (p : bytes) (offset : Z) : ST Error bytes Z := fun dst =>
  let '(r, (dst, _)) := read_range_with_scratch self p offset (dst, empty_scratch) in (r, dst).
End Range.

(** ** Lemmas: the chunks of an asset as pages *)

Lemma full_geometry cz cs i c :
  1 <= cz -> Forall (fun c => 1 <= c_original_size c <= cz) cs -> full_but_last cz cs ->
  cs !! i = Some c ->
  original_total (take i cs) = Z.of_nat i * cz /\
  Z.of_nat i * cz + c_original_size c <= original_total cs /\
  (S i = length cs -> Z.of_nat i * cz + c_original_size c = original_total cs) /\
  ((S i < length cs)%nat -> c_original_size c = cz).
Proof.
  intros Hcz Hf. revert i. induction Hf as [|d cs Hd Hf IH]; intros i Hfull Hi; [done|].
  apply full_but_last_cons in Hfull as [Hd' Hfull].
  assert (Hnn : 0 <= original_total cs).
  { clear -Hf. induction Hf as [|x cs Hx Hf IH]; cbn; [lia|]. lia. }
  destruct i as [|i]; cbn [take sum_over length] in *.
  - injection Hi as <-. split_and!; [done|lia| |].
    + intros Hl. destruct cs; [cbn; lia|done].
    + intros Hl. destruct Hd' as [->|]; [cbn in Hl; lia|done].
  - destruct (IH i Hfull Hi) as (Ht & Hle & Heq & Hfu).
    destruct Hd' as [->|Hd']; [done|]. rewrite Nat2Z.inj_succ. split_and!; [lia|lia| |].
    + intros Hl. specialize (Heq ltac:(lia)). lia.
    + intros Hl. apply Hfu. lia.
Qed.

Lemma total_le cz cs :
  Forall (fun c => 1 <= c_original_size c <= cz) cs -> 0 <= original_total cs <= len cs * cz.
Proof.
  induction 1 as [|c cs Hc Hf IH]; [unfold len; cbn; lia|]. cbn [sum_over]. rewrite len_cons. lia.
Qed.

Section Geometry.
Context {C : Crates} {R : Type} (self : Archive R) (Hwf : ArchiveWf self).
Context (e : Entry) (Hef : EntryFacts self e).
Local Notation cz := (ar_chunk_size self).

Lemma owned_sizes : Forall (fun c => 1 <= c_original_size c <= cz) (owned self e).
Proof.
  apply Forall_forall. intros c (i & Hi)%list_elem_of_lookup. unfold owned in Hi.
  apply lookup_take_Some in Hi as [Hi _]. rewrite lookup_drop in Hi.
  assert (Hidx : Prelude.index (ar_chunks self) (first_chunk e + Z.of_nat i) = Some c).
  { destruct (ef_first _ _ Hef). apply index_Some. split; [lia|].
    by replace (Z.to_nat (first_chunk e + Z.of_nat i)) with (Z.to_nat (first_chunk e) + i)%nat by lia. }
  by destruct (chunk_facts self Hwf _ _ Hidx) as (_&_&?&_).
Qed.

Lemma length_owned : length (owned self e) = Z.to_nat (chunk_count e).
Proof.
  destruct Hef as [[? _] [? _] _ Hr _ _]. unfold owned, len in *. rewrite length_take, length_drop. lia.
Qed.

Lemma entry_chunk l :
  0 <= l < chunk_count e ->
  exists c, Prelude.index (ar_chunks self) (first_chunk e + l) = Some c /\
    owned self e !! Z.to_nat l = Some c /\
    1 <= c_original_size c <= cz /\ l * cz + c_original_size c <= original_size e /\
    (l + 1 < chunk_count e -> c_original_size c = cz) /\
    (l + 1 = chunk_count e -> l * cz + c_original_size c = original_size e).
Proof.
  intros Hl. pose proof owned_sizes as Hs. pose proof length_owned as Hn.
  destruct (lookup_lt_is_Some_2 (owned self e) (Z.to_nat l)) as [c Hc]; [lia|].
  exists c. pose proof (aw_chunk_size _ Hwf).
  destruct (full_geometry cz (owned self e) (Z.to_nat l) c ltac:(lia) Hs (ef_full _ _ Hef) Hc)
    as (_ & Hle & Heq & Hfull).
  rewrite (ef_original _ _ Hef), Z2Nat.id in * by lia.
  rewrite (owned_lookup self e l Hef Hl). split_and!; try done.
  - rewrite Forall_forall in Hs. by apply Hs, (list_elem_of_lookup_2 _ (Z.to_nat l)).
  - rewrite Forall_forall in Hs. by apply Hs, (list_elem_of_lookup_2 _ (Z.to_nat l)).
  - intros. apply Hfull. lia.
  - intros. apply Heq. lia.
Qed.

Lemma last_chunk end_ : 1 <= end_ <= original_size e -> 0 <= (end_ - 1) / cz < chunk_count e.
Proof.
  intros He. pose proof (total_le cz _ owned_sizes) as [_ Ht]. rewrite (ef_original _ _ Hef) in Ht.
  pose proof (aw_chunk_size _ Hwf) as [Hcz _]. destruct (ef_count _ _ Hef) as [Hcnt _].
  unfold len in Ht. rewrite length_owned, Z2Nat.id in Ht by done.
  split; [apply Z.div_pos; lia|]. apply Z.div_lt_upper_bound; lia.
Qed.

Lemma chunk_content_size `{!DecompressSpec C} content g c o :
  Prelude.index (ar_chunks self) g = Some c -> chunk_content self content g = Some o ->
  len o = c_original_size c.
Proof.
  intros Hi. unfold chunk_content. rewrite Hi. cbn. destruct (slice_get _ _ _) as [s|]; [|done]. cbn.
  destruct (chunk_facts self Hwf g c Hi) as (_&_&?&_). apply decode_stored_len. lia.
Qed.

(** Chunk [l] of the asset is the page of its content that starts at
    [l * chunk_size]. *)
Lemma content_page `{!DecompressSpec C} content data l out :
  entry_content self content e = Some data -> 0 <= l < chunk_count e ->
  chunk_content self content (first_chunk e + l) = Some out ->
  slice_get data (l * cz) (l * cz + len out) = Some out.
Proof.
  intros Hd Hl Hout. destruct (entry_chunk l Hl) as (c & _ & Hc & _).
  pose proof (aw_chunk_size _ Hwf).
  destruct (full_geometry cz (owned self e) (Z.to_nat l) c ltac:(lia) owned_sizes (ef_full _ _ Hef) Hc)
    as (Hpre & _).
  unfold owned in Hpre. rewrite take_take in Hpre.
  replace (Nat.min (Z.to_nat l) (Z.to_nat (chunk_count e))) with (Z.to_nat l) in Hpre by lia.
  assert (Hgen : forall n g k data', 0 <= g -> (k < n)%nat ->
    chunks_content self content g n = Some data' ->
    chunk_content self content (g + Z.of_nat k) = Some out ->
    exists pre post, data' = pre ++ out ++ post /\
      len pre = original_total (take k (drop (Z.to_nat g) (ar_chunks self)))).
  { clear -Hwf DecompressSpec0. induction n as [|n IH]; intros g k data' Hg Hk Hd Ho; [lia|].
    cbn [chunks_content] in Hd. destruct (chunk_content self content g) as [s|] eqn:Hs; [|done].
    cbn in Hd. destruct (chunks_content _ _ _ _) as [rest|] eqn:Hr; [|done]. injection Hd as <-.
    destruct k as [|k].
    - rewrite Z.add_0_r, Hs in Ho. injection Ho as ->. exists [], rest. by split.
    - assert (Hi : exists c, Prelude.index (ar_chunks self) g = Some c).
      { unfold chunk_content in Hs. destruct (Prelude.index _ g); [by eexists|done]. }
      destruct Hi as [c Hi]. pose proof (chunk_content_size content g c s Hi Hs) as Hls. apply index_Some in Hi as [_ Hi].
      destruct (IH (g + 1) k rest ltac:(lia) ltac:(lia) Hr) as (pre & post & -> & Hp).
      { rewrite <- Ho. f_equal. lia. }
      exists (s ++ pre), post. rewrite <- app_assoc. split; [done|].
      rewrite len_app, Hp, (drop_S _ c (Z.to_nat g)) by done. cbn [take sum_over]. rewrite Hls.
      by replace (Z.to_nat (g + 1)) with (S (Z.to_nat g)) by lia. }
  destruct (ef_first _ _ Hef).
  destruct (Hgen (Z.to_nat (chunk_count e)) (first_chunk e) (Z.to_nat l) data) as (pre & post & -> & Hp);
    [done|lia|done|by rewrite Z2Nat.id by lia|].
  rewrite Hpre, Z2Nat.id in Hp by lia. rewrite <- Hp. apply slice_get_app.
Qed.
End Geometry.

(** ** Lemmas: the loop over the pages *)

Lemma take_splice_to {A} (d x : list A) w :
  0 <= w -> w + len x <= len d ->
  take (Z.to_nat (w + len x)) (splice d w x) = take (Z.to_nat w) d ++ x.
Proof.
  intros Hw Hl. unfold splice, len in *. rewrite app_assoc. apply take_app_length'.
  rewrite length_app, length_take. lia.
Qed.

Lemma take_page (data out : bytes) o ts te w :
  slice_get data o (o + len out) = Some out -> 0 <= ts <= te -> te <= len out -> w = te - ts ->
  0 <= o ->
  take (Z.to_nat (te - ts)) (drop (Z.to_nat ts) out) =
  take (Z.to_nat w) (drop (Z.to_nat (o + ts)) data).
Proof.
  intros (? & ? & Ho)%slice_get_Some Ht Hte -> Hoz. rewrite Ho at 1.
  replace (o + len out - o) with (len out) by lia. rewrite to_nat_len.
  replace (Z.to_nat (o + ts)) with (Z.to_nat o + Z.to_nat ts)%nat by lia.
  rewrite <- drop_drop, skipn_firstn_comm, take_take. f_equal. unfold len in *. lia.
Qed.

Lemma slice_get_in {A} (l : list A) a b :
  0 <= a -> a <= b -> b <= len l ->
  slice_get l a b = Some (take (Z.to_nat (b - a)) (drop (Z.to_nat a) l)).
Proof. intros. unfold slice_get. by zdecide. Qed.

(** [copy_from_slice] into a sub-slice of the destination. *)
Lemma copy_into_slice {E B T} (dst src : bytes) (t : T) a b (f : unit -> ST E (bytes * T) B) Q X :
  0 <= a -> a <= b -> b <= len dst -> len src = b - a ->
  ssafe (f tt) (splice dst a src, t) Q X ->
  ssafe (on_fst (on_slice a b Panic (copy_from_slice src)) ≫= f) (dst, t) Q X.
Proof.
  intros Ha Hb Hl Hs Hf. eapply (ssafe_bind _ _ _ (fun _ s => s = (splice dst a src, t)));
    [|by intros [] s _ ->].
  apply ssafe_zoom. unfold ssafe, on_slice. cbn [fst snd]. rewrite slice_get_in by done.
  rewrite copy_from_slice_run; [done|]. rewrite length_take, length_drop. unfold len in *. lia.
Qed.

Section Pages.
Context {C : Crates} {R : Type} `{RandomAccessRead R} `{!SourceSafe R} `{!DecompressSpec C}
  (self : Archive R) (Hwf : ArchiveWf self) (e : Entry) (Hef : EntryFacts self e).
Local Notation cz := (ar_chunk_size self).

(** Memory is available, and every chunk of the asset can be read. *)
Definition Readable : Prop :=
  (forall what n, alloc_ok what n = true) /\
  forall label l c d st, 0 <= l < chunk_count e ->
    Prelude.index (ar_chunks self) (first_chunk e + l) = Some c -> len d = c_original_size c ->
    exists s, read_chunk_by_index_into self label l (first_chunk e + l) (d, st) = (Ok tt, s).

(** [data] shows, at its place, every chunk of the asset that can be read. *)
Definition Agrees (data : bytes) : Prop :=
  forall l out, 0 <= l < chunk_count e -> ChunkRead self (first_chunk e + l) out ->
    slice_get data (l * cz) (l * cz + len out) = Some out.

(** The first [w] bytes of [dst] are [data] from [offset] on. *)
Definition filled (data : bytes) (offset w : Z) (dst : bytes) : Prop :=
  take (Z.to_nat w) dst = take (Z.to_nat w) (drop (Z.to_nat offset) data).

Lemma read_page_safe label l c d st :
  0 <= l < chunk_count e -> Prelude.index (ar_chunks self) (first_chunk e + l) = Some c ->
  len d = c_original_size c ->
  ssafe (read_chunk_by_index_into self label l (first_chunk e + l)) (d, st)
    (fun _ s => length s.1 = length d /\ ChunkRead self (first_chunk e + l) s.1)
    (fun _ => ~ Readable).
Proof.
  intros Hl Hc Hd. destruct Hef as [[? _] [_ ?] _ Hr _ _]. pose proof (aw_chunks _ Hwf) as [Hn _].
  pose proof (read_chunk_safe self Hwf label l (first_chunk e + l) d st ltac:(lia)) as Hs.
  unfold ssafe in *. destruct (read_chunk_by_index_into _ _ _ _ _) as [[[]|err|] s] eqn:E; [done| |done].
  intros [_ Hall]. destruct (Hall label l c d st Hl Hc Hd) as [s' Hok]. congruence.
Qed.

Section OnePage.
Context (offset end_ : Z) (Hoff : 0 <= offset < end_) (Hend : end_ <= original_size e).

(** What is written before page [l]. *)
Definition progress (l : Z) : Z := Z.min end_ (Z.max offset (l * cz)) - offset.

Lemma progress_step l c :
  offset / cz <= l -> l <= (end_ - 1) / cz ->
  Prelude.index (ar_chunks self) (first_chunk e + l) = Some c ->
  0 <= l /\ l * cz <= end_ - 1 /\ progress l = Z.max offset (l * cz) - offset /\
  progress (l + 1) = Z.min end_ (l * cz + c_original_size c) - offset /\
  Z.max offset (l * cz) < Z.min end_ (l * cz + c_original_size c).
Proof.
  intros Hf Hl Hi. pose proof (aw_chunk_size _ Hwf) as [Hcz _].
  pose proof (Z.div_pos offset cz ltac:(lia) ltac:(lia)).
  pose proof (last_chunk self Hwf e Hef end_ ltac:(lia)).
  destruct (entry_chunk self Hwf e Hef l ltac:(lia)) as (c' & Hi' & _ & Hsz & Hle & Hfull & Hlast).
  rewrite Hi in Hi'. injection Hi' as <-.
  pose proof (Z.mul_div_le (end_ - 1) cz ltac:(lia)).
  assert (l * cz <= end_ - 1) by nia.
  assert (offset < (l + 1) * cz).
  { pose proof (Z.mul_succ_div_gt offset cz ltac:(lia)). nia. }
  unfold progress. destruct (Z.eq_dec (l + 1) (chunk_count e)) as [Hx|Hx].
  - specialize (Hlast Hx). rewrite Hlast. split_and!; nia.
  - specialize (Hfull ltac:(lia)). rewrite Hfull. split_and!; nia.
Qed.

Lemma read_range_chunks_safe label count l dst scratch :
  end_ <= U64_MAX -> offset / cz <= l -> l + Z.of_nat count = (end_ - 1) / cz + 1 ->
  len dst = end_ - offset ->
  ssafe (read_range_chunks self e label offset end_ count l (progress l)) (dst, scratch)
    (fun w s => length s.1 = length dst /\ w = progress (l + Z.of_nat count) /\
       (forall k, l <= k < l + Z.of_nat count -> exists out, ChunkRead self (first_chunk e + k) out) /\
       forall data, Agrees data -> filled data offset (progress l) dst -> filled data offset w s.1)
    (fun s => length s.1 = length dst /\ ~ Readable).
Proof.
  intros Hu. revert l dst scratch. induction count as [|count IH]; intros l dst scratch Hf Hl Hd;
    cbn [read_range_chunks].
  { apply ssafe_ret. rewrite Z.add_0_r. split_and!; [done|done|lia|]. by intros data _ ?. }
  pose proof (last_chunk self Hwf e Hef end_ ltac:(lia)) as Hlast.
  assert (Hl0 : 0 <= l).
  { pose proof (aw_chunk_size _ Hwf). pose proof (Z.div_pos offset cz ltac:(lia) ltac:(lia)). lia. }
  destruct (entry_chunk self Hwf e Hef l ltac:(lia)) as (c & Hc & _ & Hsz & Hle & _).
  destruct (progress_step l c Hf ltac:(lia) Hc) as (_ & Hlc & Hp & Hp1 & Hlt).
  destruct Hef as [[? _] [_ Hcm] [_ Hsm] Hr _ _]. pose proof (aw_chunks _ Hwf) as [Hnc _].
  destruct (chunk_facts self Hwf _ c Hc) as ((_&_&Hcs&_)&_).
  assert (0 <= l * cz) by (pose proof (aw_chunk_size _ Hwf); nia).
  zdecide. apply ssafe_lift_Ok. rewrite (checked_add_le U32_MAX) by lia. apply ssafe_lift_Ok.
  rewrite chunk_run, Hc by lia. apply ssafe_lift_Ok.
  rewrite u64_to_usize_ok by done. apply ssafe_lift_Ok.
  eapply (ssafe_bind _ _ _ (fun _ s => s.1 = dst /\ len (decoded s.2) = c_original_size c)).
  { apply ssafe_zoom, ssafe_zoom. unfold resize_buffer. apply ssafe_get_bind.
    eapply ssafe_lift_bind_err; [apply np_ensure| |].
    - intros err Herr. cbn. split; [done|]. intros [Hall _]. unfold try_reserve in Herr.
      by rewrite Hall in Herr.
    - intros [] _. cbn. split; [done|]. unfold len. rewrite length_resize. lia. }
  intros [] [d sc] _ [Hd1 Hdec]. cbn in Hd1, Hdec. subst d.
  eapply (ssafe_bind _ _ _ (fun _ s => s.1 = dst /\ len (decoded s.2) = c_original_size c /\
    ChunkRead self (first_chunk e + l) (decoded s.2))).
  { apply ssafe_zoom, ssafe_zoom. cbn.
    eapply ssafe_mono; [apply (read_page_safe label l c); [lia|done|done]| |]; cbn.
    - intros [] [d s] _ [Hdl Hr']. cbn in *. split_and!; [done|unfold len in *; lia|done].
    - intros [d s] Hn. by split. }
  intros [] [d sc'] _ (Hd1 & Hdl & Hread). cbn in Hd1, Hdl, Hread. subst d.
  rewrite checked_mul_le by lia. apply ssafe_lift_Ok.
  rewrite (checked_add_le U64_MAX (l * cz)) by lia. apply ssafe_lift_Ok.
  rewrite (sub_or_panic_le (Z.max offset (l * cz))) by lia. apply ssafe_lift_Ok.
  rewrite u64_to_usize_ok by (unfold in_range; lia). apply ssafe_lift_Ok.
  rewrite (sub_or_panic_le (Z.min end_ _)) by lia. apply ssafe_lift_Ok.
  rewrite u64_to_usize_ok by (unfold in_range; lia). apply ssafe_lift_Ok.
  rewrite checked_sub_le by lia. apply ssafe_lift_Ok.
  rewrite (checked_add_le USIZE_MAX) by (unfold USIZE_MAX; lia). apply ssafe_lift_Ok.
  apply ssafe_get_bind. cbv beta iota.
  replace (progress l + (Z.min end_ (l * cz + c_original_size c) - l * cz -
    (Z.max offset (l * cz) - l * cz))) with (progress (l + 1)) by lia.
  rewrite slice_get_in by lia. apply ssafe_lift_Ok. rewrite slice_get_in by lia. apply ssafe_lift_Ok.
  set (ts := Z.max offset (l * cz) - l * cz). set (te := Z.min end_ (l * cz + c_original_size c) - l * cz).
  set (x := take (Z.to_nat (te - ts)) (drop (Z.to_nat ts) (decoded sc'))).
  assert (Hx : len x = progress (l + 1) - progress l).
  { unfold x, len in *. rewrite length_take, length_drop. lia. }
  apply copy_into_slice; [lia..|].
  assert (Hsl : len (splice dst (progress l) x) = len dst) by (apply len_splice; lia).
  eapply ssafe_mono; [apply IH; lia| |].
  - intros w [d s] _ (Hd' & -> & Hall & Hfill). cbn in Hd', Hfill |- *. split_and!.
    + unfold len in *. lia.
    + f_equal. lia.
    + intros k Hk. destruct (decide (k = l)) as [->|]; [by eexists|]. apply Hall. lia.
    + intros data Hag Hdst. apply Hfill; [done|]. unfold filled in *.
      replace (progress (l + 1)) with (progress l + len x) by lia.
      rewrite take_splice_to by lia. rewrite Hdst, Hx. unfold x.
      rewrite (take_page data (decoded sc') (l * cz) ts te (te - ts)); try lia; [|by apply Hag; [lia|]].
      replace (l * cz + ts) with (offset + progress l) by lia.
      replace (Z.to_nat (offset + progress l)) with (Z.to_nat offset + Z.to_nat (progress l))%nat by lia.
      rewrite <- drop_drop, take_take_drop. f_equal. lia.
  - intros [d s] [Hd' ?]. cbn in *. split; [unfold len in *; lia|done].
Qed.
End OnePage.
End Pages.

(** ** Lemmas: one range *)

Section OneRange.
Context {C : Crates} {R : Type} `{RandomAccessRead R} (self : Archive R) (Hwf : ArchiveWf self).
Local Notation cz := (ar_chunk_size self).

Lemma usize_to_u64_ok v what : is_u64 v -> usize_to_u64 v what = Ok v.
Proof. intros [_ Hv]. unfold usize_to_u64, try_from. by zdecide. Qed.

Lemma checked_add_gt {E} max a b (err : E) : max < a + b -> ok_or (checked_add max a b) err = Err err.
Proof. intros Hlt. unfold checked_add. by zdecide. Qed.

(** The number of chunks a range of [m] bytes touches. *)
Definition touched (offset m : Z) : Z :=
  if m =? 0 then 0 else (offset + m - 1) / cz - offset / cz + 1.

(** What [range_len] computes. *)
Definition range_value (e : Entry) (offset n : Z) (exact : bool) : Res Z :=
  let size := original_size e in
  if (size <? offset) || (exact && (size <? offset + n))
     || ((offset <? size) && (0 <? n) && (U64_MAX <? offset + n))
  then Err InvalidRange
  else let m := Z.min n (size - offset) in
       if touched offset m <=? ar_max_chunks_per_operation self then Ok m else Err TooManyChunks.

Lemma range_count_run offset m :
  0 <= offset -> 1 <= m -> offset + m <= U64_MAX ->
  (actual64 ← usize_to_u64 m "range length";
   end_ ← ok_or (checked_add U64_MAX offset actual64) InvalidRange;
   first ← div_or_panic offset cz;
   e1 ← sub_or_panic end_ 1;
   last ← div_or_panic e1 cz;
   count ← ok_or (checked_sub last first ≫= fun value =>
                  checked_add U64_MAX value 1 ≫= fun value =>
                  try_from U32_MAX value) TooManyChunks;
   ensure_chunk_operation_limit self count) =
  if touched offset m <=? ar_max_chunks_per_operation self then Ok tt else Err TooManyChunks.
Proof.
  intros Ho Hm Hu. pose proof (aw_chunk_size _ Hwf) as [Hcz _]. pose proof (aw_limit _ Hwf) as [_ Hlim].
  rewrite usize_to_u64_ok by (unfold in_range; lia). cbn [mbind result_bind].
  rewrite checked_add_le by lia. cbn [mbind result_bind].
  rewrite div_or_panic_pos by lia. cbn [mbind result_bind].
  rewrite sub_or_panic_le by lia. cbn [mbind result_bind].
  rewrite div_or_panic_pos by lia. cbn [mbind result_bind].
  assert (Hle : offset / cz <= (offset + m - 1) / cz) by (apply Z.div_le_mono; lia).
  assert (Hb : (offset + m - 1) / cz <= offset + m - 1) by (apply Z.div_le_upper_bound; nia).
  pose proof (Z.div_pos offset cz Ho ltac:(lia)).
  unfold checked_sub, checked_add, try_from. zdecide. cbn [mbind option_bind]. zdecide.
  cbn [mbind option_bind].
  unfold touched. zdecide. unfold ensure_chunk_operation_limit, ensure.
  destruct (Z.leb_spec ((offset + m - 1) / cz - offset / cz + 1) U32_MAX); cbn [ok_or mbind result_bind];
    [done|]. by zdecide.
Qed.

Lemma range_len_run idx e offset n exact :
  Prelude.index (ar_entries self) idx = Some e -> is_u64 offset -> is_u64 n ->
  range_len self idx offset n exact = range_value e offset n exact.
Proof.
  intros He [Ho Hou] [Hn Hnu].
  destruct (entry_facts self Hwf e (index_elem _ _ _ He)) as [_ _ [Hs Hsu] _ _ _].
  pose proof (aw_limit _ Hwf) as [Hlim _].
  unfold range_len, range_value, entry_at. rewrite He. cbn [or_panic mbind result_bind].
  assert (Hz : forall x, x = 0 -> (touched offset x <=? ar_max_chunks_per_operation self) = true).
  { intros x ->. unfold touched. cbn. by apply Z.leb_le. }
  destruct (Z.compare_spec offset (original_size e)) as [Heq|Hlt|Hgt].
  - destruct (Z.eqb_spec n 0) as [Hn0|Hn0], exact; cbn [andb orb]; zdecide; cbn [andb orb]; try done;
      rewrite Hz by lia; f_equal; lia.
  - destruct (Z.eqb_spec n 0) as [Hn0|Hn0].
    { subst n. zdecide. destruct exact; cbn [andb orb]; rewrite Hz by lia; f_equal; lia. }
    rewrite (usize_to_u64_ok n) by done. zdecide. cbn [mbind result_bind andb orb].
    destruct (Z.leb_spec (offset + n) U64_MAX) as [Hu|Hu].
    2:{ rewrite checked_add_gt by lia. replace (U64_MAX <? offset + n) with true
          by (symmetry; apply Z.ltb_lt; lia). by rewrite orb_true_r. }
    rewrite (checked_add_le U64_MAX offset n) by lia. cbn [mbind result_bind].
    replace (U64_MAX <? offset + n) with false by (symmetry; apply Z.ltb_ge; lia).
    rewrite orb_false_r.
    destruct exact; cbn [negb andb orb].
    + destruct (Z.leb_spec (offset + n) (original_size e)); cbn [ensure mbind result_bind]; zdecide;
        cbn [orb]; [|done].
      rewrite sub_or_panic_le by lia. cbn [mbind result_bind].
      replace (Z.min (offset + n) (original_size e) - offset) with n by lia.
      rewrite u64_to_usize_ok by done. cbn [mbind result_bind]. zdecide. cbn [negb].
      rewrite range_count_run by lia. replace (Z.min n (original_size e - offset)) with n by lia.
      by destruct (_ <=? _).
    + cbn [ensure mbind result_bind]. rewrite sub_or_panic_le by lia. cbn [mbind result_bind].
      replace (Z.min (offset + n) (original_size e) - offset) with (Z.min n (original_size e - offset)) by lia.
      rewrite u64_to_usize_ok by (unfold in_range; lia). cbn [mbind result_bind]. zdecide. cbn [negb].
      rewrite range_count_run by lia. by destruct (_ <=? _).
  - zdecide. by destruct (n =? 0).
Qed.

Lemma range_value_Ok e offset n exact m :
  0 <= n -> range_value e offset n exact = Ok m ->
  offset <= original_size e /\ m = Z.min n (original_size e - offset) /\
  touched offset m <= ar_max_chunks_per_operation self.
Proof.
  unfold range_value. intros Hn.
  destruct (Z.ltb_spec (original_size e) offset); cbn [orb]; [done|].
  destruct (_ || _); [done|].
  destruct (Z.leb_spec (touched offset (Z.min n (original_size e - offset)))
    (ar_max_chunks_per_operation self)); [|done]. by intros [= <-].
Qed.

Lemma read_range_index_safe `{!SourceSafe R} `{!DecompressSpec C} idx e label offset dst scratch :
  Prelude.index (ar_entries self) idx = Some e -> is_u64 offset ->
  offset + len dst <= original_size e ->
  ssafe (read_range_index_into self idx label offset) (dst, scratch)
    (fun _ s => length s.1 = length dst /\
       (forall k, dst <> [] -> offset / cz <= k <= (offset + len dst - 1) / cz ->
          exists out, ChunkRead self (first_chunk e + k) out) /\
       forall data, Agrees self e data -> dst = [] \/ slice_get data offset (offset + len dst) = Some s.1)
    (fun s => length s.1 = length dst /\ ~ Readable self e).
Proof.
  intros He [Ho _] Hin. unfold read_range_index_into. apply ssafe_get_bind. cbv beta iota.
  destruct (Z.eqb_spec (len dst) 0) as [Hz%len_0_nil|Hz].
  { apply ssafe_ret. split_and!; [done|done|by left]. }
  pose proof (entry_facts self Hwf e (index_elem _ _ _ He)) as Hef.
  pose proof (len_nonneg dst). destruct (ef_size _ _ Hef) as [_ Hsu].
  pose proof (aw_chunk_size _ Hwf) as [Hcz _]. destruct (ef_count _ _ Hef) as [_ Hcm].
  pose proof (last_chunk self Hwf e Hef (offset + len dst) ltac:(lia)) as Hlast.
  pose proof (Z.div_pos offset cz Ho ltac:(lia)) as Hfp.
  assert (Hfl : offset / cz <= (offset + len dst - 1) / cz) by (apply Z.div_le_mono; lia).
  unfold entry_at. rewrite He. apply ssafe_lift_Ok.
  rewrite usize_to_u64_ok by (unfold in_range; lia). apply ssafe_lift_Ok.
  rewrite checked_add_le by lia. apply ssafe_lift_Ok.
  rewrite (div_or_panic_pos offset) by lia. apply ssafe_lift_Ok.
  rewrite try_from_le by lia. apply ssafe_lift_Ok.
  rewrite sub_or_panic_le by lia. apply ssafe_lift_Ok.
  rewrite div_or_panic_pos by lia. apply ssafe_lift_Ok.
  rewrite try_from_le by lia. apply ssafe_lift_Ok.
  set (end_ := offset + len dst) in *.
  assert (Hp0 : progress self offset end_ (offset / cz) = 0).
  { unfold progress. pose proof (Z.mul_div_le offset cz ltac:(lia)). lia. }
  assert (Hpe : progress self offset end_ ((end_ - 1) / cz + 1) = len dst).
  { unfold progress. pose proof (Z.mul_succ_div_gt (end_ - 1) cz ltac:(lia)). unfold end_ in *. nia. }
  pose proof (read_range_chunks_safe self Hwf e Hef offset end_ ltac:(unfold end_; lia) Hin label
    (Z.to_nat ((end_ - 1) / cz - offset / cz + 1)) (offset / cz) dst scratch ltac:(lia) ltac:(lia)
    ltac:(lia) ltac:(unfold end_; lia)) as Hrun.
  rewrite Hp0 in Hrun.
  eapply ssafe_bind; [exact Hrun|]. intros w [d s] _ (Hd & Hw & Hall & Hfill). cbn in Hd, Hfill.
  rewrite Z2Nat.id in Hw, Hall by lia.
  replace (offset / cz + ((end_ - 1) / cz - offset / cz + 1)) with ((end_ - 1) / cz + 1) in Hw, Hall by lia.
  rewrite Hpe in Hw. subst w. apply ssafe_get_bind. cbv beta iota.
  replace (len d) with (len dst) by (unfold len; congruence). rewrite Z.eqb_refl.
  apply ssafe_lift_Ok, ssafe_ret. cbn [fst]. split_and!; [done|intros k _ Hk; apply Hall; lia|].
  intros data Hag. right. specialize (Hfill data Hag eq_refl). unfold filled in Hfill.
  rewrite to_nat_len in Hfill. rewrite take_ge in Hfill by lia.
  assert (Hl : length d = length (take (length dst) (drop (Z.to_nat offset) data))) by congruence.
  rewrite length_take, length_drop in Hl. apply slice_get_Some. unfold end_, len in *.
  split_and!; [lia..|]. rewrite Hfill. f_equal. lia.
Qed.

(** The content of an intact asset agrees with its readable chunks. *)
Lemma content_agrees `{!SourceHolds R content} `{!DecompressSpec C} e data :
  EntryFacts self e -> entry_content self (content (ar_source self)) e = Some data ->
  Agrees self e data.
Proof.
  intros Hef Hd l out Hl Hr. apply (content_page self Hwf e Hef (content (ar_source self))); [done|done|].
  by apply ChunkRead_content.
Qed.

(** An intact asset of a reliable source is readable. *)
Lemma content_readable `{!SourceReliable R content} `{!AllocSpec C} `{!DecompressSpec C} e data :
  EntryFacts self e -> is_u64 (len (content (ar_source self))) ->
  1 <= ar_max_chunks_per_operation self ->
  entry_content self (content (ar_source self)) e = Some data -> Readable self e.
Proof.
  intros Hef Hu Hlim Hd. split; [apply alloc_always|]. intros label l c d st Hl Hc Hdl.
  assert (Hgen : forall n g k data', (k < n)%nat ->
    chunks_content self (content (ar_source self)) g n = Some data' ->
    is_Some (chunk_content self (content (ar_source self)) (g + Z.of_nat k))).
  { clear. induction n as [|n IH]; intros g k data' Hk; [lia|]. cbn [chunks_content].
    destruct (chunk_content _ _ g) as [s|] eqn:Hs; [|done]. cbn.
    destruct (chunks_content _ _ _ n) as [rest|] eqn:Hr; [|done]. intros _.
    destruct k as [|k]; [rewrite Z.add_0_r, Hs; by eexists|].
    replace (g + Z.of_nat (S k)) with (g + 1 + Z.of_nat k) by lia. apply (IH _ _ rest); [lia|done]. }
  destruct (Hgen (Z.to_nat (chunk_count e)) _ (Z.to_nat l) data ltac:(lia) Hd) as [out Hout]. rewrite Z2Nat.id in Hout by lia.
  pose proof (chunk_content_size self Hwf _ _ _ _ Hc Hout) as Hol.
  destruct (ef_first _ _ Hef). pose proof (ef_range _ _ Hef). pose proof (aw_chunks _ Hwf) as [? _].
  destruct (read_chunk_ok self Hwf Hu Hlim label l (first_chunk e + l) d st out) as [st' Hr];
    [lia|done|lia|by eexists].
Qed.
End OneRange.

Section PublicRanges.
Context {C : Crates} {R : Type} `{RandomAccessRead R} (self : Archive R) (Hwf : ArchiveWf self).
Local Notation cz := (ar_chunk_size self).

(** The chunks that the range [offset .. offset + m] of an asset touches were
    read. *)
Definition TouchedRead (e : Entry) (offset m : Z) : Prop :=
  forall k, 0 < m -> offset / cz <= k <= (offset + m - 1) / cz ->
    exists out, ChunkRead self (first_chunk e + k) out.

Lemma read_range_new_safe `{!SourceSafe R} `{!DecompressSpec C} p offset n exact :
  is_u64 offset -> is_u64 n ->
  safe (read_range_new self p offset n exact) (fun s =>
    exists i e, denotes self p i e /\ range_value self e offset n exact = Ok (len s) /\
      TouchedRead e offset (len s) /\
      forall data, Agrees self e data -> s = [] \/ slice_get data offset (offset + len s) = Some s).
Proof.
  intros Ho Hn. unfold read_range_new.
  destruct (denotes_cases self Hwf p) as [(q&i&e&Hq&Hf&He)|[[err ->]|(q&->&Hf)]]; [|done|].
  2:{ cbn [mbind result_bind]. by rewrite Hf. }
  rewrite Hq. cbn [mbind result_bind]. rewrite Hf. cbn [mbind result_bind].
  rewrite (range_len_run self Hwf i e) by done.
  destruct (range_value self e offset n exact) as [m|err|] eqn:Hm; cbn [mbind result_bind]; [|done|].
  2:{ unfold range_value in Hm. by repeat case_match. }
  unfold allocate, try_reserve. destruct (alloc_ok _ _); cbn [ensure mbind result_bind mret result_ret]; [|done].
  destruct (range_value_Ok self e offset n exact m ltac:(apply Hn) Hm) as (Hos & Hmv & _).
  destruct Ho as [? ?], Hn as [? ?].
  assert (Hl : len (replicate (Z.to_nat m) x00) = m) by (unfold len; rewrite length_replicate; lia).
  pose proof (read_range_index_safe self Hwf i e (LabelPath q) offset (replicate (Z.to_nat m) x00)
    empty_scratch He ltac:(done) ltac:(rewrite Hl; lia)) as Hs. rewrite Hl in Hs.
  unfold ssafe in Hs.
  destruct (read_range_index_into _ _ _ _ _) as [[[]|err|] [d s]]; cbn in *; [|done..].
  destruct Hs as (Hd & Ht & Hag). exists i, e.
  assert (Hdl : len d = m) by (unfold len in *; lia). rewrite Hdl. split_and!; [by exists q|done| |].
  - intros k Hm0. apply Ht. intros Hnil. rewrite Hnil in Hl. change (len []) with 0 in Hl. lia.
  - intros data Had. destruct (Hag data Had) as [Hnil|Hs]; [left|by right].
    rewrite Hnil in Hd. by apply nil_length_inv in Hd.
Qed.

Lemma read_range_new_ok `{!SourceSafe R} `{!DecompressSpec C} i e p offset n exact m :
  is_u64 offset -> is_u64 n -> denotes self p i e -> Readable self e ->
  range_value self e offset n exact = Ok m ->
  exists s, read_range_new self p offset n exact = Ok s.
Proof.
  intros Ho Hn (q & Hq & Hf & He) Hr Hm. unfold read_range_new. rewrite Hq. cbn [mbind result_bind].
  rewrite Hf. cbn [mbind result_bind]. rewrite (range_len_run self Hwf i e), Hm by done.
  cbn [mbind result_bind]. unfold allocate, try_reserve. rewrite (proj1 Hr).
  cbn [ensure mbind result_bind mret result_ret].
  destruct (range_value_Ok self e offset n exact m ltac:(apply Hn) Hm) as (Hos & Hmv & _).
  destruct Ho as [? ?], Hn as [? ?].
  assert (Hl : len (replicate (Z.to_nat m) x00) = m) by (unfold len; rewrite length_replicate; lia).
  pose proof (read_range_index_safe self Hwf i e (LabelPath q) offset (replicate (Z.to_nat m) x00)
    empty_scratch He ltac:(done) ltac:(rewrite Hl; lia)) as Hs. unfold ssafe in Hs.
  destruct (read_range_index_into _ _ _ _ _) as [[[]|err|] [d s]]; [by eexists|by destruct Hs|done].
Qed.
Lemma read_range_into_denotes `{!SourceSafe R} `{!DecompressSpec C} p offset dst scratch :
  is_u64 offset -> is_u64 (len dst) ->
  ssafe (read_range_with_scratch self p offset) (dst, scratch)
    (fun m s => length s.1 = length dst /\ exists i e x, denotes self p i e /\
       range_value self e offset (len dst) false = Ok m /\ len x = m /\ s.1 = splice dst 0 x /\
       forall data, Agrees self e data -> x = [] \/ slice_get data offset (offset + m) = Some x)
    (fun s => length s.1 = length dst).
Proof.
  intros Ho Hn. unfold read_range_with_scratch.
  destruct (denotes_cases self Hwf p) as [(q&i&e&Hq&Hf&He)|[[err ->]|(q&->&Hf)]]; [|done|].
  2:{ apply ssafe_lift_Ok. by rewrite Hf. }
  rewrite Hq. apply ssafe_lift_Ok. rewrite Hf. apply ssafe_lift_Ok, ssafe_get_bind. cbv beta iota.
  pose proof (range_len_run self Hwf i e offset (len dst) false He Ho Hn) as Hrl.
  rewrite Hrl. destruct (range_value self e offset (len dst) false) as [m|err|] eqn:Hm; [|done|].
  2:{ unfold range_value in Hm. by repeat case_match. }
  apply ssafe_lift_Ok.
  destruct (range_value_Ok self e offset (len dst) false m ltac:(apply Hn) Hm) as (Hos & Hmv & _).
  destruct Ho as [? ?], Hn as [? ?].
  set (prefix := take (Z.to_nat (m - 0)) (drop (Z.to_nat 0) dst)).
  assert (Hpl : len prefix = m).
  { unfold prefix, len in *. rewrite length_take, length_drop. lia. }
  pose proof (read_range_index_safe self Hwf i e (LabelPath q) offset prefix scratch He ltac:(done)
    ltac:(rewrite Hpl; lia)) as Hs. rewrite Hpl in Hs.
  eapply (ssafe_bind _ _ _ (fun _ s => length s.1 = length dst /\ exists x, s.1 = splice dst 0 x /\ len x = m /\
    forall data, Agrees self e data -> x = [] \/ slice_get data offset (offset + m) = Some x)).
  - unfold ssafe, on_prefix in *. rewrite slice_get_in by lia. fold prefix.
    destruct (read_range_index_into _ _ _ _ _) as [[[]|err|] [x s]]; cbn in *; [| |done].
    + destruct Hs as (Hd & _ & Hag). assert (Hxl : len x = m) by (unfold len in *; lia). split.
      * apply Nat2Z.inj. apply (len_splice dst x 0); lia.
      * exists x. split_and!; [done|done|]. intros data Hdata. destruct (Hag data Hdata) as [Hnil|]; [left|by right].
        rewrite Hnil in Hpl. change (len []) with 0 in Hpl. apply len_0_nil. lia.
    + destruct Hs as [Hd _]. apply Nat2Z.inj. apply (len_splice dst x 0); unfold len in *; lia.
  - intros [] [d s] _ (Hl & x & Hd & Hx & Hag). apply ssafe_ret. cbn in *. split; [done|]. exists i, e, x.
    split_and!; [by exists q|done..].
Qed.
End PublicRanges.

(** [data] holds, at its place, every chunk of the asset that is intact in
    [contents] (nothing is said of its other bytes). *)
Definition shows {C : Crates} {R} (self : Archive R) (contents : bytes) (e : Entry) (data : bytes) : Prop :=
  forall l out, 0 <= l < chunk_count e -> chunk_content self contents (first_chunk e + l) = Some out ->
    slice_get data (l * ar_chunk_size self) (l * ar_chunk_size self + len out) = Some out.

(** ** Properties *)

(** C22 [range_len] by cases: a start behind the asset, a range an exact read
    cannot honour and an end beyond [u64] are invalid; otherwise the length is
    clipped at the end of the asset and refused only when the range touches
    more chunks than one operation may decode. *)
Theorem range_len_spec {C : Crates} {R} (self : Archive R) idx e offset n exact :
  ArchiveWf self -> Prelude.index (ar_entries self) idx = Some e -> is_u64 offset -> is_u64 n ->
  range_len self idx offset n exact =
    if (original_size e <? offset) || (exact && (original_size e <? offset + n))
       || ((offset <? original_size e) && (0 <? n) && (U64_MAX <? offset + n))
    then Err InvalidRange
    else let m := Z.min n (original_size e - offset) in
         let chunks := if m =? 0 then 0
                       else (offset + m - 1) / ar_chunk_size self - offset / ar_chunk_size self + 1 in
         if chunks <=? ar_max_chunks_per_operation self then Ok m else Err TooManyChunks.
Proof. intros Hwf He Ho Hn. by rewrite (range_len_run self Hwf idx e). Qed.

(** C10 [read_range] and [read_range_exact] never panic; what they return has
    the length [range_len] announces, every chunk the range touches is intact,
    and the bytes are those of the asset at that place.  They are so even if
    other chunks of the asset are damaged: they are the slice of any [data] that
    shows the intact chunks at their places. *)
Theorem read_range_sound {C : Crates} {R content} `{SourceHolds R content} `{!SourceSafe R}
    `{!DecompressSpec C} (self : Archive R) p offset n exact :
  ArchiveWf self -> is_u64 offset -> is_u64 n ->
  safe (read_range_new self p offset n exact) (fun s =>
    exists i e, denotes self p i e /\ range_len self i offset n exact = Ok (len s) /\
      (forall k, 0 < len s -> offset / ar_chunk_size self <= k ->
         k <= (offset + len s - 1) / ar_chunk_size self ->
         is_Some (chunk_content self (content (ar_source self)) (first_chunk e + k))) /\
      (forall data, shows self (content (ar_source self)) e data ->
         s = take (length s) (drop (Z.to_nat offset) data)) /\
      forall data, entry_content self (content (ar_source self)) e = Some data ->
        s = take (length s) (drop (Z.to_nat offset) data)).
Proof.
  intros Hwf Ho Hn. eapply safe_mono; [by apply read_range_new_safe|].
  intros s _ (i & e & Hd & Hm & Ht & Hag). exists i, e.
  assert (He : Prelude.index (ar_entries self) i = Some e) by (by destruct Hd as (q & _ & _ & ?)).
  assert (Hsl : forall data, Agrees self e data -> s = take (length s) (drop (Z.to_nat offset) data)).
  { intros data Hdata. destruct (Hag data Hdata) as [->|Hs]; [done|].
    apply slice_get_Some in Hs as (_ & _ & Hs). rewrite Hs at 1. f_equal. unfold len. lia. }
  split_and!; [done|by rewrite (range_len_run self Hwf i e)| | |].
  - intros k Hs Hk1 Hk2. destruct (Ht k Hs ltac:(lia)) as [out Hout]. exists out.
    by apply ChunkRead_content.
  - intros data Hdata. apply Hsl. intros l out Hl Hout. apply Hdata; [done|]. by apply ChunkRead_content.
  - intros data Hdata. apply Hsl, (content_agrees self Hwf e data); [|done].
    by apply entry_facts, index_elem with (i := i).
Qed.

(** C23 Over a reliable source and with memory available, a range read of an
    asset that [read] gives in full succeeds exactly when [range_len] allows
    it, and equals the slice of the full read. *)
Theorem read_range_matches_read {C : Crates} {R content} `{SourceHolds R content} `{!SourceSafe R}
    `{!SourceReliable R content} `{!AllocSpec C} `{!DecompressSpec C} (self : Archive R)
    p data i e offset n exact m :
  ArchiveWf self -> is_u64 (len (content (ar_source self))) ->
  1 <= ar_max_chunks_per_operation self -> is_u64 offset -> is_u64 n ->
  read self p = Ok data -> denotes self p i e ->
  range_len self i offset n exact = Ok m <->
  m = Z.min n (len data - offset) /\
  read_range_new self p offset n exact = Ok (take (Z.to_nat m) (drop (Z.to_nat offset) data)).
Proof.
  intros Hwf Hu Hlim Ho Hn Hread Hden. destruct Hden as (q & Hq & Hf & He). unfold read in Hread.
  rewrite Hq in Hread. cbn [mbind result_bind] in Hread. rewrite Hf in Hread. cbn [mbind result_bind] in Hread.
  pose proof (safe_Ok _ _ _ (read_new_safe self Hwf i e (LabelPath q) He) Hread) as [Hcr Hdl].
  assert (Hdata : entry_content self (content (ar_source self)) e = Some data)
    by (by apply ChunksRead_content).
  pose proof (entry_facts self Hwf e (index_elem _ _ _ He)) as Hef.
  assert (Hden : denotes self p i e) by (by exists q).
  pose proof (read_range_new_safe self Hwf p offset n exact Ho Hn) as Hs.
  rewrite (range_len_run self Hwf i e) by done.
  assert (Hval : forall s, read_range_new self p offset n exact = Ok s ->
    range_value self e offset n exact = Ok (len s) /\ s = take (length s) (drop (Z.to_nat offset) data)).
  { intros s Hr. destruct (safe_Ok _ _ _ Hs Hr) as (i' & e' & (q' & Hq' & Hf' & He') & Hm & _ & Hag).
    assert (q' = q) as -> by congruence. assert (i' = i) as -> by congruence.
    assert (e' = e) as -> by congruence. split; [done|].
    destruct (Hag data) as [->|Hsl]; [by apply (content_agrees self Hwf e data)|done|].
    apply slice_get_Some in Hsl as (_ & _ & Hsl). rewrite Hsl at 1. f_equal. unfold len. lia. }
  split.
  - intros Hm. destruct (range_value_Ok self e offset n exact m ltac:(apply Hn) Hm) as (Hos & Hmv & _).
    rewrite Hdl. split; [done|].
    destruct (read_range_new_ok self Hwf i e p offset n exact m Ho Hn Hden) as [s Hr]; [|done|].
    { by apply (content_readable self Hwf e data). }
    destruct (Hval s Hr) as [Hlen Hsv]. rewrite Hm in Hlen. injection Hlen as ->.
    rewrite Hr, to_nat_len. by f_equal.
  - intros [Hmv Hr]. destruct (Hval _ Hr) as [Hlen _]. rewrite Hlen. f_equal.
    destruct (range_value_Ok self e offset n exact _ ltac:(apply Hn) Hlen) as (Hos & Hmv' & _).
    destruct Ho, Hn. rewrite Hdl in Hmv. by rewrite Hmv'.
Qed.

(** C24 A range read into the caller's buffer never panics, gives the clipped
    length, writes the asset's bytes at the front of the buffer whatever the
    buffer and the scratch held, and leaves the rest of the buffer alone. *)
Theorem read_range_with_scratch_spec {C : Crates} {R content} `{SourceHolds R content} `{!SourceSafe R}
    `{!DecompressSpec C} (self : Archive R) p offset dst scratch :
  ArchiveWf self -> is_u64 offset -> is_u64 (len dst) ->
  ssafe (read_range_with_scratch self p offset) (dst, scratch)
    (fun m s => exists i e x, denotes self p i e /\
       range_len self i offset (len dst) false = Ok m /\ len x = m /\ s.1 = splice dst 0 x /\
       forall data, entry_content self (content (ar_source self)) e = Some data ->
         x = take (Z.to_nat m) (drop (Z.to_nat offset) data))
    (fun s => length s.1 = length dst).
Proof.
  intros Hwf Ho Hn. eapply ssafe_mono; [by apply read_range_into_denotes| |done].
  intros m s _ (_ & i & e & x & Hd & Hm & Hx & Hs & Hag). exists i, e, x.
  assert (He : Prelude.index (ar_entries self) i = Some e) by (by destruct Hd as (q & _ & _ & ?)).
  split_and!; [done|by rewrite (range_len_run self Hwf i e)|done|done|]. intros data Hdata.
  destruct (Hag data) as [Hnil|Hsl].
  - apply (content_agrees self Hwf e data); [|done]. by apply entry_facts, index_elem with (i := i).
  - rewrite Hnil in Hx. rewrite <- Hx, Hnil. by change (len []) with 0.
  - apply slice_get_Some in Hsl as (_ & _ & ->). f_equal. lia.
Qed.

Lemma range_len_spec_witness : range_len Sample.archive 0 2 10 false = Ok 3.
Proof.
  refine (range_len_spec (C := Toy.crates) Sample.archive 0 (entry_from Sample.toc_entry) 2 10 false
    Sample.sample_wf _ _ _); vm_compute; intuition congruence.
Defined.

Lemma read_range_sound_witness :
  read_range_new (C := Toy.crates) Sample.archive (lit "a/b") 3 10 false = Ok (lit "lo") /\
  exists i e, denotes (C := Toy.crates) Sample.archive (lit "a/b") i e /\
    range_len Sample.archive i 3 10 false = Ok 2.
Proof.
  assert (Hr : read_range_new (C := Toy.crates) Sample.archive (lit "a/b") 3 10 false = Ok (lit "lo"))
    by (vm_compute; reflexivity).
  split; [exact Hr|].
  destruct (safe_Ok _ _ _ (read_range_sound (C := Toy.crates) (content := id) Sample.archive (lit "a/b")
    3 10 false Sample.sample_wf ltac:(vm_compute; intuition congruence)
    ltac:(vm_compute; intuition congruence)) Hr) as (i & e & ? & ? & _).
  exists i, e. by split.
Defined.

Lemma read_range_matches_read_witness :
  read_range_new (C := Toy.crates) Sample.archive (lit "a/b") 1 3 true = Ok (lit "ell").
Proof.
  refine (proj2 (proj1 (read_range_matches_read (C := Toy.crates) (content := id) Sample.archive
    (lit "a/b") (lit "hello") 0 (entry_from Sample.toc_entry) 1 3 true 3 Sample.sample_wf sample_source
    _ _ _ _ _) _)).
  - vm_compute. congruence.
  - vm_compute. intuition congruence.
  - vm_compute. intuition congruence.
  - vm_compute. reflexivity.
  - exists (lit "a/b"). split; [|split]; vm_compute; reflexivity.
  - vm_compute. reflexivity.
Defined.

Lemma read_range_with_scratch_spec_witness :
  (read_range_with_scratch (C := Toy.crates) Sample.archive (lit "a/b") 3 (lit "........", empty_scratch)).1
    = Ok 2 /\
  ssafe (read_range_with_scratch (C := Toy.crates) Sample.archive (lit "a/b") 3)
    (lit "........", empty_scratch) (fun m s => length s.1 = 8%nat) (fun s => length s.1 = 8%nat).
Proof.
  split; [vm_compute; reflexivity|].
  eapply ssafe_mono; [apply (read_range_with_scratch_spec (C := Toy.crates) (content := id)
    Sample.archive (lit "a/b") 3 (lit "........") empty_scratch Sample.sample_wf);
    vm_compute; intuition congruence| |].
  - intros m s Hrun _. vm_compute in Hrun. injection Hrun as <- <-. reflexivity.
  - intros s Hs. exact Hs.
Defined.
