(* ===== verification/Writer.v ===== *)
(** * Packing ([pack/writer.rs])

    [Packer] over any [Write] + [Seek] destination and any [Read] input:
    [new], [add_reader], [finish], [pack_with_options]. *)
From S2P Require Export Index.

Record InputFile := { if_path : bytes; if_data : bytes }.

Record PackSummary := { archive_len : Z; entry_count : Z; chunk_total : Z }.

(** [Packer] without its writer, which [PackState] holds. *)
Record Packer := {
  pk_key : bytes;
  pk_aead_key : option bytes;
  pk_options : PackOptions;
  pk_entries : list TocEntry;
  pk_chunks : list Chunk;
  pk_seen_hashes : gset Z;
  pk_raw : bytes;
  pk_compressed : bytes;
  pk_offset : Z;
  pk_failed : bool
}.

Definition set_raw (r : bytes) (p : Packer) : Packer := {|
  pk_key := pk_key p; pk_aead_key := pk_aead_key p; pk_options := pk_options p;
  pk_entries := pk_entries p; pk_chunks := pk_chunks p; pk_seen_hashes := pk_seen_hashes p;
  pk_raw := r; pk_compressed := pk_compressed p; pk_offset := pk_offset p; pk_failed := pk_failed p |}.
Definition set_compressed (c : bytes) (p : Packer) : Packer := {|
  pk_key := pk_key p; pk_aead_key := pk_aead_key p; pk_options := pk_options p;
  pk_entries := pk_entries p; pk_chunks := pk_chunks p; pk_seen_hashes := pk_seen_hashes p;
  pk_raw := pk_raw p; pk_compressed := c; pk_offset := pk_offset p; pk_failed := pk_failed p |}.
Definition set_seen (s : gset Z) (p : Packer) : Packer := {|
  pk_key := pk_key p; pk_aead_key := pk_aead_key p; pk_options := pk_options p;
  pk_entries := pk_entries p; pk_chunks := pk_chunks p; pk_seen_hashes := s;
  pk_raw := pk_raw p; pk_compressed := pk_compressed p; pk_offset := pk_offset p;
  pk_failed := pk_failed p |}.
Definition set_offset (o : Z) (p : Packer) : Packer := {|
  pk_key := pk_key p; pk_aead_key := pk_aead_key p; pk_options := pk_options p;
  pk_entries := pk_entries p; pk_chunks := pk_chunks p; pk_seen_hashes := pk_seen_hashes p;
  pk_raw := pk_raw p; pk_compressed := pk_compressed p; pk_offset := o; pk_failed := pk_failed p |}.
Definition set_failed (f : bool) (p : Packer) : Packer := {|
  pk_key := pk_key p; pk_aead_key := pk_aead_key p; pk_options := pk_options p;
  pk_entries := pk_entries p; pk_chunks := pk_chunks p; pk_seen_hashes := pk_seen_hashes p;
  pk_raw := pk_raw p; pk_compressed := pk_compressed p; pk_offset := pk_offset p; pk_failed := f |}.
Definition set_entries (es : list TocEntry) (p : Packer) : Packer := {|
  pk_key := pk_key p; pk_aead_key := pk_aead_key p; pk_options := pk_options p;
  pk_entries := es; pk_chunks := pk_chunks p; pk_seen_hashes := pk_seen_hashes p;
  pk_raw := pk_raw p; pk_compressed := pk_compressed p; pk_offset := pk_offset p;
  pk_failed := pk_failed p |}.
Definition set_chunks (cs : list Chunk) (p : Packer) : Packer := {|
  pk_key := pk_key p; pk_aead_key := pk_aead_key p; pk_options := pk_options p;
  pk_entries := pk_entries p; pk_chunks := cs; pk_seen_hashes := pk_seen_hashes p;
  pk_raw := pk_raw p; pk_compressed := pk_compressed p; pk_offset := pk_offset p;
  pk_failed := pk_failed p |}.

(** A packer with its destination; [ps_nonces] counts the nonces drawn. *)
Record PackState (W : Type) := { ps_writer : W; ps_nonces : nat; ps_self : Packer }.
Arguments ps_writer {W}. Arguments ps_nonces {W}. Arguments ps_self {W}.

(** ** [read_chunk]: short reads are accumulated until the buffer is full *)

(** The state is the reader and the unfilled part of the buffer; [n] counts
    the calls left. *)
Fixpoint read_chunk_loop {R} `{Read R} (n : nat) (reader : R) (filled : Z) (buffer : bytes) :
    Res Z * (R * bytes) :=
  match n with
  | O => (Panic, (reader, buffer))
  | S n =>
      if filled <? len buffer then
        match slice_get buffer filled (len buffer) with
        | None => (Panic, (reader, buffer))
        | Some part =>
            let '(r, (reader, part)) := read (reader, part) in
            let buffer := splice buffer filled part in
            match r with
            | Ok read =>
                if read =? 0 then (Ok filled, (reader, buffer))
                else match (add_or_panic USIZE_MAX filled read : Res Z) with
                     | Ok filled => read_chunk_loop n reader filled buffer
                     | Err e => (Err e, (reader, buffer))
                     | Panic => (Panic, (reader, buffer))
                     end
            | Err error =>
                if bool_decide (io_kind error = Interrupted)
                then read_chunk_loop n reader filled buffer
                else (Err (Io error), (reader, buffer))
            | Panic => (Panic, (reader, buffer))
            end
        end
      else (Ok filled, (reader, buffer))
  end.

(** As many calls as the buffer has bytes, the reader has interruptions, and
    one. *)
Definition read_chunk_fuel {R} `{ReadFinite R} (reader : R) (buffer : bytes) : nat :=
  S (length buffer + interruptions reader).

Definition read_chunk {R} `{Read R} `{ReadFinite R} : ST Error (R * bytes) Z := fun '(reader, buffer) =>
  read_chunk_loop (read_chunk_fuel reader buffer) reader 0 buffer.

Section Writer.
Context {C : Crates} {W : Type} `{WriteSeek W}.

(** ** Access to the parts of the state *)

Definition on_writer {A} (m : ST Error W A) : ST Error (PackState W) A :=
  zoom ps_writer (fun w s => {| ps_writer := w; ps_nonces := ps_nonces s; ps_self := ps_self s |}) m.
Definition on_nonces {A} (m : ST Error nat A) : ST Error (PackState W) A :=
  zoom ps_nonces (fun n s => {| ps_writer := ps_writer s; ps_nonces := n; ps_self := ps_self s |}) m.
Definition self : ST Error (PackState W) Packer := s ← get; mret (ps_self s).
Definition update (f : Packer -> Packer) : ST Error (PackState W) unit :=
  s ← get;
  put {| ps_writer := ps_writer s; ps_nonces := ps_nonces s; ps_self := f (ps_self s) |}.

(** ** [Packer::new]: the state is the writer *)

Definition new (key : bytes) (options : PackOptions) : ST Error W Packer :=
  lift (ensure (negb (bool_decide (key = []))) EmptyXorKey);;
  options ← lift (validate options);
  let aead_key := if bool_decide (po_protection options = Aead) then Some (derive_key key) else None in
  end_ ← st_map_err Io seek_end;
  lift (ensure (end_ =? 0) NonEmptyDestination);;
  st_map_err Io (seek_start 0);;
  write_bytes (replicate (Z.to_nat HEADER_SIZE) x00);;
  let compressed_len := get_maximum_output_size (po_chunk_size options) in
  lift (try_reserve "compression buffer" compressed_len);;
  lift (try_reserve "raw chunk buffer" (po_chunk_size options));;
  mret {| pk_key := key; pk_aead_key := aead_key; pk_options := options; pk_entries := [];
          pk_chunks := []; pk_seen_hashes := ∅;
          pk_raw := replicate (Z.to_nat (po_chunk_size options)) x00;
          pk_compressed := replicate (Z.to_nat compressed_len) x00;
          pk_offset := HEADER_SIZE; pk_failed := false |}.

(** ** [align] *)

Definition ZEROES : bytes := replicate 4096 x00.

(** The loop over [remaining]. *)
Fixpoint pad (fuel : nat) (remaining : Z) : ST Error W unit :=
  match fuel with
  | O => lift Panic
  | S fuel =>
      if negb (remaining =? 0) then
        zeroes_len ← lift (ok_or (try_from U64_MAX (len ZEROES)) (TooLarge "padding"));
        amount ← lift (ok_or (try_from USIZE_MAX (Z.min remaining zeroes_len)) (TooLarge "padding"));
        zeroes ← lift (or_panic (slice_get ZEROES 0 amount));
        write_bytes zeroes;;
        amount64 ← lift (ok_or (try_from U64_MAX amount) (TooLarge "padding"));
        remaining ← lift (ok_or (checked_sub remaining amount64) (TooLarge "padding"));
        pad fuel remaining
      else mret tt
  end.

Definition align : ST Error (PackState W) unit :=
  p ← self;
  aligned ← lift (align_up (pk_offset p) (po_alignment (pk_options p)));
  remaining ← lift (sub_or_panic aligned (pk_offset p));
  on_writer (pad (S (S (Z.to_nat (remaining / 4096)))) remaining);;
  update (set_offset aligned).

(** ** [add_reader] *)

(** The body of the loop, once [raw_len] bytes are in [raw]; the value is the
    new totals. *)
Definition add_chunk (raw_len original_total stored_total : Z) : ST Error (PackState W) (Z * Z) :=
  p ← self;
  data ← lift (or_panic (slice_get (pk_raw p) 0 raw_len));
  compressed_len ← (fun s =>
     let '(r, out) := st_map_err Lz4 (lz4_compress_into data) (pk_compressed (ps_self s)) in
     (r, {| ps_writer := ps_writer s; ps_nonces := ps_nonces s;
            ps_self := set_compressed out (ps_self s) |}));
  align;;
  p ← self;
  let chunk_offset := pk_offset p in
  '(plain_stored, is_compressed) ←
     (if compressed_len <? raw_len then
        lift (s ← or_panic (slice_get (pk_compressed p) 0 compressed_len); mret (s, true))
      else mret (data, false));
  let chunk_checksum := checksum data in
  global_chunk ← lift (usize_to_u32 (len (pk_chunks p)) "chunk index");
  stored ← (match pk_aead_key p with
            | Some key => on_nonces (encrypt plain_stored key (chunk_aad global_chunk))
            | None => mret plain_stored
            end);
  on_writer (write_bytes stored);;
  stored_len ← lift (usize_to_u64 (len stored) "stored chunk size");
  offset ← lift (ok_or (checked_add U64_MAX chunk_offset stored_len) (TooLarge "archive offset"));
  update (set_offset offset);;
  original_size ← lift (usize_to_u64 raw_len "original chunk size");
  stored_size ← lift (usize_to_u64 (len stored) "stored chunk size");
  original_total ← lift (ok_or (checked_add U64_MAX original_total original_size)
                           (TooLarge "entry original size"));
  stored_total ← lift (ok_or (checked_add U64_MAX stored_total stored_size)
                         (TooLarge "entry stored size"));
  update (fun p => set_chunks (pk_chunks p ++
    [{| c_offset := chunk_offset; c_stored_size := stored_size; c_original_size := original_size;
        c_checksum := chunk_checksum; c_compressed := is_compressed |}]) p);;
  p ← self;
  lift (usize_to_u32 (len (pk_chunks p)) "chunk count");;
  mret (original_total, stored_total).

Context {R : Type} `{Read R} `{ReadFinite R}.

(** A method of the packer that does not touch the reader. *)
Definition on_pack {A} (m : ST Error (PackState W) A) : ST Error (PackState W * R) A := on_fst m.

Definition on_raw {A} (m : ST Error (R * bytes) A) : ST Error (PackState W * R) A := fun '(s, reader) =>
  let '(r, (reader, raw)) := m (reader, pk_raw (ps_self s)) in
  (r, ({| ps_writer := ps_writer s; ps_nonces := ps_nonces s; ps_self := set_raw raw (ps_self s) |},
       reader)).

(** The [loop] over the reader's chunks. *)
Fixpoint add_chunks (fuel : nat) (original_total stored_total : Z) :
    ST Error (PackState W * R) (Z * Z) :=
  match fuel with
  | O => lift Panic
  | S fuel =>
      raw_len ← on_raw read_chunk;
      if raw_len =? 0 then mret (original_total, stored_total)
      else
        '(original_total, stored_total) ← on_pack (add_chunk raw_len original_total stored_total);
        add_chunks fuel original_total stored_total
  end.

Definition add_reader_inner (path : bytes) : ST Error (PackState W * R) unit :=
  normalized_path ← lift (normalize_path path);
  let path_hash := checksum normalized_path in
  p ← on_pack self;
  (if decide (path_hash ∈ pk_seen_hashes p) then
     let duplicate := existsb (fun entry => (te_path_hash entry =? path_hash)
                                 && bool_decide (te_path entry = normalized_path)) (pk_entries p) in
     lift (ensure (negb duplicate) (DuplicatePath normalized_path));;
     lift (ensure (negb (strips_paths (po_mode (pk_options p)))) (HashCollision path_hash))
   else on_pack (update (set_seen ({[path_hash]} ∪ pk_seen_hashes p))));;
  let first_chunk_index := len (pk_chunks p) in
  first_chunk ← lift (usize_to_u32 first_chunk_index "chunk index");
  '(_, reader) ← get;
  '(original_total, stored_total) ← add_chunks (S (length (rest reader))) 0 0;
  p ← on_pack self;
  n ← lift (ok_or (checked_sub (len (pk_chunks p)) first_chunk_index) (TooLarge "entry chunk count"));
  chunk_count ← lift (usize_to_u32 n "entry chunk count");
  on_pack (update (set_entries (pk_entries p ++
    [{| te_path := normalized_path; te_path_hash := path_hash; te_original_size := original_total;
        te_stored_size := stored_total; te_first_chunk := first_chunk;
        te_chunk_count := chunk_count |}])));;
  p ← on_pack self;
  lift (usize_to_u32 (len (pk_entries p)) "entry count");;
  mret tt.

Definition is_err {E A} (r : Result E A) : bool := match r with Err _ => true | _ => false end.

(** [self.failed |= result.is_err()] *)
Definition record_failure (m : ST Error (PackState W * R) unit) : ST Error (PackState W * R) unit :=
  fun s =>
    let '(result, (s, reader)) := m s in
    (result, ({| ps_writer := ps_writer s; ps_nonces := ps_nonces s;
                 ps_self := set_failed (pk_failed (ps_self s) || is_err result) (ps_self s) |},
              reader)).

Definition add_reader (path : bytes) : ST Error (PackState W * R) unit :=
  p ← on_pack self;
  lift (ensure (negb (pk_failed p)) IncompletePack);;
  record_failure (add_reader_inner path).
End Writer.

Section Finish.
Context {C : Crates} {W : Type} `{WriteSeek W}.

(** [u16::from(self.options.mode.strips_paths())] *)
Definition b2z (b : bool) : Z := if b then 1 else 0.

Definition clear_path (entry : TocEntry) : TocEntry := {|
  te_path := []; te_path_hash := te_path_hash entry; te_original_size := te_original_size entry;
  te_stored_size := te_stored_size entry; te_first_chunk := te_first_chunk entry;
  te_chunk_count := te_chunk_count entry |}.

Definition finish : ST Error (PackState W) PackSummary :=
  p ← self;
  lift (ensure (negb (pk_failed p)) IncompletePack);;
  align;;
  p ← self;
  let toc_offset := pk_offset p in
  (if strips_paths (po_mode (pk_options p))
   then update (set_entries (clear_path <$> pk_entries p)) else mret tt);;
  p ← self;
  toc_plain ← lift (encode_toc (pk_entries p) (pk_chunks p));
  toc_raw_size ← lift (usize_to_u64 (len toc_plain) "raw TOC size");
  lift (ensure (toc_raw_size <=? MAX_TOC_RAW_SIZE) (TooLarge "raw TOC"));;
  let toc_hash := checksum toc_plain in
  let max_compressed := get_maximum_output_size (len toc_plain) in
  lift (try_reserve "stored TOC allocation" max_compressed);;
  let '(r, toc_stored) :=
    st_map_err Lz4 (lz4_compress_into toc_plain) (replicate (Z.to_nat max_compressed) x00) in
  toc_len ← lift r;
  let toc_stored := take (Z.to_nat toc_len) toc_stored in
  toc_stored ← (match pk_aead_key p with
                | Some key => on_nonces (encrypt toc_stored key TOC_AAD)
                | None => lift (xor_in_place toc_stored (pk_key p))
                end);
  toc_size ← lift (usize_to_u64 (len toc_stored) "stored TOC size");
  lift (ensure (toc_size <=? MAX_TOC_STORED_SIZE) (TooLarge "stored TOC"));;
  on_writer (write_bytes toc_stored);;
  offset ← lift (ok_or (checked_add U64_MAX (pk_offset p) toc_size) (TooLarge "archive length"));
  update (set_offset offset);;
  let archive_len := offset in
  chunk_size ← lift (usize_to_u32 (po_chunk_size (pk_options p)) "chunk size");
  entry_count ← lift (usize_to_u32 (len (pk_entries p)) "entry count");
  chunk_count ← lift (usize_to_u32 (len (pk_chunks p)) "chunk count");
  let header := {|
    h_version := VERSION;
    h_flags := Z.lor (Z.lor REQUIRED_HEADER_FLAGS
                 (match po_protection (pk_options p) with
                  | Xor => HEADER_FLAG_TOC_XOR
                  | Aead => HEADER_FLAG_AEAD
                  end))
                 (HEADER_FLAG_PATHS_STRIPPED * b2z (strips_paths (po_mode (pk_options p))));
    h_header_size := HEADER_SIZE;
    h_alignment := po_alignment (pk_options p);
    h_chunk_size := chunk_size;
    h_entry_count := entry_count;
    h_chunk_count := chunk_count;
    h_toc_offset := toc_offset;
    h_toc_size := toc_size;
    h_toc_raw_size := toc_raw_size;
    h_toc_hash := toc_hash |} in
  on_writer (st_map_err Io (seek_start 0));;
  on_writer (write_header header);;
  on_writer (st_map_err Io (seek_start archive_len));;
  mret {| archive_len := archive_len; entry_count := h_entry_count header;
          chunk_total := h_chunk_count header |}.

(** ** [pack] and [pack_with_options]: the state is the writer and the nonces *)

(** [packer.add_reader(&file.path, &mut file.data.as_slice())] *)
Definition add_file (file : InputFile) : ST Error (PackState W) unit := fun s =>
  let '(r, (s, _)) := add_reader (if_path file) (s, if_data file) in (r, s).

Fixpoint add_files (files : list InputFile) : ST Error (PackState W) unit :=
  match files with
  | [] => mret tt
  | file :: files =>
      add_file file;;
      add_files files
  end.

Definition pack_with_options (files : list InputFile) (key : bytes) (options : PackOptions) :
    ST Error (W * nat) unit := fun '(w, nonces) =>
  match new key options w with
  | (Ok packer, w) =>
      let '(r, s) := (add_files files;; finish;; mret tt)
                       {| ps_writer := w; ps_nonces := nonces; ps_self := packer |} in
      (r, (ps_writer s, ps_nonces s))
  | (Err e, w) => (Err e, (w, nonces))
  | (Panic, w) => (Panic, (w, nonces))
  end.

Definition pack (files : list InputFile) (key : bytes) : ST Error (W * nat) unit :=
  pack_with_options files key default_options.
End Finish.
