(* ===== verification/Packing.v ===== *)
(** * What packing writes

    The invariant of a packer between two calls (every chunk is stored where
    its record says and decodes to its data, the entries partition the
    chunks), that [add_reader] preserves it, and the failure latch. *)
From S2P Require Export Reader Writer.

(** ** Lemmas: reading chunks from a reader *)

Section ReadChunk.
Context {R : Type} `{ReadHolds R}.

(** [filled] bytes of the buffer are the next bytes of the reader. *)
Lemma read_chunk_loop_safe n reader done_ buffer :
  len buffer <= USIZE_MAX -> len done_ <= len buffer -> take (length done_) buffer = done_ ->
  (length buffer - length done_ + interruptions reader < n)%nat ->
  ssafe (fun '(reader, buffer) => read_chunk_loop n reader (len done_) buffer) (reader, buffer)
    (fun k s => k = Z.min (len buffer) (len done_ + len (rest reader)) /\
       length s.2 = length buffer /\
       take (Z.to_nat k) s.2 = done_ ++ take (Z.to_nat (k - len done_)) (rest reader) /\
       rest s.1 = drop (Z.to_nat (k - len done_)) (rest reader))
    (fun s => length s.2 = length buffer).
Proof.
  revert reader done_ buffer. induction n as [|n IH]; intros reader done_ buffer Hu Hl Ht Hf; [lia|].
  unfold ssafe. cbn [read_chunk_loop]. pose proof (len_nonneg done_). pose proof (len_nonneg (rest reader)).
  destruct (Z.ltb_spec (len done_) (len buffer)) as [Hlt|Hge].
  2:{ cbn [fst snd]. split_and!; [lia|done| |]; rewrite Z.sub_diag; [|done].
      rewrite to_nat_len, Ht. cbn. by rewrite take_0, app_nil_r. }
  destruct (slice_get buffer (len done_) (len buffer)) as [part|] eqn:Hp.
  2:{ unfold slice_get in Hp. revert Hp. by zdecide. }
  apply slice_get_len in Hp as Hpl. apply slice_get_Some in Hp as (_ & _ & Hp).
  pose proof (read_holds reader part) as Hr. destruct (read (reader, part)) as [[k|e|] [r' part']]; [| |done].
  - destruct Hr as (Hk & Hlen & Htake & Hrest & Hr' & Hint & Hz).
    assert (Hsl : len (splice buffer (len done_) part') = len buffer).
    { apply len_splice; [done|]. unfold len in *. lia. }
    assert (Hsn : length (splice buffer (len done_) part') = length buffer) by (apply Nat2Z.inj; exact Hsl).
    assert (Htd : forall j, (j <= length part)%nat ->
      take (length done_ + j) (splice buffer (len done_) part') = done_ ++ take j part').
    { intros j Hj. unfold splice. rewrite to_nat_len, Ht.
      rewrite take_app_ge by lia. f_equal. replace (length done_ + j - length done_)%nat with j by lia.
      rewrite take_app_le by lia. done. }
    destruct (Z.eqb_spec k 0) as [Hk0|Hk0].
    + destruct (Hz Hk0) as [->|Hnil]; [change (len []) with 0 in Hpl; lia|].
      rewrite Hnil in *. change (len []) with 0 in *. cbn.
      split_and!; [lia|done| |by rewrite Hr', !drop_nil].
      rewrite to_nat_len, take_nil. replace (length done_) with (length done_ + 0)%nat by lia.
      rewrite Htd by lia. by rewrite take_0.
    + rewrite add_or_panic_le by (unfold len in *; lia).
      set (buffer' := splice buffer (len done_) part') in *.
      set (got := take (Z.to_nat k) part').
      assert (Hgl : len got = k) by (unfold got, len in *; rewrite length_take; lia).
      pose proof (IH r' (done_ ++ got) buffer') as IH'. unfold ssafe in IH'.
      rewrite len_app, Hgl in IH'.
      assert (Hda : take (length (done_ ++ got)) buffer' = done_ ++ got).
      { rewrite length_app. replace (length got) with (Z.to_nat k) by (unfold len in Hgl; lia).
        apply Htd. unfold len in *. lia. }
      specialize (IH' ltac:(lia) ltac:(unfold len in *; lia) Hda
        ltac:(rewrite length_app; unfold len in *; lia)).
      destruct (read_chunk_loop n r' (len done_ + k) buffer') as [[j|e|] s]; [|by rewrite <- Hsn|done].
      destruct IH' as (Hj & Hl2 & Ht2 & Hr2). rewrite Hr' in Hj, Ht2, Hr2.
      assert (Hdl : len (drop (Z.to_nat k) (rest reader)) = len (rest reader) - k)
        by (unfold len in *; rewrite length_drop; lia).
      split_and!; [lia|by rewrite Hl2| |].
      * rewrite Ht2, <- app_assoc. f_equal. unfold got. rewrite Htake.
        replace (Z.to_nat (j - len done_)) with (Z.to_nat k + Z.to_nat (j - (len done_ + k)))%nat by lia.
        by rewrite take_take_drop.
      * rewrite Hr2, drop_drop. f_equal. lia.
  - destruct Hr as [Hlen Hint].
    assert (Hsl : len (splice buffer (len done_) part') = len buffer).
    { apply len_splice; [done|]. unfold len in *. lia. }
    assert (Hsn : length (splice buffer (len done_) part') = length buffer) by (apply Nat2Z.inj; exact Hsl).
    case_bool_decide as Hi; [|done]. destruct (Hint Hi) as [Hr' Hlt'].
    pose proof (IH r' done_ (splice buffer (len done_) part')) as IH'. unfold ssafe in IH'.
    assert (Hda : take (length done_) (splice buffer (len done_) part') = done_).
    { unfold splice. rewrite to_nat_len, Ht. apply take_app_length. }
    specialize (IH' ltac:(lia) ltac:(lia) Hda ltac:(lia)). rewrite Hr', Hsl, Hsn in IH'.
    by destruct (read_chunk_loop _ _ _ _) as [[j|e'|] s].
Qed.

Lemma read_chunk_safe_spec reader buffer :
  len buffer <= USIZE_MAX ->
  ssafe read_chunk (reader, buffer)
    (fun k s => k = Z.min (len buffer) (len (rest reader)) /\ length s.2 = length buffer /\
       take (Z.to_nat k) s.2 = take (Z.to_nat k) (rest reader) /\
       rest s.1 = drop (Z.to_nat k) (rest reader))
    (fun s => length s.2 = length buffer).
Proof.
  intros Hu. pose proof (read_chunk_loop_safe (read_chunk_fuel reader buffer) reader [] buffer Hu) as Hs.
  change (len []) with 0 in Hs. cbn [app length] in Hs. unfold read_chunk_fuel in *.
  specialize (Hs (len_nonneg _) (take_0 _) ltac:(lia)).
  eapply ssafe_mono; [exact Hs| |done]. intros k s _. by rewrite Z.add_0_l, Z.sub_0_r.
Qed.
End ReadChunk.

(** ** Lemmas: writing at the end of the destination *)

Section Append.
Context {C : Crates} {W : Type} `{WriteSeekSpec W contents position}.

Definition at_end (w : W) : Prop := position w = len (contents w).

Lemma write_bytes_end x w :
  at_end w ->
  ssafe (write_bytes x) w (fun _ w' => contents w' = contents w ++ x /\ at_end w') (fun _ => True).
Proof.
  intros He. unfold write_bytes. apply ssafe_map_err.
  eapply ssafe_mono; [apply write_all_spec; unfold at_end in He; lia| |done].
  intros [] w' _ [Hc Hp]. unfold at_end in *.
  rewrite Hc, He, overwrite_end. split; [done|]. by rewrite Hp, He, len_app.
Qed.

Lemma pad_safe fuel remaining w :
  at_end w -> 0 <= remaining -> remaining + 4095 < 4096 * Z.of_nat fuel ->
  ssafe (pad fuel remaining) w
    (fun _ w' => contents w' = contents w ++ replicate (Z.to_nat remaining) x00 /\ at_end w')
    (fun _ => True).
Proof.
  revert remaining w. induction fuel as [|fuel IH]; intros remaining w He Hr Hf; [lia|].
  cbn [pad]. destruct (Z.eqb_spec remaining 0) as [->|Hne]; cbn [negb].
  { apply ssafe_ret. by rewrite app_nil_r. }
  assert (Hz : len ZEROES = 4096) by reflexivity.
  rewrite Hz. apply (ssafe_lift_Ok 4096).
  rewrite (try_from_le USIZE_MAX (Z.min remaining 4096)) by (unfold USIZE_MAX, U64_MAX; lia).
  apply ssafe_lift_Ok.
  assert (Hsl : slice_get ZEROES 0 (Z.min remaining 4096) =
                Some (replicate (Z.to_nat (Z.min remaining 4096)) x00)).
  { unfold slice_get. rewrite Hz. zdecide. unfold andb. f_equal. change (Z.to_nat 0) with 0%nat.
    rewrite drop_0, Z.sub_0_r. unfold ZEROES. rewrite take_replicate. f_equal. lia. }
  rewrite Hsl. apply ssafe_lift_Ok.
  eapply ssafe_bind; [by apply write_bytes_end|]. intros [] w1 _ [Hc He1].
  rewrite (try_from_le U64_MAX (Z.min remaining 4096)) by (unfold U64_MAX; lia).
  apply ssafe_lift_Ok. rewrite checked_sub_le by lia. apply ssafe_lift_Ok.
  eapply ssafe_mono; [apply IH; [done|lia|lia]| |done].
  intros [] w2 _ [Hc2 He2]. split; [|done]. rewrite Hc2, Hc, <- app_assoc. f_equal.
  rewrite <- replicate_add. f_equal. lia.
Qed.

Lemma align_up_safe v alignment :
  is_u64 v -> (exists k, 0 <= k <= 20 /\ alignment = 2 ^ k) ->
  safe (align_up v alignment) (fun r => v <= r <= U64_MAX /\ (alignment | r)).
Proof.
  intros Hv (k & Hk & ->). rewrite align_up_value by (done || lia).
  pose proof (Z.pow_pos_nonneg 2 k ltac:(lia) ltac:(lia)).
  destruct (Z.leb_spec (v + (2 ^ k - 1)) U64_MAX); [|done]. cbn.
  pose proof (Z.div_mod (v + (2 ^ k - 1)) (2 ^ k)).
  pose proof (Z.mod_pos_bound (v + (2 ^ k - 1)) (2 ^ k)).
  split; [lia|]. by exists ((v + (2 ^ k - 1)) / 2 ^ k); rewrite Z.mul_comm.
Qed.

(** Steps of a proof about a method of the packer. *)
Lemma ssafe_self_bind {A} (f : Packer -> ST Error (PackState W) A) s Q X :
  ssafe (f (ps_self s)) s Q X -> ssafe (self ≫= f) s Q X.
Proof. done. Qed.

Definition with_self (f : Packer -> Packer) (s : PackState W) : PackState W :=
  {| ps_writer := ps_writer s; ps_nonces := ps_nonces s; ps_self := f (ps_self s) |}.

Lemma ssafe_update {Q : unit -> PackState W -> Prop} g s X :
  Q tt (with_self g s) -> ssafe (update g) s Q X.
Proof. done. Qed.

Lemma ssafe_update_bind {A} g (f : unit -> ST Error (PackState W) A) s Q X :
  ssafe (f tt) (with_self g s) Q X -> ssafe (update g ≫= f) s Q X.
Proof. done. Qed.

Definition with_writer (w : W) (s : PackState W) : PackState W :=
  {| ps_writer := w; ps_nonces := ps_nonces s; ps_self := ps_self s |}.

Lemma ssafe_on_writer_bind {A B} (m : ST Error W A) (f : A -> ST Error (PackState W) B) s P Q :
  ssafe m (ps_writer s) P (fun _ => True) ->
  (forall a w, P a w -> ssafe (f a) (with_writer w s) Q (fun _ => True)) ->
  ssafe (on_writer m ≫= f) s Q (fun _ => True).
Proof.
  unfold ssafe, on_writer, zoom, mbind, st_bind.
  destruct (m (ps_writer s)) as [[a|e|] w]; naive_solver.
Qed.

(** The destination is at its end, [offset] bytes long. *)
Definition Appending (s : PackState W) : Prop :=
  at_end (ps_writer s) /\ pk_offset (ps_self s) = len (contents (ps_writer s)) /\
  is_u64 (pk_offset (ps_self s)).

(** [align] appends zeros up to the next multiple of the alignment. *)
Lemma align_safe (s : PackState W) :
  Appending s -> OptionsOk (pk_options (ps_self s)) ->
  ssafe align s
    (fun _ s' => Appending s' /\ exists aligned,
       ps_self s' = set_offset aligned (ps_self s) /\
       pk_offset (ps_self s) <= aligned /\
       (po_alignment (pk_options (ps_self s)) | aligned) /\
       contents (ps_writer s') = contents (ps_writer s) ++
         replicate (Z.to_nat (aligned - pk_offset (ps_self s))) x00)
    (fun _ => True).
Proof.
  intros (He & Ho & Hu) [_ Ha]. unfold align. apply ssafe_self_bind.
  eapply ssafe_lift_bind; [by apply align_up_safe|done|]. intros aligned _ [Hal Hdiv].
  rewrite sub_or_panic_le by lia. apply ssafe_lift_Ok.
  pose proof (Z.div_mod (aligned - pk_offset (ps_self s)) 4096).
  pose proof (Z.mod_pos_bound (aligned - pk_offset (ps_self s)) 4096).
  pose proof (Z.div_pos (aligned - pk_offset (ps_self s)) 4096).
  eapply ssafe_on_writer_bind; [apply pad_safe; [done|lia|lia]|].
  intros [] w1 [Hc He1]. apply ssafe_update.
  split; [|exists aligned; split_and!; (done || lia)].
  unfold Appending, in_range in *. cbn. rewrite Hc, len_app, <- Ho. unfold len at 1.
  rewrite length_replicate. split_and!; (done || lia).
Qed.
End Append.

Arguments at_end {W} contents position w.
Arguments Appending {W} contents position s.

(** ** The invariant: the chunks *)

(** Chunk [g], recorded as [c], is stored in [content] and decodes to [data]. *)
Definition ChunkHolds {C : Crates} (content : bytes) (key : option bytes) (g : Z) (c : Chunk)
    (data : bytes) : Prop :=
  c_original_size c = len data /\
  exists s, slice_get content (c_offset c) (c_end c) = Some s /\
    decode_stored key c g s = Some data.

Definition packs_aead (o : PackOptions) : bool := bool_decide (po_protection o = Aead).

Definition aead_key_of {C : Crates} (o : PackOptions) (key : bytes) : option bytes :=
  if packs_aead o then Some (derive_key key) else None.

Record ChunksInv {C : Crates} (content : bytes) (p : Packer) (pieces : list bytes) : Prop := {
  ci_key : pk_key p <> [];
  ci_options : OptionsOk (pk_options p);
  ci_aead : pk_aead_key p = aead_key_of (pk_options p) (pk_key p);
  ci_raw : len (pk_raw p) = po_chunk_size (pk_options p);
  ci_compressed : len (pk_compressed p) = get_maximum_output_size (po_chunk_size (pk_options p));
  ci_header : HEADER_SIZE <= pk_offset p;
  ci_chunks : Forall (ChunkOk (pk_offset p) (po_chunk_size (pk_options p))
                (po_alignment (pk_options p)) (packs_aead (pk_options p))) (pk_chunks p);
  ci_order : in_order HEADER_SIZE (pk_chunks p);
  ci_range : Forall chunk_in_range (pk_chunks p);
  ci_count : len (pk_chunks p) <= U32_MAX;
  ci_pieces : length pieces = length (pk_chunks p);
  ci_content i c d : pk_chunks p !! i = Some c -> pieces !! i = Some d ->
    ChunkHolds content (pk_aead_key p) (Z.of_nat i) c d
}.

(** What a step on the chunks leaves alone. *)
Record frame (p p' : Packer) : Prop := {
  fr_key : pk_key p' = pk_key p;
  fr_options : pk_options p' = pk_options p;
  fr_aead : pk_aead_key p' = pk_aead_key p;
  fr_entries : pk_entries p' = pk_entries p;
  fr_seen : pk_seen_hashes p' = pk_seen_hashes p;
  fr_failed : pk_failed p' = pk_failed p
}.

Lemma frame_trans p q r : frame p q -> frame q r -> frame p r.
Proof. intros [] []. constructor; congruence. Qed.

Lemma slice_get_prefix {A} (l k s : list A) a b :
  slice_get l a b = Some s -> slice_get (l ++ k) a b = Some s.
Proof.
  intros (? & ? & ->)%slice_get_Some. apply slice_get_Some. rewrite len_app.
  pose proof (len_nonneg k). split_and!; [lia..|]. unfold len in *.
  rewrite drop_app_le by lia. rewrite take_app_le; [done|]. rewrite length_drop. lia.
Qed.

Lemma slice_get_suffix {A} (l s : list A) n :
  n = len l -> slice_get (l ++ s) n (n + len s) = Some s.
Proof. intros ->. rewrite <- (app_nil_r s) at 1. apply slice_get_app. Qed.

Lemma in_order_snoc prev cs c :
  in_order prev cs -> prev <= c_offset c -> Forall (fun d => c_end d <= c_offset c) cs ->
  in_order prev (cs ++ [c]).
Proof.
  revert prev. induction cs as [|d cs IH]; intros prev; cbn; [done|].
  intros [? ?] _ [? ?]%Forall_cons. split; [done|]. by apply IH.
Qed.

Lemma ChunkOk_mono t t' cz al ae c : t <= t' -> ChunkOk t cz al ae c -> ChunkOk t' cz al ae c.
Proof. intros ? []. constructor; (done || lia). Qed.

(** Appending to the destination and moving on keeps the chunks. *)
Lemma ChunksInv_grow `{C : Crates} content more p p' pieces :
  ChunksInv content p pieces -> frame p p' -> pk_chunks p' = pk_chunks p ->
  len (pk_raw p') = len (pk_raw p) -> len (pk_compressed p') = len (pk_compressed p) ->
  pk_offset p <= pk_offset p' -> ChunksInv (content ++ more) p' pieces.
Proof.
  intros [] [Hk Hopt Ha _ _ _] Hcs Hr Hc Ho. constructor; rewrite ?Hk, ?Hopt, ?Ha, ?Hcs; try done; try lia.
  - eapply Forall_impl; [exact ci_chunks0|]. intros c. by apply ChunkOk_mono.
  - intros i c d Hi Hd. destruct (ci_content0 i c d Hi Hd) as (? & s & ? & ?).
    split; [done|]. exists s. split; [by apply slice_get_prefix|done].
Qed.

(** One more chunk. *)
Lemma ChunksInv_snoc `{C : Crates} content stored p p' pieces c data :
  ChunksInv content p pieces -> frame p p' -> pk_chunks p' = pk_chunks p ++ [c] ->
  len (pk_raw p') = len (pk_raw p) -> len (pk_compressed p') = len (pk_compressed p) ->
  pk_offset p = len content -> c_offset c = pk_offset p -> c_stored_size c = len stored ->
  pk_offset p' = pk_offset p + len stored -> pk_offset p' <= U64_MAX ->
  len (pk_chunks p') <= U32_MAX -> is_u64 (c_checksum c) ->
  (po_alignment (pk_options p) | pk_offset p) ->
  1 <= len data <= po_chunk_size (pk_options p) -> c_original_size c = len data ->
  1 <= payload_size (packs_aead (pk_options p)) c <= len data ->
  (c_compressed c = true <-> payload_size (packs_aead (pk_options p)) c < len data) ->
  decode_stored (pk_aead_key p) c (len (pk_chunks p)) stored = Some data ->
  ChunksInv (content ++ stored) p' (pieces ++ [data]).
Proof.
  intros Hinv Hf Hcs Hr Hc Ho Hco Hst Ho' Hu Hcnt Hsum Hdiv Hd Hos Hpay Hcomp Hdec.
  assert (Hg : ChunksInv (content ++ stored) (set_offset (pk_offset p') p) pieces).
  { eapply ChunksInv_grow; [exact Hinv|done..|]. cbn. pose proof (len_nonneg stored). lia. }
  pose proof (ci_chunks _ _ _ Hinv) as Hck.
  pose proof (oo_chunk_size _ (ci_options _ _ _ Hinv)) as Hcz.
  destruct Hg, Hf as [Hk Hopt Ha _ _ _]. cbn in *. unfold c_end in *.
  pose proof (len_nonneg stored). pose proof (len_nonneg content).
  constructor; rewrite ?Hk, ?Hopt, ?Ha; try (done || lia).
  - rewrite Hcs. apply Forall_app. split; [done|]. apply Forall_singleton.
    constructor; rewrite ?Hos, ?Hco; unfold c_end; try (done || lia).
    apply (ci_header _ _ _ Hinv).
  - rewrite Hcs. apply in_order_snoc; [done|pose proof (ci_header _ _ _ Hinv); lia|].
    eapply Forall_impl; [exact Hck|]. intros d [? ? ? ? ? ?]. lia.
  - rewrite Hcs. apply Forall_app. split; [done|]. apply Forall_singleton.
    unfold chunk_in_range, in_range in *. unfold MAX_CHUNK_SIZE, U64_MAX in *.
    split_and!; try (done || lia).
  - rewrite Hcs, !length_app. cbn. lia.
  - rewrite Hcs. intros i e d. rewrite !lookup_app, ci_pieces0.
    destruct (pk_chunks p !! i) as [e'|] eqn:Hi.
    + intros [= <-]. destruct (lookup_lt_is_Some_2 pieces i) as [d' Hd'].
      { rewrite ci_pieces0. by eapply lookup_lt_Some. }
      rewrite Hd'. intros [= <-]. by apply ci_content0.
    + apply lookup_ge_None in Hi. rewrite (lookup_ge_None_2 pieces) by lia.
      intros [Hz <-]%list_lookup_singleton_Some. rewrite Hz. intros [= <-].
      split; [done|]. exists stored. unfold c_end. rewrite Hco, Hst.
      split; [by apply slice_get_suffix|].
      replace (Z.of_nat i) with (len (pk_chunks p)) by (unfold len; lia). done.
Qed.

(** ** One chunk *)

(** [stored] opens to [plain] as block [aad]. *)
Definition opens `{C : Crates} (key : option bytes) (aad stored plain : bytes) : Prop :=
  match key with
  | Some key => decrypt stored key aad = Ok plain
  | None => stored = plain
  end.

Definition overhead (key : option bytes) : Z :=
  match key with Some _ => AEAD_OVERHEAD | None => 0 end.

Section AddChunk.
Context {C : Crates} {W : Type} `{WriteSeekSpec W contents position}
  `{!CompressSpec C} `{!AeadSpec C} `{!HashSpec C}.

Lemma decode_stored_packed key c g plain stored data :
  opens key (chunk_aad g) stored plain ->
  c_original_size c = len data -> c_checksum c = checksum data ->
  (if c_compressed c
   then decompress_into_exact plain "" (replicate (length data) x00) = (Ok tt, data)
   else plain = data) ->
  decode_stored key c g stored = Some data.
Proof.
  unfold decode_stored, opens. intros Hp Ho Hs Hc.
  assert (match key with
          | Some key => to_option (decrypt stored key (chunk_aad g))
          | None => Some stored
          end = Some plain) as ->.
  { destruct key; [by rewrite Hp|by subst]. }
  cbn [mbind option_bind]. rewrite Ho, Hs, to_nat_len.
  destruct (c_compressed c); [rewrite Hc|subst; rewrite Z.eqb_refl]; cbn; by rewrite Z.eqb_refl.
Qed.

(** The compressor's output, and the choice between it and the data. *)
Lemma compress_choice_safe {B} (data out : bytes) raw_len n out' (f : bytes * bool -> ST Error (PackState W) B) s Q X :
  get_maximum_output_size (len data) <= len out -> lz4_compress_into data out = (Ok n, out') ->
  1 <= len data -> raw_len = len data ->
  (forall plain (compressed : bool), 1 <= len plain <= len data ->
     (compressed = true <-> len plain < len data) ->
     (if compressed then decompress_into_exact plain "" (replicate (length data) x00) = (Ok tt, data)
      else plain = data) ->
     ssafe (f (plain, compressed)) s Q X) ->
  ssafe ((if n <? raw_len
          then lift (s ← or_panic (slice_get out' 0 n); mret (s, true))
          else mret (data, false)) ≫= f) s Q X.
Proof.
  intros Hm Hc Hd -> Hf. pose proof (compress_ok data out Hm) as Hok. unfold ssafe in Hok.
  rewrite Hc in Hok. destruct Hok as (Hl & Hn & _).
  destruct (Z.ltb_spec n (len data)) as [Hlt|Hge].
  - assert (slice_get out' 0 n = Some (take (Z.to_nat n) out')) as ->.
    { unfold slice_get. unfold len in *. zdecide. cbn. by rewrite Z.sub_0_r, drop_0. }
    apply ssafe_lift_Ok. assert (Hp : len (take (Z.to_nat n) out') = n).
    { unfold len in *. rewrite length_take. lia. }
    apply Hf; rewrite ?Hp; [lia|by split|].
    eapply decompress_compressed; [done..|]. by rewrite length_replicate.
  - apply (Hf data false); [lia| |done]. split; [done|lia].
Qed.

Lemma protect_chunk_safe {B} (key : option bytes) plain g (f : bytes -> ST Error (PackState W) B) s Q :
  (forall stored n, opens key (chunk_aad g) stored plain -> len stored = len plain + overhead key ->
     ssafe (f stored) {| ps_writer := ps_writer s; ps_nonces := n; ps_self := ps_self s |} Q
       (fun _ => True)) ->
  ssafe ((match key with
          | Some key => on_nonces (encrypt plain key (chunk_aad g))
          | None => mret plain
          end) ≫= f) s Q (fun _ => True).
Proof.
  intros Hf. destruct key as [key|]; cbn [overhead] in Hf.
  - pose proof (encrypt_total plain key (chunk_aad g) (ps_nonces s)) as Ht.
    pose proof (encrypt_decrypt plain key (chunk_aad g) (ps_nonces s)) as He.
    unfold ssafe, on_nonces, zoom, mbind, st_bind in *.
    destruct (encrypt plain key (chunk_aad g) (ps_nonces s)) as [[stored|e|] n]; [|done..].
    destruct (He n stored eq_refl) as [Hd Hl]. by apply Hf.
  - destruct s. apply Hf; [done|lia].
Qed.

Lemma overhead_aead o key : overhead (aead_key_of o key) = if packs_aead o then AEAD_OVERHEAD else 0.
Proof. unfold aead_key_of. by destruct (packs_aead o). Qed.

(** What [add_chunk] does to a packer whose buffer starts with [data]. *)
Definition chunk_added (s : PackState W) (pieces : list bytes) (data : bytes) (ot st : Z)
    (totals : Z * Z) (s' : PackState W) : Prop :=
  Appending contents position s' /\ ChunksInv (contents (ps_writer s')) (ps_self s') (pieces ++ [data]) /\
  frame (ps_self s) (ps_self s') /\ pk_raw (ps_self s') = pk_raw (ps_self s) /\
  exists c, pk_chunks (ps_self s') = pk_chunks (ps_self s) ++ [c] /\
    c_original_size c = len data /\ 0 <= c_stored_size c /\
    totals = (ot + len data, st + c_stored_size c) /\
    ot + len data <= U64_MAX /\ st + c_stored_size c <= U64_MAX.

Lemma add_chunk_safe (s : PackState W) pieces raw_len ot st :
  Appending contents position s -> ChunksInv (contents (ps_writer s)) (ps_self s) pieces ->
  1 <= raw_len <= len (pk_raw (ps_self s)) ->
  ssafe (add_chunk raw_len ot st) s
    (chunk_added s pieces (take (Z.to_nat raw_len) (pk_raw (ps_self s))) ot st) (fun _ => True).
Proof.
  intros Happ Hinv Hraw. unfold add_chunk. apply ssafe_self_bind.
  set (data := take (Z.to_nat raw_len) (pk_raw (ps_self s))).
  assert (Hdl : len data = raw_len) by (unfold data, len in *; rewrite length_take; lia).
  assert (slice_get (pk_raw (ps_self s)) 0 raw_len = Some data) as ->.
  { unfold slice_get. zdecide. unfold data. cbn. by rewrite Z.sub_0_r, drop_0. }
  apply ssafe_lift_Ok. destruct s as [w0 n0 p0]. cbn [ps_self ps_writer ps_nonces] in *.
  pose proof (ci_options _ _ _ Hinv) as Hopt. pose proof (oo_chunk_size _ Hopt) as Hcz.
  pose proof (ci_raw _ _ _ Hinv) as Hrl. pose proof (ci_compressed _ _ _ Hinv) as Hcl.
  assert (Hmax : get_maximum_output_size (len data) <= len (pk_compressed p0)).
  { rewrite Hcl. apply maximum_output_size_mono. lia. }
  pose proof (compress_ok data (pk_compressed p0) Hmax) as Hcomp.
  eapply (ssafe_bind _ _ _ (fun n s1 => exists out', lz4_compress_into data (pk_compressed p0) = (Ok n, out') /\
    length out' = length (pk_compressed p0) /\
    s1 = {| ps_writer := w0; ps_nonces := n0; ps_self := set_compressed out' p0 |})).
  { unfold ssafe, st_map_err in *. cbn.
    destruct (lz4_compress_into data (pk_compressed p0)) as [[n|e|] out']; cbn; [|done..].
    exists out'. destruct Hcomp as (? & _). done. }
  intros n _ _ (out' & Hrun & Hol & ->).
  eapply ssafe_bind; [by apply align_safe|]. cbn [ps_self ps_writer ps_nonces].
  intros [] [w1 n1 p1] _ (Happ1 & aligned & Hp1 & Hle & Hdiv & Hc1). cbn in Hp1, Hle, Hdiv, Hc1.
  subst p1. apply ssafe_self_bind. cbv zeta. cbn [ps_self ps_writer ps_nonces].
  set (p1 := set_offset aligned (set_compressed out' p0)) in *.
  assert (Hf1 : frame p0 p1) by done.
  assert (Hinv1 : ChunksInv (contents w1) p1 pieces).
  { rewrite Hc1. eapply ChunksInv_grow; [exact Hinv|done..| |]; cbn; [unfold len; lia|lia]. }
  assert (Hp1 : pk_compressed p1 = out' /\ pk_raw p1 = pk_raw p0 /\ pk_chunks p1 = pk_chunks p0 /\
    pk_offset p1 = aligned) by done.
  destruct Happ1 as (He1 & Ho1 & Hu1). cbn in He1, Ho1, Hu1. clearbody p1.
  destruct Hp1 as (Hpc & Hpr & Hpk & Hpo). rewrite Hpc.
  eapply compress_choice_safe; [exact Hmax|exact Hrun|lia|done|].
  intros plain compressed Hpl Hcmp Hdec. cbv iota beta.
  unfold usize_to_u32 at 1. eapply ssafe_lift_bind; [apply safe_ok_or|done|].
  intros g _ Hg. apply try_from_Some in Hg as [-> Hg].
  apply protect_chunk_safe. cbn [ps_self ps_writer ps_nonces]. intros stored n2 Hop Hsl.
  eapply ssafe_on_writer_bind; [by apply write_bytes_end|]. cbn [ps_self ps_writer ps_nonces].
  intros [] w2 [Hc2 He2]. unfold with_writer. cbn [ps_self ps_writer ps_nonces].
  eapply ssafe_lift_bind; [apply safe_ok_or|done|]. intros sl _ Hs. apply try_from_Some in Hs as [-> Hsu].
  eapply ssafe_lift_bind; [apply safe_ok_or|done|]. intros off _ Ho2. apply checked_add_Some in Ho2 as [-> Ho2].
  apply ssafe_update_bind.
  eapply ssafe_lift_bind; [apply safe_ok_or|done|]. intros os _ Hos. apply try_from_Some in Hos as [-> _].
  eapply ssafe_lift_bind; [apply safe_ok_or|done|]. intros ss _ Hss. apply try_from_Some in Hss as [-> _].
  eapply ssafe_lift_bind; [apply safe_ok_or|done|]. intros ot' _ Hot. apply checked_add_Some in Hot as [-> Hot].
  eapply ssafe_lift_bind; [apply safe_ok_or|done|]. intros st' _ Hst. apply checked_add_Some in Hst as [-> Hst].
  apply ssafe_update_bind. apply ssafe_self_bind. unfold with_self. cbn [ps_self ps_writer ps_nonces].
  set (c := {| c_offset := pk_offset p1; c_stored_size := len stored; c_original_size := raw_len;
    c_checksum := checksum data; c_compressed := compressed |}).
  eapply ssafe_lift_bind; [apply safe_ok_or|done|]. intros cnt _ Hcnt. apply try_from_Some in Hcnt as [_ Hcnt].
  apply ssafe_ret. unfold chunk_added. cbn [ps_self ps_writer ps_nonces].
  set (p2 := set_chunks _ _) in *.
  assert (Hf2 : frame p1 p2) by done.
  assert (Hpay : payload_size (packs_aead (pk_options p1)) c = len plain).
  { unfold payload_size. rewrite (ci_aead _ _ _ Hinv1), overhead_aead in Hsl. cbn.
    destruct (packs_aead (pk_options p1)); lia. }
  pose proof (len_nonneg stored). unfold in_range in Hu1.
  split_and!.
  - split_and!; [done| |]; unfold in_range; cbn; rewrite ?Hc2, ?len_app; lia.
  - rewrite Hc2. eapply (ChunksInv_snoc _ _ p1 p2 _ c); try done; rewrite ?Hpay; try (done || lia).
    + apply xxh3_range.
    + rewrite (fr_options _ _ Hf1), Hpo. done.
    + rewrite (fr_options _ _ Hf1). lia.
    + eapply decode_stored_packed; [exact Hop|by rewrite Hdl|done..].
  - by eapply frame_trans.
  - done.
  - exists c. cbn. rewrite Hpk, Hdl. split_and!; (done || lia).
Qed.
End AddChunk.

(** ** All the chunks of a reader *)

Section AddChunks.
Context {C : Crates} {W : Type} `{WriteSeekSpec W contents position}
  `{!CompressSpec C} `{!AeadSpec C} `{!HashSpec C} {R : Type} `{ReadHolds R}.

Lemma read_raw_safe {B} (f : Z -> ST Error (PackState W * R) B) s reader Q :
  len (pk_raw (ps_self s)) <= USIZE_MAX ->
  (forall raw reader' k, k = Z.min (len (pk_raw (ps_self s))) (len (rest reader)) ->
     len raw = len (pk_raw (ps_self s)) -> take (Z.to_nat k) raw = take (Z.to_nat k) (rest reader) ->
     rest reader' = drop (Z.to_nat k) (rest reader) ->
     ssafe (f k) (with_self (set_raw raw) s, reader') Q (fun _ => True)) ->
  ssafe (on_raw read_chunk ≫= f) (s, reader) Q (fun _ => True).
Proof.
  intros Hu Hf. pose proof (read_chunk_safe_spec reader (pk_raw (ps_self s)) Hu) as Hs.
  unfold ssafe, on_raw, mbind, st_bind in *.
  destruct (read_chunk (reader, pk_raw (ps_self s))) as [[k|e|] [reader' raw]]; [|done..].
  destruct Hs as (Hk & Hl & Ht & Hr). apply Hf; try done. unfold len. by f_equal.
Qed.

Lemma on_pack_safe {A B} (m : ST Error (PackState W) A) (f : A -> ST Error (PackState W * R) B) s (reader : R) P Q :
  ssafe m s P (fun _ => True) ->
  (forall a s', P a s' -> ssafe (f a) (s', reader) Q (fun _ => True)) ->
  ssafe (on_pack m ≫= f) (s, reader) Q (fun _ => True).
Proof.
  unfold ssafe, on_pack, on_fst, zoom, mbind, st_bind. cbn.
  destruct (m s) as [[a|e|] s']; naive_solver.
Qed.

(** What the loop does with a reader that delivers [data]. *)
Definition chunks_added (s : PackState W) (pieces : list bytes) (data : bytes) (ot st : Z)
    (totals : Z * Z) (s' : PackState W) : Prop :=
  Appending contents position s' /\ frame (ps_self s) (ps_self s') /\
  exists ps cs, ChunksInv (contents (ps_writer s')) (ps_self s') (pieces ++ ps) /\
    pk_chunks (ps_self s') = pk_chunks (ps_self s) ++ cs /\
    concat ps = data /\ length ps = length cs /\
    full_but_last (po_chunk_size (pk_options (ps_self s))) cs /\ (cs = [] <-> data = []) /\
    Forall (fun c => 0 <= c_stored_size c) cs /\
    original_total cs = len data /\ totals = (ot + len data, st + stored_total cs) /\
    ot + len data <= U64_MAX /\ st + stored_total cs <= U64_MAX.

Lemma add_chunks_safe fuel (s : PackState W) reader pieces ot st :
  Appending contents position s -> ChunksInv (contents (ps_writer s)) (ps_self s) pieces ->
  (length (rest reader) < fuel)%nat -> ot <= U64_MAX -> st <= U64_MAX ->
  ssafe (add_chunks fuel ot st) (s, reader)
    (fun totals s' => chunks_added s pieces (rest reader) ot st totals s'.1) (fun _ => True).
Proof.
  revert s reader pieces ot st. induction fuel as [|fuel IH]; intros s reader pieces ot st Happ Hinv Hf Hot Hst; [lia|].
  cbn [add_chunks]. pose proof (ci_raw _ _ _ Hinv) as Hraw.
  pose proof (oo_chunk_size _ (ci_options _ _ _ Hinv)) as Hcz.
  apply read_raw_safe; [unfold USIZE_MAX, U64_MAX, MAX_CHUNK_SIZE in *; lia|].
  intros raw reader' k Hk Hrl Htk Hrest. pose proof (len_nonneg (rest reader)) as Hn.
  assert (Hinv1 : ChunksInv (contents (ps_writer s)) (set_raw raw (ps_self s)) pieces).
  { rewrite <- (app_nil_r (contents _)). eapply ChunksInv_grow; [exact Hinv|done..|cbn; lia]. }
  destruct (Z.eqb_spec k 0) as [Hz|Hz].
  - apply ssafe_ret. cbn. assert (rest reader = []) as -> by (apply len_0_nil; lia).
    split_and!; [done|done|]. exists [], []. rewrite app_nil_r.
    split_and!; try done; cbn; rewrite ?app_nil_r, ?Z.add_0_r; done.
  - eapply on_pack_safe.
    { apply (add_chunk_safe (with_self (set_raw raw) s) pieces k ot st); [done|done|]. cbn. lia. }
    intros [ot1 st1] s1 (Happ1 & Hinv2 & Hfr & Hr1 & c & Hc & Hco & Hcs & [= -> ->] & Hou & Hsu).
    cbn [ps_self with_self pk_raw set_raw] in *. rewrite Htk in *.
    set (d := take (Z.to_nat k) (rest reader)) in *.
    assert (Hdl : len d = k) by (unfold d, len in *; rewrite length_take; lia).
    assert (Hdr : rest reader = d ++ rest reader') by (rewrite Hrest; unfold d; by rewrite take_drop).
    assert (Hlr : (length (rest reader') < fuel)%nat).
    { rewrite Hrest, length_drop. unfold len in *. lia. }
    eapply ssafe_mono; [apply (IH s1 reader' (pieces ++ [d])); (done || lia)| |done].
    intros totals [s2 r2] _ (Happ2 & Hfr2 & ps & cs & Hi & Hcs2 & Hcat & Hlen & Hfull & Hnil & Hpos & Htot & -> & Ho2 & Hs2).
    cbn [fst] in *. clearbody d. rewrite Hdr in Hk |- *. unfold chunks_added.
    assert (Hfr1 : frame (ps_self s) (ps_self s1)) by (destruct Hfr; by constructor).
    split_and!; [done|by eapply frame_trans|]. exists (d :: ps), (c :: cs).
    rewrite <- app_assoc in Hi. split_and!; try done.
    + rewrite Hcs2, Hc. cbn. by rewrite <- app_assoc.
    + cbn. by rewrite Hcat.
    + cbn. by rewrite Hlen.
    + apply full_but_last_cons. rewrite (fr_options _ _ Hfr1) in Hfull. split; [|done].
      destruct (decide (rest reader' = [])) as [He|He]; [left; by apply Hnil|right].
      rewrite Hco, Hdl, <- Hraw. assert (len (rest reader') <> 0) by (by intros ?%len_0_nil).
      rewrite len_app in Hk. pose proof (len_nonneg (rest reader')). lia.
    + split; [done|]. destruct d; [done|]. done.
    + by constructor.
    + cbn [sum_over]. rewrite Hco, Htot, len_app. done.
    + cbn [sum_over]. rewrite len_app. f_equal; lia.
    + rewrite len_app. lia.
    + cbn [sum_over]. lia.
Qed.
End AddChunks.
