(* ===== verification/Assets.v ===== *)
(** * The packer's entries

    The second half of the packer's invariant: the entries describe the
    assets added so far and partition the chunks; [add_reader] preserves it. *)
From S2P Require Export Packing.

(** Entry [e] describes an asset: its normalized path (which [stripped] leaves
    out) and its data. *)
Record EntryHolds {C : Crates} (cs : list Chunk) (pieces : list bytes) (chunk_size : Z)
    (stripped : bool) (e : TocEntry) (asset : bytes * bytes) : Prop := {
  eh_path : te_path e = if stripped then [] else asset.1;
  eh_hash : te_path_hash e = checksum asset.1;
  eh_size : te_original_size e = len asset.2;
  eh_range : entry_in_range e;
  eh_ok : EntryOk cs chunk_size e;
  eh_data : concat (take (Z.to_nat (te_chunk_count e)) (drop (Z.to_nat (te_first_chunk e)) pieces))
            = asset.2
}.

Record AssetsInv {C : Crates} (p : Packer) (pieces : list bytes) (assets : list (bytes * bytes)) :
    Prop := {
  ai_entries : Forall2 (EntryHolds (pk_chunks p) pieces (po_chunk_size (pk_options p)) false)
                 (pk_entries p) assets;
  ai_partition : concat (entry_range <$> pk_entries p) = seq 0 (length (pk_chunks p));
  ai_count : len (pk_entries p) <= U32_MAX;
  ai_paths : Forall (fun a => NormalPath a.1 /\ utf8_valid a.1 = true) assets;
  ai_distinct : NoDup assets.*1;
  ai_hashes : strips_paths (po_mode (pk_options p)) = true -> NoDup (te_path_hash <$> pk_entries p);
  ai_seen : Forall (fun e => te_path_hash e ∈ pk_seen_hashes p) (pk_entries p)
}.

(** The invariant of a packer that has not failed, on the assets it holds. *)
Definition PackInv {C : Crates} {W} (contents : W -> bytes) (position : W -> Z) (s : PackState W)
    (assets : list (bytes * bytes)) : Prop :=
  Appending contents position s /\ pk_failed (ps_self s) = false /\
  exists pieces, ChunksInv (contents (ps_writer s)) (ps_self s) pieces /\
    AssetsInv (ps_self s) pieces assets.

(** ** Lemmas *)

Lemma take_drop_prefix {A} (l k : list A) a n :
  (a + n <= length l)%nat -> take n (drop a (l ++ k)) = take n (drop a l).
Proof.
  intros Hl. rewrite drop_app_le by lia. rewrite take_app_le; [done|]. rewrite length_drop. lia.
Qed.

Section Entries.
Context {C : Crates}.

Lemma EntryHolds_app cs pieces cz b e a more ps :
  EntryHolds cs pieces cz b e a -> length pieces = length cs ->
  EntryHolds (cs ++ more) (pieces ++ ps) cz b e a.
Proof.
  intros [? ? ? Hr [Hle ? ? ? ?] ?] Hl. pose proof Hr as (_&_&_&[? _]&[? _]). unfold len in Hle.
  assert (Ho : owned_chunks (cs ++ more) e = owned_chunks cs e).
  { unfold owned_chunks. apply take_drop_prefix. lia. }
  constructor; try done; [constructor|]; rewrite ?Ho; try done.
  - rewrite len_app. pose proof (len_nonneg more). unfold len in *. lia.
  - rewrite take_drop_prefix by lia. done.
Qed.

(** The entry [add_reader] pushes for the chunks it added. *)
Lemma EntryHolds_new cs pieces more ps cz e q data :
  length pieces = length cs -> length ps = length more -> concat ps = data ->
  te_path e = q -> te_path_hash e = checksum q -> te_original_size e = len data ->
  te_stored_size e = stored_total more -> te_first_chunk e = len cs -> te_chunk_count e = len more ->
  full_but_last cz more -> (more = [] <-> data = []) -> original_total more = len data ->
  entry_in_range e -> EntryHolds (cs ++ more) (pieces ++ ps) cz false e (q, data).
Proof.
  intros Hp Hps Hcat Hq Hh Ho Hs Hf Hc Hfull Hnil Htot Hr.
  assert (Hown : owned_chunks (cs ++ more) e = more).
  { unfold owned_chunks. rewrite Hf, Hc, !to_nat_len, drop_app_length. by apply take_ge. }
  constructor; cbn; try done; [constructor|]; rewrite ?Hown; try done; try (by symmetry).
  - rewrite len_app. lia.
  - rewrite Ho, Hc. split; intros Hz%len_0_nil; [apply Hnil in Hz|apply Hnil in Hz]; by rewrite Hz.
  - by rewrite Htot.
  - rewrite Hf, Hc, !to_nat_len, <- Hp, drop_app_length, <- Hps. by rewrite take_ge.
Qed.

(** No entry of the packer has the path [q] or, in production mode, its
    identifier. *)
Definition fresh (p : Packer) (q : bytes) : Prop :=
  Forall (fun e => te_path_hash e = checksum q -> te_path e <> q) (pk_entries p) /\
  (strips_paths (po_mode (pk_options p)) = true ->
   Forall (fun e => te_path_hash e <> checksum q) (pk_entries p)).

Lemma AssetsInv_snoc p p' pieces assets more ps e q data :
  AssetsInv p pieces assets -> pk_chunks p' = pk_chunks p ++ more ->
  pk_entries p' = pk_entries p ++ [e] -> pk_options p' = pk_options p ->
  length pieces = length (pk_chunks p) -> length ps = length more ->
  EntryHolds (pk_chunks p') (pieces ++ ps) (po_chunk_size (pk_options p)) false e (q, data) ->
  te_first_chunk e = len (pk_chunks p) -> te_chunk_count e = len more ->
  len (pk_entries p') <= U32_MAX -> NormalPath q -> utf8_valid q = true -> fresh p q ->
  pk_seen_hashes p ⊆ pk_seen_hashes p' -> checksum q ∈ pk_seen_hashes p' ->
  AssetsInv p' (pieces ++ ps) (assets ++ [(q, data)]).
Proof.
  intros [Hes Hpart Hcnt Hpaths Hnd Hh Hseen] Hcs He Ho Hpl Hpsl Hnew Hf Hc Hc' Hq Hu [Hf1 Hf2] Hsub Hin.
  constructor; rewrite ?Ho, ?He.
  - apply Forall2_app; [|by apply Forall2_cons_2]. eapply Forall2_impl; [exact Hes|].
    intros e0 a0 H0. rewrite Hcs. by apply EntryHolds_app.
  - rewrite fmap_app, concat_app, Hpart, Hcs, length_app, seq_app. f_equal. cbn.
    unfold entry_range. by rewrite Hf, Hc, !to_nat_len, app_nil_r.
  - by rewrite <- He.
  - apply Forall_app. split; [done|]. by apply Forall_singleton.
  - rewrite fmap_app. apply NoDup_app. split_and!; [done| |apply NoDup_singleton].
    intros x (a & -> & Ha)%list_elem_of_fmap Hx%list_elem_of_singleton.
    apply list_elem_of_lookup in Ha as [i Hi].
    destruct (Forall2_lookup_r _ _ _ _ _ Hes Hi) as (e0 & He0 & [Hp0 Hh0 _ _ _ _]).
    cbn in Hx. rewrite Hx in Hp0, Hh0. rewrite Forall_lookup in Hf1. by apply (Hf1 i e0 He0).
  - intros Hs. rewrite fmap_app. apply NoDup_app. split_and!; [by apply Hh| |apply NoDup_singleton].
    intros x (e0 & -> & He0)%list_elem_of_fmap Hx%list_elem_of_singleton.
    specialize (Hf2 Hs). rewrite Forall_forall in Hf2. apply (Hf2 e0 He0).
    rewrite Hx. apply Hnew.
  - apply Forall_app. split; [eapply Forall_impl; [exact Hseen|]; set_solver|].
    apply Forall_singleton. destruct Hnew as [_ -> _ _ _ _]. done.
Qed.
End Entries.

(** ** [add_reader] *)

Lemma sum_over_Forall {A} (f : A -> Z) l : Forall (fun x => 0 <= f x) l -> 0 <= sum_over f l.
Proof. induction 1; cbn; lia. Qed.

Section AddReader.
Context {C : Crates} {W : Type} `{WriteSeekSpec W contents position}
  `{!CompressSpec C} `{!AeadSpec C} `{!HashSpec C} {R : Type} `{ReadHolds R}.

Lemma duplicate_spec (entries : list TocEntry) h q :
  existsb (fun entry => (te_path_hash entry =? h) && bool_decide (te_path entry = q)) entries = false ->
  Forall (fun e => te_path_hash e = h -> te_path e <> q) entries.
Proof.
  intros Hd. apply Forall_forall. intros e He Hh Hp.
  assert (existsb (fun entry => (te_path_hash entry =? h) && bool_decide (te_path entry = q)) entries = true); [|congruence].
  apply existsb_exists. exists e. split; [by apply list_elem_of_In|].
  by rewrite Hh, Hp, Z.eqb_refl, bool_decide_true.
Qed.

(** The [match] on [seen_hashes.insert]. *)
Lemma register_safe {B} q (f : unit -> ST Error (PackState W * R) B) s reader Q :
  Forall (fun e => te_path_hash e ∈ pk_seen_hashes (ps_self s)) (pk_entries (ps_self s)) ->
  (forall seen, pk_seen_hashes (ps_self s) ⊆ seen -> checksum q ∈ seen -> fresh (ps_self s) q ->
     ssafe (f tt) (with_self (set_seen seen) s, reader) Q (fun _ => True)) ->
  ssafe ((if decide (checksum q ∈ pk_seen_hashes (ps_self s)) then
     let duplicate := existsb (fun entry => (te_path_hash entry =? checksum q)
                                 && bool_decide (te_path entry = q)) (pk_entries (ps_self s)) in
     lift (ensure (negb duplicate) (DuplicatePath q));;
     lift (ensure (negb (strips_paths (po_mode (pk_options (ps_self s))))) (HashCollision (checksum q)))
   else on_pack (update (set_seen ({[checksum q]} ∪ pk_seen_hashes (ps_self s))))) ≫= f)
   (s, reader) Q (fun _ => True).
Proof.
  intros Hseen Hf. destruct (decide _) as [Hin|Hout].
  - destruct (existsb _ _) eqn:Hd; [done|].
    destruct (strips_paths _) eqn:Hs; [done|].
    destruct s as [w n p]. cbn [ps_self with_self] in *.
    specialize (Hf (pk_seen_hashes p)). unfold ssafe in *. cbn in Hf.
    assert (Hself : with_self (set_seen (pk_seen_hashes p)) {| ps_writer := w; ps_nonces := n; ps_self := p |} =
      {| ps_writer := w; ps_nonces := n; ps_self := p |}) by (by destruct p).
    rewrite Hself in Hf. apply Hf; [done|done|]. split; [by apply duplicate_spec|]. cbn. congruence.
  - eapply (on_pack_safe _ _ _ _ (fun _ s' => s' = with_self (set_seen ({[checksum q]} ∪ pk_seen_hashes (ps_self s))) s)).
    { by apply ssafe_update. }
    intros [] _ ->. rewrite Forall_forall in Hseen. apply Hf; [set_solver|set_solver|]. split.
    + apply Forall_forall. intros e He Hh. specialize (Hseen e He). congruence.
    + intros _. apply Forall_forall. intros e He Hh. specialize (Hseen e He). congruence.
Qed.

Lemma add_reader_inner_safe path (s : PackState W) reader assets :
  PackInv contents position s assets -> utf8_valid path = true ->
  ssafe (add_reader_inner path) (s, reader)
    (fun _ s' => exists q, normalize_path path = Ok q /\
       PackInv contents position s'.1 (assets ++ [(q, rest reader)]) /\
       pk_options (ps_self s'.1) = pk_options (ps_self s) /\
       pk_key (ps_self s'.1) = pk_key (ps_self s)) (fun _ => True).
Proof.
  intros (Happ & Hfail & pieces & Hci & Hai) Hutf. unfold add_reader_inner.
  eapply (ssafe_lift_bind _ _ _ (fun _ => True)); [apply safe_True, normalize_path_np|done|].
  intros q Hq _. cbv zeta.
  eapply (on_pack_safe _ _ _ _ (fun p s' => p = ps_self s /\ s' = s)); [done|]. intros _ _ [-> ->].
  apply register_safe; [apply Hai|]. intros seen Hsub Hin Hfresh.
  eapply ssafe_lift_bind; [apply safe_ok_or|done|]. intros fc _ Hfc. apply try_from_Some in Hfc as [-> Hfc].
  apply ssafe_get_bind. cbv beta iota.
  set (s1 := with_self (set_seen seen) s).
  assert (Hci1 : ChunksInv (contents (ps_writer s1)) (ps_self s1) pieces) by (by destruct Hci).
  eapply ssafe_bind.
  { apply (add_chunks_safe _ s1 reader pieces 0 0); [done|done|lia|unfold U64_MAX; lia..]. }
  intros [ot st] [s2 reader2] _ (Happ2 & Hfr & ps & cs & Hci2 & Hcs & Hcat & Hlen & Hfull & Hnil & Hpos & Htot & Htots & Hou & Hsu).
  cbn [fst] in *. injection Htots as -> ->. rewrite !Z.add_0_l in *.
  eapply (on_pack_safe _ _ _ _ (fun p s' => p = ps_self s2 /\ s' = s2)); [done|]. intros _ _ [-> ->].
  assert (Hcl : len (pk_chunks (ps_self s2)) = len (pk_chunks (ps_self s)) + len cs)
    by (rewrite Hcs; apply len_app).
  rewrite checked_sub_le by (rewrite Hcl; pose proof (len_nonneg cs); lia). apply ssafe_lift_Ok.
  eapply ssafe_lift_bind; [apply safe_ok_or|done|]. intros cc _ Hcc. apply try_from_Some in Hcc as [-> Hcc].
  set (e := {| te_path := q; te_path_hash := checksum q; te_original_size := len (rest reader);
    te_stored_size := stored_total cs; te_first_chunk := len (pk_chunks (ps_self s));
    te_chunk_count := len (pk_chunks (ps_self s2)) - len (pk_chunks (ps_self s)) |}).
  eapply (on_pack_safe _ _ _ _ (fun _ s' => s' = with_self (set_entries (pk_entries (ps_self s2) ++ [e])) s2)).
  { by apply ssafe_update. }
  intros [] _ ->. eapply (on_pack_safe _ _ _ _ (fun p s' => p = ps_self s' /\
    s' = with_self (set_entries (pk_entries (ps_self s2) ++ [e])) s2)); [done|]. intros _ _ [-> ->].
  eapply ssafe_lift_bind; [apply safe_ok_or|done|]. intros ec _ Hec. apply try_from_Some in Hec as [_ Hec].
  apply ssafe_ret. exists q. split; [done|]. cbn [fst with_self ps_self ps_writer] in *.
  set (s3 := with_self _ _). assert (Hfr3 : frame (ps_self s1) (ps_self s2)) by done.
  destruct Hfr as [Hk Ho Ha He Hse Hfl]. cbn in Hk, Ho, Ha, He, Hse, Hfl.
  pose proof (ci_pieces _ _ _ Hci) as Hpl. pose proof (len_nonneg (rest reader)).
  pose proof (len_nonneg (pk_chunks (ps_self s))). pose proof (len_nonneg cs).
  split_and!; [|done..]. split_and!; [by destruct Happ2|by rewrite <- Hfail|].
  exists (pieces ++ ps). split; [by destruct Hci2|].
  apply (AssetsInv_snoc (ps_self s) _ _ _ cs _ e); try done; cbn.
  - by rewrite He.
  - rewrite Hcs. apply EntryHolds_new; try done; cbn; [lia|]. unfold entry_in_range, in_range; cbn.
    pose proof (xxh3_range q). unfold in_range in *. unfold U64_MAX, U32_MAX in *.
    assert (0 <= stored_total cs) by (by apply sum_over_Forall).
    unfold checksum. split_and!; try lia.
  - lia.
  - by eapply normalize_normal.
  - by eapply normalize_utf8.
  - by rewrite Hse.
  - by rewrite Hse.
Qed.
End AddReader.
