(* ===== verification/Finish.v ===== *)
(** * The finished archive

    [Packed]: what a file must hold to be the archive of a list of assets;
    [finish] of a packer that satisfies its invariant writes such a file. *)
From S2P Require Export Assets.

(** ** The specification of an archive *)

(** The table of contents of [entries] as the mode stores it. *)
Definition stored_entries (o : PackOptions) (entries : list TocEntry) : list TocEntry :=
  if strips_paths (po_mode o) then clear_path <$> entries else entries.

(** The header [finish] writes. *)
Definition packed_flags (o : PackOptions) : Z :=
  Z.lor (Z.lor REQUIRED_HEADER_FLAGS
           (match po_protection o with Xor => HEADER_FLAG_TOC_XOR | Aead => HEADER_FLAG_AEAD end))
        (HEADER_FLAG_PATHS_STRIPPED * b2z (strips_paths (po_mode o))).

Record HeaderFor {C : Crates} (o : PackOptions) (es : list TocEntry) (cs : list Chunk) (h : Header) :
    Prop := {
  hf_range : header_in_range h;
  hf_spec : HeaderSpec h;
  hf_flags : h_flags h = packed_flags o;
  hf_chunk_size : h_chunk_size h = po_chunk_size o;
  hf_alignment : h_alignment h = po_alignment o;
  hf_entries : h_entry_count h = len es;
  hf_chunks : h_chunk_count h = len cs;
  hf_raw_size : h_toc_raw_size h = len (toc_bytes es cs);
  hf_hash : h_toc_hash h = checksum (toc_bytes es cs);
  hf_offset : HEADER_SIZE <= h_toc_offset h;
  hf_aligned : (po_alignment o | h_toc_offset h)
}.

(** [stored] is the protected, compressed form of [plain]. *)
Definition TocStored {C : Crates} (o : PackOptions) (key stored plain : bytes) : Prop :=
  exists block,
    (if packs_aead o then decrypt stored (derive_key key) TOC_AAD = Ok block
     else xor_in_place stored key = Ok block) /\
    forall dst mismatch, length dst = length plain ->
      decompress_into_exact block mismatch dst = (Ok tt, plain).

(** The bytes [content] are an archive, under [key], of [assets]: normalized
    paths and data. *)
Record Packed {C : Crates} (o : PackOptions) (key content : bytes) (assets : list (bytes * bytes))
    (h : Header) (es : list TocEntry) (cs : list Chunk) (pieces : list bytes) : Prop := {
  pa_key : key <> [];
  pa_header : HeaderFor o es cs h;
  pa_content : exists body toc, content = header_bytes h ++ body ++ toc /\
    HEADER_SIZE + len body = h_toc_offset h /\ len toc = h_toc_size h /\
    TocStored o key toc (toc_bytes es cs);
  pa_size : len content <= U64_MAX;
  pa_path_len : Forall (fun e => len (te_path e) <= MAX_PATH_LEN) es;
  pa_entry_range : Forall entry_in_range es;
  pa_chunk_range : Forall chunk_in_range cs;
  pa_layout : LayoutSpec es cs (h_toc_offset h) (po_chunk_size o) (po_alignment o)
                (packs_aead o) (original_total cs);
  pa_entries : Forall2 (EntryHolds cs pieces (po_chunk_size o) (strips_paths (po_mode o))) es assets;
  pa_paths : Forall (fun a => NormalPath a.1 /\ utf8_valid a.1 = true) assets;
  pa_distinct : NoDup assets.*1;
  pa_hashes : strips_paths (po_mode o) = true -> NoDup (te_path_hash <$> es);
  pa_pieces : length pieces = length cs;
  pa_chunks i c d : cs !! i = Some c -> pieces !! i = Some d ->
    ChunkHolds content (aead_key_of o key) (Z.of_nat i) c d
}.

(** ** Lemmas: the header *)

Lemma packed_flags_spec o :
  is_u16 (packed_flags o) /\ FlagsSpec (packed_flags o) /\
  negb (Z.land (packed_flags o) HEADER_FLAG_PATHS_STRIPPED =? 0) = strips_paths (po_mode o) /\
  negb (Z.land (packed_flags o) HEADER_FLAG_AEAD =? 0) = packs_aead o.
Proof.
  assert (Hr : is_u16 (packed_flags o)).
  { unfold packed_flags. destruct (po_mode o), (po_protection o); vm_compute; intuition congruence. }
  split; [done|]. rewrite <- flags_check_spec by done.
  unfold packed_flags, packs_aead. destruct (po_mode o), (po_protection o); by split_and!.
Qed.

Lemma encode_toc_np {C : Crates} es cs : encode_toc es cs <> Panic.
Proof.
  assert (Hs : forall size, entries_size es size <> Panic).
  { induction es as [|e es IH]; intros size; cbn [entries_size]; auto with nopanic. }
  assert (He : forall out, encode_entries es out <> Panic).
  { clear Hs. induction es as [|e es IH]; intros out; cbn [encode_entries]; [done|].
    unfold encode_entry. auto 20 with nopanic. }
  unfold encode_toc, try_reserve. auto 20 with nopanic.
Qed.

(** Overwriting the header's place keeps what is behind it. *)
Lemma slice_get_header {A} (hdr l s : list A) a b :
  len hdr <= a -> slice_get l a b = Some s ->
  slice_get (hdr ++ drop (length hdr) l) a b = Some s.
Proof.
  intros Ha (? & ? & ->)%slice_get_Some. apply slice_get_Some. unfold len in *.
  rewrite length_app, length_drop. split_and!; [lia|lia|lia|].
  rewrite (drop_app_ge hdr) by lia. rewrite drop_drop. do 2 f_equal. lia.
Qed.

Lemma overwrite_header (hdr l : bytes) :
  overwrite l 0 hdr = hdr ++ drop (length hdr) l.
Proof. unfold overwrite. change (Z.to_nat 0) with 0%nat. by rewrite resize_0. Qed.

Section Stored.
Context {C : Crates}.

Lemma stored_entries_hold o cs pieces cz es assets :
  Forall2 (EntryHolds cs pieces cz false) es assets ->
  Forall2 (EntryHolds cs pieces cz (strips_paths (po_mode o))) (stored_entries o es) assets.
Proof.
  unfold stored_entries. destruct (strips_paths (po_mode o)); [|done]. intros Hf.
  apply Forall2_fmap_l. eapply Forall2_impl; [exact Hf|]. intros e a [? ? ? ? [] ?].
  constructor; try done; by constructor.
Qed.

Lemma stored_entries_fields o es :
  entry_range <$> stored_entries o es = entry_range <$> es /\
  te_path_hash <$> stored_entries o es = te_path_hash <$> es /\
  length (stored_entries o es) = length es.
Proof.
  unfold stored_entries. destruct (strips_paths (po_mode o)); [|done].
  by rewrite <- !list_fmap_compose, length_fmap.
Qed.

Lemma EntryHolds_paths_ok cs pieces cz stripped es assets :
  Forall2 (EntryHolds cs pieces cz stripped) es assets ->
  Forall (fun a => NormalPath a.1 /\ utf8_valid a.1 = true) assets ->
  Forall (entry_path_ok stripped) es.
Proof.
  induction 1 as [|e a es assets [Hp Hh _ _ _ _] _ IH]; [done|]. intros [[? ?] ?]%Forall_cons.
  constructor; [|by apply IH]. unfold entry_path_ok. destruct stripped; [done|].
  by rewrite Hp, Hh.
Qed.

Lemma EntryHolds_layout cs pieces cz stripped es assets :
  Forall2 (EntryHolds cs pieces cz stripped) es assets ->
  Forall entry_in_range es /\ Forall (EntryOk cs cz) es.
Proof. induction 1 as [|e a es assets [] _ []]; split; by constructor. Qed.
End Stored.

(** ** [finish] *)

Section FinishSafe.
Context {C : Crates} {W : Type} `{WriteSeekSpec W contents position}
  `{!CompressSpec C} `{!AeadSpec C} `{!HashSpec C}.

Lemma protect_toc_safe {B} o key block (f : bytes -> ST Error (PackState W) B) s Q :
  key <> [] ->
  (forall toc n,
     (if packs_aead o then decrypt toc (derive_key key) TOC_AAD = Ok block
      else xor_in_place toc key = Ok block) ->
     ssafe (f toc) {| ps_writer := ps_writer s; ps_nonces := n; ps_self := ps_self s |} Q
       (fun _ => True)) ->
  ssafe ((match aead_key_of o key with
          | Some key => on_nonces (encrypt block key TOC_AAD)
          | None => lift (xor_in_place block key)
          end) ≫= f) s Q (fun _ => True).
Proof.
  intros Hk Hf. unfold aead_key_of. destruct (packs_aead o).
  - pose proof (encrypt_total block (derive_key key) TOC_AAD (ps_nonces s)) as Ht.
    pose proof (encrypt_decrypt block (derive_key key) TOC_AAD (ps_nonces s)) as He.
    unfold ssafe, on_nonces, zoom, mbind, st_bind in *.
    destruct (encrypt block (derive_key key) TOC_AAD (ps_nonces s)) as [[stored|e|] n]; [|done..].
    destruct (He n stored eq_refl) as [Hd _]. by apply Hf.
  - rewrite xor_in_place_run by done. apply ssafe_lift_Ok. destruct s. apply Hf.
    by rewrite xor_in_place_run, xored_involutive.
Qed.

(** The compressed form of the table of contents. *)
Lemma compress_toc plain :
  exists n out,
    st_map_err Lz4 (lz4_compress_into plain)
      (replicate (Z.to_nat (get_maximum_output_size (len plain))) x00) = (Ok n, out) /\
    forall dst mismatch, length dst = length plain ->
      decompress_into_exact (take (Z.to_nat n) out) mismatch dst = (Ok tt, plain).
Proof.
  set (out := replicate _ x00).
  assert (Hm : get_maximum_output_size (len plain) <= len out).
  { unfold out, len at 2. rewrite length_replicate. lia. }
  pose proof (compress_ok plain out Hm) as Hok. unfold ssafe, st_map_err in Hok |- *.
  destruct (lz4_compress_into plain out) as [[n|e|] out'] eqn:E; [|done..].
  exists n, out'. split; [done|]. intros dst mismatch Hd. by eapply decompress_compressed.
Qed.

(** The part of [finish] behind the table of contents: the header. *)
Lemma write_header_end h (s : PackState W) n Q :
  0 <= n ->
  (forall w, contents w = header_bytes h ++ drop 60 (contents (ps_writer s)) ->
     Q {| archive_len := n; entry_count := h_entry_count h; chunk_total := h_chunk_count h |}
       (with_writer w s)) ->
  ssafe (on_writer (st_map_err Io (seek_start 0));;
         on_writer (write_header h);;
         on_writer (st_map_err Io (seek_start n));;
         mret {| archive_len := n; entry_count := h_entry_count h; chunk_total := h_chunk_count h |})
    s Q (fun _ => True).
Proof.
  intros Hn Hq. eapply ssafe_on_writer_bind; [apply ssafe_map_err, seek_start_spec; lia|].
  intros p0 w0 (_ & Hc0 & Hp0).
  eapply ssafe_on_writer_bind; [apply (write_header_wrote h); cbn; lia|]. intros [] w1 [Hc1 _].
  eapply ssafe_on_writer_bind; [apply ssafe_map_err, seek_start_spec; lia|]. intros p2 w2 (_ & Hc2 & _).
  apply ssafe_ret. apply Hq. rewrite Hc2. cbn [with_writer ps_writer]. rewrite Hc1.
  cbn [with_writer ps_writer]. rewrite Hp0, Hc0, overwrite_header.
  pose proof (len_header_bytes h) as Hl. unfold HEADER_SIZE, len in Hl.
  by replace (length (header_bytes h)) with 60%nat by lia.
Qed.


(** The packer's record, with its entries stripped or not. *)
Lemma strip_safe {B} (f : unit -> ST Error (PackState W) B) s Q :
  ssafe (f tt) (with_self (fun p => set_entries (stored_entries (pk_options p) (pk_entries p)) p) s)
    Q (fun _ => True) ->
  ssafe ((if strips_paths (po_mode (pk_options (ps_self s)))
          then update (set_entries (clear_path <$> pk_entries (ps_self s))) else mret tt) ≫= f)
    s Q (fun _ => True).
Proof.
  unfold with_self, stored_entries. destruct (strips_paths _); [done|].
  by destruct s as [w n []].
Qed.

(** The header [finish] writes. *)
Definition packed_header (o : PackOptions) (es : list TocEntry) (cs : list Chunk)
    (toc_offset toc_size : Z) : Header := {|
  h_version := VERSION; h_flags := packed_flags o; h_header_size := HEADER_SIZE;
  h_alignment := po_alignment o; h_chunk_size := po_chunk_size o;
  h_entry_count := len es; h_chunk_count := len cs; h_toc_offset := toc_offset;
  h_toc_size := toc_size; h_toc_raw_size := len (toc_bytes es cs);
  h_toc_hash := checksum (toc_bytes es cs) |}.

Lemma packed_header_for o es cs toc_offset toc_size :
  OptionsOk o -> len es <= U32_MAX -> len cs <= U32_MAX -> HEADER_SIZE <= toc_offset <= U64_MAX ->
  (po_alignment o | toc_offset) -> 0 <= toc_size <= MAX_TOC_STORED_SIZE ->
  len (toc_bytes es cs) <= MAX_TOC_RAW_SIZE ->
  HeaderFor o es cs (packed_header o es cs toc_offset toc_size).
Proof.
  intros [Hcz (k & Hk & Hal)] Hes Hcs Hoff Hdiv Hts Hraw.
  destruct (packed_flags_spec o) as (Hf & Hfs & _).
  pose proof (xxh3_range (toc_bytes es cs)). pose proof (len_nonneg (toc_bytes es cs)).
  pose proof (len_nonneg es). pose proof (len_nonneg cs).
  assert (0 < 2 ^ k <= 2 ^ 20) by (split; [apply Z.pow_pos_nonneg; lia|apply Z.pow_le_mono_r; lia]).
  unfold MAX_TOC_STORED_SIZE, MAX_TOC_RAW_SIZE, MAX_CHUNK_SIZE, HEADER_SIZE in *.
  unfold packed_header. constructor; try (done || (cbn; lia)).
  - unfold header_in_range, checksum. generalize dependent (toc_bytes es cs). intros plain ? ? ?.
    cbn. rewrite Hal. unfold in_range, U16_MAX, U32_MAX, U64_MAX, HEADER_SIZE, VERSION in *.
    split_and!; (done || lia).
  - constructor; try (done || (cbn; lia)). by exists k.
  - unfold HEADER_SIZE. cbn. lia.
Qed.

(** The finished file: the payload behind the header's place, the table of
    contents, and the header. *)
Lemma packed_intro p content toc pieces assets :
  ChunksInv content p pieces -> AssetsInv p pieces assets -> pk_offset p = len content ->
  (po_alignment (pk_options p) | pk_offset p) -> len content + len toc <= U64_MAX ->
  len toc <= MAX_TOC_STORED_SIZE ->
  let o := pk_options p in
  let es := stored_entries o (pk_entries p) in
  let h := packed_header o es (pk_chunks p) (pk_offset p) (len toc) in
  len (toc_bytes es (pk_chunks p)) <= MAX_TOC_RAW_SIZE ->
  Forall (fun e => len (te_path e) <= MAX_PATH_LEN) es ->
  TocStored o (pk_key p) toc (toc_bytes es (pk_chunks p)) ->
  len (header_bytes h ++ drop 60 (content ++ toc)) = len content + len toc /\
  Packed o (pk_key p) (header_bytes h ++ drop 60 (content ++ toc)) assets h es (pk_chunks p) pieces.
Proof.
  intros Hci Hai Ho Hdiv Hu Hts o es h Hraw Hpl Htoc.
  destruct (stored_entries_fields o (pk_entries p)) as (Hrange & Hhash & Hlen). fold es in Hrange, Hhash, Hlen.
  pose proof (stored_entries_hold o _ _ _ _ _ (ai_entries _ _ _ Hai)) as Hholds. fold es in Hholds.
  destruct (EntryHolds_layout _ _ _ _ _ _ Hholds) as [Her Heo].
  pose proof (ai_count _ _ _ Hai) as Hec. pose proof (len_nonneg toc). pose proof (len_nonneg content).
  pose proof (ci_header _ _ _ Hci) as Hhd. pose proof (len_header_bytes h) as Hhl.
  unfold HEADER_SIZE in Hhd, Hhl.
  assert (Hdl : drop 60 (content ++ toc) = drop 60 content ++ toc).
  { rewrite drop_app_le; [done|]. unfold len in *. lia. }
  assert (Hfl : len (header_bytes h ++ drop 60 (content ++ toc)) = len content + len toc).
  { rewrite len_app, Hdl, len_app, Hhl. unfold len at 1. rewrite length_drop. unfold len in *. lia. }
  split; [exact Hfl|]. constructor; try done; try apply Hci; try apply Hai.
  - apply packed_header_for; try done; try apply Hci; [unfold len in *; lia|unfold HEADER_SIZE; lia].
  - exists (drop 60 content), toc. rewrite Hdl. split_and!; try done. cbn. unfold HEADER_SIZE.
    unfold len at 1. rewrite length_drop. unfold len in *. lia.
  - lia.
  - constructor; try apply Hci; [lia|done|]. by rewrite Hrange, (ai_partition _ _ _ Hai).
  - intros Hs. rewrite Hhash. by apply Hai.
  - intros i c d Hi Hd. destruct (ci_content _ _ _ Hci i c d Hi Hd) as (? & st & Hst & Hdec).
    split; [done|]. exists st. split; [|unfold o; by rewrite <- (ci_aead _ _ _ Hci)].
    replace 60%nat with (length (header_bytes h)) by (unfold len in Hhl; lia).
    apply slice_get_header; [|by apply slice_get_prefix]. rewrite Hhl.
    pose proof (ci_chunks _ _ _ Hci) as Hck. rewrite Forall_lookup in Hck.
    apply (ck_offset _ _ _ _ _ (Hck i c Hi)).
Qed.
(** What [finish] leaves. *)
Definition finished (o : PackOptions) (key : bytes) (assets : list (bytes * bytes))
    (summary : PackSummary) (s' : PackState W) : Prop :=
  exists h es cs pieces,
    Packed o key (contents (ps_writer s')) assets h es cs pieces /\
    summary = {| archive_len := len (contents (ps_writer s')); entry_count := h_entry_count h;
                 chunk_total := h_chunk_count h |}.

Lemma finish_safe (s : PackState W) assets :
  PackInv contents position s assets ->
  ssafe finish s (finished (pk_options (ps_self s)) (pk_key (ps_self s)) assets) (fun _ => True).
Proof.
  intros (Happ & Hfail & pieces & Hci & Hai). unfold finish. apply ssafe_self_bind.
  rewrite Hfail. apply ssafe_lift_Ok.
  eapply ssafe_bind; [apply align_safe; [done|apply Hci]|].
  intros [] s1 _ ((He1 & Ho1 & Hu1) & aligned & Hp1 & Hle & Hdiv & Hc1).
  apply ssafe_self_bind. cbv zeta. apply strip_safe. apply ssafe_self_bind.
  assert (Hci1 : ChunksInv (contents (ps_writer s1)) (ps_self s1) pieces).
  { rewrite Hc1, Hp1. by eapply ChunksInv_grow. }
  assert (Hai1 : AssetsInv (ps_self s1) pieces assets) by (rewrite Hp1; by destruct Hai).
  assert (Hoff : pk_offset (ps_self s1) = aligned /\ pk_options (ps_self s1) = pk_options (ps_self s) /\
    pk_key (ps_self s1) = pk_key (ps_self s)) by (by rewrite Hp1).
  destruct Hoff as (Hoff & Hopt & Hkey). rewrite <- Hoff, <- Hopt in Hdiv. rewrite <- Hopt, <- Hkey.
  clear Hai Hci Happ Hfail Hle Hc1 Hp1 Hopt Hkey s Hoff aligned.
  set (o := pk_options (ps_self s1)). set (es := stored_entries o (pk_entries (ps_self s1))).
  cbn [with_self ps_self ps_writer set_entries pk_entries pk_chunks pk_options pk_key pk_aead_key pk_offset].
  fold o es.
  eapply (ssafe_lift_bind _ _ _ (fun _ => True)); [apply safe_True, encode_toc_np|done|].
  intros plain (-> & Hraw & Hpl)%encode_toc_Ok _. set (cs := pk_chunks (ps_self s1)) in *.
  eapply ssafe_lift_bind; [apply safe_ok_or|done|]. intros rs _ Hrs. apply try_from_Some in Hrs as [-> _].
  rewrite (proj2 (Z.leb_le _ _) Hraw). apply ssafe_lift_Ok.
  eapply ssafe_lift_bind; [apply safe_ensure|done|]. intros [] _ _.
  destruct (compress_toc (toc_bytes es cs)) as (n & out & Hrun & Hblock). rewrite Hrun.
  cbv beta iota. apply ssafe_lift_Ok. cbv zeta. set (block := take (Z.to_nat n) out) in *.
  rewrite (ci_aead _ _ _ Hci1). fold o. apply (protect_toc_safe o); [apply Hci1|].
  intros toc n1 Htoc. cbn [with_self ps_self ps_writer].
  eapply ssafe_lift_bind; [apply safe_ok_or|done|]. intros ts _ Hts. apply try_from_Some in Hts as [-> _].
  eapply ssafe_lift_bind; [apply safe_ensure|done|]. intros [] _ Hts%Z.leb_le.
  eapply ssafe_on_writer_bind; [by apply write_bytes_end|]. intros [] w2 [Hc2 He2].
  eapply ssafe_lift_bind; [apply safe_ok_or|done|]. intros al _ Hal. apply checked_add_Some in Hal as [-> Hal].
  apply ssafe_update_bind. cbv zeta.
  eapply ssafe_lift_bind; [apply safe_ok_or|done|]. intros cz _ Hcz. apply try_from_Some in Hcz as [-> _].
  eapply ssafe_lift_bind; [apply safe_ok_or|done|]. intros ec _ Hec. apply try_from_Some in Hec as [-> _].
  eapply ssafe_lift_bind; [apply safe_ok_or|done|]. intros cc _ Hcc. apply try_from_Some in Hcc as [-> _].
  destruct (packed_intro (ps_self s1) (contents (ps_writer s1)) toc pieces assets) as [Hl Hpk];
    [done|done|done|done|lia|done|done|done| |].
  { exists block. split; [exact Htoc|]. intros dst mismatch Hd. by apply Hblock. }
  fold o es cs in Hl, Hpk.
  apply (write_header_end (packed_header o es cs (pk_offset (ps_self s1)) (len toc)));
    [pose proof (len_nonneg toc); destruct Hu1; lia|].
  intros w3 Hc3. cbn [with_self with_writer ps_self ps_writer] in Hc3. rewrite Hc2 in Hc3.
  eexists _, es, cs, pieces. cbn [with_self with_writer ps_self ps_writer].
  rewrite Hc3. split; [exact Hpk|]. f_equal. rewrite Ho1. symmetry. exact Hl.
Qed.
End FinishSafe.
