(* ===== verification/Pack.v ===== *)
(** * Packing runs

    [Packer::new], [add_reader], [finish] and [pack_with_options] as a whole:
    a run never panics, a failed packer stays failed, and a run that succeeds
    leaves an archive of its files. *)
From S2P Require Export Finish.

(** The assets a list of files gives. *)
Definition files_assets {C : Crates} (files : list InputFile) (assets : list (bytes * bytes)) : Prop :=
  Forall2 (fun f a => normalize_path (if_path f) = Ok a.1 /\ a.2 = if_data f) files assets.

(** The types of the options' fields. *)
Definition options_in_range (o : PackOptions) : Prop :=
  is_u64 (po_chunk_size o) /\ is_u32 (po_alignment o).

Section Pack.
Context {C : Crates} {W : Type} `{WriteSeekSpec W contents position}
  `{!CompressSpec C} `{!AeadSpec C} `{!HashSpec C}.

Lemma len_replicate {A} n (x : A) : 0 <= n -> len (replicate (Z.to_nat n) x) = n.
Proof. intros Hn. unfold len. rewrite length_replicate. lia. Qed.

Lemma new_safe key options w :
  options_in_range options ->
  ssafe (new key options) w
    (fun p w' => contents w = [] /\ pk_options p = options /\ pk_key p = key /\
       forall n, PackInv contents position {| ps_writer := w'; ps_nonces := n; ps_self := p |} [])
    (fun _ => True).
Proof.
  intros [Hcz Hal]. unfold new.
  eapply ssafe_lift_bind; [apply safe_ensure|done|]. intros [] _ Hk%negb_true_iff%bool_decide_eq_false.
  eapply (ssafe_lift_bind _ _ _ (fun _ => True)); [apply safe_True, validate_np|done|].
  intros o [-> Ho]%validate_Ok _; [|apply Hcz|done]. cbv zeta.
  eapply ssafe_bind; [apply ssafe_map_err, seek_end_spec|]. intros e w1 _ (-> & Hc1 & _).
  eapply ssafe_lift_bind; [apply safe_ensure|done|]. intros [] _ Hz%Z.eqb_eq. apply len_0_nil in Hz.
  eapply ssafe_bind; [apply ssafe_map_err, seek_start_spec; lia|]. intros e w2 _ (_ & Hc2 & Hp2).
  eapply (ssafe_bind _ _ _ (fun _ w' => contents w' = replicate 60 x00 /\ at_end contents position w')).
  { eapply ssafe_mono; [apply write_bytes_end| |done].
    - unfold at_end. by rewrite Hp2, Hc2, Hc1, Hz.
    - intros [] w3 _ [Hc3 He3]. split; [|done]. by rewrite Hc3, Hc2, Hc1, Hz. }
  intros [] w3 _ [Hc3 He3].
  eapply ssafe_lift_bind; [apply safe_ensure|done|]. intros [] _ _.
  eapply ssafe_lift_bind; [apply safe_ensure|done|]. intros [] _ _. apply ssafe_ret.
  split_and!; [done|done|done|]. intros n.
  pose proof (maximum_output_size_mono 0 (po_chunk_size options) ltac:(destruct Hcz; lia)).
  split; [split; [done|split; [cbn; by rewrite Hc3|done]]|split; [done|]]. exists []. split.
  - constructor; cbn; try (done || lia); try (apply len_replicate; destruct Hcz; lia).
  - constructor; cbn; try done; try constructor.
Qed.

Context {R : Type} `{ReadHolds R}.

Lemma PackInv_failed (s : PackState W) assets :
  PackInv contents position s assets -> PackInv contents position (with_self (set_failed false) s) assets.
Proof. intros (? & ? & pieces & [] & []). split_and!; [done|done|]. by exists pieces. Qed.

Lemma add_reader_safe path (s : PackState W) (reader : R) assets :
  PackInv contents position s assets -> utf8_valid path = true ->
  ssafe (add_reader path) (s, reader)
    (fun _ s' => exists q, normalize_path path = Ok q /\
       PackInv contents position s'.1 (assets ++ [(q, rest reader)]) /\
       pk_options (ps_self s'.1) = pk_options (ps_self s) /\
       pk_key (ps_self s'.1) = pk_key (ps_self s))
    (fun s' => pk_failed (ps_self s'.1) = true).
Proof.
  intros Hinv Hutf. pose proof (add_reader_inner_safe path s reader assets Hinv Hutf) as Hs.
  pose proof Hinv as (_ & Hfail & _). unfold add_reader.
  unfold ssafe, on_pack, on_fst, zoom, self, get, lift, mbind, st_bind, mret, st_ret, record_failure in *.
  cbn. rewrite Hfail. cbn.
  destruct (add_reader_inner path (s, reader)) as [[[]|e|] [s' reader']]; cbn in *; [|apply orb_true_r|done].
  destruct Hs as (q & Hq & Hi & Ho & Hk). exists q. split_and!; try done.
  pose proof Hi as (_ & Hf & _). rewrite Hf. cbn. by apply PackInv_failed.
Qed.
End Pack.

Section PackFiles.
Context {C : Crates} {W : Type} `{WriteSeekSpec W contents position}
  `{!CompressSpec C} `{!AeadSpec C} `{!HashSpec C}.

Lemma add_file_safe f (s : PackState W) assets :
  PackInv contents position s assets -> utf8_valid (if_path f) = true ->
  ssafe (add_file f) s
    (fun _ s' => exists q, normalize_path (if_path f) = Ok q /\
       PackInv contents position s' (assets ++ [(q, if_data f)]) /\
       pk_options (ps_self s') = pk_options (ps_self s) /\
       pk_key (ps_self s') = pk_key (ps_self s)) (fun _ => True).
Proof.
  intros Hinv Hutf. pose proof (add_reader_safe (if_path f) s (if_data f) assets Hinv Hutf) as Hs.
  unfold ssafe, add_file in *.
  by destruct (add_reader (if_path f) (s, if_data f)) as [[[]|e|] [s' r']].
Qed.

Lemma add_files_safe files (s : PackState W) assets :
  PackInv contents position s assets -> Forall (fun f => utf8_valid (if_path f) = true) files ->
  ssafe (add_files files) s
    (fun _ s' => exists more, files_assets files more /\
       PackInv contents position s' (assets ++ more) /\
       pk_options (ps_self s') = pk_options (ps_self s) /\
       pk_key (ps_self s') = pk_key (ps_self s)) (fun _ => True).
Proof.
  intros Hinv Hutf. revert s assets Hinv. induction Hutf as [|f files Hf Hutf IH]; intros s assets Hinv.
  { apply ssafe_ret. exists []. rewrite app_nil_r. split_and!; try done. constructor. }
  cbn [add_files]. eapply ssafe_bind; [by apply add_file_safe|]. intros [] s1 _ (q & Hq & Hi & Ho & Hk).
  eapply ssafe_mono; [by apply IH| |done]. intros [] s2 _ (more & Hm & Hi2 & Ho2 & Hk2).
  exists ((q, if_data f) :: more). rewrite <- app_assoc in Hi2. split_and!; [|done|congruence..].
  by constructor.
Qed.

(** The archive of some files, that a summary describes. *)
Definition archive_of (files : list InputFile) (key : bytes) (o : PackOptions) (summary : PackSummary)
    (d : bytes) : Prop :=
  exists assets h es cs pieces, files_assets files assets /\ Packed o key d assets h es cs pieces /\
    summary = {| archive_len := len d; entry_count := h_entry_count h; chunk_total := h_chunk_count h |}.

(** The destination was empty, and now holds the archive of the files. *)
Definition archived (files : list InputFile) (key : bytes) (o : PackOptions) (w : W)
    (summary : PackSummary) (w' : W) : Prop :=
  contents w = [] /\ archive_of files key o summary (contents w').

(** From a new packer to its summary. *)
Lemma files_run_safe files key options w p w1 n :
  options_in_range options -> Forall (fun f => utf8_valid (if_path f) = true) files ->
  new key options w = (Ok p, w1) ->
  ssafe (add_files files;; finish) {| ps_writer := w1; ps_nonces := n; ps_self := p |}
    (fun summary s' => archived files key options w summary (ps_writer s')) (fun _ => True).
Proof.
  intros Ho Hutf Hnew. pose proof (new_safe key options w Ho) as Hn. unfold ssafe in Hn.
  rewrite Hnew in Hn. destruct Hn as (Hw & <- & <- & Hinv).
  eapply ssafe_bind; [apply (add_files_safe files _ []); [apply Hinv|done]|].
  intros [] s1 _ (assets & Ha & Hi & Hop & Hk).
  eapply ssafe_mono; [by apply finish_safe| |done]. intros sum s2 _ (h & es & cs & pieces & Hp & Hsum).
  split; [done|]. rewrite Hop, Hk in Hp. exists assets, h, es, cs, pieces. by split_and!.
Qed.

Lemma pack_with_options_safe files key options w n :
  options_in_range options -> Forall (fun f => utf8_valid (if_path f) = true) files ->
  ssafe (pack_with_options files key options) (w, n)
    (fun _ s' => exists summary, archived files key options w summary s'.1) (fun _ => True).
Proof.
  intros Ho Hutf. pose proof (new_safe key options w Ho) as Hn. unfold ssafe, pack_with_options in *.
  destruct (new key options w) as [[p|e|] w1] eqn:Hnew; [|done..].
  pose proof (files_run_safe files key options w p w1 n Ho Hutf Hnew) as Hs. clear Hn Hnew.
  unfold ssafe, mbind, st_bind in *. destruct (add_files files _) as [[[]|e|] s1]; [|done..].
  destruct (finish s1) as [[sum|e|] s2]; [|done..]. by exists sum.
Qed.
End PackFiles.

(** ** Properties *)

(** C4 A packing run never panics, whatever the files, the key and the options,
    over any destination that keeps the contract of [Write] and [Seek]; a run
    that succeeds found the destination empty and left the archive of exactly
    its files: a valid header, a table of contents that opens under the key, a
    valid layout, and every chunk stored where its record says. *)
Theorem pack_with_options_sound {C : Crates} {W contents position} `{WriteSeekSpec W contents position}
    `{!CompressSpec C} `{!AeadSpec C} `{!HashSpec C} files key options (w : W) n :
  options_in_range options -> Forall (fun f => utf8_valid (if_path f) = true) files ->
  (pack_with_options files key options (w, n)).1 <> Panic /\
  forall w' n', pack_with_options files key options (w, n) = (Ok tt, (w', n')) ->
    contents w = [] /\ exists assets h es cs pieces, files_assets files assets /\
      Packed options key (contents w') assets h es cs pieces.
Proof.
  intros Ho Hf. pose proof (pack_with_options_safe files key options w n Ho Hf) as Hs. unfold ssafe in Hs.
  destruct (pack_with_options files key options (w, n)) as [[[]|e|] [w1 n1]]; [|done..].
  split; [done|]. intros w' n' [= <- <-]. destruct Hs as (sum & Hw & assets & h & es & cs & pieces & ? & ? & _).
  split; [done|]. by exists assets, h, es, cs, pieces.
Qed.

(** C11 [add_reader] preserves the packer's invariant: it never panics; success
    adds the reader's whole data under the normalized path and keeps every
    asset added before; a failure marks the packer as failed. *)
Theorem add_reader_spec {C : Crates} {W contents position} `{WriteSeekSpec W contents position}
    `{!CompressSpec C} `{!AeadSpec C} `{!HashSpec C} {R} `{ReadHolds R} path (s : PackState W)
    (reader : R) assets :
  PackInv contents position s assets -> utf8_valid path = true ->
  (add_reader path (s, reader)).1 <> Panic /\
  (forall s' reader', add_reader path (s, reader) = (Ok tt, (s', reader')) ->
     exists q, normalize_path path = Ok q /\
       PackInv contents position s' (assets ++ [(q, rest reader)])) /\
  (forall e s' reader', add_reader path (s, reader) = (Err e, (s', reader')) ->
     pk_failed (ps_self s') = true).
Proof.
  intros Hi Hu. pose proof (add_reader_safe path s reader assets Hi Hu) as Hs. unfold ssafe in Hs.
  destruct (add_reader path (s, reader)) as [[[]|e|] [s1 r1]]; [|by split_and!; [|by intros|intros ? ? ? [= <- <- <-]]|done].
  destruct Hs as (q & Hq & Hi' & _). split_and!; [done| |done]. intros s' r' [= <- <-]. by exists q.
Qed.

Lemma duplicate_run (entries : list TocEntry) h q e :
  e ∈ entries -> te_path_hash e = h -> te_path e = q ->
  existsb (fun entry => (te_path_hash entry =? h) && bool_decide (te_path entry = q)) entries = true.
Proof.
  intros He Hh Hq. apply existsb_exists. exists e. split; [by apply list_elem_of_In|].
  by rewrite Hh, Hq, Z.eqb_refl, bool_decide_true.
Qed.

(** C25 A path whose normal form was added before is refused as a duplicate, and
    in production mode a new path that collides with an earlier identifier is
    refused as a collision; neither reads from the reader nor writes to the
    destination. *)
Theorem add_reader_refuses {C : Crates} {W contents position} `{WriteSeekSpec W contents position}
    {R} `{ReadHolds R} path q (s : PackState W) (reader : R) assets :
  PackInv contents position s assets -> normalize_path path = Ok q ->
  (q ∈ assets.*1 -> exists s', add_reader path (s, reader) = (Err (DuplicatePath q), (s', reader)) /\
     ps_writer s' = ps_writer s) /\
  (q ∉ assets.*1 -> strips_paths (po_mode (pk_options (ps_self s))) = true ->
   checksum q ∈ checksum <$> assets.*1 ->
   exists s', add_reader path (s, reader) = (Err (HashCollision (checksum q)), (s', reader)) /\
     ps_writer s' = ps_writer s).
Proof.
  intros (_ & Hfail & pieces & _ & Hai) Hq. pose proof (ai_entries _ _ _ Hai) as Hes.
  pose proof (ai_seen _ _ _ Hai) as Hseen. rewrite Forall_forall in Hseen.
  assert (Hrun : checksum q ∈ pk_seen_hashes (ps_self s) -> forall err,
    (add_reader_inner path (s, reader)) = (Err err, (s, reader)) ->
    exists s', add_reader path (s, reader) = (Err err, (s', reader)) /\ ps_writer s' = ps_writer s).
  { intros _ err Hr. unfold add_reader, on_pack, on_fst, zoom, self, get, lift, mbind, st_bind,
      mret, st_ret, record_failure. cbn. rewrite Hfail. cbn. rewrite Hr. by eexists. }
  assert (Hin : forall x, x ∈ assets -> exists e, e ∈ pk_entries (ps_self s) /\
    te_path e = x.1 /\ te_path_hash e = checksum x.1).
  { intros x [i Hi]%list_elem_of_lookup.
    destruct (Forall2_lookup_r _ _ _ _ _ Hes Hi) as (e & He & [Hp Hh _ _ _ _]).
    exists e. split_and!; [by eapply list_elem_of_lookup_2|done|done]. }
  split.
  - intros (x & -> & Hx)%list_elem_of_fmap. destruct (Hin x Hx) as (e & He & Hp & Hh).
    pose proof (Hseen e He) as Hs. cbv beta in Hs. rewrite Hh in Hs. apply Hrun; [done|].
    unfold add_reader_inner. erewrite st_bind_run; [|unfold lift; by rewrite Hq].
    cbv zeta. erewrite st_bind_run by done. cbn [fst]. rewrite decide_True by done.
    by rewrite (duplicate_run _ _ _ e He Hh Hp).
  - intros Hnew Hst (y & Hy & (x & -> & Hx)%list_elem_of_fmap)%list_elem_of_fmap.
    destruct (Hin x Hx) as (e & He & Hp & Hh).
    pose proof (Hseen e He) as Hs. cbv beta in Hs. rewrite Hh, <- Hy in Hs. apply Hrun; [done|].
    unfold add_reader_inner. erewrite st_bind_run; [|unfold lift; by rewrite Hq].
    cbv zeta. erewrite st_bind_run by done. cbn [fst]. rewrite decide_True by done.
    destruct (existsb _ _) eqn:Hd.
    + exfalso. apply existsb_exists in Hd as (e' & He'%list_elem_of_In & Heq). inv_ok.
      apply list_elem_of_lookup in He' as [i Hi].
      destruct (Forall2_lookup_l _ _ _ _ _ Hes Hi) as (x' & Hx' & [Hp' _ _ _ _ _]).
      apply Hnew. apply list_elem_of_fmap. exists x'.
      split; [congruence|by eapply list_elem_of_lookup_2].
    + cbn. by rewrite Hst.
Qed.

(** C26 Once [add_reader] has failed the packer stays failed: every later
    [add_reader] and [finish] is refused with [IncompletePack] and changes
    nothing. *)
Theorem failed_packer_refuses {C : Crates} {W} `{WriteSeek W} {R} `{Io.Read R} `{ReadFinite R}
    path (s s' : PackState W) (reader reader' : R) e :
  add_reader path (s, reader) = (Err e, (s', reader')) ->
  (forall path2 reader2, add_reader path2 (s', reader2) = (Err IncompletePack, (s', reader2))) /\
  finish s' = (Err IncompletePack, s').
Proof.
  intros Hadd. assert (Hf : pk_failed (ps_self s') = true).
  { revert Hadd. unfold add_reader, on_pack, on_fst, zoom, self, get, lift, mbind, st_bind, mret, st_ret,
      record_failure. cbn. destruct (pk_failed (ps_self s)) eqn:Hs; cbn.
    - by intros [= <- <- <-].
    - destruct (add_reader_inner path _) as [[[]|err|] [s1 r1]]; [done| |done].
      intros [= <- <- <-]. apply orb_true_r. }
  destruct s' as [w n p]. cbn in Hf. split.
  - intros path2 reader2. unfold add_reader, on_pack, on_fst, zoom, self, get, lift, mbind, st_bind.
    cbn. by rewrite Hf.
  - unfold finish, self, get, lift, mbind, st_bind. cbn. by rewrite Hf.
Qed.

(** [read_chunk] collects short reads and repeats interrupted ones until the
    buffer is full or the reader ends: it never panics or runs out of calls,
    and what it fills is the next data of the reader, which moves past it. *)
Theorem read_chunk_fills {R} `{ReadHolds R} (reader : R) (buffer : bytes) :
  len buffer <= USIZE_MAX ->
  ssafe read_chunk (reader, buffer)
    (fun k s => k = Z.min (len buffer) (len (rest reader)) /\ length s.2 = length buffer /\
       take (Z.to_nat k) s.2 = take (Z.to_nat k) (rest reader) /\
       rest s.1 = drop (Z.to_nat k) (rest reader))
    (fun s => length s.2 = length buffer).
Proof. apply read_chunk_safe_spec. Qed.

(** [Packer::new] refuses a destination that is not empty and leaves its
    contents alone. *)
Theorem new_nonempty_refused {C : Crates} {W contents position} `{WriteSeekSpec W contents position}
    `{!WriteSeekTotal W} key options (w : W) :
  options_in_range options -> key <> [] -> OptionsOk options -> contents w <> [] ->
  exists w', new key options w = (Err NonEmptyDestination, w') /\ contents w' = contents w.
Proof.
  intros [Hcz Hal] Hk Ho Hw. unfold new.
  rewrite (st_bind_run _ _ _ tt w); [|unfold lift; by rewrite bool_decide_eq_false_2].
  rewrite (st_bind_run _ _ _ options w); [|unfold lift; f_equal; apply validate_Ok; [apply Hcz|done|done]].
  cbv zeta. destruct (seek_end_total w) as (n & w' & Hs).
  pose proof (seek_end_spec (contents := contents) (position := position) w) as Hss. unfold ssafe in Hss.
  rewrite Hs in Hss. destruct Hss as (-> & Hc & _).
  rewrite (st_bind_run _ _ _ (len (contents w)) w'); [|unfold st_map_err; by rewrite Hs].
  destruct (Z.eqb_spec (len (contents w)) 0) as [Hz|Hz]; [by apply len_0_nil in Hz|].
  exists w'. by split.
Qed.

(** A packer over an empty cursor, with one asset. *)
Module PackDemo.
Definition options : PackOptions := {|
  po_chunk_size := 4; po_alignment := 16; po_mode := Production; po_protection := Xor |}.
Definition empty : VecCursor := {| vc_data := []; vc_pos := 0 |}.
Definition fresh_packer : Res Packer * VecCursor := new (C := Toy.crates) (lit "k") options empty.
Definition start : PackState VecCursor :=
  match fresh_packer with
  | (Ok p, w) => {| ps_writer := w; ps_nonces := 0; ps_self := p |}
  | (_, w) => {| ps_writer := w; ps_nonces := 0; ps_self := set_failed true {|
      pk_key := []; pk_aead_key := None; pk_options := options; pk_entries := []; pk_chunks := [];
      pk_seen_hashes := ∅; pk_raw := []; pk_compressed := []; pk_offset := 0; pk_failed := true |} |}
  end.
Definition one : PackState VecCursor :=
  (add_reader (C := Toy.crates) (lit "a//b") (start, lit "hello")).2.1.

Lemma start_inv : PackInv (C := Toy.crates) vc_data vc_pos start [].
Proof.
  assert (Hr : options_in_range options) by (vm_compute; intuition congruence).
  pose proof (new_safe (C := Toy.crates) (lit "k") options empty Hr) as Hn. unfold ssafe in Hn.
  unfold start, fresh_packer. destruct (new (lit "k") options empty) as [[p|e|] w] eqn:E; [apply Hn| |];
    vm_compute in E; discriminate.
Qed.

Lemma one_inv : PackInv (C := Toy.crates) vc_data vc_pos one [(lit "a/b", lit "hello")].
Proof.
  pose proof (add_reader_safe (C := Toy.crates) (lit "a//b") start (lit "hello") [] start_inv eq_refl) as Hs.
  unfold ssafe in Hs. unfold one.
  destruct (add_reader (lit "a//b") (start, lit "hello")) as [[[]|e|] [s r]] eqn:E;
    [|vm_compute in E; discriminate..].
  destruct Hs as (q & Hq & Hi & _). vm_compute in Hq. injection Hq as <-. exact Hi.
Qed.
End PackDemo.

Lemma pack_with_options_sound_witness :
  (pack_with_options (C := Toy.crates) [{| if_path := lit "a"; if_data := lit "hello" |}] (lit "k")
     PackDemo.options (PackDemo.empty, 0%nat)).1 <> Panic.
Proof.
  apply (pack_with_options_sound (C := Toy.crates) [{| if_path := lit "a"; if_data := lit "hello" |}]
    (lit "k") PackDemo.options PackDemo.empty 0).
  - vm_compute. intuition congruence.
  - by repeat constructor.
Defined.

Lemma add_reader_spec_witness :
  (add_reader (C := Toy.crates) (lit "c") (PackDemo.one, lit "data")).1 <> Panic.
Proof.
  apply (add_reader_spec (C := Toy.crates) (lit "c") PackDemo.one (lit "data")
    [(lit "a/b", lit "hello")] PackDemo.one_inv).
  reflexivity.
Defined.

Lemma add_reader_refuses_witness :
  exists s', add_reader (C := Toy.crates) (lit "./a\b") (PackDemo.one, lit "data") =
    (Err (DuplicatePath (lit "a/b")), (s', lit "data")) /\ ps_writer s' = ps_writer PackDemo.one.
Proof.
  refine (proj1 (add_reader_refuses (C := Toy.crates) (lit "./a\b") (lit "a/b") PackDemo.one (lit "data")
    [(lit "a/b", lit "hello")] PackDemo.one_inv _) _).
  - vm_compute. reflexivity.
  - by left.
Defined.

Lemma failed_packer_refuses_witness :
  finish (C := Toy.crates) (add_reader (C := Toy.crates) (lit "../x") (PackDemo.one, lit "data")).2.1 =
    (Err IncompletePack, (add_reader (C := Toy.crates) (lit "../x") (PackDemo.one, lit "data")).2.1).
Proof.
  refine (proj2 (failed_packer_refuses (C := Toy.crates) (lit "../x") PackDemo.one _ (lit "data")
    (lit "data") InvalidPath _)).
  vm_compute. reflexivity.
Defined.

Lemma read_chunk_fills_witness :
  match read_chunk (lit "hello", replicate 3 x00) with
  | (Ok k, s) => k = 3 /\ s.1 = lit "lo"
  | _ => True
  end.
Proof.
  assert (Hs : ssafe read_chunk (lit "hello", replicate 3 x00) (fun k s => k = 3 /\ s.1 = lit "lo") (fun _ => True)).
  { eapply ssafe_mono; [apply (read_chunk_fills (lit "hello") (replicate 3 x00)); vm_compute; congruence| |done].
    intros k s _ (-> & _ & _ & Hr). split; [reflexivity|exact Hr]. }
  unfold ssafe in Hs. destruct (read_chunk _) as [[k|e|] s]; [exact Hs|exact I|exact I].
Defined.

Lemma new_nonempty_refused_witness :
  exists w', new (C := Toy.crates) (lit "k") PackDemo.options {| vc_data := lit "x"; vc_pos := 0 |} =
    (Err NonEmptyDestination, w') /\ vc_data w' = lit "x".
Proof.
  apply (new_nonempty_refused (C := Toy.crates) (contents := vc_data) (lit "k") PackDemo.options {| vc_data := lit "x"; vc_pos := 0 |}).
  - vm_compute. intuition congruence.
  - done.
  - constructor; [unfold MAX_CHUNK_SIZE; cbn; lia|by exists 4].
  - done.
Defined.
