(* ===== verification/Frame.v ===== *)
(** * What packing leaves alone

    The packer reaches its destination only through [write_all] and [seek]: a
    preorder on destinations that these calls keep is kept by every operation
    of the packer, successful or not ([new_framed], [add_reader_framed],
    [finish_framed], [pack_with_options_framed]).  The C interface and the
    command line tool use it for the files a failed run must not touch. *)
From S2P Require Export Pack.

(** ** Statements that keep a preorder of their state *)

Definition framed {E S A} (R : S -> S -> Prop) (m : ST E S A) : Prop := forall s, R s (m s).2.

(** A preorder on a part of the state. *)
Definition via {S T} (f : S -> T) (R : T -> T -> Prop) (s s' : S) : Prop := R (f s) (f s').

#[export] Instance via_preorder {S T} (f : S -> T) R : PreOrder R -> PreOrder (via f R).
Proof. intros [Hr Ht]. split; [intros x; apply Hr|intros x y z; apply Ht]. Qed.

Create HintDb frame.

Section Rules.
Context {E S : Type} (R : S -> S -> Prop) `{!PreOrder R}.

Lemma framed_bind {A B} (m : ST E S A) (f : A -> ST E S B) :
  framed R m -> (forall a, framed R (f a)) -> framed R (m ≫= f).
Proof using All.
  intros Hm Hf s. unfold mbind, st_bind. specialize (Hm s).
  destruct (m s) as [[a|e|] s']; [|done..]. etrans; [exact Hm|apply Hf].
Qed.

Lemma framed_ret {A} (a : A) : framed R (mret a : ST E S A).
Proof using All. intros s. cbn. reflexivity. Qed.

Lemma framed_lift {A} (r : Result E A) : framed R (lift r).
Proof using All. intros s. cbn. reflexivity. Qed.

Lemma framed_get : framed R (get : ST E S S).
Proof using All. intros s. cbn. reflexivity. Qed.

Lemma framed_map_err {F A} (g : F -> E) (m : ST F S A) : framed R m -> framed R (st_map_err g m).
Proof. intros Hm s. specialize (Hm s). unfold st_map_err. by destruct (m s). Qed.
End Rules.

(** A statement on a part, seen by an owner whose view of it is the part. *)
Lemma framed_zoom {E S T A} (R : T -> T -> Prop) (view : S -> T) (f : S -> T) (g : T -> S -> S) (m : ST E T A) :
  (forall s, view s = f s) -> (forall t s, view (g t s) = t) -> framed R m -> framed (via view R) (zoom f g m).
Proof.
  intros Hv Hg Hm s. specialize (Hm (f s)). unfold via, zoom. destruct (m (f s)) as [r t]. cbn in *.
  by rewrite Hv, Hg.
Qed.

(** A statement that leaves the part as it is. *)
Lemma framed_same {E S T A} (R : T -> T -> Prop) `{!PreOrder R} (view : S -> T) (m : ST E S A) :
  (forall s, view (m s).2 = view s) -> framed (via view R) m.
Proof. intros Hm s. unfold via. by rewrite Hm. Qed.

#[export] Hint Resolve framed_bind framed_ret framed_lift framed_get framed_map_err : frame.
#[export] Hint Extern 1 (framed _ (match ?x with _ => _ end)) => destruct x : frame.
#[export] Hint Extern 2 (framed (via _ _) (fun _ => _)) => apply framed_same; intros [] : frame.

Ltac frames := typeclasses eauto 60 with frame typeclass_instances.

(** ** The packer *)

(** The preorder is kept by the three calls on a destination. *)
Class Framing {W} `{WriteSeek W} (R : W -> W -> Prop) : Prop := {
  framing_preorder :: PreOrder R;
  framing_write s : framed R (write_all s);
  framing_end : framed R seek_end;
  framing_start p : framed R (seek_start p)
}.

#[export] Hint Resolve framing_write framing_end framing_start : frame.

Section Packer.
Context {C : Crates} {W : Type} `{WriteSeek W} (R : W -> W -> Prop) `{!Framing R}.

Lemma write_bytes_framed s : framed R (write_bytes s).
Proof using All. apply framed_map_err, framing_write. Qed.
#[local] Hint Resolve write_bytes_framed : frame.

Lemma write_header_framed h : framed R (write_header h).
Proof using All. unfold write_header. frames. Qed.

Lemma new_framed key o : framed R (new key o).
Proof using All. unfold new. frames. Qed.

Lemma pad_framed fuel remaining : framed R (pad fuel remaining).
Proof using All. revert remaining. induction fuel as [|fuel IH]; intros remaining; cbn [pad]; frames. Qed.

(** ** Its state, by its destination *)

Abbreviation kept := (via ps_writer R).

Lemma on_writer_framed {A} (m : ST Error W A) : framed R m -> framed kept (on_writer m).
Proof using All. by apply framed_zoom. Qed.

Lemma on_nonces_framed {A} (m : ST Error nat A) : framed kept (on_nonces m).
Proof using All. apply framed_same; [apply _|]. intros s. unfold on_nonces, zoom. by destruct (m _). Qed.

Lemma self_framed : framed kept self.
Proof using All. unfold self. frames. Qed.

Lemma update_framed f : framed kept (update f).
Proof using All. apply framed_same; [apply _|]. done. Qed.
#[local] Hint Resolve on_writer_framed on_nonces_framed self_framed update_framed pad_framed
  write_header_framed : frame.

Lemma align_framed : framed kept align.
Proof using All. unfold align. frames. Qed.
#[local] Hint Resolve align_framed : frame.

Lemma add_chunk_framed raw_len a b : framed kept (add_chunk raw_len a b).
Proof using All.
  unfold add_chunk. cbv zeta. apply framed_bind; [apply _|frames|]. intros p.
  apply framed_bind; [apply _|frames|]. intros data. apply framed_bind; [apply _| |].
  - apply framed_same; [apply _|]. intros s. by destruct (st_map_err Lz4 _ _).
  - intros n. frames.
Qed.

Lemma finish_framed : framed kept finish.
Proof using All. unfold finish. frames. Qed.

(** ** With a reader beside it *)

Context {R' : Type} `{Read R'} `{ReadFinite R'}.
Abbreviation both := (via (fun s : PackState W * R' => ps_writer s.1) R).

Lemma on_pack_framed {A} (m : ST Error (PackState W) A) : framed kept m -> framed both (on_pack m).
Proof using All.
  intros Hm [s r]. specialize (Hm s). unfold via, on_pack, on_fst, zoom in *. cbn. by destruct (m s).
Qed.

Lemma on_raw_framed {A} (m : ST Error (R' * bytes) A) : framed both (on_raw m).
Proof using All. apply framed_same; [apply _|]. intros [s r]. unfold on_raw. by destruct (m _) as [? []]. Qed.
#[local] Hint Resolve on_pack_framed on_raw_framed add_chunk_framed : frame.

Lemma add_chunks_framed fuel a b : framed both (add_chunks fuel a b).
Proof using All. revert a b. induction fuel as [|fuel IH]; intros a b; cbn [add_chunks]; frames. Qed.
#[local] Hint Resolve add_chunks_framed : frame.

Lemma add_reader_inner_framed path : framed both (add_reader_inner path).
Proof using All. unfold add_reader_inner. cbv zeta. frames. Qed.

Lemma record_failure_framed m : framed both m -> framed both (record_failure m).
Proof using All. intros Hm s. specialize (Hm s). unfold via, record_failure in *. by destruct (m s) as [? []]. Qed.

Lemma add_reader_framed path : framed both (add_reader path).
Proof using All.
  unfold add_reader. apply framed_bind; [apply _|frames|]. intros p. apply framed_bind; [apply _|frames|].
  intros _. apply record_failure_framed, add_reader_inner_framed.
Qed.
End Packer.

Section PackRun.
Context {C : Crates} {W : Type} `{WriteSeek W} (R : W -> W -> Prop) `{!Framing R}.

Lemma add_files_framed files : framed (via ps_writer R) (add_files files).
Proof using All.
  induction files as [|f files IH]; cbn [add_files]; [frames|].
  apply framed_bind; [apply _| |done]. intros s. pose proof (add_reader_framed R (if_path f) (s, if_data f)) as Hs.
  unfold via, add_file in *. by destruct (add_reader _ _) as [r [s' rd]].
Qed.
End PackRun.

Lemma add_files_finish_framed {C : Crates} {W} `{WriteSeek W} R `{!Framing R} files :
  framed (via ps_writer R) (add_files files;; finish).
Proof. apply framed_bind; [apply _|by apply add_files_framed|]. intros _. by apply finish_framed. Qed.
