(* ===== verification/Roundtrip.v ===== *)
(** * Packing, opening and reading

    An archive a packing run wrote opens within limits that fit it, and each
    file reads back as it was given. *)
From S2P Require Export Range Pack.

(** ** Opening what was packed *)

(** The limits [l] admit an archive of [assets] with header [h]; at most 64
    paths may share an identifier. *)
Record Fits {C : Crates} (l : ArchiveLimits) (o : PackOptions) (h : Header)
    (assets : list (bytes * bytes)) : Prop := {
  fi_header : WithinLimits h l;
  fi_paths : strips_paths (po_mode o) = true \/
    Forall (fun a => len a.1 <= max_path_bytes l) assets /\
    sum_over (fun a => len a.1) assets <= max_total_path_bytes l;
  fi_assets : Forall (fun a => len a.2 <= max_single_asset_bytes l) assets;
  fi_total : sum_over (fun a => len a.2) assets <= max_total_decompressed_bytes l;
  fi_groups id : len (filter (fun a => checksum a.1 = id) assets) <= HARD_MAX_IDENTIFIER_BUCKET_ENTRIES
}.

Definition packed_archive {C : Crates} {R} (o : PackOptions) (key : bytes) (source : R)
    (es : list TocEntry) (cs : list Chunk) (index : list Slot) (l : ArchiveLimits) : Archive R := {|
  ar_source := source; ar_entries := entry_from <$> es; ar_chunks := cs; ar_index := index;
  ar_chunk_size := po_chunk_size o; ar_alignment := po_alignment o;
  ar_paths_stripped := strips_paths (po_mode o); ar_protection := po_protection o;
  ar_aead_key := aead_key_of o key;
  ar_max_chunks_per_operation := max_chunks_per_operation l |}.

(** ** Lemmas: entries and assets *)

Section Groups.
Context {C : Crates}.

Lemma same_id_len cs pieces cz st es assets id :
  Forall2 (EntryHolds cs pieces cz st) es assets ->
  len (same_id id (entry_from <$> es)) = len (filter (fun a => checksum a.1 = id) assets).
Proof.
  unfold same_id. induction 1 as [|e a es assets [_ Hh _ _ _ _] _ IH]; [done|]. cbn [fmap list_fmap].
  destruct (decide (checksum a.1 = id)).
  - rewrite !filter_cons_True by (cbn; congruence). by rewrite !len_cons, IH.
  - rewrite !filter_cons_False by (cbn; congruence). done.
Qed.

Lemma NoDup_filter_fmap {A B} (f : A -> B) (P : A -> Prop) `{!forall x, Decision (P x)} l :
  NoDup (f <$> l) -> NoDup (f <$> filter P l).
Proof.
  induction l as [|x l IH]; [done|]. cbn [fmap list_fmap]. intros [Hx Hn]%NoDup_cons.
  destruct (decide (P x)); [rewrite filter_cons_True by done|rewrite filter_cons_False by done; by apply IH].
  cbn [fmap list_fmap]. apply NoDup_cons. split; [|by apply IH].
  intros (y & Hy & [_ Hin]%list_elem_of_filter)%list_elem_of_fmap. apply Hx.
  apply list_elem_of_fmap. by exists y.
Qed.

Lemma NoDup_filter_one {A B} `{EqDecision B} (f : A -> B) l x :
  NoDup (f <$> l) -> x ∈ l -> len (filter (fun y => f y = f x) l) = 1.
Proof.
  induction l as [|y l IH]; intros Hn Hx; [by apply not_elem_of_nil in Hx|].
  cbn [fmap list_fmap] in Hn. apply NoDup_cons in Hn as [Hy Hn].
  apply elem_of_cons in Hx as [->|Hx].
  - rewrite filter_cons_True by done. rewrite len_cons.
    assert (filter (fun z => f z = f y) l = []) as ->; [|done].
    destruct (filter _ l) as [|z k] eqn:E; [done|].
    exfalso. assert (Hz : z ∈ filter (fun z => f z = f y) l) by (rewrite E; by left).
    apply list_elem_of_filter in Hz as [Hf Hin]. apply Hy. rewrite <- Hf.
    by apply list_elem_of_fmap_2.
  - rewrite filter_cons_False; [by apply IH|]. intros Hf. apply Hy. rewrite Hf.
    by apply list_elem_of_fmap_2.
Qed.

Lemma packed_groups cs pieces cz stripped es assets :
  Forall2 (EntryHolds cs pieces cz stripped) es assets -> NoDup assets.*1 ->
  (stripped = true -> NoDup (te_path_hash <$> es)) ->
  (forall id, len (filter (fun a => checksum a.1 = id) assets) <= HARD_MAX_IDENTIFIER_BUCKET_ENTRIES) ->
  forall e, e ∈ entry_from <$> es -> GroupOk stripped (same_id (path_hash e) (entry_from <$> es)).
Proof.
  intros Hes Hnd Hh Hg e He. unfold GroupOk.
  assert (Hone : stripped = true -> len (same_id (path_hash e) (entry_from <$> es)) = 1).
  { intros Hs. apply NoDup_filter_one; [|done]. rewrite <- list_fmap_compose. by apply Hh. }
  split_and!; [by erewrite same_id_len|done|]. destruct stripped.
  - specialize (Hone eq_refl). destruct (same_id _ _) as [|x [|y k]]; [constructor|apply NoDup_singleton|].
    unfold len in Hone. cbn [length] in Hone. lia.
  - apply NoDup_filter_fmap. rewrite <- list_fmap_compose.
    assert (path ∘ entry_from <$> es = assets.*1) as ->; [|done]. clear -Hes.
    induction Hes as [|e a es assets [Hp _ _ _ _ _] _ IH]; [done|]. cbn. by rewrite IH, Hp.
Qed.
End Groups.

(** The chunks of an entry, by their indices. *)
Lemma omap_seq {A} (l : list A) a n : omap (fun i => l !! i) (seq a n) = take n (drop a l).
Proof.
  revert a. induction n as [|n IH]; intros a; [done|]. cbn [seq].
  change (omap (fun i => l !! i) (a :: seq (S a) n)) with
    (match l !! a with Some x => x :: omap (fun i => l !! i) (seq (S a) n)
     | None => omap (fun i => l !! i) (seq (S a) n) end).
  rewrite IH. destruct (l !! a) as [x|] eqn:E.
  - by rewrite (drop_S l x a E).
  - apply lookup_ge_None in E. rewrite (drop_ge l a), (drop_ge l (S a)) by lia. by rewrite !take_nil.
Qed.

Lemma sum_over_concat {A} (f : A -> Z) ls : sum_over f (concat ls) = sum_over (sum_over f) ls.
Proof. induction ls as [|l ls IH]; cbn; [done|]. by rewrite sum_over_app, IH. Qed.

(** A partition of the chunks gives the totals of the archive. *)
Lemma partition_sum (f : Chunk -> Z) cs es :
  concat (entry_range <$> es) ≡ₚ seq 0 (length cs) ->
  sum_over f cs = sum_over (fun e => sum_over f (owned_chunks cs e)) es.
Proof.
  intros Hp. assert (Hc : omap (fun i => cs !! i) (concat (entry_range <$> es)) =
    concat (owned_chunks cs <$> es)).
  { clear Hp. induction es as [|e es IH]; [done|]. cbn [fmap list_fmap concat].
    rewrite omap_app, IH. f_equal. apply omap_seq. }
  rewrite <- (sum_over_fmap (sum_over f) (owned_chunks cs)), <- sum_over_concat, <- Hc.
  apply sum_over_Permutation. rewrite Hp, omap_seq, drop_0, take_ge; done.
Qed.

Lemma packed_total `{C : Crates} cs pieces cz st es assets :
  Forall2 (EntryHolds cs pieces cz st) es assets ->
  concat (entry_range <$> es) ≡ₚ seq 0 (length cs) ->
  original_total cs = sum_over (fun a => len a.2) assets.
Proof.
  intros Hes Hp. rewrite (partition_sum c_original_size _ _ Hp). clear Hp.
  induction Hes as [|e a es assets [_ _ Hs _ [_ _ Ho _ _] _] _ IH]; cbn [sum_over]; [done|].
  by rewrite IH, Ho, Hs.
Qed.

(** ** Lemmas: opening *)

Lemma res_bind_run {E A B} (m : Result E A) (f : A -> Result E B) a : m = Ok a -> m ≫= f = f a.
Proof. by intros ->. Qed.

Lemma ensure_run {E} b (e : E) : b = true -> ensure b e = Ok tt.
Proof. by intros ->. Qed.

Section OpenPacked.
Context {C : Crates} {R : Type} `{SourceReliable R content} `{!SortSpec C} `{!AllocSpec C}.

Lemma read_block_run source offset dst s :
  is_u64 (len (content source)) -> 0 <= offset ->
  slice_get (content source) offset (offset + len dst) = Some s -> read_block source offset dst = Ok s.
Proof. intros Hu Ho Hs. unfold read_block, st_map_err. by rewrite (read_exact_at_reliable _ _ _ _ Hu Ho Hs). Qed.

Lemma decompress_block_run block plain mismatch :
  (forall dst mismatch, length dst = length plain ->
     decompress_into_exact block mismatch dst = (Ok tt, plain)) ->
  decompress_block_exact block (len plain) mismatch = Ok plain.
Proof.
  intros Hb. unfold decompress_block_exact. rewrite try_reserve_ok. cbn [mbind result_bind].
  rewrite Hb; [done|]. rewrite length_replicate. apply to_nat_len.
Qed.

(** The index of a packed archive. *)
Lemma packed_index o key cont assets h es cs pieces :
  Packed o key cont assets h es cs pieces ->
  (forall id, len (filter (fun a => checksum a.1 = id) assets) <= HARD_MAX_IDENTIFIER_BUCKET_ENTRIES) ->
  exists index, build_index (entry_from <$> es) = Ok index /\
    validate_index (entry_from <$> es) index (strips_paths (po_mode o)) = Ok tt.
Proof.
  intros Hp Hg. destruct (build_index (entry_from <$> es)) as [index|e|] eqn:E.
  2-3: unfold build_index in E; by rewrite try_reserve_ok in E.
  exists index. split; [done|]. apply build_index_Ok in E.
  apply (decides_Ok_unit _ _ _ (validate_index_decides _ index (strips_paths (po_mode o)) E)).
  intros e He. split; [|apply alloc_always].
  eapply packed_groups; [apply Hp|apply Hp|exact (pa_hashes _ _ _ _ _ _ _ _ Hp)|exact Hg|exact He].
Qed.

Lemma entries_fit cs pieces cz st es assets mp ms :
  Forall2 (EntryHolds cs pieces cz st) es assets -> 0 <= mp ->
  st = true \/ Forall (fun a => len a.1 <= mp) assets ->
  Forall (fun a => len a.2 <= ms) assets ->
  Forall (fun e => len (te_path e) <= mp /\ te_original_size e <= ms) es.
Proof.
  intros Hes Hz. induction Hes as [|e a es assets [Hp _ Hs _ _ _] _ IH]; intros Hm Hf; [done|].
  apply Forall_cons in Hf as [Hf1 Hf2]. constructor.
  - rewrite Hp, Hs. split; [|done]. destruct st; [by change (len []) with 0|].
    destruct Hm as [|[Hm _]%Forall_cons]; done.
  - apply IH; [|done]. destruct Hm as [|[_ Hm]%Forall_cons]; [by left|by right].
Qed.

Lemma path_total cs pieces cz st es assets :
  Forall2 (EntryHolds cs pieces cz st) es assets ->
  path_bytes_total es = if st then 0 else sum_over (fun a => len a.1) assets.
Proof.
  induction 1 as [|e a es assets [Hp _ _ _ _ _] _ IH]; cbn [sum_over]; [by destruct st|].
  rewrite IH, Hp. by destruct st.
Qed.

(** The table of contents of a packed archive. *)
Lemma packed_decodes o key cont assets h es cs pieces l :
  Packed o key cont assets h es cs pieces -> limits_in_range l -> Fits l o h assets ->
  decode_toc (toc_bytes es cs) (len es) (len cs) (strips_paths (po_mode o))
    (max_path_bytes l) (max_total_path_bytes l) (max_single_asset_bytes l) = Ok (es, cs).
Proof.
  intros Hp (_&_&_&_&_&[? _]&[? _]&_) [_ Hfp Hfa _ _]. pose proof (pa_entries _ _ _ _ _ _ _ _ Hp) as Hes.
  destruct (pa_header _ _ _ _ _ _ _ _ Hp) as [_ Hs _ _ _ _ _ Hrs _ _ _].
  pose proof (hs_toc_raw_size _ Hs) as Hraw. rewrite Hrs in Hraw.
  apply decode_toc_run; [done|apply Hp|apply Hp| |apply Hp| |].
  - by eapply EntryHolds_paths_ok; [|apply Hp].
  - eapply entries_fit; [done..| |done]. destruct Hfp as [|[? _]]; [by left|by right].
  - rewrite (path_total _ _ _ _ _ _ Hes). by destruct Hfp as [->|[_ ?]]; [|destruct (strips_paths _)].
Qed.

(** The layout of a packed archive, against the limits. *)
Lemma packed_validates o key cont assets h es cs pieces l :
  Packed o key cont assets h es cs pieces -> limits_in_range l -> Fits l o h assets -> OptionsOk o ->
  validate_layout es cs (h_toc_offset h) (po_chunk_size o) (po_alignment o) (packs_aead o)
    (max_total_decompressed_bytes l) = Ok tt.
Proof.
  intros Hp (_&_&_&_&_&_&_&Hlt&_) [_ _ _ Hft _] Ho.
  destruct (pa_header _ _ _ _ _ _ _ _ Hp) as [Hr _ _ _ _ _ Hcc _ _ Hoff _].
  destruct Hr as (_&_&_&_&_&_&Hcr&Hofr&_). rewrite Hcc in Hcr.
  pose proof (pa_layout _ _ _ _ _ _ _ _ Hp) as [Hck Hord _ Heo Hpart].
  assert (Hd : LayoutSpec es cs (h_toc_offset h) (po_chunk_size o) (po_alignment o) (packs_aead o)
    (max_total_decompressed_bytes l)).
  { constructor; try done. by rewrite (packed_total _ _ _ _ _ _ (pa_entries _ _ _ _ _ _ _ _ Hp) Hpart). }
  eapply (decides_Ok_unit _ _ (fun _ => True)); [apply validate_layout_decides|split; [exact Hd|apply alloc_always]];
    try done; try apply Hp; try apply Hcr. eapply is_power_of_two_pos, Ho.
Qed.

Lemma open_packed source key limits o assets h es cs pieces :
  Packed o key (content source) assets h es cs pieces -> OptionsOk o ->
  limits_in_range limits -> Fits (clamped limits) o h assets ->
  exists index, open_with_limits source key limits =
    Ok (packed_archive o key source es cs index (clamped limits)).
Proof.
  intros Hp Ho Hl [Hw Hfp Hfa Hft Hfg]. destruct (packed_index _ _ _ _ _ _ _ _ Hp Hfg) as (index & Hb & Hv).
  exists index. unfold open_with_limits. apply clamped_range in Hl as Hlr. set (l := clamped limits) in *.
  destruct (pa_header _ _ _ _ _ _ _ _ Hp) as [Hr Hs Hf Hcz Hal Hec Hcc Hrs Hh Hoff Hdiv].
  destruct (pa_content _ _ _ _ _ _ _ _ Hp) as (body & toc & Hc & Hbody & Htl & block & Hprot & Hblock).
  destruct (packed_flags_spec o) as (_ & _ & Hst & Hae). rewrite <- Hf in Hst, Hae.
  pose proof (pa_size _ _ _ _ _ _ _ _ Hp) as Hsz. pose proof (len_header_bytes h) as Hhl.
  pose proof (len_nonneg toc) as Htn. pose proof (len_nonneg (content source)) as Hcn.
  assert (Hu : is_u64 (len (content source))) by done.
  assert (Hlen : len (content source) = h_toc_offset h + h_toc_size h).
  { rewrite Hc, !len_app, Hhl. lia. }
  rewrite (ensure_run _ EmptyXorKey); [|apply negb_true_iff, bool_decide_eq_false, Hp].
  cbn [mbind result_bind]. cbv zeta.
  erewrite res_bind_run; [|apply (read_block_run _ _ _ (header_bytes h)); [done|lia|]].
  2:{ rewrite Hc. rewrite len_replicate by (unfold HEADER_SIZE; lia). rewrite <- Hhl.
      apply (slice_get_app [] (header_bytes h)). }
  erewrite res_bind_run; [|rewrite <- (app_nil_r (header_bytes h)), read_header_app by done; reflexivity].
  erewrite res_bind_run; [|by apply validate_header_accepts].
  erewrite res_bind_run; [|by apply (decides_Ok_unit _ _ _ (validate_limits_decides h l Hr ltac:(apply Hlr)))].
  rewrite Hae, Hst.
  assert ((if packs_aead o then Aead else Xor) = po_protection o) as ->.
  { unfold packs_aead. by destruct (po_protection o). }
  change (bool_decide (po_protection o = Aead)) with (packs_aead o).
  change (if packs_aead o then Some (derive_key key) else None) with (aead_key_of o key).
  erewrite res_bind_run; [|by rewrite source_len_reliable].
  erewrite res_bind_run; [|apply checked_add_le; lia].
  erewrite res_bind_run; [|apply ensure_run; rewrite andb_true_iff, !Z.leb_le; lia].
  erewrite res_bind_run; [|apply ensure_run, is_multiple_of_divide; rewrite Hal; [|done];
    eapply is_power_of_two_pos, Ho].
  erewrite res_bind_run; [|apply try_from_le; unfold USIZE_MAX, HEADER_SIZE in *; lia].
  erewrite res_bind_run; [|apply try_reserve_ok].
  erewrite res_bind_run; [|apply (read_block_run source _ _ toc); [done|unfold HEADER_SIZE in *; lia|]].
  2:{ rewrite Hc, len_replicate, <- Htl, <- Hbody, <- Hhl, <- len_app, app_assoc by lia.
      rewrite <- (app_nil_r toc) at 1. apply slice_get_app. }
  rewrite (res_bind_run (match aead_key_of o key with
           | Some k => decrypt toc k TOC_AAD
           | None => xor_in_place toc key
           end) _ block); [|unfold aead_key_of; by destruct (packs_aead o)].
  rewrite Hrs. erewrite res_bind_run; [|apply try_from_le].
  2:{ pose proof (hs_toc_raw_size _ Hs). unfold USIZE_MAX, U64_MAX. lia. }
  erewrite res_bind_run; [|by apply decompress_block_run].
  erewrite res_bind_run; [|apply ensure_run; rewrite Hh; apply Z.eqb_refl].
  rewrite Hec, Hcc. erewrite res_bind_run; [|by eapply packed_decodes].
  cbv beta iota. erewrite res_bind_run; [|rewrite Hcz, Hal; by eapply packed_validates].
  erewrite res_bind_run; [|apply try_reserve_ok].
  erewrite res_bind_run; [|exact Hb]. erewrite res_bind_run; [|exact Hv].
  unfold packed_archive. by rewrite Hcz, Hal.
Qed.
End OpenPacked.

(** ** Lemmas: reading *)

Section ReadPacked.
Context {C : Crates} {R : Type} `{RandomAccessRead R}.

(** All chunks but the last are full: so many bytes need so many chunks. *)
Lemma full_but_last_count cz cs :
  1 <= cz -> full_but_last cz cs -> Forall (fun c => 1 <= c_original_size c) cs ->
  len cs <= (original_total cs + cz - 1) / cz.
Proof.
  intros Hz Hf Hp. apply Z.div_le_lower_bound; [lia|].
  induction cs as [|c cs IH]; [change (len []) with 0; cbn; lia|].
  apply full_but_last_cons in Hf as [Hc Hf]. apply Forall_cons in Hp as [Hp1 Hp2].
  rewrite len_cons. cbn [sum_over]. destruct Hc as [->|Hc]; [change (len []) with 0; cbn; lia|]. specialize (IH Hf Hp2). lia.
Qed.

Lemma chunks_content_pieces (self : Archive R) cont pieces first n :
  (forall i, (first <= i < first + n)%nat -> exists d, pieces !! i = Some d /\
     chunk_content self cont (Z.of_nat i) = Some d) ->
  chunks_content self cont (Z.of_nat first) n = Some (concat (take n (drop first pieces))).
Proof.
  revert first. induction n as [|n IH]; intros first Hc; [done|].
  destruct (Hc first ltac:(lia)) as (d & Hd & Hcc). cbn [chunks_content]. rewrite Hcc.
  cbn [mbind option_bind]. replace (Z.of_nat first + 1) with (Z.of_nat (S first)) by lia.
  rewrite IH; [|intros i Hi; apply Hc; lia]. cbn [mbind option_bind].
  by rewrite (drop_S _ _ _ Hd).
Qed.

Lemma packed_content o key (source : R) cont assets h es cs pieces index l e q data :
  Packed o key cont assets h es cs pieces ->
  EntryHolds cs pieces (po_chunk_size o) (strips_paths (po_mode o)) e (q, data) ->
  entry_content (packed_archive o key source es cs index l) cont (entry_from e) = Some data.
Proof.
  intros Hp [_ _ _ Hr [Hle _ _ _ _] Hdata]. cbn in Hdata. rewrite <- Hdata.
  destruct Hr as (_&_&_&[? _]&[? _]). unfold entry_content. cbn [first_chunk chunk_count entry_from].
  rewrite <- (Z2Nat.id (te_first_chunk e)) at 1 by done. apply chunks_content_pieces.
  intros i Hi. unfold len in Hle. destruct (lookup_lt_is_Some_2 cs i) as [c Hc]; [lia|].
  destruct (lookup_lt_is_Some_2 pieces i) as [d Hd]; [rewrite (pa_pieces _ _ _ _ _ _ _ _ Hp); lia|].
  exists d. split; [done|]. destruct (pa_chunks _ _ _ _ _ _ _ _ Hp i c d Hc Hd) as (_ & s & Hs & Hdec).
  unfold chunk_content. cbn [ar_chunks packed_archive ar_aead_key].
  rewrite (proj2 (index_Some cs (Z.of_nat i) c)) by (rewrite Nat2Z.id; split; [lia|done]).
  cbn [mbind option_bind]. rewrite Hs. exact Hdec.
Qed.

(** How many chunks an asset of a packed archive takes. *)
Definition chunks_needed (o : PackOptions) (data : bytes) : Z :=
  (len data + po_chunk_size o - 1) / po_chunk_size o.

Lemma packed_chunk_count o key cont assets h es cs pieces e a :
  OptionsOk o -> Packed o key cont assets h es cs pieces ->
  EntryHolds cs pieces (po_chunk_size o) (strips_paths (po_mode o)) e a ->
  te_chunk_count e <= chunks_needed o a.2.
Proof.
  intros [Hcz _] Hp [_ _ Hs Hr [Hle _ Ho _ Hf] _]. destruct Hr as (_&_&_&[? _]&[? _]).
  pose proof (ls_chunks _ _ _ _ _ _ _ (pa_layout _ _ _ _ _ _ _ _ Hp)) as Hck.
  assert (Hown : Forall (fun c => 1 <= c_original_size c) (owned_chunks cs e)).
  { apply Forall_take, Forall_drop. eapply Forall_impl; [exact Hck|]. by intros c [[? _] _ _ _ _ _]. }
  pose proof (full_but_last_count _ _ ltac:(apply Hcz) Hf Hown) as Hc. rewrite Ho, Hs in Hc.
  unfold chunks_needed. etrans; [|exact Hc]. unfold owned_chunks, len in *.
  rewrite length_take, length_drop. lia.
Qed.
End ReadPacked.

Section Reading.
Context {C : Crates} {R : Type} `{SourceReliable R content} `{!SourceSafe R} `{!SortSpec C}
  `{!AllocSpec C} `{!DecompressSpec C}.

Lemma packed_options o key cont assets h es cs pieces :
  Packed o key cont assets h es cs pieces -> OptionsOk o.
Proof.
  intros Hp. destruct (pa_header _ _ _ _ _ _ _ _ Hp) as [_ [_ _ _ Hcz Ha _ _] _ Hc Hal _ _ _ _ _ _].
  rewrite Hc in Hcz. rewrite Hal in Ha. by constructor.
Qed.

(** An asset of a packed archive, by any path with its normal form. *)
Lemma packed_read o key (source : R) limits assets h es cs pieces a q data p :
  Packed o key (content source) assets h es cs pieces -> limits_in_range limits ->
  Fits (clamped limits) o h assets -> open_with_limits source key limits = Ok a ->
  (q, data) ∈ assets -> normalize_path p = Ok q ->
  Z.max 1 (chunks_needed o data) <= max_chunks_per_operation (clamped limits) ->
  Reader.read a p = Ok data.
Proof.
  intros Hp Hl Hfit Hopen Hin Hq Hlim. pose proof (packed_options _ _ _ _ _ _ _ _ Hp) as Ho.
  destruct (open_packed source key limits o assets h es cs pieces Hp Ho Hl Hfit) as (index & Ha).
  destruct (safe_Ok _ _ _ (open_safe source key limits Hl) Hopen) as (Hwf & _).
  rewrite Ha in Hopen. injection Hopen as <-.
  apply list_elem_of_lookup in Hin as [i Hi].
  destruct (Forall2_lookup_r _ _ _ _ _ (pa_entries _ _ _ _ _ _ _ _ Hp) Hi) as (e & He & Heh).
  set (a := packed_archive o key source es cs index (clamped limits)) in *.
  assert (Hidx : Prelude.index (ar_entries a) (Z.of_nat i) = Some (entry_from e)).
  { apply index_Some. split; [lia|]. cbn. rewrite Nat2Z.id, list_lookup_fmap. by rewrite He. }
  assert (Hfind : find_entry_index_normalized a q = Ok (Z.of_nat i)).
  { apply find_normalized_iff; [apply Hwf|]. exists (entry_from e). split; [done|].
    unfold matches. cbn. destruct Heh as [Hpath Hh _ _ _ _]. cbn in Hpath, Hh.
    by destruct (strips_paths (po_mode o)). }
  pose proof (packed_chunk_count _ _ _ _ _ _ _ _ _ _ Ho Hp Heh) as Hc. cbn in Hc.
  assert (Hmax : ar_max_chunks_per_operation a = max_chunks_per_operation (clamped limits)) by done.
  unfold Reader.read, normalize_lookup_path. rewrite Hq. cbn [mbind result_bind]. rewrite Hfind.
  cbn [mbind result_bind]. apply (read_new_ok a Hwf _ (entry_from e)); [|lia|exact Hidx| |cbn [chunk_count entry_from]; lia].
  - split; [apply len_nonneg|]. apply (pa_size _ _ _ _ _ _ _ _ Hp).
  - by eapply packed_content.
Qed.
(** Opening what was packed: an entry per file, and every file by its path. *)
Lemma packed_opens files assets o key (source : R) limits h es cs pieces :
  files_assets files assets -> Packed o key (content source) assets h es cs pieces ->
  limits_in_range limits -> Fits (clamped limits) o h assets ->
  exists a, open_with_limits source key limits = Ok a /\ len (ar_entries a) = len files /\
    forall f p, f ∈ files -> normalize_path p = normalize_path (if_path f) ->
      Z.max 1 (chunks_needed o (if_data f)) <= max_chunks_per_operation (clamped limits) ->
      Reader.read a p = Ok (if_data f).
Proof.
  intros Hfa Hp Hl Hfit. pose proof (packed_options _ _ _ _ _ _ _ _ Hp) as Ho.
  destruct (open_packed source key limits o assets h es cs pieces Hp Ho Hl Hfit) as (index & Ha).
  eexists. split; [exact Ha|]. split.
  - cbn. unfold len. rewrite length_fmap, (Forall2_length _ _ _ (pa_entries _ _ _ _ _ _ _ _ Hp)).
    by rewrite (Forall2_length _ _ _ Hfa).
  - intros f p [i Hi]%list_elem_of_lookup Hn Hlim.
    destruct (Forall2_lookup_l _ _ _ _ _ Hfa Hi) as ([q d] & Hi' & Hq & Hd). cbn in Hq, Hd. subst d.
    rewrite Hq in Hn. eapply packed_read; [exact Hp|done..|by eapply list_elem_of_lookup_2|done|done].
Qed.

Lemma packed_header_read o key cont assets h es cs pieces :
  Packed o key cont assets h es cs pieces -> (read_header cont).1 = Ok h.
Proof.
  intros Hp. destruct (pa_header _ _ _ _ _ _ _ _ Hp) as [Hhr _ _ _ _ _ _ _ _ _ _].
  destruct (pa_content _ _ _ _ _ _ _ _ Hp) as (body & toc & Hc & _). by rewrite Hc, read_header_app.
Qed.
End Reading.

(** ** Properties *)

(** C2 The round trip. A packing run that succeeds wrote to an empty
    destination, and its contents, as the content of any reliable source, open
    under the same key within any limits that fit the archive (and while at
    most 64 paths share an identifier); the archive has an entry per file, and
    reading by any path with a file's normal form gives that file's data. *)
Theorem pack_open_read {C : Crates} {W contents position} `{WriteSeekSpec W contents position}
    {R content} `{SourceReliable R content} `{!SourceSafe R} `{!CompressSpec C} `{!AeadSpec C}
    `{!HashSpec C} `{!SortSpec C} `{!AllocSpec C} `{!DecompressSpec C}
    files key options (w w' : W) n n' :
  options_in_range options -> Forall (fun f => utf8_valid (if_path f) = true) files ->
  pack_with_options files key options (w, n) = (Ok tt, (w', n')) ->
  contents w = [] /\
  exists h assets, (read_header (contents w')).1 = Ok h /\ files_assets files assets /\
    forall (source : R) limits,
      content source = contents w' -> limits_in_range limits -> Fits (clamped limits) options h assets ->
      exists a, open_with_limits source key limits = Ok a /\ len (ar_entries a) = len files /\
        forall f p, f ∈ files -> normalize_path p = normalize_path (if_path f) ->
          Z.max 1 (chunks_needed options (if_data f)) <= max_chunks_per_operation (clamped limits) ->
          Reader.read a p = Ok (if_data f).
Proof.
  intros Hr Hutf Hpack. pose proof (pack_with_options_safe files key options w n Hr Hutf) as Hs.
  unfold ssafe in Hs. rewrite Hpack in Hs. destruct Hs as (sum & Hw & assets & h & es & cs & pieces & Hfa & Hp & _).
  split; [done|]. exists h, assets. cbn [fst] in Hp.
  split; [by eapply packed_header_read|]. split; [done|]. intros source limits Hsrc Hl Hfit.
  rewrite <- Hsrc in Hp. by eapply packed_opens.
Qed.

(** A production archive of two files, packed with authenticated encryption. *)
Module Demo.
Definition files : list InputFile := [
  {| if_path := lit "a//b"; if_data := lit "hello" |};
  {| if_path := lit "c"; if_data := replicate 9 x7a |}].
Definition options : PackOptions := {|
  po_chunk_size := 4; po_alignment := 16; po_mode := Production; po_protection := Aead |}.
Definition key : bytes := lit "secret".
Definition empty : VecCursor := {| vc_data := []; vc_pos := 0 |}.
Definition packed : VecCursor * nat :=
  Eval vm_compute in (pack_with_options (C := Toy.crates) files key options (empty, 0%nat)).2.
Definition assets : list (bytes * bytes) := [(lit "a/b", lit "hello"); (lit "c", replicate 9 x7a)].
Definition header : Header :=
  Eval vm_compute in match (read_header (vc_data packed.1)).1 with Ok h => h | _ => example_header end.

Lemma packed_ok : pack_with_options (C := Toy.crates) files key options (empty, 0%nat) = (Ok tt, packed).
Proof. vm_compute. reflexivity. Qed.

Lemma files_valid : Forall (fun f => utf8_valid (if_path f) = true) files.
Proof. repeat constructor. Qed.

Lemma options_range : options_in_range options.
Proof. vm_compute. intuition congruence. Qed.

Lemma files_assets_eq l : files_assets (C := Toy.crates) files l -> l = assets.
Proof.
  unfold files_assets, files. intros Hf.
  apply Forall2_cons_inv_l in Hf as ([q1 d1] & l1 & [Hq1 Hd1] & Hf & ->).
  apply Forall2_cons_inv_l in Hf as ([q2 d2] & l2 & [Hq2 Hd2] & Hf & ->).
  apply Forall2_nil_inv_l in Hf as ->. cbn [fst snd] in *. subst.
  vm_compute in Hq1, Hq2. injection Hq1 as <-. injection Hq2 as <-. reflexivity.
Qed.

Lemma fits : Fits (C := Toy.crates) (clamped default_limits) options header assets.
Proof.
  constructor; [constructor; vm_compute; intuition congruence|by left| | |].
  - repeat constructor; vm_compute; congruence.
  - vm_compute. congruence.
  - intros id. etrans; [|instantiate (1 := 2); vm_compute; congruence].
    unfold len. apply (inj_le _ 2). apply (length_filter _ assets).
Qed.
End Demo.

Lemma pack_open_read_witness :
  exists a, open_with_limits (C := Toy.crates) (vc_data Demo.packed.1) Demo.key default_limits = Ok a /\
    Reader.read (C := Toy.crates) a (lit ".\a\b") = Ok (lit "hello") /\
    Reader.read (C := Toy.crates) a (lit "c") = Ok (replicate 9 x7a).
Proof.
  destruct (pack_open_read (C := Toy.crates) (content := id) Demo.files Demo.key Demo.options Demo.empty
    Demo.packed.1 0 Demo.packed.2 Demo.options_range Demo.files_valid Demo.packed_ok)
    as (_ & h & assets & Hh & Hfa & Hopen).
  apply Demo.files_assets_eq in Hfa as ->.
  assert (Hh' : (read_header (vc_data Demo.packed.1)).1 = Ok Demo.header) by (vm_compute; reflexivity).
  rewrite Hh' in Hh. injection Hh as <-.
  destruct (Hopen (vc_data Demo.packed.1) default_limits eq_refl) as (a & Ha & _ & Hread).
  - vm_compute. intuition congruence.
  - exact Demo.fits.
  - exists a. split; [exact Ha|]. split.
    + refine (Hread {| if_path := lit "a//b"; if_data := lit "hello" |} _ _ _ _).
      * by left.
      * vm_compute. reflexivity.
      * vm_compute. congruence.
    + refine (Hread {| if_path := lit "c"; if_data := replicate 9 x7a |} _ _ _ _).
      * right. by left.
      * vm_compute. reflexivity.
      * vm_compute. congruence.
Defined.
