(* ===== verification/Retarget.v ===== *)
(** * Sources and their content

    A source that answers truthfully ([SourceHolds]) opens to the archive that
    its content in memory opens to, and what is read of the two agrees.  What
    [Roundtrip] proves of reliable sources so holds, of the calls that succeed,
    for files too. *)
From S2P Require Export Roundtrip.

Definition with_source {R R'} (source : R') (self : Archive R) : Archive R' := {|
  ar_source := source; ar_entries := ar_entries self; ar_chunks := ar_chunks self;
  ar_index := ar_index self; ar_chunk_size := ar_chunk_size self; ar_alignment := ar_alignment self;
  ar_paths_stripped := ar_paths_stripped self; ar_protection := ar_protection self;
  ar_aead_key := ar_aead_key self;
  ar_max_chunks_per_operation := ar_max_chunks_per_operation self |}.

Section Retarget.
Context {C : Crates} {R : Type} {content : R -> bytes} `{SourceHolds R content} `{!SourceSafe R}.

Lemma read_block_memory (source : R) offset dst d :
  is_u64 (len (content source)) -> 0 <= offset <= len (content source) -> read_block source offset dst = Ok d ->
  read_block (content source) offset dst = Ok d.
Proof using All.
  intros Hu [Ho Hle]. pose proof (read_exact_at_safe source offset dst Ho) as Hs.
  unfold read_block, st_map_err, ssafe in *.
  destruct (read_exact_at source offset dst) as [[[]|e|] d'] eqn:E; [|done..]. cbn. intros [= <-].
  rewrite (read_slice_exact_reliable (content source) offset dst d'); [done..|].
  destruct (read_exact_at_holds source offset dst d' Ho E) as [->|Hg]; [|done].
  apply nil_length_inv in Hs as ->. change (len []) with 0. apply slice_get_Some.
  split_and!; [lia..|]. by replace (Z.to_nat (offset + 0 - offset)) with 0%nat by lia.
Qed.

Lemma open_len source key limits a :
  open_with_limits source key limits = Ok a -> source_len source = Ok (len (content source)).
Proof using All.
  unfold open_with_limits. intros Ha. inv_ok.
  match goal with H : source_len source = Ok ?n |- _ => by rewrite H, <- (source_len_holds source n H) end.
Qed.

(** One step of both runs. *)
Ltac both :=
  match goal with
  | Ha : mbind _ _ = Ok _ |- _ =>
      let x := fresh "x" in let Hx := fresh "Hx" in
      apply bind_Ok in Ha as (x & Hx & Ha); rewrite (res_bind_run _ _ x Hx); cbv beta iota zeta in Ha |- *
  end.

(** An archive that opened over a source opens over its content. *)
Lemma open_in_memory source key limits a :
  open_with_limits source key limits = Ok a ->
  open_with_limits (content source) key limits = Ok (with_source (content source) a).
Proof using All.
  intros Ha. pose proof (open_len _ _ _ _ Ha) as Hlen. pose proof (source_len_safe source) as Hu.
  rewrite Hlen in Hu. cbn in Hu. unfold open_with_limits in *. cbv beta zeta in Ha |- *.
  both. apply bind_Ok in Ha as (hb & Hhb & Ha). pose proof (len_nonneg (content source)).
  rewrite (res_bind_run _ _ hb) by (apply read_block_memory; [done|lia|done]).
  apply bind_Ok in Ha as (h & Hh & Ha). rewrite (res_bind_run _ _ h Hh). cbv beta zeta in Ha |- *.
  assert (Hr : header_in_range h).
  { destruct (read_header hb) as [r rest] eqn:E. cbn in Hh. subst r. by apply read_header_Ok in E as [_ ?]. }
  do 2 both. rewrite Hlen in Ha. change (source_len (content source)) with (slice_len (content source)).
  rewrite slice_len_reliable by done. do 6 both.
  assert (Hoff : 0 <= h_toc_offset h <= len (content source)).
  { destruct Hr as (_&_&_&_&_&_&_&[? _]&[? _]&_). inv_ok. lia. }
  apply bind_Ok in Ha as (toc & Htoc & Ha).
  rewrite (res_bind_run _ _ toc) by (by apply read_block_memory).
  do 4 both. apply bind_Ok in Ha as ([es cs] & Hdec & Ha). rewrite (res_bind_run _ _ _ Hdec).
  do 4 both. by injection Ha as <-.
Qed.

Lemma chunks_content_source {R'} (source : R') (self : Archive R) cont g n :
  chunks_content (with_source source self) cont g n = chunks_content self cont g n.
Proof. revert g. induction n as [|n IH]; intros g; cbn [chunks_content]; [done|]. by rewrite IH. Qed.

(** What the two hold is the same, and so is what is read of them. *)
Lemma read_in_memory `{!DecompressSpec C} (self : Archive R) p d d' :
  ArchiveWf self -> Reader.read self p = Ok d ->
  Reader.read (with_source (content (ar_source self)) self) p = Ok d' -> d' = d.
Proof using All.
  intros Hwf Hd Hd'. assert (Hwf' : ArchiveWf (with_source (content (ar_source self)) self)).
  { destruct Hwf as [[]]. by constructor. }
  destruct (safe_Ok _ _ _ (read_denotes self Hwf p) Hd) as (i & e & (q & Hq & Hi & He) & Hr & _).
  destruct (safe_Ok _ _ _ (read_denotes _ Hwf' p) Hd') as (i' & e' & (q' & Hq' & Hi' & He') & Hr' & _).
  rewrite Hq in Hq'. injection Hq' as <-. change (find_entry_index_normalized self q = Ok i') in Hi'.
  rewrite Hi in Hi'. injection Hi' as <-. cbn in He'. rewrite He in He'. injection He' as <-.
  pose proof (ChunksRead_content self Hwf (content := content) _ _ _ Hr) as Hc.
  pose proof (ChunksRead_content (with_source (content (ar_source self)) self) Hwf' (content := id) _ _ _ Hr') as Hc'.
  rewrite chunks_content_source in Hc'. cbn in Hc'. congruence.
Qed.
End Retarget.
