(* ===== verification/FfiTypes.v ===== *)
(** * The C interface: data and errors

    [rasen-archive-ffi/src/types.rs] and [error.rs]: the status codes, the C
    structs with their conversions, and the failure a call reports. *)
From S2P Require Export Writer Range.

(** ** [types.rs]: constants and statuses *)

Definition ABI_VERSION : Z := 1.
Definition PACK_MODE_DEBUG : Z := 0.
Definition PACK_MODE_PRODUCTION : Z := 1.
Definition PROTECTION_XOR : Z := 0.
Definition PROTECTION_AEAD : Z := 1.

Inductive RasenStatus :=
  | SOk | SNullPointer | SInvalidUtf8 | SInvalidValue | SOutOfRange | SCallbackFailed | SPanic
  | SIo | SBadMagic | SBadTocMagic | SUnsupportedVersion | SUnsupportedFlags
  | SUnsupportedHeaderSize | SEmptyKey | SCrypto | SIncompletePack | SNonEmptyDestination
  | SInvalidPath | SInvalidChunkSize | SInvalidAlignment | SInvalidRange | SBufferSizeMismatch
  | SChunkOutOfRange | SDuplicatePath | SAssetTooLarge | SArchiveTooLarge | STooManyEntries
  | STooManyChunks | SMetadataLimitExceeded | SCorrupt | STooLarge | SLz4 | SNotFound
  | SHashCollision | SChecksumMismatch.

#[export] Instance RasenStatus_eq_dec : EqDecision RasenStatus.
Proof. solve_decision. Defined.

(** [#[repr(i32)]] *)
Definition status_code (s : RasenStatus) : Z :=
  match s with
  | SOk => 0 | SNullPointer => 1 | SInvalidUtf8 => 2 | SInvalidValue => 3 | SOutOfRange => 4
  | SCallbackFailed => 5 | SPanic => 6
  | SIo => 100 | SBadMagic => 101 | SBadTocMagic => 102 | SUnsupportedVersion => 103
  | SUnsupportedFlags => 104 | SUnsupportedHeaderSize => 105 | SEmptyKey => 106 | SCrypto => 107
  | SIncompletePack => 108 | SNonEmptyDestination => 109 | SInvalidPath => 110
  | SInvalidChunkSize => 111 | SInvalidAlignment => 112 | SInvalidRange => 113
  | SBufferSizeMismatch => 114 | SChunkOutOfRange => 115 | SDuplicatePath => 116
  | SAssetTooLarge => 117 | SArchiveTooLarge => 118 | STooManyEntries => 119
  | STooManyChunks => 120 | SMetadataLimitExceeded => 121 | SCorrupt => 122 | STooLarge => 123
  | SLz4 => 124 | SNotFound => 125 | SHashCollision => 126 | SChecksumMismatch => 127
  end.

(** ** [types.rs]: the structs.  A pointer is an address; 0 is null. *)

Abbreviation ptr := Z.
Definition null : ptr := 0.
Definition is_null (p : ptr) : bool := p =? null.

Record RasenBuffer := { rb_data : ptr; rb_len : Z }.

(** [impl Default for RasenBuffer] *)
Definition default_buffer : RasenBuffer := {| rb_data := null; rb_len := 0 |}.

Record RasenArchiveLimits := {
  rl_max_toc_stored_bytes : Z;
  rl_max_toc_raw_bytes : Z;
  rl_max_entries : Z;
  rl_max_chunks : Z;
  rl_max_chunks_per_operation : Z;
  rl_max_path_bytes : Z;
  rl_max_total_path_bytes : Z;
  rl_max_total_decompressed_bytes : Z;
  rl_max_single_asset_bytes : Z;
  rl_max_metadata_bytes : Z
}.

(** [impl From<ArchiveLimits> for RasenArchiveLimits] *)
Definition limits_to_c (value : ArchiveLimits) : RasenArchiveLimits := {|
  rl_max_toc_stored_bytes := max_toc_stored_bytes value;
  rl_max_toc_raw_bytes := max_toc_raw_bytes value;
  rl_max_entries := max_entries value;
  rl_max_chunks := max_chunks value;
  rl_max_chunks_per_operation := max_chunks_per_operation value;
  rl_max_path_bytes := max_path_bytes value;
  rl_max_total_path_bytes := max_total_path_bytes value;
  rl_max_total_decompressed_bytes := max_total_decompressed_bytes value;
  rl_max_single_asset_bytes := max_single_asset_bytes value;
  rl_max_metadata_bytes := max_metadata_bytes value
|}.

(** [impl From<RasenArchiveLimits> for ArchiveLimits] *)
Definition limits_from_c (value : RasenArchiveLimits) : ArchiveLimits := {|
  max_toc_stored_bytes := rl_max_toc_stored_bytes value;
  max_toc_raw_bytes := rl_max_toc_raw_bytes value;
  max_entries := rl_max_entries value;
  max_chunks := rl_max_chunks value;
  max_chunks_per_operation := rl_max_chunks_per_operation value;
  max_path_bytes := rl_max_path_bytes value;
  max_total_path_bytes := rl_max_total_path_bytes value;
  max_total_decompressed_bytes := rl_max_total_decompressed_bytes value;
  max_single_asset_bytes := rl_max_single_asset_bytes value;
  max_metadata_bytes := rl_max_metadata_bytes value
|}.

Record RasenArchiveInfo := {
  ri_entry_count : Z;
  ri_chunk_size : Z;
  ri_alignment : Z;
  ri_paths_stripped : Z;
  ri_protection : Z
}.

(** [re_path] is what the pointer designates: nothing when it is null, else
    the text inside the archive. *)
Record RasenEntry := {
  re_path : option bytes;
  re_path_len : Z;
  re_path_hash : Z;
  re_original_size : Z;
  re_stored_size : Z;
  re_first_chunk : Z;
  re_chunk_count : Z
}.

Definition ffi_entry (entry : Entry) : RasenEntry :=
  let path := entry_path entry in {|
  re_path := path;
  re_path_len := match path with Some path => len path | None => 0 end;
  re_path_hash := path_hash entry;
  re_original_size := original_size entry;
  re_stored_size := stored_size entry;
  re_first_chunk := first_chunk entry;
  re_chunk_count := chunk_count entry
|}.

Record RasenPackOptions := {
  rp_chunk_size : Z;
  rp_alignment : Z;
  rp_mode : Z;
  rp_protection : Z
}.

(** [impl From<PackOptions> for RasenPackOptions] *)
Definition options_to_c (value : PackOptions) : RasenPackOptions := {|
  rp_chunk_size := po_chunk_size value;
  rp_alignment := po_alignment value;
  rp_mode := match po_mode value with
             | Debug => PACK_MODE_DEBUG
             | Production => PACK_MODE_PRODUCTION
             end;
  rp_protection := match po_protection value with
                   | Xor => PROTECTION_XOR
                   | Aead => PROTECTION_AEAD
                   end
|}.

Record RasenPackSummary := { rs_archive_len : Z; rs_entry_count : Z; rs_chunk_count : Z }.

(** [impl From<PackSummary> for RasenPackSummary] *)
Definition summary_to_c (value : PackSummary) : RasenPackSummary := {|
  rs_archive_len := archive_len value;
  rs_entry_count := entry_count value;
  rs_chunk_count := chunk_total value
|}.

Record RasenInputFile := {
  rf_path : ptr;
  rf_path_len : Z;
  rf_data : ptr;
  rf_data_len : Z
}.

(** ** [error.rs]: failures *)

Record FfiFailure := { ff_status : RasenStatus; ff_message : bytes }.

Abbreviation FfiResult := (Result FfiFailure).

Definition failure (status : RasenStatus) (message : bytes) : FfiFailure :=
  {| ff_status := status; ff_message := message |}.

Definition core_status (error : Error) : RasenStatus :=
  match error with
  | Io _ => SIo
  | BadMagic => SBadMagic
  | BadTocMagic => SBadTocMagic
  | UnsupportedVersion _ => SUnsupportedVersion
  | UnsupportedFlags _ => SUnsupportedFlags
  | UnsupportedHeaderSize _ => SUnsupportedHeaderSize
  | EmptyXorKey => SEmptyKey
  | Crypto _ => SCrypto
  | IncompletePack => SIncompletePack
  | NonEmptyDestination => SNonEmptyDestination
  | InvalidPath => SInvalidPath
  | InvalidChunkSize => SInvalidChunkSize
  | InvalidAlignment => SInvalidAlignment
  | InvalidRange => SInvalidRange
  | BufferSizeMismatch _ _ => SBufferSizeMismatch
  | ChunkOutOfRange _ _ => SChunkOutOfRange
  | DuplicatePath _ => SDuplicatePath
  | AssetTooLarge => SAssetTooLarge
  | ArchiveTooLarge => SArchiveTooLarge
  | TooManyEntries => STooManyEntries
  | TooManyChunks => STooManyChunks
  | MetadataLimitExceeded => SMetadataLimitExceeded
  | Corrupt _ => SCorrupt
  | TooLarge _ => STooLarge
  | Lz4 _ => SLz4
  | NotFound _ => SNotFound
  | HashCollision _ => SHashCollision
  | ChecksumMismatch _ _ => SChecksumMismatch
  end.

(** [impl From<Error> for FfiFailure] *)
Definition from_error (error : Error) : FfiFailure :=
  failure (core_status error) (error_to_string error).

(** [impl From<io::Error> for FfiFailure] *)
Definition from_io_error (error : IoError) : FfiFailure := from_error (Io error).

(** [message.replace('\0', "\\0")] *)
Fixpoint replace_nul (message : bytes) : bytes :=
  match message with
  | [] => []
  | b :: message => (if bool_decide (b = x00) then [BACKSLASH; x30] else [b]) ++ replace_nul message
  end.

(** [CString::new(s).ok()]: refused when a byte is zero. *)
Definition cstring_new (s : bytes) : option bytes :=
  if existsb (fun b => bool_decide (b = x00)) s then None else Some s.

(** The value [set_last_error] stores. *)
Definition sanitized (message : bytes) : bytes := default [] (cstring_new (replace_nul message)).

(** What a C caller reads at a pointer to these bytes and their terminator. *)
Fixpoint c_str (s : bytes) : bytes :=
  match s with
  | [] => []
  | b :: s => if bool_decide (b = x00) then [] else b :: c_str s
  end.

(** ** [types.rs]: the conversions of the arguments *)

(** [pack_options], of the struct behind a pointer that is not null. *)
Definition pack_options_from_c (options : RasenPackOptions) : FfiResult PackOptions :=
  mode ← (if rp_mode options =? PACK_MODE_DEBUG then mret Debug
          else if rp_mode options =? PACK_MODE_PRODUCTION then mret Production
          else Err (failure SInvalidValue (lit "invalid pack mode: " ++ fmt_dec (rp_mode options))));
  protection ← (if rp_protection options =? PROTECTION_XOR then mret Xor
                else if rp_protection options =? PROTECTION_AEAD then mret Aead
                else Err (failure SInvalidValue
                            (lit "invalid protection: " ++ fmt_dec (rp_protection options))));
  mret {| po_chunk_size := rp_chunk_size options; po_alignment := rp_alignment options;
          po_mode := mode; po_protection := protection |}.

(** ** Lemmas *)

Lemma replace_nul_clean message : cstring_new (replace_nul message) = Some (replace_nul message).
Proof.
  unfold cstring_new. replace (existsb _ _) with false; [done|]. symmetry.
  induction message as [|b message IH]; [done|]. cbn [replace_nul].
  rewrite existsb_app, IH, orb_false_r. case_bool_decide; [done|]. cbn.
  rewrite bool_decide_false by done. done.
Qed.

Lemma c_str_clean s : x00 ∉ s -> c_str (s ++ [x00]) = s.
Proof.
  induction s as [|b s IH]; [done|]. intros Hs. cbn [c_str app].
  rewrite bool_decide_false by (intros ->; apply Hs; by left).
  rewrite IH; [done|]. intros Hin. apply Hs. by right.
Qed.

Lemma replace_nul_free message : x00 ∉ replace_nul message.
Proof.
  induction message as [|b message IH]; [apply not_elem_of_nil|]. cbn [replace_nul].
  rewrite elem_of_app. intros [Hb|Hm]; [|done]. case_bool_decide.
  - apply list_elem_of_In in Hb as [?|[?|[]]]; done.
  - apply list_elem_of_singleton in Hb. by subst.
Qed.

Lemma replace_nul_id message : x00 ∉ message -> replace_nul message = message.
Proof.
  induction message as [|b message IH]; [done|]. intros Hs. cbn [replace_nul].
  rewrite bool_decide_false by (intros ->; apply Hs; by left).
  cbn. rewrite IH; [done|]. intros Hin. apply Hs. by right.
Qed.

Lemma status_code_inj s t : status_code s = status_code t -> s = t.
Proof. destruct s, t; cbn; congruence. Qed.

#[export] Instance status_code_Inj : Inj (=) (=) status_code := status_code_inj.
