(* ===== verification/FfiIo.v ===== *)
(** * The C interface: sources, readers and writers ([rasen-archive-ffi/src/io.rs])

    [FfiSource], [CallbackReader] and [CallbackWriter] over the host's
    callbacks, and the contracts they keep. *)
From S2P Require Export FfiTypes.

(** ** Callbacks

    A callback is a function of the host; it writes no more than the buffer it
    is handed.  [i32] statuses are integers. *)

Definition fmt_i32 (v : Z) : bytes := if v <? 0 then lit "-" ++ fmt_dec (- v) else fmt_dec v.

Definition io_message_of (text : string) (status : Z) : IoError :=
  {| io_kind := OtherKind; io_message := lit text ++ fmt_i32 status |}.

Record RasenReadAtFn := {
  ra_call : ptr -> Z -> bytes -> Z * bytes;
  ra_within user_data offset dst : length (ra_call user_data offset dst).2 = length dst
}.

(** [CallbackSource]; [destroy] is the address of a function. *)
Record CallbackSource := {
  cs_user_data : ptr;
  cs_len : Z;
  cs_read_at : option RasenReadAtFn;
  cs_destroy : option ptr;
  cs_len_range : is_u64 cs_len
}.

Inductive FfiSource :=
  | SrcMemory (source : bytes)
  | SrcFile (file : File)
  | SrcCallback (source : CallbackSource).

Definition ffi_source_len (self : FfiSource) : IoRes Z :=
  match self with
  | SrcMemory source => ok_or (try_from U64_MAX (len source)) (io_other "source length overflow")
  | SrcFile file => file_metadata_len file
  | SrcCallback source => Ok (cs_len source)
  end.

Definition ffi_read_exact_at (self : FfiSource) (offset : Z) : ST IoError bytes unit :=
  match self with
  | SrcMemory source =>
      start ← lift (ok_or (try_from USIZE_MAX offset) (io_new UnexpectedEof "read offset too large"));
      dst ← get;
      end_ ← lift (ok_or (checked_add USIZE_MAX start (len dst))
                     (io_new UnexpectedEof "read range overflow"));
      source ← lift (ok_or (slice_get source start end_)
                       (io_new UnexpectedEof "failed to fill whole buffer"));
      copy_from_slice source
  | SrcFile file => read_exact_at file offset
  | SrcCallback source =>
      read_at ← lift (ok_or (cs_read_at source) (io_other "read_at callback is null"));
      status ← (fun dst => let '(status, dst) := ra_call read_at (cs_user_data source) offset dst in
                           (Ok status, dst));
      lift (ensure (status =? 0) (io_message_of "read_at callback failed: " status))
  end.

#[export] Instance ffi_source : RandomAccessRead FfiSource := {
  source_len := ffi_source_len;
  read_exact_at := ffi_read_exact_at
}.

#[export] Instance ffi_source_safe : SourceSafe FfiSource.
Proof.
  constructor.
  - intros [source|file|source]; cbn.
    + exact (slice_len_safe source).
    + exact (@source_len_safe File _ file_safe file).
    + apply cs_len_range.
  - intros [source|file|source] offset dst Ho; cbn -[mbind].
    + by apply read_slice_exact_safe.
    + by apply (@read_exact_at_safe File _ file_safe file).
    + eapply ssafe_lift_bind; [apply safe_ok_or|done|]. intros f _ _.
      eapply (ssafe_bind _ _ _ (fun _ d => length d = length dst)).
      { unfold ssafe. pose proof (ra_within f (cs_user_data source) offset dst) as Hw.
        by destruct (ra_call f _ _ _) as [status d]. }
      intros status d _ Hd. apply ssafe_lift; [|done]. by destruct (status =? 0).
Qed.

(** ** Streams of the host *)

(** [stream_rest]: what a stream still delivers. *)
Class StreamView (U : Type) := { stream_rest : U -> bytes }.

(** What a sink holds, and where it stands. *)
Class SinkView (V : Type) := { sink_contents : V -> bytes; sink_position : V -> Z }.

(** The call gives a status, the count it stored, the buffer and the stream; a
    status of 0 with a count that fits delivers the stream's next bytes, and
    none only at its end. *)
Record RasenReadFn (U : Type) `{StreamView U} := {
  rd_call : U -> bytes -> Z * Z * bytes * U;
  rd_spec u dst :
    let '(status, n, dst', u') := rd_call u dst in
    length dst' = length dst /\ 0 <= n /\
    (status = 0 -> n <= len dst ->
     n <= len (stream_rest u) /\ take (Z.to_nat n) dst' = take (Z.to_nat n) (stream_rest u) /\
     stream_rest u' = drop (Z.to_nat n) (stream_rest u) /\ (n = 0 -> dst = [] \/ stream_rest u = []))
}.
Arguments rd_call {U _}. Arguments rd_spec {U _}.

Record CallbackReader (U : Type) `{StreamView U} := {
  cr_user : U;
  cr_read : option (RasenReadFn U)
}.
Arguments cr_user {U _}. Arguments cr_read {U _}.

Definition callback_read {U} `{StreamView U} : ST IoError (CallbackReader U * bytes) Z :=
  fun '(self, dst) =>
    match cr_read self with
    | None => (Err (io_other "read callback is null"), (self, dst))
    | Some read =>
        let '(status, amount, dst, user) := rd_call read (cr_user self) dst in
        let self := {| cr_user := user; cr_read := cr_read self |} in
        if negb (status =? 0)
        then (Err (io_message_of "read callback failed: " status), (self, dst))
        else (ok_or (if amount <=? len dst then Some amount else None)
                (io_other "read callback returned an oversized count"), (self, dst))
    end.

#[export] Instance callback_reader {U} `{StreamView U} : Read (CallbackReader U) := {
  read := callback_read
}.

#[export] Instance callback_finite {U} `{StreamView U} : ReadFinite (CallbackReader U) := {
  rest self := stream_rest (cr_user self);
  interruptions _ := 0%nat
}.

#[export] Instance callback_reader_holds {U} `{StreamView U} : ReadHolds (CallbackReader U).
Proof.
  constructor. intros [u f] dst. cbn. destruct f as [f|]; [|done].
  pose proof (rd_spec f u dst) as Hs. destruct (rd_call f u dst) as [[[status n] dst'] u'].
  destruct Hs as (Hl & Hn & Hs). destruct (Z.eqb_spec status 0) as [->|]; [|done]. cbn.
  destruct (Z.leb_spec n (len dst')) as [Hle|]; [|done]. cbn.
  assert (Hle' : n <= len dst) by (unfold len in *; lia).
  destruct (Hs eq_refl Hle') as (? & ? & ? & ?). by split_and!.
Qed.

(** The three callbacks of a writer.  A status of 0 says that the call did its
    work. *)
Record SinkFns (V : Type) `{SinkView V} := {
  sk_write : option (V -> bytes -> Z * V);
  sk_seek : option (V -> Z -> Z * V);
  sk_len : option (V -> Z * Z * V);
  sk_write_spec f v s v' : sk_write = Some f -> s <> [] -> f v s = (0, v') ->
    sink_contents v' = overwrite (sink_contents v) (sink_position v) s /\
    sink_position v' = sink_position v + len s;
  sk_seek_spec f v p v' : sk_seek = Some f -> f v p = (0, v') ->
    sink_contents v' = sink_contents v /\ sink_position v' = p;
  sk_len_spec f v n v' : sk_len = Some f -> f v = (0, n, v') ->
    n = len (sink_contents v) /\ sink_contents v' = sink_contents v
}.
Arguments sk_write {V _}. Arguments sk_seek {V _}. Arguments sk_len {V _}.
Arguments sk_write_spec {V _}. Arguments sk_seek_spec {V _}. Arguments sk_len_spec {V _}.

(** [CallbackWriter], with the host's sink behind [user_data]. *)
Record CallbackWriter (V : Type) `{SinkView V} := {
  cw_user : V;
  cw_callbacks : SinkFns V;
  cw_position : Z
}.
Arguments cw_user {V _}. Arguments cw_callbacks {V _}. Arguments cw_position {V _}.

(** [io::SeekFrom] *)
Inductive SeekFrom := Start (p : Z) | Current (d : Z) | End (d : Z).

Section CallbackWriter.
Context {V : Type} `{SinkView V}.

Definition set_user (v : V) (w : CallbackWriter V) : CallbackWriter V :=
  {| cw_user := v; cw_callbacks := cw_callbacks w; cw_position := cw_position w |}.
Definition set_position (p : Z) (w : CallbackWriter V) : CallbackWriter V :=
  {| cw_user := cw_user w; cw_callbacks := cw_callbacks w; cw_position := p |}.

(** A callback that gives a status and a value. *)
Definition on_user {A} (f : V -> Z * A * V) : ST IoError (CallbackWriter V) (Z * A) := fun w =>
  let '(status, a, v) := f (cw_user w) in (Ok (status, a), set_user v w).

Definition callback_write (src : bytes) : ST IoError (CallbackWriter V) Z :=
  self ← get;
  write ← lift (ok_or (sk_write (cw_callbacks self)) (io_other "write callback is null"));
  '(status, _) ← on_user (fun v => let '(status, v) := write v src in (status, tt, v));
  lift (ensure (status =? 0) (io_message_of "write callback failed: " status));;
  n ← lift (ok_or (try_from U64_MAX (len src)) (io_other "write size overflow"));
  self ← get;
  position ← lift (ok_or (checked_add U64_MAX (cw_position self) n)
                     (io_other "writer position overflow"));
  put (set_position position self);;
  mret (len src).

(** The provided method [Write::write_all]: [write] consumes everything. *)
Definition callback_write_all (src : bytes) : ST IoError (CallbackWriter V) unit :=
  if bool_decide (src = []) then mret tt else callback_write src;; mret tt.

Definition callback_seek (position : SeekFrom) : ST IoError (CallbackWriter V) Z :=
  self ← get;
  absolute ← (match position with
    | Start position => mret position
    | Current 0 => mret (cw_position self)
    | End 0 =>
        len ← lift (ok_or (sk_len (cw_callbacks self)) (io_other "len callback is null"));
        '(status, value) ← on_user len;
        lift (ensure (status =? 0) (io_message_of "len callback failed: " status));;
        mret value
    | _ => lift (Err (io_other "unsupported callback seek"))
    end);
  seek ← lift (ok_or (sk_seek (cw_callbacks self)) (io_other "seek callback is null"));
  '(status, _) ← on_user (fun v => let '(status, v) := seek v absolute in (status, tt, v));
  lift (ensure (status =? 0) (io_message_of "seek callback failed: " status));;
  self ← get;
  put (set_position absolute self);;
  mret absolute.

#[export] Instance callback_writer : WriteSeek (CallbackWriter V) := {
  write_all := callback_write_all;
  seek_end := callback_seek (End 0);
  seek_start p := callback_seek (Start p)
}.

Definition cw_contents (w : CallbackWriter V) : bytes := sink_contents (cw_user w).
Definition cw_stands (w : CallbackWriter V) : Z := sink_position (cw_user w).
End CallbackWriter.

Section CallbackWriterSpec.
Context {V : Type} `{SinkView V}.

(** A checked call of a callback: past it, the callback answered 0. *)
Lemma on_user_ok {A B} (f : V -> Z * A * V) (err : Z -> IoError) (k : A -> ST IoError (CallbackWriter V) B)
    (w : CallbackWriter V) Q :
  (forall a v, f (cw_user w) = (0, a, v) -> ssafe (k a) (set_user v w) Q (fun _ => True)) ->
  ssafe ('(status, a) ← on_user f; lift (ensure (status =? 0) (err status));; k a) w Q (fun _ => True).
Proof.
  intros Hk. unfold ssafe, mbind, st_bind, on_user. destruct (f (cw_user w)) as [[status a] v] eqn:E.
  destruct (Z.eqb_spec status 0) as [->|]; cbn; [by apply Hk|done].
Qed.

Lemma callback_write_safe (s : bytes) (w : CallbackWriter V) :
  s <> [] ->
  ssafe (callback_write s) w
    (fun n w' => n = len s /\ cw_contents w' = overwrite (cw_contents w) (cw_stands w) s /\
       cw_stands w' = cw_stands w + len s) (fun _ => True).
Proof.
  intros Hne. unfold callback_write. apply ssafe_get_bind.
  eapply ssafe_lift_bind; [apply safe_ok_or|done|]. intros write _ Hwrite.
  apply on_user_ok. intros [] v Hcall.
  assert (Hspec := sk_write_spec (cw_callbacks w) write (cw_user w) s v Hwrite Hne).
  destruct (write (cw_user w) s) as [status v']. injection Hcall as -> ->. destruct (Hspec eq_refl) as [Hc Hp].
  eapply ssafe_lift_bind; [apply safe_ok_or|done|]. intros n _ _. apply ssafe_get_bind.
  eapply ssafe_lift_bind; [apply safe_ok_or|done|]. intros p _ _. done.
Qed.

Lemma callback_seek_safe position (w : CallbackWriter V) :
  ssafe (callback_seek position) w
    (fun n w' => cw_contents w' = cw_contents w /\ cw_stands w' = n /\
       match position with
       | Start p => n = p
       | Current _ => n = cw_position w
       | End _ => n = len (cw_contents w)
       end) (fun _ => True).
Proof.
  unfold callback_seek. apply ssafe_get_bind.
  eapply (ssafe_bind _ _ _ (fun n w' => cw_contents w' = cw_contents w /\
       cw_callbacks w' = cw_callbacks w /\
       match position with
       | Start p => n = p
       | Current _ => n = cw_position w
       | End _ => n = len (cw_contents w)
       end)).
  { destruct position as [p|[]|[]]; try done.
    eapply ssafe_lift_bind; [apply safe_ok_or|done|]. intros f _ Hf. apply on_user_ok.
    intros n v Hcall. apply ssafe_ret.
    by destruct (sk_len_spec _ _ _ _ _ Hf Hcall) as [-> Hc]. }
  intros n w1 _ (Hc1 & Hcb & Hn).
  eapply ssafe_lift_bind; [apply safe_ok_or|done|]. intros f _ Hf. apply on_user_ok.
  intros [] v Hcall. rewrite <- Hcb in Hf.
  assert (Hspec := sk_seek_spec (cw_callbacks w1) f (cw_user w1) n v Hf).
  destruct (f (cw_user w1) n) as [status v']. injection Hcall as -> ->.
  destruct (Hspec eq_refl) as [Hc Hp]. apply ssafe_get_bind. unfold ssafe. cbn.
  split_and!; [|done|done]. unfold cw_contents in *. cbn. congruence.
Qed.

(** Over callbacks that do what they say, [CallbackWriter] is a destination. *)
#[export] Instance callback_writer_spec : WriteSeekSpec (CallbackWriter V) cw_contents cw_stands.
Proof.
  constructor.
  - intros s w Hs. cbn. unfold callback_write_all. case_bool_decide as He.
    + subst. apply ssafe_ret. split; [|change (len []) with 0; lia].
      unfold overwrite, len in *. specialize (Hs eq_refl). cbn [length app].
      rewrite resize_le, Nat.add_0_r, take_drop by lia. done.
    + eapply ssafe_bind; [by apply callback_write_safe|]. by intros n w' _ (_ & ? & ?).
  - intros w. cbn. eapply ssafe_mono; [apply callback_seek_safe| |done]. cbn.
    intros n w' _ (? & ? & ?). by split_and!.
  - intros p w _. cbn. eapply ssafe_mono; [apply callback_seek_safe| |done]. cbn.
    intros n w' _ (? & ? & ?). split_and!; congruence.
Qed.
End CallbackWriterSpec.
