(* ===== verification/Fs.v ===== *)
(** * Files ([std::fs])

    What the C interface and the command line tool use of the operating
    system's files: the class [FileSystem] of its calls, the laws
    [FileSystemSpec] that state their documented behaviour, a file opened for
    writing as a destination ([FileWriter]) and, as [Plain], a file system in
    memory that satisfies the laws.  No other process touches the files. *)
From S2P Require Export Source Frame.

(** A file opened with [File::open]: its positioned reads, and the stream of
    its sequential ones. *)
Record OpenFile (T : Type) := { of_file : File; of_stream : T }.
Arguments of_file {T}. Arguments of_stream {T}.

(** The state [F] is every file; a file open for writing is a number. *)
Class FileSystem (F T : Type) := {
  (** [File::open] *)
  fs_open : bytes -> ST IoError F (OpenFile T);
  (** [File::create_new], [OpenOptions::new().write(true).create_new(true).open] *)
  fs_create_new : bytes -> ST IoError F Z;
  (** [write_all] of an open file: the state is the files and the position where
      this one stands, which moves by what was written *)
  fs_write_all : Z -> bytes -> ST IoError (F * Z) unit;
  (** [seek(SeekFrom::End(0))] *)
  fs_end : Z -> ST IoError F Z;
  fs_sync_all : Z -> ST IoError F unit;
  fs_remove_file : bytes -> ST IoError F unit;
  fs_rename : bytes -> bytes -> ST IoError F unit;
  (** [fs::write] *)
  fs_write : bytes -> bytes -> ST IoError F unit
}.

(** ** The laws: [lookup] resolves a path to a file, [data] is its content.
    Several paths may lead to one file. *)

Section Laws.
Context {F : Type} (lookup : F -> bytes -> option Z) (data : F -> Z -> bytes).

Definition same_files (f g : F) : Prop :=
  (forall p, lookup g p = lookup f p) /\ (forall i, data g i = data f i).

(** Every name that leads to a file still does, and the file holds what it
    held. *)
Definition files_kept (f g : F) : Prop :=
  forall p j, lookup f p = Some j -> lookup g p = Some j /\ data g j = data f j.

(** The paths still lead where they led, new ones lead to [i], and only the
    content of [i] may have changed. *)
Definition only_file (i : Z) (f g : F) : Prop :=
  (forall p j, lookup f p = Some j -> lookup g p = Some j) /\
  (forall j, j <> i -> data g j = data f j) /\
  (forall p j, lookup g p = Some j -> j <> i -> lookup f p = Some j).

Class FileSystemSpec `{FileSystem F T} : Prop := {
  fs_open_spec p f :
    ssafe (fs_open p) f
      (fun h g => same_files f g /\ exists i, lookup f p = Some i /\
         file_content (of_file h) = data f i)
      (same_files f);
  fs_create_new_spec p f :
    ssafe (fs_create_new p) f
      (fun i g => lookup f p = None /\ (forall q, lookup f q <> Some i) /\
         lookup g p = Some i /\ data g i = [] /\ only_file i f g)
      (same_files f);
  (** Writing nothing behind the end need not extend the file. *)
  fs_write_all_spec i s f pos :
    ssafe (fs_write_all i s) (f, pos)
      (fun _ t => (forall p, lookup t.1 p = lookup f p) /\ only_file i f t.1 /\ t.2 = pos + len s /\
         ((s = [] -> pos <= len (data f i)) -> data t.1 i = overwrite (data f i) pos s))
      (fun t => (forall p, lookup t.1 p = lookup f p) /\ only_file i f t.1 /\ pos <= t.2 <= pos + len s);
  fs_end_spec i f :
    ssafe (fs_end i) f (fun n g => same_files f g /\ n = len (data f i)) (same_files f);
  fs_sync_all_spec i f : ssafe (fs_sync_all i) f (fun _ => same_files f) (same_files f);
  fs_remove_file_spec p f :
    ssafe (fs_remove_file p) f
      (fun _ g => (forall i, data g i = data f i) /\ lookup g p = None /\
         (forall q, lookup f q = None -> lookup g q = None) /\
         (forall q j, lookup f q = Some j -> lookup f p <> Some j -> lookup g q = Some j))
      (same_files f);
  fs_rename_spec p q f :
    ssafe (fs_rename p q) f
      (fun _ g => (forall i, data g i = data f i) /\ exists i, lookup f p = Some i /\
         lookup g q = Some i /\ (lookup f q <> Some i -> lookup g p = None) /\
         (forall r j, lookup f r = Some j -> j <> i -> lookup f q <> Some j -> lookup g r = Some j))
      (same_files f);
  fs_write_spec p s f :
    ssafe (fs_write p s) f
      (fun _ g => exists i, lookup g p = Some i /\ data g i = s /\ only_file i f g)
      (fun g => exists i, only_file i f g)
}.

(** The sequential reads of an opened file deliver its content. *)
Class FileStreamSpec `{FileSystem F T} `{Read T} `{ReadFinite T} : Prop := {
  fs_stream_holds :: ReadHolds T;
  fs_open_stream p f h g i :
    fs_open p f = (Ok h, g) -> lookup f p = Some i -> rest (of_stream h) = data f i
}.
End Laws.

Lemma same_files_refl {F} (lookup : F -> bytes -> option Z) data f : same_files lookup data f f.
Proof. done. Qed.

Lemma same_files_trans {F} (lookup : F -> bytes -> option Z) data f g h :
  same_files lookup data f g -> same_files lookup data g h -> same_files lookup data f h.
Proof. intros [H1 H2] [H3 H4]. split; intros; [by rewrite H3|by rewrite H4]. Qed.

Lemma only_file_refl {F} (lookup : F -> bytes -> option Z) data i f : only_file lookup data i f f.
Proof. done. Qed.

Lemma only_file_trans {F} (lookup : F -> bytes -> option Z) data i f g h :
  only_file lookup data i f g -> only_file lookup data i g h -> only_file lookup data i f h.
Proof.
  intros (H1 & H2 & H3) (H4 & H5 & H6). split_and!; [by eauto| |by eauto].
  intros j Hj. by rewrite H5, H2.
Qed.

Lemma same_files_kept {F} (lookup : F -> bytes -> option Z) data f g :
  same_files lookup data f g -> files_kept lookup data f g.
Proof. intros [H1 H2] p j. by rewrite H1, H2. Qed.

(** A new file: those that were there are kept, whatever happens to it. *)
Lemma only_file_kept {F} (lookup : F -> bytes -> option Z) data i f g :
  (forall p, lookup f p <> Some i) -> only_file lookup data i f g -> files_kept lookup data f g.
Proof. intros Hi (H1 & H2 & _) p j Hp. split; [by apply H1|]. apply H2. intros ->. by apply (Hi p). Qed.

Lemma same_only_file {F} (lookup : F -> bytes -> option Z) data i f g :
  same_files lookup data f g -> only_file lookup data i f g.
Proof. intros [H1 H2]. split_and!; [by intros p j <-|done|]. intros p j <- _. by rewrite H1. Qed.

(** ** A file open for writing *)

Record FileWriter (F : Type) := { fw_files : F; fw_file : Z; fw_pos : N }.
Arguments fw_files {F}. Arguments fw_file {F}. Arguments fw_pos {F}.

Section FileWriter.
Context {F T : Type} `{FileSystem F T}.

(** A call on the files; [g] is the position after a success. *)
Definition on_files {A} (g : A -> N -> N) (m : ST IoError F A) : ST IoError (FileWriter F) A := fun w =>
  let '(r, f) := m (fw_files w) in
  (r, {| fw_files := f; fw_file := fw_file w;
         fw_pos := match r with Ok a => g a (fw_pos w) | _ => fw_pos w end |}).

#[export] Instance file_writer : WriteSeek (FileWriter F) := {
  write_all s w :=
    let '(r, (f, pos)) := fs_write_all (fw_file w) s (fw_files w, Z.of_N (fw_pos w)) in
    (r, {| fw_files := f; fw_file := fw_file w; fw_pos := Z.to_N pos |});
  seek_end w := on_files (fun n _ => Z.to_N n) (fs_end (fw_file w)) w;
  seek_start p w := (Ok p, {| fw_files := fw_files w; fw_file := fw_file w; fw_pos := Z.to_N p |})
}.

Context {lookup : F -> bytes -> option Z} {data : F -> Z -> bytes} `{!FileSystemSpec lookup data}.

Definition fw_contents (w : FileWriter F) : bytes := data (fw_files w) (fw_file w).
Definition fw_stands (w : FileWriter F) : Z := Z.of_N (fw_pos w).

#[export] Instance file_writer_spec : WriteSeekSpec (FileWriter F) fw_contents fw_stands.
Proof.
  constructor.
  - intros s w Hw. pose proof (fs_write_all_spec lookup data (fw_file w) s (fw_files w) (Z.of_N (fw_pos w))) as Hs.
    unfold ssafe in *. cbn [write_all file_writer].
    destruct (fs_write_all _ _ _) as [[[]|e|] [f pos]]; [|done..]. destruct Hs as (_ & _ & Hp & Hd).
    unfold fw_contents, fw_stands in *. cbn in *. rewrite (Hd Hw). split; [done|].
    pose proof (len_nonneg s). lia.
  - intros w. pose proof (fs_end_spec lookup data (fw_file w) (fw_files w)) as Hs.
    unfold ssafe in *. cbn [seek_end file_writer]. unfold on_files.
    destruct (fs_end _ _) as [[n|e|] f]; [|done..]. destruct Hs as [[_ Hd] ->].
    unfold fw_contents, fw_stands. cbn. rewrite Hd. split_and!; [done..|].
    pose proof (len_nonneg (data (fw_files w) (fw_file w))). lia.
  - intros p w Hp. unfold ssafe, fw_stands. cbn. split_and!; [done..|lia].
Qed.

(** Writing to it touches no other file, nor the names. *)
Definition other_files (w w' : FileWriter F) : Prop :=
  fw_file w' = fw_file w /\ (forall p, lookup (fw_files w') p = lookup (fw_files w) p) /\
  (forall j, j <> fw_file w -> data (fw_files w') j = data (fw_files w) j).

#[export] Instance other_files_preorder : PreOrder other_files.
Proof.
  split; [done|]. intros w1 w2 w3 (H1 & H2 & H3) (H4 & H5 & H6).
  split_and!; [congruence|intros; by rewrite H5|]. intros j Hj. rewrite H6 by congruence. auto.
Qed.

#[export] Instance file_writer_framing : Framing other_files.
Proof.
  constructor; [apply _|..].
  - intros s w. pose proof (fs_write_all_spec lookup data (fw_file w) s (fw_files w) (Z.of_N (fw_pos w))) as Hs.
    unfold ssafe, only_file in Hs. cbn [write_all file_writer]. unfold other_files.
    destruct (fs_write_all _ _ _) as [[u|e|] [f pos]]; cbn in *; [| |done]; naive_solver.
  - intros w. pose proof (fs_end_spec lookup data (fw_file w) (fw_files w)) as Hs.
    unfold ssafe, same_files in Hs. cbn [seek_end file_writer]. unfold on_files, other_files.
    destruct (fs_end _ _) as [[u|e|] f]; cbn; [| |done]; naive_solver.
  - intros p w. done.
Qed.
End FileWriter.

(** ** A file system in memory *)

Definition plain_read_at (content : bytes) : ReadAt := fun _ offset dst =>
  let s := take (length dst) (drop (Z.to_nat offset) content) in (Ok (len s), splice dst 0 s).

Lemma plain_read_at_spec content : ReadAtSpec 1 (plain_read_at content).
Proof.
  constructor.
  - intros n offset dst. unfold ssafe, plain_read_at. set (s := take _ _).
    assert (Hs : len s <= len dst) by (unfold s, len; rewrite length_take; lia).
    pose proof (len_nonneg s). split; [|lia]. apply Nat2Z.inj. apply (len_splice dst s 0); lia.
  - intros n offset dst. exists 0%nat. split; [lia|]. by intros d e d' _ [=].
Qed.

Lemma plain_read_at_holds content : ReadAtHolds (plain_read_at content) content.
Proof.
  constructor. intros n offset dst amount dst'. unfold plain_read_at. set (s := take _ _).
  intros [= <- <-] Ho Hd.
  assert (Hls : length s = Nat.min (length dst) (length content - Z.to_nat offset))
    by (unfold s; by rewrite length_take, length_drop).
  assert (0 < length dst)%nat by (destruct dst; [done|cbn; lia]).
  unfold len. rewrite Nat2Z.id. split_and!; [|lia|lia].
  unfold splice. change (Z.to_nat 0) with 0%nat. rewrite take_0, app_nil_l, take_app_length.
  unfold s. rewrite length_take. set (d := drop _ _).
  destruct (Nat.min_spec (length dst) (length d)) as [[? ->]|[? ->]]; [done|]. by rewrite !take_ge by lia.
Qed.

(** [file.metadata()?.len()] is a [u64]. *)
Definition plain_len (content : bytes) : IoRes Z :=
  ok_or (try_from U64_MAX (len content)) (io_other "file too large").

Lemma plain_len_safe content : safe (plain_len content) (fun n => is_u64 n /\ n = len content).
Proof.
  eapply safe_mono; [apply safe_ok_or|]. intros n _ [-> ?]%try_from_Some.
  split; [|done]. split; [apply len_nonneg|done].
Qed.

Definition plain_file (content : bytes) : File := {|
  file_metadata_len := plain_len content;
  file_read_at := plain_read_at content;
  file_content := content;
  file_patience := 1;
  file_metadata_safe := plain_len_safe content;
  file_read_at_spec := plain_read_at_spec content;
  file_read_at_holds := plain_read_at_holds content
|}.

Module Plain.
(** Names, and the contents of the numbered files. *)
Record fs := { names : gmap bytes Z; store : gmap Z bytes }.

Definition lookup (f : fs) (p : bytes) : option Z := names f !! p.
Definition data (f : fs) (i : Z) : bytes := default [] (store f !! i).

Definition not_found : IoError := io_new NotFoundKind "no such file".
Definition set_data (i : Z) (d : bytes) (f : fs) : fs :=
  {| names := names f; store := <[i := d]> (store f) |}.

Definition fresh_file (f : fs) : Z := 1 + foldr Z.max 0 (map_to_list (names f)).*2.

Definition create (p : bytes) (d : bytes) (f : fs) : fs :=
  {| names := <[p := fresh_file f]> (names f); store := <[fresh_file f := d]> (store f) |}.

#[export] Instance plain_fs : FileSystem fs bytes := {
  fs_open p f :=
    match lookup f p with
    | Some i => (Ok {| of_file := plain_file (data f i); of_stream := data f i |}, f)
    | None => (Err not_found, f)
    end;
  fs_create_new p f :=
    match lookup f p with
    | Some _ => (Err (io_new AlreadyExists "file exists"), f)
    | None => (Ok (fresh_file f), create p [] f)
    end;
  fs_write_all i s := fun '(f, pos) => (Ok tt, (set_data i (overwrite (data f i) pos s) f, pos + len s));
  fs_end i f := (Ok (len (data f i)), f);
  fs_sync_all i f := (Ok tt, f);
  fs_remove_file p f :=
    match lookup f p with
    | Some _ => (Ok tt, {| names := delete p (names f); store := store f |})
    | None => (Err not_found, f)
    end;
  fs_rename p q f :=
    match lookup f p with
    | Some i =>
        (Ok tt, {| names := if bool_decide (p = q) then names f else <[q := i]> (delete p (names f));
                   store := store f |})
    | None => (Err not_found, f)
    end;
  fs_write p s f :=
    match lookup f p with
    | Some i => (Ok tt, set_data i s f)
    | None => (Ok tt, create p s f)
    end
}.

Lemma fresh_file_spec f q : lookup f q <> Some (fresh_file f).
Proof.
  unfold lookup, fresh_file. intros Hq%elem_of_map_to_list.
  assert (Hm : forall l a, a ∈ l -> a <= foldr Z.max 0 l).
  { induction l as [|x l IH]; intros a; [by intros ?%not_elem_of_nil|].
    cbn. intros [->|?%IH]%elem_of_cons; lia. }
  specialize (Hm (map_to_list (names f)).*2 (fresh_file f)). unfold fresh_file in Hm.
  assert (Hin : 1 + foldr Z.max 0 (map_to_list (names f)).*2 ∈ (map_to_list (names f)).*2).
  { apply list_elem_of_fmap. by eexists (q, _). }
  specialize (Hm Hin). lia.
Qed.

Lemma data_set i d f j : data (set_data i d f) j = if decide (j = i) then d else data f j.
Proof.
  unfold data, set_data. cbn. case_decide as Hj; [subst; by rewrite lookup_insert_eq|].
  by rewrite lookup_insert_ne.
Qed.

Lemma set_data_only i d f : only_file lookup data i f (set_data i d f).
Proof. split_and!; [done| |done]. intros j Hj. rewrite data_set. by case_decide. Qed.

Lemma create_spec p d f :
  lookup f p = None ->
  lookup (create p d f) p = Some (fresh_file f) /\ data (create p d f) (fresh_file f) = d /\
  only_file lookup data (fresh_file f) f (create p d f).
Proof.
  intros Hp. unfold lookup, data, create in *. cbn. rewrite !lookup_insert_eq. split; [done|]. split; [done|].
  split_and!; cbn.
  - intros q j Hq. unfold lookup. cbn. rewrite lookup_insert_ne; [done|]. intros <-. unfold lookup in Hq. congruence.
  - intros j Hj. unfold data. cbn. by rewrite lookup_insert_ne.
  - intros q j. rewrite lookup_insert_Some. by intros [[_ <-]|[_ Hq]] Hj.
Qed.

#[export] Instance plain_spec : FileSystemSpec lookup data.
Proof.
  constructor; unfold ssafe.
  - intros p f. cbn. destruct (lookup f p) as [i|] eqn:Hp; [|done]. split; [done|]. by exists i.
  - intros p f. cbn. destruct (lookup f p) as [i|] eqn:Hp; [done|]. destruct (create_spec p [] f Hp) as (? & ? & ?).
    split_and!; try done. apply fresh_file_spec.
  - intros i s f pos. cbn. split_and!; [done|apply set_data_only|done|]. intros _. rewrite data_set. by case_decide.
  - done.
  - done.
  - intros p f. cbn. destruct (lookup f p) as [i|] eqn:Hp; [|done]. unfold lookup in *. cbn. split_and!.
    + done.
    + apply lookup_delete_eq.
    + intros q Hq. destruct (decide (q = p)) as [->|]; [apply lookup_delete_eq|by rewrite lookup_delete_ne].
    + intros q j Hq Hj. rewrite lookup_delete_ne; [done|]. intros ->. congruence.
  - intros p q f. cbn. destruct (lookup f p) as [i|] eqn:Hp; [|done]. split; [done|]. exists i. split; [done|].
    unfold lookup in *. cbn. case_bool_decide as Hpq.
    + subst. split_and!; [done|done|]. by intros r j.
    + split_and!.
      * apply lookup_insert_eq.
      * intros _. rewrite lookup_insert_ne by done. apply lookup_delete_eq.
      * intros r j Hr Hj Hq. rewrite lookup_insert_ne by (intros <-; congruence).
        by rewrite lookup_delete_ne by (intros <-; congruence).
  - intros p s f. cbn. destruct (lookup f p) as [i|] eqn:Hp.
    + exists i. split_and!; [done| |apply set_data_only]. rewrite data_set. by case_decide.
    + exists (fresh_file f). by apply create_spec.
Qed.

#[export] Instance plain_streams : FileStreamSpec lookup data.
Proof.
  constructor; [apply slice_read_holds|]. intros p f h g i. cbn. intros H Hp. rewrite Hp in H.
  by injection H as <- <-.
Qed.
End Plain.
