(* ===== verification/Paths.v ===== *)
(** * Paths of the operating system ([std::path] on Unix)

    A [Path] is the list of its components, which is how [std::path] compares
    paths and takes them apart; [render] is its text. *)
From S2P Require Export Path.

Inductive Component := RootDir | CurDir | ParentDir | Normal (name : bytes).

#[export] Instance component_eq_dec : EqDecision Component.
Proof. solve_decision. Defined.

Abbreviation PathBuf := (list Component).

(** [Path::file_name], [Path::parent] *)
Definition file_name (p : PathBuf) : option bytes :=
  match last p with Some (Normal name) => Some name | _ => None end.

Definition parent (p : PathBuf) : option PathBuf :=
  match last p with
  | None | Some RootDir => None
  | Some _ => Some (take (length p - 1) p)
  end.

(** [Path::join] of a file name. *)
Definition join_name (p : PathBuf) (name : bytes) : PathBuf := p ++ [Normal name].

(** [Path::strip_prefix] *)
Fixpoint path_strip_prefix (p base : PathBuf) {struct base} : option PathBuf :=
  match base, p with
  | [], _ => Some p
  | b :: base, c :: p => if bool_decide (b = c) then path_strip_prefix p base else None
  | _ :: _, [] => None
  end.

(** [Path::as_os_str] *)
Definition component_bytes (c : Component) : bytes :=
  match c with RootDir => [] | CurDir => lit "." | ParentDir => lit ".." | Normal name => name end.

Fixpoint separated (p : PathBuf) : bytes :=
  match p with
  | [] => []
  | [c] => component_bytes c
  | c :: p => component_bytes c ++ lit "/" ++ separated p
  end.

Definition render (p : PathBuf) : bytes :=
  match p with RootDir :: p => lit "/" ++ separated p | p => separated p end.

(** ** Facts *)

Lemma path_strip_prefix_Some p base q : path_strip_prefix p base = Some q <-> p = base ++ q.
Proof.
  revert p. induction base as [|b base IH]; intros p; cbn.
  { split; [by intros [= ->]|by intros ->]. }
  destruct p as [|c p]; [done|]. destruct (bool_decide_reflect (b = c)) as [->|Hb].
  - rewrite IH. split; [by intros ->|by intros [= ->]].
  - split; [done|]. intros [= Hc _]. by destruct Hb.
Qed.

Lemma file_name_join p name : file_name (join_name p name) = Some name.
Proof. unfold file_name, join_name. by rewrite last_snoc. Qed.

Lemma parent_join p name : parent (join_name p name) = Some p.
Proof.
  unfold parent, join_name. rewrite last_snoc, length_app. cbn [length].
  replace (length p + 1 - 1)%nat with (length p) by lia. by rewrite take_app_length.
Qed.

(** A path with a file name is its parent joined with it. *)
Lemma file_name_parent p name q : file_name p = Some name -> parent p = Some q -> p = join_name q name.
Proof.
  unfold file_name, parent, join_name. destruct p as [|c p _] using rev_ind; [done|].
  rewrite last_snoc, length_app. cbn [length]. destruct c; try done. intros [= ->] [= <-].
  replace (length p + 1 - 1)%nat with (length p) by lia. by rewrite take_app_length.
Qed.

#[export] Instance join_inj p : Inj (=) (=) (join_name p).
Proof. unfold join_name. intros a b Hab. apply app_inv_head in Hab. congruence. Qed.

Example render_example :
  render (join_name [RootDir; Normal (lit "srv")] (lit "a b")) = lit "/srv/a b" /\
  render [Normal (lit "x"); Normal (lit "y")] = lit "x/y" /\ render [RootDir] = lit "/" /\
  path_strip_prefix [RootDir; Normal (lit "x"); Normal (lit "y")] [RootDir; Normal (lit "x")] = Some [Normal (lit "y")].
Proof. by split_and!. Qed.
