(* ===== verification/System.v ===== *)
(** * The system of the command line tool

    What [commands.rs] uses of [std::fs] and [std::path] beyond [Fs]: resolving
    paths and listing directories (the class [System], with its laws
    [SystemSpec]); and [std::io::BufWriter] over a file. *)
From S2P Require Export Fs Paths.

(** ** Directories *)

(** [fs::FileType]: a symbolic link is neither a directory nor a file. *)
Inductive FileType := FtDir | FtFile | FtOther.

Definition is_dir (t : FileType) : bool := match t with FtDir => true | _ => false end.
Definition is_file (t : FileType) : bool := match t with FtFile => true | _ => false end.

(** [fs::DirEntry]: its name, and the answer of [file_type()]. *)
Record DirEntry := { de_name : bytes; de_type : IoRes FileType }.

Class System (F : Type) := {
  (** [fs::canonicalize] and [path::absolute], of a path's text *)
  canonicalize : bytes -> F -> IoRes PathBuf;
  absolute : bytes -> F -> IoRes PathBuf;
  (** The answers of the iterator [fs::read_dir] gives. *)
  read_dir : PathBuf -> F -> IoRes (list (IoRes DirEntry));
  (** [Path::display]: the text with what is not UTF-8 replaced *)
  display : PathBuf -> bytes;
  (** The number of directories from this one on down. *)
  directories : PathBuf -> F -> nat
}.

(** The directories of a listing. *)
Definition subdirectories (dir : PathBuf) (l : list (IoRes DirEntry)) : list PathBuf :=
  l ≫= (fun e => match e with
                 | Ok e => match de_type e with Ok FtDir => [join_name dir (de_name e)] | _ => [] end
                 | _ => []
                 end).

Definition entry_names (l : list (IoRes DirEntry)) : list bytes :=
  l ≫= (fun e => match e with Ok e => [de_name e] | _ => [] end).

(** None of the calls panics; the tree of directories is finite; a directory
    has one entry of a name, and a file it lists is there. *)
Class SystemSpec (F : Type) `{System F} (lookup : F -> bytes -> option Z) : Prop := {
  canonicalize_safe p f : canonicalize p f <> Panic;
  absolute_safe p f : absolute p f <> Panic;
  read_dir_safe d f :
    safe (read_dir d f) (fun l => Forall (fun e => safe e (fun e => de_type e <> Panic)) l);
  directories_pos d f : (0 < directories d f)%nat;
  read_dir_finite d f l :
    read_dir d f = Ok l ->
    (S (sum_list_with (fun d' => directories d' f) (subdirectories d l)) <= directories d f)%nat;
  read_dir_names d f l : read_dir d f = Ok l -> NoDup (entry_names l);
  read_dir_file d f l name :
    read_dir d f = Ok l -> Ok {| de_name := name; de_type := Ok FtFile |} ∈ l ->
    is_Some (lookup f (render (join_name d name)))
}.

(** ** [BufWriter<File>] *)

(** [DEFAULT_BUF_SIZE] *)
Definition BUFFER_SIZE : Z := 8192.

Record BufWriter (F : Type) := { bw_inner : FileWriter F; bw_buf : bytes }.
Arguments bw_inner {F}. Arguments bw_buf {F}.

Definition buf_writer_new {F} (inner : FileWriter F) : BufWriter F := {| bw_inner := inner; bw_buf := [] |}.

Section BufWriter.
Context {F T : Type} `{FileSystem F T}.

Definition on_inner {A} (m : ST IoError (FileWriter F) A) : ST IoError (BufWriter F) A :=
  zoom bw_inner (fun i w => {| bw_inner := i; bw_buf := bw_buf w |}) m.

(** What could not be written stays in the buffer. *)
Definition flush_buf : ST IoError (BufWriter F) unit := fun w =>
  if bool_decide (bw_buf w = []) then (Ok tt, w)
  else
    let '(r, inner) := write_all (bw_buf w) (bw_inner w) in
    (r, {| bw_inner := inner;
           bw_buf := drop (Z.to_nat (fw_stands inner - fw_stands (bw_inner w))) (bw_buf w) |}).

Definition write_to_buffer (s : bytes) : ST IoError (BufWriter F) unit :=
  w ← get; put {| bw_inner := bw_inner w; bw_buf := bw_buf w ++ s |}.

Definition spare_capacity (w : BufWriter F) : Z := BUFFER_SIZE - len (bw_buf w).

Definition buf_write_all (s : bytes) : ST IoError (BufWriter F) unit :=
  w ← get;
  if len s <? spare_capacity w then write_to_buffer s
  else
    (if spare_capacity w <? len s then flush_buf else mret tt);;
    if BUFFER_SIZE <=? len s then on_inner (write_all s) else write_to_buffer s.

(** [flush] and, when the writer goes out of scope, [drop]. *)
Definition flush : ST IoError (BufWriter F) unit := flush_buf.
Definition drop_writer (w : BufWriter F) : FileWriter F := bw_inner (flush_buf w).2.

#[export] Instance buf_writer : WriteSeek (BufWriter F) := {
  write_all := buf_write_all;
  seek_end := flush_buf;; on_inner seek_end;
  seek_start p := flush_buf;; on_inner (seek_start p)
}.

Context {lookup : F -> bytes -> option Z} {data : F -> Z -> bytes} `{!FileSystemSpec lookup data}.

Abbreviation inner_contents := (fw_contents (data := data)).

(** The file as it will be, once the buffer is written. *)
Definition bw_contents (w : BufWriter F) : bytes :=
  if bool_decide (bw_buf w = []) then inner_contents (bw_inner w)
  else overwrite (inner_contents (bw_inner w)) (fw_stands (bw_inner w)) (bw_buf w).

Definition bw_stands (w : BufWriter F) : Z := fw_stands (bw_inner w) + len (bw_buf w).

Lemma bw_stands_nonneg w : 0 <= bw_stands w.
Proof. unfold bw_stands, fw_stands. pose proof (len_nonneg (bw_buf w)). lia. Qed.

Lemma flush_buf_spec w :
  ssafe flush_buf w
    (fun _ w' => bw_buf w' = [] /\ bw_contents w' = bw_contents w /\ bw_stands w' = bw_stands w)
    (fun _ => True).
Proof using All.
  unfold flush_buf, ssafe. destruct (bool_decide_reflect (bw_buf w = [])) as [He|Hne]; [done|].
  pose proof (write_all_spec (bw_buf w) (bw_inner w) (fun He => False_ind _ (Hne He))) as Hs. unfold ssafe in Hs.
  destruct (write_all (bw_buf w) (bw_inner w)) as [[[]|e|] inner]; [|done..]. destruct Hs as [Hc Hp].
  assert (Hd : fw_stands inner - fw_stands (bw_inner w) = len (bw_buf w)) by (rewrite Hp; lia).
  unfold bw_contents, bw_stands. cbn [bw_inner bw_buf].
  rewrite Hd, to_nat_len, drop_all, (bool_decide_false (bw_buf w = [])) by done.
  rewrite bool_decide_true by done. change (len []) with 0. split_and!; [done|done|]. rewrite Hp. lia.
Qed.

Lemma write_to_buffer_spec s w :
  (s = [] -> bw_stands w <= len (bw_contents w)) ->
  ssafe (write_to_buffer s) w
    (fun _ w' => bw_contents w' = overwrite (bw_contents w) (bw_stands w) s /\ bw_stands w' = bw_stands w + len s)
    (fun _ => True).
Proof using All.
  intros Hs. unfold write_to_buffer. apply ssafe_get_bind. unfold ssafe, put.
  split; [|unfold bw_stands; cbn [bw_inner bw_buf]; rewrite len_app; lia].
  unfold bw_contents at 1. cbn [bw_inner bw_buf].
  destruct (decide (s = [])) as [->|Hne].
  - rewrite app_nil_r. fold (bw_contents w). specialize (Hs eq_refl). unfold overwrite, len in *. cbn [length app].
    rewrite resize_le, Nat.add_0_r, take_drop by lia. done.
  - rewrite bool_decide_false by (intros [_ ?]%app_eq_nil; done). unfold bw_contents, bw_stands.
    destruct (bool_decide_reflect (bw_buf w = [])) as [->|Hb].
    + change (len []) with 0. by rewrite Z.add_0_r.
    + rewrite overwrite_overwrite; [done|]. unfold fw_stands. lia.
Qed.

#[export] Instance buf_writer_spec : WriteSeekSpec (BufWriter F) bw_contents bw_stands.
Proof using All.
  constructor.
  - intros s w Hs. cbn [write_all buf_writer]. unfold buf_write_all. apply ssafe_get_bind.
    destruct (Z.ltb_spec (len s) (spare_capacity w)) as [|Hcold]; [by apply write_to_buffer_spec|].
    eapply (ssafe_bind _ _ _ (fun _ w' => bw_contents w' = bw_contents w /\ bw_stands w' = bw_stands w /\
      (BUFFER_SIZE <= len s -> bw_buf w' = []))).
    { destruct (Z.ltb_spec (spare_capacity w) (len s)).
      - eapply ssafe_mono; [apply flush_buf_spec| |done]. by intros _ w' _ (? & ? & ?).
      - apply ssafe_ret. split_and!; [done|done|]. intros Hbig. apply len_0_nil. unfold spare_capacity in *.
        pose proof (len_nonneg (bw_buf w)). lia. }
    intros _ w1 _ (Hc & Hp & Hb). rewrite <- Hc, <- Hp in *.
    destruct (Z.leb_spec BUFFER_SIZE (len s)) as [Hbig|]; [|by apply write_to_buffer_spec].
    specialize (Hb Hbig). apply ssafe_zoom. eapply ssafe_mono; [apply write_all_spec| |done].
    { intros ->. by change (len []) with 0 in Hbig. }
    intros [] i _ [Hci Hpi]. unfold bw_contents, bw_stands. cbn [bw_inner bw_buf]. rewrite Hb. cbn.
    change (len []) with 0. by rewrite !Z.add_0_r.
  - intros w. cbn [seek_end buf_writer]. eapply ssafe_bind; [apply flush_buf_spec|].
    intros _ w1 _ (Hb & Hc & _). apply ssafe_zoom. eapply ssafe_mono; [apply seek_end_spec| |done].
    intros n i _ (-> & Hci & Hpi). rewrite <- Hc. unfold bw_contents, bw_stands. cbn [bw_inner bw_buf].
    rewrite Hb. cbn. change (len []) with 0. by rewrite Z.add_0_r.
  - intros p w Hp0. cbn [seek_start buf_writer]. eapply ssafe_bind; [apply flush_buf_spec|].
    intros _ w1 _ (Hb & Hc & _). apply ssafe_zoom. eapply ssafe_mono; [by apply seek_start_spec| |done].
    intros n i _ (-> & Hci & Hpi). rewrite <- Hc. unfold bw_contents, bw_stands. cbn [bw_inner bw_buf].
    rewrite Hb. cbn. change (len []) with 0. by rewrite Z.add_0_r.
Qed.

(** ** Nothing but the file is touched *)

Abbreviation inner_files := (other_files (lookup := lookup) (data := data)).

Lemma on_inner_framed {A} (m : ST IoError (FileWriter F) A) :
  framed inner_files m -> framed (via bw_inner inner_files) (on_inner m).
Proof using All. by apply framed_zoom. Qed.

Lemma flush_buf_framed : framed (via bw_inner inner_files) flush_buf.
Proof using All.
  intros w. unfold via, flush_buf. case_bool_decide; [cbn; reflexivity|].
  pose proof (framing_write (R := inner_files) (bw_buf w) (bw_inner w)) as Hw.
  by destruct (write_all _ _) as [r inner].
Qed.

#[local] Hint Resolve on_inner_framed flush_buf_framed : frame.

#[export] Instance buf_writer_framing : Framing (via bw_inner inner_files).
Proof using All.
  constructor; [apply _|..].
  - intros s. cbn [write_all buf_writer]. unfold buf_write_all, write_to_buffer.
    assert (Hput : forall s', framed (via bw_inner inner_files)
      (w ← get; put {| bw_inner := bw_inner w; bw_buf := bw_buf w ++ s' |} : ST IoError (BufWriter F) unit)).
    { intros s' w. unfold via. cbn. reflexivity. }
    frames.
  - cbn [seek_end buf_writer]. frames.
  - intros p. cbn [seek_start buf_writer]. frames.
Qed.
End BufWriter.
