(* ===== verification/Cli.v ===== *)
(** * The command line tool ([rasen-packer])

    [main.rs]: the commands and the packing options their arguments give;
    [commands.rs]: packing a directory, listing, verifying, describing and
    extracting.  The parsed arguments are taken as [clap] delivers them. *)
From Stdlib Require Import SpecFloat.
From S2P Require Export System Retarget.

(** [Box<dyn Error>] *)
Inductive CliError :=
  | CliIo (e : IoError)
  | CliCore (e : Error)
  | CliStripPrefix.

(** ** [main.rs] *)

Definition DEFAULT_KEY : bytes := lit "example-key".

Inductive Mode := ModeDebug | ModeProduction.
Inductive ProtectionArg := ArgXor | ArgAead.

(** [impl From<Mode> for PackMode], [impl From<ProtectionArg> for Protection] *)
Definition mode_into (value : Mode) : PackMode :=
  match value with ModeDebug => Debug | ModeProduction => Production end.
Definition protection_into (value : ProtectionArg) : Protection :=
  match value with ArgXor => Xor | ArgAead => Aead end.

Record PackArgs := {
  pa_input_dir : bytes;
  pa_archive : bytes;
  pa_mode : Mode;
  pa_protection : ProtectionArg;
  pa_chunk_kib : option Z;
  pa_alignment : option Z
}.

Inductive Command :=
  | Pack (args : PackArgs)
  | ListEntries (archive : bytes)
  | Verify (archive : bytes)
  | Info (archive : bytes)
  | Extract (archive virtual_path output : bytes).

Definition invalid_arg (message : bytes) : IoError := {| io_kind := InvalidInput; io_message := message |}.

Definition pack_args_options (self : PackArgs) : IoRes PackOptions :=
  chunk_size ← match pa_chunk_kib self with
               | Some chunk_kib =>
                   ok_or (checked_mul USIZE_MAX chunk_kib 1024) (invalid_arg (lit "chunk size overflow"))
               | None => mret (po_chunk_size default_options)
               end;
  let alignment := match pa_alignment self with
                   | Some alignment => alignment
                   | None => po_alignment default_options
                   end in
  mret {| po_chunk_size := chunk_size; po_alignment := alignment;
          po_mode := mode_into (pa_mode self); po_protection := protection_into (pa_protection self) |}.

(** ** Text *)

(** [x as f64 / y as f64] *)
Definition f64_of (v : Z) : spec_float := binary_normalize 53 1024 v 0 false.
Definition f64_div (x y : Z) : spec_float := SFdiv 53 1024 (f64_of x) (f64_of y).

(** [v / d] rounded to an integer, ties to even. *)
Definition round_even (v d : Z) : Z :=
  let q := v / d in
  match Z.compare (2 * (v mod d)) d with
  | Lt => q
  | Gt => q + 1
  | Eq => if Z.even q then q else q + 1
  end.

(** [{x:.n}] of a number that is not negative. *)
Definition fmt_fixed (n : nat) (x : spec_float) : bytes :=
  let places := 10 ^ Z.of_nat n in
  let digits (v : Z) :=
    let frac := fmt_dec (v mod places) in
    fmt_dec (v / places) ++ lit "." ++ replicate (n - length frac) x30 ++ frac in
  match x with
  | S754_finite _ m e =>
      digits (if 0 <=? e then Z.pos m * 2 ^ e * places else round_even (Z.pos m * places) (2 ^ (- e)))
  | S754_zero _ => digits 0
  | S754_infinity _ => lit "inf"
  | S754_nan => lit "NaN"
  end.

(** [{s:<n}] *)
Definition pad_right (n : nat) (s : bytes) : bytes := s ++ replicate (n - length s) x20.

Definition ratio (original stored : Z) : spec_float :=
  if original =? 0 then f64_of 1 else f64_div stored original.

Definition newline : bytes := [x0a].

(** ** The tool's surroundings *)

Record Session (F : Type) := {
  se_files : F;
  se_stdout : bytes;
  se_stderr : bytes;
  se_nonces : nat;
  se_pid : Z;
  (** The clock: nanoseconds since the epoch, 0 before it. *)
  se_nanos : Z
}.
Arguments se_files {F}. Arguments se_stdout {F}. Arguments se_stderr {F}. Arguments se_nonces {F}.
Arguments se_pid {F}. Arguments se_nanos {F}.

(** [sort_unstable_by] on the first component, as bytes: the order of equal
    keys is the library's choice. *)
Fixpoint bytes_leb (a b : bytes) : bool :=
  match a, b with
  | [], _ => true
  | _ :: _, [] => false
  | x :: a, y :: b =>
      if byte_val x <? byte_val y then true
      else if byte_val y <? byte_val x then false
      else bytes_leb a b
  end.

Definition path_le {A} (x y : bytes * A) : Prop := bytes_leb x.1 y.1 = true.

Record PathSort := {
  sort_files : list (bytes * PathBuf) -> list (bytes * PathBuf);
  sort_files_permutation l : sort_files l ≡ₚ l;
  sort_files_sorted l : StronglySorted path_le (sort_files l)
}.

Section Commands.
Context {C : Crates} {F T : Type} `{FileSystem F T} `{!System F} `{Read T} `{!ReadFinite T}
  (sort : PathSort).

Abbreviation Cmd := (ST CliError (Session F)).

Definition with_files (f : F) (n : nat) (s : Session F) : Session F := {|
  se_files := f; se_stdout := se_stdout s; se_stderr := se_stderr s; se_nonces := n;
  se_pid := se_pid s; se_nanos := se_nanos s |}.

(** A call of the system that changes its files, and one that only looks. *)
Definition on_system {A} (m : ST IoError F A) : Cmd A :=
  st_map_err CliIo (zoom se_files (fun f s => with_files f (se_nonces s) s) m).
Definition looks {A} (r : F -> IoRes A) : Cmd A := fun s => (map_err CliIo (r (se_files s)), s).

Definition core {A} (r : Res A) : Cmd A := lift (map_err CliCore r).
Definition io {A} (r : IoRes A) : Cmd A := lift (map_err CliIo r).

(** [println!], [eprintln!] *)
Definition println (line : bytes) : Cmd unit :=
  s ← get;
  put {| se_files := se_files s; se_stdout := se_stdout s ++ line ++ newline; se_stderr := se_stderr s;
         se_nonces := se_nonces s; se_pid := se_pid s; se_nanos := se_nanos s |}.
Definition eprintln (line : bytes) : Cmd unit :=
  s ← get;
  put {| se_files := se_files s; se_stdout := se_stdout s; se_stderr := se_stderr s ++ line ++ newline;
         se_nonces := se_nonces s; se_pid := se_pid s; se_nanos := se_nanos s |}.

(** ** Packing a directory *)

Definition normalized_output_path (output : bytes) : Cmd PathBuf :=
  absolute ← looks (absolute output);
  name ← io (ok_or (file_name absolute) (invalid_arg (lit "output has no file name")));
  parent ← io (ok_or (parent absolute) (invalid_arg (lit "output has no parent directory")));
  parent ← looks (canonicalize (render parent));
  mret (join_name parent name).

Definition existing_path (output : PathBuf) : Cmd (option PathBuf) := fun s =>
  match canonicalize (render output) (se_files s) with
  | Ok path => (Ok (Some path), s)
  | Err error =>
      if bool_decide (io_kind error = NotFoundKind) then (Ok None, s) else (Err (CliIo error), s)
  | Panic => (Panic, s)
  end.

(** The body of the loop over a directory's entries: the files found and the
    directories still to visit, the next one first. *)
Definition collect_entry (root output : PathBuf) (existing_output : option PathBuf) (dir : PathBuf)
    (entry : IoRes DirEntry) (found : list (bytes * PathBuf) * list PathBuf) :
    Result CliError (list (bytes * PathBuf) * list PathBuf) :=
  let '(files, pending) := found in
  entry ← map_err CliIo entry;
  file_type ← map_err CliIo (de_type entry);
  let disk_path := join_name dir (de_name entry) in
  let excluded := bool_decide (disk_path = output) || bool_decide (existing_output = Some disk_path) in
  match is_dir file_type, is_file file_type, excluded with
  | true, _, _ => mret (files, disk_path :: pending)
  | false, true, false =>
      relative ← ok_or (path_strip_prefix disk_path root) CliStripPrefix;
      path ← (if utf8_valid (render relative) then mret (render relative)
              else Err (CliIo (invalid_arg (lit "input path is not valid UTF-8: " ++ display relative))));
      normalized ← map_err CliCore (normalize_path path);
      mret (files ++ [(normalized, disk_path)], pending)
  | _, _, _ => mret (files, pending)
  end.

Fixpoint collect_entries (root output : PathBuf) (existing_output : option PathBuf) (dir : PathBuf)
    (entries : list (IoRes DirEntry)) (found : list (bytes * PathBuf) * list PathBuf) :
    Result CliError (list (bytes * PathBuf) * list PathBuf) :=
  match entries with
  | [] => mret found
  | entry :: entries =>
      found ← collect_entry root output existing_output dir entry found;
      collect_entries root output existing_output dir entries found
  end.

(** The loop: [while let Some(dir) = pending.pop()]. *)
Fixpoint collect_pending (fuel : nat) (root output : PathBuf) (existing_output : option PathBuf) (f : F)
    (files : list (bytes * PathBuf)) (pending : list PathBuf) : Result CliError (list (bytes * PathBuf)) :=
  match pending with
  | [] => mret files
  | dir :: pending =>
      match fuel with
      | O => Panic
      | S fuel =>
          entries ← map_err CliIo (read_dir dir f);
          '(files, pending) ← collect_entries root output existing_output dir entries (files, pending);
          collect_pending fuel root output existing_output f files pending
      end
  end.

Definition collect_files (root output : PathBuf) (existing_output : option PathBuf) :
    Cmd (list (bytes * PathBuf)) := fun s =>
  (collect_pending (directories root (se_files s)) root output existing_output (se_files s) [] [root], s).

(** [format!(".tmp.{}.{stamp:x}.{attempt}", process::id())] *)
Definition temp_name (name : bytes) (pid stamp attempt : Z) : bytes :=
  name ++ lit ".tmp." ++ fmt_dec pid ++ lit "." ++ fmt_hex 1 stamp ++ lit "." ++ fmt_dec attempt.

(** [for attempt in 0..128] *)
Fixpoint create_temp_loop (n : nat) (parent : PathBuf) (name : bytes) (stamp attempt : Z) :
    Cmd (PathBuf * Z) := fun s =>
  match n with
  | O => (Err (CliIo (io_new AlreadyExists "could not allocate temporary output name")), s)
  | S n =>
      let path := join_name parent (temp_name name (se_pid s) stamp attempt) in
      let '(r, f) := fs_create_new (render path) (se_files s) in
      let s := with_files f (se_nonces s) s in
      match r with
      | Ok file => (Ok (path, file), s)
      | Err error =>
          if bool_decide (io_kind error = AlreadyExists)
          then create_temp_loop n parent name stamp (attempt + 1) s
          else (Err (CliIo error), s)
      | Panic => (Panic, s)
      end
  end.

Definition create_temp (output : PathBuf) : Cmd (PathBuf * Z) :=
  parent ← io (ok_or (parent output) (invalid_arg (lit "output has no parent directory")));
  file_name ← io (ok_or (file_name output) (invalid_arg (lit "output has no file name")));
  s ← get;
  create_temp_loop 128 parent file_name (se_nanos s) 0.

(** *** Writing the archive: the state is the writer and the nonces drawn *)

Abbreviation Sources := (PackState (BufWriter F)).

Definition on_sources {A} (m : ST IoError F A) : ST CliError Sources A :=
  st_map_err CliIo
    (zoom (fun s => fw_files (bw_inner (ps_writer s)))
       (fun f s =>
          let inner := bw_inner (ps_writer s) in
          {| ps_writer := {| bw_inner := {| fw_files := f; fw_file := fw_file inner; fw_pos := fw_pos inner |};
                             bw_buf := bw_buf (ps_writer s) |};
             ps_nonces := ps_nonces s; ps_self := ps_self s |}) m).

(** [packer.add_reader(virtual_path, &mut source)?] *)
Definition add_opened (virtual_path : bytes) (source : OpenFile T) : ST CliError Sources unit := fun s =>
  let '(r, (s, _)) := add_reader virtual_path (s, of_stream source) in (map_err CliCore r, s).

Definition add_source (virtual_path : bytes) (disk_path : PathBuf) : ST CliError Sources unit :=
  source ← on_sources (fs_open (render disk_path));
  add_opened virtual_path source.

Fixpoint add_sources (files : list (bytes * PathBuf)) : ST CliError Sources unit :=
  match files with
  | [] => mret tt
  | (virtual_path, disk_path) :: files =>
      add_source virtual_path disk_path;;
      add_sources files
  end.

(** From [Packer::new] to [finish]. *)
Definition pack_sources (files : list (bytes * PathBuf)) (key : bytes) (options : PackOptions) :
    ST CliError (BufWriter F * nat) PackSummary := fun '(writer, nonces) =>
  match new key options writer with
  | (Ok packer, writer) =>
      let '(r, s) := (add_sources files;; st_map_err CliCore finish)
                       {| ps_writer := writer; ps_nonces := nonces; ps_self := packer |} in
      (r, (ps_writer s, ps_nonces s))
  | (Err e, writer) => (Err (CliCore e), (writer, nonces))
  | (Panic, writer) => (Panic, (writer, nonces))
  end.

(** [writer.get_ref().sync_all()] *)
Definition sync_all : ST IoError (BufWriter F) unit := fun w =>
  let '(r, f) := fs_sync_all (fw_file (bw_inner w)) (fw_files (bw_inner w)) in
  (r, {| bw_inner := {| fw_files := f; fw_file := fw_file (bw_inner w); fw_pos := fw_pos (bw_inner w) |};
         bw_buf := bw_buf w |}).

(** With a writer over the temporary file, which is dropped in the end. *)
Definition with_writer {A} (file : Z) (m : ST CliError (BufWriter F * nat) A) : Cmd A := fun s =>
  let '(r, (writer, nonces)) :=
    m (buf_writer_new {| fw_files := se_files s; fw_file := file; fw_pos := 0 |}, se_nonces s) in
  (r, with_files (fw_files (drop_writer writer)) nonces s).

Definition write_archive (files : list (bytes * PathBuf)) (temp_path : PathBuf) (temp_file : Z)
    (output : PathBuf) (options : PackOptions) (key : bytes) : Cmd PackSummary :=
  summary ← with_writer temp_file (
    summary ← pack_sources files key options;
    on_fst (st_map_err CliIo flush);;
    on_fst (st_map_err CliIo sync_all);;
    mret summary);
  on_system (fs_rename (render temp_path) (render output));;
  mret summary.

(** The [match] on a failed result. *)
Definition remove_temp (temp_path : PathBuf) : Cmd unit := fun s =>
  let '(r, f) := fs_remove_file (render temp_path) (se_files s) in
  let s := with_files f (se_nonces s) s in
  match r with
  | Err cleanup =>
      if bool_decide (io_kind cleanup <> NotFoundKind)
      then eprintln (lit "warning: could not remove temporary file " ++ display temp_path ++ lit ": "
                       ++ io_message cleanup) s
      else (Ok tt, s)
  | _ => (Ok tt, s)
  end.

Definition or_remove {A} (temp_path : PathBuf) (m : Cmd A) : Cmd A := fun s =>
  match m s with
  | (Err error, s) => (remove_temp temp_path;; lift (Err error)) s
  | other => other
  end.

Definition packed_line (summary : PackSummary) (output : PathBuf) (options : PackOptions) : bytes :=
  lit "packed " ++ fmt_dec (entry_count summary) ++ lit " files, " ++ fmt_dec (chunk_total summary)
    ++ lit " chunks, " ++ fmt_dec (archive_len summary) ++ lit " bytes -> " ++ display output
    ++ lit " (mode=" ++ mode_to_string (po_mode options)
    ++ lit ", protection=" ++ protection_to_string (po_protection options)
    ++ lit ", chunk=" ++ fmt_dec (po_chunk_size options / 1024)
    ++ lit " KiB, align=" ++ fmt_dec (po_alignment options) ++ lit ")".

Definition pack_dir (root output : bytes) (options : PackOptions) (key : bytes) : Cmd unit :=
  root ← looks (canonicalize root);
  output ← normalized_output_path output;
  existing_output ← existing_path output;
  files ← collect_files root output existing_output;
  let files := sort_files sort files in
  '(temp_path, temp_file) ← create_temp output;
  summary ← or_remove temp_path (write_archive files temp_path temp_file output options key);
  println (packed_line summary output options).

(** ** The commands that read an archive *)

Definition open_file (path : bytes) : Cmd File :=
  file ← on_system (fs_open path);
  mret (of_file file).

Definition open_path (path key : bytes) : Cmd (Archive File) :=
  file ← open_file path;
  core (open_with_limits file key tooling_default).

Definition entry_line (stripped : bool) (entry : Entry) : bytes :=
  let shown := if stripped then [] else path entry in
  fmt_hex 16 (path_hash entry) ++ lit "  chunks=" ++ pad_right 4 (fmt_dec (chunk_count entry))
    ++ lit " stored=" ++ pad_right 10 (fmt_dec (stored_size entry))
    ++ lit " original=" ++ pad_right 10 (fmt_dec (original_size entry))
    ++ lit " ratio=" ++ fmt_fixed 3 (ratio (original_size entry) (stored_size entry)) ++ lit "  " ++ shown.

Fixpoint print_entries (stripped : bool) (entries : list Entry) : Cmd unit :=
  match entries with
  | [] => mret tt
  | entry :: entries =>
      println (entry_line stripped entry);;
      print_entries stripped entries
  end.

Definition mode_text (stripped : bool) : bytes := if stripped then lit "production" else lit "debug".

Definition list_archive (path key : bytes) : Cmd unit :=
  archive ← open_path path key;
  println (lit "mode=" ++ mode_text (ar_paths_stripped archive)
    ++ lit ", protection=" ++ protection_to_string (ar_protection archive)
    ++ lit ", chunk=" ++ fmt_dec (ar_chunk_size archive)
    ++ lit " bytes, alignment=" ++ fmt_dec (ar_alignment archive) ++ lit " bytes" ++ newline);;
  print_entries (ar_paths_stripped archive) (ar_entries archive).

(** The totals of the entries. *)
Fixpoint total (what : string) (field : Entry -> Z) (entries : list Entry) (sum : Z) : IoRes Z :=
  match entries with
  | [] => mret sum
  | entry :: entries =>
      sum ← ok_or (checked_add U64_MAX sum (field entry)) (invalid_arg (lit what));
      total what field entries sum
  end.

Definition verify_archive (path key : bytes) : Cmd unit :=
  archive ← open_path path key;
  core (Reader.verify archive);;
  chunk_count ← io (total "chunk count overflow" chunk_count (ar_entries archive) 0);
  println (lit "verified " ++ fmt_dec (len (ar_entries archive)) ++ lit " entries, "
    ++ fmt_dec chunk_count ++ lit " chunks").

(** The three sums of one pass. *)
Record Totals := { t_chunks : Z; t_original : Z; t_stored : Z }.

Definition add_totals (t : Totals) (entry : Entry) : IoRes Totals :=
  chunks ← ok_or (checked_add U64_MAX (t_chunks t) (chunk_count entry))
             (invalid_arg (lit "chunk count overflow"));
  original ← ok_or (checked_add U64_MAX (t_original t) (original_size entry))
               (invalid_arg (lit "original byte count overflow"));
  stored ← ok_or (checked_add U64_MAX (t_stored t) (stored_size entry))
             (invalid_arg (lit "stored byte count overflow"));
  mret {| t_chunks := chunks; t_original := original; t_stored := stored |}.

Fixpoint totals (entries : list Entry) (t : Totals) : IoRes Totals :=
  match entries with
  | [] => mret t
  | entry :: entries =>
      t ← add_totals t entry;
      totals entries t
  end.

Definition bool_text (b : bool) : bytes := if b then lit "true" else lit "false".

Definition info_archive (path key : bytes) : Cmd unit :=
  file ← open_file path;
  archive_size ← io (file_metadata_len file);
  archive ← core (open_with_limits file key tooling_default);
  t ← io (totals (ar_entries archive) {| t_chunks := 0; t_original := 0; t_stored := 0 |});
  println (lit "format_version=" ++ fmt_dec VERSION);;
  println (lit "mode=" ++ mode_text (ar_paths_stripped archive));;
  println (lit "archive_bytes=" ++ fmt_dec archive_size);;
  println (lit "entry_count=" ++ fmt_dec (len (ar_entries archive)));;
  println (lit "chunk_count=" ++ fmt_dec (t_chunks t));;
  println (lit "chunk_size=" ++ fmt_dec (ar_chunk_size archive));;
  println (lit "alignment=" ++ fmt_dec (ar_alignment archive));;
  println (lit "original_bytes=" ++ fmt_dec (t_original t));;
  println (lit "stored_bytes=" ++ fmt_dec (t_stored t));;
  println (lit "compression_ratio=" ++ fmt_fixed 6 (ratio (t_original t) (t_stored t)));;
  println (lit "paths_stripped=" ++ bool_text (ar_paths_stripped archive));;
  println (lit "protection=" ++ protection_to_string (ar_protection archive)).

Definition extract_one (archive_path virtual_path output key : bytes) : Cmd unit :=
  archive ← open_path archive_path key;
  data ← core (Reader.read archive virtual_path);
  on_system (fs_write output data).

(** ** [main] *)

Definition main (key : bytes) (command : Command) : Cmd unit :=
  match command with
  | Pack args =>
      options ← io (pack_args_options args);
      pack_dir (pa_input_dir args) (pa_archive args) options key
  | ListEntries archive => list_archive archive key
  | Verify archive => verify_archive archive key
  | Info archive => info_archive archive key
  | Extract archive virtual_path output => extract_one archive virtual_path output key
  end.
End Commands.

Example ratio_examples :
  fmt_fixed 3 (ratio 3 1) = lit "0.333" /\ fmt_fixed 6 (ratio 7 22) = lit "3.142857" /\
  fmt_fixed 3 (ratio 0 5) = lit "1.000" /\ fmt_fixed 3 (ratio 16 1) = lit "0.062" /\
  fmt_fixed 3 (ratio 1 18446744073709551615) = lit "18446744073709551616.000".
Proof. vm_compute. by split_and!. Qed.
