(* ===== verification/CliCollect.v ===== *)
(** * The command line tool: collecting the files of a directory

    [collect_files] ends, visits the whole tree, and finds each file of it
    once, under the normal form of its path below the root; it succeeds exactly
    on the trees that can be read to the end. *)
From S2P Require Export Cli.

Section Collect.
Context {C : Crates} {F : Type} {lookup : F -> bytes -> option Z} `{SystemSpec F lookup}.
Context (f : F) (root output : PathBuf) (existing_output : option PathBuf).

(** The files at or below a directory. *)
Inductive tree_file : PathBuf -> PathBuf -> Prop :=
  | tf_here dir l name :
      read_dir dir f = Ok l -> Ok {| de_name := name; de_type := Ok FtFile |} ∈ l ->
      tree_file dir (join_name dir name)
  | tf_below dir l name p :
      read_dir dir f = Ok l -> Ok {| de_name := name; de_type := Ok FtDir |} ∈ l ->
      tree_file (join_name dir name) p -> tree_file dir p.

Definition excluded (p : PathBuf) : Prop := p = output \/ existing_output = Some p.

(** The virtual path of a file. *)
Definition virtual_path (p : PathBuf) (q : bytes) : Prop :=
  exists relative, p = root ++ relative /\ utf8_valid (render relative) = true /\
    normalize_path (render relative) = Ok q.

Definition wanted (x : bytes * PathBuf) : Prop := ~ excluded x.2 /\ virtual_path x.2 x.1.

(** An entry the tool can take: a file that is not the output has a virtual
    path. *)
Definition usable (dir : PathBuf) (e : IoRes DirEntry) : Prop :=
  exists entry t, e = Ok entry /\ de_type entry = Ok t /\
    (t = FtFile -> excluded (join_name dir (de_name entry)) \/
       exists q, virtual_path (join_name dir (de_name entry)) q).

(** Directories that can be read, down to their last entry. *)
Inductive readable : PathBuf -> Prop :=
  | readable_dir dir l :
      read_dir dir f = Ok l -> Forall (usable dir) l -> (forall d, d ∈ subdirectories dir l -> readable d) ->
      readable dir.

(** ** One directory *)

(** What an entry adds: the directories and the files. *)
Definition entry_adds (dir : PathBuf) (e : IoRes DirEntry) (ds : list PathBuf) (fs : list (bytes * PathBuf)) :
    Prop :=
  exists entry t, e = Ok entry /\ de_type entry = Ok t /\
    match t with
    | FtDir => ds = [join_name dir (de_name entry)] /\ fs = []
    | FtFile => ds = [] /\
        ((excluded (join_name dir (de_name entry)) /\ fs = []) \/
         exists q, wanted (q, join_name dir (de_name entry)) /\ fs = [(q, join_name dir (de_name entry))])
    | FtOther => ds = [] /\ fs = []
    end.

(** The error of a listing, of a type, or of a path. *)
Lemma usable_Ok dir e t P :
  de_type e = Ok t -> (P <-> (t = FtFile -> excluded (join_name dir (de_name e)) \/
    exists q, virtual_path (join_name dir (de_name e)) q)) -> (usable dir (Ok e) <-> P).
Proof.
  intros Ht ->. split; [|by exists e, t]. intros (e' & t' & [= <-] & Ht' & Hu).
  rewrite Ht in Ht'. by injection Ht' as <-.
Qed.

Lemma virtual_path_below relative q :
  virtual_path (root ++ relative) q <-> utf8_valid (render relative) = true /\ normalize_path (render relative) = Ok q.
Proof.
  split; [|by exists relative]. intros (r & Hr & Hu & Hn). apply app_inv_head in Hr as <-. done.
Qed.

Lemma collect_entry_spec dir e files pending :
  safe e (fun e => de_type e <> Panic) ->
  decides (collect_entry root output existing_output dir e (files, pending)) (usable dir e)
    (fun found => exists ds fs, found = (files ++ fs, ds ++ pending) /\ entry_adds dir e ds fs).
Proof.
  intros He. unfold collect_entry. destruct e as [e|e|]; [|by intros (?&?&?&_)|done]. cbn in He.
  cbn [map_err mbind result_bind]. destruct (de_type e) as [t|e'|] eqn:Ht; [|intros (?&?&[= <-]&?&_); congruence|done].
  cbn [map_err mbind result_bind]. set (p := join_name dir (de_name e)).
  assert (Hx : reflect (excluded p) (bool_decide (p = output) || bool_decide (existing_output = Some p))).
  { unfold excluded. destruct (bool_decide_reflect (p = output)), (bool_decide_reflect (existing_output = Some p));
      constructor; tauto. }
  assert (Hadd : forall ds fs files', files' = files ++ fs -> entry_adds dir (Ok e) ds fs -> usable dir (Ok e) ->
    decides (mret (files', ds ++ pending) : Result CliError _) (usable dir (Ok e)) (fun found => exists ds fs,
      found = (files ++ fs, ds ++ pending) /\ entry_adds dir (Ok e) ds fs)).
  { intros ds fs files' -> Ha Hu. apply decides_ret; [done|]. by exists ds, fs. }
  pose proof (usable_Ok dir e t) as Hok. fold p in Hok. destruct t; cbn [is_dir is_file].
  - apply (Hadd [p] []); [by rewrite app_nil_r|by exists e, FtDir|]. by apply (Hok True).
  - destruct Hx as [Hx|Hx].
    + apply (Hadd [] []); [by rewrite app_nil_r| |by apply (Hok True); [done|split; [by left|done]|done]].
      exists e, FtFile. split_and!; [done|done|done|]. by left.
    + assert (Hu : usable dir (Ok e) <-> exists q, virtual_path p q).
      { apply Hok; [done|]. split; [by right|]. by intros [?|?]. }
      destruct (path_strip_prefix p root) as [relative|] eqn:Hr; cbn.
      2:{ rewrite Hu. intros (q & relative & Hp & _). by apply path_strip_prefix_Some in Hp as Hp'; congruence. }
      apply path_strip_prefix_Some in Hr. rewrite Hr in Hu. setoid_rewrite virtual_path_below in Hu.
      destruct (utf8_valid (render relative)) eqn:Hv; cbn; [|rewrite Hu; by intros (? & ? & _)].
      pose proof (normalize_path_np (render relative)) as Hnp.
      destruct (normalize_path (render relative)) as [q|e'|] eqn:Hn; [|cbn; rewrite Hu; by intros (? & _ & ?)|done].
      apply (Hadd [] [(q, p)]); [done| |by rewrite Hu; exists q].
      exists e, FtFile. split_and!; [done|done|done|]. right. exists q.
      split; [|done]. split; [done|]. by exists relative.
  - apply (Hadd [] []); [by rewrite app_nil_r|by exists e, FtOther|]. by apply (Hok True).
Qed.

Lemma collect_entries_spec dir entries files pending :
  Forall (fun e => safe e (fun e => de_type e <> Panic)) entries ->
  decides (collect_entries root output existing_output dir entries (files, pending)) (Forall (usable dir) entries)
    (fun found => exists adds, Forall2 (fun e a => entry_adds dir e a.1 a.2) entries adds /\
       found.1 = files ++ (adds ≫= snd) /\ found.2 ≡ₚ (adds ≫= fst) ++ pending).
Proof.
  intros Hf. revert files pending. induction Hf as [|e entries He Hf IH]; intros files pending; cbn [collect_entries].
  { apply decides_ret; [done|]. exists []. cbn. by rewrite app_nil_r. }
  rewrite Forall_cons. eapply decides_bind; [by apply collect_entry_spec|].
  intros found _ _ (ds & fs & -> & Ha).
  eapply decides_iff; [apply IH|done|]. intros found _ _ (adds & Hall & H1 & H2). exists ((ds, fs) :: adds).
  split_and!; [by constructor| |].
  - rewrite H1. cbn. by rewrite app_assoc.
  - rewrite H2. cbn. by rewrite app_assoc, (Permutation_app_comm (adds ≫= fst) ds).
Qed.

(** Every entry of a listing was looked at. *)
Lemma adds_of dir entries adds e :
  Forall2 (fun e a => entry_adds dir e a.1 a.2) entries adds -> e ∈ entries ->
  exists ds fs, entry_adds dir e ds fs /\ ds ⊆ (adds ≫= fst) /\ fs ⊆ (adds ≫= snd).
Proof.
  intros Hall. induction Hall as [|e' [ds fs] entries adds Ha Hall IH]; [by intros ?%not_elem_of_nil|].
  intros [->|Hin]%elem_of_cons; [exists ds, fs|destruct (IH Hin) as (ds' & fs' & ? & ? & ?); exists ds', fs'];
    (split; [done|]); cbn; set_solver.
Qed.

Lemma added_dirs dir entries adds d :
  Forall2 (fun e a => entry_adds dir e a.1 a.2) entries adds -> d ∈ adds ≫= fst ->
  exists name, d = join_name dir name /\ Ok {| de_name := name; de_type := Ok FtDir |} ∈ entries.
Proof.
  intros Hall. induction Hall as [|e [ds fs] entries adds Ha Hall IH]; cbn; [by intros ?%not_elem_of_nil|].
  intros [Hd|Hd]%elem_of_app; [|destruct (IH Hd) as (n & ? & ?); exists n; split; [done|by right]].
  destruct Ha as ([n t'] & t & -> & Ht & Hk). cbn in *. subst t'. destruct t, Hk as [-> _]; set_solver.
Qed.

Lemma added_files dir entries adds x :
  Forall2 (fun e a => entry_adds dir e a.1 a.2) entries adds -> x ∈ adds ≫= snd ->
  exists name, x.2 = join_name dir name /\ wanted x /\ Ok {| de_name := name; de_type := Ok FtFile |} ∈ entries.
Proof.
  intros Hall. induction Hall as [|e [ds fs] entries adds Ha Hall IH]; cbn; [by intros ?%not_elem_of_nil|].
  intros [Hd|Hd]%elem_of_app; [|destruct (IH Hd) as (n & ? & ? & ?); exists n; split_and!; [done..|by right]].
  destruct Ha as ([n t'] & t & -> & Ht & Hk). cbn in *. subst t'. destruct t, Hk as [_ Hk]; [set_solver| |set_solver].
  destruct Hk as [[_ ->]|(q & Hw & ->)]; [set_solver|]. apply list_elem_of_singleton in Hd as ->. exists n. set_solver.
Qed.

(** What is added are entries of the directory, each once. *)
Lemma adds_names dir entries adds :
  Forall2 (fun e a => entry_adds dir e a.1 a.2) entries adds ->
  (adds ≫= snd).*2 ++ (adds ≫= fst) ⊆+ join_name dir <$> entry_names entries.
Proof.
  intros Hall. induction Hall as [|e [ds fs] entries adds Ha Hall IH]; [done|].
  destruct Ha as (e' & t & -> & Ht & Hk). cbn [fst snd] in Hk. cbn. rewrite fmap_app.
  assert (Hone : fs.*2 ++ ds ⊆+ [join_name dir (de_name e')]).
  { destruct t, Hk as [-> Hk]; [by rewrite Hk| |by rewrite Hk; apply submseteq_nil_l].
    destruct Hk as [[_ ->]|(q & _ & ->)]; [apply submseteq_nil_l|done]. }
  rewrite <- (app_assoc fs.*2), (app_assoc _ ds), (Permutation_app_comm _ ds), <- app_assoc, app_assoc.
  by apply (submseteq_app _ _ _ _ Hone IH).
Qed.
End Collect.

(** ** Paths none of which lies below another *)

Definition below (a b : PathBuf) : Prop := a `prefix_of` b.
Definition separate (a b : PathBuf) : Prop := ~ below a b /\ ~ below b a.

Fixpoint apart (l : list PathBuf) : Prop :=
  match l with
  | [] => True
  | p :: l => Forall (separate p) l /\ apart l
  end.

Lemma separate_sym a b : separate a b -> separate b a.
Proof. by intros []. Qed.

#[export] Instance apart_proper : Proper ((≡ₚ) ==> iff) apart.
Proof.
  intros l l' Hp. induction Hp as [|p l l' Hp IH|p q l|l1 l2 l3 _ IH1 _ IH2]; [done| | |by rewrite IH1].
  - cbn. rewrite IH, !Forall_forall. by setoid_rewrite Hp.
  - cbn. rewrite !Forall_cons. pose proof (separate_sym p q). pose proof (separate_sym q p). tauto.
Qed.

Lemma apart_app l k : apart (l ++ k) <-> apart l /\ apart k /\ forall p q, p ∈ l -> q ∈ k -> separate p q.
Proof.
  induction l as [|p l IH]; cbn.
  { split; [|tauto]. intros Hk. split_and!; [done..|]. by intros p q ?%not_elem_of_nil. }
  rewrite Forall_app, IH, !Forall_forall. split.
  - intros [[? ?] (? & ? & ?)]. split_and!; [done..|]. intros a b [->|Ha]%elem_of_cons; auto.
  - intros ([? ?] & ? & Hpq). split_and!; try done; intros; apply Hpq; set_solver.
Qed.

Lemma apart_submseteq l k : l ⊆+ k -> apart k -> apart l.
Proof. intros [m ->]%submseteq_Permutation Hk. by apply apart_app in Hk as []. Qed.

Lemma below_join a dir n : below a (join_name dir n) -> below a dir \/ a = join_name dir n.
Proof.
  unfold below, join_name. intros [r Hr]. destruct r as [|c r _] using rev_ind.
  - right. by rewrite app_nil_r in Hr.
  - left. rewrite app_assoc in Hr. apply app_inj_tail in Hr as [-> _]. by exists r.
Qed.

Lemma join_below dir n a : below (join_name dir n) a -> below dir a.
Proof. intros Hb. etrans; [|exact Hb]. by exists [Normal n]. Qed.

(** The entries of a directory in its place. *)
Lemma apart_children dir names l :
  apart (dir :: l) -> NoDup names -> apart ((join_name dir <$> names) ++ l).
Proof.
  intros [Hs Hl] Hn. apply apart_app. split_and!; [|done|].
  - induction Hn as [|n names Hnew Hn IH]; cbn; [done|]. split; [|done].
    apply Forall_forall. intros q (m & -> & Hm)%list_elem_of_fmap.
    assert (Hne : n <> m) by (by intros ->). split; unfold below, join_name; intros [r Hr];
      rewrite <- app_assoc in Hr; apply app_inv_head in Hr; destruct r; cbn in Hr; congruence.
  - intros p q (n & -> & _)%list_elem_of_fmap Hq. rewrite Forall_forall in Hs. destruct (Hs q Hq) as [H1 H2].
    split; [by intros ?%join_below|]. intros [?| ->]%below_join; [done|]. apply H1. by exists [Normal n].
Qed.

Lemma apart_NoDup l : apart l -> NoDup l.
Proof.
  induction l as [|p l IH]; cbn; [constructor|]. intros [Hs Hl]. constructor; [|by apply IH].
  intros Hp. rewrite Forall_forall in Hs. by destruct (Hs p Hp) as [[] _].
Qed.

(** ** The loop *)

Section Loop.
Context {C : Crates} {F : Type} {lookup : F -> bytes -> option Z} `{SystemSpec F lookup}.
Context (f : F) (root output : PathBuf) (existing_output : option PathBuf).
Abbreviation tree := (tree_file f).
Abbreviation left_out := (excluded output existing_output).
Abbreviation chosen := (wanted root output existing_output).

Lemma tree_below dir p : tree dir p -> below dir p.
Proof.
  induction 1 as [dir l n _ _|dir l n p _ _ _ IH]; [by exists [Normal n]|]. by eapply join_below.
Qed.

(** What the directories [pending] still give. *)
Record collected (pending : list PathBuf) (more : list (bytes * PathBuf)) : Prop := {
  co_sound x : x ∈ more -> chosen x /\ exists dir, dir ∈ pending /\ tree dir x.2;
  co_complete dir p : dir ∈ pending -> tree dir p -> ~ left_out p -> exists q, (q, p) ∈ more;
  co_once : apart pending -> NoDup more.*2
}.

Lemma collected_proper p1 p2 more : p1 ≡ₚ p2 -> collected p1 more -> collected p2 more.
Proof.
  intros Hp [H1 H2 H3]. constructor.
  - intros x Hx. destruct (H1 x Hx) as (? & dir & Hd & ?). split; [done|]. exists dir. by rewrite <- Hp.
  - intros dir p. rewrite <- Hp. apply H2.
  - by rewrite <- Hp.
Qed.

Lemma adds_dirs dir entries adds :
  Forall2 (fun e a => entry_adds root output existing_output dir e a.1 a.2) entries adds ->
  adds ≫= fst = subdirectories dir entries.
Proof.
  intros Hall. induction Hall as [|e [ds fs] entries adds (e' & t & -> & Ht & Hk) Hall IH]; [done|].
  cbn in *. rewrite IH, Ht. destruct t; by destruct Hk as [-> _].
Qed.

(** One directory visited, its directories and the others left. *)
Lemma collected_step dir l pending adds more :
  read_dir dir f = Ok l ->
  Forall2 (fun e a => entry_adds root output existing_output dir e a.1 a.2) l adds ->
  collected ((adds ≫= fst) ++ pending) more -> collected (dir :: pending) ((adds ≫= snd) ++ more).
Proof.
  intros Hl Ha [H1 H2 H3]. constructor.
  - intros x [Hx|Hx]%elem_of_app.
    + destruct (added_files _ _ _ _ _ _ _ Ha Hx) as (n & Hp & Hw & Hin). split; [done|]. exists dir.
      split; [by left|]. rewrite Hp. by eapply tf_here.
    + destruct (H1 x Hx) as (Hw & d & [Hd|Hd]%elem_of_app & Ht); split; try done.
      * destruct (added_dirs _ _ _ _ _ _ _ Ha Hd) as (n & -> & Hin). exists dir. split; [by left|].
        by eapply tf_below.
      * exists d. split; [by right|done].
  - intros d p [->|Hd]%elem_of_cons Ht Hx; setoid_rewrite elem_of_app.
    + inversion Ht as [? l' n Hl' Hin|? l' n ? Hl' Hin Hbelow]; subst; rewrite Hl in Hl'; injection Hl' as <-;
        destruct (adds_of _ _ _ _ _ _ _ Ha Hin) as (ds & fs & (e & t & [= <-] & [= <-] & Hk) & Hds & Hfs).
      * destruct Hk as [_ [[? _]|(q & _ & ->)]]; [done|]. exists q. left. apply Hfs. by left.
      * destruct Hk as [-> _]. destruct (H2 (join_name dir n) p) as [q Hq]; [|done|done|by exists q; right].
        apply elem_of_app. left. apply Hds. by left.
    + destruct (H2 d p) as [q Hq]; [|done|done|by exists q; right]. apply elem_of_app. by right.
  - intros Hap. assert (Hch : apart (((adds ≫= snd).*2 ++ (adds ≫= fst)) ++ pending)).
    { eapply apart_submseteq; [|by apply (apart_children dir (entry_names l)), (read_dir_names dir f)].
      by apply submseteq_app; [eapply adds_names|]. }
    rewrite <- app_assoc in Hch. apply apart_app in Hch as (Hf & Hrest & Hsep). rewrite fmap_app.
    apply NoDup_app. split_and!; [by apply apart_NoDup| |by apply H3].
    intros p Hp (x & -> & Hx)%list_elem_of_fmap. destruct (H1 x Hx) as (_ & d & Hd & Ht).
    destruct (Hsep x.2 d Hp Hd) as [_ Hn]. by apply Hn, tree_below.
Qed.

Lemma readable_iff dir l :
  read_dir dir f = Ok l ->
  readable f root output existing_output dir <->
    Forall (usable root output existing_output dir) l /\
    Forall (readable f root output existing_output) (subdirectories dir l).
Proof.
  intros Hl. rewrite (Forall_forall (readable _ _ _ _)). split; [|by intros []; econstructor]. intros Hr.
  destruct Hr as [dir l' Hl' Hu Hs]. rewrite Hl in Hl'. by injection Hl' as <-.
Qed.

Lemma collect_pending_spec fuel files pending :
  (sum_list_with (fun d => directories d f) pending <= fuel)%nat ->
  decides (collect_pending fuel root output existing_output f files pending)
    (Forall (readable f root output existing_output) pending)
    (fun all => exists more, all = files ++ more /\ collected pending more).
Proof.
  revert files pending. induction fuel as [|fuel IH]; intros files [|dir pending] Hfuel; cbn [collect_pending].
  1, 3: apply decides_ret; [constructor|]; exists []; rewrite app_nil_r; split; [done|]; constructor;
    [by intros x ?%not_elem_of_nil|by intros d p ?%not_elem_of_nil|constructor].
  - cbn in Hfuel. pose proof (directories_pos dir f). lia.
  - pose proof (read_dir_safe dir f) as Hrd. rewrite Forall_cons.
    destruct (read_dir dir f) as [l|e|] eqn:Hl; [|intros [Hr _]; inversion Hr; congruence|done].
    cbn [map_err mbind result_bind]. change (Forall (fun e => safe e (fun e => de_type e <> Panic)) l) in Hrd. rewrite (readable_iff dir l Hl).
    rewrite <- (assoc and), <- Forall_app. eapply decides_bind; [by apply collect_entries_spec|].
    intros [files' pending'] _ _ (adds & Ha & Hf & Hp).
    cbn [fst snd] in *. pose proof (read_dir_finite dir f l Hl) as Hfin. subst files'.
    rewrite (adds_dirs _ _ _ Ha) in Hp. eapply decides_iff; [apply IH| |].
    + rewrite Hp, sum_list_with_app. cbn in Hfuel. lia.
    + by rewrite Hp.
    + intros all _ _ (more & -> & Hm). exists ((adds ≫= snd) ++ more). rewrite app_assoc. split; [done|].
      eapply collected_step; [done|done|]. rewrite (adds_dirs _ _ _ Ha). by eapply collected_proper.
Qed.
End Loop.
