(* ===== verification/CliPack.v ===== *)
(** * The command line tool: packing a directory

    What [pack_dir] leaves on every outcome: a failure touches no file that was
    there; a success puts the archive of the collected files at the output
    path. *)
From S2P Require Export CliCollect.

Section Writing.
Context {C : Crates} {F T : Type} `{FileSystem F T} `{!System F} `{Read T} `{!ReadFinite T}
  `{!CompressSpec C} `{!AeadSpec C} `{!HashSpec C}
  {lookup : F -> bytes -> option Z} {data : F -> Z -> bytes}
  `{!FileSystemSpec lookup data} `{!FileStreamSpec lookup data}.

Abbreviation contents := (bw_contents (data := data)).
Abbreviation inv := (PackInv (C := C) contents bw_stands).

(** The files [g] are [f], but for the content of the file [i]. *)
Definition besides (i : Z) (f g : F) : Prop :=
  (forall p, lookup g p = lookup f p) /\ (forall j, j <> i -> data g j = data f j).

Lemma besides_refl i f : besides i f f.
Proof. done. Qed.

Lemma besides_trans i f g h : besides i f g -> besides i g h -> besides i f h.
Proof. intros [H1 H2] [H3 H4]. split; intros; [by rewrite H3|by rewrite H4, H2]. Qed.

Lemma same_besides i f g : same_files lookup data f g -> besides i f g.
Proof. intros [H1 H2]. by split. Qed.

(** The writer stands over the file [i] of [f]. *)
Definition over (i : Z) (f : F) (w : BufWriter F) : Prop :=
  fw_file (bw_inner w) = i /\ besides i f (fw_files (bw_inner w)).

Lemma over_framed i f w w' :
  over i f w -> via bw_inner (other_files (lookup := lookup) (data := data)) w w' -> over i f w'.
Proof.
  intros [Hi Hb] (H1 & H2 & H3). split; [congruence|]. subst i.
  eapply besides_trans; [exact Hb|]. by split.
Qed.

(** ** One source *)

(** A file that was opened: the packer's view of its destination is the
    same. *)
Lemma on_sources_open i f p (s : PackState (BufWriter F)) assets :
  over i f (ps_writer s) -> inv s assets ->
  ssafe (on_sources (fs_open p)) s
    (fun h s' => over i f (ps_writer s') /\ inv s' assets /\ ps_self s' = ps_self s /\
       exists j, lookup f p = Some j /\ (j <> i -> rest (of_stream h) = data f j))
    (fun s' => over i f (ps_writer s')).
Proof using All.
  intros [Hi Hb] Hinv. pose proof (fs_open_spec lookup data p (fw_files (bw_inner (ps_writer s)))) as Hs.
  unfold ssafe, on_sources, st_map_err, zoom in *.
  destruct (fs_open p _) as [[h|e|] g] eqn:E; cbn; [| |done].
  - destruct Hs as (Hsame & j & Hj & _). split.
    { split; [done|]. cbn. eapply besides_trans; [exact Hb|by apply same_besides]. }
    split.
    { destruct Hinv as ((He & Ho & Hu) & Hf & pieces & Hci & Hai).
      assert (Hc : forall w : BufWriter F, bw_buf w = bw_buf (ps_writer s) ->
        fw_file (bw_inner w) = fw_file (bw_inner (ps_writer s)) -> fw_pos (bw_inner w) = fw_pos (bw_inner (ps_writer s)) ->
        fw_files (bw_inner w) = g -> contents w = contents (ps_writer s)).
      { intros w H1 H2 H3 H4. unfold bw_contents, fw_contents, fw_stands.
        rewrite H1, H2, H3, H4. by rewrite (proj2 Hsame). }
      split_and!; [|done|exists pieces; cbn; by rewrite Hc].
      unfold Appending, at_end in *. cbn. rewrite Hc by done. by split_and!. }
    split; [done|]. exists j. rewrite (proj1 Hb) in Hj. split; [done|]. intros Hne.
    rewrite <- (proj2 Hb j Hne). eapply (fs_open_stream lookup data p); [exact E|]. by rewrite (proj1 Hb).
  - split; [done|]. cbn. eapply besides_trans; [exact Hb|by apply same_besides].
Qed.

Definition source_of (f : F) (x : bytes * PathBuf) (a : InputFile) : Prop :=
  if_path a = x.1 /\ exists j, lookup f (render x.2) = Some j /\ if_data a = data f j.

Lemma add_opened_spec i f q h (s : PackState (BufWriter F)) assets :
  over i f (ps_writer s) -> inv s assets -> utf8_valid q = true ->
  ssafe (add_opened q h) s
    (fun _ s' => over i f (ps_writer s') /\ pk_options (ps_self s') = pk_options (ps_self s) /\
       pk_key (ps_self s') = pk_key (ps_self s) /\
       exists n, normalize_path q = Ok n /\ inv s' (assets ++ [(n, rest (of_stream h))]))
    (fun s' => over i f (ps_writer s')).
Proof using All.
  intros Hov Hinv Hu. pose proof (fs_stream_holds lookup data) as Hst.
  pose proof (add_reader_safe (contents := contents) (position := bw_stands) q s (of_stream h) assets Hinv Hu) as Hs.
  pose proof (add_reader_framed (via bw_inner (other_files (lookup := lookup) (data := data))) q (s, of_stream h)) as Hfr.
  unfold ssafe, add_opened in *. destruct (add_reader q (s, of_stream h)) as [[[]|e|] [s' r']]; [| |done].
  - destruct Hs as (n & Hn & Hi & Ho & Hk). split; [by eapply over_framed|]. split_and!; [done|done|]. by exists n.
  - by eapply over_framed.
Qed.

(** ** All sources *)

Definition packer_of (o : PackOptions) (key : bytes) (s : PackState (BufWriter F)) : Prop :=
  pk_options (ps_self s) = o /\ pk_key (ps_self s) = key.

Lemma add_source_spec i f o key x a (s : PackState (BufWriter F)) assets :
  over i f (ps_writer s) -> inv s assets -> packer_of o key s ->
  source_of f x a -> lookup f (render x.2) <> Some i -> utf8_valid x.1 = true ->
  ssafe (add_source x.1 x.2) s
    (fun _ s' => over i f (ps_writer s') /\ packer_of o key s' /\
       exists n, normalize_path (if_path a) = Ok n /\ inv s' (assets ++ [(n, if_data a)]))
    (fun s' => over i f (ps_writer s')).
Proof using All.
  intros Hov Hinv [Ho Hk] (Hp & j & Hj & Hd) Hi Hu. unfold add_source.
  eapply ssafe_bind; [by apply (on_sources_open i f)|]. intros h s1 _ (Hov1 & Hinv1 & Hself & j' & Hj' & Hrest).
  assert (j' = j) as -> by congruence.
  eapply ssafe_mono; [by apply (add_opened_spec i f x.1 h s1 assets)| |done].
  intros [] s2 _ (Hov2 & Ho2 & Hk2 & n & Hn & Hinv2). rewrite Hrest in Hinv2 by congruence. rewrite <- Hd in Hinv2.
  split; [done|]. split; [split; congruence|]. exists n. by rewrite Hp.
Qed.

Lemma add_sources_spec i f o key files l (s : PackState (BufWriter F)) assets :
  over i f (ps_writer s) -> inv s assets -> packer_of o key s ->
  Forall2 (source_of f) files l ->
  Forall (fun x => lookup f (render x.2) <> Some i /\ utf8_valid x.1 = true) files ->
  ssafe (add_sources files) s
    (fun _ s' => over i f (ps_writer s') /\ packer_of o key s' /\
       exists more, files_assets l more /\ inv s' (assets ++ more))
    (fun s' => over i f (ps_writer s')).
Proof using All.
  intros Hov Hinv Hp Hl. revert s assets Hov Hinv Hp.
  induction Hl as [|[q p] a files l Ha Hl IH]; intros s assets Hov Hinv Hp Hf; cbn [add_sources].
  { apply ssafe_ret. split_and!; [done..|apply Hp|]. exists []. rewrite app_nil_r. split; [constructor|done]. }
  apply Forall_cons in Hf as [[Hi Hu] Hf].
  eapply ssafe_bind; [by apply (add_source_spec i f o key (q, p) a s assets)|].
  intros [] s1 _ (Hov1 & Hp1 & n & Hn & Hinv1). eapply ssafe_mono; [by apply IH| |done].
  intros [] s2 _ (Hov2 & Hp2 & more & Hm & Hinv2). rewrite <- app_assoc in Hinv2.
  split; [done|]. split; [done|]. exists ((n, if_data a) :: more). split; [by constructor|done].
Qed.

Lemma pack_sources_spec i f files l key o (w : BufWriter F) n :
  options_in_range o -> over i f w -> Forall2 (source_of f) files l ->
  Forall (fun x => lookup f (render x.2) <> Some i /\ utf8_valid x.1 = true) files ->
  ssafe (pack_sources files key o) (w, n)
    (fun sum t => over i f t.1 /\ contents w = [] /\ archive_of l key o sum (contents t.1))
    (fun t => over i f t.1).
Proof using All.
  intros Hr Hov Hl Hf. unfold pack_sources.
  pose proof (new_safe (contents := contents) (position := bw_stands) key o w Hr) as Hn.
  pose proof (new_framed (via bw_inner (other_files (lookup := lookup) (data := data))) key o w) as Hfr.
  unfold ssafe in Hn |- *. destruct (new key o w) as [[p|e|] w1]; [| |done].
  2:{ exact (over_framed _ _ _ _ Hov Hfr). }
  destruct Hn as (Hempty & Ho & Hk & Hinv). cbn [snd] in Hfr. cbv beta iota.
  set (s0 := {| ps_writer := w1; ps_nonces := n; ps_self := p |}).
  assert (Hs : ssafe (add_sources files;; st_map_err CliCore finish) s0
    (fun sum s' => over i f (ps_writer s') /\ archive_of l key o sum (contents (ps_writer s')))
    (fun s' => over i f (ps_writer s'))).
  { eapply ssafe_bind.
    - apply (add_sources_spec i f o key files l s0 []); [exact (over_framed _ _ _ _ Hov Hfr)|apply Hinv|done..].
    - intros [] s1 _ (Hov1 & [Ho1 Hk1] & assets & Ha & Hinv1). apply ssafe_map_err.
      pose proof (finish_safe s1 assets Hinv1) as Hfin.
      pose proof (finish_framed (via bw_inner (other_files (lookup := lookup) (data := data))) s1) as Hff.
      unfold ssafe in *. destruct (finish s1) as [[sum|e|] s2]; [|exact (over_framed _ _ _ _ Hov1 Hff)|done].
      split; [exact (over_framed _ _ _ _ Hov1 Hff)|]. destruct Hfin as (h & es & cs & pieces & Hp & Hsum).
      rewrite Ho1, Hk1 in Hp. by exists assets, h, es, cs, pieces. }
  unfold ssafe in Hs. destruct ((add_sources files;; _) s0) as [[sum|e|] s1]; [|done..].
  cbn. split_and!; [apply Hs|done|apply Hs].
Qed.
End Writing.

(** ** The temporary file *)

(** A call on the writer, with the nonces beside it. *)
Lemma on_fst_safe {E E' S T A} (g : E -> E') (m : ST E S A) (x : S) (y : T) (Q : A -> S -> Prop) X :
  ssafe m x Q X ->
  ssafe (on_fst (st_map_err g m)) (x, y) (fun a t => Q a t.1) (fun t => X t.1).
Proof. intros Hm. by apply ssafe_zoom, ssafe_map_err. Qed.

Section Temporary.
Context {C : Crates} {F T : Type} `{FileSystem F T} `{!System F} `{Read T} `{!ReadFinite T}
  `{!CompressSpec C} `{!AeadSpec C} `{!HashSpec C}
  {lookup : F -> bytes -> option Z} {data : F -> Z -> bytes}
  `{!FileSystemSpec lookup data} `{!FileStreamSpec lookup data}.

Abbreviation contents := (bw_contents (data := data)).
Abbreviation over_ := (over (lookup := lookup) (data := data)).
Abbreviation besides_ := (besides (lookup := lookup) (data := data)).

(** Nothing but the files and the nonces changed. *)
Definition quiet (s s' : Session F) : Prop := s' = with_files (se_files s') (se_nonces s') s.

Lemma flush_over i f (w : BufWriter F) :
  over_ i f w ->
  ssafe flush w (fun _ w' => over_ i f w' /\ bw_buf w' = [] /\ contents w' = contents w) (over_ i f).
Proof using All.
  intros Hov. unfold flush. pose proof (flush_buf_spec (lookup := lookup) (data := data) w) as Hs.
  pose proof (flush_buf_framed (lookup := lookup) (data := data) w) as Hf.
  unfold ssafe in *. destruct (flush_buf w) as [[[]|e|] w']; [| |done].
  - split_and!; [exact (over_framed _ _ _ _ Hov Hf)|apply Hs|apply Hs].
  - exact (over_framed _ _ _ _ Hov Hf).
Qed.

Lemma sync_over i f (w : BufWriter F) :
  over_ i f w ->
  ssafe sync_all w (fun _ w' => over_ i f w' /\ bw_buf w' = bw_buf w /\ contents w' = contents w) (over_ i f).
Proof using All.
  intros [Hi Hb]. unfold ssafe, sync_all.
  pose proof (fs_sync_all_spec lookup data (fw_file (bw_inner w)) (fw_files (bw_inner w))) as Hs.
  unfold ssafe in Hs. destruct (fs_sync_all _ _) as [[[]|e|] g]; cbn; [| |done].
  - split; [split; [done|eapply besides_trans; [exact Hb|by apply same_besides]]|]. split; [done|].
    unfold bw_contents, fw_contents. cbn. by rewrite (proj2 Hs).
  - split; [done|]. eapply besides_trans; [exact Hb|by apply same_besides].
Qed.

(** A writer that is dropped: what its buffer still held goes to its file. *)
Lemma drop_over i f (w : BufWriter F) : over_ i f w -> besides_ i f (fw_files (drop_writer w)).
Proof using All.
  intros Hov. unfold drop_writer. pose proof (flush_buf_framed (lookup := lookup) (data := data) w) as Hf.
  apply (over_framed _ _ _ _ Hov Hf).
Qed.

Lemma written i files l key o (s : Session F) :
  options_in_range o -> Forall2 (source_of (lookup := lookup) (data := data) (se_files s)) files l ->
  Forall (fun x => lookup (se_files s) (render x.2) <> Some i /\ utf8_valid x.1 = true) files ->
  ssafe (with_writer i (
      summary ← pack_sources files key o;
      on_fst (st_map_err CliIo flush);;
      on_fst (st_map_err CliIo sync_all);;
      mret summary)) s
    (fun sum s' => quiet s s' /\ besides_ i (se_files s) (se_files s') /\ data (se_files s) i = [] /\
       archive_of l key o sum (data (se_files s') i))
    (fun s' => quiet s s' /\ besides_ i (se_files s) (se_files s')).
Proof using All.
  intros Hr Hl Hf. unfold with_writer.
  set (w0 := buf_writer_new {| fw_files := se_files s; fw_file := i; fw_pos := 0 |}).
  assert (Hov : over_ i (se_files s) w0) by done.
  set (m := pack_sources files key o ≫= _).
  assert (Hm : ssafe m (w0, se_nonces s)
    (fun sum t => over_ i (se_files s) t.1 /\ bw_buf t.1 = [] /\ contents w0 = [] /\
       archive_of l key o sum (contents t.1)) (fun t => over_ i (se_files s) t.1)).
  { eapply ssafe_bind; [by apply pack_sources_spec|]. intros sum [w1 n1] _ (Hov1 & He & Ha).
    eapply ssafe_bind; [by eapply on_fst_safe, (flush_over i (se_files s))|].
    intros _ [w2 n2] _ (Hov2 & Hb2 & Hc2). cbn [fst] in *.
    eapply ssafe_bind; [by eapply on_fst_safe, (sync_over i (se_files s))|].
    intros _ [w3 n3] _ (Hov3 & Hb3 & Hc3). cbn [fst] in *. apply ssafe_ret. cbn [fst].
    split_and!; [done|congruence|done|]. by rewrite Hc3, Hc2. }
  unfold ssafe in Hm |- *. cbv beta. fold w0. destruct (m (w0, se_nonces s)) as [[sum|e|] [w n]]; [| |done].
  - destruct Hm as (Hov' & Hb & He & Ha). split; [done|]. split; [by apply drop_over|].
    cbn. unfold drop_writer, flush_buf. rewrite bool_decide_true by done.
    unfold bw_contents in Ha. cbn [fst] in Ha. rewrite bool_decide_true in Ha by done.
    destruct Hov' as [<- _]. split; [|exact Ha]. exact He.
  - split; [done|]. by apply drop_over.
Qed.
End Temporary.

(** ** The steps of [pack_dir] *)

Section Steps.
Context {C : Crates} {F T : Type} `{FileSystem F T} `{!System F} `{Read T} `{!ReadFinite T}
  `{!CompressSpec C} `{!AeadSpec C} `{!HashSpec C}
  {lookup : F -> bytes -> option Z} {data : F -> Z -> bytes}
  `{!FileSystemSpec lookup data} `{!FileStreamSpec lookup data}.

(** A new file of the system, under a name that was free. *)
Record fresh_file (path : bytes) (i : Z) (f g : F) : Prop := {
  ff_free : lookup f path = None;
  ff_new p : lookup f p <> Some i;
  ff_there : lookup g path = Some i;
  ff_only : only_file lookup data i f g
}.

Lemma create_temp_loop_spec n parent name stamp attempt (s : Session F) :
  ssafe (create_temp_loop n parent name stamp attempt) s
    (fun t s' => quiet s s' /\ fresh_file (render t.1) t.2 (se_files s) (se_files s'))
    (fun s' => quiet s s' /\ same_files lookup data (se_files s) (se_files s')).
Proof using All.
  revert attempt s. induction n as [|n IH]; intros attempt s; [by destruct s|].
  unfold ssafe. cbn [create_temp_loop]. set (path := join_name parent _).
  pose proof (fs_create_new_spec lookup data (render path) (se_files s)) as Hs. unfold ssafe in Hs.
  destruct (fs_create_new (render path) (se_files s)) as [[i|e|] g]; [| |done].
  - split; [done|]. destruct Hs as (Hc1 & Hc2 & Hc3 & _ & Hc4). by constructor.
  - case_bool_decide; [|by split].
    pose proof (IH (attempt + 1) (with_files g (se_nonces s) s)) as Hl. unfold ssafe in Hl.
    destruct (create_temp_loop n parent name stamp (attempt + 1) _) as [[t|e'|] s']; [| |done]; cbn in Hl.
    + destruct Hl as [Hq [Hc1 Hc2 Hc3 Hc4]]. split; [exact Hq|]. destruct Hs as [Hn Hd]. constructor; try done.
      * by rewrite <- Hn.
      * intros p. rewrite <- Hn. apply Hc2.
      * destruct Hc4 as (Hc5 & Hc6 & Hc7). split_and!; [intros p j; rewrite <- Hn; apply Hc5| |].
        -- intros j Hj. by rewrite Hc6, Hd.
        -- intros p j. rewrite <- Hn. apply Hc7.
    + destruct Hl as [Hq Hl]. split; [exact Hq|]. by eapply same_files_trans.
Qed.

Lemma io_ok_or {A B} (o : option A) e (f : A -> ST CliError (Session F) B) s Q (X : Session F -> Prop) :
  X s -> (forall a, o = Some a -> ssafe (f a) s Q X) -> ssafe (io (ok_or o e) ≫= f) s Q X.
Proof. intros HX Hf. destruct o as [a|]; [by apply (Hf a)|done]. Qed.

Lemma create_temp_spec output (s : Session F) :
  ssafe (create_temp output) s
    (fun t s' => quiet s s' /\ fresh_file (render t.1) t.2 (se_files s) (se_files s'))
    (fun s' => quiet s s' /\ same_files lookup data (se_files s) (se_files s')).
Proof using All.
  unfold create_temp. apply io_ok_or; [by destruct s|]. intros p _. apply io_ok_or; [by destruct s|].
  intros n _. apply ssafe_get_bind, create_temp_loop_spec.
Qed.

(** The new file is in place, and every other file too, but for the one whose
    place it took. *)
Record placed (i : Z) (output : bytes) (f g : F) : Prop := {
  pl_at : lookup g output = Some i;
  pl_data j : j <> i -> data g j = data f j;
  pl_names p j : lookup f p = Some j -> j <> i -> lookup f output <> Some j -> lookup g p = Some j
}.

Lemma write_archive_spec files l temp i output o key (s : Session F) :
  options_in_range o -> Forall2 (source_of (lookup := lookup) (data := data) (se_files s)) files l ->
  Forall (fun x => lookup (se_files s) (render x.2) <> Some i /\ utf8_valid x.1 = true) files ->
  lookup (se_files s) (render temp) = Some i ->
  ssafe (write_archive files temp i output o key) s
    (fun sum s' => quiet s s' /\ placed i (render output) (se_files s) (se_files s') /\
       archive_of l key o sum (data (se_files s') i))
    (fun s' => quiet s s' /\ besides (lookup := lookup) (data := data) i (se_files s) (se_files s')).
Proof using All.
  intros Hr Hl Hf Ht. unfold write_archive. eapply ssafe_bind; [by apply written|].
  intros sum s1 _ (Hq1 & [Hn1 Hd1] & _ & Ha).
  pose proof (fs_rename_spec lookup data (render temp) (render output) (se_files s1)) as Hs.
  unfold ssafe, mbind, st_bind, on_system, st_map_err, zoom in *.
  destruct (fs_rename _ _ _) as [[[]|e|] g]; cbn; [| |done].
  - destruct Hs as (Hd & i' & Hi' & Hout & _ & Hkept). assert (i' = i) as -> by (rewrite Hn1 in Hi'; congruence).
    split; [by rewrite Hq1|]. split; [|by rewrite Hd]. constructor; [done| |].
    + intros j Hj. by rewrite Hd, Hd1.
    + intros p j Hp Hj Ho. apply Hkept; [by rewrite Hn1|done|by rewrite Hn1].
  - destruct Hs as [Hc1 Hc2]. split; [by rewrite Hq1|]. split; [intros p; by rewrite Hc1|].
    intros j Hj. by rewrite Hc2, Hd1.
Qed.

(** Removing the temporary file keeps the others. *)
Lemma remove_temp_spec path i f (s : Session F) :
  fresh_file (render path) i f (se_files s) ->
  exists s', remove_temp path s = (Ok tt, s') /\ se_stdout s' = se_stdout s /\
    files_kept lookup data f (se_files s').
Proof using All.
  intros [Hc1 Hc2 Hc3 Hc4]. pose proof (only_file_kept _ _ _ _ _ Hc2 Hc4) as Hk. unfold remove_temp.
  pose proof (fs_remove_file_spec lookup data (render path) (se_files s)) as Hs. unfold ssafe in Hs.
  destruct (fs_remove_file (render path) (se_files s)) as [[[]|e|] g]; [| |done].
  - eexists. split; [reflexivity|]. split; [done|]. destruct Hs as (Hd & _ & _ & Hkept).
    intros p j Hp. destruct (Hk p j Hp) as [Hp' Hj']. cbn. rewrite Hd. split; [|done].
    apply Hkept; [done|]. rewrite Hc3. intros [= ->]. by apply (Hc2 p).
  - assert (Hsame : files_kept lookup data f g).
    { destruct Hs as [Hn Hd]. intros p j Hp. rewrite Hn, Hd. by apply Hk. }
    case_bool_decide; eexists; (split; [reflexivity|]); by split.
Qed.
End Steps.

(** ** The whole command *)

Section PackDir.
Context {C : Crates} {F T : Type} {HFS : FileSystem F T} {HSys : System F} {HRead : Read T} {HFin : ReadFinite T}
  `{!CompressSpec C} `{!AeadSpec C} `{!HashSpec C}
  {lookup : F -> bytes -> option Z} {data : F -> Z -> bytes}
  `{!FileSystemSpec lookup data} `{!FileStreamSpec lookup data} `{!SystemSpec F lookup}.

Lemma tree_file_exists f dir p : tree_file f dir p -> is_Some (lookup f (render p)).
Proof using All. induction 1; [by eapply read_dir_file|done]. Qed.

(** The inputs of the packer that a list of files gives. *)
Definition inputs_of (f : F) (files : list (bytes * PathBuf)) : list InputFile :=
  (fun x => {| if_path := x.1; if_data := data f (default 0 (lookup f (render x.2))) |}) <$> files.

Lemma inputs_of_sources f files :
  Forall (fun x => is_Some (lookup f (render x.2))) files ->
  Forall2 (source_of (lookup := lookup) (data := data) f) files (inputs_of f files).
Proof.
  intros Hf. induction Hf as [|x files [j Hj] Hf IH]; cbn; constructor; [|done].
  split; [done|]. exists j. cbn. by rewrite Hj.
Qed.

(** A new file is none of the sources, which are what they were. *)
Lemma sources_kept path i f g files l :
  fresh_file (lookup := lookup) (data := data) path i f g ->
  Forall2 (source_of (lookup := lookup) (data := data) f) files l ->
  Forall2 (source_of (lookup := lookup) (data := data) g) files l /\
  Forall (fun x => lookup g (render x.2) <> Some i) files.
Proof.
  intros [_ Hnew _ Ho] Hl. pose proof (only_file_kept _ _ _ _ _ Hnew Ho) as Hk.
  induction Hl as [|x a files l (Hp & j & Hj & Hd) Hl [IH1 IH2]]; [by split; constructor|].
  destruct (Hk _ _ Hj) as [Hj' Hd']. split; constructor; try done.
  - split; [done|]. exists j. by rewrite Hd'.
  - rewrite Hj'. intros [= ->]. by apply (Hnew (render x.2)).
Qed.

(** The part of the command before a file is written. *)
Record PackInputs (root output : bytes) (s : Session F) (root' output' : PathBuf)
    (existing : option PathBuf) (files : list (bytes * PathBuf)) : Prop := {
  pi_root : canonicalize root (se_files s) = Ok root';
  pi_output : normalized_output_path output s = (Ok output', s);
  pi_existing : existing_path output' s = (Ok existing, s);
  pi_files q p : (q, p) ∈ files -> virtual_path root' p q;
  pi_all p : (exists q, (q, p) ∈ files) <-> tree_file (se_files s) root' p /\ ~ excluded output' existing p;
  pi_once : NoDup files.*2;
  pi_sorted : StronglySorted path_le files
}.

Lemma collected_inputs (sort : PathSort) root output s root' output' existing files :
  canonicalize root (se_files s) = Ok root' -> normalized_output_path output s = (Ok output', s) ->
  existing_path output' s = (Ok existing, s) ->
  collected (se_files s) root' output' existing [root'] files ->
  PackInputs root output s root' output' existing (sort_files sort files).
Proof using All.
  intros Hr Hout Hex [Hs Hc Ho]. pose proof (sort_files_permutation sort files) as Hp. constructor; [done..| | | |].
  - intros q p Hin. rewrite Hp in Hin. apply (Hs (q, p) Hin).
  - intros p. setoid_rewrite Hp. split.
    + intros [q Hin]. destruct (Hs (q, p) Hin) as ([Hx _] & dir & Hd & Ht).
      apply list_elem_of_singleton in Hd as ->. by split.
    + intros [Ht Hx]. apply (Hc root'); [by left|done..].
  - rewrite Hp. apply Ho. by repeat constructor.
  - apply sort_files_sorted.
Qed.

Lemma looks_safe {A B} (r : F -> IoRes A) (g : A -> ST CliError (Session F) B) (s : Session F) Q (X : Session F -> Prop) :
  r (se_files s) <> Panic -> X s -> (forall a, r (se_files s) = Ok a -> ssafe (g a) s Q X) ->
  ssafe (looks r ≫= g) s Q X.
Proof.
  intros Hr HX Hg. unfold ssafe, looks, mbind, st_bind. destruct (r (se_files s)) as [a|e|]; [by apply Hg|done..].
Qed.

Lemma output_path_safe output (s : Session F) X :
  X s -> ssafe (normalized_output_path output) s (fun p s' => s' = s) X.
Proof using All.
  intros HX. unfold normalized_output_path. apply looks_safe; [apply (absolute_safe _ _)|done|]. intros a _.
  apply io_ok_or; [done|]. intros n _. apply io_ok_or; [done|]. intros p _.
  apply looks_safe; [apply (canonicalize_safe _ _)|done|]. intros q _. by apply ssafe_ret.
Qed.

Lemma existing_path_safe output (s : Session F) (X : Session F -> Prop) :
  X s -> ssafe (existing_path output) s (fun p s' => s' = s) X.
Proof using All.
  intros HX. unfold ssafe, existing_path. pose proof (canonicalize_safe (render output) (se_files s)) as Hc.
  destruct (canonicalize _ _) as [p|e|]; [done| |done]. by case_bool_decide.
Qed.

Lemma collect_files_safe root output existing (s : Session F) (X : Session F -> Prop) :
  X s -> ssafe (collect_files root output existing) s
    (fun files s' => s' = s /\ collected (se_files s) root output existing [root] files) X.
Proof using All.
  intros HX. unfold ssafe, collect_files.
  pose proof (collect_pending_spec (se_files s) root output existing (directories root (se_files s)) [] [root]) as Hs.
  cbn [sum_list_with] in Hs. rewrite Nat.add_0_r in Hs. specialize (Hs (le_n _)). unfold decides in Hs.
  destruct (collect_pending _ _ _ _ _ _ _) as [files|e|]; [|done..]. by destruct Hs as (_ & more & -> & Hm).
Qed.

Lemma PackInputs_sources root output s root' output' existing files :
  PackInputs root output s root' output' existing files ->
  Forall2 (source_of (lookup := lookup) (data := data) (se_files s)) files (inputs_of (se_files s) files) /\
  Forall (fun x => utf8_valid x.1 = true) files.
Proof using All.
  intros Hp. split.
  - apply inputs_of_sources, Forall_forall. intros [q p] Hin. eapply tree_file_exists, (pi_all _ _ _ _ _ _ _ Hp p).
    by exists q.
  - apply Forall_forall. intros [q p] Hin. destruct (pi_files _ _ _ _ _ _ _ Hp q p Hin) as (rel & _ & Hu & Hn).
    by eapply normalize_utf8.
Qed.

(** From the temporary file to the end. *)
Lemma pack_into_place root output s root' output' existing files options key temp i s1 :
  options_in_range options -> PackInputs root output s root' output' existing files ->
  quiet s s1 -> fresh_file (lookup := lookup) (data := data) (render temp) i (se_files s) (se_files s1) ->
  ssafe (or_remove temp (write_archive files temp i output' options key)) s1
    (fun sum s' => quiet s s' /\
       placed (lookup := lookup) (data := data) i (render output') (se_files s1) (se_files s') /\
       archive_of (inputs_of (se_files s) files) key options sum (data (se_files s') i))
    (fun s' => se_stdout s' = se_stdout s /\ files_kept lookup data (se_files s) (se_files s')).
Proof using All.
  intros Hr Hp Hq Hfresh. destruct (PackInputs_sources _ _ _ _ _ _ _ Hp) as [Hsrc Hu].
  destruct (sources_kept _ _ _ _ _ _ Hfresh Hsrc) as [Hsrc1 Hne].
  pose proof (write_archive_spec files (inputs_of (se_files s) files) temp i output' options key s1 Hr Hsrc1) as Hw.
  specialize (Hw ltac:(apply Forall_and; by split) (ff_there _ _ _ _ Hfresh)).
  unfold ssafe, or_remove in *. destruct (write_archive _ _ _ _ _ _ s1) as [[sum|e|] s2]; [| |done].
  - destruct Hw as (Hq2 & Hpl & Ha). split_and!; [by rewrite Hq2, Hq|done|done].
  - destruct Hw as (Hq2 & [Hn2 Hd2]). assert (Hf2 : fresh_file (lookup := lookup) (data := data) (render temp) i (se_files s) (se_files s2)).
    { destruct Hfresh as [Hc1 Hc2 Hc3 (Hc4 & Hc5 & Hc6)]. constructor; [done|done|by rewrite Hn2|]. split_and!.
      - intros p j Hj. rewrite Hn2. by apply Hc4.
      - intros j Hj. by rewrite Hd2, Hc5.
      - intros p j. rewrite Hn2. apply Hc6. }
    destruct (remove_temp_spec _ _ _ _ Hf2) as (s3 & Hrun & Hout & Hk).
    unfold mbind, st_bind. rewrite Hrun. cbn. split; [|done]. by rewrite Hout, Hq2, Hq.
Qed.


(** What a run that succeeded leaves: the archive of the collected files at the
    output path, and every file but the one it replaced as it was. *)
Definition dir_packed root output options key (s s' : Session F) : Prop :=
  exists root' output' existing files sum i,
    PackInputs root output s root' output' existing files /\
    lookup (se_files s') (render output') = Some i /\
    archive_of (inputs_of (se_files s) files) key options sum (data (se_files s') i) /\
    (forall p j, lookup (se_files s) p = Some j -> lookup (se_files s) (render output') <> Some j ->
       lookup (se_files s') p = Some j /\ data (se_files s') j = data (se_files s) j) /\
    se_stdout s' = se_stdout s ++ packed_line sum output' options ++ newline.

Lemma pack_dir_safe (sort : PathSort) root output options key (s : Session F) :
  options_in_range options ->
  ssafe (pack_dir sort root output options key) s (fun _ s' => dir_packed root output options key s s')
    (fun s' => se_stdout s' = se_stdout s /\ files_kept lookup data (se_files s) (se_files s')).
Proof using All.
  intros Hr. set (X := fun s' : Session F => se_stdout s' = se_stdout s /\ files_kept lookup data (se_files s) (se_files s')).
  assert (HX : X s) by by split.
  unfold pack_dir. apply looks_safe; [apply (canonicalize_safe _ _)|done|]. intros root' Hroot.
  eapply ssafe_bind; [by apply output_path_safe|]. intros output' ? Hout ->.
  eapply ssafe_bind; [by apply existing_path_safe|]. intros existing ? Hex ->.
  eapply ssafe_bind; [by apply collect_files_safe|]. intros files0 ? _ [-> Hcoll].
  pose proof (collected_inputs sort root output s root' output' existing files0 Hroot Hout Hex Hcoll) as Hp.
  set (files := sort_files sort files0) in *. cbv zeta.
  eapply ssafe_bind.
  { eapply ssafe_mono; [apply (create_temp_spec output' s)| |].
    - intros t s1 _ Ht. exact Ht.
    - intros s1 [Hq Hsame]. split; [by rewrite Hq|by apply same_files_kept]. }
  intros [temp i] s1 _ [Hq1 Hfresh]. cbn [fst snd] in Hfresh.
  eapply ssafe_bind; [by eapply pack_into_place|].
  intros sum s2 _ (Hq2 & [Hpl1 Hpl2 Hpl3] & Ha). unfold ssafe. cbn.
  destruct Hfresh as [Hc1 Hc2 Hc3 (Hc4 & Hc5 & Hc6)].
  exists root', output', existing, files, sum, i. split_and!; [done|done|done| |by rewrite Hq2].
  intros p j Hj Ho. assert (Hji : j <> i) by (intros ->; by apply (Hc2 p)).
  split; [|by rewrite Hpl2, Hc5]. apply Hpl3; [by apply Hc4|done|].
  intros Ho1. by apply Ho, Hc6.
Qed.
End PackDir.
