(* ===== verification/CliNames.v ===== *)
(** * The command line tool: the names that packing leaves

    On a system where a file has one path, [pack_dir] leaves no temporary file
    behind without telling the user. *)
From S2P Require Export CliPack.

(** A system on which a file has one path: its calls touch no other name, and
    only a missing file is reported as not found. *)
Record OneSpelling {F T : Type} `{FileSystem F T} (lookup : F -> bytes -> option Z) : Prop := {
  os_create p f i g : fs_create_new p f = (Ok i, g) -> forall q, q <> p -> lookup g q = lookup f q;
  os_remove p f g : fs_remove_file p f = (Ok tt, g) -> forall q, q <> p -> lookup g q = lookup f q;
  os_missing p f e g : fs_remove_file p f = (Err e, g) -> io_kind e = NotFoundKind -> lookup f p = None;
  os_rename p q f g : fs_rename p q f = (Ok tt, g) -> forall r, r <> p -> r <> q -> lookup g r = lookup f r
}.

Section Names.
Context {C : Crates} {F T : Type} {HFS : FileSystem F T} {HSys : System F} {HRead : Read T} {HFin : ReadFinite T}
  `{!CompressSpec C} `{!AeadSpec C} `{!HashSpec C}
  {lookup : F -> bytes -> option Z} {data : F -> Z -> bytes}
  `{!FileSystemSpec lookup data} `{!FileStreamSpec lookup data} `{!SystemSpec F lookup} (Hos : OneSpelling lookup).

Abbreviation names_but := (fun (p : bytes) (s s' : Session F) =>
  forall q, q <> p -> lookup (se_files s') q = lookup (se_files s) q).

Definition same_names (s s' : Session F) : Prop :=
  forall p, lookup (se_files s') p = lookup (se_files s) p.

(** The user was told of a file that could not be removed. *)
Definition warned (s s' : Session F) : Prop :=
  exists temp e, se_stderr s' = se_stderr s ++ lit "warning: could not remove temporary file " ++ temp
    ++ lit ": " ++ io_message e ++ newline.

Lemma create_temp_loop_names n parent name stamp attempt (s : Session F) :
  ssafe (create_temp_loop n parent name stamp attempt) s (fun t s' => names_but (render t.1) s s') (same_names s).
Proof using All.
  revert attempt s. induction n as [|n IH]; intros attempt s; [done|].
  unfold ssafe. cbn [create_temp_loop]. set (path := join_name parent _).
  pose proof (fs_create_new_spec lookup data (render path) (se_files s)) as Hs. unfold ssafe in Hs.
  destruct (fs_create_new (render path) (se_files s)) as [[i|e|] g] eqn:E; [by eapply os_create| |done].
  destruct Hs as [Hn _]. case_bool_decide; [|done].
  pose proof (IH (attempt + 1) (with_files g (se_nonces s) s)) as Hl. unfold ssafe, same_names in Hl.
  destruct (create_temp_loop n parent name stamp (attempt + 1) _) as [[t|e'|] s']; [| |done]; cbn in Hl.
  - intros q Hq. by rewrite Hl, Hn.
  - intros q. by rewrite Hl, Hn.
Qed.

Lemma create_temp_names output (s : Session F) :
  ssafe (create_temp output) s
    (fun t s' => names_but (render t.1) s s' /\ quiet s s' /\ fresh_file (lookup := lookup) (data := data)
       (render t.1) t.2 (se_files s) (se_files s'))
    (same_names s).
Proof using All.
  assert (Hn : ssafe (create_temp output) s (fun t s' => names_but (render t.1) s s') (same_names s)).
  { unfold create_temp. apply io_ok_or; [done|]. intros p _. apply io_ok_or; [done|].
    intros n _. apply ssafe_get_bind, create_temp_loop_names. }
  pose proof (create_temp_spec (lookup := lookup) (data := data) output s) as Hs. unfold ssafe in *.
  by destruct (create_temp output s) as [[t|e|] s'].
Qed.

(** Removing the temporary file restores the names, or tells the user. *)
Lemma remove_temp_names temp i (s s1 : Session F) :
  names_but (render temp) s s1 -> lookup (se_files s) (render temp) = None ->
  lookup (se_files s1) (render temp) = Some i ->
  exists s2, remove_temp temp s1 = (Ok tt, s2) /\
    (same_names s s2 \/ exists e, se_stderr s2 = se_stderr s1 ++ lit "warning: could not remove temporary file "
       ++ display temp ++ lit ": " ++ io_message e ++ newline).
Proof using All.
  intros Hn Hs Hi. unfold remove_temp.
  pose proof (fs_remove_file_spec lookup data (render temp) (se_files s1)) as Hr. unfold ssafe in Hr.
  destruct (fs_remove_file (render temp) (se_files s1)) as [[[]|e|] g] eqn:E; [| |done].
  - eexists. split; [reflexivity|]. left. intros q. cbn. destruct (decide (q = render temp)) as [->|Hq].
    + rewrite Hs. by destruct Hr as (_ & ? & _).
    + by rewrite (os_remove _ Hos _ _ _ E q Hq), Hn.
  - case_bool_decide as Hk.
    + eexists. split; [reflexivity|]. right. exists e. cbn [se_stderr with_files]. by rewrite <- !app_assoc.
    + exfalso. rewrite (os_missing _ Hos _ _ _ _ E) in Hi; [done|]. destruct (decide (io_kind e = NotFoundKind)); tauto.
Qed.

Lemma write_archive_names files l temp i output o key (s : Session F) :
  options_in_range o -> Forall2 (source_of (lookup := lookup) (data := data) (se_files s)) files l ->
  Forall (fun x => lookup (se_files s) (render x.2) <> Some i /\ utf8_valid x.1 = true) files ->
  lookup (se_files s) (render temp) = Some i ->
  ssafe (write_archive files temp i output o key) s
    (fun _ s' => (forall r, r <> render temp -> r <> render output -> lookup (se_files s') r = lookup (se_files s) r) /\
       (lookup (se_files s) (render output) <> Some i -> lookup (se_files s') (render temp) = None))
    (fun s' => same_names s s' /\ quiet s s').
Proof using All.
  intros Hr Hl Hf Ht. unfold write_archive. eapply ssafe_bind.
  { eapply ssafe_mono; [by eapply (written i files l key o s)|intros sum s1 _ Hq; exact Hq|].
    by intros s1 (Hq & Hn & _). }
  intros sum s1 _ (Hq1 & [Hn1 Hd1] & _ & _).
  pose proof (fs_rename_spec lookup data (render temp) (render output) (se_files s1)) as Hs.
  unfold ssafe, mbind, st_bind, on_system, st_map_err, zoom in *.
  destruct (fs_rename _ _ _) as [[[]|e|] g] eqn:E; cbn; [| |done].
  - destruct Hs as (_ & i' & Hi' & _ & Hgone & _). rewrite !Hn1 in *. assert (i' = i) as -> by congruence.
    split; [|done]. intros r H1 H2. by rewrite (os_rename _ Hos _ _ _ _ E r H1 H2), Hn1.
  - destruct Hs as [Hc _]. split; [|by rewrite Hq1]. intros p. cbn. by rewrite Hc, Hn1.
Qed.

(** The command on its names: as they were, or the output besides. *)
Lemma pack_dir_names (sort : PathSort) root output options key (s : Session F) :
  options_in_range options ->
  ssafe (pack_dir sort root output options key) s
    (fun _ s' => exists output', normalized_output_path output s = (Ok output', s) /\
       forall p, p <> render output' -> lookup (se_files s') p = lookup (se_files s) p)
    (fun s' => same_names s s' \/ warned s s').
Proof using All.
  intros Hr. set (X := fun s' : Session F => same_names s s' \/ warned s s'). assert (HX : X s) by by left.
  unfold pack_dir. apply looks_safe; [apply (canonicalize_safe _ _)|done|]. intros root' Hroot.
  eapply ssafe_bind; [by apply output_path_safe|]. intros output' ? Hout ->.
  eapply ssafe_bind; [by apply existing_path_safe|]. intros existing ? Hex ->.
  eapply ssafe_bind; [by apply collect_files_safe|]. intros files0 ? _ [-> Hcoll].
  pose proof (collected_inputs sort root output s root' output' existing files0 Hroot Hout Hex Hcoll) as Hp.
  set (files := sort_files sort files0) in *. cbv zeta.
  eapply ssafe_bind.
  { eapply ssafe_mono; [apply (create_temp_names output' s)|intros t s1 _ Ht; exact Ht|]. intros s1 Hs1. by left. }
  intros [temp i] s1 _ (Hn1 & Hq1 & Hfresh). cbn [fst snd] in *.
  destruct (PackInputs_sources (lookup := lookup) (data := data) _ _ _ _ _ _ _ Hp) as [Hsrc Hu].
  destruct (sources_kept _ _ _ _ _ _ Hfresh Hsrc) as [Hsrc1 Hne].
  pose proof (write_archive_names files _ temp i output' options key s1 Hr Hsrc1) as Hw.
  specialize (Hw ltac:(apply Forall_and; by split) (ff_there _ _ _ _ Hfresh)).
  unfold ssafe, or_remove, mbind, st_bind in *.
  destruct (write_archive _ _ _ _ _ _ s1) as [[sum|e|] s2]; [| |done].
  - exists output'. split; [done|]. destruct Hw as [Hw1 Hw2]. intros p Hpo.
    change (lookup (se_files s2) p = lookup (se_files s) p).
    destruct (decide (p = render temp)) as [->|Hpt]; [|by rewrite Hw1, Hn1].
    rewrite Hw2, (ff_free _ _ _ _ Hfresh); [done|]. rewrite Hn1 by congruence. apply Hfresh.
  - destruct Hw as [Hw1 Hq2].
    destruct (remove_temp_names temp i s s2) as (s3 & -> & Hs3);
      [intros q Hq; rewrite Hw1; by apply Hn1|apply Hfresh|by rewrite Hw1, (ff_there _ _ _ _ Hfresh)|].
    cbn. destruct Hs3 as [Hs3|[e' He']]; [by left|]. right. exists (display temp), e'.
    rewrite He', Hq2, Hq1. done.
Qed.
End Names.
