(* ===== verification/CliReport.v ===== *)
(** * The command line tool: the commands that read an archive

    The sums that [verify] and [info] print never overflow; the outcomes of
    [list], [verify], [info] and [extract]. *)
From S2P Require Export CliNames.

(** ** The totals of an archive *)

Lemma total_run what field entries acc :
  Forall (fun e => 0 <= field e) entries -> acc + sum_over field entries <= U64_MAX ->
  total what field entries acc = Ok (acc + sum_over field entries).
Proof.
  intros Hf. revert acc. induction Hf as [|e entries He Hf IH]; intros acc Hm; cbn in *; [by rewrite Z.add_0_r|].
  pose proof (sum_over_Forall field entries Hf). rewrite (proj2 (checked_add_Some U64_MAX acc (field e) _)) by (split; [done|lia]).
  cbn. rewrite IH by lia. f_equal. lia.
Qed.

(** One pass is three sums. *)
Lemma totals_run entries t :
  Forall (fun e => 0 <= chunk_count e /\ 0 <= original_size e /\ 0 <= stored_size e) entries ->
  t_chunks t + sum_over chunk_count entries <= U64_MAX ->
  t_original t + sum_over original_size entries <= U64_MAX ->
  t_stored t + sum_over stored_size entries <= U64_MAX ->
  totals entries t = Ok {| t_chunks := t_chunks t + sum_over chunk_count entries;
    t_original := t_original t + sum_over original_size entries;
    t_stored := t_stored t + sum_over stored_size entries |}.
Proof.
  intros Hf. revert t. induction Hf as [|e entries (Hc & Ho & Hs) Hf IH]; intros t H1 H2 H3; cbn in *.
  { rewrite !Z.add_0_r. by destruct t. }
  assert (0 <= sum_over chunk_count entries /\ 0 <= sum_over original_size entries /\
    0 <= sum_over stored_size entries) as (? & ? & ?).
  { split_and!; apply sum_over_Forall; (eapply Forall_impl; [exact Hf|]); cbn; tauto. }
  unfold add_totals. rewrite !(fun a b => proj2 (checked_add_Some U64_MAX a b (a + b))) by (split; [done|lia]).
  cbn. rewrite IH by (cbn; lia). cbn. do 2 f_equal; lia.
Qed.

Section Totals.
Context {C : Crates} {R : Type} (self : Archive R) (Hwf : ArchiveWf self).

Lemma range_sizes es n :
  concat (entry_range <$> es) ≡ₚ seq 0 n -> Forall entry_in_range es ->
  sum_over te_chunk_count es = Z.of_nat n.
Proof.
  intros Hp%Permutation_length Hr. rewrite length_seq in Hp. rewrite <- Hp. clear Hp.
  induction Hr as [|e es (_ & _ & _ & _ & ?) Hr IH]; [done|]. cbn [fmap list_fmap concat sum_over].
  rewrite length_app, Nat2Z.inj_add, IH. assert (length (entry_range e) = Z.to_nat (te_chunk_count e)) as -> by apply length_seq.
  unfold in_range in *. lia.
Qed.

(** Chunks that follow each other do not take more than their range. *)
Lemma in_order_total prev cs last :
  in_order prev cs -> Forall (fun c => c_end c <= last) cs -> prev <= last -> stored_total cs <= last - prev.
Proof.
  intros Ho Hf. revert prev Ho. induction Hf as [|c cs Hc Hf IH]; intros prev; cbn [in_order sum_over]; [lia|].
  intros [Hle Ho] Hl. specialize (IH _ Ho Hc). unfold c_end in *. lia.
Qed.

(** The sums over the entries are the archive's chunks and their sizes, and
    far from the end of [u64]. *)
Lemma archive_sums :
  sum_over chunk_count (ar_entries self) = len (ar_chunks self) /\
  sum_over original_size (ar_entries self) = original_total (ar_chunks self) /\
  sum_over stored_size (ar_entries self) = stored_total (ar_chunks self) /\
  original_total (ar_chunks self) <= len (ar_chunks self) * MAX_CHUNK_SIZE /\
  stored_total (ar_chunks self) <= U64_MAX /\
  Forall (fun e => 0 <= chunk_count e /\ 0 <= original_size e /\ 0 <= stored_size e) (ar_entries self).
Proof using Hwf.
  destruct Hwf as [_ Hcz _ _ _ [_ Hcr] (es & toc & mt & -> & Her & Htoc & [Hck Hord _ Heo Hpart])].
  rewrite !sum_over_fmap. cbn [chunk_count original_size stored_size entry_from].
  split_and!.
  - by apply range_sizes.
  - rewrite (partition_sum c_original_size _ _ Hpart). clear Hpart Her.
    induction Heo as [|e es [_ _ Ho _ _] _ IH]; cbn [sum_over]; [done|]. by rewrite IH, Ho.
  - rewrite (partition_sum c_stored_size _ _ Hpart). clear Hpart Her.
    induction Heo as [|e es [_ _ _ Hs _] _ IH]; cbn [sum_over]; [done|]. by rewrite IH, Hs.
  - clear - Hck Hcz. induction Hck as [|c cs [Hc _ _ _ _ _] _ IH]; cbn [sum_over]; [by vm_compute|].
    rewrite len_cons. lia.
  - etrans; [apply (in_order_total HEADER_SIZE _ U64_MAX); [done| |by vm_compute]|unfold HEADER_SIZE; lia].
    eapply Forall_impl; [exact Hck|]. intros c [_ _ _ _ _ He]. destruct Htoc. lia.
  - apply Forall_fmap. eapply Forall_impl; [exact Her|]. intros e (_ & [? _] & [? _] & _ & [? _]). by split_and!.
Qed.

(** So none of the checked additions fails. *)
Lemma totals_ok :
  total "chunk count overflow" chunk_count (ar_entries self) 0 = Ok (len (ar_chunks self)) /\
  totals (ar_entries self) {| t_chunks := 0; t_original := 0; t_stored := 0 |} =
    Ok {| t_chunks := len (ar_chunks self); t_original := original_total (ar_chunks self);
          t_stored := stored_total (ar_chunks self) |}.
Proof using Hwf.
  destruct archive_sums as (Hc & Ho & Hs & Hom & Hsm & Hf). destruct (aw_chunks _ Hwf) as [Hcm _].
  assert (Hom' : original_total (ar_chunks self) <= U64_MAX).
  { etrans; [exact Hom|]. etrans; [apply Z.mul_le_mono_nonneg_r; [by vm_compute|exact Hcm]|by vm_compute]. }
  split.
  - rewrite total_run, Hc; [done| |unfold U32_MAX, U64_MAX in *; lia].
    eapply Forall_impl; [exact Hf|]. cbn. tauto.
  - rewrite totals_run; cbn [t_chunks t_original t_stored]; rewrite ?Hc, ?Ho, ?Hs; try done.
    unfold U32_MAX, U64_MAX in *. lia.
Qed.
End Totals.

(** ** The reports *)

Section Reports.
Context {C : Crates} {F T : Type} {HFS : FileSystem F T} {HSys : System F} {HRead : Read T} {HFin : ReadFinite T}
  `{!DecompressSpec C} `{!SortSpec C}
  {lookup : F -> bytes -> option Z} {data : F -> Z -> bytes} `{!FileSystemSpec lookup data}.

(** Text that went to the standard output. *)
Definition say (text : bytes) (s : Session F) : Session F := {|
  se_files := se_files s; se_stdout := se_stdout s ++ text; se_stderr := se_stderr s;
  se_nonces := se_nonces s; se_pid := se_pid s; se_nanos := se_nanos s |}.

Definition lines (l : list bytes) : bytes := l ≫= (fun line => line ++ newline).

Lemma println_run line s : println line s = (Ok tt, say (lines [line]) s).
Proof. unfold println, lines, say. cbn. by rewrite app_nil_r. Qed.

Lemma say_say a b s : say b (say a s) = say (a ++ b) s.
Proof. unfold say. cbn. by rewrite app_assoc. Qed.

Lemma println_bind {A} line (m : ST CliError (Session F) A) s :
  (println line;; m) s = m (say (lines [line]) s).
Proof. unfold mbind, st_bind. by rewrite println_run. Qed.

Lemma lines_cons line l : lines (line :: l) = lines [line] ++ lines l.
Proof. unfold lines. cbn. by rewrite app_nil_r. Qed.

Lemma print_entries_run stripped es s :
  print_entries stripped es s = (Ok tt, say (lines (entry_line stripped <$> es)) s).
Proof.
  revert s. induction es as [|e es IH]; intros s; cbn [print_entries].
  - unfold say. cbn. rewrite app_nil_r. by destruct s.
  - by rewrite println_bind, IH, say_say, <- lines_cons.
Qed.

(** An archive was opened at a path; nothing has changed. *)
Record opened_at (path key : bytes) (s s' : Session F) (a : Archive File) : Prop := {
  oa_files : same_files lookup data (se_files s) (se_files s');
  oa_quiet : quiet s s';
  oa_wf : ArchiveWf a;
  oa_there : exists i, lookup (se_files s) path = Some i /\ file_content (ar_source a) = data (se_files s) i;
  oa_open : open_with_limits (ar_source a) key tooling_default = Ok a
}.

Definition untouched (s s' : Session F) : Prop := quiet s s' /\ same_files lookup data (se_files s) (se_files s').

Lemma tooling_in_range : limits_in_range tooling_default.
Proof. vm_compute. intuition congruence. Qed.

Lemma core_bind {A B} (r : Res A) (f : A -> ST CliError (Session F) B) s (P : A -> Prop) Q X :
  safe r P -> X s -> (forall a, r = Ok a -> P a -> ssafe (f a) s Q X) -> ssafe (core r ≫= f) s Q X.
Proof.
  intros Hr HX Hf. unfold core. eapply ssafe_lift_bind; [apply safe_map_err, Hr|done|].
  intros a Ha%map_err_Ok. by apply Hf.
Qed.

Lemma io_bind {A B} (r : IoRes A) (f : A -> ST CliError (Session F) B) s (P : A -> Prop) Q X :
  safe r P -> X s -> (forall a, r = Ok a -> P a -> ssafe (f a) s Q X) -> ssafe (io r ≫= f) s Q X.
Proof.
  intros Hr HX Hf. unfold io. eapply ssafe_lift_bind; [apply safe_map_err, Hr|done|].
  intros a Ha%map_err_Ok. by apply Hf.
Qed.

Lemma open_file_safe path (s : Session F) :
  ssafe (open_file path) s
    (fun h s' => untouched s s' /\ exists i, lookup (se_files s) path = Some i /\ file_content h = data (se_files s) i)
    (untouched s).
Proof using All.
  unfold ssafe, open_file, mbind, st_bind, on_system, st_map_err, zoom.
  pose proof (fs_open_spec lookup data path (se_files s)) as Hs. unfold ssafe in Hs.
  destruct (fs_open path (se_files s)) as [[h|e|] g]; cbn; [| |done].
  - by destruct Hs.
  - done.
Qed.

(** What opening a file as an archive gives. *)
Lemma open_source_bind {B} path key h (f : Archive File -> ST CliError (Session F) B) (s s1 : Session F) Q :
  untouched s s1 ->
  (exists i, lookup (se_files s) path = Some i /\ file_content h = data (se_files s) i) ->
  (forall a, opened_at path key s s1 a -> ar_source a = h -> ssafe (f a) s1 Q (untouched s)) ->
  ssafe (core (open_with_limits h key tooling_default) ≫= f) s1 Q (untouched s).
Proof using All.
  intros Hu Hi Hf. eapply core_bind; [apply open_safe, tooling_in_range|done|].
  intros a Ha (Hwf & Hsrc & _). apply Hf; [|done]. destruct Hu. by constructor; rewrite ?Hsrc.
Qed.

Lemma open_path_bind {B} path key (f : Archive File -> ST CliError (Session F) B) (s : Session F) Q
    (X : Session F -> Prop) :
  (forall s', untouched s s' -> X s') -> (forall a s1, opened_at path key s s1 a -> ssafe (f a) s1 Q X) ->
  ssafe (open_path path key ≫= f) s Q X.
Proof using All.
  intros HX Hf. assert (Hp : ssafe (open_path path key) s (fun a s' => opened_at path key s s' a) (untouched s)).
  { unfold open_path. eapply ssafe_bind; [apply open_file_safe|]. intros h s1 _ [Hu Hi].
    assert (Hret : forall m : ST CliError (Session F) (Archive File), ssafe (m ≫= mret) s1
      (fun a s' => opened_at path key s s' a) (untouched s) -> ssafe m s1
      (fun a s' => opened_at path key s s' a) (untouched s)).
    { intros m. unfold ssafe, mbind, st_bind. by destruct (m s1) as [[a|e|] s2]. }
    apply Hret, (open_source_bind path key h); [done..|]. intros a Ha _. exact Ha. }
  eapply ssafe_bind; [by eapply ssafe_mono; [exact Hp|..]|]. intros a s1 _. apply Hf.
Qed.

(** What the three commands print of an archive. *)
Definition list_report (a : Archive File) : bytes :=
  lines ((lit "mode=" ++ mode_text (ar_paths_stripped a)
    ++ lit ", protection=" ++ protection_to_string (ar_protection a)
    ++ lit ", chunk=" ++ fmt_dec (ar_chunk_size a)
    ++ lit " bytes, alignment=" ++ fmt_dec (ar_alignment a) ++ lit " bytes" ++ newline)
    :: (entry_line (ar_paths_stripped a) <$> ar_entries a)).

Definition verify_report (a : Archive File) : bytes :=
  lines [lit "verified " ++ fmt_dec (len (ar_entries a)) ++ lit " entries, "
    ++ fmt_dec (len (ar_chunks a)) ++ lit " chunks"].

Definition info_report (a : Archive File) : bytes :=
  let original := original_total (ar_chunks a) in
  let stored := stored_total (ar_chunks a) in
  lines [
    lit "format_version=" ++ fmt_dec VERSION;
    lit "mode=" ++ mode_text (ar_paths_stripped a);
    lit "archive_bytes=" ++ fmt_dec (len (file_content (ar_source a)));
    lit "entry_count=" ++ fmt_dec (len (ar_entries a));
    lit "chunk_count=" ++ fmt_dec (len (ar_chunks a));
    lit "chunk_size=" ++ fmt_dec (ar_chunk_size a);
    lit "alignment=" ++ fmt_dec (ar_alignment a);
    lit "original_bytes=" ++ fmt_dec original;
    lit "stored_bytes=" ++ fmt_dec stored;
    lit "compression_ratio=" ++ fmt_fixed 6 (ratio original stored);
    lit "paths_stripped=" ++ bool_text (ar_paths_stripped a);
    lit "protection=" ++ protection_to_string (ar_protection a)].

(** The outcome of a command that prints [report] of the archive at a path. *)
Definition reports (path key : bytes) (s : Session F) (report : Archive File -> bytes) (P : Archive File -> Prop)
    (m : ST CliError (Session F) unit) : Prop :=
  ssafe m s (fun _ s' => exists a s1, opened_at path key s s1 a /\ P a /\ s' = say (report a) s1) (untouched s).

Lemma opened_untouched path key s s' a : opened_at path key s s' a -> untouched s s'.
Proof. by intros []. Qed.

Lemma list_reports path key s : reports path key s list_report (fun _ => True) (list_archive path key).
Proof using All.
  apply open_path_bind; [done|]. intros a s1 Ha.
  unfold ssafe. rewrite println_bind, print_entries_run, say_say, <- lines_cons. by exists a, s1.
Qed.

Lemma verify_reports path key s :
  reports path key s verify_report
    (fun a => forall e, e ∈ ar_entries a -> is_Some (entry_content a (file_content (ar_source a)) e))
    (verify_archive path key).
Proof using All.
  apply open_path_bind; [done|]. intros a s1 Ha. pose proof (oa_wf _ _ _ _ _ Ha) as Hwf.
  pose proof (opened_untouched _ _ _ _ _ Ha) as Hu. eapply core_bind; [exact (verify_safe a Hwf)|done|].
  intros [] _ Hall. unfold io. rewrite (proj1 (totals_ok a Hwf)). apply ssafe_lift_Ok.
  unfold ssafe. rewrite println_run. exists a, s1. split; [done|]. split; [|done].
  intros e He. destruct (Hall e He) as [d Hd]. exists d. exact (ChunksRead_content a Hwf (content := file_content) _ _ _ Hd).
Qed.

Lemma info_reports path key s : reports path key s info_report (fun _ => True) (info_archive path key).
Proof using All.
  unfold reports, info_archive. eapply ssafe_bind; [apply open_file_safe|]. intros h s1 _ [Hu Hi].
  eapply io_bind; [apply file_metadata_safe|done|]. intros n _ [_ ->].
  apply (open_source_bind path key h); [done..|]. intros a Ha Hsrc. pose proof (oa_wf _ _ _ _ _ Ha) as Hwf.
  unfold io. rewrite (proj2 (totals_ok a Hwf)). apply ssafe_lift_Ok. unfold ssafe.
  rewrite !println_bind, println_run, !say_say, <- !lines_cons. exists a, s1. split; [done|]. split; [done|].
  unfold info_report. by rewrite Hsrc.
Qed.
End Reports.

(** ** Extracting *)

Section Extract.
Context {C : Crates} {F T : Type} {HFS : FileSystem F T} {HSys : System F} {HRead : Read T} {HFin : ReadFinite T}
  `{!DecompressSpec C} `{!SortSpec C}
  {lookup : F -> bytes -> option Z} {data : F -> Z -> bytes} `{!FileSystemSpec lookup data}.

Abbreviation opened := (opened_at (lookup := lookup) (data := data)).

(** At most one file was touched. *)
Definition one_touched (s s' : Session F) : Prop :=
  quiet s s' /\ exists k, only_file lookup data k (se_files s) (se_files s').

(** The file at [target] holds [d], and no other was touched. *)
Definition written_at (target d : bytes) (s s' : Session F) : Prop :=
  quiet s s' /\ exists k, lookup (se_files s') target = Some k /\ data (se_files s') k = d /\
    only_file lookup data k (se_files s) (se_files s').

Lemma extract_one_safe path v target key (s : Session F) :
  ssafe (extract_one path v target key) s
    (fun _ s' => exists a s1 d, opened path key s s1 a /\ Reader.read a v = Ok d /\ written_at target d s s')
    (one_touched s).
Proof using All.
  assert (Hone : forall s', untouched (lookup := lookup) (data := data) s s' -> one_touched s s').
  { intros s' [Hq Hs]. split; [done|]. exists 0. by apply same_only_file. }
  apply open_path_bind; [done|]. intros a s1 Ha.
  pose proof (oa_wf _ _ _ _ _ Ha) as Hwf. destruct (opened_untouched _ _ _ _ _ Ha) as [Hq Hs].
  eapply core_bind; [exact (read_denotes a Hwf v)|by apply Hone|]. intros d Hd _.
  pose proof (fs_write_spec lookup data target d (se_files s1)) as Hw.
  unfold ssafe, on_system, st_map_err, zoom in *.
  assert (Hof : forall k g, only_file lookup data k (se_files s1) g -> only_file lookup data k (se_files s) g).
  { intros k g. apply only_file_trans, same_only_file, Hs. }
  destruct (fs_write target d (se_files s1)) as [[[]|e|] g]; cbn; [| |done].
  - destruct Hw as (k & Hk & Hdk & Ho). exists a, s1, d. split; [done|]. split; [done|].
    split; [by rewrite Hq|]. exists k. split_and!; [done|done|by apply Hof].
  - destruct Hw as [k Ho]. split; [by rewrite Hq|]. exists k. by apply Hof.
Qed.
End Extract.
