(* ===== verification/CliSpec.v ===== *)
(** * The command line tool: what the commands do

    Each command's outcomes, the options of the command line, and the way from
    [pack_dir] over [extract_one] back to the files of the directory. *)
From stdpp Require Import sorting.
From S2P Require Export CliReport.

(** ** From a directory to its files again *)

Section PackExtract.
Context {C : Crates} {F T : Type} {HFS : FileSystem F T} {HSys : System F} {HRead : Read T} {HFin : ReadFinite T}
  `{!CompressSpec C} `{!AeadSpec C} `{!HashSpec C} `{!DecompressSpec C} `{!SortSpec C} `{!AllocSpec C}
  {lookup : F -> bytes -> option Z} {data : F -> Z -> bytes} `{!FileSystemSpec lookup data}.

(** The tool's limits admit the archive [d] of the files [l]. *)
Definition fits_tooling (o : PackOptions) (d : bytes) (l : list InputFile) : Prop :=
  exists h assets, (read_header d).1 = Ok h /\ files_assets l assets /\ Fits (clamped tooling_default) o h assets.

Lemma files_assets_det l k k' : files_assets l k -> files_assets l k' -> k' = k.
Proof.
  intros Hk. revert k'. induction Hk as [|i a l assets [Hn Hd] Hk IH]; intros k' Hk'.
  - by apply Forall2_nil_inv_l in Hk'.
  - apply Forall2_cons_inv_l in Hk' as (b & k & [Hn' Hd'] & Hk' & ->). f_equal; [|by apply IH].
    rewrite Hn in Hn'. injection Hn' as Hn'. destruct a, b; cbn in *; congruence.
Qed.

(** What is read of a file that holds a packed archive is what was packed. *)
Lemma packed_file_read l key o sum path (s s1 : Session F) a d x v :
  archive_of l key o sum d ->
  opened_at (lookup := lookup) (data := data) path key s s1 a -> file_content (ar_source a) = d ->
  fits_tooling o d l ->
  forall i, i ∈ l -> normalize_path v = normalize_path (if_path i) ->
  Z.max 1 (chunks_needed o (if_data i)) <= max_chunks_per_operation (clamped tooling_default) ->
  Reader.read a v = Ok x -> x = if_data i.
Proof using All.
  intros (assets & h & es & cs & pieces & Hfa & Hp & _) Ha <- (h' & assets' & Hh & Hfa' & Hf) i Hin Hn Hc Hx.
  rewrite (packed_header_read _ _ _ _ _ _ _ _ Hp) in Hh. injection Hh as <-.
  rewrite (files_assets_det _ _ _ Hfa Hfa') in Hf.
  destruct (packed_opens l assets o key (file_content (ar_source a)) tooling_default h es cs pieces Hfa Hp
    tooling_in_range Hf) as (a' & Ha' & _ & Hread).
  pose proof (open_in_memory _ _ _ _ (oa_open _ _ _ _ _ Ha)) as Hm. rewrite Ha' in Hm. injection Hm as ->.
  symmetry. eapply (read_in_memory a); [apply (oa_wf _ _ _ _ _ Ha)|exact Hx|by apply Hread].
Qed.
End PackExtract.

(** ** Properties *)

(** C6 [pack_dir], on every outcome.  A failure (of the system, of a path, of
    the packer, of the final rename) leaves every file that was there under
    its names and with its content, an archive at the output path included,
    and prints nothing.  A success has packed each file of the tree under the
    root, but the output itself, exactly once, under the normal form of its
    path, in the order of these paths; the output path leads to that archive,
    and every file but the one it replaced is as it was.  Where a file has one
    path, no temporary file is left: a success adds no name but the output's,
    and a failure none, unless the user was told that it could not be
    removed. *)
Theorem pack_dir_spec {C : Crates} {F T : Type} `{FileSystem F T} `{!System F} `{Read T} `{!ReadFinite T}
    `{!CompressSpec C} `{!AeadSpec C} `{!HashSpec C}
    {lookup : F -> bytes -> option Z} {data : F -> Z -> bytes}
    `{!FileSystemSpec lookup data} `{!FileStreamSpec lookup data} `{!SystemSpec F lookup}
    (sort : PathSort) root output options key (s : Session F) :
  options_in_range options ->
  exists r s', pack_dir sort root output options key s = (r, s') /\
    match r with
    | Panic => False
    | Err _ => se_stdout s' = se_stdout s /\ files_kept lookup data (se_files s) (se_files s') /\
        (OneSpelling lookup -> same_names (lookup := lookup) s s' \/ warned s s')
    | Ok _ => dir_packed (lookup := lookup) (data := data) root output options key s s' /\
        (OneSpelling lookup -> exists output', normalized_output_path output s = (Ok output', s) /\
           forall p, p <> render output' -> lookup (se_files s') p = lookup (se_files s) p)
    end.
Proof.
  intros Hr. pose proof (pack_dir_safe sort root output options key s Hr) as Hs.
  pose proof (fun Hos => pack_dir_names (lookup := lookup) (data := data) Hos sort root output options key s Hr) as Hn.
  unfold ssafe in *.
  destruct (pack_dir _ _ _ _ _ s) as [[[]|e|] s']; [by exists (Ok tt), s'|exists (Err e), s'; tauto|done].
Qed.

(** C12 Packing a directory and extracting again, across two runs of the tool.
    After [pack_dir] succeeded, a later run that finds the same bytes at some
    path and extracts one of the packed files by any spelling of its path
    either fails, having touched at most one file, or has written exactly that
    file's content to the target and touched nothing else: for an archive
    within the tool's limits. *)
Theorem pack_extract {C : Crates} {F T : Type} `{FileSystem F T} `{!System F} `{Read T} `{!ReadFinite T}
    `{!CompressSpec C} `{!AeadSpec C} `{!HashSpec C} `{!DecompressSpec C} `{!SortSpec C} `{!AllocSpec C}
    {lookup : F -> bytes -> option Z} {data : F -> Z -> bytes}
    `{!FileSystemSpec lookup data} `{!FileStreamSpec lookup data} `{!SystemSpec F lookup}
    (sort : PathSort) root output options key (s s1 : Session F) :
  options_in_range options ->
  pack_dir sort root output options key s = (Ok tt, s1) ->
  exists root' output' existing files i,
    PackInputs root output s root' output' existing files /\ lookup (se_files s1) (render output') = Some i /\
    (fits_tooling options (data (se_files s1) i) (inputs_of (lookup := lookup) (data := data) (se_files s) files) ->
     forall (s2 : Session F) path j, lookup (se_files s2) path = Some j ->
       data (se_files s2) j = data (se_files s1) i ->
     forall q p v t target, (q, p) ∈ files -> normalize_path v = Ok q -> lookup (se_files s) (render p) = Some t ->
       Z.max 1 (chunks_needed options (data (se_files s) t)) <= max_chunks_per_operation (clamped tooling_default) ->
       exists r s3, extract_one path v target key s2 = (r, s3) /\
         match r with
         | Panic => False
         | Err _ => one_touched (lookup := lookup) (data := data) s2 s3
         | Ok _ => written_at (lookup := lookup) (data := data) target (data (se_files s) t) s2 s3
         end).
Proof.
  intros Hr Hrun. pose proof (pack_dir_safe sort root output options key s Hr) as Hs. unfold ssafe in Hs.
  rewrite Hrun in Hs. destruct Hs as (root' & output' & existing & files & sum & i & Hin & Hi & Ha & _).
  exists root', output', existing, files, i. split; [done|]. split; [done|].
  intros Hfit s2 path j Hj Hd q p v t target Hqp Hv Ht Hc.
  pose proof (extract_one_safe (lookup := lookup) (data := data) path v target key s2) as He. unfold ssafe in He.
  destruct (extract_one path v target key s2) as [r s3]. exists r, s3. split; [done|]. destruct r as [[]| |]; [|done..].
  destruct He as (a & s' & x & Hop & Hx & Hw).
  destruct (oa_there _ _ _ _ _ Hop) as (j' & Hj' & Hcont). rewrite Hj in Hj'. injection Hj' as <-.
  rewrite Hd in Hcont. destruct (pi_files _ _ _ _ _ _ _ Hin q p Hqp) as (rel & _ & _ & Hn).
  assert (Hq : normalize_path q = Ok q) by (by apply (normalize_path_idempotent (render rel)); [|apply alloc_always]).
  set (f := {| if_path := q; if_data := data (se_files s) t |}).
  assert (Hf : f ∈ inputs_of (lookup := lookup) (data := data) (se_files s) files).
  { apply list_elem_of_fmap. exists (q, p). split; [|done]. unfold f. cbn. by rewrite Ht. }
  assert (x = data (se_files s) t) as <-; [|done].
  exact (packed_file_read _ _ _ _ _ _ _ _ _ _ _ Ha Hop Hcont Hfit f Hf (eq_trans Hv (eq_sym Hq)) Hc Hx).
Qed.

(** C34 [list], [verify] and [info] only look.  None of them panics or changes a
    file; a failure prints nothing; a success prints the report of the archive
    the path leads to, well-formed and within the tool's limits: the chunk
    count and the sizes over its entries are those of its chunk table, which
    no sum of [u64] overflows, and a verified archive holds the content of
    each of its entries. *)
Theorem reports_spec {C : Crates} {F T : Type} `{FileSystem F T} `{!System F} `{Read T} `{!ReadFinite T}
    `{!DecompressSpec C} `{!SortSpec C}
    {lookup : F -> bytes -> option Z} {data : F -> Z -> bytes} `{!FileSystemSpec lookup data}
    (sort : PathSort) key command path report (s : Session F) :
  (command, report) ∈ [(ListEntries path, list_report); (Verify path, verify_report); (Info path, info_report)] ->
  exists r s', main sort key command s = (r, s') /\
    match r with
    | Panic => False
    | Err _ => untouched (lookup := lookup) (data := data) s s'
    | Ok _ => exists a s1, opened_at (lookup := lookup) (data := data) path key s s1 a /\ s' = say (report a) s1 /\
        (command = Verify path ->
         forall e, e ∈ ar_entries a -> is_Some (entry_content a (file_content (ar_source a)) e))
    end.
Proof.
  intros Hc. assert (Hr : exists P, reports (lookup := lookup) (data := data) path key s report P (main sort key command) /\
    (command = Verify path -> forall a, P a ->
       forall e, e ∈ ar_entries a -> is_Some (entry_content a (file_content (ar_source a)) e))).
  { repeat (apply elem_of_cons in Hc as [[= -> ->]|Hc]); [eexists; split..|by apply not_elem_of_nil in Hc];
      [apply list_reports|done|apply verify_reports|by intros _ a|apply info_reports|done]. }
  destruct Hr as (P & Hr & HP). unfold reports, ssafe in Hr.
  destruct (main sort key command s) as [r s']. exists r, s'. split; [done|]. destruct r as [u| |]; [|done..].
  destruct Hr as (a & s1 & Ho & Hpa & ->). exists a, s1. split; [done|]. split; [done|]. intros Hv. by apply HP.
Qed.

(** C35 Which directories [collect_files] takes, and what it finds.  It ends on
    every tree, and succeeds exactly when each directory can be listed to its
    last entry and each file but the output has a virtual path (below the
    root, UTF-8, with a normal form); it then has every file of the tree but
    the output, each once, under the normal form of its path. *)
Theorem collect_files_spec {C : Crates} {F : Type} `{!System F} {lookup : F -> bytes -> option Z}
    `{!SystemSpec F lookup} root output existing (s : Session F) :
  exists r, collect_files root output existing s = (r, s) /\
    decides r (readable (se_files s) root output existing root) (fun files =>
      NoDup files.*2 /\ (forall q p, (q, p) ∈ files -> virtual_path root p q) /\
      forall p, (exists q, (q, p) ∈ files) <-> tree_file (se_files s) root p /\ ~ excluded output existing p).
Proof.
  eexists. split; [reflexivity|].
  pose proof (collect_pending_spec (se_files s) root output existing (directories root (se_files s)) [] [root]) as Hs.
  eapply decides_iff; [apply Hs; cbn; lia|by rewrite Forall_singleton|].
  intros files _ _ (more & -> & [Hsound Hcomplete Honce]). cbn [app]. split_and!.
  - apply Honce. by repeat constructor.
  - intros q p Hin. apply (Hsound (q, p) Hin).
  - intros p. split.
    + intros [q Hin]. destruct (Hsound (q, p) Hin) as ([Hx _] & dir & Hd & Ht).
      by apply list_elem_of_singleton in Hd as ->.
    + intros [Ht Hx]. apply (Hcomplete root); [by left|done..].
Qed.

(** What [clap] can deliver. *)
Definition args_in_range (a : PackArgs) : Prop :=
  (forall k, pa_chunk_kib a = Some k -> is_u64 k) /\ (forall n, pa_alignment a = Some n -> is_u32 n).

Definition args_chunk_size (a : PackArgs) : Z :=
  from_option (fun k => k * 1024) (po_chunk_size default_options) (pa_chunk_kib a).

Definition args_alignment (a : PackArgs) : Z := default (po_alignment default_options) (pa_alignment a).

Lemma pack_args_run a :
  pack_args_options a =
    if args_chunk_size a <=? USIZE_MAX
    then Ok {| po_chunk_size := args_chunk_size a; po_alignment := args_alignment a;
               po_mode := mode_into (pa_mode a); po_protection := protection_into (pa_protection a) |}
    else Err (invalid_arg (lit "chunk size overflow")).
Proof.
  unfold pack_args_options, args_chunk_size, args_alignment, checked_mul.
  destruct (pa_chunk_kib a) as [k|]; cbn [from_option].
  - by destruct (k * 1024 <=? USIZE_MAX), (pa_alignment a).
  - by destruct (pa_alignment a).
Qed.

Lemma args_sizes a : args_in_range a -> 0 <= args_chunk_size a /\ is_u32 (args_alignment a).
Proof.
  intros [Hk Hn]. unfold args_chunk_size, args_alignment. split.
  - destruct (pa_chunk_kib a) as [k|]; [|by vm_compute]. destruct (Hk k eq_refl). cbn [from_option]. lia.
  - destruct (pa_alignment a) as [n|]; [by apply Hn|]. by vm_compute.
Qed.

(** C36 The packing options of the command line.  A chunk size whose bytes
    overflow [usize] is refused as invalid input before anything is touched;
    any other gives options of the machine's range, with the given fields and
    the defaults elsewhere, and the command is [pack_dir] with them. *)
Theorem pack_args_spec {C : Crates} {F T : Type} `{FileSystem F T} `{!System F} `{!Read T} `{!ReadFinite T}
    (sort : PathSort) key a (s : Session F) :
  args_in_range a ->
  (USIZE_MAX < args_chunk_size a ->
   exists e, main sort key (Pack a) s = (Err (CliIo e), s) /\ io_kind e = InvalidInput) /\
  (args_chunk_size a <= USIZE_MAX ->
   exists o, main sort key (Pack a) s = pack_dir sort (pa_input_dir a) (pa_archive a) o key s /\
     options_in_range o /\ po_chunk_size o = args_chunk_size a /\ po_alignment o = args_alignment a /\
     po_mode o = mode_into (pa_mode a) /\ po_protection o = protection_into (pa_protection a)).
Proof.
  intros [Hc Ha]%args_sizes. cbn [main]. rewrite pack_args_run.
  destruct (Z.leb_spec (args_chunk_size a) USIZE_MAX) as [Hle|Hlt]; (split; [|try lia]); try lia.
  - intros _. eexists. split; [reflexivity|]. cbn [po_chunk_size po_alignment po_mode po_protection].
    split; [|done]. split; [|done]. by split.
  - intros _. eexists. by split.
Qed.

(** ** An instance *)

(** A small machine: the directory [/in] with the directory [sub], over the
    files of [Plain]. *)
Module CliDemo.
Definition dir_in : PathBuf := [RootDir; Normal (lit "in")].
Definition dir_sub : PathBuf := join_name dir_in (lit "sub").
Definition asset : PathBuf := join_name dir_sub (lit "b").
Definition archive : PathBuf := join_name dir_in (lit "out.rpak").

Definition listing (dir : PathBuf) (names : list bytes) (f : Plain.fs) : list (IoRes DirEntry) :=
  (fun name => Ok {| de_name := name; de_type := Ok FtFile |}) <$>
    filter (fun name => is_Some (Plain.lookup f (render (join_name dir name)))) names.

#[global] Arguments listing : simpl never.

Definition known : list PathBuf := [dir_in; dir_sub; asset; archive].

Definition known_path (p : bytes) : option PathBuf := head (filter (fun q => render q = p) known).

#[global] Instance machine : System Plain.fs := {
  canonicalize p f :=
    match known_path p with
    | Some q =>
        if bool_decide (q = dir_in \/ q = dir_sub \/ is_Some (Plain.lookup f p)) then Ok q else Err Plain.not_found
    | None => Err Plain.not_found
    end;
  absolute p _ := ok_or (known_path p) Plain.not_found;
  read_dir dir f :=
    if bool_decide (dir = dir_in) then
      Ok (Ok {| de_name := lit "sub"; de_type := Ok FtDir |} :: listing dir_in [lit "out.rpak"] f)
    else if bool_decide (dir = dir_sub) then Ok (listing dir_sub [lit "b"] f)
    else Err Plain.not_found;
  display := render;
  directories dir _ := if bool_decide (dir = dir_in) then 2%nat else 1%nat
}.

Lemma listing_files dir names f :
  Forall (fun e => safe e (fun e => de_type e <> Panic)) (listing dir names f) /\
  subdirectories dir (listing dir names f) = [] /\
  (NoDup names -> NoDup (entry_names (listing dir names f))) /\
  (forall name, Ok {| de_name := name; de_type := Ok FtFile |} ∈ listing dir names f ->
     is_Some (Plain.lookup f (render (join_name dir name)))).
Proof.
  unfold listing. set (l := filter _ _). split_and!.
  - apply Forall_fmap, Forall_forall. by intros name _.
  - clearbody l. by induction l.
  - intros Hn. assert (entry_names ((fun name => Ok {| de_name := name; de_type := Ok FtFile |}) <$> l) = l) as ->.
    { clearbody l. unfold entry_names. induction l as [|n l IH]; [done|]. cbn. by rewrite IH. }
    by apply NoDup_filter.
  - intros name (n & Hne & Hin)%list_elem_of_fmap. injection Hne as ->.
    by apply list_elem_of_filter in Hin as [? _].
Qed.

#[global] Instance machine_spec : SystemSpec Plain.fs Plain.lookup.
Proof.
  constructor.
  - intros p f. cbn. destruct (known_path p); [|done]. by case_bool_decide.
  - intros p f. cbn. by destruct (known_path p).
  - intros d f. cbn. destruct (bool_decide _); [|destruct (bool_decide _); [|done]]; cbn.
    + apply Forall_cons. split; [done|]. apply listing_files.
    + apply listing_files.
  - intros d f. cbn. destruct (bool_decide _); lia.
  - intros d f l. cbn. destruct (bool_decide_reflect (d = dir_in)) as [->|].
    + intros [= <-]. unfold subdirectories. rewrite bind_cons. fold (subdirectories dir_in).
      change (_ ≫= _) with (subdirectories dir_in (listing dir_in [lit "out.rpak"] f)).
      rewrite (proj1 (proj2 (listing_files _ _ f))). by apply Nat.leb_le.
    + destruct (bool_decide _) eqn:Hs; [|done]. apply bool_decide_eq_true in Hs as ->. intros [= <-].
      rewrite (proj1 (proj2 (listing_files _ _ f))). cbn. lia.
  - intros d f l. cbn. destruct (bool_decide _); [|destruct (bool_decide _); [|done]]; intros [= <-].
    + unfold listing. cbn. case_decide; cbn; repeat constructor; set_solver.
    + apply listing_files, NoDup_singleton.
  - intros d f l name. cbn. destruct (bool_decide_reflect (d = dir_in)) as [->|].
    + intros [= <-] [[= ]|Hin]%elem_of_cons. by apply listing_files in Hin.
    + destruct (bool_decide _) eqn:Hs; [|done]. apply bool_decide_eq_true in Hs as ->. intros [= <-] Hin.
      by apply listing_files in Hin.
Qed.

#[global] Instance files : FileSystem Plain.fs bytes := Plain.plain_fs.
#[global] Instance files_spec : FileSystemSpec (H := files) Plain.lookup Plain.data := Plain.plain_spec.
#[global] Instance files_streams : FileStreamSpec (H := files) Plain.lookup Plain.data := Plain.plain_streams.

Lemma one_spelling : OneSpelling (H := files) Plain.lookup.
Proof.
  constructor.
  - intros p f i g. cbn. destruct (Plain.lookup f p); [done|]. intros [= <- <-] q Hq. unfold Plain.lookup. cbn.
    by rewrite lookup_insert_ne.
  - intros p f g. cbn. destruct (Plain.lookup f p); [|done]. intros [= <-] q Hq. unfold Plain.lookup. cbn.
    by rewrite lookup_delete_ne.
  - intros p f e g. cbn. destruct (Plain.lookup f p) eqn:Hp; [done|]. by intros [= <- <-].
  - intros p q f g. cbn. destruct (Plain.lookup f p); [|done]. intros [= <-] r Hp Hq. unfold Plain.lookup. cbn.
    case_bool_decide; [done|]. by rewrite lookup_insert_ne, lookup_delete_ne.
Qed.

(** A sort. *)
Lemma bytes_leb_total a b : bytes_leb a b = true \/ bytes_leb b a = true.
Proof.
  revert b. induction a as [|x a IH]; intros [|y b]; cbn; auto.
  destruct (Z.ltb_spec (byte_val x) (byte_val y)), (Z.ltb_spec (byte_val y) (byte_val x)); auto; lia.
Qed.

Lemma bytes_leb_trans a b c : bytes_leb a b = true -> bytes_leb b c = true -> bytes_leb a c = true.
Proof.
  revert b c. induction a as [|x a IH]; intros [|y b] [|z c]; cbn; try done.
  destruct (Z.ltb_spec (byte_val x) (byte_val y)), (Z.ltb_spec (byte_val y) (byte_val x)), (Z.ltb_spec (byte_val y) (byte_val z)),
    (Z.ltb_spec (byte_val z) (byte_val y)), (Z.ltb_spec (byte_val x) (byte_val z)), (Z.ltb_spec (byte_val z) (byte_val x));
    try done; try lia. apply IH.
Qed.

#[local] Instance path_le_dec : RelDecision (path_le (A := PathBuf)).
Proof. intros x y. unfold path_le. apply _. Defined.

#[local] Instance path_le_total : Total (path_le (A := PathBuf)).
Proof. intros x y. apply bytes_leb_total. Qed.

#[local] Instance path_le_trans : Transitive (path_le (A := PathBuf)).
Proof. intros x y z. apply bytes_leb_trans. Qed.

Definition sort : PathSort := {|
  sort_files := merge_sort path_le;
  sort_files_permutation := merge_sort_Permutation path_le;
  sort_files_sorted := StronglySorted_merge_sort path_le
|}.

Definition session : Session Plain.fs := {|
  se_files := {| Plain.names := {[ render asset := 1 ]}; Plain.store := {[ 1 := lit "hello" ]} |};
  se_stdout := []; se_stderr := []; se_nonces := 0; se_pid := 7; se_nanos := 255
|}.

(** [pack /in /in/out.rpak] *)
Definition packing : Result CliError unit * Session Plain.fs :=
  pack_dir (C := Toy.crates) (T := bytes) sort (render dir_in) (render archive) Demo.options Demo.key session.

Definition packed : Session Plain.fs := packing.2.

Lemma packing_ok :
  pack_dir (C := Toy.crates) (T := bytes) sort (render dir_in) (render archive) Demo.options Demo.key session =
    (Ok tt, packed).
Proof.
  unfold packed, packing. set (m := pack_dir _ _ _ _ _ _). assert (m.1 = Ok tt) as Hm by (vm_compute; reflexivity).
  destruct m. cbn in Hm. by subst.
Qed.

(** What there was to pack. *)
Lemma in_listing : read_dir dir_in (se_files session) = Ok [Ok {| de_name := lit "sub"; de_type := Ok FtDir |}].
Proof. vm_compute. reflexivity. Qed.

Lemma sub_listing : read_dir dir_sub (se_files session) = Ok [Ok {| de_name := lit "b"; de_type := Ok FtFile |}].
Proof. vm_compute. reflexivity. Qed.

Lemma session_tree p : tree_file (se_files session) dir_in p <-> p = asset.
Proof.
  split.
  - intros Ht. inversion Ht as [dir l n Hl Hin|dir l n q Hl Hin Hb]; subst; rewrite in_listing in Hl;
      injection Hl as <-; apply list_elem_of_singleton in Hin; [discriminate|]. injection Hin as ->.
    inversion Hb as [dir l n Hl Hin|dir l n q Hl Hin Hb']; subst; change (join_name dir_in _) with dir_sub in *;
      rewrite sub_listing in Hl; injection Hl as <-; apply list_elem_of_singleton in Hin; [|discriminate].
    by injection Hin as ->.
  - intros ->. eapply tf_below; [exact in_listing|by left|]. eapply tf_here; [exact sub_listing|by left].
Qed.

Lemma session_inputs root' output' existing l :
  PackInputs (C := Toy.crates) (render dir_in) (render archive) session root' output' existing l ->
  output' = archive /\ l = [(lit "sub/b", asset)].
Proof.
  intros [Hr Ho He Hf Ha Hn _]. vm_compute in Hr. injection Hr as <-.
  assert (output' = archive) as ->.
  { vm_compute in Ho. injection Ho as <-. vm_compute. reflexivity. }
  assert (existing = None) as -> by (vm_compute in He; congruence). split; [done|].
  change [RootDir; Normal _] with dir_in in *. setoid_rewrite session_tree in Ha.
  destruct (proj2 (Ha asset)) as [q Hq].
  { split; [done|]. intros [?|?]; [|done]. by vm_compute in H. }
  destruct l as [|x l]; [by apply not_elem_of_nil in Hq|].
  assert (Hall : forall y, y ∈ x :: l -> y = (lit "sub/b", asset)).
  { intros [q' p'] Hin. assert (p' = asset) as -> by (apply (proj1 (Ha p')); by exists q').
    f_equal. destruct (Hf _ _ Hin) as (rel & Hrel & _ & Hnorm).
    change asset with (dir_in ++ [Normal (lit "sub"); Normal (lit "b")]) in Hrel.
    apply app_inv_head in Hrel as <-. vm_compute in Hnorm. by injection Hnorm as <-. }
  rewrite (Hall x) by (by left). f_equal. destruct l as [|y l]; [done|]. exfalso.
  rewrite (Hall x) in Hn by (by left). rewrite (Hall y) in Hn by (by right; left).
  cbn in Hn. apply NoDup_cons in Hn as [Hn _]. apply Hn. by left.
Qed.

(** The archive. *)
Definition bytes_ : bytes := Eval vm_compute in default [] (d ← Plain.lookup (se_files packed) (render archive);
  Some (Plain.data (se_files packed) d)).

Definition header : Header :=
  Eval vm_compute in match (read_header bytes_).1 with Ok h => h | _ => example_header end.

Lemma packed_at i : Plain.lookup (se_files packed) (render archive) = Some i -> Plain.data (se_files packed) i = bytes_.
Proof. intros Hi. vm_compute in Hi. injection Hi as <-. vm_compute. reflexivity. Qed.

Lemma packed_fits :
  fits_tooling (C := Toy.crates) Demo.options bytes_ [{| if_path := lit "sub/b"; if_data := lit "hello" |}].
Proof.
  exists header, [(lit "sub/b", lit "hello")]. split; [vm_compute; reflexivity|]. split.
  { constructor; [|constructor]. split; vm_compute; reflexivity. }
  constructor; [constructor; vm_compute; intuition congruence|by left| | |].
  - repeat constructor; vm_compute; congruence.
  - vm_compute. congruence.
  - intros id. etrans; [|instantiate (1 := 1); vm_compute; congruence].
    unfold len. apply (inj_le _ 1). apply (length_filter _ [(lit "sub/b", lit "hello")]).
Qed.
End CliDemo.

Lemma pack_dir_spec_witness :
  CliDemo.packing.1 = Ok tt /\ se_stdout CliDemo.packed =
    lit "packed 1 files, 2 chunks, 313 bytes -> /in/out.rpak (mode=production, protection=aead, chunk=0 KiB, align=16)" ++ newline /\
  dir_packed (C := Toy.crates) (lookup := Plain.lookup) (data := Plain.data) (render CliDemo.dir_in)
    (render CliDemo.archive) Demo.options Demo.key CliDemo.session CliDemo.packed /\
  exists output', normalized_output_path (render CliDemo.archive) CliDemo.session = (Ok output', CliDemo.session) /\
    forall p, p <> render output' ->
      Plain.lookup (se_files CliDemo.packed) p = Plain.lookup (se_files CliDemo.session) p.
Proof.
  split; [vm_compute; reflexivity|]. split; [vm_compute; reflexivity|].
  destruct (pack_dir_spec (C := Toy.crates) (T := bytes) (lookup := Plain.lookup) (data := Plain.data)
    CliDemo.sort (render CliDemo.dir_in) (render CliDemo.archive) Demo.options Demo.key CliDemo.session
    Demo.options_range) as (r & s' & Hrun & Hr).
  rewrite CliDemo.packing_ok in Hrun. revert Hrun. generalize CliDemo.packed. intros p Hrun.
  injection Hrun as <- <-.
  split; [exact (proj1 Hr)|exact (proj2 Hr CliDemo.one_spelling)].
Defined.

Lemma pack_extract_witness :
  exists s', extract_one (C := Toy.crates) (T := bytes) (render CliDemo.archive) (lit "sub\.\b") (lit "/x")
      Demo.key CliDemo.packed = (Ok tt, s') /\
    written_at (lookup := Plain.lookup) (data := Plain.data) (lit "/x") (lit "hello") CliDemo.packed s'.
Proof.
  destruct (pack_extract (C := Toy.crates) (T := bytes) (lookup := Plain.lookup) (data := Plain.data)
    CliDemo.sort (render CliDemo.dir_in) (render CliDemo.archive) Demo.options Demo.key CliDemo.session
    CliDemo.packed Demo.options_range CliDemo.packing_ok) as (root' & output' & existing & l & i & Hin & Hi & Hex).
  destruct (CliDemo.session_inputs _ _ _ _ Hin) as [-> ->].
  rewrite (CliDemo.packed_at i Hi) in Hex. specialize (Hex CliDemo.packed_fits CliDemo.packed (render CliDemo.archive) i Hi).
  rewrite (CliDemo.packed_at i Hi) in Hex. specialize (Hex eq_refl (lit "sub/b") CliDemo.asset (lit "sub\.\b") 1 (lit "/x")).
  destruct Hex as (r & s' & Hrun & Hr); [by left|vm_compute; reflexivity|vm_compute; reflexivity|vm_compute; congruence|].
  exists s'. set (m := extract_one _ _ _ _ _) in *. assert (Hm : m.1 = Ok tt) by (vm_compute; reflexivity).
  rewrite Hrun in Hm. cbn in Hm. subst r. split; [exact Hrun|exact Hr].
Defined.

Lemma reports_spec_witness :
  exists a s1, opened_at (C := Toy.crates) (lookup := Plain.lookup) (data := Plain.data) (render CliDemo.archive)
      Demo.key CliDemo.packed s1 a /\
    main (C := Toy.crates) (T := bytes) CliDemo.sort Demo.key (Verify (render CliDemo.archive)) CliDemo.packed =
      (Ok tt, say (verify_report a) s1).
Proof.
  destruct (reports_spec (C := Toy.crates) (T := bytes) (lookup := Plain.lookup) (data := Plain.data)
    CliDemo.sort Demo.key (Verify (render CliDemo.archive)) (render CliDemo.archive) verify_report CliDemo.packed)
    as (r & s' & Hrun & Hr); [right; left|].
  set (m := main _ _ _ _) in *. assert (Hm : m.1 = Ok tt) by (vm_compute; reflexivity).
  rewrite Hrun in Hm. cbn [fst] in Hm. subst r. destruct Hr as (a & s1 & Ha & -> & _). exists a, s1.
  split; [exact Ha|exact Hrun].
Defined.

Lemma collect_files_spec_witness :
  exists l, collect_files (C := Toy.crates) CliDemo.dir_in CliDemo.archive None CliDemo.session =
    (Ok l, CliDemo.session) /\ exists q, (q, CliDemo.asset) ∈ l.
Proof.
  destruct (collect_files_spec (C := Toy.crates) (lookup := Plain.lookup)
    CliDemo.dir_in CliDemo.archive None CliDemo.session) as (r & Hrun & Hr).
  set (m := collect_files _ _ _ _) in *.
  assert (Hm : m.1 = Ok [(lit "sub/b", CliDemo.asset)]) by (vm_compute; reflexivity).
  rewrite Hrun in Hm. cbn [fst] in Hm. subst r. destruct Hr as (_ & _ & _ & Hall). eexists. split; [exact Hrun|].
  apply Hall. split; [by apply CliDemo.session_tree|]. intros [?|?]; [|done]. by vm_compute in H.
Defined.

Lemma pack_args_spec_witness :
  exists e, main (C := Toy.crates) (T := bytes) CliDemo.sort Demo.key
    (Pack {| pa_input_dir := lit "/in"; pa_archive := lit "/out"; pa_mode := ModeDebug; pa_protection := ArgXor;
             pa_chunk_kib := Some (2 ^ 54); pa_alignment := None |}) CliDemo.session =
    (Err (CliIo e), CliDemo.session) /\ io_kind e = InvalidInput.
Proof.
  apply (pack_args_spec (C := Toy.crates) (T := bytes)); [|vm_compute; reflexivity].
  split; [|done]. intros k [= <-]. vm_compute. split; congruence.
Defined.
