(* ===== verification/FfiMem.v ===== *)
(** * The C interface: memory and calls ([rasen-archive-ffi/src/io.rs], [error.rs])

    The state a call runs in: the caller's memory, the thread's last error,
    the files, the host's streams.  A pointer that does not designate what the
    contract of the C header says is undefined behaviour, for a store as for a
    load, and so is a mutable slice that overlaps a shared one: an outcome of
    its own that the theorems exclude for valid pointers; [ffi_call] turns
    failures and panics into statuses. *)
From stdpp Require Export functions.
From S2P Require Export FfiIo Fs Open Roundtrip.

(** ** The host and the memory *)

(** The process around the library: the operating system's files, and the
    streams and sinks the caller's [user_data] pointers designate. *)
Class Host := {
  Files : Type;
  FileStream : Type;
  #[global] host_files :: FileSystem Files FileStream;
  UserStream : Type;
  #[global] user_stream :: StreamView UserStream;
  UserSink : Type;
  #[global] user_sink :: SinkView UserSink
}.

Section Data.
Context {H : Host}.

Record RasenStreamInput := {
  ss_path : ptr;
  ss_path_len : Z;
  ss_user_data : ptr;
  ss_read : option (RasenReadFn UserStream)
}.

Record RasenWriter := { rw_user_data : ptr; rw_callbacks : SinkFns UserSink }.

Record RasenArchive := { ra_inner : Archive FfiSource }.
Record RasenScratch := { rsc_inner : ArchiveScratch }.

(** What an address designates: an object of the caller, or one of the
    library ([CBox], [CArchive], [CScratch]) it was handed. *)
Inductive Cell :=
  | CBytes (data : bytes)
  | CBox (data : bytes)
  | CLimits (v : RasenArchiveLimits)
  | CInfo (v : RasenArchiveInfo)
  | CEntry (v : RasenEntry)
  | CPackOptions (v : RasenPackOptions)
  | CSummary (v : RasenPackSummary)
  | CBuffer (v : RasenBuffer)
  | CU8 (v : Z)
  | CU64 (v : Z)
  | CPtr (v : ptr)
  | CFiles (v : list RasenInputFile)
  | CStreams (v : list RasenStreamInput)
  | CWriter (v : RasenWriter)
  | CArchive (v : RasenArchive)
  | CScratch (v : RasenScratch).

(** The types of the objects behind single pointers; [usize] is [u64]. *)
Class Stored (T : Type) := {
  to_cell : T -> Cell;
  of_cell : Cell -> option T;
  of_to x : of_cell (to_cell x) = Some x
}.

#[export] Instance stored_limits : Stored RasenArchiveLimits :=
  {| to_cell := CLimits; of_cell c := match c with CLimits v => Some v | _ => None end;
     of_to _ := eq_refl |}.
#[export] Instance stored_info : Stored RasenArchiveInfo :=
  {| to_cell := CInfo; of_cell c := match c with CInfo v => Some v | _ => None end;
     of_to _ := eq_refl |}.
#[export] Instance stored_entry : Stored RasenEntry :=
  {| to_cell := CEntry; of_cell c := match c with CEntry v => Some v | _ => None end;
     of_to _ := eq_refl |}.
#[export] Instance stored_options : Stored RasenPackOptions :=
  {| to_cell := CPackOptions; of_cell c := match c with CPackOptions v => Some v | _ => None end;
     of_to _ := eq_refl |}.
#[export] Instance stored_summary : Stored RasenPackSummary :=
  {| to_cell := CSummary; of_cell c := match c with CSummary v => Some v | _ => None end;
     of_to _ := eq_refl |}.
#[export] Instance stored_buffer : Stored RasenBuffer :=
  {| to_cell := CBuffer; of_cell c := match c with CBuffer v => Some v | _ => None end;
     of_to _ := eq_refl |}.
#[export] Instance stored_writer : Stored RasenWriter :=
  {| to_cell := CWriter; of_cell c := match c with CWriter v => Some v | _ => None end;
     of_to _ := eq_refl |}.
#[export] Instance stored_archive : Stored RasenArchive :=
  {| to_cell := CArchive; of_cell c := match c with CArchive v => Some v | _ => None end;
     of_to _ := eq_refl |}.
#[export] Instance stored_scratch : Stored RasenScratch :=
  {| to_cell := CScratch; of_cell c := match c with CScratch v => Some v | _ => None end;
     of_to _ := eq_refl |}.

(** [u8], [u64] and pointers are all integers here. *)
Record U8 := { u8_val : Z }.
Record U64 := { u64_val : Z }.
Record Pointer := { ptr_val : ptr }.
#[export] Instance stored_u8 : Stored U8 :=
  {| to_cell x := CU8 (u8_val x); of_cell c := match c with CU8 v => Some {| u8_val := v |} | _ => None end;
     of_to x := match x with {| u8_val := v |} => eq_refl end |}.
#[export] Instance stored_u64 : Stored U64 :=
  {| to_cell x := CU64 (u64_val x); of_cell c := match c with CU64 v => Some {| u64_val := v |} | _ => None end;
     of_to x := match x with {| u64_val := v |} => eq_refl end |}.
#[export] Instance stored_ptr : Stored Pointer :=
  {| to_cell x := CPtr (ptr_val x); of_cell c := match c with CPtr v => Some {| ptr_val := v |} | _ => None end;
     of_to x := match x with {| ptr_val := v |} => eq_refl end |}.
End Data.

Abbreviation Memory := (gmap ptr Cell).

(** The allocator: where it places an object is its own business, but the
    place is new and not null. *)
Class Allocator {H : Host} := {
  new_address : Memory -> ptr;
  new_address_spec (m : Memory) : new_address m <> null /\ m !! new_address m = None
}.

(** An allocator that goes up. *)
Definition next_address {A} (m : gmap ptr A) : ptr := 1 + foldr Z.max 0 (elements (dom m)).

Lemma next_address_spec {A} (m : gmap ptr A) : next_address m <> null /\ m !! next_address m = None.
Proof.
  assert (Hm : forall l a, 0 <= foldr Z.max 0 l /\ (a ∈ l -> a <= foldr Z.max 0 l)).
  { induction l as [|x l IH]; intros a; [by split; [|intros ?%not_elem_of_nil]|].
    destruct (IH a) as [? Hl]. cbn. split; [lia|]. intros [->|?%Hl]%elem_of_cons; lia. }
  unfold next_address, null. split; [destruct (Hm (elements (dom m)) 0); lia|].
  apply not_elem_of_dom. intros Hin%elem_of_elements.
  destruct (Hm (elements (dom m)) (1 + foldr Z.max 0 (elements (dom m)))) as [_ Hl].
  specialize (Hl Hin). lia.
Qed.

(** ** The world of a call *)

Section World.
Context {H : Host}.

(** [w_destroyed] records the [destroy] callbacks made: function and argument;
    [w_nonces] counts the random nonces drawn. *)
Record World := {
  w_memory : Memory;
  w_last_error : bytes;
  w_nonces : nat;
  w_files : Files;
  w_streams : ptr -> UserStream;
  w_sinks : ptr -> UserSink;
  w_destroyed : list (ptr * ptr)
}.

Definition set_memory (m : Memory) (w : World) : World := {|
  w_memory := m; w_last_error := w_last_error w; w_nonces := w_nonces w; w_files := w_files w;
  w_streams := w_streams w; w_sinks := w_sinks w; w_destroyed := w_destroyed w |}.
Definition set_error (e : bytes) (w : World) : World := {|
  w_memory := w_memory w; w_last_error := e; w_nonces := w_nonces w; w_files := w_files w;
  w_streams := w_streams w; w_sinks := w_sinks w; w_destroyed := w_destroyed w |}.
Definition set_nonces (n : nat) (w : World) : World := {|
  w_memory := w_memory w; w_last_error := w_last_error w; w_nonces := n; w_files := w_files w;
  w_streams := w_streams w; w_sinks := w_sinks w; w_destroyed := w_destroyed w |}.
Definition set_files (f : Files) (w : World) : World := {|
  w_memory := w_memory w; w_last_error := w_last_error w; w_nonces := w_nonces w; w_files := f;
  w_streams := w_streams w; w_sinks := w_sinks w; w_destroyed := w_destroyed w |}.
Definition set_stream (p : ptr) (u : UserStream) (w : World) : World := {|
  w_memory := w_memory w; w_last_error := w_last_error w; w_nonces := w_nonces w; w_files := w_files w;
  w_streams := <[p := u]> (w_streams w); w_sinks := w_sinks w; w_destroyed := w_destroyed w |}.
Definition set_sink (p : ptr) (v : UserSink) (w : World) : World := {|
  w_memory := w_memory w; w_last_error := w_last_error w; w_nonces := w_nonces w; w_files := w_files w;
  w_streams := w_streams w; w_sinks := <[p := v]> (w_sinks w); w_destroyed := w_destroyed w |}.
Definition add_destroyed (d : list (ptr * ptr)) (w : World) : World := {|
  w_memory := w_memory w; w_last_error := w_last_error w; w_nonces := w_nonces w; w_files := w_files w;
  w_streams := w_streams w; w_sinks := w_sinks w; w_destroyed := w_destroyed w ++ d |}.

(** A call stops with a failure, or because its behaviour is undefined. *)
Inductive Stop := Failed (f : FfiFailure) | Undefined.

Abbreviation Call := (ST Stop World).

Definition undefined {A} : Call A := lift (Err Undefined).
Definition fail {A} (status : RasenStatus) (message : bytes) : Call A :=
  lift (Err (Failed (failure status message))).

(** [r?] of a call into the library, and of one that fails with a status. *)
Definition core {A} (r : Res A) : Call A := lift (map_err (fun e => Failed (from_error e)) r).
Definition ffi {A} (r : FfiResult A) : Call A := lift (map_err Failed r).

Definition memory : Call Memory := w ← get; mret (w_memory w).
Definition modify (f : World -> World) : Call unit := w ← get; put (f w).

(** [*p], and [*p = x]: defined where the pointer designates a [T]. *)
Definition load {T} `{!Stored T} (p : ptr) : Call T :=
  m ← memory;
  match m !! p ≫= of_cell with Some x => mret x | None => undefined end.

Definition assign {T} `{!Stored T} (p : ptr) (x : T) : Call unit :=
  (load p : Call T);;
  modify (fun w => set_memory (<[p := to_cell x]> (w_memory w)) w).

(** A call of the operating system. *)
Definition os {B} (m : ST IoError Files B) : Call B := fun w =>
  let '(r, f) := m (w_files w) in (map_err (fun e => Failed (from_io_error e)) r, set_files f w).

(** ** Pointers ([io.rs]) *)

Definition null_message (name : string) : bytes := lit name ++ lit " is null".

Definition required_ref {T} `{!Stored T} (value : ptr) (name : string) : Call T :=
  if is_null value then fail SNullPointer (null_message name) else load value.

(** The reference is the pointer, once it is known to designate a [T]. *)
Definition required_mut (T : Type) `{!Stored T} (value : ptr) (name : string) : Call unit :=
  if is_null value then fail SNullPointer (null_message name)
  else (load value : Call T);; mret tt.

(** [slice::from_raw_parts(data, len)] *)
Definition raw_bytes (m : Memory) (data : ptr) (n : Z) : option bytes :=
  match m !! data with
  | Some (CBytes d | CBox d) => slice_get d 0 n
  | _ => None
  end.

Definition load_bytes (data : ptr) (n : Z) : Call bytes :=
  m ← memory;
  match raw_bytes m data n with Some d => mret d | None => undefined end.

Definition bytes_ (data : ptr) (n : Z) (name : string) : Call bytes :=
  if n =? 0 then mret []
  else if is_null data then fail SNullPointer (null_message name)
  else load_bytes data n.

(** Slices begin at the first byte of their object. *)
Definition overlap (p : ptr) (n : Z) (q : ptr) (k : Z) : bool :=
  negb (n =? 0) && negb (k =? 0) && (p =? q).

(** The slice's bytes when the borrow begins; [end_borrow] stores them back.
    While the slice at [shared] is borrowed, a mutable borrow of the same bytes
    is undefined behaviour. *)
Definition bytes_mut (shared : ptr) (shared_len : Z) (data : ptr) (n : Z) (name : string) : Call bytes :=
  if n =? 0 then mret []
  else if is_null data then fail SNullPointer (null_message name)
  else if overlap shared shared_len data n then undefined
  else load_bytes data n.

Definition splice_cell (d : bytes) (c : Cell) : Cell :=
  match c with
  | CBytes old => CBytes (splice old 0 d)
  | CBox old => CBox (splice old 0 d)
  | c => c
  end.

Definition end_borrow (data : ptr) (n : Z) (d : bytes) : Call unit :=
  if n =? 0 then mret tt
  else modify (fun w => set_memory (alter (splice_cell d) data (w_memory w)) w).

Definition utf8 (data : ptr) (n : Z) (name : string) : Call bytes :=
  d ← bytes_ data n name;
  match from_utf8 d with
  | Some s => mret s
  | None => fail SInvalidUtf8 (lit name ++ lit " is not valid UTF-8")
  end.

(** [raw_slice] of input files and of streams. *)
Definition raw_array {T} (contents : Cell -> option (list T)) (m : Memory) (data : ptr) (n : Z) :
    option (list T) :=
  match m !! data with
  | Some c => match contents c with Some l => slice_get l 0 n | None => None end
  | None => None
  end.

Definition raw_slice {T} (contents : Cell -> option (list T)) (data : ptr) (n : Z) (name : string) :
    Call (list T) :=
  if n =? 0 then mret []
  else if is_null data then fail SNullPointer (null_message name)
  else
    m ← memory;
    match raw_array contents m data n with
    | Some l => mret l
    | None => undefined
    end.

Definition files_cell (c : Cell) : option (list RasenInputFile) :=
  match c with CFiles l => Some l | _ => None end.
Definition streams_cell (c : Cell) : option (list RasenStreamInput) :=
  match c with CStreams l => Some l | _ => None end.

(** [if let Some(out) = out.as_mut() { *out = x }] *)
Definition assign_optional {T} `{!Stored T} (out : ptr) (x : T) : Call unit :=
  if is_null out then mret tt else assign out x.

(** ** [ffi_call] ([error.rs]) *)

Definition set_last_error (message : bytes) (w : World) : World := set_error (sanitized message) w.

Definition ffi_call (call : Call unit) : Call RasenStatus := fun w =>
  match call w with
  | (Ok _, w) => (Ok SOk, w)
  | (Err (Failed error), w) => (Ok (ff_status error), set_last_error (ff_message error) w)
  | (Err Undefined, w) => (Err Undefined, w)
  | (Panic, w) => (Ok SPanic, set_last_error (lit "panic caught at FFI boundary") w)
  end.

Definition rasen_abi_version : Z := ABI_VERSION.

(** [concat!(env!("CARGO_PKG_VERSION"), "\0")], as the caller's C string. *)
Definition rasen_version_string : bytes := c_str (lit "0.6.0" ++ [x00]).

(** The C string at [LAST_ERROR.as_ptr()]. *)
Definition rasen_last_error_message : Call bytes := w ← get; mret (c_str (w_last_error w ++ [x00])).

(** ** The arguments' conversions that take a pointer ([types.rs]) *)

Definition pack_options (options : ptr) : Call PackOptions :=
  if is_null options then mret default_options
  else options ← load options; ffi (pack_options_from_c options).

Definition limits (limits : ptr) : Call ArchiveLimits :=
  if is_null limits then mret default_limits
  else l ← load limits; mret (limits_from_c l).

Definition rasen_archive_limits_runtime (out : ptr) : Call RasenStatus :=
  ffi_call (required_mut RasenArchiveLimits out "out";; assign out (limits_to_c runtime_default)).

Definition rasen_archive_limits_tooling (out : ptr) : Call RasenStatus :=
  ffi_call (required_mut RasenArchiveLimits out "out";; assign out (limits_to_c tooling_default)).

Definition rasen_pack_options_default (out : ptr) : Call RasenStatus :=
  ffi_call (required_mut RasenPackOptions out "out";; assign out (options_to_c default_options)).

(** ** Buffers ([io.rs]) *)

Context {A : Allocator}.

(** [Box::leak], [Box::into_raw] *)
Definition allocate_cell (c : Cell) : Call ptr := fun w =>
  let p := new_address (w_memory w) in
  (Ok p, set_memory (<[p := c]> (w_memory w)) w).

Definition into_buffer (bytes : bytes) : Call RasenBuffer :=
  if bool_decide (bytes = []) then mret default_buffer
  else p ← allocate_cell (CBox bytes); mret {| rb_data := p; rb_len := len bytes |}.

(** [Box::from_raw] and its drop: the box must be one the library leaked, of
    that size. *)
Definition drop_box (data : ptr) (n : Z) : Call unit :=
  m ← memory;
  match m !! data with
  | Some (CBox d) =>
      if len d =? n then modify (fun w => set_memory (delete data (w_memory w)) w) else undefined
  | _ => undefined
  end.

Definition rasen_buffer_free (buffer : ptr) : Call unit :=
  if is_null buffer then mret tt
  else
    b ← load buffer;
    (if negb (is_null (rb_data b)) then drop_box (rb_data b) (rb_len b) else mret tt);;
    assign buffer default_buffer.
End World.

Abbreviation Call := (ST Stop World).
