(* ===== verification/FfiArchive.v ===== *)
(** * The C interface: archives ([rasen-archive-ffi/src/archive.rs])

    Each exported function, in the order it looks at its arguments.  In an
    assignment [*place = value] Rust evaluates the value first. *)
From S2P Require Export FfiMem.

(** [RasenSource], passed by value. *)
Record RasenSource := {
  src_user_data : ptr;
  src_len : Z;
  src_read_at : option RasenReadAtFn;
  src_destroy : option ptr;
  src_len_range : is_u64 src_len
}.

(** [impl Drop for CallbackSource]: the callbacks made when a source goes. *)
Definition dropped (source : FfiSource) : list (ptr * ptr) :=
  match source with
  | SrcCallback s => match cs_destroy s with Some destroy => [(destroy, cs_user_data s)] | None => [] end
  | _ => []
  end.

Section Archive.
Context {C : Crates} {H : Host} {A : Allocator}.

Definition archive_ref (archive : ptr) : Call (Archive FfiSource) :=
  a ← required_ref archive "archive"; mret (ra_inner a).

(** A call that owns a source and has not handed it on when it fails: the
    source is dropped. *)
Definition owning {B} (source : FfiSource) (call : Call B) : Call B := fun w =>
  match call w with
  | (Ok b, w) => (Ok b, w)
  | (r, w) => (r, add_destroyed (dropped source) w)
  end.

Definition rasen_hash_path (path : ptr) (path_len : Z) (out_hash : ptr) : Call RasenStatus :=
  ffi_call (
    path ← utf8 path path_len "path";
    hash ← core (hash_path path);
    required_mut U64 out_hash "out_hash";;
    assign out_hash {| u64_val := hash |}).

Definition rasen_normalize_path (path : ptr) (path_len : Z) (out : ptr) : Call RasenStatus :=
  ffi_call (
    required_mut RasenBuffer out "out";;
    path ← utf8 path path_len "path";
    normalized ← core (normalize_path path);
    buffer ← into_buffer normalized;
    assign out buffer).

Definition open_archive (source : FfiSource) (key : bytes) (limits : ArchiveLimits) : Call ptr :=
  inner ← core (open_with_limits source key limits);
  allocate_cell (CArchive {| ra_inner := inner |}).

Definition rasen_archive_open_memory (data : ptr) (data_len : Z) (key : ptr) (key_len : Z)
    (limits_ptr out : ptr) : Call RasenStatus :=
  ffi_call (
    required_mut Pointer out "out";;
    source ← bytes_ data data_len "data";
    key ← bytes_ key key_len "key";
    limits ← limits limits_ptr;
    archive ← open_archive (SrcMemory source) key limits;
    assign out {| ptr_val := archive |}).

Definition rasen_archive_open_file (path : ptr) (path_len : Z) (key : ptr) (key_len : Z)
    (limits_ptr out : ptr) : Call RasenStatus :=
  ffi_call (
    required_mut Pointer out "out";;
    path ← utf8 path path_len "path";
    key ← bytes_ key key_len "key";
    file ← os (fs_open path);
    limits ← limits limits_ptr;
    archive ← open_archive (SrcFile (of_file file)) key limits;
    assign out {| ptr_val := archive |}).

Definition callback_source (source : RasenSource) : CallbackSource := {|
  cs_user_data := src_user_data source;
  cs_len := src_len source;
  cs_read_at := src_read_at source;
  cs_destroy := src_destroy source;
  cs_len_range := src_len_range source |}.

Definition rasen_archive_open_source (source : RasenSource) (key : ptr) (key_len : Z)
    (limits_ptr out : ptr) : Call RasenStatus :=
  let source := SrcCallback (callback_source source) in
  ffi_call (owning source (
    required_mut Pointer out "out";;
    key ← bytes_ key key_len "key";
    limits ← limits limits_ptr;
    archive ← open_archive source key limits;
    assign out {| ptr_val := archive |})).

(** [drop(Box::from_raw(archive))] *)
Definition rasen_archive_free (archive : ptr) : Call unit :=
  if is_null archive then mret tt
  else
    a ← load archive;
    modify (fun w => add_destroyed (dropped (ar_source (ra_inner a)))
                       (set_memory (delete archive (w_memory w)) w)).

Definition u8_from (b : bool) : U8 := {| u8_val := if b then 1 else 0 |}.

Definition archive_info (inner : Archive FfiSource) : RasenArchiveInfo := {|
  ri_entry_count := len (ar_entries inner);
  ri_chunk_size := ar_chunk_size inner;
  ri_alignment := ar_alignment inner;
  ri_paths_stripped := u8_val (u8_from (ar_paths_stripped inner));
  ri_protection := match ar_protection inner with
                   | Xor => PROTECTION_XOR
                   | Aead => PROTECTION_AEAD
                   end |}.

Definition rasen_archive_info (archive out : ptr) : Call RasenStatus :=
  ffi_call (
    inner ← archive_ref archive;
    required_mut RasenArchiveInfo out "out";;
    assign out (archive_info inner)).

Definition rasen_archive_entry_at (archive : ptr) (index : Z) (out : ptr) : Call RasenStatus :=
  ffi_call (
    inner ← archive_ref archive;
    entry ← ffi (ok_or (Prelude.index (ar_entries inner) index)
                   (failure SOutOfRange (lit "entry index out of range: " ++ fmt_dec index)));
    required_mut RasenEntry out "out";;
    assign out (ffi_entry entry)).

Definition rasen_archive_entry (archive path : ptr) (path_len : Z) (out : ptr) : Call RasenStatus :=
  ffi_call (
    inner ← archive_ref archive;
    path ← utf8 path path_len "path";
    entry ← core (entry inner path);
    required_mut RasenEntry out "out";;
    assign out (ffi_entry entry)).

Definition rasen_archive_entry_by_id (archive : ptr) (asset_id : Z) (out : ptr) : Call RasenStatus :=
  ffi_call (
    inner ← archive_ref archive;
    entry ← core (entry_by_id inner asset_id);
    required_mut RasenEntry out "out";;
    assign out (ffi_entry entry)).

Definition rasen_archive_verify (archive : ptr) : Call RasenStatus :=
  ffi_call (
    inner ← archive_ref archive;
    core (verify inner)).

Definition rasen_archive_contains (archive path : ptr) (path_len : Z) (out_contains : ptr) :
    Call RasenStatus :=
  ffi_call (
    inner ← archive_ref archive;
    path ← utf8 path path_len "path";
    found ← core (try_contains inner path);
    required_mut U8 out_contains "out_contains";;
    assign out_contains (u8_from found)).

Definition rasen_archive_contains_id (archive : ptr) (asset_id : Z) (out_contains : ptr) :
    Call RasenStatus :=
  ffi_call (
    inner ← archive_ref archive;
    required_mut U8 out_contains "out_contains";;
    assign out_contains (u8_from (contains_id inner asset_id))).

(** ** Reading *)

Definition read_buffer (archive out : ptr) (read : Archive FfiSource -> Res bytes) : Call unit :=
  inner ← archive_ref archive;
  required_mut RasenBuffer out "out";;
  value ← core (read inner);
  buffer ← into_buffer value;
  assign out buffer.

Definition rasen_archive_read (archive path : ptr) (path_len : Z) (out : ptr) : Call RasenStatus :=
  ffi_call (
    path ← utf8 path path_len "path";
    read_buffer archive out (fun inner => Reader.read inner path)).

Definition rasen_archive_read_by_id (archive : ptr) (asset_id : Z) (out : ptr) : Call RasenStatus :=
  ffi_call (read_buffer archive out (fun inner => read_by_id inner asset_id)).

Definition rasen_archive_read_chunk (archive path : ptr) (path_len chunk_index : Z) (out : ptr) :
    Call RasenStatus :=
  ffi_call (
    path ← utf8 path path_len "path";
    read_buffer archive out (fun inner => Reader.read_chunk inner path chunk_index)).

Definition rasen_archive_read_range (archive path : ptr) (path_len offset n : Z) (out : ptr) :
    Call RasenStatus :=
  ffi_call (
    path ← utf8 path path_len "path";
    read_buffer archive out (fun inner => read_range inner path offset n)).

Definition rasen_archive_read_range_exact (archive path : ptr) (path_len offset n : Z) (out : ptr) :
    Call RasenStatus :=
  ffi_call (
    path ← utf8 path path_len "path";
    read_buffer archive out (fun inner => read_range_exact inner path offset n)).

(** A read into the caller's slice, while [path] is borrowed. *)
Definition into_slice {B} (path : ptr) (path_len : Z) (dst : ptr) (dst_len : Z) (read : ST Error bytes B) : Call B :=
  d ← bytes_mut path path_len dst dst_len "dst";
  let '(r, d) := read d in
  end_borrow dst dst_len d;;
  core r.

Definition rasen_archive_read_into (archive path : ptr) (path_len : Z) (dst : ptr) (dst_len : Z) :
    Call RasenStatus :=
  ffi_call (
    inner ← archive_ref archive;
    name ← utf8 path path_len "path";
    into_slice path path_len dst dst_len (read_into inner name)).

Definition rasen_archive_read_chunk_into (archive path : ptr) (path_len chunk_index : Z)
    (dst : ptr) (dst_len : Z) : Call RasenStatus :=
  ffi_call (
    inner ← archive_ref archive;
    name ← utf8 path path_len "path";
    into_slice path path_len dst dst_len (read_chunk_into inner name chunk_index)).

Definition rasen_archive_read_range_into (archive path : ptr) (path_len offset : Z)
    (dst : ptr) (dst_len : Z) (out_read : ptr) : Call RasenStatus :=
  ffi_call (
    inner ← archive_ref archive;
    name ← utf8 path path_len "path";
    amount ← into_slice path path_len dst dst_len (read_range_into inner name offset);
    required_mut U64 out_read "out_read";;
    assign out_read {| u64_val := amount |}).

(** ** Scratch *)

Definition rasen_scratch_new (out : ptr) : Call RasenStatus :=
  ffi_call (
    scratch ← allocate_cell (CScratch {| rsc_inner := empty_scratch |});
    required_mut Pointer out "out";;
    assign out {| ptr_val := scratch |}).

Definition rasen_scratch_free (scratch : ptr) : Call unit :=
  if is_null scratch then mret tt
  else
    (load scratch : Call RasenScratch);;
    modify (fun w => set_memory (delete scratch (w_memory w)) w).

Definition scratch_mut (scratch : ptr) : Call ArchiveScratch :=
  s ← required_ref scratch "scratch"; mret (rsc_inner s).

Definition into_slice_with_scratch {B} (path : ptr) (path_len : Z) (dst : ptr) (dst_len : Z) (scratch : ptr)
    (read : ST Error (bytes * ArchiveScratch) B) : Call B :=
  d ← bytes_mut path path_len dst dst_len "dst";
  s ← scratch_mut scratch;
  let '(r, (d, s)) := read (d, s) in
  end_borrow dst dst_len d;;
  assign scratch {| rsc_inner := s |};;
  core r.

Definition rasen_archive_read_into_with_scratch (archive path : ptr) (path_len : Z)
    (dst : ptr) (dst_len : Z) (scratch : ptr) : Call RasenStatus :=
  ffi_call (
    inner ← archive_ref archive;
    name ← utf8 path path_len "path";
    into_slice_with_scratch path path_len dst dst_len scratch (read_into_with_scratch inner name)).

Definition rasen_archive_read_chunk_into_with_scratch (archive path : ptr) (path_len chunk_index : Z)
    (dst : ptr) (dst_len : Z) (scratch : ptr) : Call RasenStatus :=
  ffi_call (
    inner ← archive_ref archive;
    name ← utf8 path path_len "path";
    into_slice_with_scratch path path_len dst dst_len scratch (read_chunk_into_with_scratch inner name chunk_index)).

Definition rasen_archive_read_range_with_scratch (archive path : ptr) (path_len offset : Z)
    (dst : ptr) (dst_len : Z) (scratch out_read : ptr) : Call RasenStatus :=
  ffi_call (
    inner ← archive_ref archive;
    name ← utf8 path path_len "path";
    amount ← into_slice_with_scratch path path_len dst dst_len scratch (read_range_with_scratch inner name offset);
    required_mut U64 out_read "out_read";;
    assign out_read {| u64_val := amount |}).
End Archive.
