(* ===== verification/FfiPack.v ===== *)
(** * The C interface: packing ([rasen-archive-ffi/src/pack.rs])

    [rasen_pack_memory], [rasen_pack_file] and [rasen_pack_streams] over the
    packer of [Writer]. *)
From S2P Require Export FfiMem.

Definition failed (e : Error) : Stop := Failed (from_error e).

Section Buffered.
Context {C : Crates} {W : Type} `{WriteSeek W}.

(** The state is the writer and the nonces drawn. *)
Definition pack_buffered (files : list InputFile) (key : bytes) (options : PackOptions) :
    ST Error (W * nat) PackSummary := fun '(w, nonces) =>
  match new key options w with
  | (Ok packer, w) =>
      let '(r, s) := (add_files files;; finish)
                       {| ps_writer := w; ps_nonces := nonces; ps_self := packer |} in
      (r, (ps_writer s, ps_nonces s))
  | (Err e, w) => (Err e, (w, nonces))
  | (Panic, w) => (Panic, (w, nonces))
  end.

(** It is [pack_with_options], with the summary. *)
Lemma pack_with_options_buffered files key options s :
  pack_with_options files key options s = (pack_buffered files key options;; mret tt) s.
Proof.
  destruct s as [w n]. unfold pack_with_options, pack_buffered, mbind, st_bind, mret, st_ret.
  destruct (new key options w) as [[p|e|] w']; [|done..].
  destruct (add_files files _) as [[[]|e|] s1]; [|done..]. by destruct (finish s1) as [[sum|e|] s2].
Qed.
End Buffered.

Section Pack.
Context {C : Crates} {H : Host} {A : Allocator}.

(** ** Inputs *)

Definition buffered_input (file : RasenInputFile) : Call InputFile :=
  path ← utf8 (rf_path file) (rf_path_len file) "file.path";
  data ← bytes_ (rf_data file) (rf_data_len file) "file.data";
  mret {| if_path := path; if_data := data |}.

(** [files.iter().map(...).collect()] *)
Fixpoint collect_inputs (files : list RasenInputFile) : Call (list InputFile) :=
  match files with
  | [] => mret []
  | file :: files =>
      input ← buffered_input file;
      inputs ← collect_inputs files;
      mret (input :: inputs)
  end.

Definition buffered_inputs (files : ptr) (count : Z) : Call (list InputFile) :=
  files ← raw_slice files_cell files count "files";
  collect_inputs files.

(** A packing call over a writer that is a part of the world. *)
Definition with_writer_of {W B} (get_writer : World -> W) (put_writer : W -> World -> World)
    (m : ST Error (W * nat) B) : Call B := fun w =>
  let '(r, (writer, nonces)) := m (get_writer w, w_nonces w) in
  (map_err failed r, set_nonces nonces (put_writer writer w)).

(** ** To memory *)

Definition empty_cursor : VecCursor := {| vc_data := []; vc_pos := 0 |}.

(** A packing call over a local cursor, which the call gives back. *)
Definition with_cursor {B} (m : ST Error (VecCursor * nat) B) : Call (B * VecCursor) := fun w =>
  let '(r, (cursor, nonces)) := m (empty_cursor, w_nonces w) in
  (map_err failed (b ← r; mret (b, cursor)), set_nonces nonces w).

Definition rasen_pack_memory (files : ptr) (file_count : Z) (key : ptr) (key_len : Z)
    (options_ptr out_archive out_summary : ptr) : Call RasenStatus :=
  ffi_call (
    required_mut RasenBuffer out_archive "out_archive";;
    files ← buffered_inputs files file_count;
    key ← bytes_ key key_len "key";
    options ← pack_options options_ptr;
    '(summary, writer) ← with_cursor (pack_buffered files key options);
    buffer ← into_buffer (vc_data writer);
    assign out_archive buffer;;
    assign_optional out_summary (summary_to_c summary)).

(** ** To a file *)

(** [let _ = std::fs::remove_file(path)] *)
Definition remove_file (path : bytes) : Call unit := fun w =>
  (Ok tt, set_files (fs_remove_file path (w_files w)).2 w).

(** [match result { Ok(summary) => summary, Err(error) => { cleanup; return Err(error) } }] *)
Definition or_cleanup {B} (cleanup : Call unit) (m : Call B) : Call B := fun w =>
  match m w with
  | (Err (Failed e), w) => (cleanup;; lift (Err (Failed e))) w
  | other => other
  end.

Definition rasen_pack_file (output_path : ptr) (output_path_len : Z) (files : ptr) (file_count : Z)
    (key : ptr) (key_len : Z) (options_ptr out_summary : ptr) : Call RasenStatus :=
  ffi_call (
    output_path ← utf8 output_path output_path_len "output_path";
    files ← buffered_inputs files file_count;
    key ← bytes_ key key_len "key";
    options ← pack_options options_ptr;
    file ← os (fs_create_new output_path);
    summary ← or_cleanup (remove_file output_path)
      (with_writer_of (fun w => {| fw_files := w_files w; fw_file := file; fw_pos := 0 |})
         (fun writer w => set_files (fw_files writer) w)
         (pack_buffered files key options));
    assign_optional out_summary (summary_to_c summary)).

(** ** Over callbacks *)

Abbreviation Packing := (PackState (CallbackWriter UserSink)).

(** [packer.add_reader(path, &mut reader)?]: the reader's state is the stream
    behind its [user_data]. *)
Definition add_callback_reader (input : RasenStreamInput) (path : bytes) :
    ST Stop (World * Packing) unit := fun '(w, s) =>
  let reader := {| cr_user := w_streams w (ss_user_data input); cr_read := ss_read input |} in
  let '(r, (s, reader)) := add_reader path (s, reader) in
  (map_err failed r, (set_stream (ss_user_data input) (cr_user reader) w, s)).

(** The body of the loop. *)
Definition add_stream (input : RasenStreamInput) : ST Stop (World * Packing) unit :=
  path ← on_fst (utf8 (ss_path input) (ss_path_len input) "input.path");
  add_callback_reader input path.

Fixpoint add_streams (inputs : list RasenStreamInput) : ST Stop (World * Packing) unit :=
  match inputs with
  | [] => mret tt
  | input :: inputs =>
      add_stream input;;
      add_streams inputs
  end.

(** From [Packer::new] to [finish]; the writer's state is the sink behind its
    [user_data]. *)
Definition pack_inputs (inputs : list RasenStreamInput) (key : bytes) (options : PackOptions)
    (writer : RasenWriter) : Call PackSummary := fun w =>
  let callbacks := {| cw_user := w_sinks w (rw_user_data writer);
                      cw_callbacks := rw_callbacks writer; cw_position := 0 |} in
  match new key options callbacks with
  | (Ok packer, callbacks) =>
      let '(r, (w, s)) :=
        (add_streams inputs;; on_snd (st_map_err failed finish))
          (w, {| ps_writer := callbacks; ps_nonces := w_nonces w; ps_self := packer |}) in
      (r, set_nonces (ps_nonces s) (set_sink (rw_user_data writer) (cw_user (ps_writer s)) w))
  | (Err e, callbacks) => (Err (failed e), set_sink (rw_user_data writer) (cw_user callbacks) w)
  | (Panic, callbacks) => (Panic, set_sink (rw_user_data writer) (cw_user callbacks) w)
  end.

Definition rasen_pack_streams (inputs : ptr) (input_count : Z) (key : ptr) (key_len : Z)
    (options_ptr writer out_summary : ptr) : Call RasenStatus :=
  ffi_call (
    inputs ← raw_slice streams_cell inputs input_count "inputs";
    key ← bytes_ key key_len "key";
    callbacks ← required_ref writer "writer";
    options ← pack_options options_ptr;
    summary ← pack_inputs inputs key options callbacks;
    assign_optional out_summary (summary_to_c summary)).
End Pack.

Abbreviation Packing := (PackState (CallbackWriter UserSink)).
