(* ===== verification/FfiSound.v ===== *)
(** * The C interface: soundness of calls

    What every call keeps: the cells of the memory stay well-typed (so the
    archives behind handles satisfy their invariant), objects keep their kind,
    and the sources handed to the library balance the [destroy] callbacks.
    The rules of [csound] prove it statement by statement. *)
From S2P Require Export FfiArchive FfiPack.

Section Invariant.
Context {C : Crates} {H : Host}.

(** ** Kinds: what a pointer designates, without the contents *)

Inductive Kind :=
  | KBytes (n : Z) | KBox (n : Z) | KLimits | KInfo | KEntry | KPackOptions | KSummary | KBuffer
  | KU8 | KU64 | KPtr | KFiles (v : list RasenInputFile) | KStreams (v : list RasenStreamInput)
  | KWriter | KArchive | KScratch.

Definition kind (c : Cell) : Kind :=
  match c with
  | CBytes d => KBytes (len d)
  | CBox d => KBox (len d)
  | CLimits _ => KLimits
  | CInfo _ => KInfo
  | CEntry _ => KEntry
  | CPackOptions _ => KPackOptions
  | CSummary _ => KSummary
  | CBuffer _ => KBuffer
  | CU8 _ => KU8
  | CU64 _ => KU64
  | CPtr _ => KPtr
  | CFiles v => KFiles v
  | CStreams v => KStreams v
  | CWriter _ => KWriter
  | CArchive _ => KArchive
  | CScratch _ => KScratch
  end.

(** The kind of the cells of a type. *)
Class KindOf (T : Type) `{!Stored T} := {
  kind_of : Kind;
  kind_of_cell x : kind (to_cell x) = kind_of;
  kind_of_inv c : kind c = kind_of -> exists x, of_cell c = Some x
}.

Ltac kind_of_tac K := refine {| kind_of := K |};
  [done|intros []; cbn; try discriminate; intros _; eexists; reflexivity].

#[export] Instance kind_of_limits : KindOf RasenArchiveLimits. Proof. kind_of_tac KLimits. Defined.
#[export] Instance kind_of_info : KindOf RasenArchiveInfo. Proof. kind_of_tac KInfo. Defined.
#[export] Instance kind_of_entry : KindOf RasenEntry. Proof. kind_of_tac KEntry. Defined.
#[export] Instance kind_of_options : KindOf RasenPackOptions. Proof. kind_of_tac KPackOptions. Defined.
#[export] Instance kind_of_summary : KindOf RasenPackSummary. Proof. kind_of_tac KSummary. Defined.
#[export] Instance kind_of_buffer : KindOf RasenBuffer. Proof. kind_of_tac KBuffer. Defined.
#[export] Instance kind_of_writer : KindOf RasenWriter. Proof. kind_of_tac KWriter. Defined.
#[export] Instance kind_of_archive : KindOf RasenArchive. Proof. kind_of_tac KArchive. Defined.
#[export] Instance kind_of_scratch : KindOf RasenScratch. Proof. kind_of_tac KScratch. Defined.
#[export] Instance kind_of_u8 : KindOf U8. Proof. kind_of_tac KU8. Defined.
#[export] Instance kind_of_u64 : KindOf U64. Proof. kind_of_tac KU64. Defined.
#[export] Instance kind_of_pointer : KindOf Pointer. Proof. kind_of_tac KPtr. Defined.

Definition place (m : Memory) (p : ptr) (k : Kind) : Prop := exists c, m !! p = Some c /\ kind c = k.

Definition kinds_kept (m m' : Memory) : Prop := forall p k, place m p k -> place m' p k.

(** ** Well-typed cells *)

Definition cell_ok (c : Cell) : Prop :=
  match c with
  | CLimits v => limits_in_range (limits_from_c v)
  | CPackOptions v => is_u64 (rp_chunk_size v) /\ is_u32 (rp_alignment v)
  | CArchive v => ArchiveWf (ra_inner v)
  | _ => True
  end.

(** ** The ledger of sources *)

(** The [destroy] callbacks an object still owes. *)
Definition owed (c : Cell) : list (ptr * ptr) :=
  match c with CArchive v => dropped (ar_source (ra_inner v)) | _ => [] end.

Definition live (m : Memory) : list (ptr * ptr) :=
  map_to_list m ≫= (fun '(_, c) => owed c).

Lemma live_insert_new (m : Memory) p c :
  m !! p = None -> live (<[p := c]> m) ≡ₚ owed c ++ live m.
Proof.
  intros Hp. unfold live. etrans; [by apply bind_Permutation, map_to_list_insert|]. done.
Qed.

Lemma live_delete (m : Memory) p c :
  m !! p = Some c -> owed c ++ live (delete p m) ≡ₚ live m.
Proof.
  intros Hp. unfold live. etrans; [|by apply bind_Permutation, (map_to_list_delete m p c Hp)]. done.
Qed.

Lemma live_insert (m : Memory) p c d :
  m !! p = Some c -> owed c = [] -> owed d = [] -> live (<[p := d]> m) ≡ₚ live m.
Proof.
  intros Hp Hc Hd. rewrite <- insert_delete_eq, live_insert_new by apply lookup_delete_eq.
  rewrite Hd. pose proof (live_delete m p c Hp) as Hl. by rewrite Hc in Hl.
Qed.

(** [h] lists the sources the library was ever handed: each has been destroyed
    once, or belongs to one archive that is still open. *)
Record Good (h : list (ptr * ptr)) (w : World) : Prop := {
  good_cells p c : w_memory w !! p = Some c -> cell_ok c;
  good_ledger : h ≡ₚ w_destroyed w ++ live (w_memory w)
}.

(** The state [w'] follows from [w] by a call that keeps everything. *)
Record Keeps (h : list (ptr * ptr)) (w w' : World) : Prop := {
  keeps_good : Good h w';
  keeps_kinds : kinds_kept (w_memory w) (w_memory w')
}.

(** The failures a call may report are errors, and no panics. *)
(** The statuses a call can return: none says that a panic was caught, and none
    that a callback failed (such a failure is an I/O error). *)
Definition possible (s : RasenStatus) : Prop := s <> SPanic /\ s <> SCallbackFailed.

Definition reported (f : FfiFailure) : Prop := ff_status f <> SOk /\ possible (ff_status f).

Definition csafe {B} (m : Call B) (w : World) (Q : B -> World -> Prop) (X : World -> Prop) : Prop :=
  match m w with
  | (Ok b, w') => Q b w'
  | (Err (Failed f), w') => reported f /\ X w'
  | _ => False
  end.

(** [m] keeps [h]'s invariant; its value satisfies [Q]. *)
Definition csound {B} (h : list (ptr * ptr)) (m : Call B) (w : World) (Q : B -> World -> Prop) : Prop :=
  Good h w -> csafe m w (fun b w' => Keeps h w w' /\ Q b w') (Keeps h w).

(** ** Rules *)

Lemma Keeps_refl h w : Good h w -> Keeps h w w.
Proof. intros Hg. split; [done|]. by intros p k. Qed.

Lemma Keeps_trans h w w1 w2 : Keeps h w w1 -> Keeps h w1 w2 -> Keeps h w w2.
Proof. intros [_ H1] [G2 H2]. split; [done|]. intros p k Hp. by apply H2, H1. Qed.

Lemma csafe_mono {B} (m : Call B) w P Q (X Y : World -> Prop) :
  csafe m w P X -> (forall b w', m w = (Ok b, w') -> P b w' -> Q b w') -> (forall w', X w' -> Y w') -> csafe m w Q Y.
Proof. unfold csafe. destruct (m w) as [[b|[f|]|] w']; naive_solver. Qed.

Lemma csafe_bind {B D} (m : Call B) (f : B -> Call D) w P Q X :
  csafe m w P X -> (forall b w', m w = (Ok b, w') -> P b w' -> csafe (f b) w' Q X) ->
  csafe (m ≫= f) w Q X.
Proof. unfold csafe, mbind, st_bind. destruct (m w) as [[b|[e|]|] w']; naive_solver. Qed.

Lemma csound_bind {B D} h (m : Call B) (f : B -> Call D) w P Q :
  csound h m w P -> (forall b w', Keeps h w w' -> P b w' -> csound h (f b) w' Q) ->
  csound h (m ≫= f) w Q.
Proof.
  intros Hm Hf Hg. eapply csafe_bind; [by apply Hm|]. intros b w' _ [Hk Hp].
  eapply csafe_mono; [apply (Hf b w' Hk Hp); apply Hk| |].
  - intros d w2 _ [Hk2 Hq]. split; [by eapply Keeps_trans|done].
  - intros w2 Hk2. by eapply Keeps_trans.
Qed.

Lemma csound_ret {B} h (b : B) w (Q : B -> World -> Prop) : Q b w -> csound h (mret b) w Q.
Proof. intros Hq Hg. split; [by apply Keeps_refl|done]. Qed.

(** A statement that leaves the world alone. *)
Definition pure_step {B} (m : Call B) (w : World) (P : B -> Prop) : Prop :=
  csafe m w (fun b w' => w' = w /\ P b) (fun w' => w' = w).

Lemma csound_pure_bind {B D} h (m : Call B) (f : B -> Call D) w P Q :
  pure_step m w P -> (forall b, P b -> csound h (f b) w Q) -> csound h (m ≫= f) w Q.
Proof.
  intros Hm Hf Hg. eapply csafe_bind.
  - eapply csafe_mono; [apply Hm|intros b w' _ Hp; exact Hp|]. intros w' ->. by apply Keeps_refl.
  - intros b w' _ [-> Hp]. by apply Hf.
Qed.

Lemma pure_step_bind {B D} (m : Call B) (f : B -> Call D) w P Q :
  pure_step m w P -> (forall b, P b -> pure_step (f b) w Q) -> pure_step (m ≫= f) w Q.
Proof. intros Hm Hf. eapply csafe_bind; [apply Hm|]. intros b w' _ [-> Hp]. by apply Hf. Qed.

Lemma pure_then {B D} (m : Call B) (f : B -> Call D) w P Q :
  pure_step m w P -> (forall b, P b -> csafe (f b) w Q (fun w' => w' = w)) ->
  csafe (m ≫= f) w Q (fun w' => w' = w).
Proof. intros Hm Hf. eapply csafe_bind; [exact Hm|]. intros b w' _ [-> Hp]. by apply Hf. Qed.

Lemma pure_ret {B} (b : B) w (P : B -> Prop) : P b -> pure_step (mret b) w P.
Proof. by split. Qed.

Lemma core_status_reported e : reported (from_error e).
Proof. by destruct e. Qed.

Lemma pure_core {B} (r : Res B) w P : safe r P -> pure_step (core r) w (fun b => r = Ok b /\ P b).
Proof. unfold pure_step, csafe, core, lift. destruct r; [done| |done]. intros _. split; [apply core_status_reported|done]. Qed.

Lemma pure_core_np {B} (r : Res B) w : r <> Panic -> pure_step (core r) w (fun b => r = Ok b).
Proof. unfold pure_step, csafe, core, lift. destruct r; [done| |done]. intros _. split; [apply core_status_reported|done]. Qed.

Lemma csound_core {B} h (r : Res B) w : r <> Panic -> csound h (core r) w (fun _ _ => True).
Proof.
  intros Hr Hg. eapply csafe_mono; [by apply pure_core_np| |].
  - intros b w' _ [-> _]. by split; [apply Keeps_refl|].
  - intros w' ->. by apply Keeps_refl.
Qed.

Lemma pure_fail {B} status message w (P : B -> Prop) :
  status <> SOk -> possible status -> pure_step (fail status message) w P.
Proof. by split. Qed.

(** ** Valid arguments: null, or what the C header asks for *)

Definition optional (m : Memory) (p : ptr) (k : Kind) : Prop := p = null \/ place m p k.

Definition slice_ok (m : Memory) (p : ptr) (n : Z) : Prop :=
  0 <= n /\ (n = 0 \/ p = null \/ exists l, n <= l /\ (place m p (KBytes l) \/ place m p (KBox l))).

Definition files_ok (m : Memory) (p : ptr) (n : Z) : Prop :=
  0 <= n /\ (n = 0 \/ p = null \/ exists l, n <= len l /\ place m p (KFiles l)).
Definition streams_ok (m : Memory) (p : ptr) (n : Z) : Prop :=
  0 <= n /\ (n = 0 \/ p = null \/ exists l, n <= len l /\ place m p (KStreams l)).

Lemma optional_kept m m' p k : kinds_kept m m' -> optional m p k -> optional m' p k.
Proof. intros Hk [->|Hp]; [by left|right; by apply Hk]. Qed.

Lemma slice_ok_kept m m' p n : kinds_kept m m' -> slice_ok m p n -> slice_ok m' p n.
Proof.
  intros Hk [Hn [?|[?|(l & Hl & Hp)]]]; (split; [done|]); [by left|by right; left|right; right].
  exists l. split; [done|]. destruct Hp; [left|right]; by apply Hk.
Qed.

(** ** Pointers *)

Lemma pure_load {T} `{KindOf T} (p : ptr) w :
  place (w_memory w) p kind_of ->
  pure_step (load p : Call T) w (fun x => exists c, w_memory w !! p = Some c /\ of_cell c = Some x).
Proof.
  intros (c & Hc & Hk). destruct (kind_of_inv c Hk) as [x Hx].
  unfold pure_step, csafe, load, memory, get, mbind, st_bind. cbn. rewrite Hc. cbn. rewrite Hx.
  split; [done|]. by exists c.
Qed.

Lemma pure_required_ref {T} `{KindOf T} (p : ptr) name w :
  optional (w_memory w) p kind_of ->
  pure_step (required_ref p name : Call T) w
    (fun x => p <> null /\ exists c, w_memory w !! p = Some c /\ of_cell c = Some x).
Proof.
  intros Hp. unfold required_ref, is_null. destruct (Z.eqb_spec p null) as [->|Hne].
  - by apply pure_fail.
  - destruct Hp as [->|Hp]; [done|]. eapply csafe_mono; [by apply pure_load| |done].
    by intros x w' _ [-> Hx].
Qed.

Lemma pure_required_mut T `{KindOf T} (p : ptr) name w :
  optional (w_memory w) p kind_of ->
  pure_step (required_mut T p name) w (fun _ => p <> null /\ place (w_memory w) p kind_of).
Proof.
  intros Hp. unfold required_mut, is_null. destruct (Z.eqb_spec p null) as [->|Hne].
  - by apply pure_fail.
  - destruct Hp as [->|Hp]; [done|]. eapply csafe_bind; [by apply pure_load|].
    intros x w' _ [-> _]. done.
Qed.

Lemma raw_bytes_ok m p n :
  slice_ok m p n -> n <> 0 -> p <> null -> exists d, raw_bytes m p n = Some d /\ len d = n.
Proof.
  intros [Hn [?|[?|(l & Hl & Hp)]]] Hn0 Hp0; [done..|].
  assert (Hget : forall d : bytes, len d = l -> exists d', slice_get d 0 n = Some d' /\ len d' = n).
  { intros d Hd. pose proof (slice_get_in d 0 n ltac:(lia) ltac:(lia) ltac:(lia)) as Hs.
    eexists. split; [exact Hs|]. apply slice_get_len in Hs. lia. }
  unfold raw_bytes. destruct Hp as [(c & -> & Hc)|(c & -> & Hc)]; destruct c; try discriminate;
    injection Hc as Hc; by apply Hget.
Qed.

Lemma pure_bytes (p : ptr) n name w :
  slice_ok (w_memory w) p n -> pure_step (bytes_ p n name) w (fun d => len d = n).
Proof.
  intros Hp. unfold bytes_, is_null. destruct (Z.eqb_spec n 0) as [->|Hn]; [by apply pure_ret|].
  destruct (Z.eqb_spec p null) as [->|Hne]; [by apply pure_fail|].
  destruct (raw_bytes_ok _ _ _ Hp Hn Hne) as (d & Hd & Hl).
  unfold pure_step, csafe, load_bytes, memory, get, mbind, st_bind. cbn. by rewrite Hd.
Qed.

(** The mutable slice does not overlap the shared one. *)
Definition disjoint (p : ptr) (n : Z) (q : ptr) (k : Z) : Prop :=
  n = 0 \/ k = 0 \/ q = null \/ p <> q.

(** A slice to write to while another is borrowed. *)
Definition dst_ok (m : Memory) (path : ptr) (path_len : Z) (dst : ptr) (n : Z) : Prop :=
  slice_ok m dst n /\ disjoint path path_len dst n.

Lemma pure_bytes_mut (q : ptr) k (p : ptr) n name w :
  slice_ok (w_memory w) p n -> disjoint q k p n ->
  pure_step (bytes_mut q k p n name) w (fun d => len d = n /\ (n <> 0 -> p <> null)).
Proof.
  intros Hp Hd. pose proof (pure_bytes p n name w Hp) as Hb. revert Hb.
  unfold pure_step, bytes_, bytes_mut, is_null. destruct (Z.eqb_spec n 0) as [->|Hn]; [done|].
  destruct (Z.eqb_spec p null) as [->|Hne]; [done|]. intros Hb.
  assert (overlap q k p n = false) as ->.
  { unfold overlap. destruct (Z.eqb_spec k 0), (Z.eqb_spec n 0), (Z.eqb_spec q p); try done.
    by destruct Hd as [?|[?|[?|?]]]. }
  eapply csafe_mono; [exact Hb| |done]. by intros d w' _ [-> ?].
Qed.

Lemma pure_utf8 (p : ptr) n name w :
  slice_ok (w_memory w) p n ->
  pure_step (utf8 p n name) w (fun s => utf8_valid s = true /\ len s = n).
Proof.
  intros Hp. unfold utf8. eapply pure_step_bind; [by apply pure_bytes|]. intros d Hd.
  unfold from_utf8. destruct (utf8_valid d) eqn:Hu; [by apply pure_ret|by apply pure_fail].
Qed.

Lemma pure_raw_slice {T} contents (K : list T -> Kind) (p : ptr) n name w :
  (forall c l, kind c = K l -> contents c = Some l) ->
  0 <= n /\ (n = 0 \/ p = null \/ exists l, n <= len l /\ place (w_memory w) p (K l)) ->
  pure_step (raw_slice contents p n name) w
    (fun l => l = [] \/ exists all, place (w_memory w) p (K all) /\ slice_get all 0 n = Some l).
Proof.
  intros HK [Hn Hp]. unfold raw_slice, is_null.
  destruct (Z.eqb_spec n 0) as [->|Hn0]; [apply pure_ret; by left|].
  destruct (Z.eqb_spec p null) as [->|Hne]; [by apply pure_fail|].
  destruct Hp as [?|[?|(l & Hl & c & Hc & Hk)]]; [done..|].
  unfold pure_step, csafe, memory, get, raw_array, mbind, st_bind. cbn. rewrite Hc, (HK _ _ Hk).
  destruct (slice_get l 0 n) as [s|] eqn:Hs.
  - split; [done|]. right. exists l. split; [by exists c|done].
  - by rewrite slice_get_in in Hs by lia.
Qed.

Lemma pure_limits (p : ptr) h w :
  Good h w -> optional (w_memory w) p KLimits -> pure_step (limits p) w limits_in_range.
Proof.
  intros Hg Hp. unfold limits, is_null. destruct (Z.eqb_spec p null) as [->|Hne].
  { apply pure_ret. vm_compute. intuition congruence. }
  destruct Hp as [->|Hp]; [done|].
  eapply pure_step_bind; [by apply (pure_load (T := RasenArchiveLimits))|].
  intros l (c & Hc & Hl). apply pure_ret. apply (good_cells _ _ Hg) in Hc. destruct c; try discriminate.
  cbn in Hl. by injection Hl as ->.
Qed.

Lemma pure_pack_options (p : ptr) h w :
  Good h w -> optional (w_memory w) p KPackOptions -> pure_step (pack_options p) w options_in_range.
Proof.
  intros Hg Hp. unfold pack_options, is_null. destruct (Z.eqb_spec p null) as [->|Hne].
  { apply pure_ret. vm_compute. intuition congruence. }
  destruct Hp as [->|Hp]; [done|].
  eapply pure_step_bind; [by apply (pure_load (T := RasenPackOptions))|].
  intros o (c & Hc & Ho). apply (good_cells _ _ Hg) in Hc. destruct c; try discriminate.
  cbn in Ho. injection Ho as ->. cbn in Hc. unfold pure_step, csafe, ffi, lift, pack_options_from_c.
  destruct (rp_mode o =? _); [|destruct (rp_mode o =? _)]; cbn;
    [destruct (rp_protection o =? _); [|destruct (rp_protection o =? _)]; cbn..|]; by split_and!.
Qed.

(** ** Writes *)

Lemma owed_nil c : kind c <> KArchive -> owed c = [].
Proof. by destruct c. Qed.

(** Replacing a cell by one of its kind. *)
Lemma Keeps_insert h w p c d :
  Good h w -> w_memory w !! p = Some c -> kind d = kind c -> kind c <> KArchive -> cell_ok d ->
  Keeps h w (set_memory (<[p := d]> (w_memory w)) w).
Proof.
  intros [Hc Hl] Hp Hk Hn Hd. split; [split|].
  - cbn. intros q e. destruct (decide (q = p)) as [->|Hq].
    + rewrite lookup_insert_eq. by intros [= <-].
    + rewrite lookup_insert_ne by done. by apply Hc.
  - cbn. rewrite (live_insert _ _ c) by (done || apply owed_nil; congruence). done.
  - cbn. intros q k (e & He & Hke). destruct (decide (q = p)) as [->|Hq].
    + exists d. rewrite lookup_insert_eq. split; [done|]. congruence.
    + exists e. by rewrite lookup_insert_ne.
Qed.

Lemma csafe_assign {T} `{KindOf T} h (p : ptr) (x : T) w :
  Good h w -> place (w_memory w) p kind_of -> kind_of <> KArchive -> cell_ok (to_cell x) ->
  csafe (assign p x) w (fun _ w' => Keeps h w w') (fun _ => False).
Proof.
  intros Hg (c & Hc & Hk) Hn Hx. destruct (kind_of_inv c Hk) as [y Hy].
  unfold csafe, assign, load, memory, get, modify, put, mbind, st_bind. cbn. rewrite Hc. cbn. rewrite Hy. cbn.
  apply (Keeps_insert _ _ _ c); [done..|by rewrite kind_of_cell|by rewrite Hk|done].
Qed.

Lemma csound_assign {T} `{KindOf T} h (p : ptr) (x : T) w :
  place (w_memory w) p kind_of -> kind_of <> KArchive -> cell_ok (to_cell x) ->
  csound h (assign p x) w (fun _ _ => True).
Proof.
  intros Hp Hn Hx Hg. eapply csafe_mono; [by apply csafe_assign|by intros [] w' _ ?|done].
Qed.

Lemma kind_splice d c :
  (forall n, kind c = KBytes n \/ kind c = KBox n -> len d <= n) -> kind (splice_cell d c) = kind c.
Proof.
  intros Hl. destruct c; try done; cbn in *; f_equal; apply len_splice; try lia; apply Hl; eauto.
Qed.

(** The end of a borrow of a slice of the caller. *)
Lemma csound_end_borrow h (p : ptr) n d w :
  slice_ok (w_memory w) p n -> len d = n -> (n <> 0 -> p <> null) ->
  csound h (end_borrow p n d) w (fun _ _ => True).
Proof.
  intros [Hn Hp] Hd Hp0. unfold end_borrow. destruct (Z.eqb_spec n 0) as [->|Hne]; [by apply csound_ret|].
  specialize (Hp0 Hne). destruct Hp as [?|[?|(l & Hl & Hp)]]; [done..|]. intros Hg.
  unfold csafe, modify, get, put, mbind, st_bind. split; [|done].
  assert (exists c, w_memory w !! p = Some c /\ (kind c = KBytes l \/ kind c = KBox l)) as (c & Hc & Hk).
  { destruct Hp as [(c & ? & ?)|(c & ? & ?)]; exists c; eauto. }
  assert (Ha : alter (splice_cell d) p (w_memory w) = <[p := splice_cell d c]> (w_memory w)).
  { apply map_eq. intros q. destruct (decide (q = p)) as [->|Hq].
    - by rewrite lookup_alter_eq, lookup_insert_eq, Hc.
    - by rewrite lookup_alter_ne, lookup_insert_ne. }
  rewrite Ha. apply (Keeps_insert _ _ _ c); [done..| |destruct Hk; congruence|].
  - apply kind_splice. intros m Hm. destruct Hk, Hm; assert (m = l) by congruence; lia.
  - pose proof (good_cells _ _ Hg _ _ Hc). by destruct c.
Qed.

Context {A : Allocator}.

(** A new object: the ledger takes what it owes. *)
Lemma allocate_good h w c p w' :
  Good h w -> cell_ok c -> allocate_cell c w = (Ok p, w') ->
  Good (h ++ owed c) w' /\ kinds_kept (w_memory w) (w_memory w').
Proof.
  intros [Hc Hl] Hok. unfold allocate_cell. intros [= <- <-].
  destruct (new_address_spec (w_memory w)) as [_ Hnew]. split; [split|].
  - cbn. intros q e. destruct (decide (q = new_address (w_memory w))) as [->|Hq].
    + rewrite lookup_insert_eq. by intros [= <-].
    + rewrite lookup_insert_ne by done. by apply Hc.
  - cbn. rewrite live_insert_new by done. rewrite Hl. solve_Permutation.
  - cbn. intros q k (e & He & Hke). exists e. split; [|done].
    rewrite lookup_insert_ne; [done|]. intros <-. congruence.
Qed.

Lemma csound_allocate h w c :
  cell_ok c -> owed c = [] -> csound h (allocate_cell c) w (fun _ _ => True).
Proof.
  intros Hc Ho Hg. destruct (allocate_cell c w) as [r w'] eqn:E. unfold csafe. rewrite E.
  assert (r = Ok (new_address (w_memory w))) as -> by (unfold allocate_cell in E; congruence).
  destruct (allocate_good h w c _ w' Hg Hc E) as [Hg' Hk]. rewrite Ho, app_nil_r in Hg'. by split.
Qed.

Lemma csound_into_buffer h (d : bytes) w : csound h (into_buffer d) w (fun _ _ => True).
Proof.
  unfold into_buffer. case_bool_decide; [by apply csound_ret|].
  eapply csound_bind; [by apply csound_allocate|]. intros p w' _ _. by apply csound_ret.
Qed.

Lemma csound_assign_optional {T} `{KindOf T} h (p : ptr) (x : T) w :
  optional (w_memory w) p kind_of -> kind_of <> KArchive -> cell_ok (to_cell x) ->
  csound h (assign_optional p x) w (fun _ _ => True).
Proof.
  intros Hp Hn Hx. unfold assign_optional, is_null. destruct (Z.eqb_spec p null) as [->|Hne].
  - by apply csound_ret.
  - destruct Hp as [->|Hp]; [done|]. by apply csound_assign.
Qed.

(** ** Reads into slices of the caller *)

Lemma csound_into_slice {B} h (path : ptr) path_len (dst : ptr) n (m : ST Error bytes B) w :
  dst_ok (w_memory w) path path_len dst n ->
  (forall d, len d = n -> ssafe m d (fun _ d' => length d' = length d) (fun d' => length d' = length d)) ->
  csound h (into_slice path path_len dst n m) w (fun _ _ => True).
Proof.
  intros [Hs Hdis] Hm. unfold into_slice. eapply csound_pure_bind; [by apply pure_bytes_mut|].
  intros d [Hd Hn]. specialize (Hm d Hd). unfold ssafe in Hm. destruct (m d) as [r d'].
  assert (Hr : r <> Panic /\ length d' = length d) by (destruct r; [by split..|done]).
  assert (Hd' : len d' = n) by (unfold len in *; destruct Hr; lia).
  eapply csound_bind; [by apply csound_end_borrow|]. intros [] w2 _ _.
  by apply csound_core, Hr.
Qed.

Lemma csound_into_slice_with_scratch {B} h (path : ptr) path_len (dst : ptr) n (scratch : ptr)
    (m : ST Error (bytes * ArchiveScratch) B) w :
  dst_ok (w_memory w) path path_len dst n -> optional (w_memory w) scratch KScratch ->
  (forall d s, len d = n -> ssafe m (d, s) (fun _ s' => length s'.1 = length d)
     (fun s' => length s'.1 = length d)) ->
  csound h (into_slice_with_scratch path path_len dst n scratch m) w (fun _ _ => True).
Proof.
  intros [Hs Hdis] Hsc Hm. unfold into_slice_with_scratch, scratch_mut.
  eapply csound_pure_bind; [by apply pure_bytes_mut|]. intros d [Hd Hn].
  eapply csound_pure_bind.
  { eapply pure_step_bind; [by apply (pure_required_ref (T := RasenScratch))|].
    intros s Hs'. apply (pure_ret _ _ (fun _ => scratch <> null)). apply Hs'. }
  intros s Hne. destruct Hsc as [?|Hsc]; [done|].
  specialize (Hm d s Hd). unfold ssafe in Hm. destruct (m (d, s)) as [r [d' s']]. cbn [fst] in Hm.
  assert (Hr : r <> Panic /\ length d' = length d) by (destruct r; [by split..|done]).
  assert (Hd' : len d' = n) by (unfold len in *; destruct Hr; lia).
  eapply csound_bind; [by apply csound_end_borrow|]. intros [] w2 Hk _.
  eapply csound_bind; [apply (csound_assign (T := RasenScratch)); [by apply Hk|done|done]|].
  intros [] w3 _ _. by apply csound_core, Hr.
Qed.

(** ** [ffi_call] *)

(** A call with valid arguments has defined behaviour and no panic; the
    invariant is kept, also when it fails. *)
Definition answers (h h' : list (ptr * ptr)) (call : Call RasenStatus) (w : World) : Prop :=
  Good h w -> exists status w', call w = (Ok status, w') /\ possible status /\
    Good h' w' /\ kinds_kept (w_memory w) (w_memory w').

Lemma Keeps_error h w w' e : Keeps h w w' -> Keeps h w (set_last_error e w').
Proof. by intros [[] ?]. Qed.

Lemma ffi_call_answers h h' m w :
  (Good h w -> csafe m w (fun _ w' => Good h' w' /\ kinds_kept (w_memory w) (w_memory w'))
     (fun w' => Good h' w' /\ kinds_kept (w_memory w) (w_memory w'))) ->
  answers h h' (ffi_call m) w.
Proof.
  intros Hm Hg. specialize (Hm Hg). unfold csafe, ffi_call in *.
  destruct (m w) as [[[]|[f|]|] w']; [| |done..].
  - eexists _, _. split; [done|]. split; [by split|done].
  - eexists _, _. split; [done|]. split; [apply Hm|]. destruct Hm as (_ & [? ?] & ?). by split; [split|].
Qed.

Lemma ffi_call_sound h m w : csound h m w (fun _ _ => True) -> answers h h (ffi_call m) w.
Proof.
  intros Hm. apply ffi_call_answers. intros Hg. eapply csafe_mono; [by apply Hm| |].
  - by intros [] w' _ [[] _].
  - by intros w' [].
Qed.
End Invariant.
