(* ===== verification/FfiPackSound.v ===== *)
(** * The C interface: soundness of the packing calls

    [rasen_pack_memory], [rasen_pack_file] and [rasen_pack_streams] keep the
    invariant of [FfiSound], and what a successful run leaves is the archive
    of its inputs. *)
From S2P Require Export FfiSound.

Section Buffered.
Context {C : Crates} {W : Type} `{WriteSeekSpec W contents position}
  `{!CompressSpec C} `{!AeadSpec C} `{!HashSpec C}.

Lemma pack_buffered_safe files key options w n :
  options_in_range options -> Forall (fun f => utf8_valid (if_path f) = true) files ->
  ssafe (pack_buffered files key options) (w, n)
    (fun summary s' => archived (contents := contents) files key options w summary s'.1) (fun _ => True).
Proof.
  intros Ho Hutf. pose proof (new_safe key options w Ho) as Hn. unfold ssafe, pack_buffered in *.
  destruct (new key options w) as [[p|e|] w1] eqn:Hnew; [|done..].
  pose proof (files_run_safe files key options w p w1 n Ho Hutf Hnew) as Hs. clear Hn Hnew.
  unfold ssafe in Hs. by destruct ((add_files files;; finish) _) as [[sum|e|] s1].
Qed.
End Buffered.

Section Sound.
Context {C : Crates} {H : Host} {A : Allocator} `{!CompressSpec C} `{!AeadSpec C} `{!HashSpec C}.

(** A step that does not touch the memory, nor destroys a source. *)
Definition untouched (w w' : World) : Prop :=
  w_memory w' = w_memory w /\ w_destroyed w' = w_destroyed w.

Lemma untouched_keeps h w w' : Good h w -> untouched w w' -> Keeps h w w'.
Proof.
  intros [Hc Hl] [Hm Hd]. split; [split|].
  - intros p c. rewrite Hm. apply Hc.
  - by rewrite Hm, Hd.
  - rewrite Hm. by intros p k.
Qed.

Lemma csound_untouched {B} h (m : Call B) w (Q : B -> World -> Prop) :
  csafe m w (fun b w' => untouched w w' /\ Q b w') (untouched w) -> csound h m w Q.
Proof.
  intros Hm Hg. eapply csafe_mono; [exact Hm| |].
  - intros b w' _ [? ?]. split; [by apply untouched_keeps|done].
  - intros w' ?. by apply untouched_keeps.
Qed.

Lemma csafe_os {B} (m : ST IoError Files B) w (Q : B -> Files -> Prop) X :
  ssafe m (w_files w) Q X ->
  csafe (os m) w (fun b w' => untouched w w' /\ Q b (w_files w')) (untouched w).
Proof.
  intros Hm. unfold ssafe, csafe, os in *. destruct (m (w_files w)) as [[b|e|] f]; [by split|by split|done].
Qed.

(** ** Inputs *)

(** The slices of the files of an array. *)
Definition file_ok (m : Memory) (f : RasenInputFile) : Prop :=
  slice_ok m (rf_path f) (rf_path_len f) /\ slice_ok m (rf_data f) (rf_data_len f).

Definition inputs_ok (m : Memory) (files : ptr) (count : Z) : Prop :=
  files_ok m files count /\ forall l, place m files (KFiles l) -> Forall (file_ok m) l.

Lemma slice_get_Forall {B} (P : B -> Prop) l s a b :
  Forall P l -> slice_get l a b = Some s -> Forall P s.
Proof. intros Hf (_ & _ & ->)%slice_get_Some. by apply Forall_take, Forall_drop. Qed.

Lemma pure_collect_inputs l w :
  Forall (file_ok (w_memory w)) l ->
  pure_step (collect_inputs l) w (Forall (fun f => utf8_valid (if_path f) = true)).
Proof.
  induction 1 as [|f l [Hp Hd] _ IH]; cbn [collect_inputs]; [by apply pure_ret|].
  eapply pure_step_bind.
  { unfold buffered_input. eapply pure_step_bind; [by apply pure_utf8|]. intros p [Hu _].
    eapply pure_step_bind; [by apply pure_bytes|]. intros d _.
    by apply (pure_ret _ _ (fun i => utf8_valid (if_path i) = true)). }
  intros i Hi. eapply pure_step_bind; [exact IH|]. intros more Hmore. apply pure_ret. by constructor.
Qed.

Lemma pure_buffered_inputs files count w :
  inputs_ok (w_memory w) files count ->
  pure_step (buffered_inputs files count) w (Forall (fun f => utf8_valid (if_path f) = true)).
Proof.
  intros [Hf Hall]. unfold buffered_inputs. eapply pure_step_bind.
  { apply (pure_raw_slice files_cell KFiles); [|exact Hf]. intros c l. destruct c; try done. cbn. congruence. }
  intros l Hl. apply pure_collect_inputs. destruct Hl as [->|(all & Hpl & Hs)]; [done|].
  eapply slice_get_Forall; [by apply Hall|done].
Qed.

(** ** To memory *)

Lemma csound_with_cursor h files key options w :
  options_in_range options -> Forall (fun f => utf8_valid (if_path f) = true) files ->
  csound h (with_cursor (pack_buffered files key options)) w
    (fun '(summary, writer) _ =>
       archived (contents := vc_data) files key options empty_cursor summary writer).
Proof.
  intros Ho Hf. apply csound_untouched. unfold csafe, with_cursor.
  pose proof (pack_buffered_safe (contents := vc_data) files key options empty_cursor (w_nonces w) Ho Hf) as Hs.
  unfold ssafe in Hs. destruct (pack_buffered _ _ _ _) as [[sum|e|] [cur n]]; [by split| |done].
  split; [apply core_status_reported|done].
Qed.

Lemma pack_memory_sound h files count key key_len options out summary w :
  inputs_ok (w_memory w) files count -> slice_ok (w_memory w) key key_len ->
  optional (w_memory w) options KPackOptions -> optional (w_memory w) out KBuffer ->
  optional (w_memory w) summary KSummary ->
  answers h h (rasen_pack_memory files count key key_len options out summary) w.
Proof.
  intros Hf Hk Ho Hout Hsum. apply ffi_call_sound.
  eapply csound_pure_bind; [by apply (pure_required_mut RasenBuffer)|]. intros _ [Hne Hpl].
  eapply csound_pure_bind; [by apply pure_buffered_inputs|]. intros l Hl.
  eapply csound_pure_bind; [by apply pure_bytes|]. intros k _.
  intros Hg. eapply (csound_pure_bind h _ _ w options_in_range); [by eapply pure_pack_options| |done].
  intros o Hor. eapply csound_bind; [by apply csound_with_cursor|]. intros [s cur] w1 Hk1 _.
  eapply csound_bind; [apply csound_into_buffer|]. intros b w2 Hk2 _.
  assert (Hk12 := Keeps_trans _ _ _ _ Hk1 Hk2).
  eapply csound_bind.
  { apply (csound_assign (T := RasenBuffer)); [by apply Hk12|done|done]. }
  intros [] w3 Hk3 _. apply (csound_assign_optional (T := RasenPackSummary)); [|done|done].
  eapply optional_kept; [|exact Hsum]. apply (Keeps_trans _ _ _ _ Hk12 Hk3).
Qed.

(** ** To a file *)

Context {lookup : Files -> bytes -> option Z} {data : Files -> Z -> bytes}
  `{!FileSystemSpec lookup data}.

Lemma csound_os {B} h (m : ST IoError Files B) w Q X :
  ssafe m (w_files w) Q X -> csound h (os m) w (fun b w' => Q b (w_files w')).
Proof. intros Hm. by eapply csound_untouched, csafe_os. Qed.

Lemma csound_or_cleanup {B} h (cleanup : Call unit) (m : Call B) w Q :
  csound h m w Q -> (forall w', exists w2, cleanup w' = (Ok tt, w2) /\ untouched w' w2) ->
  csound h (or_cleanup cleanup m) w Q.
Proof.
  intros Hm Hc Hg. specialize (Hm Hg). unfold csafe, or_cleanup in *.
  destruct (m w) as [[b|[f|]|] w']; [done| |done..]. destruct (Hc w') as (w2 & E & Hu).
  unfold mbind, st_bind. rewrite E. cbn. destruct Hm as [? Hk]. split; [done|].
  eapply Keeps_trans; [exact Hk|]. apply untouched_keeps; [apply Hk|done].
Qed.

(** The writer over a new file of the system. *)
Definition file_packing (file : Z) (files : list InputFile) (key : bytes) (options : PackOptions) :
    Call PackSummary :=
  with_writer_of (fun w => {| fw_files := w_files w; fw_file := file; fw_pos := 0 |})
    (fun writer w => set_files (fw_files writer) w) (pack_buffered files key options).

Lemma csound_file_packing h file files key options w :
  options_in_range options -> Forall (fun f => utf8_valid (if_path f) = true) files ->
  csound h (file_packing file files key options) w (fun _ _ => True).
Proof.
  intros Ho Hf. apply csound_untouched. unfold csafe, file_packing, with_writer_of.
  pose proof (pack_buffered_safe (W := FileWriter Files) (contents := fw_contents (data := data))
    files key options {| fw_files := w_files w; fw_file := file; fw_pos := 0 |} (w_nonces w) Ho Hf) as Hs.
  unfold ssafe in Hs. destruct (pack_buffered _ _ _ _) as [[sum|e|] [wr n]]; [by split| |done].
  split; [apply core_status_reported|done].
Qed.

Lemma pack_file_sound h path path_len files count key key_len options summary w :
  slice_ok (w_memory w) path path_len ->
  inputs_ok (w_memory w) files count -> slice_ok (w_memory w) key key_len ->
  optional (w_memory w) options KPackOptions -> optional (w_memory w) summary KSummary ->
  answers h h (rasen_pack_file path path_len files count key key_len options summary) w.
Proof.
  intros Hp Hf Hk Ho Hsum. apply ffi_call_sound.
  eapply csound_pure_bind; [by apply pure_utf8|]. intros q _.
  eapply csound_pure_bind; [by apply pure_buffered_inputs|]. intros l Hl.
  eapply csound_pure_bind; [by apply pure_bytes|]. intros k _.
  intros Hg. eapply (csound_pure_bind h _ _ w options_in_range); [by eapply pure_pack_options| |done].
  intros o Hor. eapply csound_bind; [eapply csound_os, (fs_create_new_spec lookup data)|].
  intros file w1 Hk1 _. eapply csound_bind.
  { apply csound_or_cleanup; [by apply (csound_file_packing h file l k o)|].
    intros w'. by eexists. }
  intros sum w2 Hk2 _. apply (csound_assign_optional (T := RasenPackSummary)); [|done|done].
  eapply optional_kept; [|exact Hsum]. apply (Keeps_trans _ _ _ _ Hk1 Hk2).
Qed.

(** ** Over callbacks *)

Definition stream_ok (m : Memory) (s : RasenStreamInput) : Prop := slice_ok m (ss_path s) (ss_path_len s).

Definition stream_inputs_ok (m : Memory) (inputs : ptr) (count : Z) : Prop :=
  streams_ok m inputs count /\ forall l, place m inputs (KStreams l) -> Forall (stream_ok m) l.

Abbreviation sink_inv := (PackInv (C := C) (cw_contents (V := UserSink)) cw_stands).

(** Between two inputs: the world's memory is untouched and the packer holds
    its invariant. *)
Definition packing (w : World) (o : PackOptions) (key : bytes) (ws : World * Packing) : Prop :=
  untouched w ws.1 /\ exists assets, sink_inv ws.2 assets /\
    pk_options (ps_self ws.2) = o /\ pk_key (ps_self ws.2) = key.

(** The outcome of the loop. *)
Definition csafe2 {B} (m : ST Stop (World * Packing) B) (ws : World * Packing)
    (Q : B -> World * Packing -> Prop) (X : World * Packing -> Prop) : Prop :=
  match m ws with
  | (Ok b, ws') => Q b ws'
  | (Err (Failed f), ws') => reported f /\ X ws'
  | _ => False
  end.

Lemma csafe2_bind {B D} (m : ST Stop (World * Packing) B) (f : B -> ST Stop (World * Packing) D) ws P Q X :
  csafe2 m ws P X -> (forall b ws', P b ws' -> csafe2 (f b) ws' Q X) -> csafe2 (m ≫= f) ws Q X.
Proof. unfold csafe2, mbind, st_bind. destruct (m ws) as [[b|[e|]|] ws']; naive_solver. Qed.

Lemma untouched_trans w w1 w2 : untouched w w1 -> untouched w1 w2 -> untouched w w2.
Proof. intros [H1 H2] [H3 H4]. split; congruence. Qed.

Lemma add_stream_safe w o key input ws :
  stream_ok (w_memory w) input -> packing w o key ws ->
  csafe2 (add_stream input) ws (fun _ => packing w o key) (fun ws' => untouched w ws'.1).
Proof.
  intros Hs ([Hm Hd] & assets & Hinv & Ho & Hk). unfold add_stream.
  eapply (csafe2_bind _ _ _ (fun p ws' => ws' = ws /\ utf8_valid p = true)).
  - assert (Hs' : stream_ok (w_memory ws.1) input) by (by rewrite Hm).
    pose proof (pure_utf8 _ _ "input.path" _ Hs') as Hu. unfold pure_step, csafe in Hu.
    unfold csafe2, on_fst, zoom. destruct (utf8 _ _ _ _) as [[p|[f|]|] w']; [| |done..].
    + destruct Hu as (-> & ? & _). by destruct ws.
    + by destruct Hu as [? ->].
  - intros p ws' [-> Hu]. destruct ws as [w1 s]. cbn [fst snd] in *. unfold csafe2, add_callback_reader.
    set (reader := {| cr_user := w_streams w1 (ss_user_data input); cr_read := ss_read input |}).
    pose proof (add_reader_safe (contents := cw_contents) (position := cw_stands) p s reader assets Hinv Hu) as Hr.
    unfold ssafe in Hr. destruct (add_reader p (s, reader)) as [[[]|e|] [s' r']]; cbn in *; [| |done].
    + destruct Hr as (q & _ & Hi & Ho' & Hk'). split; [by split|]. eexists. split; [exact Hi|]. cbn. split; congruence.
    + split; [apply core_status_reported|by split].
Qed.

Lemma add_streams_safe w o key inputs ws :
  Forall (stream_ok (w_memory w)) inputs -> packing w o key ws ->
  csafe2 (add_streams inputs) ws (fun _ => packing w o key) (fun ws' => untouched w ws'.1).
Proof.
  intros Hf. revert ws. induction Hf as [|i inputs Hi _ IH]; intros ws Hp; [done|].
  cbn [add_streams]. eapply csafe2_bind; [by apply add_stream_safe|]. intros [] ws' Hp'. by apply IH.
Qed.

Lemma csound_pack_inputs h inputs key options writer w :
  options_in_range options -> Forall (stream_ok (w_memory w)) inputs ->
  csound h (pack_inputs inputs key options writer) w (fun _ _ => True).
Proof.
  intros Ho Hf. apply csound_untouched. unfold csafe, pack_inputs.
  set (cw := {| cw_user := _; cw_callbacks := _; cw_position := _ |}).
  pose proof (new_safe (contents := cw_contents) (position := cw_stands) key options cw Ho) as Hn.
  unfold ssafe in Hn. destruct (new key options cw) as [[p|e|] cw1]; [| |done].
  2:{ split; [apply core_status_reported|done]. }
  destruct Hn as (_ & Hop & Hkey & Hinv).
  assert (Hs : csafe2 (add_streams inputs;; on_snd (st_map_err failed finish))
    (w, {| ps_writer := cw1; ps_nonces := w_nonces w; ps_self := p |})
    (fun _ ws' => untouched w ws'.1) (fun ws' => untouched w ws'.1)).
  { eapply csafe2_bind.
    - apply (add_streams_safe w options key); [done|]. split; [done|]. exists []. split; [apply Hinv|done].
    - intros _ [w1 s1] (Hu & assets & Hi & _ & _). cbn [fst snd] in *.
      pose proof (finish_safe s1 assets Hi) as Hfin. unfold ssafe in Hfin.
      unfold csafe2, on_snd, zoom, st_map_err. cbn [snd fst].
      destruct (finish s1) as [[sum|e|] s2]; cbn; [done| |done]. split; [apply core_status_reported|done]. }
  unfold csafe2 in Hs. destruct ((add_streams inputs;; _) _) as [[sum|[f|]|] [w1 s1]]; [| |done..].
  - by destruct Hs.
  - by destruct Hs as [? []].
Qed.

Lemma pack_streams_sound h inputs count key key_len options writer summary w :
  stream_inputs_ok (w_memory w) inputs count -> slice_ok (w_memory w) key key_len ->
  optional (w_memory w) options KPackOptions -> optional (w_memory w) writer KWriter ->
  optional (w_memory w) summary KSummary ->
  answers h h (rasen_pack_streams inputs count key key_len options writer summary) w.
Proof.
  intros [Hf Hall] Hk Ho Hw Hsum. apply ffi_call_sound.
  eapply csound_pure_bind.
  { apply (pure_raw_slice streams_cell KStreams); [|exact Hf]. intros c l. destruct c; try done. cbn. congruence. }
  intros l Hl. assert (Hlok : Forall (stream_ok (w_memory w)) l).
  { destruct Hl as [->|(all & Hpl & Hs)]; [done|]. eapply slice_get_Forall; [by apply Hall|done]. }
  eapply csound_pure_bind; [by apply pure_bytes|]. intros k _.
  eapply csound_pure_bind; [by apply (pure_required_ref (T := RasenWriter))|]. intros wr _.
  intros Hg. eapply (csound_pure_bind h _ _ w options_in_range); [by eapply pure_pack_options| |done].
  intros o Hor. eapply csound_bind; [by apply csound_pack_inputs|]. intros sum w1 Hk1 _.
  apply (csound_assign_optional (T := RasenPackSummary)); [|done|done].
  eapply optional_kept; [apply Hk1|exact Hsum].
Qed.
End Sound.
