(* ===== verification/FfiCalls.v ===== *)
(** * The C interface as a state machine

    Every exported function as a call on the world ([ApiCall], [run]), what the
    C header asks of its arguments ([valid_call]), and the steps a program that
    uses the library can take: no behaviour is undefined, no panic crosses the
    boundary, and each source a program hands over is destroyed exactly once. *)
From S2P Require Export FfiPackSound.

(** ** Calls into the library do not panic *)

Section NoPanic.
Context {C : Crates} {R : Type} `{RandomAccessRead R} `{!SourceSafe R} `{!DecompressSpec C}
  (self : Archive R) (Hwf : ArchiveWf self).

Lemma hash_path_np p : hash_path p <> Panic.
Proof. unfold hash_path. auto with nopanic. Qed.

Lemma entry_np p : entry self p <> Panic.
Proof.
  unfold entry, normalize_lookup_path. pose proof (normalize_path_np p) as Hn.
  destruct (normalize_path p) as [q|e|]; cbn [mbind result_bind]; [|done..].
  destruct (find_normalized_cases self (aw_index _ Hwf) q) as [(i & e & -> & He & _)|[-> _]]; [|done].
  cbn [mbind result_bind]. by rewrite He.
Qed.

Lemma entry_by_id_np id : entry_by_id self id <> Panic.
Proof.
  unfold entry_by_id. destruct (find_by_id_cases self (aw_index _ Hwf) id)
    as [(i & e & -> & He & _)|[[-> _]|[-> _]]]; [|done..].
  cbn [mbind result_bind]. by rewrite He.
Qed.

Lemma try_contains_np p : try_contains self p <> Panic.
Proof.
  unfold try_contains, normalize_lookup_path. pose proof (normalize_path_np p) as Hn.
  destruct (normalize_path p) as [q|e|]; cbn [mbind result_bind]; [|done..].
  by destruct (find_normalized_cases self (aw_index _ Hwf) q) as [(i & e & -> & He & _)|[-> _]].
Qed.

Lemma read_into_keeps p d :
  ssafe (read_into self p) d (fun _ d' => length d' = length d) (fun d' => length d' = length d).
Proof.
  pose proof (read_into_denotes self Hwf p d empty_scratch) as Hs. unfold ssafe, read_into in *.
  destruct (read_into_with_scratch self p (d, empty_scratch)) as [[[]|e|] [d' s]]; [apply Hs|exact Hs|done].
Qed.

Lemma read_chunk_into_keeps p k d :
  0 <= k ->
  ssafe (read_chunk_into self p k) d (fun _ d' => length d' = length d) (fun d' => length d' = length d).
Proof.
  intros Hk. pose proof (read_chunk_into_denotes self Hwf p k d empty_scratch Hk) as Hs.
  unfold ssafe, read_chunk_into in *.
  destruct (read_chunk_into_with_scratch self p k (d, empty_scratch)) as [[[]|e|] [d' s]]; [apply Hs|exact Hs|done].
Qed.

Lemma read_range_into_keeps p offset d :
  is_u64 offset -> is_u64 (len d) ->
  ssafe (read_range_into self p offset) d (fun _ d' => length d' = length d) (fun d' => length d' = length d).
Proof.
  intros Ho Hd. pose proof (read_range_into_denotes self Hwf p offset d empty_scratch Ho Hd) as Hs.
  unfold ssafe, read_range_into in *.
  destruct (read_range_with_scratch self p offset (d, empty_scratch)) as [[m|e|] [d' s]]; [apply Hs|exact Hs|done].
Qed.
End NoPanic.

(** ** Every exported function is sound *)

Section Functions.
Context {C : Crates} {H : Host} {A : Allocator} `{!SortSpec C} `{!DecompressSpec C}.

Lemma csound_good {B} h (m : Call B) w Q : (Good h w -> csound h m w Q) -> csound h m w Q.
Proof. intros Hm Hg. by apply Hm. Qed.

Lemma csound_archive_ref {B} h (p : ptr) (f : Archive FfiSource -> Call B) w Q :
  optional (w_memory w) p KArchive ->
  (forall a, ArchiveWf a -> csound h (f a) w Q) -> csound h (archive_ref p ≫= f) w Q.
Proof.
  intros Hp Hf. apply csound_good. intros Hg. eapply csound_pure_bind; [|exact Hf].
  unfold archive_ref. eapply pure_step_bind; [by apply (pure_required_ref (T := RasenArchive))|].
  intros a (_ & c & Hc & Ha). apply pure_ret. apply (good_cells _ _ Hg) in Hc.
  destruct c; try discriminate. cbn in Ha. by injection Ha as ->.
Qed.

(** The last two statements of most functions. *)
Lemma csound_out {T} `{KindOf T} h (out : ptr) name (x : T) w :
  optional (w_memory w) out kind_of -> kind_of <> KArchive -> cell_ok (to_cell x) ->
  csound h (required_mut T out name;; assign out x) w (fun _ _ => True).
Proof.
  intros Ho Hk Hx. eapply csound_pure_bind; [by apply pure_required_mut|]. intros _ [_ Hp].
  by apply csound_assign.
Qed.

Lemma csound_core_bind {B D} h (r : Res B) (f : B -> Call D) w Q :
  r <> Panic -> (forall b, r = Ok b -> csound h (f b) w Q) -> csound h (core r ≫= f) w Q.
Proof. intros Hr Hf. by eapply csound_pure_bind; [apply pure_core_np|]. Qed.

(** Steps of a function: its arguments one after the other. *)
Ltac cstep :=
  match goal with
  | |- csound _ (utf8 _ _ _ ≫= _) _ _ => eapply csound_pure_bind; [by apply pure_utf8|intros ? _]
  | |- csound _ (bytes_ _ _ _ ≫= _) _ _ => eapply csound_pure_bind; [by apply pure_bytes|intros ? _]
  | |- csound _ (archive_ref _ ≫= _) _ _ => apply csound_archive_ref; [done|intros ? ?]
  | |- csound _ (core _ ≫= _) _ _ => apply csound_core_bind; [|intros ? _]
  | |- csound _ (required_mut _ _ _ ≫= (fun _ => assign _ _)) _ _ => apply csound_out; try done
  end.

Lemma limits_functions_sound h out w :
  optional (w_memory w) out KLimits ->
  answers h h (rasen_archive_limits_runtime out) w /\ answers h h (rasen_archive_limits_tooling out) w.
Proof.
  intros Ho. split; apply ffi_call_sound; apply csound_out; try done; vm_compute; intuition congruence.
Qed.

Lemma options_default_sound h out w :
  optional (w_memory w) out KPackOptions -> answers h h (rasen_pack_options_default out) w.
Proof.
  intros Ho. apply ffi_call_sound. apply csound_out; try done; vm_compute; intuition congruence.
Qed.

Lemma hash_path_sound h path n out w :
  slice_ok (w_memory w) path n -> optional (w_memory w) out KU64 ->
  answers h h (rasen_hash_path path n out) w.
Proof.
  intros Hp Ho. apply ffi_call_sound. repeat cstep. apply hash_path_np.
Qed.

Lemma csound_give_buffer h (out : ptr) (d : bytes) w :
  place (w_memory w) out KBuffer -> csound h (buffer ← into_buffer d; assign out buffer) w (fun _ _ => True).
Proof.
  intros Hp. eapply csound_bind; [apply csound_into_buffer|]. intros b w' Hk _.
  apply (csound_assign (T := RasenBuffer)); [by apply Hk|done|done].
Qed.

Lemma normalize_path_sound h path n out w :
  slice_ok (w_memory w) path n -> optional (w_memory w) out KBuffer ->
  answers h h (rasen_normalize_path path n out) w.
Proof.
  intros Hp Ho. apply ffi_call_sound.
  eapply csound_pure_bind; [by apply (pure_required_mut RasenBuffer)|]. intros _ [_ Hpl].
  repeat cstep; [apply normalize_path_np|]. by apply csound_give_buffer.
Qed.

Lemma info_sound h archive out w :
  optional (w_memory w) archive KArchive -> optional (w_memory w) out KInfo ->
  answers h h (rasen_archive_info archive out) w.
Proof. intros Ha Ho. apply ffi_call_sound. repeat cstep. Qed.

Lemma entry_at_sound h archive i out w :
  optional (w_memory w) archive KArchive -> optional (w_memory w) out KEntry ->
  answers h h (rasen_archive_entry_at archive i out) w.
Proof.
  intros Ha Ho. apply ffi_call_sound. cstep. eapply (csound_pure_bind _ _ _ _ (fun _ => True)).
  - unfold pure_step, csafe, ffi, lift. by destruct (Prelude.index _ _).
  - intros e _. cstep.
Qed.

Lemma entry_sound h archive path n out w :
  optional (w_memory w) archive KArchive -> slice_ok (w_memory w) path n ->
  optional (w_memory w) out KEntry -> answers h h (rasen_archive_entry archive path n out) w.
Proof. intros Ha Hp Ho. apply ffi_call_sound. repeat cstep. by apply entry_np. Qed.

Lemma entry_by_id_sound h archive id out w :
  optional (w_memory w) archive KArchive -> optional (w_memory w) out KEntry ->
  answers h h (rasen_archive_entry_by_id archive id out) w.
Proof. intros Ha Ho. apply ffi_call_sound. repeat cstep. by apply entry_by_id_np. Qed.

Lemma verify_sound_call h archive w :
  optional (w_memory w) archive KArchive -> answers h h (rasen_archive_verify archive) w.
Proof.
  intros Ha. apply ffi_call_sound. apply csound_archive_ref; [done|]. intros a Hwf.
  apply csound_core. exact (safe_not_Panic _ _ (verify_safe a Hwf)).
Qed.

Lemma contains_sound h archive path n out w :
  optional (w_memory w) archive KArchive -> slice_ok (w_memory w) path n ->
  optional (w_memory w) out KU8 -> answers h h (rasen_archive_contains archive path n out) w.
Proof. intros Ha Hp Ho. apply ffi_call_sound. repeat cstep. by apply try_contains_np. Qed.

Lemma contains_id_sound h archive id out w :
  optional (w_memory w) archive KArchive -> optional (w_memory w) out KU8 ->
  answers h h (rasen_archive_contains_id archive id out) w.
Proof. intros Ha Ho. apply ffi_call_sound. repeat cstep. Qed.

(** ** Reads *)

Lemma csound_read_buffer h archive out read w :
  optional (w_memory w) archive KArchive -> optional (w_memory w) out KBuffer ->
  (forall a, ArchiveWf a -> read a <> Panic) ->
  csound h (read_buffer archive out read) w (fun _ _ => True).
Proof.
  intros Ha Ho Hr. unfold read_buffer. cstep.
  eapply csound_pure_bind; [by apply (pure_required_mut RasenBuffer)|]. intros _ [_ Hpl].
  cstep; [by apply Hr|]. by apply csound_give_buffer.
Qed.

Lemma reads_sound h archive path n out k offset m w :
  optional (w_memory w) archive KArchive -> slice_ok (w_memory w) path n ->
  optional (w_memory w) out KBuffer -> is_u32 k -> is_u64 offset -> is_u64 m ->
  answers h h (rasen_archive_read archive path n out) w /\
  answers h h (rasen_archive_read_chunk archive path n k out) w /\
  answers h h (rasen_archive_read_range archive path n offset m out) w /\
  answers h h (rasen_archive_read_range_exact archive path n offset m out) w.
Proof.
  intros Ha Hp Ho [Hk _] Hof Hm.
  split_and!; apply ffi_call_sound; cstep; apply csound_read_buffer; try done; intros a Hwf.
  - exact (safe_not_Panic _ _ (read_denotes a Hwf _)).
  - exact (safe_not_Panic _ _ (read_chunk_denotes a Hwf _ k Hk)).
  - exact (safe_not_Panic _ _ (read_range_new_safe a Hwf _ offset m false Hof Hm)).
  - exact (safe_not_Panic _ _ (read_range_new_safe a Hwf _ offset m true Hof Hm)).
Qed.

Lemma read_by_id_sound h archive id out w :
  optional (w_memory w) archive KArchive -> optional (w_memory w) out KBuffer ->
  answers h h (rasen_archive_read_by_id archive id out) w.
Proof.
  intros Ha Ho. apply ffi_call_sound, csound_read_buffer; [done..|]. intros a Hwf.
  exact (safe_not_Panic _ _ (read_by_id_safe a Hwf id)).
Qed.

Lemma reads_into_sound h archive path n k dst dst_len w :
  optional (w_memory w) archive KArchive -> slice_ok (w_memory w) path n ->
  dst_ok (w_memory w) path n dst dst_len -> is_u32 k ->
  answers h h (rasen_archive_read_into archive path n dst dst_len) w /\
  answers h h (rasen_archive_read_chunk_into archive path n k dst dst_len) w.
Proof.
  intros Ha Hp Hd [Hk _]. split; apply ffi_call_sound; cstep; cstep; apply csound_into_slice; try done;
    intros d _; [by apply read_into_keeps|by apply read_chunk_into_keeps].
Qed.

Lemma read_range_into_sound h archive path n offset dst dst_len out w :
  optional (w_memory w) archive KArchive -> slice_ok (w_memory w) path n ->
  dst_ok (w_memory w) path n dst dst_len -> is_u64 offset -> is_u64 dst_len ->
  optional (w_memory w) out KU64 ->
  answers h h (rasen_archive_read_range_into archive path n offset dst dst_len out) w.
Proof.
  intros Ha Hp Hd Ho Hl Hout. apply ffi_call_sound. cstep. cstep.
  eapply csound_bind; [apply csound_into_slice; [done|]|].
  - intros d Hdl. apply read_range_into_keeps; [done..|]. by rewrite Hdl.
  - intros m w' Hk _. apply csound_out; [|done|done]. eapply optional_kept; [apply Hk|done].
Qed.

Lemma reads_with_scratch_sound h archive path n k dst dst_len scratch w :
  optional (w_memory w) archive KArchive -> slice_ok (w_memory w) path n ->
  dst_ok (w_memory w) path n dst dst_len -> is_u32 k -> optional (w_memory w) scratch KScratch ->
  answers h h (rasen_archive_read_into_with_scratch archive path n dst dst_len scratch) w /\
  answers h h (rasen_archive_read_chunk_into_with_scratch archive path n k dst dst_len scratch) w.
Proof.
  intros Ha Hp Hd [Hk _] Hs.
  split; apply ffi_call_sound; (apply csound_archive_ref; [done|]); intros a Hwf; cstep;
    apply csound_into_slice_with_scratch; try done; intros d s _.
  - eapply ssafe_mono; [apply (read_into_denotes a Hwf)| |done]. by intros [] s' _ [? _].
  - eapply ssafe_mono; [by apply (read_chunk_into_denotes a Hwf)| |done]. by intros [] s' _ [? _].
Qed.

Lemma read_range_with_scratch_sound h archive path n offset dst dst_len scratch out w :
  optional (w_memory w) archive KArchive -> slice_ok (w_memory w) path n ->
  dst_ok (w_memory w) path n dst dst_len -> is_u64 offset -> is_u64 dst_len ->
  optional (w_memory w) scratch KScratch -> optional (w_memory w) out KU64 ->
  answers h h (rasen_archive_read_range_with_scratch archive path n offset dst dst_len scratch out) w.
Proof.
  intros Ha Hp Hd Ho Hl Hs Hout. apply ffi_call_sound. apply csound_archive_ref; [done|].
  intros a Hwf. cstep.
  eapply csound_bind; [apply csound_into_slice_with_scratch; [done..|]|].
  - intros d s Hdl. eapply ssafe_mono; [apply (read_range_into_denotes a Hwf); [done|by rewrite Hdl]| |done].
    by intros m s' _ [? _].
  - intros m w' Hk _. apply csound_out; [|done|done]. eapply optional_kept; [apply Hk|done].
Qed.

(** ** Objects *)

Lemma scratch_new_sound h out w :
  optional (w_memory w) out KPtr -> answers h h (rasen_scratch_new out) w.
Proof.
  intros Ho. apply ffi_call_sound. eapply csound_bind; [by apply csound_allocate|]. intros p w' Hk _.
  apply csound_out; [|done|done]. eapply optional_kept; [apply Hk|done].
Qed.

(** Opening: the ledger takes the source when an archive is made; otherwise
    nothing has changed. *)
Definition took (h : list (ptr * ptr)) (w w' : World) : Prop :=
  Good h w' /\ kinds_kept (w_memory w) (w_memory w').

Lemma open_archive_safe h source key l w :
  Good h w -> limits_in_range l ->
  csafe (open_archive source key l) w (fun _ => took (h ++ dropped source) w) (fun w' => w' = w).
Proof.
  intros Hg Hl. unfold open_archive. eapply csafe_bind; [by apply pure_core, open_safe|].
  intros a w' _ [-> [_ (Hwf & Hs & _)]].
  destruct (allocate_cell (CArchive {| ra_inner := a |}) w) as [r w'] eqn:E. unfold csafe. rewrite E.
  assert (r = Ok (new_address (w_memory w))) as -> by (unfold allocate_cell in E; congruence).
  destruct (allocate_good h w (CArchive {| ra_inner := a |}) _ w' Hg Hwf E) as [Hg' Hk']. cbn in Hg'. by rewrite Hs in Hg'.
Qed.

Lemma open_tail_safe h source key lp out w :
  Good h w -> optional (w_memory w) lp KLimits -> place (w_memory w) out KPtr ->
  csafe (limits ← limits lp; archive ← open_archive source key limits; assign out {| ptr_val := archive |}) w
    (fun _ => took (h ++ dropped source) w) (fun w' => w' = w).
Proof.
  intros Hg Hl Ho. eapply csafe_bind; [by eapply pure_limits|]. intros l w' _ [-> Hlr].
  eapply csafe_bind; [by apply open_archive_safe|]. intros p w1 _ [Hg1 Hk1].
  eapply csafe_mono; [apply (csafe_assign (T := Pointer) (h ++ dropped source)); [done|by apply Hk1|done|done]| |done].
  intros [] w2 _ [Hg2 Hk2]. split; [done|]. intros q k Hq. by apply Hk2, Hk1.
Qed.

Lemma took_refl h w : Good h w -> took h w w.
Proof. intros Hg. split; [done|]. by intros p k. Qed.

Lemma open_memory_sound h data n key key_len lp out w :
  slice_ok (w_memory w) data n -> slice_ok (w_memory w) key key_len ->
  optional (w_memory w) lp KLimits -> optional (w_memory w) out KPtr ->
  answers h h (rasen_archive_open_memory data n key key_len lp out) w.
Proof.
  intros Hd Hk Hl Ho. apply ffi_call_answers. intros Hg.
  eapply (csafe_mono _ _ (fun _ => took h w) _ (fun w' => w' = w)); [|done|intros w' ->; by apply took_refl].
  eapply pure_then; [by apply (pure_required_mut Pointer)|]. intros [] [_ Hpl].
  eapply pure_then; [by apply pure_bytes|]. intros d _.
  eapply pure_then; [by apply pure_bytes|]. intros k _.
  pose proof (open_tail_safe h (SrcMemory d) k lp out w Hg Hl Hpl) as Ht. cbn [dropped] in Ht.
  by rewrite app_nil_r in Ht.
Qed.

Context {lookup : Files -> bytes -> option Z} {data : Files -> Z -> bytes}
  `{!FileSystemSpec lookup data}.

Lemma open_file_sound h path n key key_len lp out w :
  slice_ok (w_memory w) path n -> slice_ok (w_memory w) key key_len ->
  optional (w_memory w) lp KLimits -> optional (w_memory w) out KPtr ->
  answers h h (rasen_archive_open_file path n key key_len lp out) w.
Proof.
  intros Hp Hk Hl Ho. apply ffi_call_answers. intros Hg.
  eapply (csafe_mono _ _ (fun _ => took h w) _ (untouched w)); [|done|].
  2:{ intros w' Hu. by destruct (untouched_keeps h w w' Hg Hu). }
  assert (Hsame : forall w', w' = w -> untouched w w') by (by intros w' ->).
  eapply csafe_bind; [eapply csafe_mono; [by apply (pure_required_mut Pointer)|intros b w' _ Hb; exact Hb|done]|].
  intros [] w' _ [-> [_ Hpl]].
  eapply csafe_bind; [eapply csafe_mono; [by apply pure_utf8|intros b w' _ Hb; exact Hb|done]|].
  intros q w' _ [-> _].
  eapply csafe_bind; [eapply csafe_mono; [by apply pure_bytes|intros b w' _ Hb; exact Hb|done]|].
  intros k w' _ [-> _].
  eapply csafe_bind; [by eapply csafe_os, (fs_open_spec lookup data)|]. intros file w1 _ [Hu _].
  pose proof (untouched_keeps h w w1 Hg Hu) as [Hg1 Hk1]. pose proof Hu as [Hm _].
  eapply csafe_mono; [apply (open_tail_safe h (SrcFile (of_file file)) k lp out w1 Hg1); by rewrite Hm| |].
  - cbn [dropped]. rewrite app_nil_r. intros [] w2 _ [Hg2 Hk2]. split; [done|]. by rewrite Hm in Hk2.
  - by intros w2 ->.
Qed.

Lemma owning_safe {B} source (m : Call B) w Q :
  csafe m w Q (fun w' => w' = w) ->
  csafe (owning source m) w Q (fun w' => w' = add_destroyed (dropped source) w).
Proof.
  unfold csafe, owning. destruct (m w) as [[b|[f|]|] w']; [done| |done..]. by intros [? ->].
Qed.

Lemma open_source_sound h source key key_len lp out w :
  slice_ok (w_memory w) key key_len -> optional (w_memory w) lp KLimits -> optional (w_memory w) out KPtr ->
  answers h (h ++ dropped (SrcCallback (callback_source source)))
    (rasen_archive_open_source source key key_len lp out) w.
Proof.
  intros Hk Hl Ho. apply ffi_call_answers. intros Hg. set (src := SrcCallback (callback_source source)).
  assert (Hs : csafe (required_mut Pointer out "out";; key ← bytes_ key key_len "key";
      limits ← limits lp; archive ← open_archive src key limits; assign out {| ptr_val := archive |}) w
      (fun _ => took (h ++ dropped src) w) (fun w' => w' = w)).
  { eapply pure_then; [by apply (pure_required_mut Pointer)|]. intros [] [_ Hpl].
    eapply pure_then; [by apply pure_bytes|]. intros k _. by apply open_tail_safe. }
  eapply csafe_mono; [by apply owning_safe, Hs|done|]. intros w' ->. destruct Hg as [Hc Hled]. split; [split|].
  - exact Hc.
  - cbn. rewrite Hled. solve_Permutation.
  - by intros p k'.
Qed.

(** ** Releasing *)

(** A call without a status. *)
Definition ends (h h' : list (ptr * ptr)) (call : Call unit) (w : World) : Prop :=
  Good h w -> exists w', call w = (Ok tt, w') /\ Good h' w'.

Lemma load_run {T} `{!Stored T} (p : ptr) (x : T) w :
  w_memory w !! p = Some (to_cell x) -> load p w = (Ok x, w).
Proof. intros Hp. unfold load, memory, get, mbind, st_bind. cbn. rewrite Hp. cbn. by rewrite of_to. Qed.

Lemma assign_run {T} `{!Stored T} (p : ptr) (y x : T) w :
  w_memory w !! p = Some (to_cell y) ->
  assign p x w = (Ok tt, set_memory (<[p := to_cell x]> (w_memory w)) w).
Proof. intros Hy. unfold assign. by rewrite (st_bind_run _ _ _ y w) by (by apply load_run). Qed.

(** What [rasen_buffer_free] asks of a buffer: null, or a box the library
    leaked. *)
Definition buffer_ok (m : Memory) (b : RasenBuffer) : Prop :=
  rb_data b = null \/ place m (rb_data b) (KBox (rb_len b)).

Lemma Good_delete h w p c :
  Good h w -> w_memory w !! p = Some c -> owed c = [] ->
  Good h (set_memory (delete p (w_memory w)) w).
Proof.
  intros [Hc Hl] Hp Ho. split.
  - cbn. intros q d [_ Hq]%lookup_delete_Some. by apply (Hc q).
  - cbn. rewrite Hl. pose proof (live_delete _ _ _ Hp) as Hd. rewrite Ho in Hd. cbn in Hd. by rewrite Hd.
Qed.

Lemma buffer_free_sound h buffer w :
  (buffer = null \/ exists b, w_memory w !! buffer = Some (CBuffer b) /\ buffer_ok (w_memory w) b) ->
  ends h h (rasen_buffer_free buffer) w.
Proof.
  intros Hb Hg. unfold rasen_buffer_free, is_null. destruct (Z.eqb_spec buffer null) as [->|Hne]; [by eexists|].
  destruct Hb as [?|(b & Hb & Hok)]; [done|]. 
  rewrite (st_bind_run _ _ _ b w) by (by apply load_run). destruct (Z.eqb_spec (rb_data b) null) as [Hd|Hd]; cbn [negb].
  - rewrite (st_bind_run _ _ _ tt w), (assign_run buffer b) by done. eexists. split; [reflexivity|].
    by apply (Keeps_insert h w buffer (CBuffer b)).
  - destruct Hok as [?|(c & Hc & Hk)]; [done|]. destruct c as [|d| | | | | | | | | | | | | |]; try discriminate.
    injection Hk as Hk. set (w1 := set_memory (delete (rb_data b) (w_memory w)) w).
    rewrite (st_bind_run _ _ _ tt w1).
    2:{ unfold drop_box, memory, get, modify, put, mbind, st_bind, mret, st_ret. cbn. by rewrite Hc, Hk, Z.eqb_refl. }
    assert (Hb1 : w_memory w1 !! buffer = Some (CBuffer b)) by (cbn; rewrite lookup_delete_ne; [done|congruence]).
    rewrite (assign_run buffer b) by done. eexists. split; [reflexivity|].
    apply (Keeps_insert h w1 buffer (CBuffer b)); try done. by apply (Good_delete _ _ _ (CBox d)).
Qed.

Lemma archive_free_sound h archive w :
  optional (w_memory w) archive KArchive -> ends h h (rasen_archive_free archive) w.
Proof.
  intros Ha Hg. unfold rasen_archive_free, is_null. destruct (Z.eqb_spec archive null) as [->|Hne]; [by eexists|].
  destruct Ha as [?|(c & Hc & Hk)]; [done|]. destruct c as [| | | | | | | | | | | | | |a|]; try discriminate.
  rewrite (st_bind_run _ _ _ a w) by (by apply load_run). eexists. split; [reflexivity|].
  destruct Hg as [Hcells Hled]. split.
  - cbn. intros q d [_ Hq]%lookup_delete_Some. by apply (Hcells q).
  - cbn. rewrite Hled. rewrite <- (live_delete _ _ _ Hc). cbn. solve_Permutation.
Qed.

Lemma scratch_free_sound h scratch w :
  optional (w_memory w) scratch KScratch -> ends h h (rasen_scratch_free scratch) w.
Proof.
  intros Hs Hg. unfold rasen_scratch_free, is_null. destruct (Z.eqb_spec scratch null) as [->|Hne]; [by eexists|].
  destruct Hs as [?|(c & Hc & Hk)]; [done|]. destruct c as [| | | | | | | | | | | | | | |s]; try discriminate.
  rewrite (st_bind_run _ _ _ s w) by (by apply load_run). eexists. split; [reflexivity|].
  by apply (Good_delete _ _ _ (CScratch s)).
Qed.
End Functions.

(** ** The interface *)

Inductive ApiCall :=
  | LimitsRuntime (out : ptr)
  | LimitsTooling (out : ptr)
  | OptionsDefault (out : ptr)
  | HashPath (path : ptr) (n : Z) (out : ptr)
  | NormalizePath (path : ptr) (n : Z) (out : ptr)
  | OpenMemory (data : ptr) (n : Z) (key : ptr) (key_len : Z) (limits out : ptr)
  | OpenFileAt (path : ptr) (n : Z) (key : ptr) (key_len : Z) (limits out : ptr)
  | OpenSource (source : RasenSource) (key : ptr) (key_len : Z) (limits out : ptr)
  | FreeArchive (archive : ptr)
  | FreeBuffer (buffer : ptr)
  | NewScratch (out : ptr)
  | FreeScratch (scratch : ptr)
  | Info (archive out : ptr)
  | EntryAt (archive : ptr) (i : Z) (out : ptr)
  | EntryOf (archive path : ptr) (n : Z) (out : ptr)
  | EntryById (archive : ptr) (id : Z) (out : ptr)
  | Verify (archive : ptr)
  | Contains (archive path : ptr) (n : Z) (out : ptr)
  | ContainsId (archive : ptr) (id : Z) (out : ptr)
  | ReadAll (archive path : ptr) (n : Z) (out : ptr)
  | ReadById (archive : ptr) (id : Z) (out : ptr)
  | ReadChunk (archive path : ptr) (n k : Z) (out : ptr)
  | ReadRange (archive path : ptr) (n offset m : Z) (out : ptr)
  | ReadRangeExact (archive path : ptr) (n offset m : Z) (out : ptr)
  | ReadInto (archive path : ptr) (n : Z) (dst : ptr) (dst_len : Z)
  | ReadChunkInto (archive path : ptr) (n k : Z) (dst : ptr) (dst_len : Z)
  | ReadRangeInto (archive path : ptr) (n offset : Z) (dst : ptr) (dst_len : Z) (out : ptr)
  | ReadIntoScratch (archive path : ptr) (n : Z) (dst : ptr) (dst_len : Z) (scratch : ptr)
  | ReadChunkIntoScratch (archive path : ptr) (n k : Z) (dst : ptr) (dst_len : Z) (scratch : ptr)
  | ReadRangeScratch (archive path : ptr) (n offset : Z) (dst : ptr) (dst_len : Z) (scratch out : ptr)
  | PackMemory (files : ptr) (count : Z) (key : ptr) (key_len : Z) (options out summary : ptr)
  | PackFile (path : ptr) (n : Z) (files : ptr) (count : Z) (key : ptr) (key_len : Z)
      (options summary : ptr)
  | PackStreams (inputs : ptr) (count : Z) (key : ptr) (key_len : Z) (options writer summary : ptr).

Section Machine.
Context {C : Crates} {H : Host} {A : Allocator}.

(** Calls that return a status, and those that return nothing. *)
Definition status_of (call : Call RasenStatus) : Call (option RasenStatus) := s ← call; mret (Some s).
Definition nothing_of (call : Call unit) : Call (option RasenStatus) := call;; mret None.

Definition run (c : ApiCall) : Call (option RasenStatus) :=
  match c with
  | LimitsRuntime out => status_of (rasen_archive_limits_runtime out)
  | LimitsTooling out => status_of (rasen_archive_limits_tooling out)
  | OptionsDefault out => status_of (rasen_pack_options_default out)
  | HashPath p n out => status_of (rasen_hash_path p n out)
  | NormalizePath p n out => status_of (rasen_normalize_path p n out)
  | OpenMemory d n k kn l out => status_of (rasen_archive_open_memory d n k kn l out)
  | OpenFileAt p n k kn l out => status_of (rasen_archive_open_file p n k kn l out)
  | OpenSource s k kn l out => status_of (rasen_archive_open_source s k kn l out)
  | FreeArchive a => nothing_of (rasen_archive_free a)
  | FreeBuffer b => nothing_of (rasen_buffer_free b)
  | NewScratch out => status_of (rasen_scratch_new out)
  | FreeScratch s => nothing_of (rasen_scratch_free s)
  | Info a out => status_of (rasen_archive_info a out)
  | EntryAt a i out => status_of (rasen_archive_entry_at a i out)
  | EntryOf a p n out => status_of (rasen_archive_entry a p n out)
  | EntryById a id out => status_of (rasen_archive_entry_by_id a id out)
  | Verify a => status_of (rasen_archive_verify a)
  | Contains a p n out => status_of (rasen_archive_contains a p n out)
  | ContainsId a id out => status_of (rasen_archive_contains_id a id out)
  | ReadAll a p n out => status_of (rasen_archive_read a p n out)
  | ReadById a id out => status_of (rasen_archive_read_by_id a id out)
  | ReadChunk a p n k out => status_of (rasen_archive_read_chunk a p n k out)
  | ReadRange a p n o m out => status_of (rasen_archive_read_range a p n o m out)
  | ReadRangeExact a p n o m out => status_of (rasen_archive_read_range_exact a p n o m out)
  | ReadInto a p n d dn => status_of (rasen_archive_read_into a p n d dn)
  | ReadChunkInto a p n k d dn => status_of (rasen_archive_read_chunk_into a p n k d dn)
  | ReadRangeInto a p n o d dn out => status_of (rasen_archive_read_range_into a p n o d dn out)
  | ReadIntoScratch a p n d dn s => status_of (rasen_archive_read_into_with_scratch a p n d dn s)
  | ReadChunkIntoScratch a p n k d dn s =>
      status_of (rasen_archive_read_chunk_into_with_scratch a p n k d dn s)
  | ReadRangeScratch a p n o d dn s out =>
      status_of (rasen_archive_read_range_with_scratch a p n o d dn s out)
  | PackMemory f n k kn o out s => status_of (rasen_pack_memory f n k kn o out s)
  | PackFile p pn f n k kn o s => status_of (rasen_pack_file p pn f n k kn o s)
  | PackStreams i n k kn o w s => status_of (rasen_pack_streams i n k kn o w s)
  end.

(** What the C header asks of the arguments: a pointer is null or designates an
    object of its type, a slice has its length, a handle is open; and what Rust
    asks: a slice to write to is apart from the path. *)
Definition valid_call (m : Memory) (c : ApiCall) : Prop :=
  match c with
  | LimitsRuntime out | LimitsTooling out => optional m out KLimits
  | OptionsDefault out => optional m out KPackOptions
  | HashPath p n out => slice_ok m p n /\ optional m out KU64
  | NormalizePath p n out => slice_ok m p n /\ optional m out KBuffer
  | OpenMemory p n k kn l out | OpenFileAt p n k kn l out =>
      slice_ok m p n /\ slice_ok m k kn /\ optional m l KLimits /\ optional m out KPtr
  | OpenSource _ k kn l out => slice_ok m k kn /\ optional m l KLimits /\ optional m out KPtr
  | FreeArchive a | Verify a => optional m a KArchive
  | FreeBuffer b => b = null \/ exists v, m !! b = Some (CBuffer v) /\ buffer_ok m v
  | NewScratch out => optional m out KPtr
  | FreeScratch s => optional m s KScratch
  | Info a out => optional m a KArchive /\ optional m out KInfo
  | EntryAt a _ out | EntryById a _ out => optional m a KArchive /\ optional m out KEntry
  | EntryOf a p n out => optional m a KArchive /\ slice_ok m p n /\ optional m out KEntry
  | Contains a p n out => optional m a KArchive /\ slice_ok m p n /\ optional m out KU8
  | ContainsId a _ out => optional m a KArchive /\ optional m out KU8
  | ReadAll a p n out => optional m a KArchive /\ slice_ok m p n /\ optional m out KBuffer
  | ReadById a _ out => optional m a KArchive /\ optional m out KBuffer
  | ReadChunk a p n k out =>
      optional m a KArchive /\ slice_ok m p n /\ optional m out KBuffer /\ is_u32 k
  | ReadRange a p n o l out | ReadRangeExact a p n o l out =>
      optional m a KArchive /\ slice_ok m p n /\ optional m out KBuffer /\ is_u64 o /\ is_u64 l
  | ReadInto a p n d dn => optional m a KArchive /\ slice_ok m p n /\ dst_ok m p n d dn
  | ReadChunkInto a p n k d dn =>
      optional m a KArchive /\ slice_ok m p n /\ dst_ok m p n d dn /\ is_u32 k
  | ReadRangeInto a p n o d dn out =>
      optional m a KArchive /\ slice_ok m p n /\ dst_ok m p n d dn /\ optional m out KU64 /\
      is_u64 o /\ is_u64 dn
  | ReadIntoScratch a p n d dn s =>
      optional m a KArchive /\ slice_ok m p n /\ dst_ok m p n d dn /\ optional m s KScratch
  | ReadChunkIntoScratch a p n k d dn s =>
      optional m a KArchive /\ slice_ok m p n /\ dst_ok m p n d dn /\ optional m s KScratch /\ is_u32 k
  | ReadRangeScratch a p n o d dn s out =>
      optional m a KArchive /\ slice_ok m p n /\ dst_ok m p n d dn /\ optional m s KScratch /\
      optional m out KU64 /\ is_u64 o /\ is_u64 dn
  | PackMemory f n k kn o out s =>
      inputs_ok m f n /\ slice_ok m k kn /\ optional m o KPackOptions /\ optional m out KBuffer /\
      optional m s KSummary
  | PackFile p pn f n k kn o s =>
      slice_ok m p pn /\ inputs_ok m f n /\ slice_ok m k kn /\ optional m o KPackOptions /\
      optional m s KSummary
  | PackStreams i n k kn o w s =>
      stream_inputs_ok m i n /\ slice_ok m k kn /\ optional m o KPackOptions /\
      optional m w KWriter /\ optional m s KSummary
  end.

(** The source a call hands over, with its [destroy] callback if it has one. *)
Definition handed (c : ApiCall) : list (ptr * ptr) :=
  match c with
  | OpenSource s _ _ _ _ => dropped (SrcCallback (callback_source s))
  | _ => []
  end.

(** ** A program that uses the library *)

(** An object of the library, which the program only passes on; it may write
    into a buffer it was given. *)
Definition library (c : Cell) : Prop :=
  match c with CBox _ | CArchive _ | CScratch _ => True | _ => False end.

Definition may_become (c c' : Cell) : Prop :=
  match c with
  | CBox d => exists d', c' = CBox d' /\ len d' = len d
  | CArchive _ | CScratch _ => c' = c
  | _ => ~ library c' /\ cell_ok c'
  end.

(** The program changed its own memory. *)
Definition program_writes (m m' : Memory) : Prop :=
  forall p, match m !! p, m' !! p with
            | Some c, Some c' => may_become c c'
            | Some c, None => ~ library c
            | None, Some c' => ~ library c' /\ cell_ok c'
            | None, None => True
            end.

(** The library's calls, with valid arguments, and what the program and the
    host do between them.  [h] lists the sources handed over. *)
Inductive step : list (ptr * ptr) * World -> list (ptr * ptr) * World -> Prop :=
  | step_call c h w r w' :
      valid_call (w_memory w) c -> run c w = (Ok r, w') -> step (h, w) (h ++ handed c, w')
  | step_program h w m' :
      program_writes (w_memory w) m' -> step (h, w) (h, set_memory m' w)
  | step_files h w f : step (h, w) (h, set_files f w)
  | step_stream h w p u : step (h, w) (h, set_stream p u w)
  | step_sink h w p v : step (h, w) (h, set_sink p v w).

(** The world before the first call: the program's own memory. *)
Definition start_world (w : World) : Prop :=
  (forall p c, w_memory w !! p = Some c -> ~ library c /\ cell_ok c) /\ w_destroyed w = [].

Definition reachable (h : list (ptr * ptr)) (w : World) : Prop :=
  exists w0, start_world w0 /\ rtc step ([], w0) (h, w).
End Machine.

Section MachineProofs.
Context {C : Crates} {H : Host} {A : Allocator} `{!SortSpec C} `{!DecompressSpec C} `{!CompressSpec C}
  `{!AeadSpec C} `{!HashSpec C} {lookup : Files -> bytes -> option Z} {data : Files -> Z -> bytes}
  `{!FileSystemSpec lookup data}.

(** What [run] gives on a valid call. *)
Definition call_ok (h : list (ptr * ptr)) (c : ApiCall) (w : World) : Prop :=
  exists r w', run c w = (Ok r, w') /\ (forall s, r = Some s -> possible s) /\ Good (h ++ handed c) w'.

Lemma status_ok h h' call w :
  answers h h' call w -> Good h w ->
  exists r w', status_of call w = (Ok r, w') /\ (forall s, r = Some s -> possible s) /\ Good h' w'.
Proof.
  intros Ha Hg. destruct (Ha Hg) as (s & w' & Hr & Hs & Hg' & _). exists (Some s), w'.
  unfold status_of. rewrite (st_bind_run _ _ _ _ _ Hr). split_and!; [done|by intros ? [= <-]|done].
Qed.

Lemma nothing_ok h call w :
  ends h h call w -> Good h w ->
  exists r w', nothing_of call w = (Ok r, w') /\ (forall s, r = Some s -> possible s) /\ Good h w'.
Proof.
  intros Ha Hg. destruct (Ha Hg) as (w' & Hr & Hg'). exists None, w'.
  unfold nothing_of. by rewrite (st_bind_run _ _ _ _ _ Hr).
Qed.

Lemma run_ok h c w : valid_call (w_memory w) c -> Good h w -> call_ok h c w.
Proof.
  intros Hv Hg. unfold call_ok.
  assert (Hk0 : is_u32 0) by (vm_compute; intuition congruence).
  assert (Hu0 : is_u64 0) by (vm_compute; intuition congruence).
  destruct c; cbn [handed run valid_call] in *; rewrite ?app_nil_r;
    try (eapply nothing_ok; [|exact Hg]); try (eapply status_ok; [|exact Hg]).
  - by eapply proj1, limits_functions_sound.
  - by eapply proj2, limits_functions_sound.
  - by apply options_default_sound.
  - apply hash_path_sound; apply Hv.
  - apply normalize_path_sound; apply Hv.
  - apply open_memory_sound; apply Hv.
  - apply open_file_sound; apply Hv.
  - apply open_source_sound; apply Hv.
  - by apply archive_free_sound.
  - by apply buffer_free_sound.
  - by apply scratch_new_sound.
  - by apply scratch_free_sound.
  - apply info_sound; apply Hv.
  - apply entry_at_sound; apply Hv.
  - apply entry_sound; apply Hv.
  - apply entry_by_id_sound; apply Hv.
  - by apply verify_sound_call.
  - apply contains_sound; apply Hv.
  - apply contains_id_sound; apply Hv.
  - eapply proj1, (reads_sound _ _ _ _ _ 0 0 0); by try apply Hv.
  - apply read_by_id_sound; apply Hv.
  - eapply proj1, proj2, (reads_sound _ _ _ _ _ k 0 0); by try apply Hv.
  - eapply proj1, proj2, proj2, (reads_sound _ _ _ _ _ 0 offset m); by try apply Hv.
  - eapply proj2, proj2, proj2, (reads_sound _ _ _ _ _ 0 offset m); by try apply Hv.
  - eapply proj1, (reads_into_sound _ _ _ _ 0); by try apply Hv.
  - eapply proj2, (reads_into_sound _ _ _ _ k); by try apply Hv.
  - apply read_range_into_sound; apply Hv.
  - eapply proj1, (reads_with_scratch_sound _ _ _ _ 0); by try apply Hv.
  - eapply proj2, (reads_with_scratch_sound _ _ _ _ k); by try apply Hv.
  - apply read_range_with_scratch_sound; apply Hv.
  - apply pack_memory_sound; apply Hv.
  - apply pack_file_sound; apply Hv.
  - apply pack_streams_sound; apply Hv.
Qed.

(** ** The program's own steps *)

(** What is owed depends on the archives alone. *)
Definition is_archive (c : Cell) : bool := match c with CArchive _ => true | _ => false end.

Lemma live_filter (m : Memory) : live m ≡ₚ live (filter (fun x => is_archive x.2 = true) m).
Proof.
  induction m as [|p c m Hp IH] using map_ind; [done|].
  rewrite live_insert_new by done. destruct (is_archive c) eqn:Hk.
  - rewrite map_filter_insert_True by done.
    rewrite live_insert_new by (apply map_lookup_filter_None; by left).
    by apply Permutation_app_head.
  - rewrite map_filter_insert_False by (cbn; congruence). rewrite map_filter_delete_not; cbn.
    + assert (owed c = []) as -> by (by destruct c). exact IH.
    + intros c'. congruence.
Qed.

Lemma may_become_archive c c1 c2 :
  may_become c1 c2 -> is_archive c = true -> c2 = c <-> c1 = c.
Proof.
  destruct c; try done. intros Hm _. split.
  - intros ->. destruct c1; cbn in Hm; try done;
      first [by destruct Hm as (d & ? & _)|by destruct Hm as [Hn _]; destruct (Hn I)].
  - by intros ->.
Qed.

Lemma program_writes_archive m m' p c :
  program_writes m m' -> is_archive c = true -> m' !! p = Some c <-> m !! p = Some c.
Proof.
  intros Hw Hc. specialize (Hw p). destruct (m !! p) as [c1|], (m' !! p) as [c2|]; try done.
  - pose proof (may_become_archive c c1 c2 Hw Hc). split; intros [= E]; f_equal; tauto.
  - split; [done|]. intros [= ->]. by destruct c.
  - destruct Hw as [Hw _]. split; [|done]. intros [= ->]. by destruct c.
Qed.

Lemma program_writes_live m m' : program_writes m m' -> live m' ≡ₚ live m.
Proof.
  intros Hw. rewrite (live_filter m), (live_filter m'). f_equiv. apply map_eq. intros p.
  apply option_eq. intros c. rewrite !map_lookup_filter_Some. cbn.
  pose proof (program_writes_archive m m' p c Hw). tauto.
Qed.

Lemma program_writes_good h w m' : Good h w -> program_writes (w_memory w) m' -> Good h (set_memory m' w).
Proof.
  intros [Hc Hl] Hw. split; cbn.
  - intros p c' Hp. pose proof (Hw p) as Hwp. rewrite Hp in Hwp.
    destruct (w_memory w !! p) as [c|] eqn:E; [|apply Hwp].
    destruct c; cbn in Hwp; try apply Hwp.
    + by destruct Hwp as (d & -> & _).
    + subst. by apply (Hc p).
    + subst. by apply (Hc p).
  - by rewrite Hl, (program_writes_live _ _ Hw).
Qed.

Lemma step_good h w h' w' : Good h w -> step (h, w) (h', w') -> Good h' w'.
Proof.
  intros Hg Hs. inversion Hs as [c h0 w0 r w1 Hv Hr| | | |]; subst; try by destruct Hg.
  - destruct (run_ok h c w Hv Hg) as (r' & w1 & Hr' & _ & Hg'). rewrite Hr in Hr'. by injection Hr' as _ <-.
  - by apply program_writes_good.
Qed.

Lemma start_good w : start_world w -> Good [] w.
Proof.
  intros [Hc Hd]. split; [intros p c Hp; by apply (Hc p)|]. rewrite Hd, live_filter.
  rewrite (proj2 (map_empty (filter _ _))); [done|]. intros p.
  apply map_lookup_filter_None. right. intros c Hp Ha. destruct (Hc p c Hp) as [Hl _]. by destruct c.
Qed.

Lemma reachable_good h w : reachable h w -> Good h w.
Proof.
  intros (w0 & Hs & Hr). remember ([], w0) as s0 eqn:E0. remember (h, w) as s1 eqn:E1.
  assert (Hg : Good s0.1 s0.2) by (subst; by apply start_good). clear Hs E0.
  revert h w E1. induction Hr as [s|[h0 w1] [h1 w2] s Hst _ IH]; intros h w ->; [done|].
  apply (IH (step_good _ _ _ _ Hg Hst)). done.
Qed.
End MachineProofs.

(** ** Properties *)

(** C5 The C interface is safe. However a program reached this state by valid
    calls (interleaved with changes of its own memory, its files and its
    streams), every open handle designates an archive that satisfies the
    invariant of an opened one, and every further call whose arguments are
    null or what the C header asks for returns: its behaviour is defined, no
    status says that a panic was caught or that a callback failed ([possible]),
    and the state after it is good again. *)
Theorem api_defined {C : Crates} {H : Host} {A : Allocator} `{!SortSpec C} `{!DecompressSpec C}
    `{!CompressSpec C} `{!AeadSpec C} `{!HashSpec C} {lookup data} `{!FileSystemSpec lookup data}
    h (w : World) :
  reachable h w ->
  (forall p a, w_memory w !! p = Some (CArchive a) -> ArchiveWf (ra_inner a)) /\
  forall c, valid_call (w_memory w) c ->
    exists r w', run c w = (Ok r, w') /\ (forall s, r = Some s -> possible s) /\ reachable (h ++ handed c) w'.
Proof.
  intros Hr. pose proof (reachable_good h w Hr) as Hg. split.
  - intros p a Hp. apply (good_cells _ _ Hg p _ Hp).
  - intros c Hv. destruct (run_ok h c w Hv Hg) as (r & w' & Hrun & Hnp & _).
    exists r, w'. split_and!; [done|done|]. destruct Hr as (w0 & Hs & Hrtc). exists w0. split; [done|].
    eapply rtc_r; [exact Hrtc|]. by eapply step_call.
Qed.

(** C15 Ownership of callback sources: of the sources a program ever handed
    over, each has had its [destroy] called exactly once or belongs to exactly
    one archive that is still open (a failed open destroys at once); when no
    archive is open, every source has been destroyed, once. *)
Theorem sources_destroyed_once {C : Crates} {H : Host} {A : Allocator} `{!SortSpec C}
    `{!DecompressSpec C} `{!CompressSpec C} `{!AeadSpec C} `{!HashSpec C} {lookup data}
    `{!FileSystemSpec lookup data} h (w : World) :
  reachable h w ->
  h ≡ₚ w_destroyed w ++ live (w_memory w) /\
  ((forall p a, w_memory w !! p <> Some (CArchive a)) -> w_destroyed w ≡ₚ h) /\
  (NoDup h -> forall p a d, w_memory w !! p = Some (CArchive a) ->
     d ∈ dropped (ar_source (ra_inner a)) -> d ∉ w_destroyed w).
Proof.
  intros Hr. pose proof (good_ledger _ _ (reachable_good h w Hr)) as Hl. split_and!; [done|..].
  - intros Hno. rewrite Hl, live_filter, (proj2 (map_empty (filter _ _))); [by rewrite app_nil_r|].
    intros p. apply map_lookup_filter_None. right. intros c Hp Ha. destruct c; try done. by destruct (Hno p v).
  - intros Hnd p a d Hp Hd Hin. rewrite Hl in Hnd. apply NoDup_app in Hnd as (_ & Hdis & _).
    apply (Hdis d Hin). rewrite <- (live_delete _ _ _ Hp). apply elem_of_app. by left.
Qed.

(** Looking at a handle by what it owes. *)
Definition owes `{Host} (m : Memory) (p : ptr) (d : ptr * ptr) : bool :=
  match m !! p with Some c => bool_decide (d ∈ owed c) | None => false end.

Lemma owed_archive `{Host} (m : Memory) p d :
  owes m p d = true -> exists a, m !! p = Some (CArchive a) /\ d ∈ dropped (ar_source (ra_inner a)).
Proof.
  unfold owes. destruct (m !! p) as [c|]; [|done]. intros Hd%bool_decide_eq_true.
  destruct c as [| | | | | | | | | | | | | |a|]; try by apply not_elem_of_nil in Hd. by exists a.
Qed.

Lemma owed_place `{Host} (m : Memory) p d : owes m p d = true -> place m p KArchive.
Proof. intros (a & Ha & _)%owed_archive. by eexists. Qed.

Definition bytes_at `{Host} (m : Memory) (p : ptr) : option bytes :=
  match m !! p with Some (CBytes d | CBox d) => Some d | _ => None end.
Definition buffer_at `{Host} (m : Memory) (p : ptr) : option RasenBuffer :=
  match m !! p with Some (CBuffer b) => Some b | _ => None end.

Lemma bytes_at_slice `{Host} (m : Memory) p d : bytes_at m p = Some d -> slice_ok m p (len d).
Proof.
  unfold bytes_at. destruct (m !! p) as [[]|] eqn:Hp; try done; intros [= ->];
    (split; [apply len_nonneg|]); right; right; exists (len d); (split; [done|]); [left|right]; by eexists.
Qed.

Lemma buffer_at_place `{Host} (m : Memory) p b : buffer_at m p = Some b -> place m p KBuffer.
Proof. unfold buffer_at. destruct (m !! p) as [[]|] eqn:Hp; try done. intros _. by eexists. Qed.

(** A host whose files, streams and sinks are in memory, and a program that
    opens the archive of [Roundtrip.Demo]. *)
Module FfiDemo.
#[export] Instance host : Host := {
  Files := Plain.fs;
  FileStream := bytes;
  host_files := Plain.plain_fs;
  UserStream := bytes;
  user_stream := {| stream_rest := id |};
  UserSink := VecCursor;
  user_sink := {| sink_contents := vc_data; sink_position := vc_pos |}
}.

#[export] Instance files_spec : FileSystemSpec (H := Plain.plain_fs) Plain.lookup Plain.data := Plain.plain_spec.

#[export] Instance allocator : Allocator := {| new_address := next_address; new_address_spec := next_address_spec |}.

Definition archive_bytes : bytes := vc_data Demo.packed.1.

Definition memory0 : Memory := list_to_map [
  (1, CBytes archive_bytes); (2, CBytes Demo.key); (3, CPtr 0); (4, CBytes (lit "c"));
  (5, CBuffer default_buffer)].

Definition start : World := {|
  w_memory := memory0; w_last_error := []; w_nonces := 0;
  w_files := {| Plain.names := ∅; Plain.store := ∅ |};
  w_streams := fun _ => []; w_sinks := fun _ => {| vc_data := []; vc_pos := 0 |};
  w_destroyed := [] |}.

(** A callback over the archive's bytes. *)
Definition read_at_call (_ : ptr) (offset : Z) (dst : bytes) : Z * bytes :=
  match slice_get archive_bytes offset (offset + len dst) with
  | Some s => (0, s)
  | None => (1, dst)
  end.

Lemma read_at_within u offset dst : length (read_at_call u offset dst).2 = length dst.
Proof.
  unfold read_at_call. destruct (slice_get _ _ _) as [s|] eqn:E; [|done]. apply slice_get_len in E.
  cbn. unfold len in E. lia.
Qed.

Lemma archive_len_range : is_u64 (len archive_bytes).
Proof. vm_compute. intuition congruence. Qed.

Definition source : RasenSource := {|
  src_user_data := 42; src_len := len archive_bytes;
  src_read_at := Some {| ra_call := read_at_call; ra_within := read_at_within |};
  src_destroy := Some 99; src_len_range := archive_len_range |}.

Definition open_call : ApiCall := OpenSource source 2 (len Demo.key) 0 3.
Definition opened : World := (run (C := Toy.crates) open_call start).2.

Lemma start_ok : start_world (C := Toy.crates) start.
Proof.
  split; [|done]. intros p c Hp. apply elem_of_list_to_map_2 in Hp.
  repeat (apply elem_of_cons in Hp as [[= -> ->]|Hp]; [by split; [intros []|]|]).
  by apply not_elem_of_nil in Hp.
Qed.

Lemma open_valid : valid_call memory0 open_call.
Proof.
  split; [|split].
  - split; [done|]. right. right. exists (len Demo.key). split; [done|]. left. by eexists.
  - by left.
  - right. by eexists.
Qed.

Lemma open_runs : run (C := Toy.crates) open_call start = (Ok (Some SOk), opened).
Proof.
  assert (E : (run (C := Toy.crates) open_call start).1 = Ok (Some SOk)) by (vm_compute; reflexivity).
  unfold opened. by rewrite (surjective_pairing (run open_call start)), E.
Qed.

Lemma opened_reachable : reachable (C := Toy.crates) [(99, 42)] opened.
Proof.
  exists start. split; [exact start_ok|]. eapply rtc_l; [|apply rtc_refl].
  exact (step_call open_call [] start _ opened open_valid open_runs).
Qed.
End FfiDemo.
Import FfiDemo.

Lemma api_defined_witness :
  exists r w', run (C := Toy.crates) (ReadAll 6 4 1 5) FfiDemo.opened = (Ok r, w') /\ (forall s, r = Some s -> possible s) /\
    bytes_at (w_memory w') 7 = Some (replicate 9 x7a) /\
    buffer_at (w_memory w') 5 = Some {| rb_data := 7; rb_len := 9 |}.
Proof.
  destruct (api_defined (C := Toy.crates) (H := host) (lookup := Plain.lookup) (data := Plain.data)
    [(99, 42)] FfiDemo.opened FfiDemo.opened_reachable) as [_ Hrun].
  destruct (Hrun (ReadAll 6 4 1 5)) as (r & w' & Hr & Hn & _).
  - split; [|split].
    + right. apply (owed_place _ _ (99, 42)). vm_compute. reflexivity.
    + apply (bytes_at_slice _ _ (lit "c")). vm_compute. reflexivity.
    + right. apply (buffer_at_place _ _ default_buffer). vm_compute. reflexivity.
  - exists r, w'. split_and!; [exact Hr|exact Hn| |].
    + replace w' with (run (C := Toy.crates) (ReadAll 6 4 1 5) FfiDemo.opened).2 by (by rewrite Hr).
      vm_compute. reflexivity.
    + replace w' with (run (C := Toy.crates) (ReadAll 6 4 1 5) FfiDemo.opened).2 by (by rewrite Hr).
      vm_compute. reflexivity.
Defined.

Lemma sources_destroyed_once_witness :
  ~ ((99, 42) ∈ w_destroyed FfiDemo.opened) /\
  w_destroyed (run (C := Toy.crates) (FreeArchive 6) FfiDemo.opened).2 = [(99, 42)].
Proof.
  split; [|vm_compute; reflexivity].
  destruct (sources_destroyed_once (C := Toy.crates) (H := host) (lookup := Plain.lookup) (data := Plain.data)
    [(99, 42)] FfiDemo.opened FfiDemo.opened_reachable) as (_ & _ & H).
  destruct (owed_archive (w_memory FfiDemo.opened) 6 (99, 42)) as (a & Ha & Hd); [vm_compute; reflexivity|].
  apply (H (NoDup_singleton _) 6 a (99, 42) Ha Hd).
Defined.
