(* ===== verification/FfiSpec.v ===== *)
(** * The C interface: what the calls do

    [ffi_call] on every outcome, the conversions of the structs, the reads on
    every branch, and the way from [rasen_pack_memory] over
    [rasen_archive_open_memory] back to the files. *)
From S2P Require Export FfiCalls.

(** ** Runs *)

Section Runs.
Context {H : Host}.

(** What a slice argument designates, when it is valid and not null. *)
Definition slice_at (m : Memory) (p : ptr) (n : Z) : option bytes :=
  if n =? 0 then Some [] else if is_null p then None else raw_bytes m p n.

Lemma bytes_run (p : ptr) n name w d :
  slice_at (w_memory w) p n = Some d -> bytes_ p n name w = (Ok d, w).
Proof.
  unfold slice_at, bytes_. destruct (n =? 0); [by intros [= <-]|]. destruct (is_null p); [done|].
  intros Hd. unfold load_bytes, memory, get, mbind, st_bind. cbn. by rewrite Hd.
Qed.

Lemma utf8_run (p : ptr) n name w d :
  slice_at (w_memory w) p n = Some d ->
  utf8 p n name w =
    if utf8_valid d then (Ok d, w)
    else (Err (Failed (failure SInvalidUtf8 (lit name ++ lit " is not valid UTF-8"))), w).
Proof.
  intros Hd. unfold utf8. rewrite (st_bind_run _ _ _ _ _ (bytes_run p n name w d Hd)).
  unfold from_utf8. by destruct (utf8_valid d).
Qed.

Lemma required_ref_run {T} `{!Stored T} (p : ptr) name (x : T) w :
  p <> null -> w_memory w !! p = Some (to_cell x) -> required_ref p name w = (Ok x, w).
Proof.
  intros Hp Hx. unfold required_ref, is_null. destruct (Z.eqb_spec p null); [done|]. by apply load_run.
Qed.

Lemma required_mut_run {T} `{!Stored T} (p : ptr) name (x : T) w :
  p <> null -> w_memory w !! p = Some (to_cell x) -> required_mut T p name w = (Ok tt, w).
Proof.
  intros Hp Hx. unfold required_mut, is_null. destruct (Z.eqb_spec p null); [done|].
  by rewrite (st_bind_run _ _ _ x w) by (by apply load_run).
Qed.

Context {C : Crates} {A : Allocator}.

Lemma archive_ref_run (p : ptr) a w :
  p <> null -> w_memory w !! p = Some (CArchive {| ra_inner := a |}) -> archive_ref p w = (Ok a, w).
Proof.
  intros Hp Ha. unfold archive_ref.
  by rewrite (st_bind_run _ _ _ {| ra_inner := a |} w) by (by apply required_ref_run).
Qed.

(** The buffer for some bytes, and the memory that holds them. *)
Definition given (d : bytes) (m : Memory) : RasenBuffer :=
  if bool_decide (d = []) then default_buffer else {| rb_data := new_address m; rb_len := len d |}.

Definition give (out : ptr) (d : bytes) (w : World) : World :=
  set_memory (<[out := CBuffer (given d (w_memory w))]>
    (if bool_decide (d = []) then w_memory w
     else <[new_address (w_memory w) := CBox d]> (w_memory w))) w.

Lemma give_run (out : ptr) d w b0 :
  w_memory w !! out = Some (CBuffer b0) ->
  (buffer ← into_buffer d; assign out buffer) w = (Ok tt, give out d w).
Proof.
  intros Hout. destruct (new_address_spec (w_memory w)) as [_ Hnew].
  unfold into_buffer, give, given. case_bool_decide.
  - rewrite (st_bind_run _ _ _ default_buffer w) by done. by rewrite (assign_run out b0) by done.
  - set (w1 := set_memory (<[new_address (w_memory w) := CBox d]> (w_memory w)) w).
    rewrite (st_bind_run _ _ _ {| rb_data := new_address (w_memory w); rb_len := len d |} w1) by done.
    rewrite (assign_run out b0); [done|]. cbn. rewrite lookup_insert_ne; [done|]. intros Heq.
    rewrite <- Heq in Hout. congruence.
Qed.

(** ** The caller's view of a buffer: its bytes, and their release. *)
Definition buffer_bytes (m : Memory) (b : RasenBuffer) : option bytes := slice_at m (rb_data b) (rb_len b).

Lemma give_buffer (out : ptr) d w b0 :
  w_memory w !! out = Some (CBuffer b0) ->
  w_memory (give out d w) !! out = Some (CBuffer (given d (w_memory w))) /\
  buffer_bytes (w_memory (give out d w)) (given d (w_memory w)) = Some d /\
  (forall p, p <> out -> p <> new_address (w_memory w) ->
     w_memory (give out d w) !! p = w_memory w !! p).
Proof.
  intros Hout. destruct (new_address_spec (w_memory w)) as [Hn Hnew]. unfold give, given. cbn.
  split_and!; [apply lookup_insert_eq| |].
  - unfold buffer_bytes, slice_at. case_bool_decide as Hd; [by subst|]. cbn.
    destruct (Z.eqb_spec (len d) 0) as [Hz|_]; [by apply len_0_nil in Hz|].
    unfold is_null. destruct (Z.eqb_spec (new_address (w_memory w)) null); [done|]. unfold raw_bytes.
    rewrite lookup_insert_ne by (intros ->; congruence). rewrite lookup_insert_eq. apply slice_get_all.
  - intros p Hp Hp'. rewrite lookup_insert_ne by done. case_bool_decide; [done|]. by rewrite lookup_insert_ne.
Qed.

(** Freeing the buffer gives the memory back as it was, but for the struct. *)
Lemma free_given (out : ptr) d w b0 :
  out <> null -> w_memory w !! out = Some (CBuffer b0) ->
  rasen_buffer_free out (give out d w) =
    (Ok tt, set_memory (<[out := CBuffer default_buffer]> (w_memory w)) w).
Proof.
  intros Ho Hout. destruct (new_address_spec (w_memory w)) as [Hn Hnew].
  unfold rasen_buffer_free, is_null. destruct (Z.eqb_spec out null); [done|].
  destruct (give_buffer out d w b0 Hout) as (Hb & _ & _).
  rewrite (st_bind_run _ _ _ (given d (w_memory w)) (give out d w)) by (by apply load_run).
  unfold give, given in *. case_bool_decide as Hd.
  - cbn [rb_data default_buffer]. rewrite Z.eqb_refl. cbn [negb].
    erewrite (st_bind_run (mret tt)) by reflexivity. rewrite (assign_run out default_buffer) by exact Hb.
    cbn. by rewrite insert_insert_eq.
  - cbn [rb_data rb_len]. destruct (Z.eqb_spec (new_address (w_memory w)) null); [done|]. cbn [negb].
    assert (Hne : out <> new_address (w_memory w)) by (intros Heq; rewrite <- Heq in Hnew; congruence).
    set (w1 := set_memory (delete (new_address (w_memory w)) (w_memory (set_memory
      (<[out := CBuffer {| rb_data := new_address (w_memory w); rb_len := len d |}]>
        (<[new_address (w_memory w) := CBox d]> (w_memory w))) w))) w).
    rewrite (st_bind_run _ _ _ tt w1).
    2:{ unfold drop_box, memory, modify, get, put, mbind, st_bind, mret, st_ret. cbn.
        rewrite lookup_insert_ne by done. by rewrite lookup_insert_eq, Z.eqb_refl. }
    rewrite (assign_run out {| rb_data := new_address (w_memory w); rb_len := len d |}).
    2:{ cbn. rewrite lookup_delete_ne by done. apply lookup_insert_eq. }
    unfold w1, set_memory. cbn. do 2 f_equal.
    rewrite delete_insert_ne by done. rewrite delete_insert_id by done. by rewrite insert_insert_eq.
Qed.
End Runs.

(** ** The bytes of a memory source *)

Lemma long_list (n : Z) : 0 <= n -> exists l : bytes, len l = n.
Proof. intros Hn. exists (replicate (Z.to_nat n) x00). by apply len_replicate. Qed.

Section MemorySource.
Context (far : bytes) (Hfar : ~ is_u64 (len far)).

(** The content of a memory source; of the others nothing is claimed: [far] is
    longer than any length a source reports. *)
Definition memory_content (s : FfiSource) : bytes :=
  match s with SrcMemory d => d | _ => far end.

Lemma ffi_memory_reliable : SourceReliable FfiSource memory_content.
Proof using Hfar.
  constructor.
  - intros [d|f|s] Hu; [|done..]. exact (slice_len_reliable d Hu).
  - intros [d|f|s] offset dst s' Hu; [|done..]. exact (read_slice_exact_reliable d offset dst s' Hu).
Qed.
End MemorySource.

(** ** Runs of whole functions *)

Section Functions.
Context {H : Host}.

(** What a caller reads with [rasen_last_error_message]. *)
Definition last_error_text (w : World) : bytes := c_str (w_last_error w ++ [x00]).

Lemma last_error_run message w :
  last_error_text (set_last_error message w) = replace_nul message /\
  rasen_last_error_message (set_last_error message w) = (Ok (replace_nul message), set_last_error message w).
Proof.
  assert (Ht : last_error_text (set_last_error message w) = replace_nul message).
  { unfold last_error_text. cbn. unfold sanitized. rewrite replace_nul_clean. cbn.
    apply c_str_clean, replace_nul_free. }
  split; [done|]. unfold rasen_last_error_message, last_error_text, get, mbind, st_bind, mret, st_ret in *.
  by rewrite Ht.
Qed.

Lemma ffi_call_failed m w f w' :
  m w = (Err (Failed f), w') -> ffi_call m w = (Ok (ff_status f), set_last_error (ff_message f) w').
Proof. unfold ffi_call. by intros ->. Qed.

Lemma ffi_call_ok m w u w' : m w = (Ok u, w') -> ffi_call m w = (Ok SOk, w').
Proof. unfold ffi_call. by intros ->. Qed.

(** A statement that fails ends the call. *)
Lemma st_bind_err {E S X Y} (m : ST E S X) (f : X -> ST E S Y) s e s' :
  m s = (Err e, s') -> (m ≫= f) s = (Err e, s').
Proof. unfold mbind, st_bind. by intros ->. Qed.

Context {C : Crates} {A : Allocator}.

Lemma read_buffer_run archive out read a b w :
  archive <> null -> w_memory w !! archive = Some (CArchive {| ra_inner := a |}) ->
  out <> null -> w_memory w !! out = Some (CBuffer b) -> read a <> Panic ->
  ffi_call (read_buffer archive out read) w =
    match read a with
    | Ok d => (Ok SOk, give out d w)
    | Err e => (Ok (core_status e), set_last_error (error_to_string e) w)
    | Panic => (Panic, w)
    end.
Proof.
  intros Ha Harch Ho Hout Hnp. unfold ffi_call, read_buffer.
  rewrite (st_bind_run _ _ _ a w) by (by apply archive_ref_run).
  rewrite (st_bind_run _ _ _ tt w) by (by apply (required_mut_run out "out" b)).
  destruct (read a) as [d|e|]; [|done|done]. rewrite (st_bind_run _ _ _ d w) by done. by rewrite (give_run out d w b).
Qed.
End Functions.

(** ** Properties *)

(** C39 Failures reach the caller as they are: a call that succeeds returns
    [RASEN_OK]; one that fails returns the failure's status, leaves in memory
    what the call left, and the caller reads the failure's text (a NUL in it
    written as a backslash and a zero); a panic becomes [RASEN_PANIC]; the
    statuses have distinct codes, and the errors of the library have theirs
    from 100 on. *)
Theorem ffi_call_spec {H : Host} (m : Call unit) (w : World) :
  match m w with
  | (Ok _, w') => ffi_call m w = (Ok SOk, w')
  | (Err (Failed f), w') => exists w2, ffi_call m w = (Ok (ff_status f), w2) /\
      w_memory w2 = w_memory w' /\ rasen_last_error_message w2 = (Ok (replace_nul (ff_message f)), w2) /\
      (x00 ∉ ff_message f -> last_error_text w2 = ff_message f)
  | (Err Undefined, w') => ffi_call m w = (Err Undefined, w')
  | (Panic, w') => exists w2, ffi_call m w = (Ok SPanic, w2) /\ w_memory w2 = w_memory w' /\
      last_error_text w2 = lit "panic caught at FFI boundary"
  end /\
  (forall s t, status_code s = status_code t -> s = t) /\
  (forall e, 100 <= status_code (core_status e) <= 127).
Proof.
  split; [|split; [apply status_code_inj|intros []; cbn; lia]].
  unfold ffi_call. destruct (m w) as [[u|[f|]|] w']; [done| |done|].
  - eexists. split; [reflexivity|]. destruct (last_error_run (ff_message f) w') as [Ht Hr].
    split_and!; [done|done|]. intros Hn. rewrite Ht. by apply replace_nul_id.
  - eexists. split; [reflexivity|]. destruct (last_error_run (lit "panic caught at FFI boundary") w') as [Ht _].
    split; [done|]. rewrite Ht. reflexivity.
Qed.

(** C40 The structs carry the library's values over the boundary and back:
    limits both ways, options to C and back; options from C are accepted
    exactly when mode and protection are known numbers, and otherwise refused
    with [RASEN_INVALID_VALUE]. *)
Theorem conversions_roundtrip (l : ArchiveLimits) (c : RasenArchiveLimits) (o : PackOptions)
    (co : RasenPackOptions) :
  limits_from_c (limits_to_c l) = l /\ limits_to_c (limits_from_c c) = c /\
  pack_options_from_c (options_to_c o) = Ok o /\
  (forall o', pack_options_from_c co = Ok o' -> options_to_c o' = co) /\
  (is_Some (to_option (pack_options_from_c co)) <->
     (rp_mode co = 0 \/ rp_mode co = 1) /\ (rp_protection co = 0 \/ rp_protection co = 1)) /\
  (forall f, pack_options_from_c co = Err f -> ff_status f = SInvalidValue).
Proof.
  split_and!.
  - by destruct l.
  - by destruct c.
  - by destruct o as [? ? [] []].
  - intros o'. destruct co as [cz al m p]. unfold pack_options_from_c. cbn.
    destruct (Z.eqb_spec m PACK_MODE_DEBUG) as [->|]; [|destruct (Z.eqb_spec m PACK_MODE_PRODUCTION) as [->|]];
      cbn; [..|done]; (destruct (Z.eqb_spec p PROTECTION_XOR) as [->|];
        [|destruct (Z.eqb_spec p PROTECTION_AEAD) as [->|]]; cbn; [..|done]); by intros [= <-].
  - unfold pack_options_from_c, PACK_MODE_DEBUG, PACK_MODE_PRODUCTION, PROTECTION_XOR, PROTECTION_AEAD.
    destruct (Z.eqb_spec (rp_mode co) 0), (Z.eqb_spec (rp_mode co) 1),
      (Z.eqb_spec (rp_protection co) 0), (Z.eqb_spec (rp_protection co) 1); cbn;
      (split; [intros [x Hx]; (done || lia)|intros ?; (by eexists) || lia]).
  - intros f. unfold pack_options_from_c.
    destruct (rp_mode co =? _); [|destruct (rp_mode co =? _)]; cbn; [..|by intros [= <-]];
      (destruct (rp_protection co =? _); [|destruct (rp_protection co =? _)]; cbn; [done|done|by intros [= <-]]).
Qed.

(** C38 [rasen_archive_read] is [Archive::read], on every branch: a null pointer
    and a path that is not UTF-8 are refused, a failed read reports its status and text and changes
    nothing else, and a successful one hands the caller a new buffer with
    exactly the asset's bytes, and touches nothing else; freeing the buffer
    gives its memory back. *)
Theorem rasen_archive_read_spec {C : Crates} {H : Host} {A : Allocator} `{!DecompressSpec C}
    archive path n out (w : World) self p b :
  archive <> null -> w_memory w !! archive = Some (CArchive {| ra_inner := self |}) -> ArchiveWf self ->
  out <> null -> w_memory w !! out = Some (CBuffer b) -> slice_at (w_memory w) path n = Some p ->
  rasen_archive_read archive path n out w =
    (if utf8_valid p then
       match Reader.read self p with
       | Ok d => (Ok SOk, give out d w)
       | Err e => (Ok (core_status e), set_last_error (error_to_string e) w)
       | Panic => (Panic, w)
       end
     else (Ok SInvalidUtf8, set_last_error (lit "path is not valid UTF-8") w)) /\
  (n <> 0 -> rasen_archive_read archive null n out w =
     (Ok SNullPointer, set_last_error (lit "path is null") w)) /\
  (utf8_valid p = true ->
     rasen_archive_read null path n out w = (Ok SNullPointer, set_last_error (lit "archive is null") w) /\
     rasen_archive_read archive path n null w = (Ok SNullPointer, set_last_error (lit "out is null") w)) /\
  Reader.read self p <> Panic /\
  forall d, exists buffer, w_memory (give out d w) !! out = Some (CBuffer buffer) /\
    buffer_bytes (w_memory (give out d w)) buffer = Some d /\
    (forall q c, q <> out -> w_memory w !! q = Some c -> w_memory (give out d w) !! q = Some c) /\
    rasen_buffer_free out (give out d w) =
      (Ok tt, set_memory (<[out := CBuffer default_buffer]> (w_memory w)) w).
Proof.
  intros Ha Harch Hwf Ho Hout Hp. pose proof (safe_not_Panic _ _ (read_denotes self Hwf p)) as Hnp.
  assert (Hfail : forall (m : Call unit) what, m w = (Err (Failed (failure SNullPointer (null_message what))), w) ->
    ffi_call m w = (Ok SNullPointer, set_last_error (null_message what) w)).
  { intros m what Hm. by apply (ffi_call_failed m w (failure SNullPointer (null_message what)) w). }
  split_and!; [| | |done|].
  - unfold rasen_archive_read. destruct (utf8_valid p) eqn:Hu.
    + unfold ffi_call. rewrite (st_bind_run _ _ _ p w) by (by rewrite (utf8_run _ _ _ _ p), Hu).
      by apply (read_buffer_run archive out (fun inner => Reader.read inner p) self b w).
    + rewrite (ffi_call_failed _ w (failure SInvalidUtf8 (lit "path" ++ lit " is not valid UTF-8")) w); [done|].
      apply st_bind_err. by rewrite (utf8_run _ _ _ _ p), Hu.
  - intros Hn. apply (Hfail _ "path"), st_bind_err. unfold utf8. apply st_bind_err. unfold bytes_.
    by destruct (Z.eqb_spec n 0).
  - intros Hu. assert (Hutf : utf8 path n "path" w = (Ok p, w)) by by rewrite (utf8_run _ _ _ _ p), Hu.
    split; [apply (Hfail _ "archive")|apply (Hfail _ "out")]; rewrite (st_bind_run _ _ _ p w) by done;
      unfold read_buffer; [by apply st_bind_err|]. by rewrite (st_bind_run _ _ _ self w) by (by apply archive_ref_run).
  - intros d. destruct (give_buffer out d w b Hout) as (Hb & Hbytes & Hother). exists (given d (w_memory w)).
    split_and!; [done|done| |by apply (free_given out d w b)].
    intros q c Hq Hc. rewrite Hother; [done|done|]. intros ->. destruct (new_address_spec (w_memory w)). congruence.
Qed.

(** ** Packing to memory and back *)

Section MemoryRoundtrip.
Context {C : Crates} {H : Host} {A : Allocator}.

Lemma utf8_Ok (p : ptr) n name w s w' : utf8 p n name w = (Ok s, w') -> utf8_valid s = true.
Proof.
  unfold utf8. intros (d & w1 & _ & Hs)%st_bind_Ok. revert Hs. unfold from_utf8.
  destruct (utf8_valid d) eqn:Hu; [|done]. by intros [= <- _].
Qed.

Lemma collect_inputs_utf8 l w is_ w' :
  collect_inputs l w = (Ok is_, w') -> Forall (fun f => utf8_valid (if_path f) = true) is_.
Proof.
  revert w is_ w'. induction l as [|f l IH]; intros w is_ w'; cbn [collect_inputs]; [by intros [= <- _]|].
  intros (i & w1 & Hi & Hr)%st_bind_Ok. apply st_bind_Ok in Hr as (more & w2 & Hm & Hr).
  injection Hr as <- _. constructor; [|by eapply IH].
  unfold buffered_input in Hi. apply st_bind_Ok in Hi as (p & w3 & Hp & Hi).
  apply st_bind_Ok in Hi as (d & w4 & _ & Hi). injection Hi as <- _. by eapply utf8_Ok.
Qed.

Lemma buffered_inputs_utf8 files count w l w' :
  buffered_inputs files count w = (Ok l, w') -> Forall (fun f => utf8_valid (if_path f) = true) l.
Proof.
  unfold buffered_inputs. intros (fs & w1 & _ & Hl)%st_bind_Ok. by eapply collect_inputs_utf8.
Qed.

(** Arguments of a packing call, as the library sees them. *)
Record PackArguments (w : World) (files : ptr) (count : Z) (key : ptr) (key_len : Z) (options : ptr)
    (l : list InputFile) (k : bytes) (o : PackOptions) : Prop := {
  pg_files : buffered_inputs files count w = (Ok l, w);
  pg_key : slice_at (w_memory w) key key_len = Some k;
  pg_options : pack_options options w = (Ok o, w);
  pg_range : options_in_range o
}.

Lemma pack_memory_run w files count key key_len options out l k o b :
  PackArguments w files count key key_len options l k o ->
  out <> null -> w_memory w !! out = Some (CBuffer b) ->
  rasen_pack_memory files count key key_len options out null w =
    match pack_buffered l k o (empty_cursor, w_nonces w) with
    | (Ok _, (cursor, n)) => (Ok SOk, give out (vc_data cursor) (set_nonces n w))
    | (Err e, (_, n)) => (Ok (core_status e), set_last_error (error_to_string e) (set_nonces n w))
    | (Panic, (_, n)) => (Ok SPanic, set_last_error (lit "panic caught at FFI boundary") (set_nonces n w))
    end.
Proof.
  intros [Hf Hk Ho _] Hne Hout. unfold rasen_pack_memory, ffi_call.
  rewrite (st_bind_run _ _ _ tt w) by (by apply (required_mut_run out "out_archive" b)).
  rewrite (st_bind_run _ _ _ l w) by done. rewrite (st_bind_run _ _ _ k w) by (by apply bytes_run).
  rewrite (st_bind_run _ _ _ o w) by done.
  destruct (pack_buffered l k o (empty_cursor, w_nonces w)) as [[s|e|] [cursor n]] eqn:E;
    [|erewrite st_bind_err by (unfold with_cursor; rewrite E; reflexivity); done
     |unfold with_cursor, mbind at 1, st_bind; by rewrite E].
  rewrite (st_bind_run _ _ _ (s, cursor) (set_nonces n w)) by (unfold with_cursor; by rewrite E).
  pose proof (give_run out (vc_data cursor) (set_nonces n w) b Hout) as Hg.
  apply st_bind_Ok in Hg as (buffer & w2 & Hb & Hg).
  rewrite (st_bind_run _ _ _ buffer w2) by exact Hb.
  by rewrite (st_bind_run _ _ _ tt (give out (vc_data cursor) (set_nonces n w))) by exact Hg.
Qed.

Lemma open_memory_run w data n key key_len lp out d k l a x :
  slice_at (w_memory w) data n = Some d -> slice_at (w_memory w) key key_len = Some k ->
  limits lp w = (Ok l, w) -> out <> null -> w_memory w !! out = Some (CPtr x) ->
  open_with_limits (SrcMemory d) k l = Ok a ->
  rasen_archive_open_memory data n key key_len lp out w =
    (Ok SOk, set_memory (<[out := CPtr (new_address (w_memory w))]>
               (<[new_address (w_memory w) := CArchive {| ra_inner := a |}]> (w_memory w))) w).
Proof.
  intros Hd Hk Hl Ho Hout Ha. unfold rasen_archive_open_memory, ffi_call.
  rewrite (st_bind_run _ _ _ tt w) by (by apply (required_mut_run out "out" {| ptr_val := x |})).
  rewrite (st_bind_run _ _ _ d w) by (by apply bytes_run).
  rewrite (st_bind_run _ _ _ k w) by (by apply bytes_run).
  rewrite (st_bind_run _ _ _ l w) by done. destruct (new_address_spec (w_memory w)) as [_ Hnew].
  set (p := new_address (w_memory w)) in *.
  set (w1 := set_memory (<[p := CArchive {| ra_inner := a |}]> (w_memory w)) w).
  rewrite (st_bind_run _ _ _ p w1) by (unfold open_archive; by rewrite Ha).
  rewrite (assign_run out {| ptr_val := x |}); [done|]. cbn.
  rewrite lookup_insert_ne; [done|]. intros Heq. rewrite Heq in Hnew. congruence.
Qed.

(** A slice stays where it is when other cells change. *)
Lemma slice_at_give out b d w p n s :
  w_memory w !! out = Some (CBuffer b) -> slice_at (w_memory w) p n = Some s ->
  slice_at (w_memory (give out d w)) p n = Some s.
Proof.
  intros Hout. unfold slice_at. destruct (n =? 0); [done|]. destruct (is_null p); [done|].
  unfold raw_bytes. intros Hs. destruct (give_buffer out d w b Hout) as (_ & _ & Hother).
  rewrite Hother; [done| |]; intros ->.
  - by rewrite Hout in Hs.
  - destruct (new_address_spec (w_memory w)) as [_ Hn]. by rewrite Hn in Hs.
Qed.
End MemoryRoundtrip.

(** C13 The round trip over the C interface. When [rasen_pack_memory] succeeds,
    the buffer it hands out, opened under the same key with
    [rasen_archive_open_memory] and limits that fit, gives an archive, and
    [rasen_archive_read] of any path with a file's normal form hands out that
    file's data, whatever the program does with its memory in between, as long
    as the pointers it passes are those. *)
Theorem pack_memory_roundtrip {C : Crates} {H : Host} {A : Allocator} `{!CompressSpec C} `{!AeadSpec C}
    `{!HashSpec C} `{!SortSpec C} `{!AllocSpec C} `{!DecompressSpec C}
    (w w1 : World) files count key key_len options out b l k o :
  PackArguments w files count key key_len options l k o ->
  out <> null -> w_memory w !! out = Some (CBuffer b) ->
  rasen_pack_memory files count key key_len options out null w = (Ok SOk, w1) ->
  exists buffer packed h assets,
    w_memory w1 !! out = Some (CBuffer buffer) /\ buffer_bytes (w_memory w1) buffer = Some packed /\
    (read_header packed).1 = Ok h /\ files_assets l assets /\
    forall (w2 : World) data n key2 key2_len lp limits2 out2 x,
      slice_at (w_memory w2) data n = Some packed -> slice_at (w_memory w2) key2 key2_len = Some k ->
      limits lp w2 = (Ok limits2, w2) -> limits_in_range limits2 ->
      Fits (clamped limits2) o h assets -> out2 <> null -> w_memory w2 !! out2 = Some (CPtr x) ->
      exists w3 handle a, rasen_archive_open_memory data n key2 key2_len lp out2 w2 = (Ok SOk, w3) /\
        w_memory w3 !! out2 = Some (CPtr handle) /\ handle <> null /\
        w_memory w3 !! handle = Some (CArchive {| ra_inner := a |}) /\
        forall (w4 : World) f p path m out3 b3, f ∈ l ->
          w_memory w4 !! handle = Some (CArchive {| ra_inner := a |}) ->
          slice_at (w_memory w4) path m = Some p -> utf8_valid p = true ->
          normalize_path p = normalize_path (if_path f) ->
          Z.max 1 (chunks_needed o (if_data f)) <= max_chunks_per_operation (clamped limits2) ->
          out3 <> null -> w_memory w4 !! out3 = Some (CBuffer b3) ->
          exists w5 buffer5, rasen_archive_read handle path m out3 w4 = (Ok SOk, w5) /\
            w_memory w5 !! out3 = Some (CBuffer buffer5) /\
            buffer_bytes (w_memory w5) buffer5 = Some (if_data f).
Proof.
  intros Hargs Hne Hout Hrun. rewrite (pack_memory_run _ _ _ _ _ _ _ _ _ _ _ Hargs Hne Hout) in Hrun.
  destruct Hargs as [Hf _ _ Hr]. pose proof (buffered_inputs_utf8 _ _ _ _ _ Hf) as Hutf.
  pose proof (pack_buffered_safe (contents := vc_data) l k o empty_cursor (w_nonces w) Hr Hutf) as Hs.
  unfold ssafe in Hs. destruct (pack_buffered l k o _) as [[s|e|] [cursor nn]]; [|by destruct e|done].
  injection Hrun as <-. destruct Hs as (_ & assets & h & es & cs & pieces & Hfa & Hp & _). cbn [fst] in Hp.
  destruct (give_buffer out (vc_data cursor) (set_nonces nn w) b Hout) as (Hbuf & Hbytes & _).
  exists (given (vc_data cursor) (w_memory w)), (vc_data cursor), h, assets.
  split_and!; [exact Hbuf|exact Hbytes|by eapply packed_header_read|done|].
  intros w2 data n key2 key2_len lp limits2 out2 x Hd Hk2 Hl Hlr Hfit Ho2 Hout2.
  destruct (long_list (U64_MAX + 1)) as [far Hfar]; [unfold U64_MAX; lia|].
  assert (Hnot : ~ is_u64 (len far)) by (rewrite Hfar; unfold in_range; lia).
  pose proof (ffi_memory_reliable far Hnot) as Hrel.
  destruct (packed_opens (content := memory_content far) l assets o k (SrcMemory (vc_data cursor)) limits2
    h es cs pieces Hfa Hp Hlr Hfit) as (a & Ha & _ & Hread).
  destruct (safe_Ok _ _ _ (open_safe _ k limits2 Hlr) Ha) as (Hwf & _).
  destruct (new_address_spec (w_memory w2)) as [Hhn Hhf].
  eexists _, (new_address (w_memory w2)), a. split; [by eapply open_memory_run|]. cbn [w_memory set_memory].
  split_and!; [apply lookup_insert_eq|done| |].
  { rewrite lookup_insert_ne by (intros ->; congruence). apply lookup_insert_eq. }
  intros w4 f p path m out3 b3 Hin Hh Hpath Hu Hnorm Hchunks Ho3 Hout3.
  specialize (Hread f p Hin Hnorm Hchunks).
  destruct (give_buffer out3 (if_data f) w4 b3 Hout3) as (Hb5 & Hbytes5 & _).
  exists (give out3 (if_data f) w4), (given (if_data f) (w_memory w4)). split_and!; [|done|done].
  unfold rasen_archive_read, ffi_call. rewrite (st_bind_run _ _ _ p w4) by (by rewrite (utf8_run _ _ _ _ p), Hu).
  etrans; [apply (read_buffer_run (new_address (w_memory w2)) out3 (fun inner => Reader.read inner p) a b3 w4);
    by rewrite ?Hread|by cbv beta; rewrite Hread].
Qed.

(** ** Witnesses *)

(** A run from its outcome. *)
Lemma outcome {X Y} (m : X * Y) x : m.1 = x -> m = (x, m.2).
Proof. by intros <-; destruct m. Qed.

Lemma buffer_at_cell `{Host} (m : Memory) p b : buffer_at m p = Some b -> m !! p = Some (CBuffer b).
Proof. unfold buffer_at. destruct (m !! p) as [[]|]; try discriminate. by intros [= ->]. Qed.

Module SpecDemo.
Import FfiDemo.

(** The files of [Roundtrip.Demo] in a program's memory, and its options. *)
Definition input_array : list RasenInputFile := [
  {| rf_path := 11; rf_path_len := 4; rf_data := 12; rf_data_len := 5 |};
  {| rf_path := 4; rf_path_len := 1; rf_data := 13; rf_data_len := 9 |}].

Definition memory1 : Memory := list_to_map [
  (1, CBytes archive_bytes); (2, CBytes Demo.key); (3, CPtr 0); (4, CBytes (lit "c"));
  (5, CBuffer default_buffer); (10, CFiles input_array); (11, CBytes (lit "a//b"));
  (12, CBytes (lit "hello")); (13, CBytes (replicate 9 x7a)); (14, CPackOptions (options_to_c Demo.options))].

Definition before : World := set_memory memory1 start.

Lemma arguments : PackArguments before 10 2 2 (len Demo.key) 14 Demo.files Demo.key Demo.options.
Proof. constructor; [reflexivity|reflexivity|reflexivity|exact Demo.options_range]. Qed.

Definition packed_world : World :=
  (rasen_pack_memory (C := Toy.crates) 10 2 2 (len Demo.key) 14 5 null before).2.

Lemma pack_runs :
  rasen_pack_memory (C := Toy.crates) 10 2 2 (len Demo.key) 14 5 null before = (Ok SOk, packed_world).
Proof.
  unfold packed_world. apply outcome. vm_compute. reflexivity.
Qed.

Definition read_at {C : Crates} (m : Memory) (p : ptr) (path : bytes) : Res bytes :=
  match m !! p with Some (CArchive a) => Reader.read (ra_inner a) path | _ => Panic end.
End SpecDemo.
Import FfiDemo SpecDemo.

Lemma rasen_archive_read_spec_witness :
  rasen_archive_read (C := Toy.crates) 6 4 1 5 FfiDemo.opened =
    (Ok SOk, give 5 (replicate 9 x7a) FfiDemo.opened).
Proof.
  destruct (owed_archive (w_memory FfiDemo.opened) 6 (99, 42)) as (a & Ha & _); [vm_compute; reflexivity|].
  pose proof (reachable_good (C := Toy.crates) (lookup := Plain.lookup) (data := Plain.data) _ _
    FfiDemo.opened_reachable) as Hg.
  assert (Hr : read_at (C := Toy.crates) (w_memory FfiDemo.opened) 6 (lit "c") = Ok (replicate 9 x7a))
    by (vm_compute; reflexivity).
  unfold read_at in Hr. rewrite Ha in Hr. destruct a as [self].
  assert (Hb : buffer_at (w_memory FfiDemo.opened) 5 = Some default_buffer) by (vm_compute; reflexivity).
  apply buffer_at_cell in Hb.
  destruct (rasen_archive_read_spec (C := Toy.crates) (H := FfiDemo.host) 6 4 1 5 FfiDemo.opened self (lit "c") default_buffer)
    as (Hrun & _).
  - discriminate.
  - exact Ha.
  - apply (good_cells _ _ Hg 6 _ Ha).
  - discriminate.
  - exact Hb.
  - vm_compute. reflexivity.
  - rewrite Hrun. cbn [ra_inner] in Hr. rewrite Hr. reflexivity.
Defined.

Lemma pack_memory_roundtrip_witness :
  exists handle, let w := (rasen_archive_open_memory (C := Toy.crates) 1 (len archive_bytes) 2 (len Demo.key) null 3 start).2 in
    bytes_at (w_memory packed_world) 15 = Some archive_bytes /\
    exists w5 buffer, rasen_archive_read (C := Toy.crates) handle 4 1 5 w = (Ok SOk, w5) /\
      buffer_bytes (w_memory w5) buffer = Some (replicate 9 x7a).
Proof.
  destruct (pack_memory_roundtrip (C := Toy.crates) (H := host) before packed_world 10 2 2 (len Demo.key) 14 5
    default_buffer Demo.files Demo.key Demo.options arguments) as (buffer & packed & h & assets & Hb & Hp & Hh & Hfa & Hopen).
  - discriminate.
  - reflexivity.
  - exact pack_runs.
  - assert (Hbuf : buffer_at (w_memory packed_world) 5 = Some {| rb_data := 15; rb_len := len archive_bytes |})
      by (vm_compute; reflexivity).
    apply buffer_at_cell in Hbuf. rewrite Hb in Hbuf. injection Hbuf as ->.
    assert (Hbytes : slice_at (w_memory packed_world) 15 (len archive_bytes) = Some archive_bytes)
      by (vm_compute; reflexivity).
    unfold buffer_bytes in Hp. cbn [rb_data rb_len] in Hp. rewrite Hbytes in Hp. injection Hp as <-.
    apply Demo.files_assets_eq in Hfa as ->.
    assert (Hh' : (read_header archive_bytes).1 = Ok Demo.header) by (vm_compute; reflexivity).
    rewrite Hh' in Hh. injection Hh as <-.
    destruct (Hopen start 1 (len archive_bytes) 2 (len Demo.key) null default_limits 3 0)
      as (w3 & handle & a & Hrun & _ & _ & Ha & Hread).
    + vm_compute. reflexivity.
    + vm_compute. reflexivity.
    + reflexivity.
    + vm_compute. intuition congruence.
    + exact Demo.fits.
    + discriminate.
    + reflexivity.
    + exists handle. rewrite Hrun. cbn [snd]. split; [vm_compute; reflexivity|].
      assert (E : w3 = (rasen_archive_open_memory (C := Toy.crates) 1 (len archive_bytes) 2 (len Demo.key) null 3 start).2)
        by (by rewrite Hrun).
      assert (Hb5 : buffer_at (w_memory w3) 5 = Some default_buffer) by (rewrite E; vm_compute; reflexivity).
      apply buffer_at_cell in Hb5.
      destruct (Hread w3 {| if_path := lit "c"; if_data := replicate 9 x7a |} (lit "c") 4 1 5 default_buffer)
        as (w5 & b5 & Hr & _ & Hd).
      * right. by left.
      * exact Ha.
      * rewrite E. vm_compute. reflexivity.
      * reflexivity.
      * reflexivity.
      * vm_compute. congruence.
      * discriminate.
      * exact Hb5.
      * exists w5, b5. split; [exact Hr|exact Hd].
Defined.

(** ** Where the code departs from its header *)

Section Divergences.
Context {C : Crates} {H : Host} {A : Allocator}.

(** The right side of [*required_mut(out)? = Box::into_raw(..)] is evaluated
    first: the scratch of a refused call is never freed. *)
Lemma scratch_new_null_leaks w :
  exists w', rasen_scratch_new null w = (Ok SNullPointer, w') /\
    w_memory w' = <[new_address (w_memory w) := CScratch {| rsc_inner := empty_scratch |}]> (w_memory w) /\
    w_memory w !! new_address (w_memory w) = None.
Proof.
  eexists. split; [reflexivity|]. split; [reflexivity|]. apply new_address_spec.
Qed.

(** The header says that a failed call leaves its outputs unchanged; a range
    read with a null [out_read] fails after it has filled [dst]. *)
Lemma read_range_into_null_fills archive path n offset dst dst_len self p d amount d' w :
  archive <> null -> w_memory w !! archive = Some (CArchive {| ra_inner := self |}) ->
  slice_at (w_memory w) path n = Some p -> utf8_valid p = true -> overlap path n dst dst_len = false ->
  dst <> null -> dst_len <> 0 -> w_memory w !! dst = Some (CBytes d) -> len d = dst_len ->
  read_range_into self p offset d = (Ok amount, d') -> len d' = len d ->
  exists w', rasen_archive_read_range_into archive path n offset dst dst_len null w = (Ok SNullPointer, w') /\
    w_memory w' !! dst = Some (CBytes d').
Proof.
  intros Ha Harch Hp Hu Hov Hd Hn Hcell <- Hread Hlen. unfold rasen_archive_read_range_into, ffi_call.
  rewrite (st_bind_run _ _ _ self w) by (by apply archive_ref_run).
  rewrite (st_bind_run _ _ _ p w) by (by rewrite (utf8_run _ _ _ _ p), Hu).
  set (w1 := set_memory (alter (splice_cell d') dst (w_memory w)) w).
  assert (Hslice : into_slice path n dst (len d) (read_range_into self p offset) w = (Ok amount, w1)).
  { unfold into_slice. rewrite (st_bind_run _ _ _ d w).
    2:{ unfold bytes_mut, is_null. destruct (Z.eqb_spec (len d) 0); [done|].
        destruct (Z.eqb_spec dst null); [done|]. rewrite Hov. unfold load_bytes, memory, get, mbind, st_bind. cbn.
        unfold raw_bytes. by rewrite Hcell, slice_get_all. }
    rewrite Hread. unfold end_borrow. destruct (Z.eqb_spec (len d) 0); [done|]. done. }
  rewrite (st_bind_run _ _ _ amount w1) by done. eexists. split; [reflexivity|]. cbn.
  rewrite lookup_alter_eq, Hcell. cbn. do 2 f_equal. unfold splice.
  change (Z.to_nat 0) with 0%nat. rewrite take_0, app_nil_l, drop_ge, app_nil_r; [done|].
  unfold len in Hlen. lia.
Qed.
End Divergences.
