(* ===== verification/FfiFile.v ===== *)
(** * The C interface: packing to files

    What [rasen_pack_file] does to the operating system's files, on every
    outcome. *)
From S2P Require Export FfiSpec.

Section Frame.
Context {C : Crates} {W : Type} `{WriteSeek W} (R : W -> W -> Prop) `{!Framing R}.

Lemma pack_buffered_framed files key o w n : R w (pack_buffered files key o (w, n)).2.1.
Proof using All.
  unfold pack_buffered. pose proof (new_framed R key o w) as Hn.
  destruct (new key o w) as [[p|e|] w1]; [|done..]. cbn in Hn. etrans; [exact Hn|].
  pose proof (add_files_finish_framed R files {| ps_writer := w1; ps_nonces := n; ps_self := p |}) as Hf.
  unfold via in Hf. by destruct ((add_files files;; finish) _).
Qed.
End Frame.

Section Files.
Context {C : Crates} {H : Host} {A : Allocator} `{!CompressSpec C} `{!AeadSpec C} `{!HashSpec C}.
Context {lookup : Files -> bytes -> option Z} {data : Files -> Z -> bytes} `{!FileSystemSpec lookup data}.

(** A new file was packed to. *)
Lemma file_packing_spec file files key o w :
  options_in_range o -> Forall (fun f => utf8_valid (if_path f) = true) files ->
  exists r f n, file_packing file files key o w = (r, set_nonces n (set_files f w)) /\
    (forall p, lookup f p = lookup (w_files w) p) /\
    (forall j, j <> file -> data f j = data (w_files w) j) /\
    match r with
    | Ok s => archive_of files key o s (data f file)
    | Err (Failed e) => reported e
    | _ => False
    end.
Proof using All.
  intros Ho Hf. set (fw := {| fw_files := w_files w; fw_file := file; fw_pos := 0 |}).
  pose proof (pack_buffered_framed (other_files (lookup := lookup) (data := data)) files key o fw (w_nonces w))
    as (Hfile & Hnames & Hdata).
  pose proof (pack_buffered_safe (W := FileWriter Files) (contents := fw_contents (data := data))
    files key o fw (w_nonces w) Ho Hf) as Hs.
  unfold file_packing, with_writer_of. cbv beta. fold fw. unfold ssafe in Hs.
  destruct (pack_buffered files key o (fw, w_nonces w)) as [r [wr n]] eqn:E. cbn in Hfile, Hnames, Hdata.
  exists (map_err failed r), (fw_files wr), n. split_and!; [done|done|done|].
  destruct r as [s|e|]; [|apply core_status_reported|done]. destruct Hs as [_ Ha]. cbn.
  unfold fw_contents in Ha. cbn in Ha. by rewrite <- Hfile.
Qed.

(** The summary, if one is asked for. *)
Definition summarized (summary : ptr) (s : PackSummary) (m : Memory) : Memory :=
  if is_null summary then m else <[summary := CSummary (summary_to_c s)]> m.

Lemma assign_summary_run summary s w :
  optional (w_memory w) summary KSummary ->
  assign_optional summary (summary_to_c s) w = (Ok tt, set_memory (summarized summary s (w_memory w)) w).
Proof.
  intros Hs. unfold assign_optional, summarized, is_null. destruct (Z.eqb_spec summary null); [by destruct w|].
  destruct Hs as [|(c & Hc & Hk)]; [done|]. destruct c; try done.
  by rewrite (assign_run summary v).
Qed.
End Files.

(** ** Properties *)

(** C14 [rasen_pack_file], on every outcome: it never replaces a file (a name
    that leads to one is refused), and whatever happens every file that was
    there keeps its names and its content.  A success leaves a new file at the
    path that is the archive of the inputs, and the caller gets its summary; a
    failure leaves the caller's memory as it was, and the path leads where it
    led before, unless the system refused to remove the unfinished file. *)
Theorem rasen_pack_file_spec {C : Crates} {H : Host} {A : Allocator} `{!CompressSpec C} `{!AeadSpec C}
    `{!HashSpec C} {lookup : Files -> bytes -> option Z} {data : Files -> Z -> bytes}
    `{!FileSystemSpec lookup data} (w : World) path n p files count key key_len options summary l k o :
  PackArguments w files count key key_len options l k o ->
  slice_at (w_memory w) path n = Some p -> utf8_valid p = true -> optional (w_memory w) summary KSummary ->
  exists status w', rasen_pack_file path n files count key key_len options summary w = (Ok status, w') /\
    files_kept lookup data (w_files w) (w_files w') /\
    (lookup (w_files w) p <> None -> status <> SOk) /\
    match status with
    | SOk => exists i s, lookup (w_files w') p = Some i /\ archive_of l k o s (data (w_files w') i) /\
        w_memory w' = summarized summary s (w_memory w)
    | _ => w_memory w' = w_memory w /\
        (lookup (w_files w') p = lookup (w_files w) p \/ exists f e, fs_remove_file p f = (Err e, w_files w'))
    end.
Proof.
  intros [Hf Hk Ho Hr] Hp Hu Hsum. pose proof (buffered_inputs_utf8 _ _ _ _ _ Hf) as Hutf.
  unfold rasen_pack_file, ffi_call.
  rewrite (st_bind_run _ _ _ p w) by (by rewrite (utf8_run _ _ _ _ p), Hu).
  rewrite (st_bind_run _ _ _ l w) by done. rewrite (st_bind_run _ _ _ k w) by (by apply bytes_run).
  rewrite (st_bind_run _ _ _ o w) by done.
  pose proof (fs_create_new_spec lookup data p (w_files w)) as Hc. unfold ssafe in Hc.
  destruct (fs_create_new p (w_files w)) as [[i|e|] f1] eqn:E; [| |done].
  2:{ erewrite st_bind_err by (unfold os; rewrite E; reflexivity). eexists _, _. split; [reflexivity|]. cbn.
      destruct Hc as [Hn Hd]. split; [by intros q j <-|]. split; [done|]. split; [done|]. by left. }
  rewrite (st_bind_run _ _ _ i (set_files f1 w)) by (unfold os; by rewrite E). clear E.
  destruct Hc as (Hnone & Hfresh & Hat & _ & Hnames & Hdata & _).
  destruct (file_packing_spec i l k o (set_files f1 w) Hr Hutf) as (r & f2 & m & Hrun & Hn2 & Hd2 & Hout).
  cbn [w_files set_files] in Hn2, Hd2.
  assert (Hkept : files_kept lookup data (w_files w) f2).
  { intros q j Hq. rewrite Hn2. assert (j <> i) by (intros ->; by apply (Hfresh q)).
    split; [by apply Hnames|]. by rewrite Hd2, Hdata. }
  fold (file_packing i l k o). destruct r as [s|[e|]|]; [| |done..].
  - rewrite (st_bind_run _ _ _ s (set_nonces m (set_files f2 w))) by (unfold or_cleanup; by rewrite Hrun).
    rewrite (assign_summary_run summary s) by done. eexists _, _. split; [reflexivity|]. cbn.
    split_and!; [done|by rewrite Hnone|]. exists i, s. split_and!; [by rewrite Hn2|done|done].
  - pose proof (fs_remove_file_spec lookup data p f2) as Hrm. unfold ssafe in Hrm.
    erewrite st_bind_err by (unfold or_cleanup; rewrite Hrun; reflexivity). eexists _, _. split; [reflexivity|].
    cbn. destruct (fs_remove_file p f2) as [[u|e'|] f3] eqn:E3; [| |done]; cbn.
    + destruct Hrm as (Hd3 & Hp3 & _ & Hk3). split.
      { intros q j Hq. destruct (Hkept q j Hq) as [Hq2 Hj]. rewrite Hd3. split; [|done].
        apply Hk3; [done|]. rewrite Hn2, Hat. intros [= ->]. by apply (Hfresh q). }
      split; [by rewrite Hnone|]. destruct Hout as [Hne _].
      destruct (ff_status e); try done; (split; [done|]; left; congruence).
    + destruct Hrm as [Hl3 Hd3]. split.
      { intros q j Hq. rewrite Hl3, Hd3. by apply Hkept. }
      split; [by rewrite Hnone|]. destruct Hout as [Hne _].
      destruct (ff_status e); try done; (split; [done|]; right; by exists f2, e').
Qed.

(** ** Packing streams *)

Section Streams.
Context {C : Crates} {H : Host} {A : Allocator} `{!CompressSpec C} `{!AeadSpec C} `{!HashSpec C}.

(** What a stream stands for: its path, and what its callback still delivers. *)
Record StreamFile (w : World) (input : RasenStreamInput) (f : InputFile) : Prop := {
  sf_path : slice_at (w_memory w) (ss_path input) (ss_path_len input) = Some (if_path f);
  sf_utf8 : utf8_valid (if_path f) = true;
  sf_data : stream_rest (w_streams w (ss_user_data input)) = if_data f
}.

Abbreviation sink_inv := (PackInv (C := C) (cw_contents (V := UserSink)) cw_stands).

(** What packing into a sink keeps: the memory, the files and, until its end,
    the sinks of the world. *)
Definition aside (w w' : World) : Prop :=
  untouched w w' /\ w_files w' = w_files w /\ w_sinks w' = w_sinks w.

(** Between two inputs: the packer holds the assets so far; the memory and the
    streams to come are those of the start. *)
Definition streaming (w : World) (o : PackOptions) (key : bytes) (todo : list RasenStreamInput)
    (assets : list (bytes * bytes)) (ws : World * Packing) : Prop :=
  packing w o key ws /\ sink_inv ws.2 assets /\ w_files ws.1 = w_files w /\ w_sinks ws.1 = w_sinks w /\
  forall i, i ∈ todo -> w_streams ws.1 (ss_user_data i) = w_streams w (ss_user_data i).

Lemma add_stream_streaming w o key input todo f assets ws :
  StreamFile w input f -> ss_user_data input ∉ ss_user_data <$> todo ->
  streaming w o key (input :: todo) assets ws ->
  csafe2 (add_stream input) ws
    (fun _ ws' => exists q, normalize_path (if_path f) = Ok q /\
       streaming w o key todo (assets ++ [(q, if_data f)]) ws') (fun ws' => aside w ws'.1).
Proof using All.
  intros [Hp Hu Hd] Hnew (((Hm & Hdes) & a0 & _ & Ho & Hk) & Hinv & Hfiles & Hsinks & Hst).
  destruct ws as [w1 s]. cbn [fst snd] in *. unfold csafe2, add_stream, on_fst, zoom, mbind, st_bind. cbn.
  rewrite (utf8_run _ _ _ _ (if_path f)) by (by rewrite Hm). rewrite Hu. cbn. unfold add_callback_reader.
  set (reader := {| cr_user := w_streams w1 (ss_user_data input); cr_read := ss_read input |}).
  pose proof (add_reader_safe (contents := cw_contents) (position := cw_stands) (if_path f) s reader assets Hinv Hu) as Hr.
  unfold ssafe in Hr. destruct (add_reader (if_path f) (s, reader)) as [[[]|e|] [s' r']]; cbn in *; [| |done].
  2:{ split; [apply core_status_reported|]. by split_and!. }
  destruct Hr as (q & Hq & Hi & Ho' & Hk'). exists q. split; [done|].
  rewrite (Hst input ltac:(by left)), Hd in Hi. unfold streaming, packing, untouched. cbn.
  split_and!; [done|done| |done|done|done|].
  - exists (assets ++ [(q, if_data f)]). split_and!; [done|congruence..].
  - intros i Hin. rewrite fn_lookup_insert_ne; [by apply Hst; right|]. intros Heq. apply Hnew. rewrite Heq.
    by apply list_elem_of_fmap_2.
Qed.

Lemma add_streams_streaming w o key inputs files assets ws :
  Forall2 (StreamFile w) inputs files -> NoDup (ss_user_data <$> inputs) ->
  streaming w o key inputs assets ws ->
  csafe2 (add_streams inputs) ws
    (fun _ ws' => exists more, files_assets files more /\ streaming w o key [] (assets ++ more) ws')
    (fun ws' => aside w ws'.1).
Proof using All.
  intros Hf. revert assets ws. induction Hf as [|i f inputs files Hi Hf IH]; intros assets ws Hnd Hs.
  { exists []. rewrite app_nil_r. by repeat constructor; try apply Hs. }
  cbn [fmap list_fmap] in Hnd. apply NoDup_cons in Hnd as [Hnew Hnd]. cbn [add_streams].
  eapply csafe2_bind; [by eapply add_stream_streaming|]. intros [] ws1 (q & Hq & Hs1).
  specialize (IH _ _ Hnd Hs1). unfold csafe2 in *.
  destruct (add_streams inputs ws1) as [[[]|[e|]|] ws2]; [|done..]. destruct IH as (more & Hm & Hs2).
  exists ((q, if_data f) :: more). split; [by constructor|]. by rewrite <- app_assoc in Hs2.
Qed.

(** A run over a sink. *)
Lemma pack_inputs_spec inputs files key o writer w :
  options_in_range o -> Forall2 (StreamFile w) inputs files -> NoDup (ss_user_data <$> inputs) ->
  exists r w', pack_inputs inputs key o writer w = (r, w') /\ untouched w w' /\ w_files w' = w_files w /\
    (forall p, p <> rw_user_data writer -> w_sinks w' p = w_sinks w p) /\
    match r with
    | Ok s => sink_contents (w_sinks w (rw_user_data writer)) = [] /\
        archive_of files key o s (sink_contents (w_sinks w' (rw_user_data writer)))
    | Err (Failed e) => reported e
    | _ => False
    end.
Proof using All.
  intros Ho Hf Hnd. unfold pack_inputs. set (cw := {| cw_user := _; cw_callbacks := _; cw_position := _ |}).
  pose proof (new_safe (contents := cw_contents) (position := cw_stands) key o cw Ho) as Hn.
  unfold ssafe in Hn. destruct (new key o cw) as [[p|e|] cw1]; [| |done].
  2:{ eexists _, _. split; [done|]. split_and!; [done..| |apply core_status_reported].
      intros q Hq. cbn. by rewrite fn_lookup_insert_ne. }
  destruct Hn as (Hempty & Hop & Hkey & Hinv).
  set (s0 := {| ps_writer := cw1; ps_nonces := w_nonces w; ps_self := p |}).
  assert (Hs : streaming w o key inputs [] (w, s0)).
  { split_and!; [|apply Hinv|done..]. split; [done|]. exists []. split; [apply Hinv|done]. }
  pose proof (add_streams_streaming w o key inputs files [] (w, s0) Hf Hnd Hs) as Hadd.
  assert (Hrun : csafe2 (add_streams inputs;; on_snd (st_map_err failed finish)) (w, s0)
    (fun sum ws' => aside w ws'.1 /\
       archive_of files key o sum (cw_contents (ps_writer ws'.2))) (fun ws' => aside w ws'.1)).
  { eapply csafe2_bind; [exact Hadd|]. intros _ [w1 s1] (assets & Ha & (Hu & a0 & _ & Ho1 & Hk1) & Hi & Hfs & Hsk & _).
    cbn [fst snd] in *. pose proof (finish_safe s1 _ Hi) as Hfin. unfold ssafe in Hfin.
    unfold csafe2, on_snd, zoom, st_map_err. cbn [snd fst].
    destruct (finish s1) as [[sum|e|] s2]; cbn; [|by split; [apply core_status_reported|split_and!]|done].
    destruct Hfin as (h & es & cs & pieces & Hp & Hsum). rewrite Ho1, Hk1 in Hp.
    split; [by split_and!|]. by exists assets, h, es, cs, pieces. }
  unfold csafe2 in Hrun. destruct ((add_streams inputs;; _) _) as [[sum|[f|]|] [w1 s1]]; [| |done..].
  - destruct Hrun as ((Hu & Hfs & Hsk) & Ha). cbn [fst] in Hsk. eexists _, _. split; [done|].
    cbn. rewrite fn_lookup_insert. split_and!; [by split; apply Hu|done| |done|done].
    intros q Hq. by rewrite fn_lookup_insert_ne, Hsk.
  - destruct Hrun as [? (Hu & Hfs & Hsk)]. cbn [fst] in Hsk. eexists _, _. split; [done|].
    split_and!; [by split; apply Hu|done| |done]. intros q Hq. cbn. by rewrite fn_lookup_insert_ne, Hsk.
Qed.
End Streams.

(** C37 [rasen_pack_streams], on every outcome, over any callbacks that keep
    their contract: a success has drained each stream and left, in the sink
    that was empty, the archive of what the streams delivered under their
    paths, and gives its summary; a failure reports a status and leaves the
    caller's memory as it was.  Either way no other sink and no file is
    touched.  (The streams are distinct.) *)
Theorem rasen_pack_streams_spec {C : Crates} {H : Host} {A : Allocator} `{!CompressSpec C} `{!AeadSpec C}
    `{!HashSpec C} (w : World) inputs count l files key key_len k options o writer wr summary :
  raw_slice streams_cell inputs count "inputs" w = (Ok l, w) -> Forall2 (StreamFile w) l files ->
  NoDup (ss_user_data <$> l) -> slice_at (w_memory w) key key_len = Some k ->
  writer <> null -> w_memory w !! writer = Some (CWriter wr) ->
  pack_options options w = (Ok o, w) -> options_in_range o -> optional (w_memory w) summary KSummary ->
  exists status w', rasen_pack_streams inputs count key key_len options writer summary w = (Ok status, w') /\
    possible status /\ w_files w' = w_files w /\
    (forall p, p <> rw_user_data wr -> w_sinks w' p = w_sinks w p) /\
    match status with
    | SOk => exists s, sink_contents (w_sinks w (rw_user_data wr)) = [] /\
        archive_of files k o s (sink_contents (w_sinks w' (rw_user_data wr))) /\
        w_memory w' = summarized summary s (w_memory w)
    | _ => w_memory w' = w_memory w
    end.
Proof.
  intros Hin Hf Hnd Hk Hw Hwr Ho Hr Hsum. unfold rasen_pack_streams, ffi_call.
  rewrite (st_bind_run _ _ _ l w) by done. rewrite (st_bind_run _ _ _ k w) by (by apply bytes_run).
  rewrite (st_bind_run _ _ _ wr w) by (by apply required_ref_run). rewrite (st_bind_run _ _ _ o w) by done.
  destruct (pack_inputs_spec l files k o wr w Hr Hf Hnd) as (r & w1 & Hrun & [Hm _] & Hfs & Hsk & Hout).
  destruct r as [s|[e|]|]; [| |done..].
  - rewrite (st_bind_run _ _ _ s w1) by done. rewrite (assign_summary_run summary s) by (by rewrite Hm).
    eexists _, _. split; [reflexivity|]. destruct Hout as (He & Ha). split_and!; [done..|].
    exists s. cbn. by rewrite Hm.
  - rewrite (st_bind_err _ _ _ _ _ Hrun). destruct Hout as [H1 H2]. eexists _, _. split; [reflexivity|].
    split_and!; [done..|]. destruct (ff_status e); done.
Qed.

(** ** Witnesses *)

Module FileDemo.
Import FfiDemo SpecDemo.

(** Callbacks over streams and sinks in memory. *)
Definition cursor_fns : SinkFns (@UserSink host).
Proof.
  refine {| sk_write := Some (fun v s => (0, (write_all s v).2));
            sk_seek := Some (fun v p => (0, (seek_start p v).2));
            sk_len := Some (fun v => (0, len (vc_data v), v)) |}.
  - intros f v s v' [= <-] _ [= <-]. done.
  - intros f v p v' [= <-] [= <-]. done.
  - intros f v n v' [= <-] [= <- <-]. done.
Defined.

Definition stream_fn : RasenReadFn (@UserStream host).
Proof.
  refine {| rd_call := fun u dst =>
    (0, len (take (length dst) u), splice dst 0 (take (length dst) u), drop (length dst) u) |}.
  intros u dst. unfold splice, len. change (Z.to_nat 0) with 0%nat. rewrite take_0, app_nil_l, Nat2Z.id.
  split_and!; [|lia|].
  - rewrite length_app, length_drop, length_take. lia.
  - intros _ _. split_and!.
    + rewrite length_take. cbn. lia.
    + cbn. rewrite take_app_length, length_take. destruct (decide (length dst <= length u)%nat);
        [by rewrite Nat.min_l by lia|]. rewrite Nat.min_r by lia. by rewrite !take_ge by lia.
    + cbn. rewrite length_take. destruct (decide (length dst <= length u)%nat); [by rewrite Nat.min_l by lia|].
      rewrite Nat.min_r by lia. by rewrite !drop_ge by lia.
    + cbn. rewrite length_take. intros Hz. destruct dst; [by left|]. destruct u; [by right|]. cbn in Hz. lia.
Defined.

Definition stream_array : list RasenStreamInput := [
  {| ss_path := 11; ss_path_len := 4; ss_user_data := 1; ss_read := Some stream_fn |};
  {| ss_path := 4; ss_path_len := 1; ss_user_data := 2; ss_read := Some stream_fn |}].

Definition sink_struct : RasenWriter := {| rw_user_data := 7; rw_callbacks := cursor_fns |}.

Definition memory2 : Memory := <[20 := CStreams stream_array]> (<[21 := CWriter sink_struct]> memory1).

Definition streams0 : World :=
  set_stream 1 (lit "hello") (set_stream 2 (replicate 9 x7a) (set_memory memory2 start)).

Definition sink_bytes (w : World) (p : ptr) : bytes := vc_data (w_sinks w p).
Definition file_bytes (w : World) (p : bytes) : option bytes :=
  Plain.data (w_files w) <$> Plain.lookup (w_files w) p.
End FileDemo.
Import FfiDemo SpecDemo FileDemo.

Lemma rasen_pack_file_spec_witness :
  exists w', rasen_pack_file (C := Toy.crates) 4 1 10 2 2 (len Demo.key) 14 null before = (Ok SOk, w') /\
    file_bytes w' (lit "c") = Some archive_bytes /\
    exists w2, rasen_pack_file (C := Toy.crates) 4 1 10 2 2 (len Demo.key) 14 null w' = (Ok SIo, w2) /\
      file_bytes w2 (lit "c") = Some archive_bytes.
Proof.
  destruct (rasen_pack_file_spec (C := Toy.crates) (H := host) (lookup := Plain.lookup) (data := Plain.data)
    before 4 1 (lit "c") 10 2 2 (len Demo.key) 14 null Demo.files Demo.key Demo.options arguments)
    as (status & w' & Hrun & _ & _ & Hok); [reflexivity|reflexivity|by left|].
  assert (E : (rasen_pack_file (C := Toy.crates) 4 1 10 2 2 (len Demo.key) 14 null before).1 = Ok SOk)
    by (vm_compute; reflexivity).
  assert (Ew : w' = (rasen_pack_file (C := Toy.crates) 4 1 10 2 2 (len Demo.key) 14 null before).2)
    by (rewrite Hrun; reflexivity).
  rewrite Hrun in E. injection E as ->. exists w'. split; [exact Hrun|].
  assert (Hb : file_bytes w' (lit "c") = Some archive_bytes) by (rewrite Ew; vm_compute; reflexivity).
  split; [exact Hb|].
  eexists. split; [apply outcome; rewrite Ew; vm_compute; reflexivity|]. rewrite Ew. vm_compute. reflexivity.
Defined.

Lemma rasen_pack_streams_spec_witness :
  exists w' s, rasen_pack_streams (C := Toy.crates) 20 2 2 (len Demo.key) 14 21 null streams0 = (Ok SOk, w') /\
    archive_of (C := Toy.crates) Demo.files Demo.key Demo.options s (sink_bytes w' 7) /\
    sink_bytes w' 7 = archive_bytes.
Proof.
  destruct (rasen_pack_streams_spec (C := Toy.crates) (H := host) streams0 20 2 stream_array Demo.files
    2 (len Demo.key) Demo.key 14 Demo.options 21 sink_struct null) as (status & w' & Hrun & _ & _ & _ & Hok).
  - reflexivity.
  - repeat constructor.
  - apply (bool_decide_unpack _). vm_compute. exact I.
  - reflexivity.
  - discriminate.
  - reflexivity.
  - reflexivity.
  - exact Demo.options_range.
  - by left.
  - assert (E : (rasen_pack_streams (C := Toy.crates) 20 2 2 (len Demo.key) 14 21 null streams0).1 = Ok SOk)
      by (vm_compute; reflexivity).
    assert (Ew : w' = (rasen_pack_streams (C := Toy.crates) 20 2 2 (len Demo.key) 14 21 null streams0).2)
      by (rewrite Hrun; reflexivity).
    rewrite Hrun in E. injection E as ->. destruct Hok as (s & _ & Ha & _).
    exists w', s. split; [exact Hrun|]. split; [exact Ha|]. rewrite Ew. vm_compute. reflexivity.
Defined.
